(* ===== verification/_CoqProject ===== *)
-Q . S2P
Prelude.v
Config.v
Regex.v
Uri.v
Streams.v
WriteBuffer.v
ReadBuffer.v
BufferedSource.v
Serialization.v
Message.v
SyncFunction.v
Dispatcher.v
UriMappings.v
ConfigMap.v
MiddlewareConfig.v
Logging.v
MeetingPoint.v
SingleReaderQueue.v
RwSpinlock.v
ChimeraKey.v
StorageSemaphore.v
BlockingSemaphore.v
TechModule.v
SocketProxy.v
Ipm.v
Session.v
LocalModules.v
ClientChannel.v
MulticastSocket.v
FakeChannel.v
Startup.v
Overlay.v
Bidirsam.v
Scribe.v
IntrusivePtr.v
ModuleLoader.v
KeyRing.v
Route.v
Discovery.v
