(* ===== verification/Prelude.v ===== *)
(** * HAMcast: a verification library

    HAMcast lets applications use group communication over exchangeable
    multicast technologies.  A client process links [libhamcast]; a
    middleware process loads one module per technology and serves all
    clients over a local stream connection.  This library models both sides,
    the modules for IP multicast, for two overlays and for the local host, and
    the routing of the overlay, from the C++ and C sources under
    [src/libhamcast], [src/middleware], [src/modules] and
    [src/utils/chimera], and proves what makes it correct.

    ** How the program is modelled

    A member function of a class is a function in the state monad [M S A] of
    this file: it takes the object, and ends normally ([Ok]), with a C++
    exception ([Throw], the object as the statements before the throw left
    it), or in undefined behaviour ([UB], an access outside a buffer or
    through a dangling pointer).  Buffers are lists of bytes, machine
    integers are [Z] with explicit wrap-around ([u16], [u32], [i32]),
    [std::map] is [gmap] (keyed by the string for URIs) with its iteration
    order written out by sorting where it is observable.  Lock-free and
    locking classes are step systems: any number of threads, one shared
    access per step.  Everything else that shares data does so through
    queues and mutexes, and its operations are single steps.

    ** Parts, files and sources

    - [Prelude]: bytes, integers, the monad, triples, shared lemmas and
      tactics.  [Config]: the constants of [hamcast/config.hpp].
    - [Regex], [Uri]: [uri.cpp], the character-driven parser of HAMcast URIs
      and the IPv4 test of the group (with a matcher by derivatives for the
      regular expression).
    - [Streams]: the interfaces [sink] and [source] as type classes, with
      their laws as classes [SinkSpec], [ReadSomeSpec] and [ReadSpec]; every
      codec theorem is proved against them.  [WriteBuffer], [ReadBuffer],
      [BufferedSource]: [write_buffer.hpp], [buffered_sink.hpp],
      [const_buffer.cpp], [read_buffer.cpp], [buffered_source.hpp], which
      discharge them.
    - [Serialization]: [serialization.cpp/.hpp], all codecs of the IPC
      protocol; [Message]: [ipc/message.hpp], [message.cpp], the messages and
      their views; [SyncFunction]: [ipc/sync_function.hpp], both halves of a
      remote call; [Dispatcher]: [ipc/api.hpp], the functions of the protocol
      and the dispatcher, with the callbacks as a record.
    - [UriMappings]: [uri_mappings.hpp].  [SingleReaderQueue]:
      [single_reader_queue.hpp], the lock-free queue.  [RwSpinlock]:
      [rw_spinlock.cpp].  [StorageSemaphore] and [BlockingSemaphore]: the two
      variants of [storage_semaphore.hpp].
    - [TechModule]: [tech_module.cpp], the worker that owns a technology
      module, its tables of joined groups and its requests.  The module
      behind the C interface is a parameter ([module_fns], [query_fns]).
      [IntrusivePtr]: [intrusive_ptr.hpp], [ref_counted.hpp], counted pointers
      over the interface [Counting].  [ModuleLoader]: the static half of
      [tech_module.cpp], loading of libraries, the table of instances and the
      reference counts of instances and handles.
    - [ConfigMap], [MiddlewareConfig], [Logging]: the INI reader, the file that
      tells clients where the middleware is, and the log.  [MeetingPoint] and
      [Startup]: [main.cpp] of the middleware: that file's life, the
      configuration of modules, the accept loop and the handshake.
    - [SocketProxy]: [socket_proxy.cpp], [send_job.cpp], the middleware's
      side of a client socket: sequence numbers, flow control,
      acknowledgements, interfaces.
    - [Session]: [session.cpp], [ipc/api.hpp], [channel.cpp] and the
      receiving half of [tech_module.cpp]: the process as a whole, with its
      sessions, sockets, modules, event subscribers and the thread of each
      session; the calls of a client arrive through [Dispatcher].
    - [ClientChannel]: [client_channel.cpp], the client's end of the
      connection: the resumable reader, the requests, the numbering and the
      window of outgoing packets.  [MulticastSocket]: [multicast_socket.cpp],
      the object an application uses, and the socket and the channel running
      interleaved.  [FakeChannel]: [fake_client_channel.cpp], a channel with
      the middleware built in.
    - [LocalModules]: [modules/loopback] and [modules/void].  [Ipm]:
      [modules/ipm], IP multicast: the instance, its receive loop and its
      initialization, over a model of the kernel's groups.  [Discovery]:
      [modules/ipm/src/discovery], the sniffers that look for the IGMP or MLD
      router of an interface, their packet filters, the capture device, and
      the interfaces and instances made of what they found.
    - [ChimeraKey] and [KeyRing]: [utils/chimera/src/key.c], the keys of the
      overlay and their arithmetic.  [Route]: [utils/chimera/src/route.c], the
      routing table and the leafsets.
      [Overlay]: [message.c] and [host.c] of the same library, its messages,
      its hosts and their cache.  [Bidirsam]: [modules/bidirsam], the overlay
      multicast module that floods joins and leaves: forwarding tables,
      forwarding of data, name caches and maintenance.  [Scribe]:
      [modules/scribe], the overlay multicast module that builds a tree per
      group: nodes, groups, handlers, calls and maintenance.  In the modules
      the delivery of messages and the hash of the overlay are parameters, as
      is the name service.

    ** What the theorems show

    - The protocol: a remote call behaves like the local one, for every
      function of the protocol ([api_call_roundtrip]); message streams, received packets and events are
      read back as written ([message_stream_roundtrip],
      [recv_message_framing], [event_message_framing], [packet_roundtrip]);
      strings survive exactly when they hold no NUL
      ([string_roundtrip_iff]).
    - Streams: any sequence of reads through the two-buffer source delivers
      the consecutive bytes of the input for every chunking, or throws when a
      read is large against the buffer ([buffered_source_reads_stream]), the buffered sink loses and reorders
      nothing ([buffered_sink_transparent]), writes on every branch
      ([wb_write_functional]) and what a failed one leaves behind
      ([wb_write_after_failure]).
    - URIs: printing and parsing ([uri_of_print], [uri_of_reassembles],
      [uri_ipv4_iff], [uri_str_determines]).
    - Concurrency: the queue is FIFO for every interleaving, wakes its reader
      and terminates ([queue_fifo], [queue_no_lost_wakeup],
      [queue_try_pop_total], [queue_null_only_when_empty]); the lock excludes
      and progresses ([rw_mutual_exclusion], [rw_lock_unlock_progress]); the
      semaphores account exactly ([semaphore_exact],
      [blocking_semaphore_bounds]), the blocking one loses no wake-up
      ([blocking_semaphore_no_lost_wakeup]) and serves waiting threads exactly
      as long as they fit together ([blocking_semaphore_waiters]).
    - Groups: the worker implements the membership relation
      ([worker_refines_membership], [module_membership_exact]), mappings are
      bijective ([mappings_bijective], [forward_lookup_map_functional]).
    - Modules: packets sent into a joined group come back through the loopback
      module and through IP multicast in their order ([loopback_delivers],
      [ipm_delivers]), the built-in middleware keeps the technology's
      memberships exact ([fake_memberships_exact]); reference counts are exact
      ([refcounts_exact], which also shows the one operation that uses a
      deleted object) and errors of loading leave a sound process
      ([load_error_paths]).  Service discovery reports exactly the routers
      whose queries were captured, or reads behind the capture of a packet
      with a long chain of headers ([discovery_finds_routers]), and gives back
      the capture device ([sniffer_releases_device]).
    - Startup: client and middleware agree in the handshake
      ([handshake_agreement]), INI files are read as written
      ([ini_reader_exact], [ini_roundtrip]), and what the start of the
      middleware makes in the file system and its end removes, on a clean and
      on a used place ([meeting_point_restored]).
    - Sockets and sessions: accounting and numbering of outgoing packets
      ([send_buffer_and_sequence_exact], [handle_async_send_functional]),
      changing interfaces ([set_interfaces_functional]), delivery of received
      packets from the module to the client's stream
      ([receive_delivers_to_members], [queued_packet_written]), events
      ([events_reach_subscribers]), and the end of a session
      ([session_exit_cleans]).
    - The client: its reader cuts any chunking of the stream into the same
      messages, including those whose content it reads twice
      ([client_reads_messages]), its packets go out in order, once
      and within a window ([client_sends_in_order]); a socket and its channel
      together account for every byte of the output storage
      ([out_buffer_exact]), and receiving is a bounded queue
      ([receive_refines_fifo]).
    - The overlay: comparison, common prefixes, digits and encoding of keys
      are those of 96-bit numbers ([key_comp_compares],
      [key_index_is_common_prefix], [key_buffer_roundtrip],
      [create_prefix_truncates]), their distance is that of the ring up to one
      ([key_distance_ring]).  The routing state stays well formed
      ([route_update_sound]), every lookup makes progress and stays inside its
      arrays ([route_lookup_progresses]), hosts are sorted as documented
      ([sort_hosts_sorts]).  The module's tables stay well formed
      ([bidirsam_tables_sound]), lookups find the longest prefix
      ([get_lcp_longest]) and data goes out once per host
      ([bidirsam_one_copy]).  Messages and hosts survive the network
      ([message_buffer_roundtrip], [host_roundtrip]), the cache of hosts
      counts exactly ([host_cache_exact]).  In Scribe a subscription travels
      to the next node and data comes back ([scribe_tree_delivers]), data is
      forwarded once ([scribe_forwards_once]), leaving goes up the tree
      ([scribe_leave_propagates]), children are soft state
      ([scribe_soft_state]), and a history fails only by a message that is
      too short or by data for an unknown group ([scribe_safe]).
    - Defects the models exposed are theorems too: [forced_ack_overshoots],
      [disable_events_enables], [unmappable_request_terminates],
      [event_blocks_channel], [retransmit_stalls],
      [leave_all_keeps_forward_join], [wb_write_after_failure],
      [string_roundtrip_iff], [blocking_semaphore_waiters],
      [bidirsam_maintenance_erases], [bidirsam_names_lost],
      [bidirsam_sends_to_itself], [scribe_unknown_group_locks],
      [scribe_names_lost], [lost_client_stops_middleware],
      [added_interface_loses_group], [ipm_leaves_leak], [modules_stay_loaded],
      [reset_safe_iff], [left_host_stays], [discovered_querier_lost],
      [refresh_protocol_lite_reads_behind], and the undefined or failing
      branches of [client_reads_messages], [discovery_finds_routers],
      [refcounts_exact], [bidirsam_tables_sound], [scribe_safe] and
      [meeting_point_restored].

    ** Bounds and fuel

    Loops that consume a buffer take fuel that the callers compute from the
    size (one unit per byte or per 128-byte chunk), and the theorems show
    that it is enough; running out is [UB] and thus excluded wherever a
    result is proved; the chain of extension headers of a packet takes its
    length ([getSpecificHdr_loop_fuel]).  Sizes are bounded as in the code: 32 bits for strings
    and contents, [default_max_write_buffer_size] for requests, 65536 bytes
    for received packets; the number of threads at the spin lock is below
    2^31; at the blocking semaphore the threads (and two more) times the
    maximum, plus the bytes released beyond those held, stay below 2^31; a socket sends fewer than 2^32 packets; reference counts stay below
    2^31 (the hypotheses [bounded] and [room]).

    ** What is not modelled

    The system calls of [ip_socket.cpp] are input and output; what the module
    uses of them, new descriptors and joined groups, are parameters of [Ipm].
    Of the service discovery, the sniffers that read the tables of [/proc] are
    known by their interface only, the answers of libpcap and of the system
    are parameters, and the threads of [refreshSD] (which use a variable after
    the end of its life) have no meaning to model.  The tunnel module uses accessors of [uri] that the class no
    longer has, so it has no meaning to model.  The dynamic linker, the
    exported functions of a loaded module, the file system, [getpid] and the
    name service are parameters.  Of Chimera, the network layer, the job queue
    and the red-black trees are not modelled; hashing is a parameter.  The
    vendored libraries (ariba, mcpo, boost), the Java API, the example
    programs and the tests are outside.  The allocator does not fail. *)

From Stdlib Require Import ZArith Lia.
From Stdlib Require Export Ascii String.
From Corelib Require Export ssreflect.
From stdpp Require Export base gmap list strings numbers option pretty sorting.
Open Scope Z_scope.

(** ** Bytes and C strings

    A [char] buffer is a list of bytes and a byte is an [ascii] (eight
    booleans), so that character literals of the source are literals here.
    [std::string] is the same list: it may contain NUL bytes. *)

Abbreviation byte := ascii.
Abbreviation bytes := (list ascii).

Definition str (s : string) : bytes := list_ascii_of_string s.

Definition b2z (c : byte) : Z := Z.of_N (N_of_ascii c).
Definition z2b (z : Z) : byte := ascii_of_N (Z.to_N (z mod 256)).

Definition zlen {A} (l : list A) : Z := Z.of_nat (length l).
Definition ztake {A} (n : Z) (l : list A) : list A := take (Z.to_nat n) l.
Definition zdrop {A} (n : Z) (l : list A) : list A := drop (Z.to_nat n) l.

Definition NUL : byte := "000"%char.

(** ** Machine integers

    A value of an unsigned [w]-bit type is a [Z] in [0, 2^w); arithmetic of
    the source wraps explicitly. *)

Definition uwrap (w z : Z) : Z := z mod 2 ^ w.
Definition swrap (w z : Z) : Z := (z + 2 ^ (w - 1)) mod 2 ^ w - 2 ^ (w - 1).

Definition u8 := uwrap 8.
Definition u16 := uwrap 16.
Definition u32 := uwrap 32.
Definition i32 := swrap 32.

Definition fits (w z : Z) : Prop := 0 <= z < 2 ^ w.

(** The object representation of an integer of [n] bytes on the
    (little-endian) platforms the library is built for. *)
Fixpoint le_bytes (n : nat) (z : Z) : bytes :=
  match n with
  | O => []
  | S n' => z2b z :: le_bytes n' (z / 256)
  end.

Fixpoint le_value (l : bytes) : Z :=
  match l with
  | [] => 0
  | c :: l' => b2z c + 256 * le_value l'
  end.

(** ** Outcomes and the state monad of the C++ code

    A member function reads and writes its object and ends normally, with a
    C++ exception, or in undefined behaviour (an access outside a buffer).
    The state survives an exception: the object is left as the statements
    before the [throw] made it. *)

(** [terminated] stands for [std::terminate], which no handler catches: an
    exception left the main function of a thread. *)
Inductive exn :=
  | ios_failure (what : string)
  | requirement_failed (what : string)
  | internal_interface_error (what : string)
  | logic_error (what : string)
  | runtime_error (what : string)
  | range_error (what : string)
  | connection_to_middleware_failed (what : string)
  | terminated (what : string).

Inductive outcome (A : Type) :=
  | Ok (a : A)
  | Throw (e : exn)
  | UB (why : string).
Arguments Ok {A} a.
Arguments Throw {A} e.
Arguments UB {A} why.

Definition M (S A : Type) : Type := S → outcome A * S.

#[export] Instance M_ret S : MRet (M S) := λ A a s, (Ok a, s).
#[export] Instance M_bind S : MBind (M S) := λ A B k m s,
  match m s with
  | (Ok a, s') => k a s'
  | (Throw e, s') => (Throw e, s')
  | (UB w, s') => (UB w, s')
  end.

Definition throw {S A} (e : exn) : M S A := λ s, (Throw e, s).
Definition ub {S A} (why : string) : M S A := λ s, (UB why, s).
Definition get {S} : M S S := λ s, (Ok s, s).
Definition gets {S A} (f : S → A) : M S A := λ s, (Ok (f s), s).
Definition put {S} (s' : S) : M S unit := λ _, (Ok tt, s').
Definition modify {S} (f : S → S) : M S unit := λ s, (Ok tt, f s).

(** [HC_REQUIRE(req)]: throws [requirement_failed] when [req] is false. *)
Definition require {S} (req : bool) (what : string) : M S unit :=
  if req then mret tt else throw (requirement_failed what).

(** A member function of a subobject run inside the enclosing object. *)
Definition zoom {S T A} (view : S → T) (upd : T → S → S) (m : M T A) : M S A :=
  λ s, let '(r, t) := m (view s) in (r, upd t s).

(** A range-based loop whose body may throw. *)
Fixpoint for_each {S A} (l : list A) (body : A → M S unit) : M S unit :=
  match l with
  | [] => mret tt
  | x :: l' => body x ;; for_each l' body
  end.

(** [try { m } catch (e) { h e }]. *)
Definition try_catch {S A} (m : M S A) (h : exn → M S A) : M S A :=
  λ s, match m s with
       | (Throw e, s') => h e s'
       | r => r
       end.

(** ** Triples

    [triple P m Q E]: from a state in [P] the function has no undefined
    behaviour, a normal return is in [Q] and an exception leaves a state in
    [E]. *)
Definition triple {S A} (P : S → Prop) (m : M S A)
    (Q : A → S → Prop) (E : exn → S → Prop) : Prop :=
  ∀ s, P s → match m s with
             | (Ok a, s') => Q a s'
             | (Throw e, s') => E e s'
             | (UB _, _) => False
             end.

Section triples.
Context {S : Type}.
Implicit Types P : S → Prop.
Implicit Types E : exn → S → Prop.

Lemma triple_ret {A} (a : A) P (Q : A → S → Prop) E :
  (∀ s, P s → Q a s) → triple P (mret a) Q E.
Proof. intros H s Hs. by apply H. Qed.

Lemma triple_bind {A B} (m : M S A) (k : A → M S B) P Q R E :
  triple P m Q E → (∀ a, triple (Q a) (k a) R E) →
  triple P (m ≫= k) R E.
Proof.
  intros Hm Hk s Hs. specialize (Hm s Hs).
  rewrite /mbind /M_bind. destruct (m s) as [[a|e|w] s']; [|done|done].
  by apply Hk.
Qed.

Lemma triple_consequence {A} (m : M S A) P P' (Q Q' : A → S → Prop) E E' :
  triple P' m Q' E' → (∀ s, P s → P' s) →
  (∀ a s, Q' a s → Q a s) → (∀ e s, E' e s → E e s) → triple P m Q E.
Proof.
  intros Hm HP HQ HE s Hs. specialize (Hm s (HP s Hs)).
  destruct (m s) as [[a|e|w] s']; eauto.
Qed.

Lemma triple_for_each {A} (l : list A) (body : A → M S unit) P E :
  (∀ x, x ∈ l → triple P (body x) (λ _, P) E) →
  triple P (for_each l body) (λ _, P) E.
Proof.
  induction l as [|x l IH]; intros Hb; simpl.
  - by apply triple_ret.
  - eapply triple_bind; [apply Hb; by left|].
    intros []. apply IH. intros y Hy. apply Hb. by right.
Qed.
End triples.

(** ** Rewriting rules of the monad *)

Lemma bind_ok {S A B} (m : M S A) (k : A → M S B) s a s' :
  m s = (Ok a, s') → (m ≫= k) s = k a s'.
Proof. intros H. by rewrite /mbind /M_bind H. Qed.

Lemma bind_throw {S A B} (m : M S A) (k : A → M S B) s e s' :
  m s = (Throw e, s') → (m ≫= k) s = (Throw e, s').
Proof. intros H. by rewrite /mbind /M_bind H. Qed.

Lemma bind_ub {S A B} (m : M S A) (k : A → M S B) s w s' :
  m s = (UB w, s') → (m ≫= k) s = (UB w, s').
Proof. intros H. by rewrite /mbind /M_bind H. Qed.

Lemma bind_inv_ok {S A B} (m : M S A) (k : A → M S B) s b s'' :
  (m ≫= k) s = (Ok b, s'') →
  ∃ a s', m s = (Ok a, s') ∧ k a s' = (Ok b, s'').
Proof.
  rewrite /mbind /M_bind. destruct (m s) as [[a|e|w] s'] eqn:E; [eauto|done|done].
Qed.

Lemma ret_inv {S A} (a b : A) (s s' : S) :
  (mret a : M S A) s = (Ok b, s') → a = b ∧ s = s'.
Proof. by intros [= -> ->]. Qed.

Lemma require_true {S} what (s : S) : require true what s = (Ok tt, s).
Proof. done. Qed.

Lemma require_inv {S} req what (s s' : S) r :
  require req what s = (r, s') →
  s' = s ∧ ((req = true ∧ r = Ok tt) ∨ (req = false ∧ r = Throw (requirement_failed what))).
Proof. destruct req; intros [= <- <-]; eauto. Qed.

Lemma for_each_app {S A} (l1 l2 : list A) (body : A → M S unit) s :
  for_each (l1 ++ l2) body s = (for_each l1 body ;; for_each l2 body) s.
Proof.
  revert s. induction l1 as [|x l1 IH]; intros s; [done|]. simpl.
  rewrite /mbind /M_bind. destruct (body x s) as [[[]|e|w] s']; [|done|done].
  rewrite IH. done.
Qed.

(** Steps the head of a bind with a proved equation. *)
Ltac step_ok H := rewrite (bind_ok _ _ _ _ _ H).

(** Splits a successful bind in a hypothesis: names for the result, the state
    between, and the first half; the second half keeps the name. *)
Tactic Notation "inv_bind" hyp(H) "as" ident(a) ident(s) ident(H1) :=
  apply bind_inv_ok in H as (a & s & H1 & H).

(** ** Generic facts *)

Create HintDb hamcast discriminated.

Lemma zlen_nonneg {A} (l : list A) : 0 <= zlen l.
Proof. rewrite /zlen. lia. Qed.

Lemma zlen_app {A} (l k : list A) : zlen (l ++ k) = zlen l + zlen k.
Proof. rewrite /zlen length_app. lia. Qed.

Lemma zlen_nil {A} : zlen (@nil A) = 0.
Proof. done. Qed.

Lemma zlen_cons {A} (x : A) l : zlen (x :: l) = 1 + zlen l.
Proof. rewrite /zlen /=. lia. Qed.

Lemma zlen_ztake {A} n (l : list A) : 0 <= n <= zlen l → zlen (ztake n l) = n.
Proof. rewrite /zlen /ztake. intros ?. rewrite length_take. lia. Qed.

Lemma zlen_zdrop {A} n (l : list A) : 0 <= n <= zlen l → zlen (zdrop n l) = zlen l - n.
Proof. rewrite /zlen /zdrop. intros ?. rewrite length_drop. lia. Qed.

Lemma ztake_zdrop {A} n (l : list A) : ztake n l ++ zdrop n l = l.
Proof. apply take_drop. Qed.

Lemma ztake_app {A} (l k : list A) : ztake (zlen l) (l ++ k) = l.
Proof. rewrite /ztake /zlen Nat2Z.id. by rewrite take_app_length. Qed.

Lemma zdrop_app {A} (l k : list A) : zdrop (zlen l) (l ++ k) = k.
Proof. rewrite /zdrop /zlen Nat2Z.id. by rewrite drop_app_length. Qed.

Lemma ztake_all {A} n (l : list A) : zlen l <= n → ztake n l = l.
Proof. rewrite /zlen /ztake. intros ?. apply take_ge. lia. Qed.

Lemma zdrop_all {A} n (l : list A) : zlen l <= n → zdrop n l = [].
Proof. rewrite /zlen /zdrop. intros ?. apply drop_ge. lia. Qed.

Lemma ztake_0 {A} (l : list A) : ztake 0 l = [].
Proof. done. Qed.

Lemma zdrop_0 {A} (l : list A) : zdrop 0 l = l.
Proof. done. Qed.

Lemma zdrop_zdrop {A} n m (l : list A) :
  0 <= n → 0 <= m → zdrop n (zdrop m l) = zdrop (m + n) l.
Proof. intros. rewrite /zdrop drop_drop. f_equal. lia. Qed.

Lemma zdrop_app_le {A} n (l k : list A) :
  0 <= n <= zlen l → zdrop n (l ++ k) = zdrop n l ++ k.
Proof. rewrite /zdrop /zlen. intros. apply drop_app_le. lia. Qed.

Lemma ztake_app_le {A} n (l k : list A) :
  0 <= n <= zlen l → ztake n (l ++ k) = ztake n l.
Proof. rewrite /ztake /zlen. intros. apply take_app_le. lia. Qed.

Lemma zlen_zero_nil {A} (l : list A) : zlen l = 0 → l = [].
Proof. destruct l; [done|]. rewrite zlen_cons. pose proof (zlen_nonneg l). lia. Qed.

#[export] Hint Resolve zlen_nonneg : hamcast.

(** Sums over lists. *)
Fixpoint zsum {A} (f : A → Z) (l : list A) : Z :=
  match l with [] => 0 | x :: l' => f x + zsum f l' end.

Lemma zsum_insert {A} (f : A → Z) l i x y :
  l !! i = Some x → zsum f (<[i := y]> l) = zsum f l - f x + f y.
Proof.
  revert i. induction l as [|z l IH]; intros [|i]; simpl; try done.
  - intros [= ->]. lia.
  - intros Hi. rewrite (IH i Hi). lia.
Qed.

Lemma zsum_nonneg {A} (f : A → Z) l : Forall (λ x, 0 <= f x) l → 0 <= zsum f l.
Proof. induction 1; simpl; lia. Qed.

Lemma zsum_bound {A} (f : A → Z) l b : Forall (λ x, f x <= b) l → zsum f l <= zlen l * b.
Proof. induction 1; simpl; [by rewrite zlen_nil|]. rewrite zlen_cons. nia. Qed.

Lemma zsum_lookup {A} (f : A → Z) l i x :
  Forall (λ x, 0 <= f x) l → l !! i = Some x → f x <= zsum f l.
Proof.
  intros Hf. revert i. induction Hf as [|y l Hy Hl IH]; intros [|i]; simpl; try done.
  - intros [= ->]. pose proof (zsum_nonneg f l Hl). lia.
  - intros Hi. pose proof (IH i Hi). lia.
Qed.

Lemma zsum_zero {A} (f : A → Z) l : Forall (λ x, f x = 0) l → zsum f l = 0.
Proof. induction 1; simpl; lia. Qed.

Lemma zsum_app {A} (f : A → Z) l k : zsum f (l ++ k) = zsum f l + zsum f k.
Proof. induction l; simpl; lia. Qed.

(** [std::string::find] finds something. *)
Fixpoint contains (sub s : bytes) : bool :=
  bool_decide (sub `prefix_of` s) || match s with [] => false | _ :: s => contains sub s end.

(** The keys of a [std::map] in the order of the iteration. *)
Definition in_order (ids : gset Z) : list Z := merge_sort Z.le (elements ids).

Lemma in_order_spec (ids : gset Z) : NoDup (in_order ids) ∧ ∀ i, i ∈ in_order ids ↔ i ∈ ids.
Proof.
  rewrite /in_order. split; [rewrite merge_sort_Permutation; apply NoDup_elements|].
  intros i. by rewrite merge_sort_Permutation elem_of_elements.
Qed.

Lemma b2z_range c : 0 <= b2z c < 256.
Proof.
  rewrite /b2z. pose proof (N_ascii_bounded c). lia.
Qed.

Lemma b2z_z2b z : b2z (z2b z) = z mod 256.
Proof.
  rewrite /b2z /z2b. pose proof (Z.mod_pos_bound z 256 ltac:(lia)).
  rewrite N_ascii_embedding; lia.
Qed.

Lemma z2b_b2z c : z2b (b2z c) = c.
Proof.
  rewrite /b2z /z2b. pose proof (N_ascii_bounded c).
  rewrite -> Z.mod_small by lia. rewrite N2Z.id. apply ascii_N_embedding.
Qed.

Lemma length_le_bytes n z : length (le_bytes n z) = n.
Proof. revert z. induction n as [|n IH]; intros z; simpl; [done|by rewrite IH]. Qed.

Lemma zlen_le_bytes n z : zlen (le_bytes n z) = Z.of_nat n.
Proof. by rewrite /zlen length_le_bytes. Qed.

Lemma le_value_le_bytes n z : 0 <= z < 256 ^ Z.of_nat n → le_value (le_bytes n z) = z.
Proof.
  revert z. induction n as [|n IH]; intros z Hz; simpl.
  - change (256 ^ Z.of_nat 0) with 1 in Hz. lia.
  - rewrite -> Nat2Z.inj_succ, Z.pow_succ_r in Hz by lia.
    rewrite -> b2z_z2b, IH.
    + pose proof (Z.div_mod z 256 ltac:(lia)). lia.
    + split; [apply Z.div_pos; lia|]. apply Z.div_lt_upper_bound; lia.
Qed.

Lemma le_value_bound l : 0 <= le_value l < 256 ^ zlen l.
Proof.
  induction l as [|c l IH]; [done|].
  rewrite zlen_cons. pose proof (zlen_nonneg l). rewrite -> Z.pow_add_r by lia.
  simpl. pose proof (b2z_range c). lia.
Qed.

Lemma le_bytes_le_value l : le_bytes (length l) (le_value l) = l.
Proof.
  induction l as [|c l IH]; [done|]. simpl. pose proof (b2z_range c). f_equal.
  - rewrite -{2}(z2b_b2z c) /z2b. f_equal. f_equal.
    rewrite -> (Z.mul_comm 256), Z.mod_add by lia. done.
  - rewrite -> (Z.mul_comm 256), Z.div_add, Z.div_small by lia. by rewrite Z.add_0_l IH.
Qed.

Lemma uwrap_small w z : fits w z → uwrap w z = z.
Proof. apply Z.mod_small. Qed.

Lemma i32_small z : - 2 ^ 31 <= z < 2 ^ 31 → i32 z = z.
Proof. intros. rewrite /i32 /swrap Z.mod_small; lia. Qed.

Lemma uwrap_fits w z : 0 <= w → fits w (uwrap w z).
Proof. intros. apply Z.mod_pos_bound, Z.pow_pos_nonneg; lia. Qed.

#[export] Hint Resolve uwrap_fits : hamcast.
