(* ===== verification/Config.v ===== *)
(** * Constants

    The compile-time configuration of [hamcast/config.hpp]. *)

From S2P Require Import Prelude.

Definition magic_number : Z := 0xDEADC0DE.
Definition major_version : Z := 0.
Definition minor_version : Z := 6.
Definition min_compatile_major_version : Z := 0.
Definition min_compatile_minor_version : Z := 6.
Definition default_max_buffer_size : Z := 16 * 1024 * 1024.
Definition max_channel_queue_size : Z := 16 * 1024 * 1024.
Definition default_block_size : Z := 512.
Definition max_pending_sends : Z := 256.
Definition max_buffered_sends : Z := 512.
Definition min_buffer_chunk : Z := default_max_buffer_size / max_buffered_sends.
Definition max_ack_block_size : Z := 64.
Definition force_ack_ms_interval : Z := 1.
Definition default_max_write_buffer_size : Z := 1024 * 1024 * 5.
Definition default_max_msg_size : Z := 8 * 1024.
Definition meeting_point : bytes := str "/tmp/hamcast/meeting_point/middleware/".
Definition meeting_point_root : bytes := str "/tmp/".
Definition lock_filename : bytes := str "middleware.lock_file".
Definition config_filename : bytes := str "middleware.config_file".

(** The relations the notes of the header ask for: the buffer is a whole
    number of chunks, and the largest write buffer a whole number of
    blocks. *)
Lemma config_consistent :
  default_max_buffer_size mod max_buffered_sends = 0 ∧
  min_buffer_chunk * max_buffered_sends = default_max_buffer_size ∧
  default_max_write_buffer_size mod default_block_size = 0 ∧
  max_pending_sends <= max_buffered_sends.
Proof. split_and!; try reflexivity. rewrite /max_pending_sends /max_buffered_sends. lia. Qed.
