(* ===== verification/Regex.v ===== *)
(** * Regular expressions

    The sources match lines and host names with [boost::regex_match], which
    succeeds when the expression matches the {e whole} character sequence.
    This file gives the expressions they use (character classes, sequence,
    alternation, repetition), their language as an inductive relation, an
    executable matcher by derivatives and the proof that the two agree. *)

From S2P Require Import Prelude.

Inductive regex :=
  | Eps
  | Nothing
  | Cls (p : byte → bool)
  | Seq (r1 r2 : regex)
  | Alt (r1 r2 : regex)
  | Star (r : regex).

Inductive matches : regex → bytes → Prop :=
  | m_eps : matches Eps []
  | m_cls p c : p c = true → matches (Cls p) [c]
  | m_seq r1 r2 s1 s2 :
      matches r1 s1 → matches r2 s2 → matches (Seq r1 r2) (s1 ++ s2)
  | m_alt_l r1 r2 s : matches r1 s → matches (Alt r1 r2) s
  | m_alt_r r1 r2 s : matches r2 s → matches (Alt r1 r2) s
  | m_star_nil r : matches (Star r) []
  | m_star_cons r c s1 s2 :
      matches r (c :: s1) → matches (Star r) s2 →
      matches (Star r) (c :: s1 ++ s2).

(** A single character, and a character range [[a-b]]. *)
Definition Chr (c : byte) : regex := Cls (λ d, bool_decide (d = c)).
Definition Range (a b : byte) : regex :=
  Cls (λ d, (b2z a <=? b2z d) && (b2z d <=? b2z b)).

Fixpoint nullable (r : regex) : bool :=
  match r with
  | Eps => true
  | Nothing => false
  | Cls _ => false
  | Seq r1 r2 => nullable r1 && nullable r2
  | Alt r1 r2 => nullable r1 || nullable r2
  | Star _ => true
  end.

Fixpoint deriv (c : byte) (r : regex) : regex :=
  match r with
  | Eps | Nothing => Nothing
  | Cls p => if p c then Eps else Nothing
  | Seq r1 r2 =>
      if nullable r1 then Alt (Seq (deriv c r1) r2) (deriv c r2)
      else Seq (deriv c r1) r2
  | Alt r1 r2 => Alt (deriv c r1) (deriv c r2)
  | Star r1 => Seq (deriv c r1) (Star r1)
  end.

(** [boost::regex_match(s, r)]. *)
Fixpoint regex_match (r : regex) (s : bytes) : bool :=
  match s with
  | [] => nullable r
  | c :: s' => regex_match (deriv c r) s'
  end.

Lemma matches_seq_inv r1 r2 s :
  matches (Seq r1 r2) s ↔ ∃ s1 s2, s = s1 ++ s2 ∧ matches r1 s1 ∧ matches r2 s2.
Proof.
  split; [inversion 1; subst; eauto|].
  intros (s1 & s2 & -> & ? & ?). by constructor.
Qed.

Lemma matches_alt_inv r1 r2 s :
  matches (Alt r1 r2) s ↔ matches r1 s ∨ matches r2 s.
Proof.
  split; [inversion 1; subst; eauto|].
  intros [?|?]; [by apply m_alt_l|by apply m_alt_r].
Qed.

Lemma matches_cls_inv p s : matches (Cls p) s ↔ ∃ c, s = [c] ∧ p c = true.
Proof. split; [inversion 1; subst; eauto|]. intros (c & -> & ?). by constructor. Qed.

Lemma matches_chr_inv c s : matches (Chr c) s ↔ s = [c].
Proof.
  rewrite matches_cls_inv. split.
  - intros (d & -> & ?%bool_decide_eq_true). by subst.
  - intros ->. exists c. by rewrite bool_decide_eq_true.
Qed.

Lemma matches_nothing_inv s : ¬ matches Nothing s.
Proof. inversion 1. Qed.

Lemma matches_eps_inv s : matches Eps s ↔ s = [].
Proof. split; [by inversion 1|]. intros ->. constructor. Qed.

Lemma nullable_spec r : nullable r = true ↔ matches r [].
Proof.
  induction r as [| |p|r1 IH1 r2 IH2|r1 IH1 r2 IH2|r IH]; simpl.
  - rewrite matches_eps_inv. done.
  - split; [done|]. by intros ?%matches_nothing_inv.
  - rewrite matches_cls_inv. split; [done|]. by intros (? & ? & ?).
  - rewrite matches_seq_inv andb_true_iff IH1 IH2. split.
    + intros [? ?]. by exists [], [].
    + intros (s1 & s2 & Hs & ? & ?). by destruct s1, s2.
  - by rewrite matches_alt_inv orb_true_iff IH1 IH2.
  - split; [intros; constructor|done].
Qed.

Lemma matches_star_cons_inv r c s :
  matches (Star r) (c :: s) ↔
  ∃ s1 s2, s = s1 ++ s2 ∧ matches r (c :: s1) ∧ matches (Star r) s2.
Proof.
  split.
  - inversion 1; subst; eauto.
  - intros (s1 & s2 & -> & ? & ?). by constructor.
Qed.

Lemma deriv_spec c r s : matches (deriv c r) s ↔ matches r (c :: s).
Proof.
  revert s. induction r as [| |p|r1 IH1 r2 IH2|r1 IH1 r2 IH2|r IH]; intros s; simpl.
  - split; [by intros ?%matches_nothing_inv|inversion 1].
  - split; [by intros ?%matches_nothing_inv|inversion 1].
  - rewrite matches_cls_inv. destruct (p c) eqn:E.
    + rewrite matches_eps_inv. split; [intros ->; eauto|]. by intros (d & [= _ ->] & _).
    + split; [by intros ?%matches_nothing_inv|]. intros (d & [= <- _] & ?). congruence.
  - assert (matches (Seq (deriv c r1) r2) s ↔
            ∃ s1 s2, s = s1 ++ s2 ∧ matches r1 (c :: s1) ∧ matches r2 s2) as Hd.
    { rewrite matches_seq_inv. setoid_rewrite IH1. done. }
    rewrite (matches_seq_inv r1 r2). destruct (nullable r1) eqn:E.
    + rewrite matches_alt_inv Hd IH2. split.
      * intros [(s1 & s2 & -> & ? & ?)|?].
        -- by exists (c :: s1), s2.
        -- exists [], (c :: s). by apply nullable_spec in E.
      * intros ([|d s1] & s2 & Hs & ? & ?); simplify_eq/=; [by right|].
        left. by exists s1, s2.
    + rewrite Hd. split.
      * intros (s1 & s2 & -> & ? & ?). by exists (c :: s1), s2.
      * intros ([|d s1] & s2 & Hs & Hm & ?); simplify_eq/=.
        { apply nullable_spec in Hm. congruence. }
        by exists s1, s2.
  - by rewrite !matches_alt_inv IH1 IH2.
  - rewrite matches_seq_inv matches_star_cons_inv. by setoid_rewrite IH.
Qed.

Lemma regex_match_spec r s : regex_match r s = true ↔ matches r s.
Proof.
  revert r. induction s as [|c s IH]; intros r; simpl.
  - apply nullable_spec.
  - by rewrite IH deriv_spec.
Qed.

(** The finite language of a star-free expression over the characters
    [cs], to compare small expressions by enumeration. *)
Fixpoint lang (cs : bytes) (r : regex) : list bytes :=
  match r with
  | Eps => [[]]
  | Nothing => []
  | Cls p => (λ c, [c]) <$> filter (λ c, p c = true) cs
  | Seq r1 r2 => s1 ← lang cs r1; s2 ← lang cs r2; [s1 ++ s2]
  | Alt r1 r2 => lang cs r1 ++ lang cs r2
  | Star _ => [[]]
  end.

Fixpoint star_free (r : regex) : bool :=
  match r with
  | Star _ => false
  | Seq r1 r2 | Alt r1 r2 => star_free r1 && star_free r2
  | _ => true
  end.

Lemma lang_spec cs r s :
  (∀ c, c ∈ cs) → star_free r = true → matches r s ↔ s ∈ lang cs r.
Proof.
  intros Hcs. revert s.
  induction r as [| |p|r1 IH1 r2 IH2|r1 IH1 r2 IH2|r IH]; intros s; simpl.
  - intros _. rewrite matches_eps_inv list_elem_of_singleton. done.
  - intros _. rewrite elem_of_nil. split; [apply matches_nothing_inv|done].
  - intros _. rewrite matches_cls_inv list_elem_of_fmap.
    setoid_rewrite list_elem_of_filter. naive_solver.
  - intros [H1 H2]%andb_true_iff. rewrite matches_seq_inv.
    rewrite list_elem_of_bind. setoid_rewrite list_elem_of_bind.
    setoid_rewrite list_elem_of_singleton.
    setoid_rewrite IH1; [|done]. setoid_rewrite IH2; [|done]. naive_solver.
  - intros [H1 H2]%andb_true_iff. rewrite matches_alt_inv elem_of_app. naive_solver.
  - done.
Qed.

(** All 256 bytes. *)
Definition all_bytes : bytes := (λ n, z2b (Z.of_nat n)) <$> seq 0 256.

Lemma all_bytes_complete c : c ∈ all_bytes.
Proof.
  rewrite /all_bytes list_elem_of_fmap. pose proof (b2z_range c).
  exists (Z.to_nat (b2z c)). rewrite elem_of_seq. split; [|lia].
  rewrite -> Z2Nat.id by lia. by rewrite z2b_b2z.
Qed.
