(* ===== verification/Uri.v ===== *)
(** * Multicast URIs

    The parser of [libhamcast/src/uri.cpp]: the character automaton
    [uri_private::consume], [parse_uri], [parse] and the constructors of the
    class [uri].  A [uri] is an immutable, shared [uri_private]; it is
    modelled by that object's value.  The theorems relate the automaton to
    the grammar printed in the source's comment (in both directions), show
    that construction is a normal form determined by [str()], which is what
    makes [str()] a sound ordering key for the maps of the system, and
    identify the hosts classified as IPv4 addresses. *)


From S2P Require Import Prelude Regex.

(** ** Library functions the parser calls *)

(** [std::tolower] in the "C" locale. *)
Definition tolower (c : byte) : byte :=
  if (65 <=? b2z c) && (b2z c <=? 90) then z2b (b2z c + 32) else c.

Definition isspace (c : byte) : bool :=
  (b2z c =? 32) || ((9 <=? b2z c) && (b2z c <=? 13)).

Definition isdigit (c : byte) : bool := (48 <=? b2z c) && (b2z c <=? 57).

Fixpoint digits_value (acc : Z) (s : bytes) : Z :=
  match s with
  | c :: s' => if isdigit c then digits_value (10 * acc + (b2z c - 48)) s' else acc
  | [] => acc
  end.

Fixpoint skip_space (s : bytes) : bytes :=
  match s with
  | c :: s' => if isspace c then skip_space s' else s
  | [] => []
  end.

(** [atoi(s)], which is [(int) strtol(s, 0, 10)]: leading white space, an
    optional sign, digits; the 64-bit result saturates and is then
    truncated to 32 bits. *)
Definition atoi (s : bytes) : Z :=
  let s := skip_space s in
  let '(neg, s) :=
    match s with
    | c :: s' => if bool_decide (c = "-"%char) then (true, s')
                 else if bool_decide (c = "+"%char) then (false, s') else (false, s)
    | [] => (false, s)
    end in
  let v := digits_value 0 s in
  i32 (if neg then Z.max (- 2 ^ 63) (- v) else Z.min (2 ^ 63 - 1) v).

(** [s.substr(pos, n)] for [pos <= s.size()]; [n] is a [size_t]. *)
Definition substr (pos n : Z) (s : bytes) : bytes := ztake (uwrap 64 n) (zdrop pos s).

(** ** The object *)

Inductive pstate :=
  | parse_ham_scheme
  | parse_ham_namespace
  | parse_group
  | parse_instantiation
  | parse_port
  | parse_sec_credentials
  | parse_error.

Inductive uflag := default_flag | ipv4_flag | ipv6_flag.

(** [m_flag] and [m_int_port] are [None] while they are uninitialised: the
    constructor [uri_private()] writes neither. *)
Record uri_private := {
  m_state : pstate;
  m_waitfor_square_bracket : bool;
  m_flag : option uflag;
  m_ham_scheme : bytes;
  m_ham_namespace : bytes;
  m_group : bytes;
  m_instantiation : bytes;
  m_port : bytes;
  m_sec_credentials : bytes;
  m_uri : bytes;
  m_int_port : option Z
}.

#[export] Instance pstate_eq_dec : EqDecision pstate.
Proof. solve_decision. Defined.
#[export] Instance uflag_eq_dec : EqDecision uflag.
Proof. solve_decision. Defined.
#[export] Instance uri_private_eq_dec : EqDecision uri_private.
Proof. solve_decision. Defined.

(** A freshly allocated object.  [m_state] and the bracket flag are written
    by [parse_uri] before anything reads them. *)
Definition new_uri_private : uri_private := {|
  m_state := parse_ham_scheme; m_waitfor_square_bracket := false; m_flag := None;
  m_ham_scheme := []; m_ham_namespace := []; m_group := []; m_instantiation := [];
  m_port := []; m_sec_credentials := []; m_uri := []; m_int_port := None |}.

Definition set_state (st : pstate) (u : uri_private) : uri_private := {|
  m_state := st; m_waitfor_square_bracket := m_waitfor_square_bracket u;
  m_flag := m_flag u; m_ham_scheme := m_ham_scheme u;
  m_ham_namespace := m_ham_namespace u; m_group := m_group u;
  m_instantiation := m_instantiation u; m_port := m_port u;
  m_sec_credentials := m_sec_credentials u; m_uri := m_uri u;
  m_int_port := m_int_port u |}.

Definition set_bracket (b : bool) (u : uri_private) : uri_private := {|
  m_state := m_state u; m_waitfor_square_bracket := b;
  m_flag := m_flag u; m_ham_scheme := m_ham_scheme u;
  m_ham_namespace := m_ham_namespace u; m_group := m_group u;
  m_instantiation := m_instantiation u; m_port := m_port u;
  m_sec_credentials := m_sec_credentials u; m_uri := m_uri u;
  m_int_port := m_int_port u |}.

Definition set_fields (sch ns grp ins prt sec : bytes) (u : uri_private) : uri_private := {|
  m_state := m_state u; m_waitfor_square_bracket := m_waitfor_square_bracket u;
  m_flag := m_flag u; m_ham_scheme := sch;
  m_ham_namespace := ns; m_group := grp;
  m_instantiation := ins; m_port := prt;
  m_sec_credentials := sec; m_uri := m_uri u;
  m_int_port := m_int_port u |}.

Definition set_flag (f : uflag) (u : uri_private) : uri_private := {|
  m_state := m_state u; m_waitfor_square_bracket := m_waitfor_square_bracket u;
  m_flag := Some f; m_ham_scheme := m_ham_scheme u;
  m_ham_namespace := m_ham_namespace u; m_group := m_group u;
  m_instantiation := m_instantiation u; m_port := m_port u;
  m_sec_credentials := m_sec_credentials u; m_uri := m_uri u;
  m_int_port := m_int_port u |}.

Definition set_uri (s : bytes) (u : uri_private) : uri_private := {|
  m_state := m_state u; m_waitfor_square_bracket := m_waitfor_square_bracket u;
  m_flag := m_flag u; m_ham_scheme := m_ham_scheme u;
  m_ham_namespace := m_ham_namespace u; m_group := m_group u;
  m_instantiation := m_instantiation u; m_port := m_port u;
  m_sec_credentials := m_sec_credentials u; m_uri := s;
  m_int_port := m_int_port u |}.

Definition set_int_port (p : Z) (u : uri_private) : uri_private := {|
  m_state := m_state u; m_waitfor_square_bracket := m_waitfor_square_bracket u;
  m_flag := m_flag u; m_ham_scheme := m_ham_scheme u;
  m_ham_namespace := m_ham_namespace u; m_group := m_group u;
  m_instantiation := m_instantiation u; m_port := m_port u;
  m_sec_credentials := m_sec_credentials u; m_uri := m_uri u;
  m_int_port := Some p |}.

Definition set_group (g : bytes) (u : uri_private) : uri_private :=
  set_fields (m_ham_scheme u) (m_ham_namespace u) g (m_instantiation u) (m_port u)
    (m_sec_credentials u) u.

Definition set_instantiation (i : bytes) (u : uri_private) : uri_private :=
  set_fields (m_ham_scheme u) (m_ham_namespace u) (m_group u) i (m_port u)
    (m_sec_credentials u) u.

Definition clear (u : uri_private) : uri_private := set_fields [] [] [] [] [] [] u.

(** [m_ham_scheme += c] and so on. *)
Definition push_scheme (c : byte) (u : uri_private) : uri_private :=
  set_fields (m_ham_scheme u ++ [c]) (m_ham_namespace u) (m_group u)
    (m_instantiation u) (m_port u) (m_sec_credentials u) u.
Definition push_namespace (c : byte) (u : uri_private) : uri_private :=
  set_fields (m_ham_scheme u) (m_ham_namespace u ++ [c]) (m_group u)
    (m_instantiation u) (m_port u) (m_sec_credentials u) u.
Definition push_group (c : byte) (u : uri_private) : uri_private :=
  set_group (m_group u ++ [c]) u.
Definition push_instantiation (c : byte) (u : uri_private) : uri_private :=
  set_instantiation (m_instantiation u ++ [c]) u.
Definition push_port (c : byte) (u : uri_private) : uri_private :=
  set_fields (m_ham_scheme u) (m_ham_namespace u) (m_group u)
    (m_instantiation u) (m_port u ++ [c]) (m_sec_credentials u) u.
Definition push_sec_credentials (c : byte) (u : uri_private) : uri_private :=
  set_fields (m_ham_scheme u) (m_ham_namespace u) (m_group u)
    (m_instantiation u) (m_port u) (m_sec_credentials u ++ [c]) u.

Definition ch_is (c d : byte) : bool := bool_decide (c = d).

(** ** The automaton *)

Definition consume (c : byte) (u : uri_private) : bool * uri_private :=
  match m_state u with
  | parse_ham_scheme =>
      (true, if ch_is c ":" then set_state parse_ham_namespace u else push_scheme c u)
  | parse_ham_namespace =>
      (true, if ch_is c ":" then set_state parse_group u else push_namespace c u)
  | parse_group =>
      if negb (m_waitfor_square_bracket u) && ch_is c "@" then
        (true, set_state parse_instantiation u)
      else if negb (m_waitfor_square_bracket u) && ch_is c ":" then
        (true, set_state parse_port u)
      else if negb (m_waitfor_square_bracket u) && ch_is c "/" then
        (true, set_state parse_sec_credentials u)
      else
        let u := if negb (m_waitfor_square_bracket u) && ch_is c "["
                 then set_bracket true u else u in
        let u := if ch_is c "]" then set_bracket false u else u in
        (true, push_group c u)
  | parse_instantiation =>
      if negb (m_waitfor_square_bracket u) && ch_is c ":" then
        (true, set_state parse_port u)
      else if negb (m_waitfor_square_bracket u) && ch_is c "/" then
        (true, set_state parse_sec_credentials u)
      else
        let u := if negb (m_waitfor_square_bracket u) && ch_is c "["
                 then set_bracket true u else u in
        let u := if ch_is c "]" then set_bracket false u else u in
        (true, push_instantiation c u)
  | parse_port =>
      (true, if ch_is c "/" then set_state parse_sec_credentials u else push_port c u)
  | parse_sec_credentials => (true, push_sec_credentials c u)
  | parse_error => (false, set_state parse_error u)
  end.

(** The [for] loop of [parse_uri], with its early return. *)
Fixpoint consume_all (what : bytes) (u : uri_private) : bool * uri_private :=
  match what with
  | [] => (true, u)
  | x :: what' =>
      let c := tolower x in
      let '(ok, u) := consume c (set_uri (m_uri u ++ [c]) u) in
      if ok then consume_all what' u else (false, u)
  end.

Definition parse_uri (what : bytes) (u : uri_private) : bool * uri_private :=
  let u := clear (set_bracket false (set_state parse_ham_scheme u)) in
  let '(ok, u) := consume_all what u in
  if negb ok then (false, u)
  else if bool_decide (m_ham_scheme u = str "ham")
          && negb (bool_decide (m_ham_namespace u = []))
          && negb (bool_decide (m_group u = []))
          && negb (m_waitfor_square_bracket u)
  then (true, u)
  else (false, clear u).

(** [HC_OCTET] and [m_v4_rx]. *)
Definition digit : regex := Range "0" "9".
Definition HC_OCTET : regex :=
  Alt (Seq (Range "1" "9") digit)
  (Alt digit
  (Alt (Seq (Chr "1") (Seq digit digit))
  (Alt (Seq (Chr "2") (Seq (Range "0" "4") digit))
       (Seq (Chr "2") (Seq (Chr "5") (Range "0" "5")))))).
Definition HC_DOT : regex := Chr ".".
Definition m_v4_rx : regex :=
  Seq HC_OCTET (Seq HC_DOT (Seq HC_OCTET (Seq HC_DOT (Seq HC_OCTET (Seq HC_DOT HC_OCTET))))).

Definition starts_with_bracket (s : bytes) : bool :=
  match s with c :: _ => ch_is c "[" | [] => false end.

Definition parse (what : bytes) (u : uri_private) : bool * uri_private :=
  let u := set_flag default_flag u in
  let '(ok, u) := parse_uri what u in
  if ok then
    let u := if negb (bool_decide (m_group u = [])) && starts_with_bracket (m_group u) then
               set_group (substr 1 (zlen (m_group u) - 2) (m_group u)) (set_flag ipv6_flag u)
             else if negb (bool_decide (m_group u = [])) && regex_match m_v4_rx (m_group u) then
               set_flag ipv4_flag u
             else u in
    let u := if negb (bool_decide (m_instantiation u = []))
                && starts_with_bracket (m_instantiation u) then
               set_instantiation
                 (substr 1 (zlen (m_instantiation u) - 2) (m_instantiation u)) u
             else u in
    (true, if bool_decide (m_port u = []) then set_int_port 0 u
           else set_int_port (u16 (atoi (m_port u))) u)
  else (false, u).

(** [m_default_uri_private]: the object every empty URI points to. *)
Definition m_default_uri_private : uri_private := new_uri_private.

Definition from (what : bytes) : uri_private :=
  let '(ok, u) := parse what new_uri_private in
  if ok then u else m_default_uri_private.

(** ** The class [uri] *)

Abbreviation uri := uri_private.

Definition uri_of (s : bytes) : uri := from s.
Definition uri_default : uri := m_default_uri_private.
Definition uri_str (u : uri) : bytes := m_uri u.
Definition uri_empty (u : uri) : bool := bool_decide (uri_str u = []).
Definition host_is_ipv4addr (u : uri) : option bool :=
  (λ f, bool_decide (f = ipv4_flag)) <$> m_flag u.
Definition host_is_ipv6addr (u : uri) : option bool :=
  (λ f, bool_decide (f = ipv6_flag)) <$> m_flag u.
Definition port_as_int (u : uri) : option Z := m_int_port u.

(** ** The grammar

    [ham-URI = "ham" ":" namespace ":" group [ "@" instantiation ]
               [ ":" port ] [ "/" sec-credentials ]],
    where a group or an instantiation is a plain name or a bracketed one. *)

Inductive host :=
  | Plain (name : bytes)
  | Bracketed (addr : bytes).

Record ham_uri := {
  h_namespace : bytes;
  h_group : host;
  h_instantiation : option host;
  h_port : option bytes;
  h_sec_credentials : option bytes
}.

Definition print_host (h : host) : bytes :=
  match h with
  | Plain name => name
  | Bracketed addr => "["%char :: addr ++ ["]"%char]
  end.

Definition host_name (h : host) : bytes :=
  match h with Plain name => name | Bracketed addr => addr end.

Definition print_opt {A} (sep : byte) (p : A → bytes) (o : option A) : bytes :=
  match o with Some x => sep :: p x | None => [] end.

Definition print_ham_uri (h : ham_uri) : bytes :=
  str "ham:" ++ h_namespace h ++ [":"%char] ++ print_host (h_group h)
  ++ print_opt "@" print_host (h_instantiation h)
  ++ print_opt ":" id (h_port h)
  ++ print_opt "/" id (h_sec_credentials h).

(** No character of [s] is one of [bad]. *)
Definition free_of (bad s : bytes) : Prop := Forall (λ c, c ∉ bad) s.

#[export] Instance free_of_dec bad s : Decision (free_of bad s).
Proof. apply _. Defined.

Definition host_ok (seps : bytes) (h : host) : Prop :=
  match h with
  | Plain name => free_of ("["%char :: seps) name
  | Bracketed addr => free_of (str "]") addr ∧ zlen addr < 2 ^ 32
  end.

Definition ham_uri_ok (h : ham_uri) : Prop :=
  h_namespace h ≠ [] ∧ free_of (str ":") (h_namespace h) ∧
  host_ok (str "@:/") (h_group h) ∧ print_host (h_group h) ≠ [] ∧
  from_option (host_ok (str ":/")) True (h_instantiation h) ∧
  from_option (free_of (str "/")) True (h_port h).

Definition is_dotted_quad (s : bytes) : Prop :=
  ∃ a b c d : N, (a < 256 ∧ b < 256 ∧ c < 256 ∧ d < 256)%N ∧
    s = str (pretty a) ++ "."%char :: str (pretty b) ++ "."%char ::
        str (pretty c) ++ "."%char :: str (pretty d).

(** ** The automaton as a fold *)

Definition feed (u : uri_private) (c : byte) : uri_private :=
  (consume c (set_uri (m_uri u ++ [c]) u)).2.

Definition run (u : uri_private) (cs : bytes) : uri_private := foldl feed u cs.

#[local] Arguments run : simpl never.
#[local] Arguments feed : simpl never.

Lemma run_app u cs ds : run u (cs ++ ds) = run (run u cs) ds.
Proof. apply foldl_app. Qed.

Lemma run_cons u c cs : run u (c :: cs) = run (feed u c) cs.
Proof. done. Qed.

Ltac case_consume :=
  repeat match goal with
  | |- context [ch_is ?c ?d] => destruct (ch_is c d) eqn:?; simpl
  | |- context [negb ?b] => is_var b; destruct b; simpl
  end.

Lemma consume_ok c u :
  m_state u ≠ parse_error →
  consume c u = (true, (consume c u).2) ∧ m_state (consume c u).2 ≠ parse_error.
Proof.
  destruct u as [st w f sch ns g i p sec ur ip]; rewrite /consume /=.
  destruct st; intros Hst; try done; case_consume; done.
Qed.

Lemma feed_not_error u c : m_state u ≠ parse_error → m_state (feed u c) ≠ parse_error.
Proof. intros H. rewrite /feed. by apply consume_ok. Qed.

Lemma consume_all_run what u :
  m_state u ≠ parse_error → consume_all what u = (true, run u (tolower <$> what)).
Proof.
  revert u. induction what as [|x what IH]; intros u Hu; [done|].
  simpl. destruct (consume_ok (tolower x) (set_uri (m_uri u ++ [tolower x]) u) Hu)
    as [-> Hne].
  by apply IH.
Qed.

Lemma tolower_idemp c : tolower (tolower c) = tolower c.
Proof.
  assert (Forall (λ c, tolower (tolower c) = tolower c) all_bytes) as H
    by (apply (bool_decide_unpack _); vm_compute; exact I).
  rewrite Forall_forall in H. apply H, all_bytes_complete.
Qed.

Lemma tolower_all_idemp (s : bytes) : tolower <$> (tolower <$> s) = tolower <$> s.
Proof. rewrite -list_fmap_compose. apply list_fmap_ext. intros _ c _. apply tolower_idemp. Qed.

(** What [parse] does once the automaton has consumed the input. *)
Definition start : uri_private := set_flag default_flag new_uri_private.

Definition accepts (u : uri_private) : bool :=
  bool_decide (m_ham_scheme u = str "ham")
  && negb (bool_decide (m_ham_namespace u = []))
  && negb (bool_decide (m_group u = []))
  && negb (m_waitfor_square_bracket u).

Definition finish (u : uri_private) : uri_private :=
  let u := if starts_with_bracket (m_group u) then
             set_group (substr 1 (zlen (m_group u) - 2) (m_group u)) (set_flag ipv6_flag u)
           else if regex_match m_v4_rx (m_group u) then set_flag ipv4_flag u
           else u in
  let u := if starts_with_bracket (m_instantiation u) then
             set_instantiation
               (substr 1 (zlen (m_instantiation u) - 2) (m_instantiation u)) u
           else u in
  set_int_port (if bool_decide (m_port u = []) then 0 else u16 (atoi (m_port u))) u.

Lemma nonempty_starts s :
  negb (bool_decide (s = [])) && starts_with_bracket s = starts_with_bracket s.
Proof. by destruct s. Qed.

Lemma from_eq s :
  from s = (if accepts (run start (tolower <$> s))
            then finish (run start (tolower <$> s)) else m_default_uri_private).
Proof.
  rewrite /from /parse /parse_uri.
  change (clear (set_bracket false (set_state parse_ham_scheme
            (set_flag default_flag new_uri_private)))) with start.
  rewrite consume_all_run; [done|]. cbn [negb]. rewrite -/(accepts _).
  destruct (accepts (run start (tolower <$> s))) eqn:Ha; [|done].
  rewrite !nonempty_starts /finish.
  assert (bool_decide (m_group (run start (tolower <$> s)) = []) = false) as ->.
  { rewrite /accepts !andb_true_iff !negb_true_iff in Ha. naive_solver. }
  cbn [negb andb].
  by case_bool_decide.
Qed.

Lemma feed_uri u c : m_uri (feed u c) = m_uri u ++ [c].
Proof.
  destruct u as [st w f sch ns g i p sec ur ip]; rewrite /feed /consume /=.
  destruct st; simpl; case_consume; done.
Qed.

Lemma run_uri u cs : m_uri (run u cs) = m_uri u ++ cs.
Proof.
  revert u. induction cs as [|c cs IH]; intros u; [by rewrite app_nil_r|].
  by rewrite run_cons IH feed_uri -app_assoc.
Qed.

Lemma finish_uri u : m_uri (finish u) = m_uri u.
Proof. rewrite /finish. by repeat case_match. Qed.

Lemma from_str s : uri_str (from s) = [] ∨ uri_str (from s) = tolower <$> s.
Proof.
  rewrite /uri_str from_eq. case_match; [|by left]. right.
  by rewrite finish_uri run_uri.
Qed.

Lemma from_lower s : from (tolower <$> s) = from s.
Proof. by rewrite !from_eq tolower_all_idemp. Qed.

Lemma from_empty_default s : uri_str (from s) = [] → from s = m_default_uri_private.
Proof.
  rewrite /uri_str from_eq. case_match eqn:Ha; [|done].
  rewrite finish_uri run_uri /=. intros Hs. by rewrite Hs in Ha.
Qed.

(** *** Blocks of characters the automaton copies to one field *)

Lemma ch_is_free c d (bad : bytes) : c ∉ bad → d ∈ bad → ch_is c d = false.
Proof. intros Hc Hd. apply bool_decide_false. by intros ->. Qed.

Section blocks.
Context (f : option uflag) (ip : option Z).

Lemma run_scheme cs w sch ns g i p sec ur :
  free_of (str ":") cs →
  run (Build_uri_private parse_ham_scheme w f sch ns g i p sec ur ip) cs =
  Build_uri_private parse_ham_scheme w f (sch ++ cs) ns g i p sec (ur ++ cs) ip.
Proof.
  intros Hf. revert sch ur. induction Hf as [|c cs Hc Hf IH]; intros sch ur.
  - by rewrite !app_nil_r.
  - rewrite run_cons /feed /consume /= (ch_is_free c ":" _ Hc); [set_solver|].
    by rewrite IH -!app_assoc.
Qed.

Lemma run_namespace cs w sch ns g i p sec ur :
  free_of (str ":") cs →
  run (Build_uri_private parse_ham_namespace w f sch ns g i p sec ur ip) cs =
  Build_uri_private parse_ham_namespace w f sch (ns ++ cs) g i p sec (ur ++ cs) ip.
Proof.
  intros Hf. revert ns ur. induction Hf as [|c cs Hc Hf IH]; intros ns ur.
  - by rewrite !app_nil_r.
  - rewrite run_cons /feed /consume /= (ch_is_free c ":" _ Hc); [set_solver|].
    by rewrite IH -!app_assoc.
Qed.

Lemma run_group_plain cs sch ns g i p sec ur :
  free_of (str "[@:/") cs →
  run (Build_uri_private parse_group false f sch ns g i p sec ur ip) cs =
  Build_uri_private parse_group false f sch ns (g ++ cs) i p sec (ur ++ cs) ip.
Proof.
  intros Hf. revert g ur. induction Hf as [|c cs Hc Hf IH]; intros g ur.
  - by rewrite !app_nil_r.
  - rewrite run_cons /feed /consume /= (ch_is_free c "@" _ Hc); [set_solver|].
    rewrite (ch_is_free c ":" _ Hc); [set_solver|].
    rewrite (ch_is_free c "/" _ Hc); [set_solver|].
    rewrite (ch_is_free c "[" _ Hc); [set_solver|].
    simpl. destruct (ch_is c "]"); by rewrite IH -!app_assoc.
Qed.

Lemma run_group_wait cs sch ns g i p sec ur :
  free_of (str "]") cs →
  run (Build_uri_private parse_group true f sch ns g i p sec ur ip) cs =
  Build_uri_private parse_group true f sch ns (g ++ cs) i p sec (ur ++ cs) ip.
Proof.
  intros Hf. revert g ur. induction Hf as [|c cs Hc Hf IH]; intros g ur.
  - by rewrite !app_nil_r.
  - rewrite run_cons /feed /consume /= (ch_is_free c _ _ Hc); [set_solver|].
    by rewrite IH -!app_assoc.
Qed.

Lemma run_instantiation_plain cs sch ns g i p sec ur :
  free_of (str "[:/") cs →
  run (Build_uri_private parse_instantiation false f sch ns g i p sec ur ip) cs =
  Build_uri_private parse_instantiation false f sch ns g (i ++ cs) p sec (ur ++ cs) ip.
Proof.
  intros Hf. revert i ur. induction Hf as [|c cs Hc Hf IH]; intros i ur.
  - by rewrite !app_nil_r.
  - rewrite run_cons /feed /consume /= (ch_is_free c ":" _ Hc); [set_solver|].
    rewrite (ch_is_free c "/" _ Hc); [set_solver|].
    rewrite (ch_is_free c "[" _ Hc); [set_solver|].
    simpl. destruct (ch_is c "]"); by rewrite IH -!app_assoc.
Qed.

Lemma run_instantiation_wait cs sch ns g i p sec ur :
  free_of (str "]") cs →
  run (Build_uri_private parse_instantiation true f sch ns g i p sec ur ip) cs =
  Build_uri_private parse_instantiation true f sch ns g (i ++ cs) p sec (ur ++ cs) ip.
Proof.
  intros Hf. revert i ur. induction Hf as [|c cs Hc Hf IH]; intros i ur.
  - by rewrite !app_nil_r.
  - rewrite run_cons /feed /consume /= (ch_is_free c _ _ Hc); [set_solver|].
    by rewrite IH -!app_assoc.
Qed.

Lemma run_port cs w sch ns g i p sec ur :
  free_of (str "/") cs →
  run (Build_uri_private parse_port w f sch ns g i p sec ur ip) cs =
  Build_uri_private parse_port w f sch ns g i (p ++ cs) sec (ur ++ cs) ip.
Proof.
  intros Hf. revert p ur. induction Hf as [|c cs Hc Hf IH]; intros p ur.
  - by rewrite !app_nil_r.
  - rewrite run_cons /feed /consume /= (ch_is_free c _ _ Hc); [set_solver|].
    by rewrite IH -!app_assoc.
Qed.

Lemma run_sec cs w sch ns g i p sec ur :
  run (Build_uri_private parse_sec_credentials w f sch ns g i p sec ur ip) cs =
  Build_uri_private parse_sec_credentials w f sch ns g i p (sec ++ cs) (ur ++ cs) ip.
Proof.
  revert sec ur. induction cs as [|c cs IH]; intros sec ur.
  - by rewrite !app_nil_r.
  - by rewrite run_cons /feed /consume /= IH -!app_assoc.
Qed.

(** A whole host, plain or bracketed. *)
Lemma run_group h sch ns i p sec ur :
  host_ok (str "@:/") h →
  run (Build_uri_private parse_group false f sch ns [] i p sec ur ip) (print_host h) =
  Build_uri_private parse_group false f sch ns (print_host h) i p sec
    (ur ++ print_host h) ip.
Proof.
  destruct h as [name|addr]; simpl; [by apply run_group_plain|].
  intros [Hf _]. rewrite run_cons /feed /consume /= run_app run_group_wait; [done|].
  rewrite run_cons /feed /consume /=. by rewrite -!app_assoc.
Qed.

Lemma run_instantiation h sch ns g p sec ur :
  host_ok (str ":/") h →
  run (Build_uri_private parse_instantiation false f sch ns g [] p sec ur ip)
    (print_host h) =
  Build_uri_private parse_instantiation false f sch ns g (print_host h) p sec
    (ur ++ print_host h) ip.
Proof.
  destruct h as [name|addr]; simpl; [by apply run_instantiation_plain|].
  intros [Hf _]. rewrite run_cons /feed /consume /= run_app run_instantiation_wait; [done|].
  rewrite run_cons /feed /consume /=. by rewrite -!app_assoc.
Qed.
End blocks.

(** *** The whole grammar *)

Definition opt_bytes (o : option bytes) : bytes := default [] o.
Definition opt_host (o : option host) : bytes := from_option print_host [] o.

Lemma run_ham :
  run start (str "ham:") =
  Build_uri_private parse_ham_namespace false (Some default_flag) (str "ham")
    [] [] [] [] [] (str "ham:") None.
Proof. reflexivity. Qed.

(** The states from which the optional parts may start. *)
Definition host_state (st : pstate) : Prop := st = parse_group ∨ st = parse_instantiation.

Section optional.
Context (f : option uflag) (ip : option Z).

Lemma run_opt_instantiation o sch ns g ur :
  from_option (host_ok (str ":/")) True o →
  ∃ st, host_state st ∧
    run (Build_uri_private parse_group false f sch ns g [] [] [] ur ip)
      (print_opt "@" print_host o) =
    Build_uri_private st false f sch ns g (opt_host o) [] []
      (ur ++ print_opt "@" print_host o) ip.
Proof.
  destruct o as [h|]; simpl; intros Ho.
  - exists parse_instantiation. split; [by right|].
    rewrite run_cons /feed /consume /= run_instantiation; [done|].
    by rewrite -app_assoc.
  - exists parse_group. rewrite app_nil_r. split; [by left|done].
Qed.

Lemma run_opt_port o st sch ns g i ur :
  host_state st → from_option (free_of (str "/")) True o →
  ∃ st', (host_state st' ∨ st' = parse_port) ∧
    run (Build_uri_private st false f sch ns g i [] [] ur ip) (print_opt ":" id o) =
    Build_uri_private st' false f sch ns g i (opt_bytes o) []
      (ur ++ print_opt ":" id o) ip.
Proof.
  intros Hst Ho. destruct o as [p|]; simpl in *.
  - exists parse_port. split; [by right|].
    destruct Hst as [-> | ->]; rewrite run_cons /feed /consume /= run_port //;
      by rewrite -app_assoc.
  - exists st. rewrite app_nil_r. split; [by left|done].
Qed.

Lemma run_opt_sec o st sch ns g i p ur :
  host_state st ∨ st = parse_port →
  ∃ st', run (Build_uri_private st false f sch ns g i p [] ur ip) (print_opt "/" id o) =
    Build_uri_private st' false f sch ns g i p (opt_bytes o)
      (ur ++ print_opt "/" id o) ip.
Proof.
  intros Hst. destruct o as [sec|]; simpl in *.
  - exists parse_sec_credentials.
    destruct Hst as [[-> | ->] | ->]; rewrite run_cons /feed /consume /= run_sec;
      by rewrite -app_assoc.
  - exists st. by rewrite app_nil_r.
Qed.
End optional.

(** The fields after the automaton has read a printed URI. *)
Lemma run_print h :
  ham_uri_ok h →
  ∃ st, run start (print_ham_uri h) =
    Build_uri_private st false (Some default_flag) (str "ham") (h_namespace h)
      (print_host (h_group h)) (opt_host (h_instantiation h))
      (opt_bytes (h_port h)) (opt_bytes (h_sec_credentials h)) (print_ham_uri h) None.
Proof.
  intros (_ & Hns & Hg & _ & Hi & Hp).
  rewrite {1}/print_ham_uri 2!run_app run_ham run_namespace //.
  rewrite run_app [run _ [":"%char]]/run /= /feed /consume /= run_app run_group //.
  rewrite run_app.
  edestruct run_opt_instantiation as (st1 & Hst1 & ->); [done|].
  rewrite run_app. edestruct run_opt_port as (st2 & Hst2 & ->); [done..|].
  edestruct run_opt_sec as (st3 & ->); [done|].
  exists st3. by rewrite /print_ham_uri /= -!app_assoc.
Qed.

Lemma substr_bracket addr :
  zlen addr < 2 ^ 32 →
  substr 1 (zlen (print_host (Bracketed addr)) - 2) (print_host (Bracketed addr)) = addr.
Proof.
  intros Hl. rewrite /substr /= zlen_cons zlen_app zlen_cons zlen_nil.
  pose proof (zlen_nonneg addr). rewrite uwrap_small.
  { rewrite /fits. lia. }
  rewrite /zdrop /=. change (Z.to_nat 1) with 1%nat. simpl. rewrite drop_0.
  replace (1 + (zlen addr + (1 + 0)) - 2) with (zlen addr) by lia.
  apply ztake_app.
Qed.

Definition host_flag (h : host) : uflag :=
  match h with
  | Bracketed _ => ipv6_flag
  | Plain name => if regex_match m_v4_rx name then ipv4_flag else default_flag
  end.

(** The object the constructor builds for a printed URI. *)
Definition parsed (st : pstate) (h : ham_uri) : uri := {|
  m_state := st; m_waitfor_square_bracket := false;
  m_flag := Some (host_flag (h_group h));
  m_ham_scheme := str "ham";
  m_ham_namespace := h_namespace h;
  m_group := host_name (h_group h);
  m_instantiation := from_option host_name [] (h_instantiation h);
  m_port := opt_bytes (h_port h);
  m_sec_credentials := opt_bytes (h_sec_credentials h);
  m_uri := print_ham_uri h;
  m_int_port := Some (if bool_decide (opt_bytes (h_port h) = []) then 0
                      else u16 (atoi (opt_bytes (h_port h)))) |}.

Lemma plain_no_bracket seps name :
  host_ok seps (Plain name) → starts_with_bracket name = false.
Proof.
  intros Hf. destruct name as [|c name]; [done|]. simpl in *.
  inversion_clear Hf as [|? ? Hc _]. apply (ch_is_free c _ _ Hc). by left.
Qed.

Lemma finish_parsed st h :
  ham_uri_ok h →
  finish (Build_uri_private st false (Some default_flag) (str "ham") (h_namespace h)
      (print_host (h_group h)) (opt_host (h_instantiation h))
      (opt_bytes (h_port h)) (opt_bytes (h_sec_credentials h)) (print_ham_uri h) None)
  = parsed st h.
Proof.
  destruct h as [ns g i p sec]; intros (_ & _ & Hg & _ & Hi & _); simpl in *.
  rewrite /finish /parsed /=.
  assert (∀ u : uri, m_instantiation u = opt_host i →
    (if starts_with_bracket (m_instantiation u) then
       set_instantiation (substr 1 (zlen (m_instantiation u) - 2) (m_instantiation u)) u
     else u) = set_instantiation (from_option host_name [] i) u) as Hinst.
  { intros u Hu. rewrite Hu. destruct i as [[name|addr]|]; simpl in Hi, Hu |- *.
    - rewrite (plain_no_bracket _ _ Hi). destruct u; simpl in *. by subst.
    - destruct Hi. by rewrite (substr_bracket addr).
    - destruct u; simpl in *. by subst. }
  destruct g as [name|addr].
  - rewrite /= (plain_no_bracket _ _ Hg).
    destruct (regex_match m_v4_rx name); by rewrite Hinst.
  - destruct Hg. rewrite /starts_with_bracket {1}/print_host /=.
    rewrite Hinst; [done|]. by rewrite substr_bracket.
Qed.

Lemma accepts_print st h :
  ham_uri_ok h →
  accepts (Build_uri_private st false (Some default_flag) (str "ham") (h_namespace h)
      (print_host (h_group h)) (opt_host (h_instantiation h))
      (opt_bytes (h_port h)) (opt_bytes (h_sec_credentials h)) (print_ham_uri h) None)
  = true.
Proof.
  intros (Hns & _ & _ & Hg & _). rewrite /accepts /=.
  by rewrite !bool_decide_false.
Qed.

Lemma uri_of_parsed h s :
  ham_uri_ok h → tolower <$> s = print_ham_uri h → ∃ st, uri_of s = parsed st h.
Proof.
  intros Hok Hs. destruct (run_print h Hok) as [st Hrun]. exists st.
  by rewrite /uri_of from_eq Hs Hrun accepts_print // finish_parsed.
Qed.

Lemma uri_of_str s : uri_of (uri_str (uri_of s)) = uri_of s.
Proof.
  rewrite /uri_of. destruct (from_str s) as [H|H].
  - rewrite H. by rewrite (from_empty_default s H).
  - by rewrite H from_lower.
Qed.

(** *** IPv4 hosts *)

Definition octets : list N := N.of_nat <$> seq 0 256.

Lemma octets_spec n : n ∈ octets ↔ (n < 256)%N.
Proof.
  rewrite /octets list_elem_of_fmap. setoid_rewrite elem_of_seq. split.
  - intros (k & -> & ?). lia.
  - intros ?. exists (N.to_nat n). lia.
Qed.

Lemma octet_spec s : matches HC_OCTET s ↔ ∃ n : N, (n < 256)%N ∧ s = str (pretty n).
Proof.
  rewrite (lang_spec all_bytes); [apply all_bytes_complete|done|].
  assert (Forall (λ s, s ∈ (λ n : N, str (pretty n)) <$> octets) (lang all_bytes HC_OCTET))
    as H1 by (apply (bool_decide_unpack _); vm_compute; exact I).
  assert (Forall (λ n : N, regex_match HC_OCTET (str (pretty n)) = true) octets)
    as H2 by (apply (bool_decide_unpack _); vm_compute; exact I).
  rewrite !Forall_forall in H1, H2. split.
  - intros (n & -> & ?%octets_spec)%H1%list_elem_of_fmap. eauto.
  - intros (n & ?%octets_spec & ->).
    rewrite -(lang_spec all_bytes); [apply all_bytes_complete|done|].
    by apply regex_match_spec, H2.
Qed.

Lemma matches_octet_dot r s :
  matches (Seq HC_OCTET (Seq HC_DOT r)) s ↔
  ∃ (n : N) t, (n < 256)%N ∧ matches r t ∧ s = str (pretty n) ++ "."%char :: t.
Proof.
  rewrite matches_seq_inv. setoid_rewrite octet_spec. setoid_rewrite matches_seq_inv.
  setoid_rewrite matches_chr_inv. split.
  - intros (s1 & s2 & -> & (n & Hn & ->) & (s3 & t & -> & -> & Ht)). eauto 10.
  - intros (n & t & Hn & Ht & ->). exists (str (pretty n)), ("."%char :: t).
    split_and!; [done|by eauto|]. by exists ["."%char], t.
Qed.

Lemma v4_spec s : regex_match m_v4_rx s = true ↔ is_dotted_quad s.
Proof.
  rewrite regex_match_spec /m_v4_rx !matches_octet_dot.
  setoid_rewrite matches_octet_dot. setoid_rewrite matches_octet_dot.
  setoid_rewrite octet_spec. split.
  - intros (a & t & ? & (b & t' & ? & (c & t'' & ? & (d & ? & ->) & ->) & ->) & ->).
    by exists a, b, c, d.
  - intros (a & b & c & d & (? & ? & ? & ?) & ->).
    eexists a, _; split_and!; [done| |done].
    eexists b, _; split_and!; [done| |done].
    eexists c, _; split_and!; [done| |done]. eauto.
Qed.

(** *** Reassembly *)

(** The text a host field was cut from, given the raw text. *)
Definition strip (w : bytes) : bytes :=
  if starts_with_bracket w then substr 1 (zlen w - 2) w else w.

(** The input read so far is the concatenation of the fields. *)
Definition shape (u : uri_private) : Prop :=
  let sch := m_ham_scheme u in let ns := m_ham_namespace u in let g := m_group u in
  let i := m_instantiation u in let p := m_port u in let sec := m_sec_credentials u in
  match m_state u with
  | parse_ham_scheme => m_uri u = sch ∧ ns = [] ∧ g = [] ∧ i = [] ∧ p = [] ∧ sec = []
  | parse_ham_namespace =>
      m_uri u = sch ++ ":"%char :: ns ∧ g = [] ∧ i = [] ∧ p = [] ∧ sec = []
  | parse_group =>
      m_uri u = sch ++ ":"%char :: ns ++ ":"%char :: g ∧ i = [] ∧ p = [] ∧ sec = []
  | parse_instantiation =>
      m_uri u = sch ++ ":"%char :: ns ++ ":"%char :: g ++ "@"%char :: i
      ∧ p = [] ∧ sec = []
  | parse_port => ∃ oi, i = opt_bytes oi ∧ sec = [] ∧
      m_uri u = sch ++ ":"%char :: ns ++ ":"%char :: g ++ print_opt "@" id oi
                ++ ":"%char :: p
  | parse_sec_credentials => ∃ oi op, i = opt_bytes oi ∧ p = opt_bytes op ∧
      m_uri u = sch ++ ":"%char :: ns ++ ":"%char :: g ++ print_opt "@" id oi
                ++ print_opt ":" id op ++ "/"%char :: sec
  | parse_error => False
  end.

(** Closes a concatenation goal up to associativity. *)
Ltac by_assoc :=
  split_and?; try done; repeat (rewrite -?app_assoc -?app_comm_cons ?app_nil_r /=); done.

Lemma feed_shape u c : shape u → shape (feed u c).
Proof.
  destruct u as [st w f sch ns g i p sec ur ip]; rewrite /shape /feed /consume /=.
  destruct st; simpl; intros Hu.
  - destruct_and!; subst. case_consume; [|by_assoc].
    apply bool_decide_eq_true in Heqb; subst. by_assoc.
  - destruct_and!; subst. case_consume; [|by_assoc].
    apply bool_decide_eq_true in Heqb; subst. by_assoc.
  - destruct_and!; subst. destruct w; simpl; [case_consume; by_assoc|].
    destruct (ch_is c "@") eqn:E1; simpl.
    { apply bool_decide_eq_true in E1; subst. by_assoc. }
    destruct (ch_is c ":") eqn:E2; simpl.
    { apply bool_decide_eq_true in E2; subst. exists None. by_assoc. }
    destruct (ch_is c "/") eqn:E3; simpl.
    { apply bool_decide_eq_true in E3; subst. exists None, None. by_assoc. }
    case_consume; by_assoc.
  - destruct_and!; subst. destruct w; simpl; [case_consume; by_assoc|].
    destruct (ch_is c ":") eqn:E2; simpl.
    { apply bool_decide_eq_true in E2; subst. exists (Some i). by_assoc. }
    destruct (ch_is c "/") eqn:E3; simpl.
    { apply bool_decide_eq_true in E3; subst. exists (Some i), None. by_assoc. }
    case_consume; by_assoc.
  - destruct Hu as (oi & -> & -> & ->). destruct (ch_is c "/") eqn:E; simpl.
    + apply bool_decide_eq_true in E; subst. exists oi, (Some p). by_assoc.
    + exists oi. by_assoc.
  - destruct Hu as (oi & op & -> & -> & ->). exists oi, op. by_assoc.
  - done.
Qed.

Lemma run_shape u cs : shape u → shape (run u cs).
Proof.
  revert u. induction cs as [|c cs IH]; intros u Hu; [done|].
  rewrite run_cons. by apply IH, feed_shape.
Qed.

Lemma shape_reassemble u :
  shape u → accepts u = true →
  ∃ oi op os, m_instantiation u = opt_bytes oi ∧ m_port u = opt_bytes op ∧
    m_sec_credentials u = opt_bytes os ∧
    m_uri u = str "ham:" ++ m_ham_namespace u ++ ":"%char :: m_group u
              ++ print_opt "@" id oi ++ print_opt ":" id op ++ print_opt "/" id os.
Proof.
  destruct u as [st w f sch ns g i p sec ur ip].
  rewrite /accepts /shape /= !andb_true_iff !negb_true_iff !bool_decide_eq_true
    !bool_decide_eq_false.
  intros Hs (((-> & Hns) & Hg) & ->). destruct st; simpl in Hs; try naive_solver.
  - destruct_and!; subst. exists None, None, None. by_assoc.
  - destruct_and!; subst. exists (Some i), None, None. by_assoc.
  - destruct Hs as (oi & -> & -> & ->). exists oi, (Some p), None. by_assoc.
  - destruct Hs as (oi & op & -> & -> & ->). exists oi, op, (Some sec). by_assoc.
Qed.

Lemma finish_fields u :
  m_ham_namespace (finish u) = m_ham_namespace u ∧ m_group (finish u) = strip (m_group u) ∧
  m_instantiation (finish u) = strip (m_instantiation u) ∧ m_port (finish u) = m_port u ∧
  m_sec_credentials (finish u) = m_sec_credentials u.
Proof.
  destruct u as [st w f sch ns g i p sec ur ip]. rewrite /finish /strip /=.
  destruct (starts_with_bracket g); simpl; [|destruct (regex_match m_v4_rx g); simpl];
    by destruct (starts_with_bracket i).
Qed.

(** ** Rejected texts *)

Lemma feed_namespace_free u c :
  free_of (str ":") (m_ham_namespace u) → free_of (str ":") (m_ham_namespace (feed u c)).
Proof.
  destruct u as [st w f sch ns g i p sec ur ip]; rewrite /feed /consume /free_of /=.
  destruct st; simpl; intros Hns; case_consume; try done.
  apply Forall_app. split; [done|]. constructor; [|done]. rewrite /ch_is bool_decide_eq_false in Heqb.
  by rewrite list_elem_of_singleton.
Qed.

Lemma run_namespace_free u cs :
  free_of (str ":") (m_ham_namespace u) → free_of (str ":") (m_ham_namespace (run u cs)).
Proof.
  revert u. induction cs as [|c cs IH]; intros u Hu; [done|]. rewrite run_cons. by apply IH, feed_namespace_free.
Qed.

(** The scheme and the namespace of a constructed URI. *)
Lemma uri_of_scheme s :
  uri_of s = uri_default ∨
  m_ham_scheme (uri_of s) = str "ham" ∧ m_ham_namespace (uri_of s) ≠ [] ∧
    free_of (str ":") (m_ham_namespace (uri_of s)).
Proof.
  rewrite /uri_of from_eq. destruct (accepts _) eqn:Ha; [|by left]. right.
  set (u := run start (tolower <$> s)) in Ha |- *. destruct (finish_fields u) as (-> & _).
  rewrite /accepts !andb_true_iff !negb_true_iff bool_decide_eq_true !bool_decide_eq_false in Ha.
  destruct Ha as (((Hs & Hn) & _) & _). split_and!; [|done|].
  - rewrite -Hs. rewrite /finish. by repeat case_match.
  - apply run_namespace_free. constructor.
Qed.

Lemma feed_scheme u c : m_state u ≠ parse_ham_scheme → m_ham_scheme (feed u c) = m_ham_scheme u ∧ m_state (feed u c) ≠ parse_ham_scheme.
Proof.
  destruct u as [st w f sch ns g i p sec ur ip]; rewrite /feed /consume /=.
  destruct st; simpl; intros Hst; case_consume; done.
Qed.

Lemma run_scheme_done u cs : m_state u ≠ parse_ham_scheme → m_ham_scheme (run u cs) = m_ham_scheme u.
Proof.
  revert u. induction cs as [|c cs IH]; intros u Hu; [done|]. rewrite run_cons.
  destruct (feed_scheme u c Hu) as [<- Hst]. by apply IH.
Qed.

Lemma tolower_colon c : c ∉ str ":" → tolower c ∉ str ":".
Proof.
  assert (Forall (λ c, tolower c ∈ str ":" → c ∈ str ":") all_bytes) as G
    by (apply (bool_decide_unpack _); vm_compute; exact I).
  rewrite Forall_forall in G. intros Hc Hl. by apply Hc, G, Hl; apply all_bytes_complete.
Qed.

(** A text whose scheme is not [ham] is the empty URI. *)
Lemma uri_of_other_scheme sch rest :
  free_of (str ":") sch → tolower <$> sch ≠ str "ham" → uri_of (sch ++ ":"%char :: rest) = uri_default.
Proof.
  intros Hf Hne. rewrite /uri_of from_eq. destruct (accepts _) eqn:Ha; [|done]. exfalso. apply Hne.
  rewrite /accepts !andb_true_iff bool_decide_eq_true in Ha. destruct Ha as (((Hs & _) & _) & _).
  rewrite fmap_app run_app fmap_cons run_cons in Hs. rewrite run_scheme in Hs.
  { apply Forall_fmap. eapply Forall_impl; [exact Hf|]. intros c. apply tolower_colon. }
  rewrite run_scheme_done in Hs; [done|]. exact Hs.
Qed.

(** ** Theorems *)

(** C31: constructing a URI from any text that is, up to the case of its
    letters, a sentence of the documented grammar yields an object whose
    accessors return exactly the parts of that sentence: namespace, group,
    instantiation (without brackets), port, credentials, the lower-cased
    text, the host flag, and the port reduced to 16 bits. *)
Theorem uri_of_print (h : ham_uri) (s : bytes) :
  ham_uri_ok h → tolower <$> s = print_ham_uri h →
  let u := uri_of s in
  uri_str u = print_ham_uri h ∧ m_ham_scheme u = str "ham" ∧
  m_ham_namespace u = h_namespace h ∧ m_group u = host_name (h_group h) ∧
  m_instantiation u = from_option host_name [] (h_instantiation h) ∧
  m_port u = opt_bytes (h_port h) ∧
  m_sec_credentials u = opt_bytes (h_sec_credentials h) ∧
  m_flag u = Some (host_flag (h_group h)) ∧
  port_as_int u = Some (if bool_decide (opt_bytes (h_port h) = []) then 0
                        else u16 (atoi (opt_bytes (h_port h)))).
Proof. intros Hok Hs. destruct (uri_of_parsed h s Hok Hs) as [st ->]. done. Qed.

Definition sample_ham_uri : ham_uri := {|
  h_namespace := str "ip"; h_group := Bracketed (str "123::22");
  h_instantiation := Some (Plain (str "source")); h_port := Some (str "5000");
  h_sec_credentials := Some (str "key:1/2") |}.

Lemma uri_of_print_witness :
  let u := uri_of (str "HAM:ip:[123::22]@Source:5000/key:1/2") in
  m_group u = str "123::22" ∧ port_as_int u = Some 5000.
Proof.
  destruct (uri_of_print sample_ham_uri (str "HAM:ip:[123::22]@Source:5000/key:1/2"))
    as (_ & _ & _ & Hg & _ & _ & _ & _ & Hp).
  - rewrite /ham_uri_ok /sample_ham_uri /=.
    split_and!; try done; apply (bool_decide_unpack _); vm_compute; exact I.
  - reflexivity.
  - split; [exact Hg|exact Hp].
Defined.

(** A constructed URI is determined by its string: two URIs with the
    same [str()] agree in every accessor.  Ordering and equality of the
    class (and every [std::map] keyed by it) compare [str()] only, so this
    is what makes them equality of URIs. *)
Theorem uri_str_determines (s t : bytes) :
  uri_str (uri_of s) = uri_str (uri_of t) ↔ uri_of s = uri_of t.
Proof.
  split; [|by intros ->]. intros H. by rewrite -(uri_of_str s) H uri_of_str.
Qed.

(** Every accepted text is the concatenation of the fields the parser
    stored (brackets stripped from a bracketed group or instantiation), so
    no character of an accepted URI is lost or moved to another field, and
    the namespace and group of an accepted URI are not empty. *)
Theorem uri_of_reassembles (s : bytes) :
  uri_empty (uri_of s) = false →
  ∃ graw oi op os,
    uri_str (uri_of s) = tolower <$> s ∧
    tolower <$> s = str "ham:" ++ m_ham_namespace (uri_of s) ++ ":"%char :: graw
      ++ print_opt "@" id oi ++ print_opt ":" id op ++ print_opt "/" id os ∧
    m_group (uri_of s) = strip graw ∧ m_instantiation (uri_of s) = strip (opt_bytes oi) ∧
    m_port (uri_of s) = opt_bytes op ∧ m_sec_credentials (uri_of s) = opt_bytes os ∧
    m_ham_namespace (uri_of s) ≠ [] ∧ graw ≠ [].
Proof.
  rewrite /uri_empty bool_decide_eq_false /uri_of /uri_str from_eq.
  set (v := run start (tolower <$> s)). destruct (accepts v) eqn:Ha; [|done]. intros _.
  assert (shape v) as Hv by (apply run_shape; by vm_compute).
  destruct (shape_reassemble v Hv Ha) as (oi & op & os & Hi & Hp & Hs & Hu).
  exists (m_group v), oi, op, os.
  rewrite finish_uri. assert (m_uri v = tolower <$> s) as Hvu by apply run_uri.
  rewrite -{2}Hvu -Hi -Hp -Hs.
  rewrite /accepts !andb_true_iff !negb_true_iff !bool_decide_eq_false in Ha.
  destruct Ha as (((_ & Hns) & Hg) & _).
  destruct (finish_fields v) as (-> & -> & -> & -> & ->).
  by rewrite -Hu.
Qed.

Lemma uri_of_reassembles_witness :
  uri_empty (uri_of (str "ham:sip:news@cnn.com:80")) = false ∧
  ∃ graw oi op os, str "ham:sip:news@cnn.com:80" =
    str "ham:" ++ m_ham_namespace (uri_of (str "ham:sip:news@cnn.com:80")) ++ ":"%char :: graw
      ++ print_opt "@" id oi ++ print_opt ":" id op ++ print_opt "/" id os.
Proof.
  split; [reflexivity|].
  destruct (uri_of_reassembles (str "ham:sip:news@cnn.com:80"))
    as (graw & oi & op & os & _ & H & _); [reflexivity|].
  exists graw, oi, op, os. exact H.
Defined.

(** [host_is_ipv4addr()] is true of exactly those URIs whose group is a
    plain dotted quad of decimal numbers 0 to 255 without leading zeros, so
    the alternatives of the regular expression [HC_OCTET] lose no address
    and admit no other text. *)
Theorem uri_ipv4_iff (h : ham_uri) (s : bytes) :
  ham_uri_ok h → tolower <$> s = print_ham_uri h →
  host_is_ipv4addr (uri_of s) = Some true ↔
  ∃ name, h_group h = Plain name ∧ is_dotted_quad name.
Proof.
  intros Hok Hs. destruct (uri_of_parsed h s Hok Hs) as [st ->].
  rewrite /host_is_ipv4addr /=. setoid_rewrite <- v4_spec.
  destruct (h_group h) as [name|addr]; simpl; [|split; [done|by intros (? & ? & _)]].
  destruct (regex_match m_v4_rx name) eqn:E; simpl.
  - split; [eauto|done].
  - split; [done|]. intros (? & [= <-] & ?). congruence.
Qed.

Lemma uri_ipv4_iff_witness :
  host_is_ipv4addr (uri_of (str "ham:ip:224.1.2.255")) = Some true.
Proof.
  apply (uri_ipv4_iff {| h_namespace := str "ip"; h_group := Plain (str "224.1.2.255");
    h_instantiation := None; h_port := None; h_sec_credentials := None |}).
  - rewrite /ham_uri_ok /=.
    split_and!; try done; apply (bool_decide_unpack _); vm_compute; exact I.
  - reflexivity.
  - exists (str "224.1.2.255"). split; [reflexivity|].
    exists 224%N, 1%N, 2%N, 255%N. split; [lia|reflexivity].
Defined.
