(* ===== verification/Streams.v ===== *)
(** * Data sinks and data sources

    The abstract classes [util::sink] and [util::source] as type classes:
    the operations an implementation provides, and, separately, what it
    promises to the serializer and the deserializer.  The buffers of the
    library are proved to keep the promises in [WriteBuffer.v],
    [ReadBuffer.v] and [BufferedSource.v]. *)

From S2P Require Import Prelude.

(** [sink::write], [sink::flush], [sink::flush_hint]. *)
Class Sink (S : Type) := {
  sink_write : bytes → M S unit;
  sink_flush : M S unit;
  sink_flush_hint : S → Z
}.

(** A sink accepts every written byte, in order, unless it throws; flushing
    accepts nothing new.  [sink_accepted] is the stream of bytes written so
    far. *)
Class SinkSpec (S : Type) `{Sink S} := {
  sink_ok : S → Prop;
  sink_accepted : S → bytes;
  sink_write_spec bs a :
    triple (λ s, sink_ok s ∧ sink_accepted s = a) (sink_write bs)
      (λ _ s, sink_ok s ∧ sink_accepted s = a ++ bs) (λ _ _, True);
  sink_flush_spec a :
    triple (λ s, sink_ok s ∧ sink_accepted s = a) sink_flush
      (λ _ s, sink_ok s ∧ sink_accepted s = a) (λ _ _, True)
}.

(** [source::read_some], [source::read], [source::has_buffered_data]. *)
Class Source (R : Type) := {
  source_read_some : Z → M R bytes;
  source_read : Z → M R bytes;
  source_has_buffered_data : R → bool
}.

(** A source delivers a fixed stream of bytes.  [source_rest] is what it has
    not delivered yet.  [read_some] delivers between one and [n] of the
    bytes that are left (it blocks rather than returning nothing while the
    peer still sends), and fails or returns nothing at the end. *)
Class ReadSomeSpec (R : Type) `{Source R} := {
  source_ok : R → Prop;
  source_rest : R → bytes;
  source_read_some_spec n r s :
    source_ok s → source_rest s = r → 0 < n → r ≠ [] →
    ∃ bs s', source_read_some n s = (Ok bs, s') ∧ source_ok s' ∧
      r = bs ++ source_rest s' ∧ 0 < zlen bs <= n
}.

(** [read n] delivers exactly the next [n] bytes, for every [n] up to the
    size [source_limit] the source supports. *)
Class ReadSpec (R : Type) `{ReadSomeSpec R} := {
  source_limit : Z;
  source_read_spec n r s :
    source_ok s → source_rest s = r → 0 <= n <= zlen r → n <= source_limit →
    ∃ s', source_read n s = (Ok (ztake n r), s') ∧ source_ok s' ∧
      source_rest s' = zdrop n r
}.

(** The null pointer a default-constructed serializer holds: writes and
    flushes through it do nothing. *)
#[export] Instance option_sink S `{Sink S} : Sink (option S) := {
  sink_write bs := λ o,
    match o with
    | Some s => let '(r, s') := sink_write bs s in (r, Some s')
    | None => (Ok tt, None)
    end;
  sink_flush := λ o,
    match o with
    | Some s => let '(r, s') := sink_flush s in (r, Some s')
    | None => (Ok tt, None)
    end;
  sink_flush_hint o := from_option sink_flush_hint 0 o
}.

(** ** A recording sink and a chunked source

    Concrete instances for evaluation: a sink that records the written
    chunks, and a source whose [read_some] hands out the chunks in which
    the data arrived. *)

Record log_sink := { log_chunks : list bytes; log_hint : Z }.

#[export] Instance log_sink_sink : Sink log_sink := {
  sink_write bs := λ s, (Ok tt, {| log_chunks := log_chunks s ++ [bs]; log_hint := log_hint s |});
  sink_flush := mret tt;
  sink_flush_hint := log_hint
}.

#[export] Instance log_sink_spec : SinkSpec log_sink.
Proof.
  refine {| sink_ok := λ _, True; sink_accepted := λ s, concat (log_chunks s) |}.
  - intros bs a s [_ <-]. simpl. split; [done|].
    by rewrite concat_app /= app_nil_r.
  - by intros a s [_ <-].
Defined.

(** [native_socket_io::read_some] and [read] over the chunks the kernel
    delivers: at most one chunk per call; the end of the data is an
    [ios_base::failure]. *)
Definition chunk_read_some (n : Z) : M (list bytes) bytes := λ cs,
  if n =? 0 then (Ok [], cs)
  else match cs with
       | [] => (Throw (ios_failure "lost connection!"), [])
       | c :: cs' =>
           if zlen c <=? n then (Ok c, cs') else (Ok (ztake n c), zdrop n c :: cs')
       end.

Fixpoint chunk_read (fuel : nat) (n : Z) : M (list bytes) bytes :=
  if n <=? 0 then mret []
  else match fuel with
       | O => ub "fuel"
       | S fuel' =>
           bs ← chunk_read_some n;
           rest ← chunk_read fuel' (n - zlen bs);
           mret (bs ++ rest)
       end.

#[export] Instance chunk_source : Source (list bytes) := {
  source_read_some := chunk_read_some;
  source_read n := chunk_read (S (Z.to_nat n)) n;
  source_has_buffered_data _ := false
}.

(** A chunk list without empty chunks. *)
Definition chunks_ok (cs : list bytes) : Prop := Forall (λ c, c ≠ []) cs.

Lemma chunk_read_some_ok n (cs : list bytes) :
  chunks_ok cs → 0 < n → concat cs ≠ [] →
  ∃ bs cs', chunk_read_some n cs = (Ok bs, cs') ∧ chunks_ok cs' ∧
    concat cs = bs ++ concat cs' ∧ 0 < zlen bs <= n.
Proof.
  intros Hok Hn Hne. destruct Hok as [|c cs Hc Hok]; [done|].
  rewrite /chunk_read_some (proj2 (Z.eqb_neq n 0)); [lia|].
  assert (0 < zlen c). { destruct c; [done|]. rewrite zlen_cons. pose proof (zlen_nonneg c). lia. }
  destruct (Z.leb_spec (zlen c) n).
  - exists c, cs. done.
  - exists (ztake n c), (zdrop n c :: cs). split_and!; [done| | | |].
    + constructor; [|done]. intros Hd. pose proof (zlen_zdrop n c ltac:(lia)).
      rewrite Hd zlen_nil in H1. lia.
    + by rewrite /= app_assoc ztake_zdrop.
    + rewrite zlen_ztake; lia.
    + rewrite zlen_ztake; lia.
Qed.

#[export] Instance chunk_read_some_spec : ReadSomeSpec (list bytes).
Proof.
  refine {| source_ok := chunks_ok; source_rest := @concat byte |}.
  intros n r s Hok <- Hn Hne. by apply chunk_read_some_ok.
Defined.

Lemma chunk_read_ok fuel n (cs : list bytes) :
  chunks_ok cs → 0 <= n <= zlen (concat cs) → n < Z.of_nat fuel →
  ∃ cs', chunk_read fuel n cs = (Ok (ztake n (concat cs)), cs') ∧ chunks_ok cs' ∧
    concat cs' = zdrop n (concat cs).
Proof.
  revert n cs. induction fuel as [|fuel IH]; intros n cs Hok Hn Hf; [lia|].
  simpl. destruct (Z.leb_spec n 0).
  { assert (n = 0) as -> by lia. exists cs. by rewrite ztake_0 zdrop_0. }
  destruct (chunk_read_some_ok n cs) as (bs & cs' & Hrs & Hok' & Hc & Hl); [done|lia| |].
  { intros He. rewrite He zlen_nil in Hn. lia. }
  step_ok Hrs. rewrite Hc zlen_app in Hn |- *.
  destruct (IH (n - zlen bs) cs') as (cs'' & Hr & Hok'' & Hc''); [done|lia|lia|].
  step_ok Hr. exists cs''. split_and!; [|done|].
  - rewrite /mret /M_ret. f_equal. f_equal.
    rewrite /ztake take_app_ge; [rewrite /zlen in Hl; lia|]. f_equal. f_equal.
    rewrite /zlen. lia.
  - rewrite Hc'' /zdrop drop_app_ge; [rewrite /zlen in Hl; lia|]. f_equal. rewrite /zlen. lia.
Qed.

#[export] Instance chunk_read_spec : ReadSpec (list bytes).
Proof.
  refine {| source_limit := 2 ^ 64 |}.
  intros n r s Hok <- Hn _. apply chunk_read_ok; [done|done|lia].
Defined.
