(* ===== verification/WriteBuffer.v ===== *)
(** * Growing write buffers

    [util::write_buffer] and the decorator [util::buffered_sink], both
    templates over a block size and a maximum size.  The heap block behind
    the buffer is modelled with its allocated capacity, so that a [memcpy]
    past the allocation is undefined behaviour here as it is in C++. *)

From S2P Require Import Prelude Streams.

(** ** Heap blocks

    [new char[b_cap]] of which the first [zlen b_init] bytes have been
    written. *)
Record block := { b_cap : Z; b_init : bytes }.

(** [memcpy(block + off, src, size)]. *)
Definition block_store (off : Z) (src : bytes) (b : block) : outcome block :=
  if negb (off + zlen src <=? b_cap b) then UB "write past the end of a heap block"
  else if negb (off <=? zlen (b_init b)) then UB "write leaves uninitialised bytes behind"
  else Ok {| b_cap := b_cap b;
             b_init := ztake off (b_init b) ++ src ++ zdrop (off + zlen src) (b_init b) |}.

(** [memcpy(dst, block + off, size)]. *)
Definition block_load (off size : Z) (b : block) : outcome bytes :=
  if off + size <=? zlen (b_init b) then Ok (ztake size (zdrop off (b_init b)))
  else UB "read of unwritten or foreign memory".

Definition lift {S A} (o : outcome A) : M S A := λ s, (o, s).

Record write_buffer := {
  wb_data : option block;
  wb_wr_pos : Z;
  wb_reserved : Z
}.

Definition wb_set_data (d : option block) (s : write_buffer) : write_buffer :=
  {| wb_data := d; wb_wr_pos := wb_wr_pos s; wb_reserved := wb_reserved s |}.
Definition wb_set_wr_pos (n : Z) (s : write_buffer) : write_buffer :=
  {| wb_data := wb_data s; wb_wr_pos := n; wb_reserved := wb_reserved s |}.
Definition wb_set_reserved (n : Z) (s : write_buffer) : write_buffer :=
  {| wb_data := wb_data s; wb_wr_pos := wb_wr_pos s; wb_reserved := n |}.

Definition new_write_buffer : write_buffer :=
  {| wb_data := None; wb_wr_pos := 0; wb_reserved := 0 |}.

Section write_buffer.
Context (block_size maximum_size : Z).

(** The nearest valid size: always a multiple of the block size. *)
Definition round_up (n : Z) : Z :=
  if n mod block_size =? 0 then n else (n / block_size + 1) * block_size.

(** [m_reserved] is assigned before the size check, so a failing call
    leaves it larger than the allocation. *)
Definition lazy_resize (new_min_size : Z) : M write_buffer unit :=
  r ← gets wb_reserved;
  if r <? new_min_size then
    let r := round_up new_min_size in
    modify (wb_set_reserved r) ;;
    if maximum_size <? r then throw (ios_failure "Buffer exceeds maximum size")
    else
      s ← get;
      copied ← match wb_data s with
               | Some d => if 0 <? wb_wr_pos s then lift (block_load 0 (wb_wr_pos s) d)
                           else mret []
               | None => mret []
               end;
      modify (wb_set_data (Some {| b_cap := r; b_init := copied |}))
  else mret tt.

Definition wb_reserve (arg : Z) : M write_buffer unit :=
  r ← gets wb_reserved;
  if r <? arg then lazy_resize arg else mret tt.

Definition wb_capacity (s : write_buffer) : Z := wb_reserved s.
Definition wb_remaining (s : write_buffer) : Z := wb_reserved s - wb_wr_pos s.
Definition wb_size (s : write_buffer) : Z := wb_wr_pos s.
Definition wb_empty (s : write_buffer) : bool := wb_size s =? 0.

(** The bytes [data()[0 .. size())]. *)
Definition wb_contents (s : write_buffer) : bytes :=
  match wb_data s with Some b => ztake (wb_wr_pos s) (b_init b) | None => [] end.

(** [memcpy(m_data + m_wr_pos, src, size)]; copying nothing is a no-op. *)
Definition wb_store (src : bytes) : M write_buffer unit :=
  s ← get;
  match wb_data s with
  | Some b => b' ← lift (block_store (wb_wr_pos s) src b); modify (wb_set_data (Some b'))
  | None => if zlen src =? 0 then mret tt else ub "write through a null pointer"
  end.

Definition wb_write (buf : bytes) : M write_buffer unit :=
  p ← gets wb_wr_pos;
  lazy_resize (zlen buf + p) ;;
  wb_store buf ;;
  modify (λ s, wb_set_wr_pos (wb_wr_pos s + zlen buf) s).

(** [append_some_from(src, buf_size)]: the source writes directly behind
    the used part; returns the number of bytes it wrote. *)
Definition append_some_from {R} `{Source R} (buf_size : Z) : M (write_buffer * R) Z :=
  n ← gets (λ s, wb_size s.1);
  zoom fst (λ t s, (t, s.2)) (lazy_resize (n + buf_size)) ;;
  bs ← zoom snd (λ t s, (s.1, t)) (source_read_some buf_size);
  zoom fst (λ t s, (t, s.2)) (wb_store bs) ;;
  modify (λ s, (wb_set_wr_pos (wb_wr_pos s.1 + zlen bs) s.1, s.2)) ;;
  mret (zlen bs).

(** [erase(from, to)] removes the bytes of [[from, to)]. *)
Definition wb_erase (from to : Z) : M write_buffer unit :=
  if from =? to then mret tt
  else
    require (from <? to) "from < to" ;;
    s ← get;
    if wb_wr_pos s <=? from then mret tt
    else if wb_wr_pos s <=? to then modify (wb_set_wr_pos from)
    else
      match wb_data s with
      | Some b =>
          moved ← lift (block_load to (wb_wr_pos s - to) b);
          b' ← lift (block_store from moved b);
          modify (wb_set_data (Some b')) ;;
          modify (wb_set_wr_pos (wb_wr_pos s - (to - from)))
      | None => ub "erase through a null pointer"
      end.

Definition wb_erase_at (position : Z) : M write_buffer unit := wb_erase position (position + 1).

Definition wb_clear : M write_buffer unit := modify (wb_set_wr_pos 0).

Definition wb_take : M write_buffer (Z * option block) :=
  s ← get;
  let result := (wb_size s, wb_data s) in
  wb_clear ;;
  modify (wb_set_reserved 0) ;;
  modify (wb_set_data None) ;;
  mret result.

Definition wb_reset : M write_buffer unit :=
  wb_clear ;; modify (wb_set_data None) ;; modify (wb_set_reserved 0).

#[export] Instance write_buffer_sink : Sink write_buffer := {
  sink_write := wb_write;
  sink_flush := mret tt;
  sink_flush_hint _ := 0
}.

(** ** The invariant *)

Definition wb_ok (s : write_buffer) : Prop :=
  0 <= wb_wr_pos s <= wb_reserved s ∧ wb_reserved s <= maximum_size ∧
  match wb_data s with
  | Some b => b_cap b = wb_reserved s ∧ wb_wr_pos s <= zlen (b_init b) <= b_cap b
  | None => wb_reserved s = 0
  end.

Context (block_pos : 0 < block_size) (max_block : maximum_size mod block_size = 0).

Lemma new_write_buffer_ok : 0 <= maximum_size → wb_ok new_write_buffer.
Proof. intros. rewrite /wb_ok /=. lia. Qed.

Lemma zlen_wb_contents s : wb_ok s → zlen (wb_contents s) = wb_wr_pos s.
Proof.
  intros (Hp & Hm & Hd). rewrite /wb_contents. destruct (wb_data s) as [b|].
  - apply zlen_ztake. lia.
  - rewrite zlen_nil. lia.
Qed.

Lemma round_up_le n :
  0 <= n <= maximum_size →
  n <= round_up n <= maximum_size.
Proof.
  intros Hn. rewrite /round_up. destruct (Z.eqb_spec (n mod block_size) 0) as [|Hne]; [lia|].
  pose proof (Z.div_mod n block_size ltac:(lia)).
  pose proof (Z.mod_pos_bound n block_size block_pos).
  pose proof (Z.div_mod maximum_size block_size ltac:(lia)). split; [nia|].
  assert (n / block_size < maximum_size / block_size); [|nia].
  apply Z.div_lt_upper_bound; [done|]. assert (n ≠ maximum_size); [congruence|]. nia.
Qed.

(** Growing keeps the contents and makes room. *)
Lemma lazy_resize_ok n s :
  wb_ok s → 0 <= n <= maximum_size →
  ∃ s', lazy_resize n s = (Ok tt, s') ∧ wb_ok s' ∧ wb_contents s' = wb_contents s ∧
    wb_wr_pos s' = wb_wr_pos s ∧ n <= wb_reserved s' ∧ wb_reserved s <= wb_reserved s' ∧
    (n <= wb_reserved s → s' = s).
Proof.
  intros (Hp & Hm & Hd) Hn. destruct s as [d p r]; simpl in *.
  rewrite /lazy_resize /mbind /M_bind /gets /=.
  destruct (Z.ltb_spec r n) as [Hlt|Hge]; [|eexists; split_and!; done || lia].
  pose proof (round_up_le n Hn) as Hr. set (r' := round_up n) in *.
  rewrite /modify /wb_set_reserved /= (proj2 (Z.ltb_ge maximum_size r')); [lia|].
  rewrite /get /=. destruct d as [b|]; simpl.
  - destruct Hd as [Hc Hi]. destruct (Z.ltb_spec 0 p) as [Hpos|Hz].
    + rewrite /block_load (proj2 (Z.leb_le _ _)); [lia|]. rewrite zdrop_0 /=.
      eexists; split_and!; [done|..]; rewrite ?/wb_ok ?/wb_contents /=; try lia.
      * rewrite zlen_ztake; lia.
      * by rewrite (ztake_all p (ztake p _)); [rewrite zlen_ztake; lia|].
    + assert (p = 0) as -> by lia. simpl.
      eexists; split_and!; [done|..]; rewrite ?/wb_ok ?/wb_contents /= ?zlen_nil; try lia.
      done.
  - assert (p = 0) as -> by lia.
    eexists; split_and!; [done|..]; rewrite ?/wb_ok ?/wb_contents /= ?zlen_nil; try lia. done.
Qed.

Lemma wb_store_ok src s :
  wb_ok s → wb_wr_pos s + zlen src <= wb_reserved s →
  ∃ s', wb_store src s = (Ok tt, s') ∧ wb_wr_pos s' = wb_wr_pos s ∧
    wb_reserved s' = wb_reserved s ∧
    wb_ok (wb_set_wr_pos (wb_wr_pos s' + zlen src) s') ∧
    wb_contents (wb_set_wr_pos (wb_wr_pos s' + zlen src) s') = wb_contents s ++ src.
Proof.
  intros (Hp & Hm & Hd) Hfit. destruct s as [d p r]; simpl in *.
  pose proof (zlen_nonneg src). rewrite /wb_store /mbind /M_bind /get /=.
  destruct d as [b|]; simpl.
  - destruct Hd as [Hc Hi].
    rewrite /block_store (proj2 (Z.leb_le (_ + _) _)); [lia|].
    rewrite (proj2 (Z.leb_le p _)) /=; [lia|].
    eexists; split_and!; [done..| |]; rewrite /wb_ok /wb_contents /=.
    + rewrite !zlen_app zlen_ztake; [lia|]. split_and!; try lia.
      * pose proof (zlen_nonneg (zdrop (p + zlen src) (b_init b))). lia.
      * destruct (Z.le_ge_cases (p + zlen src) (zlen (b_init b))).
        -- rewrite zlen_zdrop; lia.
        -- rewrite zdrop_all; [lia|]. rewrite zlen_nil. lia.
    + rewrite app_assoc.
      replace (p + zlen src) with (zlen (ztake p (b_init b) ++ src)) at 1;
        [apply ztake_app|]. rewrite zlen_app zlen_ztake; lia.
  - assert (zlen src = 0) as Hz by lia. rewrite Hz /=.
    eexists; split_and!; [done..| |]; rewrite /wb_ok /wb_contents /=; [lia|].
    by rewrite (zlen_zero_nil src Hz).
Qed.

(** The functional behaviour of [write]. *)
Lemma wb_write_ok buf s :
  wb_ok s → wb_wr_pos s + zlen buf <= maximum_size →
  ∃ s', wb_write buf s = (Ok tt, s') ∧ wb_ok s' ∧ wb_contents s' = wb_contents s ++ buf ∧
    wb_reserved s <= wb_reserved s'.
Proof.
  intros Hok Hfit. pose proof (zlen_nonneg buf). assert (0 <= wb_wr_pos s) by apply Hok.
  destruct (lazy_resize_ok (zlen buf + wb_wr_pos s) s)
    as (s1 & H1 & Hok1 & Hc1 & Hp1 & Hr1 & Hm1 & _); [done|lia|].
  destruct (wb_store_ok buf s1) as (s2 & H2 & Hp2 & Hr2 & Hok2 & Hc2); [done|lia|].
  eexists. rewrite /wb_write. erewrite bind_ok; [|done]. step_ok H1. step_ok H2.
  split_and!; [done|done|by rewrite Hc2 Hc1|]. simpl. lia.
Qed.

(** Reading [bs] from a source appends them. *)
Lemma append_some_from_ok {R} `{Source R} n s (src src' : R) bs :
  wb_ok s → 0 <= n → wb_wr_pos s + n <= maximum_size →
  source_read_some n src = (Ok bs, src') → zlen bs <= n →
  ∃ s', append_some_from n (s, src) = (Ok (zlen bs), (s', src')) ∧ wb_ok s' ∧
    wb_contents s' = wb_contents s ++ bs ∧ wb_reserved s <= wb_reserved s' ∧
    (wb_wr_pos s + n <= wb_reserved s → wb_reserved s' = wb_reserved s).
Proof.
  intros Hok Hn Hfit Hrs Hlen. assert (0 <= wb_wr_pos s) by apply Hok.
  destruct (lazy_resize_ok (wb_wr_pos s + n) s) as (s1 & Hr & Hok1 & Hc1 & Hp1 & Hr1 & Hm1 & Hid);
    [done|lia|].
  destruct (wb_store_ok bs s1) as (s2 & Hst & Hp2 & Hr2 & Hok2 & Hc2); [done|lia|].
  eexists. split.
  - rewrite /append_some_from. erewrite bind_ok; [|done].
    erewrite (bind_ok _ _ _ tt); [|rewrite /zoom /wb_size /= Hr; done].
    erewrite (bind_ok _ _ _ bs); [|rewrite /zoom /= Hrs; done].
    erewrite (bind_ok _ _ _ tt); [|rewrite /zoom /= Hst; done].
    erewrite bind_ok; done.
  - cbn [fst]. rewrite Hc2 Hc1. split_and!; [done|done|simpl; lia|].
    intros Hx. rewrite /= Hr2 (Hid Hx). done.
Qed.

Lemma lazy_resize_fails n s :
  wb_reserved s < n → maximum_size < n →
  ∃ r, n <= r ∧
    lazy_resize n s = (Throw (ios_failure "Buffer exceeds maximum size"), wb_set_reserved r s).
Proof.
  intros Hr Hn. rewrite /lazy_resize /mbind /M_bind /gets /=.
  rewrite (proj2 (Z.ltb_lt _ _) Hr) /modify. set (r' := round_up n).
  assert (n <= r').
  { subst r'. rewrite /round_up. destruct (Z.eqb_spec (n mod block_size) 0); [lia|].
    pose proof (Z.div_mod n block_size ltac:(lia)).
    pose proof (Z.mod_pos_bound n block_size block_pos). nia. }
  exists r'. split; [done|]. by rewrite (proj2 (Z.ltb_lt maximum_size r')); [lia|].
Qed.

Lemma wb_write_fails buf s :
  wb_ok s → maximum_size < wb_wr_pos s + zlen buf →
  ∃ r, wb_wr_pos s + zlen buf <= r ∧
    wb_write buf s = (Throw (ios_failure "Buffer exceeds maximum size"), wb_set_reserved r s).
Proof.
  intros (Hp & Hm & _) Hbig. rewrite /wb_write. erewrite bind_ok; [|done].
  destruct (lazy_resize_fails (zlen buf + wb_wr_pos s) s) as (r & Hr & Heq); [lia..|].
  exists r. split; [lia|]. erewrite bind_throw; done.
Qed.

#[export] Instance write_buffer_spec : SinkSpec write_buffer.
Proof.
  refine {| sink_ok := wb_ok; sink_accepted := wb_contents |}.
  - intros bs a s [Hok <-]. simpl.
    destruct (Z.le_gt_cases (wb_wr_pos s + zlen bs) maximum_size).
    + destruct (wb_write_ok bs s) as (s' & -> & Hok' & Hc & _); done.
    + destruct (wb_write_fails bs s) as (r & _ & ->); done.
  - by intros a s [Hok <-].
Defined.

(** [erase] cuts the interval out of the contents. *)
Lemma wb_erase_ok from to s :
  wb_ok s → 0 <= from <= to →
  ∃ s', wb_erase from to s = (Ok tt, s') ∧ wb_ok s' ∧ wb_reserved s' = wb_reserved s ∧
    wb_contents s' = ztake from (wb_contents s) ++ zdrop to (wb_contents s).
Proof.
  intros Hok Hft. pose proof (zlen_wb_contents s Hok) as Hlen.
  destruct Hok as (Hp & Hm & Hd). destruct s as [d p r]; simpl in *.
  rewrite /wb_erase. destruct (Z.eqb_spec from to) as [->|Hne].
  { exists {| wb_data := d; wb_wr_pos := p; wb_reserved := r |}.
    by rewrite ztake_zdrop. }
  rewrite (proj2 (Z.ltb_lt from to)); [lia|].
  rewrite /mbind /M_bind /= /get /=.
  destruct (Z.leb_spec p from) as [Hpf|Hpf].
  { eexists; split_and!; [done..|]. rewrite ztake_all ?zdrop_all ?app_nil_r //; lia. }
  destruct d as [b|]; [|lia]. destruct Hd as [Hc Hi]. rewrite /wb_contents /= in Hlen |- *.
  destruct (Z.leb_spec p to) as [Hpt|Hpt].
  { eexists; split_and!; [done|rewrite /wb_ok /=; lia|done|]. rewrite /wb_contents /=.
    rewrite (zdrop_all to) ?app_nil_r; [lia|].
    rewrite /ztake take_take. f_equal. lia. }
  rewrite /lift /block_load /modify (proj2 (Z.leb_le _ _)); [lia|].
  rewrite /block_store zlen_ztake.
  { rewrite zlen_zdrop; lia. }
  rewrite (proj2 (Z.leb_le (from + _) _)); [lia|].
  rewrite (proj2 (Z.leb_le from _)) /=; [lia|].
  assert (zlen (zdrop to (b_init b)) = zlen (b_init b) - to) as Hz by (apply zlen_zdrop; lia).
  eexists; split_and!; [done|..]; rewrite ?/wb_ok ?/wb_contents //=.
  - split_and!; [lia..|done| |].
    + rewrite !zlen_app zlen_ztake ?zlen_ztake; [lia..|].
      pose proof (zlen_nonneg (zdrop (from + (p - to)) (b_init b))). lia.
    + rewrite !zlen_app !zlen_ztake; [lia..|]. rewrite zlen_zdrop; lia.
  - rewrite app_assoc.
    replace (p - (to - from)) with
      (zlen (ztake from (b_init b) ++ ztake (p - to) (zdrop to (b_init b)))).
    2: { rewrite !zlen_app !zlen_ztake; lia. }
    rewrite ztake_app. f_equal.
    + rewrite /ztake take_take. f_equal. lia.
    + rewrite /ztake /zdrop skipn_firstn_comm. f_equal. lia.
Qed.
End write_buffer.

(** ** The buffering decorator *)

Record buffered_sink (S : Type) := {
  bs_decorated : S;
  bs_buf : write_buffer;
  bs_flush_hint : Z
}.
Arguments bs_decorated {S}.
Arguments bs_buf {S}.
Arguments bs_flush_hint {S}.

Section buffered_sink.
Context (block_size maximum_size : Z) {S : Type} `{Sink S}.

Definition bs_set_decorated (d : S) (s : buffered_sink S) : buffered_sink S :=
  {| bs_decorated := d; bs_buf := bs_buf s; bs_flush_hint := bs_flush_hint s |}.
Definition bs_set_buf (b : write_buffer) (s : buffered_sink S) : buffered_sink S :=
  {| bs_decorated := bs_decorated s; bs_buf := b; bs_flush_hint := bs_flush_hint s |}.

(** Very small flush hints are ignored. *)
Definition new_buffered_sink (underlying_sink : S) : buffered_sink S :=
  let hint := sink_flush_hint underlying_sink in
  {| bs_decorated := underlying_sink; bs_buf := new_write_buffer;
     bs_flush_hint := if hint <? 100 then 0 else hint |}.

Definition bs_flush : M (buffered_sink S) unit :=
  s ← get;
  if negb (wb_empty (bs_buf s)) then
    zoom bs_decorated bs_set_decorated (sink_write (wb_contents (bs_buf s))) ;;
    zoom bs_decorated bs_set_decorated sink_flush ;;
    zoom bs_buf bs_set_buf wb_clear
  else mret tt.

Definition bs_write (buf : bytes) : M (buffered_sink S) unit :=
  s ← get;
  let new_size := wb_size (bs_buf s) + zlen buf in
  (if maximum_size <? new_size then bs_flush
   else if 0 <? bs_flush_hint s then
     if bs_flush_hint s <? new_size then bs_flush else mret tt
   else mret tt) ;;
  zoom bs_buf bs_set_buf (wb_write block_size maximum_size buf).

#[export] Instance buffered_sink_sink : Sink (buffered_sink S) := {
  sink_write := bs_write;
  sink_flush := bs_flush;
  sink_flush_hint := bs_flush_hint
}.

Context `{!SinkSpec S}.
Context (block_pos : 0 < block_size) (max_pos : 0 <= maximum_size)
  (max_block : maximum_size mod block_size = 0).

Definition bs_ok (s : buffered_sink S) : Prop :=
  sink_ok (bs_decorated s) ∧ wb_ok maximum_size (bs_buf s).

(** Everything written: what has been passed on, then what is buffered. *)
Definition bs_accepted (s : buffered_sink S) : bytes :=
  sink_accepted (bs_decorated s) ++ wb_contents (bs_buf s).

Lemma wb_clear_ok (b : write_buffer) :
  wb_ok maximum_size b →
  wb_ok maximum_size (wb_set_wr_pos 0 b) ∧ wb_contents (wb_set_wr_pos 0 b) = [].
Proof.
  intros (Hp & Hm & Hd). rewrite /wb_ok /wb_contents /=.
  destruct (wb_data b) as [d|]; split_and?; try lia; try done.
Qed.

Lemma zoom_decorated_triple {A} (m : M S A) (Q : A → S → Prop) P s :
  triple P m Q (λ _ _, True) → P (bs_decorated s) →
  match zoom bs_decorated bs_set_decorated m s with
  | (Ok a, s') => Q a (bs_decorated s') ∧ bs_buf s' = bs_buf s
  | (Throw _, _) => True
  | (UB _, _) => False
  end.
Proof.
  intros Hm HP. specialize (Hm _ HP). rewrite /zoom.
  by destruct (m (bs_decorated s)) as [[a|e|w] d].
Qed.

(** A successful flush hands the buffer to the decorated sink. *)
Lemma bs_flush_triple a :
  triple (λ s, bs_ok s ∧ bs_accepted s = a) bs_flush
    (λ _ s, bs_ok s ∧ bs_accepted s = a ∧ wb_contents (bs_buf s) = [] ∧
            wb_wr_pos (bs_buf s) = 0) (λ _ _, True).
Proof.
  intros s [[Hd Hb] <-]. rewrite /bs_flush /mbind /M_bind /get /=.
  pose proof (zlen_wb_contents maximum_size _ Hb) as Hlen.
  rewrite /wb_empty /wb_size. destruct (Z.eqb_spec (wb_wr_pos (bs_buf s)) 0) as [H0|Hn]; simpl.
  - split_and!; [done..| |done]. apply zlen_zero_nil. lia.
  - pose proof (zoom_decorated_triple _ _ _ s
      (sink_write_spec (wb_contents (bs_buf s)) (sink_accepted (bs_decorated s))) (conj Hd eq_refl)) as H1.
    destruct (zoom _ _ (sink_write _) s) as [[[]|e|w] s1]; [|done|done].
    destruct H1 as [[Hd1 Ha1] Hb1].
    pose proof (zoom_decorated_triple _ _ _ s1
      (sink_flush_spec (sink_accepted (bs_decorated s1))) (conj Hd1 eq_refl)) as H2.
    destruct (zoom _ _ sink_flush s1) as [[[]|e|w] s2]; [|done|done].
    destruct H2 as [[Hd2 Ha2] Hb2]. rewrite /zoom /wb_clear /modify /=.
    rewrite -Hb1 -Hb2 in Hb. destruct (wb_clear_ok _ Hb) as [Hok Hc].
    rewrite /bs_ok /bs_accepted /= Hc Ha2 Ha1 app_nil_r. done.
Qed.

Lemma bs_write_triple bs a :
  triple (λ s, bs_ok s ∧ bs_accepted s = a) (bs_write bs)
    (λ _ s, bs_ok s ∧ bs_accepted s = a ++ bs) (λ _ _, True).
Proof.
  intros s [Hok Ha]. rewrite /bs_write /mbind /M_bind /get.
  set (m := if maximum_size <? _ then bs_flush else _).
  assert (triple (λ s, bs_ok s ∧ bs_accepted s = a) m
            (λ _ s, bs_ok s ∧ bs_accepted s = a) (λ _ _, True)) as Hm.
  { assert (triple (λ s, bs_ok s ∧ bs_accepted s = a) bs_flush
            (λ _ s, bs_ok s ∧ bs_accepted s = a) (λ _ _, True)).
    { eapply triple_consequence; [apply (bs_flush_triple a)|done| |done]. naive_solver. }
    subst m. repeat case_match; try done; by apply triple_ret. }
  specialize (Hm s (conj Hok Ha)). destruct (m s) as [[[]|e|w] s1]; [|done|done].
  destruct Hm as [[Hd Hb] <-]. rewrite /zoom.
  destruct (Z.le_gt_cases (wb_wr_pos (bs_buf s1) + zlen bs) maximum_size).
  - destruct (wb_write_ok block_size maximum_size block_pos max_block bs (bs_buf s1))
      as (b & -> & Hok' & Hc & _); [done..|].
    by rewrite /bs_ok /bs_accepted /= Hc app_assoc.
  - destruct (wb_write_fails block_size maximum_size block_pos bs (bs_buf s1))
      as (r & _ & ->); done.
Qed.

#[export] Instance buffered_sink_spec : SinkSpec (buffered_sink S).
Proof.
  refine {| sink_ok := bs_ok; sink_accepted := bs_accepted |}.
  - exact bs_write_triple.
  - intros a. eapply triple_consequence; [apply (bs_flush_triple a)|done| |done].
    naive_solver.
Defined.
End buffered_sink.

(** ** Theorems *)

(** On a well-formed [write_buffer], [write] either appends the bytes
    (growing the heap block in steps of the block size when needed, never
    writing outside it) or, exactly when the result would exceed the
    maximum size, throws and leaves the contents as they were. *)
Theorem wb_write_functional (block_size maximum_size : Z) (buf : bytes) (s : write_buffer) :
  0 < block_size → maximum_size mod block_size = 0 → wb_ok maximum_size s →
  if wb_size s + zlen buf <=? maximum_size then
    ∃ s', wb_write block_size maximum_size buf s = (Ok tt, s') ∧ wb_ok maximum_size s' ∧
      wb_contents s' = wb_contents s ++ buf
  else
    ∃ s', wb_write block_size maximum_size buf s
            = (Throw (ios_failure "Buffer exceeds maximum size"), s') ∧
      wb_contents s' = wb_contents s.
Proof.
  intros Hb Hm Hok. rewrite /wb_size. destruct (Z.leb_spec (wb_wr_pos s + zlen buf) maximum_size).
  - destruct (wb_write_ok block_size maximum_size Hb Hm buf s) as (s' & ? & ? & ? & _); eauto.
  - destruct (wb_write_fails block_size maximum_size Hb buf s) as (r & _ & ?); eauto.
Qed.

Lemma wb_write_functional_witness :
  ∃ s', wb_write 4 8 (str "hello") new_write_buffer = (Ok tt, s') ∧ wb_ok 8 s' ∧
    wb_contents s' = str "hello".
Proof.
  refine (wb_write_functional 4 8 (str "hello") new_write_buffer _ _ _); [lia|done|].
  rewrite /wb_ok /=. lia.
Defined.

(** A [write] that fails because the buffer would exceed its maximum
    size still records the larger capacity in [m_reserved], so the next
    [write] that fits the recorded but not the allocated capacity copies
    past the end of the heap block. *)
Theorem wb_write_after_failure (block_size maximum_size : Z) (buf buf2 : bytes) (s : write_buffer) (b : block) :
  0 < block_size → wb_ok maximum_size s → wb_data s = Some b →
  maximum_size < wb_size s + zlen buf →
  wb_capacity s < wb_size s + zlen buf2 → zlen buf2 <= zlen buf →
  ∃ s1 s2, wb_write block_size maximum_size buf s
             = (Throw (ios_failure "Buffer exceeds maximum size"), s1) ∧
    wb_write block_size maximum_size buf2 s1 = (UB "write past the end of a heap block", s2).
Proof.
  intros Hb Hok Hd Hbig Hcap Hle. rewrite /wb_size /wb_capacity in Hbig Hcap.
  destruct (wb_write_fails block_size maximum_size Hb buf s) as (r & Hr & Heq); [done..|].
  destruct Hok as (Hp & Hm & Hdata). rewrite Hd in Hdata.
  eexists _, _. split; [exact Heq|]. rewrite /wb_write /lazy_resize.
  rewrite /mbind /M_bind /gets /= (proj2 (Z.ltb_ge _ _)); [lia|].
  rewrite /wb_store /mbind /M_bind /get /= Hd /lift /block_store (proj2 (Z.leb_gt _ _)); [lia|].
  done.
Qed.

Lemma wb_write_after_failure_witness :
  ∃ s s1 s2, wb_write 4 8 (str "hi") new_write_buffer = (Ok tt, s) ∧
    wb_write 4 8 (str "0123456789") s = (Throw (ios_failure "Buffer exceeds maximum size"), s1) ∧
    wb_write 4 8 (str "abc") s1 = (UB "write past the end of a heap block", s2).
Proof.
  eexists.
  destruct (wb_write_after_failure 4 8 (str "0123456789") (str "abc")
    {| wb_data := Some {| b_cap := 4; b_init := str "hi" |}; wb_wr_pos := 2; wb_reserved := 4 |}
    {| b_cap := 4; b_init := str "hi" |}) as (s1 & s2 & H1 & H2);
    try (rewrite /wb_ok /=; lia || done).
  exists s1, s2. split; [reflexivity|]. split; [exact H1|exact H2].
Defined.

(** C22: a [buffered_sink] is a transparent buffer: whatever sequence of
    chunks is written, if nothing throws, the bytes passed to the decorated
    sink followed by the bytes still buffered are the written bytes in
    order, and after a [flush] the decorated sink has received all of
    them. *)
Theorem buffered_sink_transparent (block_size maximum_size : Z) (S : Type) `{SinkSpec S}
    (s s1 s2 : buffered_sink S) (chunks : list bytes) :
  0 < block_size → 0 <= maximum_size → maximum_size mod block_size = 0 →
  bs_ok maximum_size s →
  for_each chunks (bs_write block_size maximum_size) s = (Ok tt, s1) →
  bs_flush s1 = (Ok tt, s2) →
  bs_accepted s1 = bs_accepted s ++ concat chunks ∧
  sink_accepted (bs_decorated s2) = bs_accepted s ++ concat chunks.
Proof.
  intros Hb Hm0 Hm Hok Hw Hf.
  assert (∀ s s1, bs_ok maximum_size s →
    for_each chunks (bs_write block_size maximum_size) s = (Ok tt, s1) →
    bs_ok maximum_size s1 ∧ bs_accepted s1 = bs_accepted s ++ concat chunks) as Hloop.
  { clear s s1 s2 Hok Hw Hf. intros s s1 Hok. revert s s1 Hok. induction chunks as [|c cs IH]; simpl.
    - intros s s1 Hok [= <-]. by rewrite app_nil_r.
    - intros s s1 Hok Hw. inv_bind Hw as u t Hw0.
      pose proof (bs_write_triple block_size maximum_size Hb Hm c (bs_accepted s) s
        (conj Hok eq_refl)) as Hc.
      rewrite Hw0 in Hc. destruct Hc as [Hok' Hc].
      destruct (IH _ _ Hok' Hw) as [? ->]. by rewrite Hc app_assoc. }
  destruct (Hloop _ _ Hok Hw) as [Hok1 Ha1]. split; [done|].
  pose proof (bs_flush_triple maximum_size (bs_accepted s1) s1 (conj Hok1 eq_refl)) as Hfl.
  rewrite Hf in Hfl. destruct Hfl as (_ & Ha2 & Hc & _).
  rewrite -Ha1 -Ha2 /bs_accepted Hc app_nil_r. done.
Qed.

Lemma buffered_sink_transparent_witness :
  ∃ s1 s2,
    for_each [str "ab"; str "cdefgh"; str "xyz"] (bs_write 4 8)
      (new_buffered_sink {| log_chunks := []; log_hint := 0 |}) = (Ok tt, s1) ∧
    bs_flush s1 = (Ok tt, s2) ∧ sink_accepted (bs_decorated s2) = str "abcdefghxyz".
Proof.
  eexists _, _. split; [vm_compute; reflexivity|]. split; [vm_compute; reflexivity|].
  refine (proj2 (buffered_sink_transparent 4 8 log_sink
    (new_buffered_sink {| log_chunks := []; log_hint := 0 |}) _ _
    [str "ab"; str "cdefgh"; str "xyz"] _ _ _ _ _ _)); try lia; try reflexivity.
  split; [exact I|]. apply new_write_buffer_ok. lia.
Defined.
