(* ===== verification/ReadBuffer.v ===== *)
(** * Immutable buffers as sources

    [util::const_buffer] and [util::read_buffer], the source from which
    message contents are deserialized. *)

From S2P Require Import Prelude Streams WriteBuffer.

(** ** [const_buffer]

    [cb_data] is the memory behind the pointer ([None] for NULL); [cb_size]
    is the 32-bit size the owner declared for it. *)
Record const_buffer := {
  cb_size : Z;
  cb_data : option bytes;
  cb_ownership : bool
}.

Definition cb_empty_buffer : const_buffer :=
  {| cb_size := 0; cb_data := None; cb_ownership := false |}.
Definition cb_view (buf_size : Z) (buf : option bytes) : const_buffer :=
  {| cb_size := buf_size; cb_data := buf; cb_ownership := false |}.
Definition cb_owning (buf_size : Z) (buf : option bytes) (ownership : bool) : const_buffer :=
  {| cb_size := buf_size; cb_data := buf; cb_ownership := ownership |}.

(** [swap] and the three [reset] functions. *)
Definition cb_swap (x y : const_buffer) : const_buffer * const_buffer := (y, x).
Definition cb_reset : M const_buffer unit := λ s, (Ok tt, (cb_swap s cb_empty_buffer).1).
Definition cb_reset_view (buf_size : Z) (buf : option bytes) : M const_buffer unit :=
  λ s, (Ok tt, (cb_swap s (cb_view buf_size buf)).1).
Definition cb_reset_owning (buf_size : Z) (buf : option bytes) (own : bool) :
    M const_buffer unit :=
  λ s, (Ok tt, (cb_swap s (cb_owning buf_size buf own)).1).
Definition cb_is_empty (s : const_buffer) : bool := cb_size s =? 0.

Definition cb_take : M const_buffer (Z * option bytes) :=
  s ← get;
  require (cb_ownership s) "ownership()" ;;
  cb_reset ;;
  mret (cb_size s, cb_data s).

(** ** [read_buffer] *)

Record read_buffer := {
  rb_rd_pos : Z;
  rb_buf : const_buffer
}.

Definition rb_set_rd_pos (p : Z) (s : read_buffer) : read_buffer :=
  {| rb_rd_pos := p; rb_buf := rb_buf s |}.
Definition rb_set_buf (b : const_buffer) (s : read_buffer) : read_buffer :=
  {| rb_rd_pos := rb_rd_pos s; rb_buf := b |}.

Definition new_read_buffer (cb : const_buffer) : read_buffer :=
  {| rb_rd_pos := 0; rb_buf := cb |}.

(** A reader of the [size] bytes at [data]. *)
Definition read_buffer_of (data : bytes) : read_buffer :=
  new_read_buffer (cb_view (zlen data) (Some data)).

Definition rb_reset_view (buf_size : Z) (buf : option bytes) : M read_buffer unit :=
  modify (rb_set_rd_pos 0) ;; zoom rb_buf rb_set_buf (cb_reset_view buf_size buf).

Definition rb_available (s : read_buffer) : Z :=
  let bsize := cb_size (rb_buf s) in
  if rb_rd_pos s <? bsize then bsize - rb_rd_pos s else 0.

(** [do_copy(buf_size, buf)] with a destination: the copied bytes are the
    result.  The position is a [uint32_t]. *)
Definition rb_do_copy (buf_size : Z) : M read_buffer bytes :=
  s ← get;
  bs ← match cb_data (rb_buf s) with
       | Some d => if rb_rd_pos s + buf_size <=? zlen d
                   then mret (ztake buf_size (zdrop (rb_rd_pos s) d))
                   else ub "read past the end of a buffer"
       | None => if buf_size =? 0 then mret [] else ub "read through a null pointer"
       end;
  modify (λ s, rb_set_rd_pos (u32 (rb_rd_pos s + u32 buf_size)) s) ;;
  mret bs.

Definition rb_wait_for_data : M read_buffer bool :=
  a ← gets rb_available;
  if 0 <? a then mret true else throw (ios_failure "No more data to read").

Definition rb_read_some (buf_size : Z) : M read_buffer bytes :=
  a ← gets rb_available;
  if 0 <? a then rb_do_copy (Z.min buf_size a) else mret [].

Definition rb_read (buf_size : Z) : M read_buffer bytes :=
  a ← gets rb_available;
  if buf_size <=? a then rb_do_copy buf_size
  else throw (ios_failure "Not enough data to read").

Definition rb_skip (num_bytes : Z) : M read_buffer unit :=
  modify (λ s, rb_set_rd_pos (u32 (rb_rd_pos s + u32 num_bytes)) s).

Definition rb_close : M read_buffer unit := zoom rb_buf rb_set_buf cb_reset.
Definition rb_closed (s : read_buffer) : bool := rb_available s =? 0.

(** [data()]: the memory at the read position. *)
Definition rb_data (s : read_buffer) : option bytes := zdrop (rb_rd_pos s) <$> cb_data (rb_buf s).

#[export] Instance read_buffer_source : Source read_buffer := {
  source_read_some := rb_read_some;
  source_read := rb_read;
  source_has_buffered_data s := 0 <? rb_available s
}.

(** ** The invariant and the promises of a source *)

Definition rb_ok (s : read_buffer) : Prop :=
  0 <= rb_rd_pos s <= cb_size (rb_buf s) ∧ cb_size (rb_buf s) < 2 ^ 32 ∧
  cb_size (rb_buf s) = from_option zlen 0 (cb_data (rb_buf s)).

Definition rb_rest (s : read_buffer) : bytes :=
  from_option (zdrop (rb_rd_pos s)) [] (cb_data (rb_buf s)).

Lemma read_buffer_of_ok data : zlen data < 2 ^ 32 → rb_ok (read_buffer_of data).
Proof. intros. rewrite /rb_ok /=. pose proof (zlen_nonneg data). lia. Qed.

Lemma read_buffer_of_rest data : rb_rest (read_buffer_of data) = data.
Proof. apply zdrop_0. Qed.

Lemma rb_available_rest s : rb_ok s → rb_available s = zlen (rb_rest s).
Proof.
  intros (Hp & Hs & Hd). rewrite /rb_available /rb_rest.
  destruct (cb_data (rb_buf s)) as [d|]; simpl in *.
  - rewrite zlen_zdrop; [lia|]. destruct (Z.ltb_spec (rb_rd_pos s) (cb_size (rb_buf s))); lia.
  - destruct (Z.ltb_spec (rb_rd_pos s) (cb_size (rb_buf s))); rewrite ?zlen_nil; lia.
Qed.

Lemma rb_do_copy_ok n s :
  rb_ok s → 0 <= n <= zlen (rb_rest s) →
  ∃ s', rb_do_copy n s = (Ok (ztake n (rb_rest s)), s') ∧ rb_ok s' ∧
    rb_rest s' = zdrop n (rb_rest s).
Proof.
  intros (Hp & Hs & Hd) Hn. rewrite /rb_rest in Hn |- *.
  rewrite /rb_do_copy /mbind /M_bind /get.
  destruct (cb_data (rb_buf s)) as [d|] eqn:E; simpl in *.
  - rewrite zlen_zdrop in Hn; [lia|].
    rewrite (proj2 (Z.leb_le _ _)); [lia|]. eexists. split; [done|].
    rewrite /rb_ok /= E /=. rewrite /u32 (uwrap_small 32 n) ?uwrap_small; rewrite /fits; [lia..|].
    split; [lia|]. rewrite zdrop_zdrop; [lia|lia|done].
  - rewrite zlen_nil in Hn. assert (n = 0) as -> by lia. eexists. split; [done|].
    rewrite /rb_ok /= E /= /u32 (uwrap_small 32 0) ?uwrap_small; rewrite /fits; [lia..|].
    split; [lia|done].
Qed.

#[export] Instance read_buffer_read_some_spec : ReadSomeSpec read_buffer.
Proof.
  refine {| source_ok := rb_ok; source_rest := rb_rest |}.
  intros n r s Hok <- Hn Hr. simpl. rewrite /rb_read_some.
  erewrite bind_ok; [|done]. rewrite (rb_available_rest s Hok).
  assert (0 < zlen (rb_rest s)).
  { pose proof (zlen_nonneg (rb_rest s)). destruct (decide (zlen (rb_rest s) = 0)); [|lia].
    by destruct Hr; apply zlen_zero_nil. }
  rewrite (proj2 (Z.ltb_lt _ _)); [lia|].
  destruct (rb_do_copy_ok (Z.min n (zlen (rb_rest s))) s) as (s' & -> & Hok' & Hr'); [done|lia|].
  eexists _, s'. split_and!; [done|done|by rewrite Hr' ztake_zdrop|rewrite zlen_ztake; lia..].
Defined.

Lemma rb_read_ok n s :
  rb_ok s → 0 <= n <= zlen (rb_rest s) →
  ∃ s', rb_read n s = (Ok (ztake n (rb_rest s)), s') ∧ rb_ok s' ∧
    rb_rest s' = zdrop n (rb_rest s).
Proof.
  intros Hok Hn. rewrite /rb_read. erewrite bind_ok; [|done].
  rewrite (rb_available_rest s Hok) (proj2 (Z.leb_le _ _)); [lia|].
  by apply rb_do_copy_ok.
Qed.

Lemma rb_read_fails n s :
  rb_ok s → zlen (rb_rest s) < n →
  rb_read n s = (Throw (ios_failure "Not enough data to read"), s).
Proof.
  intros Hok Hn. rewrite /rb_read. erewrite bind_ok; [|done].
  by rewrite (rb_available_rest s Hok) (proj2 (Z.leb_gt _ _)); [lia|].
Qed.

#[export] Instance read_buffer_read_spec : ReadSpec read_buffer.
Proof.
  refine {| source_limit := 2 ^ 64 |}.
  intros n r s Hok <- Hn _. by apply rb_read_ok.
Defined.
