(* ===== verification/BufferedSource.v ===== *)
(** * The read-buffering decorator

    [util::buffered_source]: two write buffers used alternately as the read
    buffer in front of a source that delivers data in arbitrary pieces. *)

From S2P Require Import Prelude Streams WriteBuffer.

(** The pointer [m_data] to the buffer in use. *)
Inductive which := Buf1 | Buf2.

Record buffered_source (R : Type) := {
  src_decorated : R;
  src_rd_pos : Z;
  src_buf1 : write_buffer;
  src_buf2 : write_buffer;
  src_data : which
}.
Arguments Build_buffered_source {R}.
Arguments src_decorated {R}.
Arguments src_rd_pos {R}.
Arguments src_buf1 {R}.
Arguments src_buf2 {R}.
Arguments src_data {R}.

Section buffered_source.
Context (block_size maximum_size : Z) {R : Type} `{Source R}.
Abbreviation bsrc := (buffered_source R).

(** [*m_data] and the other buffer. *)
Definition cur (s : bsrc) : write_buffer :=
  match src_data s with Buf1 => src_buf1 s | Buf2 => src_buf2 s end.
Definition set_cur (b : write_buffer) (s : bsrc) : bsrc :=
  match src_data s with
  | Buf1 => Build_buffered_source (src_decorated s) (src_rd_pos s) b (src_buf2 s) Buf1
  | Buf2 => Build_buffered_source (src_decorated s) (src_rd_pos s) (src_buf1 s) b Buf2
  end.
Definition other (s : bsrc) : write_buffer :=
  match src_data s with Buf1 => src_buf2 s | Buf2 => src_buf1 s end.
Definition set_other (b : write_buffer) (s : bsrc) : bsrc :=
  match src_data s with
  | Buf1 => Build_buffered_source (src_decorated s) (src_rd_pos s) (src_buf1 s) b Buf1
  | Buf2 => Build_buffered_source (src_decorated s) (src_rd_pos s) b (src_buf2 s) Buf2
  end.
Definition set_rd_pos (p : Z) (s : bsrc) : bsrc :=
  Build_buffered_source (src_decorated s) p (src_buf1 s) (src_buf2 s) (src_data s).
Definition flip (s : bsrc) : bsrc :=
  Build_buffered_source (src_decorated s) (src_rd_pos s) (src_buf1 s) (src_buf2 s)
    (match src_data s with Buf1 => Buf2 | Buf2 => Buf1 end).
Definition set_cur_and_source (p : write_buffer * R) (s : bsrc) : bsrc :=
  let s := set_cur p.1 s in
  Build_buffered_source p.2 (src_rd_pos s) (src_buf1 s) (src_buf2 s) (src_data s).

(** Swap buffers if more than half of the buffer is consumed: the unread
    rest is copied to the other one. *)
Definition lazy_swap_buffers : M bsrc unit :=
  s ← get;
  if wb_capacity (cur s) / 2 <? src_rd_pos s then
    zoom other set_other wb_clear ;;
    zoom other set_other
      (wb_write block_size maximum_size (zdrop (src_rd_pos s) (wb_contents (cur s)))) ;;
    modify flip ;;
    modify (set_rd_pos 0)
  else mret tt.

Definition try_reset_buffer : M bsrc unit :=
  s ← get;
  if wb_size (cur s) <=? src_rd_pos s then
    modify (set_rd_pos 0) ;; zoom cur set_cur wb_clear
  else mret tt.

Definition src_do_copy (buf_size : Z) : M bsrc bytes :=
  s ← get;
  require (buf_size + src_rd_pos s <=? wb_size (cur s))
    "(buf_size + m_rd_pos) <= m_data->size()" ;;
  let bs := ztake buf_size (zdrop (src_rd_pos s) (wb_contents (cur s))) in
  modify (set_rd_pos (u32 (src_rd_pos s + buf_size))) ;;
  lazy_swap_buffers ;;
  mret bs.

Definition available : M bsrc Z :=
  try_reset_buffer ;;
  gets (λ s, if wb_size (cur s) <=? src_rd_pos s then 0
             else wb_size (cur s) - src_rd_pos s).

(** [m_data->append_some_from] on the decorated source. *)
Definition fill (n : Z) : M bsrc Z :=
  zoom (λ s, (cur s, src_decorated s)) set_cur_and_source
    (append_some_from block_size maximum_size n).

Definition src_read_some (buf_size : Z) : M bsrc bytes :=
  if buf_size =? 0 then mret []
  else
    a ← available;
    if a =? 0 then
      n ← gets (λ s, wb_remaining (cur s));
      fill n ;;
      a' ← available;
      let rd_size := Z.min a' buf_size in
      if 0 <? rd_size then src_do_copy rd_size else mret []
    else
      a' ← available;
      src_do_copy (Z.min a' buf_size).

(** The loop of [read]: each iteration appends at least one byte or
    throws, so [buf_size] iterations are enough. *)
Fixpoint src_read_loop (fuel : nat) (buf_size : Z) : M bsrc unit :=
  a ← available;
  if a <? buf_size then
    match fuel with
    | O => ub "fuel"
    | S fuel' =>
        rem ← gets (λ s, wb_remaining (cur s));
        let rd_size := if rem <? buf_size then buf_size else rem in
        written ← fill rd_size;
        if written =? 0 then throw (ios_failure "Can't read from sorce")
        else src_read_loop fuel' buf_size
    end
  else mret tt.

Definition src_read (buf_size : Z) : M bsrc bytes :=
  src_read_loop (Z.to_nat buf_size) buf_size ;;
  src_do_copy buf_size.

#[export] Instance buffered_source_source : Source bsrc := {
  source_read_some := src_read_some;
  source_read := src_read;
  source_has_buffered_data s := src_rd_pos s <? wb_size (cur s)
}.

(** The constructor: two blocks are reserved in both buffers. *)
Definition new_buffered_source (underlying_source : R) : outcome bsrc :=
  match wb_reserve block_size maximum_size (2 * block_size) new_write_buffer with
  | (Ok _, b) => Ok (Build_buffered_source underlying_source 0 b b Buf1)
  | (Throw e, _) => Throw e
  | (UB w, _) => UB w
  end.

(** ** Correctness *)

Context `{!ReadSomeSpec R}.
Context (block_pos : 0 < block_size) (max_block : maximum_size mod block_size = 0)
  (max_32 : maximum_size < 2 ^ 32).

Definition buffered (s : bsrc) : bytes := zdrop (src_rd_pos s) (wb_contents (cur s)).

Definition src_ok (s : bsrc) : Prop :=
  source_ok (src_decorated s) ∧
  wb_ok maximum_size (cur s) ∧ wb_ok maximum_size (other s) ∧
  0 <= src_rd_pos s <= wb_wr_pos (cur s) ∧ src_rd_pos s <= wb_reserved (cur s) / 2 ∧
  0 < wb_reserved (cur s) ∧ 0 < wb_reserved (other s).

Definition src_rest (s : bsrc) : bytes := buffered s ++ source_rest (src_decorated s).

(** How the field updates act on the two buffers. *)
Lemma cur_set_cur b s : cur (set_cur b s) = b.
Proof. rewrite /cur /set_cur. by destruct (src_data s). Qed.
Lemma other_set_cur b s : other (set_cur b s) = other s.
Proof. rewrite /other /set_cur. by destruct (src_data s). Qed.
Lemma decorated_set_cur b s : src_decorated (set_cur b s) = src_decorated s.
Proof. rewrite /set_cur. by destruct (src_data s). Qed.
Lemma rd_pos_set_cur b s : src_rd_pos (set_cur b s) = src_rd_pos s.
Proof. rewrite /set_cur. by destruct (src_data s). Qed.
Lemma cur_set_other b s : cur (set_other b s) = cur s.
Proof. rewrite /cur /set_other. by destruct (src_data s). Qed.
Lemma other_set_other b s : other (set_other b s) = b.
Proof. rewrite /other /set_other. by destruct (src_data s). Qed.
Lemma decorated_set_other b s : src_decorated (set_other b s) = src_decorated s.
Proof. rewrite /set_other. by destruct (src_data s). Qed.
Lemma cur_set_rd_pos p s : cur (set_rd_pos p s) = cur s.
Proof. done. Qed.
Lemma other_set_rd_pos p s : other (set_rd_pos p s) = other s.
Proof. done. Qed.
Lemma cur_flip s : cur (flip s) = other s.
Proof. rewrite /cur /other /flip. by destruct (src_data s). Qed.
Lemma other_flip s : other (flip s) = cur s.
Proof. rewrite /cur /other /flip. by destruct (src_data s). Qed.

Lemma cur_set_both p s : cur (set_cur_and_source p s) = p.1.
Proof. rewrite /set_cur_and_source /cur /set_cur. by destruct (src_data s). Qed.
Lemma other_set_both p s : other (set_cur_and_source p s) = other s.
Proof. rewrite /set_cur_and_source /other /set_cur. by destruct (src_data s). Qed.
Lemma rd_pos_set_both p s : src_rd_pos (set_cur_and_source p s) = src_rd_pos s.
Proof. rewrite /set_cur_and_source /set_cur. by destruct (src_data s). Qed.

Hint Rewrite cur_set_both other_set_both rd_pos_set_both cur_set_cur other_set_cur decorated_set_cur rd_pos_set_cur cur_set_other
  other_set_other decorated_set_other cur_set_rd_pos other_set_rd_pos cur_flip other_flip
  : bsrc.
Ltac simp_bsrc := autorewrite with bsrc; cbn [src_decorated src_rd_pos set_rd_pos flip] in *.

Lemma zlen_buffered s : src_ok s → zlen (buffered s) = wb_wr_pos (cur s) - src_rd_pos s.
Proof.
  intros (_ & Hcur & _ & ? & _). pose proof (zlen_wb_contents _ _ Hcur) as Hl.
  rewrite /buffered zlen_zdrop; lia.
Qed.

Lemma half_nonneg b : wb_ok maximum_size b → 0 <= wb_reserved b / 2.
Proof. intros (? & ? & _). apply Z.div_pos; lia. Qed.

(** Counting what is available resets an exhausted buffer and keeps the
    unread bytes. *)
Lemma available_ok s :
  src_ok s →
  ∃ s', available s = (Ok (zlen (buffered s)), s') ∧ src_ok s' ∧
    buffered s' = buffered s ∧ src_decorated s' = src_decorated s ∧
    wb_reserved (cur s') = wb_reserved (cur s) ∧
    (buffered s = [] → wb_wr_pos (cur s') = 0).
Proof.
  intros Hok. pose proof (zlen_buffered s Hok) as Hl.
  destruct Hok as (Hd & Hcur & Hoth & Hp & Hc & Hpc & Hpo).
  rewrite /available /try_reset_buffer /mbind /M_bind /get /gets /wb_size.
  destruct (Z.leb_spec (wb_wr_pos (cur s)) (src_rd_pos s)) as [Hle|Hlt].
  - assert (buffered s = []) as Hb by (apply zlen_zero_nil; lia).
    destruct (wb_clear_ok maximum_size (cur s) Hcur) as [Hok' Hc'].
    pose proof (half_nonneg _ Hcur).
    exists (set_cur (wb_set_wr_pos 0 (cur s)) (set_rd_pos 0 s)).
    rewrite /modify /zoom /wb_clear /modify Hb zlen_nil /src_ok /buffered. simp_bsrc.
    rewrite Hc'. split_and!; done || (simpl; lia).
  - exists s. rewrite /mret /M_ret (proj2 (Z.leb_gt _ _)); [lia|].
    split_and!; try done; [by rewrite Hl|]. intros Hb. rewrite Hb zlen_nil in Hl. lia.
Qed.

(** Copying out of the buffer, with the lazy swap behind it. *)
Lemma src_do_copy_ok n s :
  src_ok s → 0 <= n <= zlen (buffered s) →
  ∃ s', src_do_copy n s = (Ok (ztake n (buffered s)), s') ∧ src_ok s' ∧
    buffered s' = zdrop n (buffered s) ∧ src_decorated s' = src_decorated s.
Proof.
  intros Hok Hn. pose proof (zlen_buffered s Hok) as Hl.
  destruct Hok as (Hd & Hcur & Hoth & Hp & Hc & Hpc & Hpo).
  assert (wb_wr_pos (cur s) <= maximum_size) by (destruct Hcur; lia).
  rewrite /src_do_copy. erewrite bind_ok; [|done].
  rewrite (proj2 (Z.leb_le (_ + _) _)); [rewrite /wb_size; lia|].
  erewrite bind_ok; [|done]. erewrite bind_ok; [|done].
  rewrite /u32 uwrap_small; [rewrite /fits; lia|].
  set (s1 := set_rd_pos (src_rd_pos s + n) s).
  assert (zdrop (src_rd_pos s1) (wb_contents (cur s1)) = zdrop n (buffered s)) as Hrest.
  { rewrite /buffered zdrop_zdrop; [lia|lia|done]. }
  assert (zlen (zdrop n (buffered s)) = zlen (buffered s) - n) as Hz
    by (apply zlen_zdrop; lia).
  rewrite /lazy_swap_buffers /mbind /M_bind /get. rewrite Hrest.
  destruct (Z.ltb_spec (wb_capacity (cur s1) / 2) (src_rd_pos s1)) as [Hsw|Hns].
  - rewrite /zoom /wb_clear {1}/modify. simp_bsrc.
    destruct (wb_clear_ok maximum_size (other s) Hoth) as [Hok0 Hc0].
    destruct (wb_write_ok block_size maximum_size block_pos max_block
      (zdrop n (buffered s)) (wb_set_wr_pos 0 (other s)))
      as (b & Hw & Hokb & Hcb & Hrb); [done|simpl; lia|]. simpl in Hrb.
    rewrite Hc0 app_nil_l in Hcb. rewrite ?other_set_other Hw. eexists. split; [done|].
    pose proof (half_nonneg _ Hokb).
    rewrite /src_ok /buffered. simp_bsrc. rewrite Hcb.
    assert (0 <= wb_wr_pos b) by (destruct Hokb; lia). split_and!; try done; try (simpl; lia);
      by rewrite !decorated_set_other.
  - eexists. split; [done|]. rewrite /src_ok. split_and!; try done.
    + simpl. lia.
    + rewrite /wb_capacity in Hns. change (cur s1) with (cur s) in *. simpl in *. lia.
Qed.

(** Refilling appends the next piece of the stream to the buffer. *)
Lemma fill_ok n s :
  src_ok s → 0 < n → source_rest (src_decorated s) ≠ [] →
  wb_wr_pos (cur s) + n <= maximum_size →
  ∃ bs s', fill n s = (Ok (zlen bs), s') ∧ src_ok s' ∧ 0 < zlen bs ∧
    buffered s' = buffered s ++ bs ∧
    source_rest (src_decorated s) = bs ++ source_rest (src_decorated s').
Proof.
  intros Hok Hn Hne Hfit. pose proof (zlen_buffered s Hok) as Hl.
  destruct Hok as (Hd & Hcur & Hoth & Hp & Hc & Hpc & Hpo).
  destruct (source_read_some_spec n _ (src_decorated s) Hd eq_refl Hn Hne)
    as (bs & d & Hrs & Hd' & Hrest & Hlen).
  destruct (append_some_from_ok block_size maximum_size block_pos max_block n (cur s) (src_decorated s) d bs)
    as (b2 & Ha & Hok2 & Hc2 & Hr2 & _); [done|lia|done|done|lia|].
  exists bs. eexists. split; [by rewrite /fill /zoom Ha|].
  pose proof (zlen_wb_contents _ _ Hcur) as Hlc.
  assert (wb_reserved (cur s) / 2 <= wb_reserved b2 / 2) by (apply Z.div_le_mono; lia).
  rewrite /src_ok /buffered. simp_bsrc. cbn [fst].
  rewrite Hc2 zdrop_app_le; [lia|].
  assert (wb_wr_pos b2 = wb_wr_pos (cur s) + zlen bs) as Hp2.
  { by rewrite -(zlen_wb_contents _ _ Hok2) Hc2 zlen_app Hlc. }
  split_and!; try done; simpl; lia.
Qed.

Definition too_large : exn := ios_failure "Buffer exceeds maximum size".

(** A piece that does not fit behind the used part is refused. *)
Lemma fill_fails n s :
  wb_remaining (cur s) < n → maximum_size < wb_wr_pos (cur s) + n → ∃ s', fill n s = (Throw too_large, s').
Proof.
  intros Hr Hn. rewrite /wb_remaining in Hr.
  destruct (lazy_resize_fails block_size maximum_size block_pos (wb_wr_pos (cur s) + n) (cur s)) as (r & _ & E); [lia..|].
  rewrite /fill /append_some_from /zoom /mbind /M_bind /gets /wb_size. cbn. rewrite E. by eexists.
Qed.

(** The loop of [read]: with [n] bytes still to come it terminates, either
    with at least [n] bytes in the buffer or, for a large [n], with the
    exception. *)
Lemma src_read_loop_ok fuel n s :
  src_ok s → 0 <= n <= zlen (src_rest s) → n <= zlen (buffered s) + Z.of_nat fuel →
  (∃ s', src_read_loop fuel n s = (Ok tt, s') ∧ src_ok s' ∧ src_rest s' = src_rest s ∧ n <= zlen (buffered s')) ∨
  (maximum_size / 4 < n ∧ ∃ s', src_read_loop fuel n s = (Throw too_large, s')).
Proof.
  intros Hok Hn. revert s Hok Hn. induction fuel as [|fuel IH]; intros s Hok Hn Hf;
    destruct (available_ok s Hok) as (s1 & Ha & Hok1 & Hb1 & Hd1 & Hr1 & Hz1);
    simpl; step_ok Ha.
  { left. rewrite (proj2 (Z.ltb_ge _ _)); [lia|]. exists s1.
    by rewrite /src_rest Hb1 Hd1; split_and!; [..|lia]. }
  destruct (Z.ltb_spec (zlen (buffered s)) n) as [Hlt|Hge].
  2: { left. exists s1. by rewrite /src_rest Hb1 Hd1; split_and!; [..|lia]. }
  erewrite bind_ok; [|done]. cbn beta.
  set (rd := if _ <? n then n else _).
  pose proof (zlen_buffered s1 Hok1) as Hl1. rewrite Hb1 in Hl1.
  assert (wb_ok maximum_size (cur s1)) as (Hp & Hm & _) by apply Hok1.
  assert (src_rd_pos s1 <= wb_reserved (cur s1) / 2) by apply Hok1.
  pose proof (zlen_nonneg (buffered s)).
  assert (wb_reserved (cur s1) / 2 <= maximum_size / 2) by (apply Z.div_le_mono; lia).
  assert (0 < rd ∧ (wb_wr_pos (cur s1) + rd <= maximum_size ∨
    maximum_size / 4 < n ∧ wb_remaining (cur s1) < rd ∧ maximum_size < wb_wr_pos (cur s1) + rd)) as [Hrd Hfit].
  { subst rd. rewrite /wb_remaining. destruct (Z.ltb_spec (wb_reserved (cur s1) - wb_wr_pos (cur s1)) n);
      [|lia]. pose proof (Z.mul_div_le maximum_size 2). pose proof (Z.mul_div_le maximum_size 4). lia. }
  destruct Hfit as [Hfit|(Hbig & Hf1 & Hf2)].
  2: { right. split; [done|]. destruct (fill_fails rd s1 Hf1 Hf2) as [s2 E]. exists s2.
       by rewrite /mbind /M_bind E. }
  destruct (fill_ok rd s1) as (bs & s2 & Hfill & Hok2 & Hbs & Hb2 & Hrest2); [done..| |done|].
  { rewrite Hd1. intros He. rewrite /src_rest He app_nil_r in Hn. lia. }
  step_ok Hfill. rewrite (proj2 (Z.eqb_neq _ 0)); [lia|].
  assert (src_rest s2 = src_rest s) as Hsame.
  { rewrite /src_rest Hb2 Hb1 -app_assoc -Hrest2 Hd1. done. }
  destruct (IH s2) as [(s3 & Hl & Hok3 & Hr3 & Hn3)|IH2]; [done|by rewrite Hsame|..|by right].
  { rewrite Hb2 Hb1 zlen_app. lia. }
  left. exists s3. by rewrite Hl Hr3 Hsame.
Qed.

(** [read] delivers exactly the next [n] bytes, or refuses; it refuses
    nothing up to a quarter of the maximum and everything above it. *)
Lemma src_read_outcome n s :
  src_ok s → 0 <= n <= zlen (src_rest s) →
  (n <= maximum_size ∧ ∃ s', src_read n s = (Ok (ztake n (src_rest s)), s') ∧ src_ok s' ∧ src_rest s' = zdrop n (src_rest s)) ∨
  (maximum_size / 4 < n ∧ ∃ s', src_read n s = (Throw too_large, s')).
Proof.
  intros Hok Hn. pose proof (zlen_nonneg (buffered s)).
  destruct (src_read_loop_ok (Z.to_nat n) n s) as [(s1 & Hl & Hok1 & Hr1 & Hn1)|(Hbig & s1 & E)]; [done|done|lia|..].
  - left. pose proof (zlen_buffered s1 Hok1) as Hlb.
    assert (n <= maximum_size) by (destruct Hok1 as (_ & (Hx1 & Hx2 & _) & _ & Hx3 & _); lia). split; [done|].
    destruct (src_do_copy_ok n s1) as (s2 & Hc & Hok2 & Hb2 & Hd2); [done|lia|].
    exists s2. rewrite /src_read. step_ok Hl. rewrite Hc -Hr1 /src_rest Hb2 Hd2.
    rewrite ztake_app_le; [lia|]. rewrite zdrop_app_le; [lia|]. done.
  - right. split; [done|]. exists s1. by rewrite /src_read /mbind /M_bind E.
Qed.

Lemma src_read_ok n s :
  src_ok s → 0 <= n <= zlen (src_rest s) → n <= maximum_size / 4 →
  ∃ s', src_read n s = (Ok (ztake n (src_rest s)), s') ∧ src_ok s' ∧
    src_rest s' = zdrop n (src_rest s).
Proof. intros Hok Hn Hmax. by destruct (src_read_outcome n s Hok Hn) as [[_ Hr]|[Hbig _]]; [|lia]. Qed.

Lemma src_read_some_ok n s :
  src_ok s → 0 < n → src_rest s ≠ [] →
  ∃ bs s', src_read_some n s = (Ok bs, s') ∧ src_ok s' ∧
    src_rest s = bs ++ src_rest s' ∧ 0 < zlen bs <= n.
Proof.
  intros Hok Hn Hne. rewrite /src_read_some (proj2 (Z.eqb_neq n 0)); [lia|].
  destruct (available_ok s Hok) as (s1 & Ha & Hok1 & Hb1 & Hd1 & Hr1 & Hz1). step_ok Ha.
  assert (∀ s2, src_ok s2 → src_rest s2 = src_rest s → 0 < zlen (buffered s2) →
    ∃ bs s', src_do_copy (Z.min (zlen (buffered s2)) n) s2 = (Ok bs, s') ∧ src_ok s' ∧
      src_rest s = bs ++ src_rest s' ∧ 0 < zlen bs <= n) as Hcopy.
  { intros s2 Hok2 Hr2 Hb2.
    destruct (src_do_copy_ok (Z.min (zlen (buffered s2)) n) s2)
      as (s3 & Hc & Hok3 & Hb3 & Hd3); [done|lia|].
    eexists _, s3. split; [exact Hc|]. split; [done|]. split.
    - rewrite -Hr2 /src_rest Hb3 Hd3 app_assoc ztake_zdrop. done.
    - rewrite zlen_ztake; lia. }
  destruct (Z.eqb_spec (zlen (buffered s)) 0) as [H0|H0].
  - apply zlen_zero_nil in H0. specialize (Hz1 H0).
    erewrite bind_ok; [|done]. cbn beta.
    assert (wb_ok maximum_size (cur s1)) as (Hp & Hm & _) by apply Hok1.
    assert (0 < wb_reserved (cur s1)) by apply Hok1.
    destruct (fill_ok (wb_remaining (cur s1)) s1)
      as (bs & s2 & Hf & Hok2 & Hbs & Hb2 & Hrest2); [done|rewrite /wb_remaining; lia|
        |rewrite /wb_remaining; lia|].
    { rewrite Hd1. intros He. rewrite /src_rest H0 He in Hne. done. }
    step_ok Hf.
    destruct (available_ok s2 Hok2) as (s3 & Ha3 & Hok3 & Hb3 & Hd3 & _). step_ok Ha3.
    rewrite Hb1 H0 in Hb2. cbn beta zeta. rewrite -Hb3.
    rewrite (proj2 (Z.ltb_lt 0 _)); [rewrite Hb3 Hb2 zlen_app zlen_nil; lia|].
    apply Hcopy; [done| |rewrite Hb3 Hb2 zlen_app zlen_nil; lia].
    rewrite /src_rest Hb3 Hd3 Hb2 H0 -Hd1 Hrest2. done.
  - destruct (available_ok s1 Hok1) as (s2 & Ha2 & Hok2 & Hb2 & Hd2 & _). step_ok Ha2.
    rewrite -Hb2. pose proof (zlen_nonneg (buffered s)).
    apply Hcopy; [done|by rewrite /src_rest Hb2 Hb1 Hd2 Hd1|rewrite Hb2 Hb1; lia].
Qed.

#[export] Instance buffered_source_read_some_spec : ReadSomeSpec bsrc.
Proof.
  refine {| source_ok := src_ok; source_rest := src_rest |}.
  intros n r s Hok <- Hn Hne. by apply src_read_some_ok.
Defined.

#[export] Instance buffered_source_read_spec : ReadSpec bsrc.
Proof.
  refine {| source_limit := maximum_size / 4 |}.
  intros n r s Hok <- Hn Hl. by apply src_read_ok.
Defined.
End buffered_source.

Lemma new_buffered_source_ok (block_size maximum_size : Z) {R} `{ReadSomeSpec R} (d : R) :
  0 < block_size → maximum_size mod block_size = 0 → 2 * block_size <= maximum_size →
  source_ok d →
  ∃ s, new_buffered_source block_size maximum_size d = Ok s ∧
    src_ok maximum_size s ∧ src_rest s = source_rest d.
Proof.
  intros Hb Hm H2 Hd. rewrite /new_buffered_source /wb_reserve.
  erewrite bind_ok; [|done]. simpl. rewrite (proj2 (Z.ltb_lt 0 _)); [lia|].
  destruct (lazy_resize_ok block_size maximum_size Hb Hm (2 * block_size) new_write_buffer)
    as (b & -> & Hok & Hc & Hp & Hr & _); [apply new_write_buffer_ok; lia|lia|].
  eexists. split; [done|]. pose proof (half_nonneg _ _ Hok). rewrite /src_ok /src_rest /buffered /cur /other /=.
  rewrite Hc. simpl in Hp. rewrite Hp. split_and!; done || lia.
Qed.

(** Reads of the given sizes, one after the other. *)
Fixpoint read_each (block_size maximum_size : Z) {R} `{Source R} (ns : list Z) :
    M (buffered_source R) (list bytes) :=
  match ns with
  | [] => mret []
  | n :: ns' =>
      bs ← src_read block_size maximum_size n;
      bss ← read_each block_size maximum_size ns';
      mret (bs :: bss)
  end.

Definition total (ns : list Z) : Z := foldr Z.add 0 ns.

Lemma total_nonneg ns : Forall (Z.le 0) ns → 0 <= total ns.
Proof. induction 1; simpl; lia. Qed.

(** C21: a [buffered_source] over a source that delivers its stream in
    arbitrary pieces is asked for any sequence of [read] sizes the stream has
    the bytes for.  Either every [read] terminates with exactly the requested
    number of bytes, and they are consecutive slices of the stream, none lost,
    duplicated or reordered by the double buffering; or a [read] throws that
    the buffer exceeds its maximum size.  It throws only if some size is above
    a quarter of the maximum, and always if some size is above the maximum. *)
Theorem buffered_source_reads_stream (block_size maximum_size : Z) {R} `{ReadSomeSpec R}
    (d : R) (s : buffered_source R) (ns : list Z) :
  0 < block_size → maximum_size mod block_size = 0 → 2 * block_size <= maximum_size →
  maximum_size < 2 ^ 32 → source_ok d →
  new_buffered_source block_size maximum_size d = Ok s →
  Forall (Z.le 0) ns → total ns <= zlen (source_rest d) →
  (Forall (λ n, n <= maximum_size) ns ∧ ∃ bss s', read_each block_size maximum_size ns s = (Ok bss, s') ∧
    zlen <$> bss = ns ∧ concat bss = ztake (total ns) (source_rest d)) ∨
  (Exists (λ n, maximum_size / 4 < n) ns ∧ ∃ s', read_each block_size maximum_size ns s = (Throw too_large, s')).
Proof.
  intros Hb Hm H2 H32 Hd Hnew Hns Hsum.
  destruct (new_buffered_source_ok block_size maximum_size d) as (s0 & Hs0 & Hok & Hrest);
    [done..|]. rewrite Hnew in Hs0. injection Hs0 as <-. clear Hnew. rewrite -Hrest in Hsum |- *.
  clear d Hd Hrest. revert s Hok Hsum.
  induction Hns as [|n ns Hn Hns IH]; intros s Hok Hsum; simpl in *.
  { left. split; [constructor|]. exists [], s. by rewrite ztake_0. }
  pose proof (total_nonneg _ Hns).
  destruct (src_read_outcome block_size maximum_size Hb Hm H32 n s) as [(Hmax & s1 & Hr & Hok1 & Hrest)|(Hbig & s1 & E)];
    [done|lia| |right; split; [by constructor|exists s1; by rewrite /mbind /M_bind E]].
  destruct (IH s1) as [(Hall & bss & s2 & Hrs & Hl & Hc)|(Hex & s2 & E)]; [done|rewrite Hrest zlen_zdrop; lia|..].
  2: { right. split; [by apply Exists_cons_tl|]. exists s2. step_ok Hr. by rewrite /mbind /M_bind E. }
  left. split; [by constructor|]. eexists _, s2. split_and!.
  - step_ok Hr. step_ok Hrs. done.
  - rewrite fmap_cons Hl zlen_ztake //. lia.
  - rewrite /= Hc Hrest. rewrite -(ztake_zdrop n (ztake (n + total ns) _)).
    rewrite /ztake /zdrop take_take skipn_firstn_comm. f_equal; f_equal; lia.
Qed.

Lemma buffered_source_reads_stream_witness :
  ∃ s bss s', new_buffered_source 8 64 [str "abc"; str "d"; str "efghijklmnopq"] = Ok s ∧
    read_each 8 64 [2; 5; 8] s = (Ok bss, s') ∧ concat bss = str "abcdefghijklmno".
Proof.
  eexists. destruct (buffered_source_reads_stream 8 64
    [str "abc"; str "d"; str "efghijklmnopq"]
    (Build_buffered_source [str "abc"; str "d"; str "efghijklmnopq"] 0
       {| wb_data := Some {| b_cap := 16; b_init := [] |}; wb_wr_pos := 0; wb_reserved := 16 |}
       {| wb_data := Some {| b_cap := 16; b_init := [] |}; wb_wr_pos := 0; wb_reserved := 16 |}
       Buf1) [2; 5; 8])
    as [(_ & bss & s' & Hr & _ & Hc)|(Hex & _)]; try lia; try reflexivity.
  - apply (bool_decide_unpack _). vm_compute. exact I.
  - repeat constructor; vm_compute; discriminate.
  - vm_compute; discriminate.
  - exists bss, s'. split; [vm_compute; reflexivity|]. split; [exact Hr|exact Hc].
  - exfalso. change (64 / 4) with 16 in Hex. repeat (apply Exists_cons in Hex as [Hex|Hex]; [lia|]).
    by apply Exists_nil in Hex.
Defined.
