(* ===== verification/Serialization.v ===== *)
(** * Serialization

    The operators [<<] and [>>] of [util/serialization.hpp] and
    [serialization.cpp] over an arbitrary sink and source, the per-thread
    cache of parsed URIs, and the round-trip theorems.  A pair of operators
    for one C++ type is a [codec]; [CodecSpec] states what it promises. *)

From S2P Require Import Prelude Uri Streams WriteBuffer ReadBuffer.

(** ** Data *)

(** [multicast_packet]: source, size and the owned data pointer. *)
Record multicast_packet := {
  mp_from : uri;
  mp_size : Z;
  mp_data : option bytes
}.

Definition empty_packet : multicast_packet :=
  {| mp_from := uri_default; mp_size := 0; mp_data := None |}.

Record interface_property := {
  ip_id : Z;
  ip_name : bytes;
  ip_address : bytes;
  ip_technology : bytes
}.

(** The state of a deserializing thread: the source and [m_uri_cache]. *)
Record dstate (R : Type) := {
  d_src : R;
  d_cache : gmap bytes uri
}.
Arguments d_src {R}.
Arguments d_cache {R}.
Arguments Build_dstate {R}.

Definition d_set_src {R : Type} (r : R) (s : dstate R) : dstate R := Build_dstate r (d_cache s).
Definition d_set_cache {R : Type} (c : gmap bytes uri) (s : dstate R) : dstate R :=
  Build_dstate (d_src s) c.

(** ** The URI cache *)

Definition max_cache_size : nat := 50.

(** [uri_lookup(uri_str, storage)]. *)
Definition uri_lookup (uri_str : bytes) : M (gmap bytes uri) uri :=
  cache ← get;
  match cache !! uri_str with
  | Some u => mret u
  | None =>
      let storage := uri_of uri_str in
      (if (max_cache_size <=? size cache)%nat then put ∅ else mret tt) ;;
      modify (λ c, match c !! uri_str with Some _ => c | None => <[uri_str := storage]> c end) ;;
      mret storage
  end.

(** ** Codecs *)

Record codec (A : Type) := {
  c_ser : ∀ {S} `{Sink S}, A → M S unit;
  c_des : ∀ {R : Type} `{Source R}, M (dstate R) A
}.
Arguments c_ser {A} c {S _}.
Arguments c_des {A} c {R _}.

(** [d.read(size, buf)]. *)
Definition d_read {R : Type} `{Source R} (n : Z) : M (dstate R) bytes :=
  zoom d_src d_set_src (source_read n).

(** Integers are written as their object representation of [n] bytes. *)
Definition c_int (n : nat) : codec Z := {|
  c_ser S _ v := sink_write (le_bytes n v);
  c_des R _ := bs ← d_read (Z.of_nat n); mret (le_value bs)
|}.

Definition c_u8 : codec Z := c_int 1.
Definition c_u16 : codec Z := c_int 2.
Definition c_u32 : codec Z := c_int 4.

Definition c_bool : codec bool := {|
  c_ser S _ b := c_ser c_u8 (if b then 1 else 0);
  c_des R _ := tmp ← c_des c_u8; mret (negb (tmp =? 0))
|}.

Definition c_unit : codec unit := {|
  c_ser S _ _ := mret tt;
  c_des R _ := mret tt
|}.

(** The C string at the start of a buffer: up to the first NUL. *)
Fixpoint c_str (bs : bytes) : bytes :=
  match bs with
  | [] => []
  | c :: bs' => if bool_decide (c = NUL) then [] else c :: c_str bs'
  end.

(** The loop of [operator>>(deserializer&, std::string&)]: 128 bytes at a
    time into [chunk], terminated with NUL and appended as a C string. *)
Fixpoint read_string {R : Type} `{Source R} (fuel : nat) (str_size : Z) (storage : bytes) :
    M (dstate R) bytes :=
  if 0 <? str_size then
    match fuel with
    | O => ub "fuel"
    | S fuel' =>
        let rd_size := Z.min 128 str_size in
        chunk ← d_read rd_size;
        read_string fuel' (str_size - rd_size) (storage ++ c_str chunk)
    end
  else mret storage.

Definition c_string : codec bytes := {|
  c_ser S _ what := c_ser c_u32 (u32 (zlen what)) ;; sink_write what;
  c_des R _ := n ← c_des c_u32; read_string (S (Z.to_nat (n / 128))) n []
|}.

Definition c_uri : codec uri := {|
  c_ser S _ what := c_ser c_string (uri_str what);
  c_des R _ := s ← c_des c_string; zoom d_cache d_set_cache (uri_lookup s)
|}.

(** [s.write(size, data)] reads [size] bytes behind [data]. *)
Definition write_mem {S} `{Sink S} (size : Z) (data : option bytes) : M S unit :=
  match data with
  | Some d => if size <=? zlen d then sink_write (ztake size d)
              else ub "write from beyond the end of a buffer"
  | None => if size =? 0 then sink_write [] else ub "write from a null pointer"
  end.

Definition c_packet : codec multicast_packet := {|
  c_ser S _ mp :=
    c_ser c_uri (mp_from mp) ;; c_ser c_u32 (mp_size mp) ;;
    if 0 <? mp_size mp then write_mem (mp_size mp) (mp_data mp) else mret tt;
  c_des R _ :=
    from ← c_des c_uri; n ← c_des c_u32;
    data ← (if 0 <? n then bs ← d_read n; mret (Some bs) else mret None);
    mret {| mp_from := from; mp_size := n; mp_data := data |}
|}.

Definition c_pair {A B} (ca : codec A) (cb : codec B) : codec (A * B) := {|
  c_ser S _ p := c_ser ca p.1 ;; c_ser cb p.2;
  c_des R _ := a ← c_des ca; b ← c_des cb; mret (a, b)
|}.

Definition c_interface_property : codec interface_property := {|
  c_ser S _ ip :=
    c_ser c_u32 (ip_id ip) ;; c_ser c_string (ip_name ip) ;;
    c_ser c_string (ip_address ip) ;; c_ser c_string (ip_technology ip);
  c_des R _ :=
    i ← c_des c_u32; n ← c_des c_string; a ← c_des c_string; t ← c_des c_string;
    mret {| ip_id := i; ip_name := n; ip_address := a; ip_technology := t |}
|}.

(** [deserialize_container] for [std::vector] and [std::list]. *)
Fixpoint read_elements {A R : Type} `{Source R} (c : codec A) (num : nat) : M (dstate R) (list A) :=
  match num with
  | O => mret []
  | S num' => x ← c_des c; l ← read_elements c num'; mret (x :: l)
  end.

Definition c_vector {A} (c : codec A) : codec (list A) := {|
  c_ser S _ what := c_ser c_u32 (u32 (zlen what)) ;; for_each what (c_ser c);
  c_des R _ := n ← c_des c_u32; read_elements c (Z.to_nat n)
|}.

(** ** Specification of a codec

    [enc x] is the byte string a value stands for; [rep x] says that the
    value survives the trip.  Every cache entry is the parse of its key and
    the cache stays within its bound. *)

Definition cache_ok (c : gmap bytes uri) : Prop :=
  (∀ k u, c !! k = Some u → u = uri_of k) ∧ (size c <= max_cache_size)%nat.

(** [m] is a sequence of writes to the sink that spell [e]. *)
Definition emits {S : Type} `{Sink S} (m : M S unit) (e : bytes) : Prop :=
  ∃ chunks, concat chunks = e ∧ ∀ s, m s = for_each chunks sink_write s.

Definition d_ok {R : Type} `{ReadSpec R} (s : dstate R) : Prop :=
  source_ok (d_src s) ∧ cache_ok (d_cache s).

(** [m] returns [x] whenever the stream starts with [e], and consumes
    exactly [e]. *)
Definition parses {R A : Type} `{ReadSpec R} (m : M (dstate R) A) (x : A) (e : bytes) : Prop :=
  ∀ rest s, d_ok s → source_rest (d_src s) = e ++ rest → zlen e <= source_limit →
  ∃ s', m s = (Ok x, s') ∧ d_ok s' ∧ source_rest (d_src s') = rest.

Class CodecSpec {A} (c : codec A) (enc : A → bytes) (rep : A → Prop) : Prop := {
  ser_spec S `{Sink S} x : rep x → emits (S:=S) (c_ser c x) (enc x);
  des_spec R `{ReadSpec R} x : rep x → parses (c_des c (R:=R)) x (enc x)
}.

(** The reference encodings. *)
Definition enc_string (s : bytes) : bytes := le_bytes 4 (zlen s) ++ s.
Definition enc_uri (u : uri) : bytes := enc_string (uri_str u).
Definition enc_packet (mp : multicast_packet) : bytes :=
  enc_uri (mp_from mp) ++ le_bytes 4 (mp_size mp) ++ default [] (mp_data mp).
Definition enc_interface_property (ip : interface_property) : bytes :=
  le_bytes 4 (ip_id ip) ++ enc_string (ip_name ip) ++ enc_string (ip_address ip)
  ++ enc_string (ip_technology ip).
Definition enc_vector {A} (enc : A → bytes) (l : list A) : bytes :=
  le_bytes 4 (zlen l) ++ concat (enc <$> l).

Definition rep_string (s : bytes) : Prop := NUL ∉ s ∧ zlen s < 2 ^ 32.
Definition rep_uri (u : uri) : Prop := uri_of (uri_str u) = u ∧ rep_string (uri_str u).
Definition rep_packet (mp : multicast_packet) : Prop :=
  rep_uri (mp_from mp) ∧ 0 <= mp_size mp < 2 ^ 32 ∧
  mp_data mp = (if 0 <? mp_size mp then mp_data mp else None) ∧
  zlen (default [] (mp_data mp)) = mp_size mp.
Definition rep_interface_property (ip : interface_property) : Prop :=
  0 <= ip_id ip < 2 ^ 32 ∧ rep_string (ip_name ip) ∧ rep_string (ip_address ip) ∧
  rep_string (ip_technology ip).

(** ** The cache is transparent *)

Lemma uri_lookup_ok s c :
  cache_ok c → ∃ c', uri_lookup s c = (Ok (uri_of s), c') ∧ cache_ok c' ∧ c' !! s = Some (uri_of s).
Proof.
  intros [Hc Hs]. rewrite /uri_lookup /mbind /M_bind /get.
  destruct (c !! s) as [u|] eqn:E.
  - rewrite (Hc s u E). exists c. split_and!; [done|done|by rewrite E (Hc s u E)].
  - destruct (Nat.leb_spec max_cache_size (size c)) as [Hfull|Hroom].
    + rewrite /put /modify lookup_empty. eexists. split; [done|]. split; [|by simplify_map_eq].
      split.
      * intros k u. rewrite lookup_insert. case_decide; naive_solver.
      * rewrite map_size_insert_None; [done|]. rewrite map_size_empty. rewrite /max_cache_size. lia.
    + rewrite /mret /M_ret /modify E. eexists. split; [done|]. split; [|by simplify_map_eq].
      split.
      * intros k u. rewrite lookup_insert. case_decide; naive_solver.
      * rewrite map_size_insert_None; [done|]. lia.
Qed.

(** ** Composing writers and readers *)

Section writing.
Context {S : Type} `{Sink S}.

Lemma emits_write bs : emits (sink_write bs) bs.
Proof.
  exists [bs]. split; [apply app_nil_r|]. intros s. simpl. rewrite /mbind /M_bind.
  by destruct (sink_write bs s) as [[[]|e|w] s'].
Qed.

Lemma emits_nil : emits (mret tt : M S unit) [].
Proof. by exists []. Qed.

Lemma emits_seq (m1 m2 : M S unit) e1 e2 :
  emits m1 e1 → emits m2 e2 → emits (m1 ;; m2) (e1 ++ e2).
Proof.
  intros (c1 & <- & H1) (c2 & <- & H2). exists (c1 ++ c2). split; [apply concat_app|].
  intros s. rewrite for_each_app /mbind /M_bind H1.
  by destruct (for_each c1 sink_write s) as [[[]|e|w] s'].
Qed.

Lemma emits_for_each {A} (l : list A) (body : A → M S unit) (enc : A → bytes) :
  (∀ x, x ∈ l → emits (body x) (enc x)) → emits (for_each l body) (concat (enc <$> l)).
Proof.
  induction l as [|x l IH]; intros Hb; simpl; [apply emits_nil|].
  apply emits_seq; [apply Hb; by left|]. apply IH. intros y Hy. apply Hb. by right.
Qed.

(** On a lawful sink such a function appends [e] to the stream, or throws. *)
Lemma emits_triple `{!SinkSpec S} (m : M S unit) e a :
  emits m e →
  triple (λ s, sink_ok s ∧ sink_accepted s = a) m
    (λ _ s, sink_ok s ∧ sink_accepted s = a ++ e) (λ _ _, True).
Proof.
  intros (cs & <- & Hm) s Hs. rewrite Hm. clear Hm m. revert a s Hs.
  induction cs as [|c cs IH]; intros a s Hs; simpl.
  - by rewrite app_nil_r.
  - pose proof (sink_write_spec c a s Hs) as Hw. rewrite /mbind /M_bind.
    destruct (sink_write c s) as [[[]|e|w] s']; [|done|done]. rewrite app_assoc. by apply IH.
Qed.
End writing.

Section reading.
Context {R : Type} `{ReadSpec R}.

Lemma parses_ret {A} (x : A) : parses (mret x : M (dstate R) A) x [].
Proof. intros rest s Hok Hr _. by exists s. Qed.

Lemma parses_read bs : parses (d_read (zlen bs) : M (dstate R) bytes) bs bs.
Proof.
  intros rest s [Hok Hc] Hr Hl. rewrite /d_read /zoom. pose proof (zlen_nonneg bs).
  destruct (source_read_spec (zlen bs) _ (d_src s) Hok Hr) as (r' & -> & Hok' & Hr').
  { rewrite zlen_app. pose proof (zlen_nonneg rest). lia. }
  { done. }
  rewrite ztake_app. rewrite zdrop_app in Hr'. by exists (d_set_src r' s).
Qed.

Lemma parses_bind {A B} (m : M (dstate R) A) (k : A → M (dstate R) B) x y e1 e2 :
  parses m x e1 → parses (k x) y e2 → parses (m ≫= k) y (e1 ++ e2).
Proof.
  intros Hm Hk rest s Hok Hr Hl. rewrite zlen_app in Hl.
  pose proof (zlen_nonneg e1). pose proof (zlen_nonneg e2). rewrite -app_assoc in Hr.
  destruct (Hm _ s Hok Hr) as (s1 & Hs1 & Hok1 & Hr1); [lia|].
  destruct (Hk _ s1 Hok1 Hr1) as (s2 & Hs2 & Hok2 & Hr2); [lia|].
  exists s2. by step_ok Hs1.
Qed.

(** A last step that reads nothing. *)
Lemma parses_bind_nil {A B} (m : M (dstate R) A) (k : A → M (dstate R) B) x y e :
  parses m x e → parses (k x) y [] → parses (m ≫= k) y e.
Proof. intros Hm Hk. rewrite -(app_nil_r e). by apply (parses_bind m k x). Qed.
End reading.

#[export] Hint Resolve emits_write emits_nil emits_seq : hamcast.

(** ** The codecs keep their promises *)

#[export] Instance c_int_spec (n : nat) :
  CodecSpec (c_int n) (le_bytes n) (λ v, 0 <= v < 256 ^ Z.of_nat n).
Proof.
  split.
  - intros S ? x _. apply emits_write.
  - intros R ? ? ? x Hx. eapply parses_bind_nil.
    + rewrite -(zlen_le_bytes n x). apply parses_read.
    + rewrite le_value_le_bytes; [done|]. apply parses_ret.
Qed.

#[export] Instance c_unit_spec : CodecSpec c_unit (λ _, []) (λ _, True).
Proof.
  split.
  - intros S ? [] _. apply emits_nil.
  - intros R ? ? ? [] _. apply parses_ret.
Qed.

#[export] Instance c_bool_spec :
  CodecSpec c_bool (λ b : bool, le_bytes 1 (if b then 1 else 0)) (λ _, True).
Proof.
  split.
  - intros S ? b _. apply emits_write.
  - intros R ? ? ? b _. eapply parses_bind_nil.
    + apply (des_spec R (c := c_u8)). by destruct b.
    + destruct b; apply parses_ret.
Qed.

Lemma c_str_clean bs : NUL ∉ bs → c_str bs = bs.
Proof.
  induction bs as [|c bs IH]; intros Hn; [done|]. simpl.
  rewrite bool_decide_false; [set_solver|]. f_equal. apply IH. set_solver.
Qed.

(** What the string loop returns, for any bytes: the C strings at the
    128-byte boundaries. *)
Fixpoint c_str_chunks (fuel : nat) (s : bytes) : bytes :=
  match fuel, s with
  | S fuel', _ :: _ => c_str (ztake 128 s) ++ c_str_chunks fuel' (zdrop 128 s)
  | _, _ => []
  end.

Lemma read_string_parses {R : Type} `{ReadSpec R} fuel (s storage : bytes) :
  zlen s <= 128 * Z.of_nat fuel →
  parses (read_string fuel (zlen s) storage : M (dstate R) bytes)
    (storage ++ c_str_chunks fuel s) s.
Proof.
  revert s storage. induction fuel as [|fuel IH]; intros s storage Hf; simpl;
    (destruct (Z.ltb_spec 0 (zlen s)) as [Hp|Hz]; [try lia|]).
  1,3: pose proof (zlen_nonneg s); assert (s = []) as -> by (apply zlen_zero_nil; lia);
       simpl; rewrite app_nil_r; apply parses_ret.
  destruct s as [|c s']; [done|]. set (s := c :: s') in *.
  assert (zlen (ztake 128 s) = Z.min 128 (zlen s) ∧
          zlen (zdrop 128 s) = zlen s - Z.min 128 (zlen s)) as [Ht Hd].
  { rewrite /zlen /ztake /zdrop length_take length_drop. lia. }
  rewrite -[X in parses _ _ X](ztake_zdrop 128 s) -Ht.
  eapply parses_bind; [apply parses_read|]. rewrite Ht -Hd app_assoc. apply IH. lia.
Qed.

Lemma c_str_chunks_clean fuel s :
  NUL ∉ s → zlen s <= 128 * Z.of_nat fuel → c_str_chunks fuel s = s.
Proof.
  revert s. induction fuel as [|fuel IH]; intros s Hn Hf.
  { pose proof (zlen_nonneg s). symmetry. apply zlen_zero_nil. lia. }
  simpl. destruct s as [|c s']; [done|]. set (s := c :: s') in *.
  assert (zlen (zdrop 128 s) = zlen s - Z.min 128 (zlen s)) as Hd.
  { rewrite /zlen /zdrop length_drop. lia. }
  assert (0 < zlen s) by (subst s; rewrite zlen_cons; pose proof (zlen_nonneg s'); lia).
  rewrite c_str_clean ?IH ?ztake_zdrop //; try lia;
    intros Hin; apply Hn; rewrite -(ztake_zdrop 128 s); set_solver.
Qed.

(** Enough iterations for [n] bytes in 128-byte chunks. *)
Lemma string_fuel n : 0 <= n → n <= 128 * Z.of_nat (S (Z.to_nat (n / 128))).
Proof.
  intros. assert (0 <= n / 128) by (apply Z.div_pos; lia).
  pose proof (Z.mod_pos_bound n 128 ltac:(lia)). pose proof (Z.div_mod n 128 ltac:(lia)). lia.
Qed.

(** Deserializing any serialized string. *)
Lemma c_string_parses {R : Type} `{ReadSpec R} s :
  zlen s < 2 ^ 32 →
  parses (c_des c_string (R:=R)) (c_str_chunks (S (Z.to_nat (zlen s / 128))) s) (enc_string s).
Proof.
  intros Hl. pose proof (zlen_nonneg s). eapply parses_bind.
  - apply (des_spec R (c := c_u32)). change (256 ^ Z.of_nat 4) with (2 ^ 32). lia.
  - apply (read_string_parses (S (Z.to_nat (zlen s / 128))) s []). by apply string_fuel.
Qed.

#[export] Instance c_string_spec : CodecSpec c_string enc_string rep_string.
Proof.
  split.
  - intros S ? s [_ Hs]. rewrite /= /u32 uwrap_small.
    { pose proof (zlen_nonneg s). rewrite /fits. lia. }
    apply emits_seq; apply emits_write.
  - intros R ? ? ? s [Hn Hs]. pose proof (c_string_parses (R:=R) s Hs) as Hp.
    rewrite c_str_chunks_clean in Hp; [done|apply string_fuel, zlen_nonneg|]. done.
Qed.

#[export] Instance c_uri_spec : CodecSpec c_uri enc_uri rep_uri.
Proof.
  split.
  - intros S ? u [_ Hu]. rewrite /enc_uri. by apply (ser_spec S (c := c_string)).
  - intros R ? ? ? u [Hu Hs]. rewrite /enc_uri.
    eapply parses_bind_nil; [by apply (des_spec R (c := c_string))|].
    intros rest s [Hok Hc] Hr _. rewrite /zoom.
    destruct (uri_lookup_ok (uri_str u) (d_cache s) Hc) as (c' & -> & Hc' & _).
    rewrite Hu. by exists (d_set_cache c' s).
Qed.

#[export] Instance c_pair_spec {A B} (ca : codec A) (cb : codec B) ea eb ra rb :
  CodecSpec ca ea ra → CodecSpec cb eb rb →
  CodecSpec (c_pair ca cb) (λ p, ea p.1 ++ eb p.2) (λ p, ra p.1 ∧ rb p.2).
Proof.
  intros Ha Hb. split.
  - intros S ? [x y] [? ?]. apply emits_seq;
      [by apply (ser_spec S (c := ca))|by apply (ser_spec S (c := cb))].
  - intros R ? ? ? [x y] [? ?]. eapply parses_bind; [by apply (des_spec R (c := ca))|].
    eapply parses_bind_nil; [by apply (des_spec R (c := cb))|apply parses_ret].
Qed.

#[export] Instance c_interface_property_spec :
  CodecSpec c_interface_property enc_interface_property rep_interface_property.
Proof.
  split.
  - intros S ? ip (? & ? & ? & ?). rewrite /enc_interface_property.
    apply emits_seq; [by apply (ser_spec S (c := c_u32))|].
    do 2 (apply emits_seq; [by apply (ser_spec S (c := c_string))|]).
    by apply (ser_spec S (c := c_string)).
  - intros R ? ? ? ip (? & ? & ? & ?).
    eapply parses_bind; [by apply (des_spec R (c := c_u32))|].
    eapply parses_bind; [by apply (des_spec R (c := c_string))|].
    eapply parses_bind; [by apply (des_spec R (c := c_string))|].
    eapply parses_bind_nil; [by apply (des_spec R (c := c_string))|].
    destruct ip. apply parses_ret.
Qed.

#[export] Instance c_packet_spec : CodecSpec c_packet enc_packet rep_packet.
Proof.
  split.
  - intros S ? mp (Hu & Hs & Hd & Hl). rewrite /enc_packet. simpl c_ser.
    apply emits_seq; [by apply (ser_spec S (c := c_uri))|]. apply emits_seq; [apply emits_write|].
    destruct (Z.ltb_spec 0 (mp_size mp)).
    + destruct (mp_data mp) as [d|]; simpl in *; [|rewrite zlen_nil in Hl; lia].
      rewrite (proj2 (Z.leb_le _ _)); [lia|]. rewrite ztake_all; [lia|]. apply emits_write.
    + rewrite Hd. apply emits_nil.
  - intros R ? ? ? [u n d] (Hu & Hs & Hd & Hl). cbn [mp_from mp_size mp_data] in *.
    rewrite /enc_packet. cbn [mp_from mp_size mp_data].
    eapply parses_bind; [by apply (des_spec R (c := c_uri))|].
    eapply parses_bind; [apply (des_spec R (c := c_u32)); by change (256 ^ _) with (2 ^ 32)|].
    rewrite -(app_nil_r (default [] d)). destruct (Z.ltb_spec 0 n).
    + destruct d as [d|]; simpl in *; [|rewrite zlen_nil in Hl; lia].
      eapply (parses_bind _ _ (Some d)); [|apply parses_ret].
      eapply parses_bind_nil; [|apply parses_ret]. rewrite -Hl. apply parses_read.
    + rewrite Hd. eapply (parses_bind _ _ None); apply parses_ret.
Qed.

Lemma read_elements_parses {R A : Type} `{ReadSpec R} (c : codec A) enc rep
    `{!CodecSpec c enc rep} (l : list A) :
  Forall rep l →
  parses (read_elements c (length l) : M (dstate R) (list A)) l (concat (enc <$> l)).
Proof.
  induction 1 as [|x l Hx Hl IH]; simpl; [apply parses_ret|].
  eapply parses_bind; [by apply (des_spec R (c := c))|].
  eapply parses_bind_nil; [exact IH|apply parses_ret].
Qed.

#[export] Instance c_vector_spec {A} (c : codec A) enc rep :
  CodecSpec c enc rep →
  CodecSpec (c_vector c) (enc_vector enc) (λ l, Forall rep l ∧ zlen l < 2 ^ 32).
Proof.
  intros Hc. split.
  - intros S ? l [Hl Hn]. rewrite /enc_vector. cbn [c_ser c_vector]. rewrite /u32 uwrap_small.
    { pose proof (zlen_nonneg l). rewrite /fits. lia. }
    apply emits_seq; [apply emits_write|]. apply emits_for_each.
    intros x Hx. apply (ser_spec S (c := c)). by eapply Forall_forall in Hl.
  - intros R ? ? ? l [Hl Hn]. pose proof (zlen_nonneg l).
    eapply parses_bind; [apply (des_spec R (c := c_u32)); change (256 ^ _) with (2 ^ 32); lia|].
    rewrite /zlen Nat2Z.id. by apply (read_elements_parses c enc rep).
Qed.

(** ** Theorems *)

(** C20: for every lawful sink and source and every type of the IPC protocol
    (here: a multicast packet, whose encoding contains a URI, a string, an
    integer and raw data), what the serializer writes is the reference
    encoding and reading that encoding back returns the value, consumes
    exactly its bytes and keeps the URI cache consistent. *)
Theorem packet_roundtrip {S R : Type} `{SinkSpec S} `{ReadSpec R} (mp : multicast_packet)
    (s s' : S) (d : dstate R) (rest : bytes) :
  rep_packet mp → sink_ok s → c_ser c_packet mp s = (Ok tt, s') →
  d_ok d → source_rest (d_src d) = enc_packet mp ++ rest →
  zlen (enc_packet mp) <= source_limit →
  sink_accepted s' = sink_accepted s ++ enc_packet mp ∧
  ∃ d', c_des c_packet d = (Ok mp, d') ∧ source_rest (d_src d') = rest ∧
    cache_ok (d_cache d').
Proof.
  intros Hrep Hs Hser Hd Hr Hl. split.
  - pose proof (emits_triple _ _ (sink_accepted s) (ser_spec S (c := c_packet) mp Hrep) s (conj Hs eq_refl)) as Hp.
    rewrite Hser in Hp. apply Hp.
  - destruct (des_spec R (c := c_packet) mp Hrep rest d Hd Hr Hl) as (d' & ? & [? ?] & ?).
    eauto.
Qed.

Definition sample_packet : multicast_packet :=
  {| mp_from := uri_of (str "ham:ip:239.0.0.1:5000"); mp_size := 4; mp_data := Some (str "data") |}.

Lemma sample_packet_rep : rep_packet sample_packet.
Proof.
  split; [split; [|split]|split_and!].
  - vm_compute. reflexivity.
  - apply (bool_decide_unpack _). vm_compute. exact I.
  - vm_compute. reflexivity.
  - vm_compute. discriminate.
  - vm_compute. reflexivity.
  - reflexivity.
  - vm_compute. reflexivity.
Qed.

Lemma packet_roundtrip_witness :
  ∃ s' d', c_ser c_packet sample_packet {| log_chunks := []; log_hint := 0 |} = (Ok tt, s') ∧
    sink_accepted s' = enc_packet sample_packet ∧
    c_des c_packet (Build_dstate (read_buffer_of (enc_packet sample_packet)) ∅)
      = (Ok sample_packet, d').
Proof.
  eexists. destruct (packet_roundtrip (S:=log_sink) (R:=read_buffer) sample_packet
    {| log_chunks := []; log_hint := 0 |}
    (c_ser c_packet sample_packet {| log_chunks := []; log_hint := 0 |}).2
    (Build_dstate (read_buffer_of (enc_packet sample_packet)) ∅) [] sample_packet_rep)
    as (Ha & d' & Hd & _).
  - exact I.
  - vm_compute. reflexivity.
  - split; [vm_compute; repeat split; discriminate|]. split; [done|]. vm_compute. lia.
  - vm_compute. reflexivity.
  - vm_compute. discriminate.
  - exists d'. split; [vm_compute; reflexivity|]. split; [exact Ha|exact Hd].
Defined.

(** The length lost by the reader. *)
Lemma c_str_length bs : (length (c_str bs) <= length bs)%nat ∧ (NUL ∈ bs → (length (c_str bs) < length bs)%nat).
Proof.
  induction bs as [|c bs [IHle IHlt]]; simpl; [split; [lia|set_solver]|].
  case_bool_decide as Hc; simpl; split; try lia.
  intros [Heq|Hin]%elem_of_cons; [by destruct Hc|]. specialize (IHlt Hin). lia.
Qed.

Lemma c_str_chunks_length fuel s :
  (length (c_str_chunks fuel s) <= length s)%nat ∧
  (NUL ∈ s → zlen s <= 128 * Z.of_nat fuel → (length (c_str_chunks fuel s) < length s)%nat).
Proof.
  revert s. induction fuel as [|fuel IH]; intros s.
  { simpl. split; [lia|]. intros Hin Hl. pose proof (zlen_nonneg s).
    assert (s = []) as -> by (apply zlen_zero_nil; lia). set_solver. }
  destruct s as [|c s']; [simpl; split; [lia|set_solver]|]. set (s := c :: s').
  change (c_str_chunks (S fuel) s) with (c_str (ztake 128 s) ++ c_str_chunks fuel (zdrop 128 s)).
  destruct (c_str_length (ztake 128 s)) as [H1 H2]. destruct (IH (zdrop 128 s)) as [H3 H4].
  assert (length s = length (ztake 128 s) + length (zdrop 128 s))%nat as Hs
    by (by rewrite -length_app ztake_zdrop).
  rewrite length_app. split; [lia|]. intros Hin Hl.
  rewrite -(ztake_zdrop 128 s) in Hin. apply elem_of_app in Hin as [Hin|Hin].
  - specialize (H2 Hin). lia.
  - assert (zlen (zdrop 128 s) <= 128 * Z.of_nat fuel) as Hl'.
    { revert Hl. rewrite /zlen /zdrop length_drop. lia. }
    specialize (H4 Hin Hl'). lia.
Qed.

(** A [std::string] survives serialization exactly when it contains no
    NUL byte: the reader appends every 128-byte chunk as a C string, so
    whatever follows a NUL within its chunk is dropped. *)
Theorem string_roundtrip_iff {R : Type} `{ReadSpec R} (s rest : bytes) (d : dstate R) :
  zlen s < 2 ^ 32 → d_ok d → source_rest (d_src d) = enc_string s ++ rest →
  zlen (enc_string s) <= source_limit →
  ∃ r d', c_des c_string d = (Ok r, d') ∧ source_rest (d_src d') = rest ∧
    (r = s ↔ NUL ∉ s).
Proof.
  intros Hs Hd Hr Hl. destruct (c_string_parses s Hs rest d Hd Hr Hl) as (d' & Hd' & _ & Hr').
  eexists _, d'. split; [exact Hd'|]. split; [exact Hr'|].
  pose proof (string_fuel _ (zlen_nonneg s)) as Hf. split.
  - intros Heq Hin. apply (c_str_chunks_length (S (Z.to_nat (zlen s / 128))) s) in Hin; [|exact Hf]. rewrite Heq in Hin. lia.
  - intros Hn. by apply c_str_chunks_clean.
Qed.

Lemma string_roundtrip_iff_witness :
  let s := str "ab" ++ [NUL] ++ str "cd" in
  ∃ r d', c_des c_string (Build_dstate (read_buffer_of (enc_string s)) ∅) = (Ok r, d') ∧
    r <> s.
Proof.
  intros s. destruct (string_roundtrip_iff (R:=read_buffer) s []
    (Build_dstate (read_buffer_of (enc_string s)) ∅)) as (r & d' & Hd & _ & Hi).
  - vm_compute. reflexivity.
  - split; [vm_compute; repeat split; discriminate|]. split; [done|]. vm_compute. lia.
  - vm_compute. reflexivity.
  - vm_compute. discriminate.
  - exists r, d'. split; [exact Hd|]. intros Heq. apply Hi in Heq. apply Heq.
    apply (bool_decide_unpack _). vm_compute. exact I.
Defined.
