(* ===== verification/Message.v ===== *)
(** * IPC messages

    [ipc::message] ([ipc/message.hpp], [message.cpp]) with its views, the
    enumerations of the IPC protocol and [membership_event].  A message is a
    16-byte header and a content whose size the header announces; the
    theorems show that every writer of messages announces the right size,
    so that the stream of messages can be cut apart again. *)

From S2P Require Import Prelude Uri Streams WriteBuffer ReadBuffer Serialization.

(** ** Enumerations

    A C++ enumerator is its value; a cast from the wire is the identity on
    values, and [valid] tells the known ones. *)

Module message_type.
Definition sync_request : Z := 0x00.
Definition sync_response : Z := 0x01.
Definition async_event : Z := 0x02.
Definition async_send : Z := 0x03.
Definition async_recv : Z := 0x04.
Definition cumulative_ack : Z := 0x05.
Definition retransmit : Z := 0x06.

Definition all : list Z :=
  [sync_request; sync_response; async_event; async_send; async_recv; cumulative_ack; retransmit].
End message_type.

(** [valid(message_type)]. *)
Definition valid (what : Z) : bool := bool_decide (what ∈ message_type.all).

Definition eid_none : Z := 0x0000.
Definition eid_requirement_failed : Z := 0x0001.
Definition eid_internal_interface_error : Z := 0x0002.

Inductive function_id :=
  | fid_create_socket | fid_delete_socket | fid_create_send_stream | fid_join | fid_leave
  | fid_set_ttl | fid_get_sock_interfaces | fid_add_sock_interface | fid_del_sock_interface
  | fid_set_sock_interfaces | fid_get_interfaces | fid_group_set | fid_neighbor_set
  | fid_children_set | fid_parent_set | fid_designated_host | fid_enable_events
  | fid_disable_events | fid_get_atomic_msg_size | fid_set_is_img_flag | fid_get_is_img_flag.

#[export] Instance function_id_eq_dec : EqDecision function_id.
Proof. solve_decision. Defined.

Definition function_id_value (f : function_id) : Z :=
  match f with
  | fid_create_socket => 0x0001 | fid_delete_socket => 0x0002
  | fid_create_send_stream => 0x0003 | fid_join => 0x0004 | fid_leave => 0x0005
  | fid_set_ttl => 0x0006 | fid_get_sock_interfaces => 0x0007
  | fid_add_sock_interface => 0x0008 | fid_del_sock_interface => 0x0009
  | fid_set_sock_interfaces => 0x000A | fid_get_interfaces => 0x0100
  | fid_group_set => 0x0101 | fid_neighbor_set => 0x0102 | fid_children_set => 0x0103
  | fid_parent_set => 0x0104 | fid_designated_host => 0x0105 | fid_enable_events => 0x0200
  | fid_disable_events => 0x0201 | fid_get_atomic_msg_size => 0x0202
  | fid_set_is_img_flag => 0xF001 | fid_get_is_img_flag => 0xF002
  end.

Definition function_ids : list function_id :=
  [fid_create_socket; fid_delete_socket; fid_create_send_stream; fid_join; fid_leave;
   fid_set_ttl; fid_get_sock_interfaces; fid_add_sock_interface; fid_del_sock_interface;
   fid_set_sock_interfaces; fid_get_interfaces; fid_group_set; fid_neighbor_set;
   fid_children_set; fid_parent_set; fid_designated_host; fid_enable_events;
   fid_disable_events; fid_get_atomic_msg_size; fid_set_is_img_flag; fid_get_is_img_flag].

(** The function a [switch] on the received value selects. *)
Definition function_id_of (v : Z) : option function_id :=
  list_find (λ f, function_id_value f = v) function_ids ≫= λ p, Some p.2.

Lemma function_id_of_value f : function_id_of (function_id_value f) = Some f.
Proof. by destruct f. Qed.

(** ** Membership events *)

Inductive membership_event_type := invalid_event | join_event | leave_event | new_source_event.

Definition membership_event_type_value (t : membership_event_type) : Z :=
  match t with
  | invalid_event => 0x00 | join_event => 0x01 | leave_event => 0x02 | new_source_event => 0x03
  end.

Record membership_event := {
  ev_group : uri;
  ev_iid : Z;
  ev_type : membership_event_type
}.

Definition new_membership_event (grp : uri) (id : Z) (tp : membership_event_type) :
    membership_event :=
  {| ev_group := grp; ev_iid := id; ev_type := tp |}.
Definition default_membership_event : membership_event :=
  {| ev_group := uri_default; ev_iid := 0; ev_type := invalid_event |}.

(** ** The message *)

Record message := {
  m_type : Z;
  m_field1 : Z;
  m_field2 : Z;
  m_field3 : Z;
  m_content_size : Z;
  m_content : option bytes
}.

Definition header_size : Z := 2 * 2 + 3 * 4.

Definition message_size (m : message) : Z := header_size + m_content_size m.

(** [message::create(mtype, field1, field2, field3, ct_size, ct)]. *)
Definition message_create {S} (mtype field1 field2 field3 ct_size : Z) (ct : option bytes) :
    M S message :=
  require ((bool_decide (is_Some ct) && (0 <? ct_size))
           || (negb (bool_decide (is_Some ct)) && (ct_size =? 0)))
    "((ct) && ct_size > 0) || ((!ct) && ct_size == 0)" ;;
  mret {| m_type := mtype; m_field1 := field1; m_field2 := field2; m_field3 := field3;
          m_content_size := ct_size; m_content := ct |}.

(** [create] from a pair of size and data. *)
Definition message_create_pair {S} (mtype field1 field2 field3 : Z) (ct : Z * option bytes) :
    M S message :=
  require (ct.1 <? 2 ^ 32 - 1) "ct.first < std::numeric_limits<boost::uint32_t>::max()" ;;
  message_create mtype field1 field2 field3 (u32 ct.1) ct.2.

(** [message::deserialize]. *)
Definition message_deserialize {R : Type} `{Source R} : M (dstate R) message :=
  mtype ← c_des c_u16; f1 ← c_des c_u16; f2 ← c_des c_u32; f3 ← c_des c_u32;
  ct_size ← c_des c_u32;
  ct ← (if 0 <? ct_size then bs ← d_read ct_size; mret (Some bs) else mret None);
  message_create mtype f1 f2 f3 ct_size ct.

(** [message::serialize(s, m)]. *)
Definition message_serialize {S} `{Sink S} (m : message) : M S unit :=
  c_ser c_u16 (m_type m) ;; c_ser c_u16 (m_field1 m) ;; c_ser c_u32 (m_field2 m) ;;
  c_ser c_u32 (m_field3 m) ;; c_ser c_u32 (m_content_size m) ;;
  if 0 <? m_content_size m then write_mem (m_content_size m) (m_content m) else mret tt.

(** [message::serialize(s, mptr)]: a null pointer writes nothing. *)
Definition message_serialize_ptr {S} `{Sink S} (mptr : option message) : M S unit :=
  match mptr with Some m => message_serialize m | None => mret tt end.

(** The four [serialize_as_message] overloads: a message is written without
    being built. *)
Definition serialize_as_message {S} `{Sink S}
    (mtype field1 field2 field3 ct_size : Z) (ct : option bytes) : M S unit :=
  c_ser c_u16 mtype ;; c_ser c_u16 field1 ;; c_ser c_u32 field2 ;; c_ser c_u32 field3 ;;
  c_ser c_u32 ct_size ;;
  if 0 <? ct_size then write_mem ct_size ct else mret tt.

Definition serialize_as_message_event {S} `{Sink S} (event : membership_event) : M S unit :=
  c_ser c_u16 message_type.async_event ;;
  c_ser c_u16 (membership_event_type_value (ev_type event)) ;;
  c_ser c_u32 (ev_iid event) ;;
  c_ser c_u32 0 ;;
  c_ser c_u32 (u32 (4 + zlen (uri_str (ev_group event)))) ;;
  c_ser c_uri (ev_group event).

Definition serialize_as_message_packet {S} `{Sink S} (receiver_sid : Z) (pck : multicast_packet) :
    M S unit :=
  c_ser c_u16 message_type.async_recv ;;
  c_ser c_u16 0 ;;
  c_ser c_u32 receiver_sid ;;
  c_ser c_u32 0 ;;
  c_ser c_u32 (u32 (4 + zlen (uri_str (mp_from pck)) + 4 + mp_size pck)) ;;
  c_ser c_uri (mp_from pck) ;;
  c_ser c_u32 (mp_size pck) ;;
  write_mem (mp_size pck) (mp_data pck).

Definition serialize_as_message_data {S} `{Sink S} (receiver_sid : Z) (source : uri)
    (data_size : Z) (data : option bytes) : M S unit :=
  c_ser c_u16 message_type.async_recv ;;
  c_ser c_u16 0 ;;
  c_ser c_u32 receiver_sid ;;
  c_ser c_u32 0 ;;
  c_ser c_u32 (u32 (4 + zlen (uri_str source) + 4 + data_size)) ;;
  c_ser c_uri source ;;
  c_ser c_u32 (u32 data_size) ;;
  write_mem data_size data.

(** ** Views

    The header fields under the names the message type gives them. *)

Record sync_request_view := { srq_fun_id : Z; srq_req_id : Z }.
Definition view_sync_request (m : message) : sync_request_view :=
  {| srq_fun_id := m_field1 m; srq_req_id := m_field2 m |}.
Record sync_response_view := { srs_exc_id : Z; srs_req_id : Z }.
Definition view_sync_response (m : message) : sync_response_view :=
  {| srs_exc_id := m_field1 m; srs_req_id := m_field2 m |}.
Record async_send_view := { as_stm_id : Z; as_sck_id : Z; as_seq_nr : Z }.
Definition view_async_send (m : message) : async_send_view :=
  {| as_stm_id := m_field1 m; as_sck_id := m_field2 m; as_seq_nr := m_field3 m |}.
Record async_recv_view := { ar_sck_id : Z }.
Definition view_async_recv (m : message) : async_recv_view := {| ar_sck_id := m_field2 m |}.
Record cumulative_ack_view := { ca_sck_id : Z; ca_pck_id : Z }.
Definition view_cumulative_ack (m : message) : cumulative_ack_view :=
  {| ca_sck_id := m_field2 m; ca_pck_id := m_field3 m |}.
Record retransmit_view := { rt_sck_id : Z; rt_pck_id : Z }.
Definition view_retransmit (m : message) : retransmit_view :=
  {| rt_sck_id := m_field2 m; rt_pck_id := m_field3 m |}.

(** ** The reference encoding *)

Definition enc_header (mtype f1 f2 f3 ct_size : Z) : bytes :=
  le_bytes 2 mtype ++ le_bytes 2 f1 ++ le_bytes 4 f2 ++ le_bytes 4 f3 ++ le_bytes 4 ct_size.

Definition enc_message (m : message) : bytes :=
  enc_header (m_type m) (m_field1 m) (m_field2 m) (m_field3 m) (m_content_size m)
  ++ default [] (m_content m).

(** A message that [create] accepts, with its fields within their types and
    its content of the announced size. *)
Definition rep_message (m : message) : Prop :=
  (0 <= m_type m < 2 ^ 16 ∧ 0 <= m_field1 m < 2 ^ 16 ∧ 0 <= m_field2 m < 2 ^ 32 ∧
   0 <= m_field3 m < 2 ^ 32 ∧ 0 <= m_content_size m < 2 ^ 32) ∧
  m_content m = (if 0 <? m_content_size m then m_content m else None) ∧
  zlen (default [] (m_content m)) = m_content_size m.

Lemma enc_header_size t f1 f2 f3 n : zlen (enc_header t f1 f2 f3 n) = header_size.
Proof. by rewrite /enc_header !zlen_app !zlen_le_bytes. Qed.

Lemma enc_message_size m : rep_message m → zlen (enc_message m) = message_size m.
Proof. intros (_ & _ & H). by rewrite /enc_message zlen_app enc_header_size H. Qed.

Lemma rep_content_cases m :
  rep_message m →
  (m_content_size m = 0 ∧ m_content m = None) ∨
  (0 < m_content_size m ∧ ∃ d, m_content m = Some d ∧ zlen d = m_content_size m).
Proof.
  intros ((_ & _ & _ & _ & Hs) & Hc & Hl). destruct (Z.ltb_spec 0 (m_content_size m)).
  - right. split; [done|]. destruct (m_content m) as [d|]; simpl in Hl; [eauto|].
    rewrite zlen_nil in Hl. lia.
  - left. split; [lia|done].
Qed.

Definition c_message : codec message := {|
  c_ser S _ m := message_serialize m;
  c_des R _ := message_deserialize
|}.

Lemma write_mem_emits {S : Type} `{Sink S} (n : Z) (d : bytes) :
  zlen d = n → emits (write_mem n (Some d)) d.
Proof.
  intros <-. rewrite /write_mem Z.leb_refl. rewrite ztake_all; [lia|]. apply emits_write.
Qed.

(** Writing the five header fields, then a content. *)
Lemma emits_header {S : Type} `{Sink S} t f1 f2 f3 n (k : M S unit) e :
  emits k e →
  emits (c_ser c_u16 t ;; c_ser c_u16 f1 ;; c_ser c_u32 f2 ;; c_ser c_u32 f3 ;;
         c_ser c_u32 n ;; k) (enc_header t f1 f2 f3 n ++ e).
Proof.
  intros Hk. rewrite /enc_header -!app_assoc.
  do 5 (apply emits_seq; [apply emits_write|]). exact Hk.
Qed.

Lemma emits_content {S : Type} `{Sink S} n (ct : option bytes) :
  zlen (default [] ct) = n → ct = (if 0 <? n then ct else None) →
  emits (if 0 <? n then write_mem n ct else mret tt) (default [] ct).
Proof.
  intros Hl Hc. destruct (Z.ltb_spec 0 n).
  - destruct ct as [d|]; simpl in *; [by apply write_mem_emits|]. rewrite zlen_nil in Hl. lia.
  - rewrite Hc. apply emits_nil.
Qed.

#[export] Instance c_message_spec : CodecSpec c_message enc_message rep_message.
Proof.
  split.
  - intros S ? m (_ & Hc & Hl). apply emits_header. by apply emits_content.
  - intros R ? ? ? m Hrep. pose proof Hrep as ((Ht & H1' & H2' & H3' & Hs) & _).
    rewrite /enc_message /enc_header -!app_assoc.
    eapply parses_bind; [by apply (des_spec R (c := c_u16))|].
    eapply parses_bind; [by apply (des_spec R (c := c_u16))|].
    do 3 (eapply parses_bind; [by apply (des_spec R (c := c_u32))|]).
    destruct m as [t f1 f2 f3 n ct]. cbn [m_type m_field1 m_field2 m_field3 m_content_size m_content] in *.
    destruct (rep_content_cases _ Hrep) as [[Hn Hct]|[Hn (d & Hct & Hd)]]; simpl in Hn, Hct.
    + subst n ct. eapply (parses_bind_nil _ _ None); [apply parses_ret|].
      intros rest s Hok Hr _. by exists s.
    + subst ct. simpl in Hd. rewrite (proj2 (Z.ltb_lt 0 n)); [done|].
      eapply (parses_bind_nil _ _ (Some d)).
      * eapply parses_bind_nil; [|apply parses_ret]. rewrite -Hd. apply parses_read.
      * intros rest s Hok Hr _. exists s. rewrite /message_create.
        by rewrite bool_decide_true ?(proj2 (Z.ltb_lt 0 n)).
Qed.

(** ** Messages around a content that is written directly *)

Lemma c_uri_writes {S : Type} `{Sink S} u :
  zlen (uri_str u) < 2 ^ 32 → emits (c_ser c_uri u : M S unit) (enc_uri u).
Proof.
  intros Hu. pose proof (zlen_nonneg (uri_str u)).
  change (c_ser c_uri u) with (c_ser c_u32 (u32 (zlen (uri_str u))) ;; sink_write (uri_str u) : M S unit).
  rewrite /u32 uwrap_small; [rewrite /fits; lia|]. apply emits_seq; apply emits_write.
Qed.

Lemma zlen_enc_uri u : zlen (enc_uri u) = 4 + zlen (uri_str u).
Proof. by rewrite /enc_uri /enc_string zlen_app zlen_le_bytes. Qed.

Lemma zlen_enc_packet mp :
  rep_packet mp → zlen (enc_packet mp) = 4 + zlen (uri_str (mp_from mp)) + 4 + mp_size mp.
Proof.
  intros (_ & _ & _ & Hl). rewrite /enc_packet zlen_app zlen_enc_uri zlen_app zlen_le_bytes Hl. lia.
Qed.

(** The message that carries a received packet to socket [sid]. *)
Definition recv_message (sid : Z) (pck : multicast_packet) : message :=
  {| m_type := message_type.async_recv; m_field1 := 0; m_field2 := sid; m_field3 := 0;
     m_content_size := zlen (enc_packet pck); m_content := Some (enc_packet pck) |}.

Definition event_message (ev : membership_event) : message :=
  {| m_type := message_type.async_event;
     m_field1 := membership_event_type_value (ev_type ev);
     m_field2 := ev_iid ev; m_field3 := 0;
     m_content_size := zlen (enc_uri (ev_group ev)); m_content := Some (enc_uri (ev_group ev)) |}.

Lemma recv_message_rep sid pck :
  0 <= sid < 2 ^ 32 → rep_packet pck → zlen (enc_packet pck) < 2 ^ 32 →
  rep_message (recv_message sid pck).
Proof.
  intros Hs Hp Hl. pose proof (zlen_nonneg (enc_packet pck)).
  assert (0 < zlen (enc_packet pck)).
  { rewrite zlen_enc_packet //. pose proof (zlen_nonneg (uri_str (mp_from pck))).
    destruct Hp as (_ & ? & _). lia. }
  rewrite /rep_message. cbn [m_type m_field1 m_field2 m_field3 m_content_size m_content recv_message].
  rewrite (proj2 (Z.ltb_lt _ _)); [done|]. split_and!; try done; lia.
Qed.

Lemma event_message_rep ev :
  0 <= ev_iid ev < 2 ^ 32 → zlen (enc_uri (ev_group ev)) < 2 ^ 32 → rep_message (event_message ev).
Proof.
  intros Hs Hl. pose proof (zlen_nonneg (uri_str (ev_group ev))).
  pose proof (zlen_enc_uri (ev_group ev)).
  rewrite /rep_message. cbn [m_type m_field1 m_field2 m_field3 m_content_size m_content event_message].
  rewrite (proj2 (Z.ltb_lt 0 _)); [lia|]. split_and!; try done; try lia; by destruct (ev_type ev).
Qed.

Lemma packet_content_emits {S : Type} `{Sink S} pck :
  rep_packet pck →
  emits (c_ser c_uri (mp_from pck) ;; c_ser c_u32 (mp_size pck) ;;
         write_mem (mp_size pck) (mp_data pck) : M S unit) (enc_packet pck).
Proof.
  intros (Hu & Hs & Hd & Hl). apply emits_seq; [apply c_uri_writes, Hu|].
  apply emits_seq; [apply emits_write|].
  destruct (mp_data pck) as [d|]; [by apply write_mem_emits|].
  simpl in Hl. rewrite zlen_nil in Hl. rewrite -Hl. apply emits_write.
Qed.

(** Both ways of writing a received packet produce the same message. *)
Lemma recv_message_emits {S : Type} `{Sink S} sid pck :
  rep_packet pck → zlen (enc_packet pck) < 2 ^ 32 →
  emits (serialize_as_message_packet sid pck : M S unit) (enc_message (recv_message sid pck)) ∧
  emits (serialize_as_message_data sid (mp_from pck) (mp_size pck) (mp_data pck) : M S unit)
    (enc_message (recv_message sid pck)).
Proof.
  intros Hp Hl. pose proof (zlen_enc_packet _ Hp) as He. pose proof (zlen_nonneg (enc_packet pck)).
  pose proof Hp as (_ & Hs & _).
  rewrite /serialize_as_message_packet /serialize_as_message_data.
  rewrite -He /u32 (uwrap_small 32 (mp_size pck)) // uwrap_small; [rewrite /fits; lia|].
  split; apply emits_header; by apply packet_content_emits.
Qed.

Lemma event_message_emits {S : Type} `{Sink S} ev :
  zlen (enc_uri (ev_group ev)) < 2 ^ 32 →
  emits (serialize_as_message_event ev : M S unit) (enc_message (event_message ev)).
Proof.
  intros Hl. pose proof (zlen_enc_uri (ev_group ev)) as He.
  pose proof (zlen_nonneg (uri_str (ev_group ev))).
  rewrite /serialize_as_message_event -He /u32 uwrap_small; [rewrite /fits; lia|].
  apply emits_header, c_uri_writes. lia.
Qed.

(** ** Theorems *)

(** C4: a list of messages written one after the other, through any lawful
    sink, is cut apart again by the reader into exactly these messages, in
    order and with nothing left over. *)
Theorem message_stream_roundtrip {S R : Type} `{SinkSpec S} `{ReadSpec R} (ms : list message)
    (s s' : S) (d : dstate R) :
  Forall rep_message ms → sink_ok s → sink_accepted s = [] →
  for_each ms message_serialize s = (Ok tt, s') →
  d_ok d → source_rest (d_src d) = sink_accepted s' → zlen (sink_accepted s') <= source_limit →
  ∃ d', read_elements c_message (length ms) d = (Ok ms, d') ∧ source_rest (d_src d') = [].
Proof.
  intros Hms Hs Ha Hser Hd Hr Hl.
  assert (emits (S:=S) (for_each ms message_serialize) (concat (enc_message <$> ms))) as Hem.
  { apply emits_for_each. intros m Hm. apply (ser_spec S (c := c_message)).
    by eapply Forall_forall in Hms. }
  apply (emits_triple _ _ []) in Hem. specialize (Hem s (conj Hs Ha)). rewrite Hser in Hem. destruct Hem as [_ Hacc]. simpl in Hacc.
  rewrite Hacc in Hr, Hl. rewrite -(app_nil_r (concat _)) in Hr.
  destruct (read_elements_parses (R:=R) c_message enc_message rep_message ms Hms [] d Hd Hr Hl)
    as (d' & Hd' & _ & Hr'). eauto.
Qed.

Definition sample_messages : list message :=
  [ {| m_type := message_type.sync_request; m_field1 := 4; m_field2 := 7; m_field3 := 0;
       m_content_size := 3; m_content := Some (str "abc") |};
    {| m_type := message_type.cumulative_ack; m_field1 := 0; m_field2 := 1; m_field3 := 20;
       m_content_size := 0; m_content := None |} ].

Definition empty_log : log_sink := {| log_chunks := []; log_hint := 0 |}.

Lemma message_stream_roundtrip_witness :
  let out := (for_each sample_messages message_serialize empty_log).2 in
  ∃ d', read_elements c_message 2 (Build_dstate [sink_accepted out] ∅) = (Ok sample_messages, d') ∧
    source_rest (d_src d') = [].
Proof.
  intros out.
  apply (message_stream_roundtrip (S:=log_sink) (R:=list bytes) sample_messages empty_log out).
  - repeat constructor; vm_compute; discriminate.
  - exact I.
  - reflexivity.
  - vm_compute. reflexivity.
  - split; [repeat constructor; discriminate|]. split; [done|]. vm_compute. lia.
  - vm_compute. reflexivity.
  - vm_compute. discriminate.
Defined.

(** C18: a received multicast packet written as an [async_recv] message, by
    either overload of [serialize_as_message], is read back as one message
    that is addressed to the right socket and whose announced content is
    exactly the packet: deserializing the content returns the packet and
    leaves nothing over. *)
Theorem recv_message_framing {S R : Type} `{SinkSpec S} `{ReadSpec R} (sid : Z)
    (pck : multicast_packet) (by_data : bool) (s s' : S) (d : dstate R) (rest : bytes) :
  0 <= sid < 2 ^ 32 → rep_packet pck → zlen (enc_packet pck) < 2 ^ 32 →
  sink_ok s → sink_accepted s = [] →
  (if by_data then serialize_as_message_data sid (mp_from pck) (mp_size pck) (mp_data pck)
   else serialize_as_message_packet sid pck) s = (Ok tt, s') →
  d_ok d → source_rest (d_src d) = sink_accepted s' ++ rest →
  zlen (sink_accepted s') <= source_limit →
  ∃ m d', message_deserialize d = (Ok m, d') ∧ source_rest (d_src d') = rest ∧
    m_type m = message_type.async_recv ∧ ar_sck_id (view_async_recv m) = sid ∧
    message_size m = zlen (sink_accepted s') ∧
    ∃ d'', c_des c_packet (Build_dstate (read_buffer_of (default [] (m_content m))) ∅)
             = (Ok pck, d'') ∧ rb_rest (d_src d'') = [].
Proof.
  intros Hsid Hp Hl Hs Ha Hser Hd Hr Hlim.
  assert (sink_accepted s' = enc_message (recv_message sid pck)) as Hacc.
  { destruct (recv_message_emits (S:=S) sid pck Hp Hl) as [H1' H2'].
    pose proof (emits_triple _ _ [] H1' s (conj Hs Ha)) as Ht1.
    pose proof (emits_triple _ _ [] H2' s (conj Hs Ha)) as Ht2.
    destruct by_data; [rewrite Hser in Ht2; apply Ht2|rewrite Hser in Ht1; apply Ht1]. }
  pose proof (recv_message_rep _ _ Hsid Hp Hl) as Hrep. rewrite Hacc in Hr, Hlim |- *.
  destruct (des_spec R (c := c_message) _ Hrep rest d Hd Hr Hlim) as (d' & Hd' & _ & Hr').
  exists (recv_message sid pck), d'. split_and!; try done; [by rewrite enc_message_size|].
  cbn [m_content recv_message default option_map].
  destruct (des_spec read_buffer (c := c_packet) pck Hp []
    (Build_dstate (read_buffer_of (enc_packet pck)) ∅)) as (d'' & Hd'' & _ & Hr'').
  - split; [by apply read_buffer_of_ok|]. split; [done|]. rewrite map_size_empty. lia.
  - rewrite app_nil_r. apply read_buffer_of_rest.
  - simpl source_limit. lia.
  - exists d''. by split.
Qed.

Lemma recv_message_framing_witness :
  let out := (serialize_as_message_data 9 (mp_from sample_packet) (mp_size sample_packet)
                (mp_data sample_packet) empty_log).2 in
  ∃ m d', message_deserialize (Build_dstate [sink_accepted out] ∅) = (Ok m, d') ∧
    message_size m = zlen (sink_accepted out) ∧ ar_sck_id (view_async_recv m) = 9.
Proof.
  intros out.
  destruct (recv_message_framing (S:=log_sink) (R:=list bytes) 9 sample_packet true empty_log out
    (Build_dstate [sink_accepted out] ∅) []) as (m & d' & H1 & _ & _ & H2 & H3 & _).
  - lia.
  - exact sample_packet_rep.
  - vm_compute. reflexivity.
  - exact I.
  - reflexivity.
  - vm_compute. reflexivity.
  - split; [repeat constructor; discriminate|]. split; [done|]. vm_compute. lia.
  - vm_compute. reflexivity.
  - vm_compute. discriminate.
  - exists m, d'. split; [exact H1|]. split; [exact H3|exact H2].
Defined.

(** The same for a membership event: the [async_event] message carries
    the event type, the interface and, as its whole content, the group. *)
Theorem event_message_framing {S R : Type} `{SinkSpec S} `{ReadSpec R} (ev : membership_event)
    (s s' : S) (d : dstate R) (rest : bytes) :
  0 <= ev_iid ev < 2 ^ 32 → rep_uri (ev_group ev) → zlen (enc_uri (ev_group ev)) < 2 ^ 32 →
  sink_ok s → sink_accepted s = [] → serialize_as_message_event ev s = (Ok tt, s') →
  d_ok d → source_rest (d_src d) = sink_accepted s' ++ rest →
  zlen (sink_accepted s') <= source_limit →
  ∃ m d', message_deserialize d = (Ok m, d') ∧ source_rest (d_src d') = rest ∧
    m_type m = message_type.async_event ∧
    m_field1 m = membership_event_type_value (ev_type ev) ∧ m_field2 m = ev_iid ev ∧
    ∃ d'', c_des c_uri (Build_dstate (read_buffer_of (default [] (m_content m))) ∅)
             = (Ok (ev_group ev), d'') ∧ rb_rest (d_src d'') = [].
Proof.
  intros Hi Hu Hl Hs Ha Hser Hd Hr Hlim.
  pose proof (emits_triple _ _ [] (event_message_emits (S:=S) ev Hl) s (conj Hs Ha)) as Hem.
  rewrite Hser in Hem. destruct Hem as [_ Hacc]. rewrite Hacc in Hr, Hlim.
  destruct (des_spec R (c := c_message) _ (event_message_rep ev Hi Hl) rest d Hd Hr Hlim)
    as (d' & Hd' & _ & Hr').
  exists (event_message ev), d'. split_and!; try done.
  destruct (des_spec read_buffer (c := c_uri) (ev_group ev) Hu []
    (Build_dstate (read_buffer_of (enc_uri (ev_group ev))) ∅)) as (d'' & Hd'' & _ & Hr'').
  - split; [by apply read_buffer_of_ok|]. split; [done|]. rewrite map_size_empty. lia.
  - rewrite app_nil_r. apply read_buffer_of_rest.
  - simpl source_limit. lia.
  - exists d''. by split.
Qed.

Definition sample_event : membership_event :=
  new_membership_event (uri_of (str "ham:sip:news@cast")) 3 join_event.

Lemma event_message_framing_witness :
  let out := (serialize_as_message_event sample_event empty_log).2 in
  ∃ m d', message_deserialize (Build_dstate [sink_accepted out] ∅) = (Ok m, d') ∧ m_field2 m = 3.
Proof.
  intros out.
  destruct (event_message_framing (S:=log_sink) (R:=list bytes) sample_event empty_log out
    (Build_dstate [sink_accepted out] ∅) []) as (m & d' & H1 & _ & _ & _ & H2 & _).
  - vm_compute. split; [discriminate|reflexivity].
  - split; [vm_compute; reflexivity|]. split; [|vm_compute; reflexivity].
    apply (bool_decide_unpack _). vm_compute. exact I.
  - vm_compute. reflexivity.
  - exact I.
  - reflexivity.
  - vm_compute. reflexivity.
  - split; [repeat constructor; discriminate|]. split; [done|]. vm_compute. lia.
  - vm_compute. reflexivity.
  - vm_compute. discriminate.
  - exists m, d'. split; [exact H1|exact H2].
Defined.
