(* ===== verification/SyncFunction.v ===== *)
(** * Synchronous requests

    [ipc/sync_function.hpp]: the two halves of a remote call.  The client
    serializes the arguments into the content of a [sync_request]; the
    middleware deserializes them, runs the callback, and answers with a
    [sync_response] that carries the result or the message of the exception;
    the client turns that back into a result or a thrown exception.  The
    theorem composes the two halves: the remote call behaves like the local
    one. *)

From S2P Require Import Prelude Config Uri Streams WriteBuffer ReadBuffer Serialization Message.

Abbreviation wbuf_write := (wb_write default_block_size default_max_write_buffer_size).

(** The sink of a [write_buffer<>] with the default template arguments. *)
#[export] Instance default_wb_sink : Sink write_buffer :=
  write_buffer_sink default_block_size default_max_write_buffer_size.

(** A fresh [write_buffer<>] filled by [m], then [take()]n. *)
Definition fill_write_buffer (m : M write_buffer unit) : outcome (Z * option bytes) :=
  match m new_write_buffer with
  | (Ok _, wb) =>
      match wb_take wb with
      | (Ok (n, d), _) => Ok (n, (λ b, ztake n (b_init b)) <$> d)
      | (Throw e, _) => Throw e
      | (UB w, _) => UB w
      end
  | (Throw e, _) => Throw e
  | (UB w, _) => UB w
  end.

(** ** The client's half *)

(** [invoke]: the content of the request. *)
Definition invoke_args {A} (ca : codec A) (args : A) : outcome (Z * option bytes) :=
  fill_write_buffer (c_ser ca args).

(** Deserializing a value from the content of a message, with the URI cache
    of the running thread. *)
Definition from_content {A} (c : codec A) (size : Z) (content : option bytes) :
    M (gmap bytes uri) A := λ cache,
  let '(r, d) := c_des c (Build_dstate (new_read_buffer (cb_view size content)) cache) in
  (r, d_cache d).

(** [invoke]: what the caller gets from the response. *)
Definition invoke_result {R : Type} (cr : codec R) (resp : message) : M (gmap bytes uri) R :=
  let srm := view_sync_response resp in
  if srs_exc_id srm =? eid_none then
    from_content cr (m_content_size resp) (m_content resp)
  else if srs_exc_id srm =? eid_internal_interface_error then
    err_msg ← from_content c_string (m_content_size resp) (m_content resp);
    throw (internal_interface_error (string_of_list_ascii err_msg))
  else if srs_exc_id srm =? eid_requirement_failed then
    err_msg ← from_content c_string (m_content_size resp) (m_content resp);
    throw (requirement_failed (string_of_list_ascii err_msg))
  else throw (logic_error "Unknown exception ID").

(** ** The middleware's half *)

(** What a thread that answers requests works on: the callbacks' world, its
    URI cache and the IPC output. *)
Record server (W S : Type) := {
  sv_world : W;
  sv_cache : gmap bytes uri;
  sv_out : S
}.
Arguments sv_world {W S}.
Arguments sv_cache {W S}.
Arguments sv_out {W S}.
Arguments Build_server {W S}.

Definition set_world {W S : Type} (w : W) (s : server W S) : server W S :=
  Build_server w (sv_cache s) (sv_out s).
Definition set_sv_cache {W S : Type} (c : gmap bytes uri) (s : server W S) : server W S :=
  Build_server (sv_world s) c (sv_out s).
Definition set_out {W S : Type} (o : S) (s : server W S) : server W S :=
  Build_server (sv_world s) (sv_cache s) o.

(** An exception's message as the content of the response. *)
Definition error_content (eid : Z) (what : string) : outcome (Z * (Z * option bytes)) :=
  match fill_write_buffer (c_ser c_string (str what)) with
  | Ok content => Ok (eid, content)
  | Throw e => Throw e
  | UB y => UB y
  end.

(** The [try] block of [reply]: the callback's effects stay; its result or
    the message of one of the two known exceptions is serialized into the
    buffer.  Any other exception leaves [reply], also that of a result too
    large for the buffer. *)
Definition run_callback {R W : Type} (cr : codec R) (cb : M W R) : M W (Z * (Z * option bytes)) :=
  λ w, match cb w with
       | (Ok result, w') =>
           (match fill_write_buffer (c_ser cr result) with
            | Ok content => Ok (eid_none, content)
            | Throw e => Throw e
            | UB y => UB y
            end, w')
       | (Throw (requirement_failed e), w') => (error_content eid_requirement_failed e, w')
       | (Throw (internal_interface_error e), w') =>
           (error_content eid_internal_interface_error e, w')
       | (Throw e, w') => (Throw e, w')
       | (UB y, w') => (UB y, w')
       end.

(** [reply(req_id, msg_content, msg_content_size, ipc_out, cb)]. *)
Definition reply {A R W S : Type} `{Sink S} (ca : codec A) (cr : codec R)
    (req_id : Z) (msg_content : option bytes) (msg_content_size : Z) (cb : A → M W R) :
    M (server W S) unit :=
  args ← zoom sv_cache set_sv_cache (from_content ca msg_content_size msg_content);
  res ← zoom sv_world set_world (run_callback cr (cb args));
  resp ← message_create_pair message_type.sync_response res.1 req_id 0 res.2;
  zoom sv_out set_out (message_serialize resp).

(** ** Filling a fresh buffer *)

Abbreviation wbuf_ok := (wb_ok default_max_write_buffer_size).

(** A buffer with nothing in it owns no memory. *)
Definition wb_tight (s : write_buffer) : Prop := wb_wr_pos s = 0 → wb_data s = None.

Lemma wb_write_tight bs s s' :
  wbuf_ok s → wb_tight s → wbuf_write bs s = (Ok tt, s') →
  wbuf_ok s' → wb_contents s' = wb_contents s ++ bs → wb_tight s'.
Proof.
  intros Hok Ht Hw Hok' Hc Hz. pose proof (zlen_wb_contents _ _ Hok) as Hl.
  pose proof (zlen_wb_contents _ _ Hok') as Hl'. rewrite Hc zlen_app Hz in Hl'.
  pose proof (zlen_nonneg (wb_contents s)). pose proof (zlen_nonneg bs).
  assert (bs = []) as -> by (apply zlen_zero_nil; lia).
  assert (wb_wr_pos s = 0) as Hp by lia. specialize (Ht Hp).
  destruct s as [d p r]; simpl in *; subst. destruct Hok as (_ & _ & Hr). simpl in Hr. subst r.
  vm_compute in Hw. by simplify_eq.
Qed.

Lemma wb_chunks_ok cs s :
  wbuf_ok s → wb_tight s → wb_wr_pos s + zlen (concat cs) <= default_max_write_buffer_size →
  ∃ s', for_each cs wbuf_write s = (Ok tt, s') ∧ wbuf_ok s' ∧ wb_tight s' ∧
    wb_contents s' = wb_contents s ++ concat cs.
Proof.
  revert s. induction cs as [|c cs IH]; intros s Hok Ht Hfit; simpl.
  { exists s. by rewrite app_nil_r. }
  simpl in Hfit. rewrite zlen_app in Hfit. pose proof (zlen_nonneg (concat cs)).
  destruct (wb_write_ok default_block_size default_max_write_buffer_size ltac:(reflexivity)
    ltac:(reflexivity) c s Hok ltac:(lia)) as (s1 & H1 & Hok1 & Hc1 & _).
  pose proof (zlen_wb_contents _ _ Hok) as Hl. pose proof (zlen_wb_contents _ _ Hok1) as Hl1.
  rewrite Hc1 zlen_app in Hl1.
  destruct (IH s1 Hok1) as (s2 & H2 & Hok2 & Ht2 & Hc2); [exact (wb_write_tight c s s1 Hok Ht H1 Hok1 Hc1)|lia|].
  exists s2. step_ok H1. rewrite H2. split_and!; [done..|]. by rewrite Hc2 Hc1 -app_assoc.
Qed.

(** The content a byte string makes: no pointer for no bytes. *)
Definition content_of (e : bytes) : option bytes :=
  match e with [] => None | _ => Some e end.

Lemma fill_emits (m : M write_buffer unit) e :
  emits m e → zlen e <= default_max_write_buffer_size →
  fill_write_buffer m = Ok (zlen e, content_of e).
Proof.
  intros (cs & <- & Hm) Hl. rewrite /fill_write_buffer Hm.
  destruct (wb_chunks_ok cs new_write_buffer) as (s' & Hs & Hok & Ht & Hc);
    [by apply new_write_buffer_ok; rewrite ?/default_max_write_buffer_size|done|done|].
  change (for_each cs sink_write) with (for_each cs wbuf_write). rewrite Hs.
  pose proof (zlen_wb_contents _ _ Hok) as Hlen. rewrite Hc /= in Hlen. simpl in Hc.
  rewrite /wb_take /mbind /M_bind /get /=. rewrite /wb_size -Hlen. f_equal. f_equal.
  rewrite /wb_contents in Hc. destruct (wb_data s') as [b|] eqn:Hd; simpl in *.
  - rewrite Hlen Hc. destruct (concat cs) as [|x l] eqn:E; [|done].
    rewrite zlen_nil in Hlen. by rewrite Ht in Hd.
  - by rewrite -Hc.
Qed.

Lemma content_size_create (e : bytes) :
  zlen e <= default_max_write_buffer_size →
  (zlen e <? 2 ^ 32 - 1) = true ∧ u32 (zlen e) = zlen e.
Proof.
  rewrite /default_max_write_buffer_size. intros. pose proof (zlen_nonneg e). split; [lia|].
  apply uwrap_small. rewrite /fits. lia.
Qed.

(** Reading a value back from such a content. *)
Lemma from_content_ok {A} (c : codec A) enc rep `{!CodecSpec c enc rep} (x : A) cache :
  rep x → zlen (enc x) <= default_max_write_buffer_size → cache_ok cache →
  ∃ cache', from_content c (zlen (enc x)) (content_of (enc x)) cache = (Ok x, cache') ∧
    cache_ok cache'.
Proof.
  rewrite /default_max_write_buffer_size. intros Hx Hl Hc. rewrite /from_content.
  pose proof (zlen_nonneg (enc x)).
  destruct (des_spec read_buffer (c := c) x Hx []
    (Build_dstate (new_read_buffer (cb_view (zlen (enc x)) (content_of (enc x)))) cache))
    as (d' & -> & [_ Hd] & _).
  - split; [|done]. simpl. rewrite /rb_ok /=. split_and!; try lia. by destruct (enc x).
  - rewrite app_nil_r. simpl. rewrite /rb_rest /=. by destruct (enc x).
  - simpl source_limit. lia.
  - by exists (d_cache d').
Qed.

(** ** The theorem *)

(** The outcomes a remote call can carry. *)
Definition portable {R : Type} (er : R → bytes) (rr : R → Prop) (o : outcome R) : Prop :=
  match o with
  | Ok r => rr r ∧ zlen (er r) <= default_max_write_buffer_size
  | Throw (requirement_failed e) | Throw (internal_interface_error e) =>
      rep_string (str e) ∧ zlen (enc_string (str e)) <= default_max_write_buffer_size
  | _ => False
  end.

(** The response to request [req_id] for outcome [o]. *)
Definition response {R : Type} (er : R → bytes) (req_id : Z) (o : outcome R) : message :=
  let '(eid, e) := match o with
                   | Ok r => (eid_none, er r)
                   | Throw (requirement_failed e) => (eid_requirement_failed, enc_string (str e))
                   | Throw (internal_interface_error e) =>
                       (eid_internal_interface_error, enc_string (str e))
                   | _ => (eid_none, [])
                   end in
  {| m_type := message_type.sync_response; m_field1 := eid; m_field2 := req_id; m_field3 := 0;
     m_content_size := zlen e; m_content := content_of e |}.

Lemma string_bytes_string e : string_of_list_ascii (str e) = e.
Proof. apply string_of_list_ascii_of_string. Qed.

Lemma error_content_ok eid e :
  rep_string (str e) → zlen (enc_string (str e)) <= default_max_write_buffer_size →
  error_content eid e = Ok (eid, (zlen (enc_string (str e)), content_of (enc_string (str e)))).
Proof.
  intros He Hl. rewrite /error_content.
  by rewrite (fill_emits _ (enc_string (str e)) (ser_spec write_buffer (c := c_string) _ He)).
Qed.

(** The response message passes the checks of [message::create]. *)
Lemma create_response {S} eid req_id e (s : S) :
  zlen e <= default_max_write_buffer_size →
  message_create_pair message_type.sync_response eid req_id 0 (zlen e, content_of e) s =
  (Ok {| m_type := message_type.sync_response; m_field1 := eid; m_field2 := req_id;
         m_field3 := 0; m_content_size := zlen e; m_content := content_of e |}, s).
Proof.
  intros Hl. destruct (content_size_create e Hl) as [H1 H2].
  rewrite /message_create_pair /message_create. simpl fst. simpl snd. rewrite H1 H2.
  destruct e as [|c e]; [done|].
  rewrite bool_decide_true; [done|]. rewrite (proj2 (Z.ltb_lt 0 _)); [|done].
  rewrite zlen_cons. pose proof (zlen_nonneg e). lia.
Qed.

Lemma run_callback_ok {R W : Type} (cr : codec R) er rr `{!CodecSpec cr er rr} (cb : M W R) o w w' :
  cb w = (o, w') → portable er rr o →
  run_callback cr cb w =
    (Ok (m_field1 (response er 0 o), (m_content_size (response er 0 o), m_content (response er 0 o))), w')
  ∧ m_content_size (response er 0 o) <= default_max_write_buffer_size.
Proof.
  intros Hcb Hp. rewrite /run_callback Hcb. destruct o as [r|[]|]; try done; destruct Hp as [Hr Hl].
  - by rewrite (fill_emits _ (er r) (ser_spec write_buffer (c := cr) _ Hr)).
  - by rewrite error_content_ok.
  - by rewrite error_content_ok.
Qed.

Lemma invoke_result_ok {R : Type} (cr : codec R) er rr `{!CodecSpec cr er rr} req_id o cache :
  portable er rr o → cache_ok cache →
  ∃ cache', invoke_result cr (response er req_id o) cache = (o, cache').
Proof.
  intros Hp Hc. destruct o as [r|[]|]; try done; destruct Hp as [Hr Hl].
  - destruct (from_content_ok cr er rr r cache Hr Hl Hc) as (c' & Hf & _). by exists c'.
  - destruct (from_content_ok c_string enc_string rep_string (str what) cache Hr Hl Hc)
      as (c' & Hf & _). exists c'. rewrite /invoke_result /=. step_ok Hf.
    by rewrite string_bytes_string.
  - destruct (from_content_ok c_string enc_string rep_string (str what) cache Hr Hl Hc)
      as (c' & Hf & _). exists c'. rewrite /invoke_result /=. step_ok Hf.
    by rewrite string_bytes_string.
Qed.

Lemma response_rep {R : Type} (er : R → bytes) rr req_id o :
  portable er rr o → 0 <= req_id < 2 ^ 32 → rep_message (response er req_id o).
Proof.
  intros Hp Hid.
  assert (∀ eid e, 0 <= eid < 3 → zlen e <= default_max_write_buffer_size →
    rep_message {| m_type := message_type.sync_response; m_field1 := eid; m_field2 := req_id;
      m_field3 := 0; m_content_size := zlen e; m_content := content_of e |}) as Hgen.
  { rewrite /default_max_write_buffer_size. intros eid e Heid Hl. pose proof (zlen_nonneg e).
    rewrite /rep_message. cbn [m_type m_field1 m_field2 m_field3 m_content_size m_content].
    split_and!; try done; try lia; destruct e as [|c e]; done. }
  destruct o as [r|[]|]; try done; destruct Hp as [_ Hl]; by apply Hgen.
Qed.

(** The middleware's half writes exactly the response of the outcome. *)
Lemma reply_ok {A R W S : Type} `{Sink S} (ca : codec A) (cr : codec R)
    (ea : A → bytes) (ra : A → Prop) (er : R → bytes) (rr : R → Prop)
    `{!CodecSpec ca ea ra} `{!CodecSpec cr er rr}
    (args : A) (cb : A → M W R) (req_id : Z) (o : outcome R) (w w' : W) (out : S) (cache : gmap bytes uri) :
  ra args → zlen (ea args) <= default_max_write_buffer_size → cache_ok cache →
  cb args w = (o, w') → portable er rr o →
  ∃ cache', cache_ok cache' ∧
    reply ca cr req_id (content_of (ea args)) (zlen (ea args)) cb (Build_server w cache out) =
      ((message_serialize (response er req_id o) out).1,
       Build_server w' cache' (message_serialize (response er req_id o) out).2).
Proof.
  intros Ha Hla Hc Hcb Hp. destruct (from_content_ok ca ea ra args cache Ha Hla Hc) as (c' & Hfrom & Hc').
  destruct (run_callback_ok cr er rr (cb args) o w w' Hcb Hp) as [Hrun Hsz].
  exists c'. split; [done|]. set (resp := response er req_id o) in *.
  assert (message_create_pair message_type.sync_response (m_field1 (response er 0 o)) req_id 0
    (m_content_size (response er 0 o), m_content (response er 0 o))
    (Build_server w' c' out) = (Ok resp, Build_server w' c' out)) as Hcreate.
  { destruct o as [r|[]|]; try done; by apply create_response. }
  rewrite /reply /zoom. cbn [fst snd]. rewrite {1}/mbind /M_bind Hfrom.
  rewrite {1}/mbind /M_bind. cbn [sv_world set_sv_cache]. rewrite Hrun.
  rewrite {1}/mbind /M_bind. cbn [fst snd set_world sv_cache sv_out]. rewrite Hcreate.
  cbn [sv_out]. by destruct (message_serialize resp out) as [r' o'].
Qed.

Lemma message_create_pair_state {S} t f1 f2 f3 ct (s : S) : (message_create_pair t f1 f2 f3 ct s).2 = s.
Proof.
  rewrite /message_create_pair /message_create /require. destruct (ct.1 <? _); [|done].
  cbn. by destruct (bool_decide _ && _ || _).
Qed.

(** Whatever the outcome, the callback ran once on the arguments. *)
Lemma reply_world {A R W S : Type} `{Sink S} (ca : codec A) (cr : codec R)
    (ea : A → bytes) (ra : A → Prop) `{!CodecSpec ca ea ra}
    (args : A) (cb : A → M W R) (req_id : Z) (w : W) (out : S) (cache : gmap bytes uri) :
  ra args → zlen (ea args) <= default_max_write_buffer_size → cache_ok cache →
  sv_world (reply ca cr req_id (content_of (ea args)) (zlen (ea args)) cb (Build_server w cache out)).2 =
  (cb args w).2 ∧
  cache_ok (sv_cache (reply ca cr req_id (content_of (ea args)) (zlen (ea args)) cb (Build_server w cache out)).2).
Proof.
  intros Ha Hla Hc. destruct (from_content_ok ca ea ra args cache Ha Hla Hc) as (c' & Hfrom & Hc').
  rewrite /reply /zoom {1 4}/mbind /M_bind. cbn [sv_cache]. rewrite Hfrom {1 3}/mbind /M_bind. cbn [sv_world set_sv_cache].
  assert ((run_callback cr (cb args) w).2 = (cb args w).2) as <-.
  { rewrite /run_callback. by destruct (cb args w) as [[|[]|] w']. }
  destruct (run_callback cr (cb args) w) as [[res|e|y] w']; [|done..].
  rewrite {1 2}/mbind /M_bind. set (sv := set_world w' _).
  pose proof (message_create_pair_state message_type.sync_response res.1 req_id 0 res.2 sv) as E.
  destruct (message_create_pair _ _ _ _ _ sv) as [[resp|e|y] sv']; cbn in E; subst sv'; [|done..].
  by destruct (message_serialize resp (sv_out sv)).
Qed.

(** A remote call behaves like the local one.  For any function whose
    argument and result types have lawful codecs, let the callback, run on
    the deserialized arguments, end in outcome [o] (a result, a failed
    requirement or an internal interface error).  Then the request is sent,
    the middleware runs the callback exactly once on exactly the given
    arguments, writes one well-formed response with the request's id, and
    the client's [invoke] ends in the same outcome [o]. *)
Theorem rpc_roundtrip {A R W S : Type} `{Sink S} (ca : codec A) (cr : codec R)
    (ea : A → bytes) (ra : A → Prop) (er : R → bytes) (rr : R → Prop)
    (ca_spec : CodecSpec ca ea ra) (cr_spec : CodecSpec cr er rr)
    (args : A) (cb : A → M W R) (req_id : Z) (o : outcome R) (w w' : W) (out : S)
    (cache client_cache : gmap bytes uri) :
  ra args → zlen (ea args) <= default_max_write_buffer_size → 0 <= req_id < 2 ^ 32 →
  cache_ok cache → cache_ok client_cache →
  cb args w = (o, w') → portable er rr o →
  ∃ content resp sv client_cache',
    invoke_args ca args = Ok content ∧
    reply ca cr req_id content.2 content.1 cb (Build_server w cache out) =
      ((message_serialize resp out).1, sv) ∧
    sv_world sv = w' ∧ sv_out sv = (message_serialize resp out).2 ∧
    rep_message resp ∧ m_type resp = message_type.sync_response ∧
    srs_req_id (view_sync_response resp) = req_id ∧
    invoke_result cr resp client_cache = (o, client_cache').
Proof.
  intros Ha Hla Hid Hc Hcc Hcb Hp.
  destruct (reply_ok ca cr ea ra er rr args cb req_id o w w' out cache Ha Hla Hc Hcb Hp) as (c' & _ & Hreply).
  destruct (invoke_result_ok cr er rr req_id o client_cache Hp Hcc) as (cc' & Hinv).
  exists (zlen (ea args), content_of (ea args)), (response er req_id o),
    (Build_server w' c' (message_serialize (response er req_id o) out).2), cc'.
  split; [apply fill_emits; [apply (ser_spec write_buffer (c := ca)); done|done]|].
  split; [exact Hreply|].
  split_and!; try done; [by apply (response_rep er rr)|by destruct o as [?|[]|]|by destruct o as [?|[]|]].
Qed.

(** A callback that counts its calls and rejects unknown sockets. *)
Definition sample_callback (sid : Z) : M Z bytes :=
  modify (Z.add 1) ;; require (sid <? 3) "No such socket" ;; mret (str "ok").

Lemma rpc_roundtrip_witness :
  ∃ content resp sv cc,
    invoke_args c_u32 7 = Ok content ∧
    reply c_u32 c_string 42 content.2 content.1 sample_callback (Build_server 0 ∅ empty_log) =
      ((message_serialize resp empty_log).1, sv) ∧
    sv_world sv = 1 ∧ srs_req_id (view_sync_response resp) = 42 ∧
    invoke_result c_string resp ∅ = (Throw (requirement_failed "No such socket"), cc).
Proof.
  destruct (rpc_roundtrip (S:=log_sink) c_u32 c_string (le_bytes 4) (λ v, 0 <= v < 256 ^ Z.of_nat 4)
    enc_string rep_string _ _ 7 sample_callback 42 (Throw (requirement_failed "No such socket"))
    0 1 empty_log ∅ ∅) as (content & resp & sv & cc & H1 & H2 & H3 & _ & _ & _ & H4 & H5).
  - vm_compute. split; [discriminate|reflexivity].
  - vm_compute. discriminate.
  - lia.
  - split; [done|]. vm_compute. lia.
  - split; [done|]. vm_compute. lia.
  - reflexivity.
  - split; [|vm_compute; discriminate]. split; [|vm_compute; reflexivity].
    apply (bool_decide_unpack _). vm_compute. exact I.
  - exists content, resp, sv, cc. split_and!; [exact H1|exact H2|exact H3|exact H4|exact H5].
Defined.
