(* ===== verification/Dispatcher.v ===== *)
(** * The functions of the API

    [ipc/api.hpp]: the functions a client can call, and the dispatcher that
    maps a function id to the callback of the process that answers (a session
    of the middleware, or the channel that has the middleware built in). The
    theorem follows a call from the client's functor through the dispatcher
    and back. *)

From S2P Require Import Prelude Config Uri Streams WriteBuffer ReadBuffer Serialization Message SyncFunction.

(** ** The callbacks

    The function objects of a [sync_function_dispatcher], on the state [W] of
    the process that answers. *)
Record callbacks (W : Type) := {
  m_get_is_img_flag : M W bool;
  m_set_is_img_flag : bool → M W unit;
  m_cr_sock_stream : Z → uri → M W Z;
  m_get_sock_ifs : Z → M W (list Z);
  m_designated_host : Z → uri → M W bool;
  m_add_sock_if : Z → Z → M W unit;
  m_rm_sock_if : Z → Z → M W unit;
  m_set_sock_ifs : Z → list Z → M W unit;
  m_neighbor_set : Z → M W (list uri);
  m_children_set : Z → uri → M W (list uri);
  m_get_ifs : M W (list interface_property);
  m_cr_sock : M W Z;
  m_rm_sock : Z → M W unit;
  m_parent_set : Z → uri → M W (list uri);
  m_group_set : Z → M W (list (uri * Z));
  m_set_ttl : Z → Z → M W unit;
  m_leave : Z → uri → M W unit;
  m_join : Z → uri → M W unit;
  m_enable_events : M W unit;
  m_disable_events : M W unit;
  m_get_atomic_msg_size : Z → M W Z
}.
Arguments m_get_is_img_flag {W}.
Arguments m_set_is_img_flag {W}.
Arguments m_cr_sock_stream {W}.
Arguments m_get_sock_ifs {W}.
Arguments m_designated_host {W}.
Arguments m_add_sock_if {W}.
Arguments m_rm_sock_if {W}.
Arguments m_set_sock_ifs {W}.
Arguments m_neighbor_set {W}.
Arguments m_children_set {W}.
Arguments m_get_ifs {W}.
Arguments m_cr_sock {W}.
Arguments m_rm_sock {W}.
Arguments m_parent_set {W}.
Arguments m_group_set {W}.
Arguments m_set_ttl {W}.
Arguments m_leave {W}.
Arguments m_join {W}.
Arguments m_enable_events {W}.
Arguments m_disable_events {W}.
Arguments m_get_atomic_msg_size {W}.

(** ** The dispatcher *)

Section dispatcher.
Context {W S : Type} `{Sink S} (cbs : callbacks W).

(** [sync_function_dispatcher::invoke]: the switch over the function ids,
    with the types of the functions. *)
Definition dispatch_to (fid rid : Z) (content : option bytes) (content_size : Z) : M (server W S) unit :=
  match function_id_of fid with
  | Some fid_get_is_img_flag =>
      reply c_unit c_bool rid content content_size (λ _, m_get_is_img_flag cbs)
  | Some fid_set_is_img_flag =>
      reply c_bool c_unit rid content content_size (m_set_is_img_flag cbs)
  | Some fid_create_socket =>
      reply c_unit c_u32 rid content content_size (λ _, m_cr_sock cbs)
  | Some fid_delete_socket =>
      reply c_u32 c_unit rid content content_size (m_rm_sock cbs)
  | Some fid_create_send_stream =>
      reply (c_pair c_u32 c_uri) c_u16 rid content content_size (λ a, m_cr_sock_stream cbs a.1 a.2)
  | Some fid_join =>
      reply (c_pair c_u32 c_uri) c_unit rid content content_size (λ a, m_join cbs a.1 a.2)
  | Some fid_leave =>
      reply (c_pair c_u32 c_uri) c_unit rid content content_size (λ a, m_leave cbs a.1 a.2)
  | Some fid_set_ttl =>
      reply (c_pair c_u32 c_u8) c_unit rid content content_size (λ a, m_set_ttl cbs a.1 a.2)
  | Some fid_get_sock_interfaces =>
      reply c_u32 (c_vector c_u32) rid content content_size (m_get_sock_ifs cbs)
  | Some fid_add_sock_interface =>
      reply (c_pair c_u32 c_u32) c_unit rid content content_size (λ a, m_add_sock_if cbs a.1 a.2)
  | Some fid_del_sock_interface =>
      reply (c_pair c_u32 c_u32) c_unit rid content content_size (λ a, m_rm_sock_if cbs a.1 a.2)
  | Some fid_set_sock_interfaces =>
      reply (c_pair c_u32 (c_vector c_u32)) c_unit rid content content_size
        (λ a, m_set_sock_ifs cbs a.1 a.2)
  | Some fid_get_interfaces =>
      reply c_unit (c_vector c_interface_property) rid content content_size (λ _, m_get_ifs cbs)
  | Some fid_group_set =>
      reply c_u32 (c_vector (c_pair c_uri c_u32)) rid content content_size (m_group_set cbs)
  | Some fid_neighbor_set =>
      reply c_u32 (c_vector c_uri) rid content content_size (m_neighbor_set cbs)
  | Some fid_children_set =>
      reply (c_pair c_u32 c_uri) (c_vector c_uri) rid content content_size
        (λ a, m_children_set cbs a.1 a.2)
  | Some fid_parent_set =>
      reply (c_pair c_u32 c_uri) (c_vector c_uri) rid content content_size
        (λ a, m_parent_set cbs a.1 a.2)
  | Some fid_designated_host =>
      reply (c_pair c_u32 c_uri) c_bool rid content content_size (λ a, m_designated_host cbs a.1 a.2)
  | Some fid_enable_events =>
      reply c_unit c_unit rid content content_size (λ _, m_enable_events cbs)
  | Some fid_disable_events =>
      reply c_unit c_unit rid content content_size (λ _, m_disable_events cbs)
  | Some fid_get_atomic_msg_size =>
      reply c_u32 c_u32 rid content content_size (m_get_atomic_msg_size cbs)
  | None => throw (requirement_failed "Invalid function ID")
  end.

(** [invoke] of a request message. *)
Definition invoke_msg (msg : message) : M (server W S) unit :=
  require (m_type msg =? message_type.sync_request) "msg && msg->type() == sync_request" ;;
  let srm := view_sync_request msg in
  dispatch_to (srq_fun_id srm) (srq_req_id srm) (m_content msg) (m_content_size msg).
End dispatcher.

(** ** The functors

    The functions by their argument and result types. *)
Inductive api_fn : Type → Type → Type :=
  | set_is_img_flag : api_fn bool unit
  | get_is_img_flag : api_fn unit bool
  | create_socket : api_fn unit Z
  | delete_socket : api_fn Z unit
  | create_send_stream : api_fn (Z * uri) Z
  | api_join : api_fn (Z * uri) unit
  | api_leave : api_fn (Z * uri) unit
  | set_ttl : api_fn (Z * Z) unit
  | get_sock_interfaces : api_fn Z (list Z)
  | add_sock_interface : api_fn (Z * Z) unit
  | del_sock_interface : api_fn (Z * Z) unit
  | get_interfaces : api_fn unit (list interface_property)
  | api_group_set : api_fn Z (list (uri * Z))
  | api_neighbor_set : api_fn Z (list uri)
  | api_children_set : api_fn (Z * uri) (list uri)
  | api_parent_set : api_fn (Z * uri) (list uri)
  | api_designated_host : api_fn (Z * uri) bool
  | set_sock_interfaces : api_fn (Z * list Z) unit
  | api_enable_events : api_fn unit unit
  | api_disable_events : api_fn unit unit
  | get_atomic_msg_size : api_fn Z Z.

(** The function the dispatcher serves under this name. *)
Definition fn_id {A R} (f : api_fn A R) : function_id :=
  match f with
  | set_is_img_flag => fid_set_is_img_flag
  | get_is_img_flag => fid_get_is_img_flag
  | create_socket => fid_create_socket
  | delete_socket => fid_delete_socket
  | create_send_stream => fid_create_send_stream
  | api_join => fid_join
  | api_leave => fid_leave
  | set_ttl => fid_set_ttl
  | get_sock_interfaces => fid_get_sock_interfaces
  | add_sock_interface => fid_add_sock_interface
  | del_sock_interface => fid_del_sock_interface
  | get_interfaces => fid_get_interfaces
  | api_group_set => fid_group_set
  | api_neighbor_set => fid_neighbor_set
  | api_children_set => fid_children_set
  | api_parent_set => fid_parent_set
  | api_designated_host => fid_designated_host
  | set_sock_interfaces => fid_set_sock_interfaces
  | api_enable_events => fid_enable_events
  | api_disable_events => fid_disable_events
  | get_atomic_msg_size => fid_get_atomic_msg_size
  end.

(** The function id in the type of each functor: the one of [disable_events]
    is that of [enable_events]. *)
Definition functor_fid (f : function_id) : function_id :=
  match f with
  | fid_disable_events => fid_enable_events
  | f => f
  end.

(** Codecs with their encodings and their values. *)
Record typed_codec (A : Type) := {
  tc_codec : codec A;
  tc_enc : A → bytes;
  tc_rep : A → Prop;
  tc_spec : CodecSpec tc_codec tc_enc tc_rep
}.
Arguments tc_codec {A}.
Arguments tc_enc {A}.
Arguments tc_rep {A}.
Arguments tc_spec {A}.
#[export] Existing Instance tc_spec.

Definition t_unit : typed_codec unit := Build_typed_codec _ c_unit _ _ _.
Definition t_bool : typed_codec bool := Build_typed_codec _ c_bool _ _ _.
Definition t_u8 : typed_codec Z := Build_typed_codec _ c_u8 _ _ (c_int_spec 1).
Definition t_u16 : typed_codec Z := Build_typed_codec _ c_u16 _ _ (c_int_spec 2).
Definition t_u32 : typed_codec Z := Build_typed_codec _ c_u32 _ _ (c_int_spec 4).
Definition t_uri : typed_codec uri := Build_typed_codec _ c_uri _ _ _.
Definition t_property : typed_codec interface_property := Build_typed_codec _ c_interface_property _ _ _.
Definition t_pair {A B} (a : typed_codec A) (b : typed_codec B) : typed_codec (A * B) :=
  Build_typed_codec _ (c_pair (tc_codec a) (tc_codec b)) _ _ (c_pair_spec _ _ _ _ _ _ (tc_spec a) (tc_spec b)).
Definition t_vector {A} (a : typed_codec A) : typed_codec (list A) :=
  Build_typed_codec _ (c_vector (tc_codec a)) _ _ (c_vector_spec _ _ _ (tc_spec a)).

(** The types in the [typedef]s of the functors. *)
Definition args_of {A R} (f : api_fn A R) : typed_codec A :=
  match f with
  | set_is_img_flag => t_bool
  | get_is_img_flag | create_socket | get_interfaces | api_enable_events | api_disable_events => t_unit
  | delete_socket | get_sock_interfaces | api_group_set | api_neighbor_set | get_atomic_msg_size => t_u32
  | create_send_stream | api_join | api_leave | api_children_set | api_parent_set
  | api_designated_host => t_pair t_u32 t_uri
  | set_ttl => t_pair t_u32 t_u8
  | add_sock_interface | del_sock_interface => t_pair t_u32 t_u32
  | set_sock_interfaces => t_pair t_u32 (t_vector t_u32)
  end.
Definition result_of {A R} (f : api_fn A R) : typed_codec R :=
  match f with
  | set_is_img_flag | delete_socket | api_join | api_leave | set_ttl | add_sock_interface
  | del_sock_interface | set_sock_interfaces | api_enable_events | api_disable_events => t_unit
  | get_is_img_flag | api_designated_host => t_bool
  | create_socket | get_atomic_msg_size => t_u32
  | create_send_stream => t_u16
  | get_sock_interfaces => t_vector t_u32
  | get_interfaces => t_vector t_property
  | api_group_set => t_vector (t_pair t_uri t_u32)
  | api_neighbor_set | api_children_set | api_parent_set => t_vector t_uri
  end.

(** The callback of a function. *)
Definition callback {W A R : Type} (cbs : callbacks W) (f : api_fn A R) : A → M W R :=
  match f with
  | set_is_img_flag => m_set_is_img_flag cbs
  | get_is_img_flag => λ _, m_get_is_img_flag cbs
  | create_socket => λ _, m_cr_sock cbs
  | delete_socket => m_rm_sock cbs
  | create_send_stream => λ a, m_cr_sock_stream cbs a.1 a.2
  | api_join => λ a, m_join cbs a.1 a.2
  | api_leave => λ a, m_leave cbs a.1 a.2
  | set_ttl => λ a, m_set_ttl cbs a.1 a.2
  | get_sock_interfaces => m_get_sock_ifs cbs
  | add_sock_interface => λ a, m_add_sock_if cbs a.1 a.2
  | del_sock_interface => λ a, m_rm_sock_if cbs a.1 a.2
  | get_interfaces => λ _, m_get_ifs cbs
  | api_group_set => m_group_set cbs
  | api_neighbor_set => m_neighbor_set cbs
  | api_children_set => λ a, m_children_set cbs a.1 a.2
  | api_parent_set => λ a, m_parent_set cbs a.1 a.2
  | api_designated_host => λ a, m_designated_host cbs a.1 a.2
  | set_sock_interfaces => λ a, m_set_sock_ifs cbs a.1 a.2
  | api_enable_events => λ _, m_enable_events cbs
  | api_disable_events => λ _, m_disable_events cbs
  | get_atomic_msg_size => m_get_atomic_msg_size cbs
  end.

(** The message a functor's [invoke] leads to. *)
Definition request_message {A R} (f : api_fn A R) (rid : Z) (content : Z * option bytes) : message :=
  {| m_type := message_type.sync_request; m_field1 := function_id_value (functor_fid (fn_id f));
     m_field2 := rid; m_field3 := 0; m_content_size := content.1; m_content := content.2 |}.

Lemma dispatch_fn {W S A R : Type} `{Sink S} (cbs : callbacks W) (f : api_fn A R) rid content size :
  dispatch_to (S:=S) cbs (function_id_value (fn_id f)) rid content size =
  reply (tc_codec (args_of f)) (tc_codec (result_of f)) rid content size (callback cbs f).
Proof. by destruct f. Qed.

(** C1: Every function of the API but [disable_events] calls its own
    callback.  Let the callback of a function, run on the given arguments,
    end in [o] (a result, a failed requirement or an internal interface
    error).  Then the client's functor builds a request, the dispatcher of
    the answering process runs exactly that callback on exactly these
    arguments and writes one well-formed response with the id of the request,
    and the functor ends in [o]. *)
Theorem api_call_roundtrip {W S A R : Type} `{Sink S} (cbs : callbacks W) (f : api_fn A R)
    (args : A) (rid : Z) (o : outcome R) (w w' : W) (out : S) (cache client_cache : gmap bytes uri) :
  fn_id f ≠ fid_disable_events →
  tc_rep (args_of f) args → zlen (tc_enc (args_of f) args) <= default_max_write_buffer_size →
  0 <= rid < 2 ^ 32 → cache_ok cache → cache_ok client_cache →
  callback cbs f args w = (o, w') → portable (tc_enc (result_of f)) (tc_rep (result_of f)) o →
  ∃ content resp sv client_cache',
    invoke_args (tc_codec (args_of f)) args = Ok content ∧
    invoke_msg cbs (request_message f rid content) (Build_server w cache out) =
      ((message_serialize resp out).1, sv) ∧
    sv_world sv = w' ∧ sv_out sv = (message_serialize resp out).2 ∧
    rep_message resp ∧ m_type resp = message_type.sync_response ∧
    srs_req_id (view_sync_response resp) = rid ∧
    invoke_result (tc_codec (result_of f)) resp client_cache = (o, client_cache').
Proof.
  intros Hf Ha Hl Hid Hc Hcc Hcb Hp.
  destruct (rpc_roundtrip (tc_codec (args_of f)) (tc_codec (result_of f)) _ _ _ _ (tc_spec (args_of f))
    (tc_spec (result_of f)) args (callback cbs f) rid o w w' out cache client_cache Ha Hl Hid Hc Hcc Hcb Hp)
    as (content & resp & sv & cc' & H1 & H2 & Hrest).
  exists content, resp, sv, cc'. split; [done|]. split; [|exact Hrest].
  rewrite -H2 /invoke_msg /=. rewrite {1}/mbind /M_bind /=.
  assert (functor_fid (fn_id f) = fn_id f) as -> by (by destruct (fn_id f)).
  by rewrite dispatch_fn.
Qed.

(** A process that knows sockets below three and records the groups joined. *)
Definition sample_callbacks : callbacks (list (Z * bytes)) := {|
  m_get_is_img_flag := mret false; m_set_is_img_flag _ := mret tt;
  m_cr_sock_stream _ _ := mret 0; m_get_sock_ifs _ := mret [];
  m_designated_host _ _ := mret false; m_add_sock_if _ _ := mret tt; m_rm_sock_if _ _ := mret tt;
  m_set_sock_ifs _ _ := mret tt; m_neighbor_set _ := mret []; m_children_set _ _ := mret [];
  m_get_ifs := mret []; m_cr_sock := mret 0; m_rm_sock _ := mret tt; m_parent_set _ _ := mret [];
  m_group_set _ := mret []; m_set_ttl _ _ := mret tt; m_leave _ _ := mret tt;
  m_join sid group := require (sid <? 3) "No such socket" ;; modify (λ l, l ++ [(sid, uri_str group)]);
  m_enable_events := mret tt; m_disable_events := mret tt; m_get_atomic_msg_size _ := mret 0
|}.

Definition sample_join_args : Z * uri := (2, uri_of (str "ham:ip:239.0.0.1")).

Lemma sample_join_rep : tc_rep (args_of api_join) sample_join_args.
Proof.
  split; [vm_compute; split; [discriminate|reflexivity]|]. split; [by vm_compute|].
  apply (bool_decide_unpack _). by vm_compute.
Qed.

Lemma api_call_roundtrip_witness :
  ∃ content resp sv cc,
    invoke_args (tc_codec (args_of api_join)) sample_join_args = Ok content ∧
    invoke_msg sample_callbacks (request_message api_join 42 content) (Build_server [] ∅ empty_log) =
      ((message_serialize resp empty_log).1, sv) ∧
    sv_world sv = [(2, str "ham:ip:239.0.0.1")] ∧
    invoke_result (tc_codec (result_of api_join)) resp ∅ = (Ok tt, cc).
Proof.
  destruct (api_call_roundtrip (S:=log_sink) sample_callbacks api_join sample_join_args 42 (Ok tt) []
    [(2, str "ham:ip:239.0.0.1")] empty_log ∅ ∅) as (content & resp & sv & cc & H1 & H2 & H3 & _ & _ & _ & _ & H5).
  - discriminate.
  - exact sample_join_rep.
  - vm_compute. discriminate.
  - lia.
  - split; [done|]. vm_compute. lia.
  - split; [done|]. vm_compute. lia.
  - vm_compute. reflexivity.
  - split; [exact I|]. vm_compute. discriminate.
  - exists content, resp, sv, cc. split_and!; [exact H1|exact H2|exact H3|exact H5].
Defined.
