(* ===== verification/UriMappings.v ===== *)
(** * URI mappings

    [util::uri_mappings] ([util/uri_mappings.hpp]): the two maps between
    group names and the technology-specific names a module maps them to.
    A [std::map] keyed by [uri] compares the URI strings, so a key is the
    string.  Every public operation runs under the mutex (the functor lookup
    holds the upgrade lock from its first lookup to its insertion), so it is
    one atomic step of the model. *)

From S2P Require Import Prelude Uri.

Record uri_mappings := {
  um_forward : gmap bytes uri;
  um_reverse : gmap bytes uri
}.

Definition new_uri_mappings : uri_mappings := {| um_forward := ∅; um_reverse := ∅ |}.

Definition um_set_forward (m : gmap bytes uri) (s : uri_mappings) : uri_mappings :=
  {| um_forward := m; um_reverse := um_reverse s |}.
Definition um_set_reverse (m : gmap bytes uri) (s : uri_mappings) : uri_mappings :=
  {| um_forward := um_forward s; um_reverse := m |}.

(** [std::map::insert]: an existing entry stays. *)
Definition map_emplace (k : bytes) (v : uri) (m : gmap bytes uri) : gmap bytes uri :=
  match m !! k with Some _ => m | None => <[k := v]> m end.

(** [lookup(where, what)]: the empty URI when there is no entry. *)
Definition um_lookup (where_ : gmap bytes uri) (what : uri) : uri :=
  default uri_default (where_ !! uri_str what).

Definition forward_lookup (what : uri) (s : uri_mappings) : uri := um_lookup (um_forward s) what.
Definition reverse_lookup (what : uri) (s : uri_mappings) : uri := um_lookup (um_reverse s) what.

(** [forward_lookup(what, mf)] with the module's mapping function. *)
Definition forward_lookup_map (mf : uri → uri) (what : uri) : M uri_mappings uri :=
  s ← get;
  match um_forward s !! uri_str what with
  | Some m => mret m
  | None =>
      let mapped := mf what in
      require (negb (uri_empty mapped)) "!mapped.empty()" ;;
      require (bool_decide (um_reverse s !! uri_str mapped = None))
        "m_reverse_map.count(mapped) == 0" ;;
      modify (λ s, um_set_forward (map_emplace (uri_str what) mapped (um_forward s)) s) ;;
      modify (λ s, um_set_reverse (map_emplace (uri_str mapped) what (um_reverse s)) s) ;;
      mret mapped
  end.

Definition um_empty (s : uri_mappings) : bool := bool_decide (um_forward s = ∅).

Definition um_clear : M uri_mappings unit :=
  modify (um_set_forward ∅) ;; modify (um_set_reverse ∅).

(** [erase(what, first, second)], with the maps in the two orders. *)
Definition forward_erase (what : uri) : M uri_mappings unit :=
  s ← get;
  match um_forward s !! uri_str what with
  | None => mret tt
  | Some m =>
      modify (λ s, um_set_reverse (delete (uri_str m) (um_reverse s)) s) ;;
      modify (λ s, um_set_forward (delete (uri_str what) (um_forward s)) s)
  end.

Definition reverse_erase (what : uri) : M uri_mappings unit :=
  s ← get;
  match um_reverse s !! uri_str what with
  | None => mret tt
  | Some m =>
      modify (λ s, um_set_forward (delete (uri_str m) (um_forward s)) s) ;;
      modify (λ s, um_set_reverse (delete (uri_str what) (um_reverse s)) s)
  end.

Definition um_insert (original mapped : uri) : M uri_mappings unit :=
  require (negb (uri_empty original) && negb (uri_empty mapped))
    "!original.empty() && !mapped.empty()" ;;
  s ← get;
  require (bool_decide (um_forward s !! uri_str original = None))
    "m_forward_map.count(original) == 0" ;;
  require (bool_decide (um_reverse s !! uri_str mapped = None))
    "m_reverse_map.count(mapped) == 0" ;;
  modify (λ s, um_set_forward (map_emplace (uri_str original) mapped (um_forward s)) s) ;;
  modify (λ s, um_set_reverse (map_emplace (uri_str mapped) original (um_reverse s)) s).

(** ** The invariant: the two maps are inverse to each other *)

Definition inverse_of (f r : gmap bytes uri) : Prop :=
  ∀ k m, f !! k = Some m → ∃ o, r !! uri_str m = Some o ∧ uri_str o = k.

Definition um_ok (s : uri_mappings) : Prop :=
  inverse_of (um_forward s) (um_reverse s) ∧ inverse_of (um_reverse s) (um_forward s).

Lemma map_emplace_new k v m : m !! k = None → map_emplace k v m = <[k := v]> m.
Proof. intros H. by rewrite /map_emplace H. Qed.

(** Adding a pair of fresh names keeps the maps inverse. *)
Lemma inverse_of_add (f r : gmap bytes uri) (o m : uri) :
  inverse_of f r → r !! uri_str m = None →
  inverse_of (<[uri_str o := m]> f) (<[uri_str m := o]> r).
Proof.
  intros Hi Hr k m'. rewrite lookup_insert. case_decide as Hk.
  - intros [= <-]. exists o. by rewrite lookup_insert_eq.
  - intros Hf. destruct (Hi k m' Hf) as (o' & Hr' & Ho').
    exists o'. split; [|done]. rewrite lookup_insert_ne; [|done]. congruence.
Qed.

(** Removing a pair keeps the maps inverse. *)
Lemma inverse_of_del (f r : gmap bytes uri) (k : bytes) (m : uri) :
  inverse_of f r → f !! k = Some m → inverse_of (delete k f) (delete (uri_str m) r).
Proof.
  intros Hi Hk k' m' Hf. apply lookup_delete_Some in Hf as [Hne Hf].
  destruct (Hi k' m' Hf) as (o' & Hr' & Ho'). exists o'. split; [|done].
  rewrite lookup_delete_ne; [|done]. intros Heq.
  destruct (Hi k m Hk) as (o & Hr & Ho). rewrite Heq in Hr. congruence.
Qed.

Lemma inverse_of_del' (f r : gmap bytes uri) (k : bytes) (m : uri) :
  inverse_of f r → inverse_of r f → f !! k = Some m →
  inverse_of (delete (uri_str m) r) (delete k f).
Proof.
  intros Hi Hi' Hk. destruct (Hi k m Hk) as (o & Hr & <-). by apply inverse_of_del.
Qed.

(** ** Every operation preserves it *)

Lemma forward_lookup_map_ok mf what s r s' :
  um_ok s → forward_lookup_map mf what s = (r, s') →
  um_ok s' ∧
  match r with
  | Ok m => um_forward s' !! uri_str what = Some m ∧
            (um_forward s !! uri_str what = None → m = mf what ∧ uri_empty m = false)
  | Throw e => s' = s ∧ (∃ why, e = requirement_failed why) ∧ um_forward s !! uri_str what = None ∧
               (uri_empty (mf what) = true ∨ is_Some (um_reverse s !! uri_str (mf what)))
  | UB _ => False
  end.
Proof.
  intros [Hf Hr]. rewrite /forward_lookup_map /mbind /M_bind /get.
  destruct (um_forward s !! uri_str what) as [m|] eqn:E; [by intros [= <- <-]|].
  rewrite /require. destruct (uri_empty (mf what)) eqn:Em; simpl.
  { intros [= <- <-]. split; [by split|]. split_and!; [done|by eexists|done|by left]. }
  case_bool_decide as Hm; simpl.
  - intros [= <- <-]. simpl. rewrite !map_emplace_new; [done..|].
    split; [split; simpl; by apply inverse_of_add|].
    by rewrite lookup_insert_eq.
  - intros [= <- <-]. split; [by split|]. split; [done|]. split; [by eexists|]. split; [done|].
    right. by apply not_eq_None_Some.
Qed.

Lemma um_insert_ok o m s r s' :
  um_ok s → um_insert o m s = (r, s') →
  um_ok s' ∧ match r with Ok _ => um_forward s' !! uri_str o = Some m | Throw _ => s' = s | UB _ => False end.
Proof.
  intros [Hf Hr]. rewrite /um_insert /require.
  destruct (negb (uri_empty o) && negb (uri_empty m)); [|by intros [= <- <-]].
  rewrite /mbind /M_bind /get /=. case_bool_decide as Ho; [|by intros [= <- <-]].
  simpl. case_bool_decide as Hm; [|by intros [= <- <-]].
  simpl. intros [= <- <-]. simpl. rewrite !map_emplace_new; [done..|].
  split; [split; simpl; by apply inverse_of_add|by rewrite lookup_insert_eq].
Qed.

Lemma forward_erase_ok u s :
  um_ok s → ∃ s', forward_erase u s = (Ok tt, s') ∧ um_ok s' ∧
    um_forward s' = delete (uri_str u) (um_forward s).
Proof.
  intros [Hf Hr]. rewrite /forward_erase /mbind /M_bind /get.
  destruct (um_forward s !! uri_str u) as [m|] eqn:E.
  - eexists. split; [done|]. split; [split|done]; simpl.
    + by apply inverse_of_del.
    + by apply inverse_of_del'.
  - exists s. split; [done|]. split; [by split|]. by rewrite delete_id.
Qed.

Lemma reverse_erase_ok u s :
  um_ok s → ∃ s', reverse_erase u s = (Ok tt, s') ∧ um_ok s' ∧
    um_reverse s' = delete (uri_str u) (um_reverse s).
Proof.
  intros [Hf Hr]. rewrite /reverse_erase /mbind /M_bind /get.
  destruct (um_reverse s !! uri_str u) as [m|] eqn:E.
  - eexists. split; [done|]. split; [split|done]; simpl.
    + by apply inverse_of_del'.
    + by apply inverse_of_del.
  - exists s. split; [done|]. split; [by split|]. by rewrite delete_id.
Qed.

Lemma new_uri_mappings_ok : um_ok new_uri_mappings.
Proof. split; intros k m H; by rewrite lookup_empty in H. Qed.

(** ** Histories of operations *)

Inductive um_op :=
  | Op_lookup_map (what : uri)
  | Op_insert (original mapped : uri)
  | Op_forward_erase (what : uri)
  | Op_reverse_erase (what : uri)
  | Op_clear.

(** One call; a failed requirement reaches the caller and the object stays
    usable. *)
Definition um_exec (mf : uri → uri) (op : um_op) (s : uri_mappings) : uri_mappings :=
  match op with
  | Op_lookup_map u => (forward_lookup_map mf u s).2
  | Op_insert o m => (um_insert o m s).2
  | Op_forward_erase u => (forward_erase u s).2
  | Op_reverse_erase u => (reverse_erase u s).2
  | Op_clear => (um_clear s).2
  end.

Definition um_history (mf : uri → uri) (ops : list um_op) : uri_mappings :=
  foldl (λ s op, um_exec mf op s) new_uri_mappings ops.

Lemma um_exec_ok mf op s : um_ok s → um_ok (um_exec mf op s).
Proof.
  intros Hs. destruct op; simpl.
  - destruct (forward_lookup_map mf what s) as [r s'] eqn:E.
    by apply forward_lookup_map_ok in E as [? _].
  - destruct (um_insert original mapped s) as [r s'] eqn:E.
    by apply um_insert_ok in E as [? _].
  - by destruct (forward_erase_ok what s Hs) as (s' & -> & ? & _).
  - by destruct (reverse_erase_ok what s Hs) as (s' & -> & ? & _).
  - apply new_uri_mappings_ok.
Qed.

Lemma um_history_ok mf ops : um_ok (um_history mf ops).
Proof.
  rewrite /um_history. generalize new_uri_mappings_ok. generalize new_uri_mappings.
  induction ops as [|op ops IH]; intros s Hs; [done|]. simpl. apply IH. by apply um_exec_ok.
Qed.

(** ** Theorems *)

(** After any history of lookups through the module, insertions and
    erasures, whether they failed or not, the two maps are a bijection: a
    name that has a mapping is what the reverse lookup of its mapping
    returns, two names never share a mapping, and conversely. *)
Theorem mappings_bijective (mf : uri → uri) (ops : list um_op) :
  let s := um_history mf ops in
  (∀ k m, um_forward s !! uri_str k = Some m → uri_str (reverse_lookup m s) = uri_str k) ∧
  (∀ k m, um_reverse s !! uri_str m = Some k → uri_str (forward_lookup k s) = uri_str m) ∧
  (∀ k1 k2 m1 m2, um_forward s !! k1 = Some m1 → um_forward s !! k2 = Some m2 →
     uri_str m1 = uri_str m2 → k1 = k2).
Proof.
  intros s. destruct (um_history_ok mf ops) as [Hf Hr]. fold s in Hf, Hr. split_and!.
  - intros k m Hk. destruct (Hf _ _ Hk) as (o & Ho & Hs).
    by rewrite /reverse_lookup /um_lookup Ho.
  - intros k m Hk. destruct (Hr _ _ Hk) as (o & Ho & Hs).
    by rewrite /forward_lookup /um_lookup Ho.
  - intros k1 k2 m1 m2 H1 H2 Heq. destruct (Hf _ _ H1) as (o1 & Ho1 & <-).
    destruct (Hf _ _ H2) as (o2 & Ho2 & <-). rewrite Heq in Ho1. congruence.
Qed.

(** A lookup through the module returns the recorded mapping, or asks
    the module once and records its answer; it fails, leaving the maps
    unchanged, exactly when the module has no answer or answers with a name
    another group already has. *)
Theorem forward_lookup_map_functional (mf : uri → uri) (what : uri) (s : uri_mappings) :
  um_ok s →
  match um_forward s !! uri_str what with
  | Some m => forward_lookup_map mf what s = (Ok m, s)
  | None =>
      if uri_empty (mf what) || bool_decide (is_Some (um_reverse s !! uri_str (mf what)))
      then ∃ why, forward_lookup_map mf what s = (Throw (requirement_failed why), s)
      else forward_lookup_map mf what s =
             (Ok (mf what), {| um_forward := <[uri_str what := mf what]> (um_forward s);
                               um_reverse := <[uri_str (mf what) := what]> (um_reverse s) |})
  end.
Proof.
  intros Hs. rewrite /forward_lookup_map /mbind /M_bind /get.
  destruct (um_forward s !! uri_str what) as [m|] eqn:E; [done|]. rewrite /require.
  destruct (uri_empty (mf what)); simpl; [by eexists|].
  destruct (um_reverse s !! uri_str (mf what)) as [o|] eqn:Er; simpl.
  - by eexists.
  - by rewrite !map_emplace_new.
Qed.

Lemma forward_lookup_map_functional_witness :
  let u := uri_of (str "ham:sip:news@cast") in
  let v := uri_of (str "ham:ip:239.0.0.1:5000") in
  um_ok new_uri_mappings ∧
  (forward_lookup_map (λ _, v) u new_uri_mappings).1 = Ok v.
Proof.
  intros u v. split; [exact new_uri_mappings_ok|].
  assert (uri_empty v = false) as Hv by (vm_compute; reflexivity). clearbody u v.
  pose proof (forward_lookup_map_functional (λ _, v) u new_uri_mappings new_uri_mappings_ok) as H.
  cbn [um_forward um_reverse new_uri_mappings] in H. rewrite !lookup_empty Hv in H.
  simpl in H. by rewrite H.
Defined.
