(* ===== verification/ConfigMap.v ===== *)
(** * Configuration files

    [util::config_map] ([config_map.cpp]): the reader of INI files.  A line
    is matched against three expressions with capture groups; the handler of
    the first that matches changes the map or throws.  The grammar of a line
    is given separately, with its free layout (white space, comments), and
    the reader is proved to accept exactly that grammar, to skip and report
    every other line, and to read a written configuration back. *)

From S2P Require Import Prelude Regex Uri.

(** ** Matching with capture groups

    An expression of the sources is a sequence of parts, each captured or
    not.  [boost::regex_match(s, sm, rx)] matches all of [s]; every part
    takes as much as it can as long as the remaining parts match the rest
    (the repetitions are greedy). *)

Inductive part :=
  | Grp (r : regex)
  | Txt (r : regex).

Definition part_regex (p : part) : regex := match p with Grp r | Txt r => r end.
Definition part_captures (p : part) (s : bytes) : list bytes :=
  match p with Grp _ => [s] | Txt _ => [] end.

(** The largest [m] up to [n] that gives a result. *)
Fixpoint longest {A} (n : nat) (f : nat → option A) : option A :=
  match f n with
  | Some a => Some a
  | None => match n with O => None | S n' => longest n' f end
  end.

Fixpoint cap_match (ps : list part) (s : bytes) : option (list bytes) :=
  match ps with
  | [] => match s with [] => Some [] | _ :: _ => None end
  | p :: ps' =>
      longest (length s) (λ n,
        if regex_match (part_regex p) (take n s) then
          cs ← cap_match ps' (drop n s); Some (part_captures p (take n s) ++ cs)
        else None)
  end.

(** The declarative reading: [s] is a concatenation of texts of the parts. *)
Inductive cap_parses : list part → bytes → list bytes → Prop :=
  | cap_parses_nil : cap_parses [] [] []
  | cap_parses_cons p ps s1 s2 cs :
      matches (part_regex p) s1 → cap_parses ps s2 cs →
      cap_parses (p :: ps) (s1 ++ s2) (part_captures p s1 ++ cs).

Lemma longest_inv {A} n (f : nat → option A) a :
  longest n f = Some a → ∃ m, (m <= n)%nat ∧ f m = Some a.
Proof.
  induction n as [|n IH]; simpl.
  - destruct (f 0%nat) eqn:E; [|done]. intros [= <-]. by exists 0%nat.
  - destruct (f (S n)) eqn:E; [intros [= <-]; by exists (S n)|].
    intros (m & ? & ?)%IH. exists m. split; [lia|done].
Qed.

Lemma longest_some {A} n (f : nat → option A) m :
  (m <= n)%nat → is_Some (f m) → is_Some (longest n f).
Proof.
  intros Hm Hf. induction n as [|n IH]; simpl.
  - assert (m = 0%nat) as -> by lia. destruct Hf as [a ->]. eauto.
  - destruct (f (S n)) eqn:E; [eauto|]. apply IH.
    destruct (decide (m = S n)) as [->|]; [|lia]. rewrite E in Hf. by destruct Hf.
Qed.

(** A match reports texts of the groups, and there is a match whenever the
    declarative reading has one. *)
Lemma cap_match_sound ps s cs : cap_match ps s = Some cs → cap_parses ps s cs.
Proof.
  revert s cs. induction ps as [|p ps IH]; intros s cs; simpl.
  - destruct s; [|done]. intros [= <-]. constructor.
  - intros (m & Hm & Hf)%longest_inv.
    destruct (regex_match (part_regex p) (take m s)) eqn:E; [|done].
    apply bind_Some in Hf as (cs' & ?%IH & [= <-]).
    rewrite -{1}(take_drop m s). constructor; [by apply regex_match_spec|done].
Qed.

Lemma cap_match_complete ps s cs : cap_parses ps s cs → is_Some (cap_match ps s).
Proof.
  induction 1 as [|p ps s1 s2 cs Hm Hp IH]; simpl; [eauto|].
  apply (longest_some _ _ (length s1)).
  { rewrite length_app. lia. }
  rewrite take_app_length drop_app_length (proj2 (regex_match_spec _ _) Hm).
  destruct IH as [cs' ->]. simpl. eauto.
Qed.

(** An expression that can be read in one way only. *)
Definition unambiguous (ps : list part) : Prop :=
  ∀ s cs cs', cap_parses ps s cs → cap_parses ps s cs' → cs = cs'.

Lemma cap_match_spec ps s cs :
  unambiguous ps → cap_match ps s = Some cs ↔ cap_parses ps s cs.
Proof.
  intros Hu. split; [apply cap_match_sound|].
  intros H. destruct (cap_match_complete _ _ _ H) as [cs' E]. rewrite E.
  f_equal. eapply Hu; [by apply cap_match_sound|done].
Qed.

Lemma cap_match_none ps s : cap_match ps s = None ↔ ∀ cs, ¬ cap_parses ps s cs.
Proof.
  split.
  - intros E cs [? ?]%cap_match_complete. congruence.
  - intros H. destruct (cap_match ps s) as [cs|] eqn:E; [|done].
    exfalso. by eapply H, cap_match_sound.
Qed.

(** ** The expressions of [read_ini] *)

Definition in_range_of (a b c : byte) : bool := (b2z a <=? b2z c) && (b2z c <=? b2z b).
Definition isalnum_ascii (c : byte) : bool :=
  in_range_of "a"%char "z"%char c || in_range_of "A"%char "Z"%char c || in_range_of "0"%char "9"%char c.

(** [[-a-zA-Z0-9\._]] and [[-a-zA-Z0-9\._/]]. *)
Definition name_char (c : byte) : bool :=
  bool_decide (c = "-"%char) || isalnum_ascii c || bool_decide (c = "."%char) || bool_decide (c = "_"%char).
Definition value_char (c : byte) : bool := name_char c || bool_decide (c = "/"%char).

(** One or more repetitions, white space, and the optional comment from a
    semicolon to the end; the dot matches every character. *)
Definition Plus (r : regex) : regex := Seq r (Star r).
Definition Spaces : regex := Star (Cls isspace).
Definition Comment : regex := Alt (Seq (Chr ";"%char) (Star (Cls (λ _, true)))) Eps.
Definition dquote : byte := ascii_of_nat 34.

Definition section_rx : list part :=
  [Txt (Chr "["%char); Grp (Plus (Cls name_char)); Txt (Chr "]"%char); Txt Spaces; Txt Comment].
Definition value_rx : list part :=
  [Grp (Plus (Cls name_char)); Txt Spaces; Txt (Chr "="%char); Txt Spaces;
   Grp (Plus (Cls value_char)); Txt Spaces; Txt Comment].
Definition string_rx : list part :=
  [Grp (Plus (Cls name_char)); Txt Spaces; Txt (Chr "="%char); Txt Spaces;
   Txt (Chr dquote); Grp (Plus (Cls (λ c, bool_decide (c ≠ dquote)))); Txt (Chr dquote);
   Txt Spaces; Txt Comment].

(** ** The reader *)

Abbreviation mapped_type := (gmap bytes bytes).
Abbreviation container_type := (gmap bytes (gmap bytes bytes)).

(** The map, the local [section] of [read_ini], and the numbers of the lines
    it reported on the standard error stream. *)
Record ini_state := {
  ini_map : container_type;
  ini_section : bytes;
  ini_skipped : list Z
}.
Definition ini_set_map (m : container_type) (s : ini_state) : ini_state :=
  {| ini_map := m; ini_section := ini_section s; ini_skipped := ini_skipped s |}.
Definition ini_set_section (sec : bytes) (s : ini_state) : ini_state :=
  {| ini_map := ini_map s; ini_section := sec; ini_skipped := ini_skipped s |}.
Definition ini_skip (n : Z) (s : ini_state) : ini_state :=
  {| ini_map := ini_map s; ini_section := ini_section s; ini_skipped := ini_skipped s ++ [n] |}.

(** [sm[i]]. *)
Definition sub_match (sm : list bytes) (i : nat) : bytes := default [] (sm !! (i - 1)%nat).

Definition already_defined (what : string) (name : bytes) : exn :=
  runtime_error (what +:+ " " +:+ string_of_list_ascii name +:+ " already defined").

Definition new_section (sm : list bytes) : M ini_state unit :=
  let sec_name := sub_match sm 1 in
  cm ← gets ini_map;
  (if bool_decide (is_Some (cm !! sec_name)) then throw (already_defined "section" sec_name)
   else mret tt) ;;
  modify (ini_set_section sec_name) ;;
  modify (ini_set_map (<[sec_name := default ∅ (cm !! sec_name)]> cm)).

Definition add_key_value_pair (sm : list bytes) : M ini_state unit :=
  sec ← gets ini_section;
  (if bool_decide (sec = []) then throw (runtime_error "key value pair outside section") else mret tt) ;;
  let key := sub_match sm 1 in
  let value := sub_match sm 2 in
  cm ← gets ini_map;
  let kv_map := default ∅ (cm !! sec) in
  modify (ini_set_map (<[sec := kv_map]> cm)) ;;
  (if bool_decide (is_Some (kv_map !! key)) then throw (already_defined "key" key) else mret tt) ;;
  modify (λ s, ini_set_map (<[sec := <[key := value]> kv_map]> (ini_map s)) s).

Abbreviation rx_handler_pair := (list part * (list bytes → M ini_state unit))%type.

(** [matches(vec, line, ini_map, section)]. *)
Fixpoint ini_matches (vec : list rx_handler_pair) (line : bytes) : M ini_state bool :=
  match vec with
  | [] => mret false
  | (rx, rxh) :: vec' =>
      match cap_match rx line with
      | Some sm => rxh sm ;; mret true
      | None => ini_matches vec' line
      end
  end.

Definition rx_handler : list rx_handler_pair :=
  [(section_rx, new_section); (value_rx, add_key_value_pair); (string_rx, add_key_value_pair)].

(** One iteration of the loop of [read_ini]. *)
Definition read_line (line_count : Z) (line : bytes) : M ini_state unit :=
  match line with
  | [] => mret tt
  | c :: _ =>
      if bool_decide (c = ";"%char) then mret tt
      else
        matched ← ini_matches rx_handler line;
        if matched then mret tt else modify (ini_skip line_count)
  end.

Fixpoint read_lines (line_count : Z) (lines : list bytes) : M ini_state unit :=
  match lines with
  | [] => mret tt
  | line :: lines' => read_line (line_count + 1) line ;; read_lines (line_count + 1) lines'
  end.

Definition newline : byte := ascii_of_nat 10.

(** The lines [std::getline] delivers: the text up to each newline, and what
    is left after the last one unless that is empty. *)
Fixpoint getlines_from (acc : bytes) (s : bytes) : list bytes :=
  match s with
  | [] => match acc with [] => [] | _ => [acc] end
  | c :: s' => if bool_decide (c = newline) then acc :: getlines_from [] s'
               else getlines_from (acc ++ [c]) s'
  end.
Definition getlines : bytes → list bytes := getlines_from [].

(** [config_map::read_ini]; [fs] is the contents of the readable files. *)
Definition read_ini (fs : gmap bytes bytes) (filename : bytes) : M ini_state unit :=
  modify (ini_set_section []) ;;
  match fs !! filename with
  | None => throw (runtime_error ("Config file " +:+ string_of_list_ascii filename +:+ " not found"))
  | Some contents => read_lines 0 (getlines contents)
  end.

Definition new_config_map : ini_state := {| ini_map := ∅; ini_section := []; ini_skipped := [] |}.

(** ** Access *)

Definition has_group (cm : container_type) (group : bytes) : bool := bool_decide (is_Some (cm !! group)).

(** [get(const_iterator, key)] and [get(group, key)]. *)
Definition get_in (group : mapped_type) (key : bytes) : bytes := default [] (group !! key).
Definition cm_get (cm : container_type) (group key : bytes) : bytes :=
  match cm !! group with
  | Some g => get_in g key
  | None => []
  end.

(** [operator[]]. *)
Definition cm_at {S : Type} (cm : container_type) (group : bytes) : M S mapped_type :=
  match cm !! group with
  | Some g => mret g
  | None => throw (range_error ("unknown group: " +:+ string_of_list_ascii group))
  end.

(** ** The grammar of a line

    What a line may look like, with the white space and the comments that
    do not matter, how it is written, and what it means. *)

Inductive ini_value :=
  | Plain (v : bytes)
  | Quoted (v : bytes).

Inductive ini_line :=
  | Blank
  | Remark (text : bytes)
  | Header (name ws : bytes) (comment : option bytes)
  | Entry (key ws1 ws2 : bytes) (v : ini_value) (ws3 : bytes) (comment : option bytes).

Definition value_of (v : ini_value) : bytes := match v with Plain v | Quoted v => v end.

Definition print_comment (c : option bytes) : bytes :=
  match c with Some t => ";"%char :: t | None => [] end.
Definition print_value (v : ini_value) : bytes :=
  match v with Plain v => v | Quoted v => dquote :: v ++ [dquote] end.
Definition print_line (l : ini_line) : bytes :=
  match l with
  | Blank => []
  | Remark t => ";"%char :: t
  | Header name ws c => "["%char :: name ++ "]"%char :: ws ++ print_comment c
  | Entry key ws1 ws2 v ws3 c =>
      key ++ ws1 ++ "="%char :: ws2 ++ print_value v ++ ws3 ++ print_comment c
  end.

Definition all_of (p : byte → bool) (s : bytes) : Prop := Forall (λ c, p c = true) s.
Definition name_ok (p : byte → bool) (s : bytes) : Prop := s ≠ [] ∧ all_of p s.

Definition wf_value (v : ini_value) : Prop :=
  match v with
  | Plain v => name_ok value_char v
  | Quoted v => name_ok (λ c, bool_decide (c ≠ dquote)) v
  end.
Definition wf_line (l : ini_line) : Prop :=
  match l with
  | Blank | Remark _ => True
  | Header name ws _ => name_ok name_char name ∧ all_of isspace ws
  | Entry key ws1 ws2 v ws3 _ =>
      name_ok name_char key ∧ all_of isspace ws1 ∧ all_of isspace ws2 ∧ wf_value v ∧ all_of isspace ws3
  end.

Definition denote (l : ini_line) : M ini_state unit :=
  match l with
  | Blank | Remark _ => mret tt
  | Header name _ _ => new_section [name]
  | Entry key _ _ v _ _ => add_key_value_pair [key; value_of v]
  end.

(** *** Character classes *)

Lemma byte_forall (p : byte → bool) : forallb p all_bytes = true → ∀ c, p c = true.
Proof.
  intros H c. rewrite ->forallb_forall in H. apply H, list_elem_of_In, all_bytes_complete.
Qed.

Lemma disjoint_classes (p q : byte → bool) :
  forallb (λ c, negb (p c && q c)) all_bytes = true → ∀ c, p c = true → q c = false.
Proof.
  intros H c Hp. pose proof (byte_forall _ H c) as Hc. simpl in Hc.
  rewrite Hp in Hc. by destruct (q c).
Qed.

Lemma space_not_name : ∀ c, isspace c = true → name_char c = false.
Proof. by apply disjoint_classes. Qed.
Lemma space_not_value : ∀ c, isspace c = true → value_char c = false.
Proof. by apply disjoint_classes. Qed.
Lemma value_not_space : ∀ c, value_char c = true → isspace c = false.
Proof. by apply disjoint_classes. Qed.
Lemma value_not_quote : ∀ c, value_char c = true → c ≠ dquote.
Proof. intros c H ->. by vm_compute in H. Qed.
Lemma name_not_lead : ∀ c, name_char c = true → c ≠ ";"%char ∧ c ≠ "["%char.
Proof. intros c H. split; intros ->; by vm_compute in H. Qed.

(** *** Splitting where a class ends *)

(** The text does not start with a character of the class. *)
Definition stops (p : byte → bool) (s : bytes) : Prop :=
  match s with [] => True | c :: _ => p c = false end.

Lemma span_unique p l1 l2 k1 k2 :
  all_of p l1 → all_of p k1 → stops p l2 → stops p k2 →
  l1 ++ l2 = k1 ++ k2 → l1 = k1 ∧ l2 = k2.
Proof.
  intros Hl. revert k1. induction Hl as [|c l1 Hc Hl IH]; intros [|d k1] Hk Sl Sk E; simplify_eq/=.
  - done.
  - inversion Hk; subst. congruence.
  - congruence.
  - inversion Hk; subst. by destruct (IH k1) as [-> ->].
Qed.

Lemma stops_app p (q : byte → bool) s k :
  all_of q s → (∀ c, q c = true → p c = false) → stops p k → stops p (s ++ k).
Proof. intros [|c s' Hc _] Hd Hk; simpl; auto. Qed.

Lemma stops_comment p c : p ";"%char = false → stops p (print_comment c).
Proof. by destruct c. Qed.

Lemma stops_cons (p : byte → bool) c s : p c = false → stops p (c :: s).
Proof. done. Qed.

Create HintDb ini.
#[export] Hint Resolve stops_cons stops_app stops_comment space_not_name space_not_value value_not_space : ini.

Lemma stops_value v k : wf_value v → stops isspace (print_value v ++ k).
Proof.
  destruct v as [v|v]; [|done]. intros [Hne Hv]. destruct Hv as [|c v Hc Hv]; [done|].
  by apply value_not_space.
Qed.

(** *** The readings of a line *)

Lemma matches_star_cls p s : matches (Star (Cls p)) s ↔ all_of p s.
Proof.
  induction s as [|c s IH].
  - split; [constructor|intros; constructor].
  - rewrite matches_star_cons_inv. split.
    + intros (s1 & s2 & -> & (d & [= -> ->] & Hc)%matches_cls_inv & H2). constructor; [done|by apply IH].
    + inversion 1; subst. exists [], s. split_and!; [done|by constructor|by apply IH].
Qed.

Lemma matches_plus_cls p s : matches (Plus (Cls p)) s ↔ name_ok p s.
Proof.
  rewrite /Plus matches_seq_inv. split.
  - intros (s1 & s2 & -> & (c & -> & Hc)%matches_cls_inv & H2%matches_star_cls).
    split; [done|by constructor].
  - intros [Hne Hs]. destruct Hs as [|c s Hc Hs]; [done|].
    exists [c], s. split_and!; [done|by constructor|by apply matches_star_cls].
Qed.

Lemma matches_comment s : matches Comment s ↔ ∃ c, s = print_comment c.
Proof.
  rewrite /Comment matches_alt_inv matches_eps_inv matches_seq_inv. split.
  - intros [(s1 & s2 & -> & ->%matches_chr_inv & _)| ->]; [by exists (Some s2)|by exists None].
  - intros ([t|] & ->); [left|by right]. exists [";"%char], t.
    split_and!; [done|by apply matches_chr_inv|]. apply matches_star_cls, Forall_true. done.
Qed.

Lemma cap_parses_cons_inv p ps s cs :
  cap_parses (p :: ps) s cs ↔
  ∃ s1 s2 cs', s = s1 ++ s2 ∧ cs = part_captures p s1 ++ cs' ∧
    matches (part_regex p) s1 ∧ cap_parses ps s2 cs'.
Proof.
  split; [inversion 1; subst; naive_solver|].
  intros (s1 & s2 & cs' & -> & -> & ? & ?). by constructor.
Qed.

Lemma cap_parses_nil_inv s cs : cap_parses [] s cs ↔ s = [] ∧ cs = [].
Proof. split; [by inversion 1|]. intros [-> ->]. constructor. Qed.

Lemma cap_parses_chr c ps s cs : cap_parses ps s cs → cap_parses (Txt (Chr c) :: ps) (c :: s) cs.
Proof. intros. apply (cap_parses_cons (Txt (Chr c)) ps [c]); [by apply matches_chr_inv|done]. Qed.

Lemma cap_parses_txt r ps s1 s2 cs : matches r s1 → cap_parses ps s2 cs → cap_parses (Txt r :: ps) (s1 ++ s2) cs.
Proof. intros. by apply (cap_parses_cons (Txt r)). Qed.

Lemma cap_parses_grp r ps s1 s2 cs : matches r s1 → cap_parses ps s2 cs → cap_parses (Grp r :: ps) (s1 ++ s2) (s1 :: cs).
Proof. intros. by apply (cap_parses_cons (Grp r)). Qed.

Lemma cap_parses_last c : cap_parses [Txt Comment] (print_comment c) [].
Proof.
  rewrite -{1}(app_nil_r (print_comment c)). apply cap_parses_txt; [|constructor].
  apply matches_comment. by exists c.
Qed.

#[export] Hint Resolve cap_parses_chr cap_parses_txt cap_parses_grp cap_parses_last : ini.
#[export] Hint Extern 1 (matches (Plus _) _) => apply matches_plus_cls : ini.
#[export] Hint Extern 1 (matches Spaces _) => apply matches_star_cls : ini.

Ltac parse_inv :=
  repeat match goal with
  | H : cap_parses (_ :: _) _ _ |- _ =>
      apply cap_parses_cons_inv in H; destruct H as (? & ? & ? & ? & ? & ? & H); simpl in *; subst
  | H : cap_parses [] _ _ |- _ => apply cap_parses_nil_inv in H; destruct H; subst
  | H : matches (Chr _) _ |- _ => apply matches_chr_inv in H; subst
  | H : matches (Plus _) _ |- _ => apply matches_plus_cls in H
  | H : matches Spaces _ |- _ => apply matches_star_cls in H
  | H : matches Comment _ |- _ => apply matches_comment in H; destruct H; subst
  end.

Lemma section_reads s cs :
  cap_parses section_rx s cs ↔
  ∃ name ws c, cs = [name] ∧ s = print_line (Header name ws c) ∧ wf_line (Header name ws c).
Proof.
  split.
  - rewrite /section_rx. intros H. parse_inv. eexists _, _, _.
    rewrite app_nil_r. by split_and!.
  - intros (name & ws & c & -> & -> & [? ?]). rewrite /section_rx /=. auto 10 with ini.
Qed.

Lemma value_reads s cs :
  cap_parses value_rx s cs ↔
  ∃ key ws1 ws2 v ws3 c, cs = [key; v] ∧ s = print_line (Entry key ws1 ws2 (Plain v) ws3 c) ∧
    wf_line (Entry key ws1 ws2 (Plain v) ws3 c).
Proof.
  split.
  - rewrite /value_rx. intros H. parse_inv. eexists _, _, _, _, _, _.
    rewrite app_nil_r. by split_and!.
  - intros (key & ws1 & ws2 & v & ws3 & c & -> & -> & (? & ? & ? & ? & ?)).
    rewrite /value_rx /=. auto 15 with ini.
Qed.

Lemma string_reads s cs :
  cap_parses string_rx s cs ↔
  ∃ key ws1 ws2 v ws3 c, cs = [key; v] ∧ s = print_line (Entry key ws1 ws2 (Quoted v) ws3 c) ∧
    wf_line (Entry key ws1 ws2 (Quoted v) ws3 c).
Proof.
  split.
  - rewrite /string_rx. intros H. parse_inv. eexists _, _, _, _, _, _.
    split; [done|]. rewrite /= app_nil_r -app_assoc. by split_and!.
  - intros (key & ws1 & ws2 & v & ws3 & c & -> & -> & (? & ? & ? & ? & ?)).
    rewrite /string_rx /= -app_assoc /=. auto 15 with ini.
Qed.

(** A line is written in at most one way, up to what does not matter. *)
Lemma entry_unique key ws1 ws2 v ws3 c key' ws1' ws2' v' ws3' c' :
  wf_line (Entry key ws1 ws2 v ws3 c) → wf_line (Entry key' ws1' ws2' v' ws3' c') →
  print_line (Entry key ws1 ws2 v ws3 c) = print_line (Entry key' ws1' ws2' v' ws3' c') →
  key = key' ∧ value_of v = value_of v'.
Proof.
  intros ((_ & ?) & ? & ? & Hv & ?) ((_ & ?) & ? & ? & Hv' & ?) E. simpl in E.
  apply (span_unique name_char) in E as [-> E]; [|done..|by eauto with ini|by eauto with ini].
  apply (span_unique isspace) in E as [-> [= E]]; [|done..].
  apply (span_unique isspace) in E as [-> E]; [|done..|by apply stops_value|by apply stops_value].
  split; [done|].
  destruct v as [v|v], v' as [v'|v']; destruct Hv as [Hne Hv], Hv' as [Hne' Hv']; simpl in E |- *.
  - apply (span_unique value_char) in E as [-> _]; eauto with ini.
  - destruct Hv as [|d v Hd Hv]; [done|]. injection E as -> _. by apply value_not_quote in Hd.
  - destruct Hv' as [|d v' Hd Hv']; [done|]. injection E as <- _. by apply value_not_quote in Hd.
  - injection E as E. rewrite -!app_assoc in E.
    apply (span_unique (λ c, bool_decide (c ≠ dquote))) in E as [-> _]; done.
Qed.

Lemma entry_lead key ws1 ws2 v ws3 c :
  wf_line (Entry key ws1 ws2 v ws3 c) →
  ∃ d s, print_line (Entry key ws1 ws2 v ws3 c) = d :: s ∧ name_char d = true.
Proof. intros ((? & Hk) & _). destruct Hk as [|d key Hd _]; [done|]. by eexists d, _. Qed.

Lemma line_unique l l' :
  wf_line l → wf_line l' → print_line l = print_line l' → denote l = denote l'.
Proof.
  destruct l as [|t|name ws c|key ws1 ws2 v ws3 c], l' as [|t'|name' ws' c'|key' ws1' ws2' v' ws3' c'];
    intros H H' E; try done.
  all: try (apply entry_lead in H as (d & s & Hl & [? ?]%name_not_lead); rewrite Hl in E; by simplify_eq/=).
  all: try (apply entry_lead in H' as (d & s & Hl & [? ?]%name_not_lead); rewrite Hl in E; by simplify_eq/=).
  - injection E as E. destruct H as [[_ ?] ?], H' as [[_ ?] ?].
    by apply (span_unique name_char) in E as [-> _].
  - simpl. by destruct (entry_unique _ _ _ _ _ _ _ _ _ _ _ _ H H' E) as [-> ->].
Qed.

(** *** Reading a line *)

Lemma matched_run (m : M ini_state unit) n st :
  (matched ← (m ;; mret true); if matched : bool then mret tt else modify (ini_skip n)) st = m st.
Proof. rewrite /mbind /M_bind /=. by destruct (m st) as [[[]|e|w] st']. Qed.

(** A line of the grammar has its meaning; every other line is skipped and
    its number reported. *)
Lemma read_line_spec n s :
  (∃ l, wf_line l ∧ s = print_line l ∧ ∀ st, read_line n s st = denote l st) ∨
  ((∀ l, wf_line l → s ≠ print_line l) ∧ ∀ st, read_line n s st = modify (ini_skip n) st).
Proof.
  destruct s as [|c s]; [left; by exists Blank|].
  rewrite /read_line. case_bool_decide as Hc.
  { left. exists (Remark s). by rewrite Hc. }
  rewrite /rx_handler /ini_matches. remember (c :: s) as line eqn:El.
  destruct (cap_match section_rx line) as [sm|] eqn:E1.
  { apply cap_match_sound, section_reads in E1 as (name & ws & cm & -> & -> & Hw).
    left. eexists. split_and!; [exact Hw|done|]. intros. apply matched_run. }
  destruct (cap_match value_rx line) as [sm|] eqn:E2.
  { apply cap_match_sound, value_reads in E2 as (key & ws1 & ws2 & v & ws3 & cm & -> & -> & Hw).
    left. eexists. split_and!; [exact Hw|done|]. intros. apply matched_run. }
  destruct (cap_match string_rx line) as [sm|] eqn:E3.
  { apply cap_match_sound, string_reads in E3 as (key & ws1 & ws2 & v & ws3 & cm & -> & -> & Hw).
    left. eexists. split_and!; [exact Hw|done|]. intros. apply matched_run. }
  right. split; [|done]. intros l Hw Hl. rewrite ->cap_match_none in E1, E2, E3.
  destruct l as [|t|name ws cm|key ws1 ws2 [v|v] ws3 cm].
  - by rewrite Hl in El.
  - rewrite Hl in El. by simplify_eq/=.
  - eapply E1, section_reads. eauto 10.
  - eapply E2, value_reads. eauto 15.
  - eapply E3, string_reads. eauto 15.
Qed.

Lemma read_line_print n l : wf_line l → ∀ st, read_line n (print_line l) st = denote l st.
Proof.
  intros Hw st. destruct (read_line_spec n (print_line l)) as [(l' & Hw' & E & ->)|[H _]].
  - by rewrite (line_unique l l').
  - by destruct (H l Hw).
Qed.

(** *** Reading a file *)

(** The text of a file: every line followed by a newline. *)
Definition print_file (ls : list bytes) : bytes := concat ((λ s, s ++ [newline]) <$> ls).

Lemma getlines_from_app acc s k : newline ∉ s → getlines_from acc (s ++ k) = getlines_from (acc ++ s) k.
Proof.
  revert acc. induction s as [|c s IH]; intros acc Hs; simpl; [by rewrite app_nil_r|].
  rewrite bool_decide_eq_false_2; [set_solver|]. rewrite IH; [set_solver|]. by rewrite -app_assoc.
Qed.

Lemma getlines_print ls : Forall (λ s, newline ∉ s) ls → getlines (print_file ls) = ls.
Proof.
  rewrite /getlines /print_file. induction 1 as [|s ls Hs _ IH]; [done|].
  rewrite fmap_cons /= -app_assoc getlines_from_app //=. by rewrite IH.
Qed.

(** A line without newline is what [getline] delivers, so the text of a file
    is known from its lines. *)
Lemma getlines_no_newline_from acc s : newline ∉ acc → Forall (λ l, newline ∉ l) (getlines_from acc s).
Proof.
  revert acc. induction s as [|c s IH]; intros acc Ha; simpl.
  - destruct acc; by repeat constructor.
  - case_bool_decide; [constructor; [done|]; apply IH; set_solver|]. apply IH. set_solver.
Qed.

(** What the lines of a file mean, one after the other: a line of the
    grammar, or a line to skip. *)
Fixpoint run_lines (line_count : Z) (ls : list (option ini_line)) : M ini_state unit :=
  match ls with
  | [] => mret tt
  | l :: ls' =>
      match l with Some l => denote l | None => modify (ini_skip (line_count + 1)) end ;;
      run_lines (line_count + 1) ls'
  end.

(** The text [s] is the line [l] of the grammar, or of none. *)
Definition reads_as (s : bytes) (l : option ini_line) : Prop :=
  match l with
  | Some l => wf_line l ∧ s = print_line l
  | None => ∀ l, wf_line l → s ≠ print_line l
  end.

Lemma bind_ext {S A B} (m m' : M S A) (k k' : A → M S B) s :
  m s = m' s → (∀ a s', k a s' = k' a s') → (m ≫= k) s = (m' ≫= k') s.
Proof. rewrite /mbind /M_bind => -> Hk. destruct (m' s) as [[a|e|w] s']; auto. Qed.

Lemma read_lines_run n lines ls :
  Forall2 reads_as lines ls → ∀ st, read_lines n lines st = run_lines n ls st.
Proof.
  intros H. revert n. induction H as [|s l lines ls Hl _ IH]; intros n st; [done|].
  cbn [read_lines run_lines]. apply bind_ext; [|by intros; rewrite IH]. destruct l as [l|].
  - destruct Hl as [Hw ->]. by apply read_line_print.
  - destruct (read_line_spec (n + 1) s) as [(l & Hw & -> & _)|[_ ->]]; [|done].
    by destruct (Hl l).
Qed.

Lemma reads_as_total lines : ∃ ls, Forall2 reads_as lines ls.
Proof.
  induction lines as [|s lines [ls IH]]; [by exists []|].
  destruct (read_line_spec 0 s) as [(l & Hw & -> & _)|[H _]].
  - exists (Some l :: ls). by constructor.
  - exists (None :: ls). by constructor.
Qed.

(** *** Which files are accepted *)

(** The names of the sections of the lines read so far, and the current
    section with its keys. *)
Definition headers (ls : list (option ini_line)) : list bytes :=
  l ← ls; match l with Some (Header name _ _) => [name] | _ => [] end.
Definition next_section (cur : option (bytes * list bytes)) (l : option ini_line) :
    option (bytes * list bytes) :=
  match l with
  | Some (Header name _ _) => Some (name, [])
  | Some (Entry key _ _ _ _ _) => prod_map id (cons key) <$> cur
  | _ => cur
  end.
Definition current (ls : list (option ini_line)) : option (bytes * list bytes) :=
  foldl next_section None ls.

(** A header starts a section that is new, an entry adds a key that is new
    to the current section. *)
Definition admissible (before : list (option ini_line)) (l : option ini_line) : Prop :=
  match l with
  | Some (Header name _ _) => name ∉ headers before
  | Some (Entry key _ _ _ _ _) => ∃ sec keys, current before = Some (sec, keys) ∧ key ∉ keys
  | _ => True
  end.

(** What the reader has after the lines [ls]. *)
Definition has_read (ls : list (option ini_line)) (st : ini_state) : Prop :=
  dom (ini_map st) = list_to_set (headers ls) ∧
  match current ls with
  | None => ini_section st = []
  | Some (sec, keys) =>
      ini_section st = sec ∧ sec ≠ [] ∧ ∃ kv, ini_map st !! sec = Some kv ∧ dom kv = list_to_set keys
  end.

Lemma headers_snoc ls l :
  headers (ls ++ [l]) = headers ls ++ match l with Some (Header name _ _) => [name] | _ => [] end.
Proof. rewrite /headers bind_app /=. by rewrite app_nil_r. Qed.

Lemma current_snoc ls l : current (ls ++ [l]) = next_section (current ls) l.
Proof. by rewrite /current foldl_app. Qed.

Lemma header_step before st name ws c :
  has_read before st → wf_line (Header name ws c) →
  (name ∉ headers before → ∃ st', new_section [name] st = (Ok tt, st') ∧
     has_read (before ++ [Some (Header name ws c)]) st') ∧
  (name ∈ headers before → ∃ e, new_section [name] st = (Throw (runtime_error e), st)).
Proof.
  intros [Hd _] [[Hne _] _]. assert (is_Some (ini_map st !! name) ↔ name ∈ headers before) as Hin.
  { rewrite -elem_of_dom Hd. set_solver. }
  rewrite /new_section /sub_match /=. split; intros Hn.
  - eexists. rewrite /mbind /M_bind /= bool_decide_eq_false_2; [by rewrite Hin|]. simpl.
    split; [reflexivity|]. split; simpl.
    + rewrite headers_snoc dom_insert_L Hd. set_solver.
    + rewrite current_snoc /=. split_and!; [done..|]. eexists. rewrite lookup_insert.
      split; [by rewrite decide_True|]. assert (ini_map st !! name = None) as ->; [|set_solver].
      apply eq_None_not_Some. by rewrite Hin.
  - eexists. rewrite /mbind /M_bind /= bool_decide_eq_true_2; [by rewrite Hin|]. done.
Qed.

Lemma entry_step before st key v ws1 ws2 w ws3 c :
  has_read before st → v = value_of w →
  (admissible before (Some (Entry key ws1 ws2 w ws3 c)) →
     ∃ st', add_key_value_pair [key; v] st = (Ok tt, st') ∧
       has_read (before ++ [Some (Entry key ws1 ws2 w ws3 c)]) st') ∧
  (¬ admissible before (Some (Entry key ws1 ws2 w ws3 c)) →
     ∃ e st', add_key_value_pair [key; v] st = (Throw (runtime_error e), st')).
Proof.
  intros [Hd Hc] ->. rewrite /add_key_value_pair /sub_match /mbind /M_bind /=.
  destruct (current before) as [[sec keys]|] eqn:Ec.
  - destruct Hc as (Hs & Hne & kv & Hkv & Hk). rewrite Hs bool_decide_eq_false_2 //= Hkv /=.
    assert (is_Some (kv !! key) ↔ key ∈ keys) as Hin.
    { rewrite -elem_of_dom Hk. set_solver. }
    split.
    + intros (? & ? & [= <- <-] & Hn). rewrite bool_decide_eq_false_2; [by rewrite Hin|].
      eexists. split; [reflexivity|]. split; simpl.
      * rewrite headers_snoc app_nil_r !dom_insert_L Hd.
        assert (sec ∈ dom (ini_map st)) by (apply elem_of_dom; eauto). set_solver.
      * rewrite current_snoc Ec /=. split_and!; [done..|]. eexists.
        rewrite lookup_insert decide_True //. split; [done|]. rewrite dom_insert_L Hk. set_solver.
    + intros Hn. rewrite bool_decide_eq_true_2; [|by eauto].
      apply Hin. destruct (decide (key ∈ keys)); [done|]. destruct Hn. eauto.
  - rewrite Hc /=. split; [by intros (? & ? & ? & ?)|]. by eauto.
Qed.

Lemma run_line_step before st l n :
  has_read before st → (∀ x, l = Some x → wf_line x) →
  (admissible before l → ∃ st',
     match l with Some l => denote l | None => modify (ini_skip n) end st = (Ok tt, st') ∧
     has_read (before ++ [l]) st') ∧
  (¬ admissible before l → ∃ e st',
     match l with Some l => denote l | None => modify (ini_skip n) end st = (Throw (runtime_error e), st')).
Proof.
  intros Hr Hw. destruct l as [[|t|name ws c|key ws1 ws2 w ws3 c]|].
  - split; [|by intros []]. intros _. exists st. split; [done|].
    by rewrite /has_read headers_snoc current_snoc app_nil_r.
  - split; [|by intros []]. intros _. exists st. split; [done|].
    by rewrite /has_read headers_snoc current_snoc app_nil_r.
  - destruct (header_step before st name ws c) as [H1 H2]; [done|by apply Hw|].
    split; [done|]. intros Hn. simpl in Hn. destruct H2 as [e ?]; [by apply dec_stable|]. eauto.
  - by apply entry_step.
  - split; [|by intros []]. intros _. eexists. split; [reflexivity|].
    by rewrite /has_read headers_snoc current_snoc app_nil_r.
Qed.

Lemma run_lines_from n before ls st :
  has_read before st → Forall (λ l, ∀ x, l = Some x → wf_line x) ls →
  (∃ st', run_lines n ls st = (Ok tt, st') ∧ has_read (before ++ ls) st' ∧
     ∀ ls1 l ls2, ls = ls1 ++ l :: ls2 → admissible (before ++ ls1) l) ∨
  (∃ e st' ls1 l ls2, run_lines n ls st = (Throw (runtime_error e), st') ∧
     ls = ls1 ++ l :: ls2 ∧ ¬ admissible (before ++ ls1) l).
Proof.
  intros Hr Hw. revert n before st Hr. induction Hw as [|l ls Hl _ IH]; intros n before st Hr.
  { left. exists st. rewrite app_nil_r. split_and!; [done..|]. by intros [|??] ???. }
  destruct (run_line_step before st l (n + 1) Hr Hl) as [Hok Hko].
  assert (admissible before l ∨ ¬ admissible before l) as [Ha|Ha].
  { destruct l as [[|t|name ws c|key ws1 ws2 w ws3 c]|]; simpl; auto.
    - destruct (decide (name ∈ headers before)); auto.
    - destruct (current before) as [[sec keys]|]; [|right; by intros (?&?&?&?)].
      destruct (decide (key ∈ keys)); [|left; eauto]. right. by intros (? & ? & [= <- <-] & ?). }
  - destruct (Hok Ha) as (st1 & E1 & Hr1). cbn [run_lines].
    destruct (IH (n + 1) _ _ Hr1) as [(st' & E & Hr' & Hall)|(e & st' & ls1 & l' & ls2 & E & -> & Hn)].
    + left. exists st'. rewrite (bind_ok _ _ _ _ _ E1). rewrite -app_assoc in Hr'. split_and!; [done..|].
      intros [|l1 ls1] l' ls2 [= -> ?]; [by rewrite app_nil_r|].
      specialize (Hall ls1 l' ls2). rewrite -app_assoc in Hall. auto.
    + right. exists e, st', (l :: ls1), l', ls2. rewrite (bind_ok _ _ _ _ _ E1).
      rewrite -app_assoc in Hn. done.
  - destruct (Hko Ha) as (e & st1 & E1). right. exists e, st1, [], l, ls. cbn [run_lines].
    rewrite (bind_throw _ _ _ _ _ E1) app_nil_r. done.
Qed.

Lemma reads_as_wf lines ls : Forall2 reads_as lines ls → Forall (λ l, ∀ x, l = Some x → wf_line x) ls.
Proof.
  induction 1 as [|s l lines ls Hl _ IH]; constructor; [|done].
  intros x ->. by destruct Hl.
Qed.

Lemma has_read_new : has_read [] new_config_map.
Proof. split; [|done]. by rewrite dom_empty_L. Qed.

(** C28: The INI reader accepts exactly its grammar: every file is read line
    by line, each line either being a line of the grammar (a blank line, a
    comment, a section header or a key with a plain or quoted value, with any
    white space and trailing comment), which has its meaning, or being
    skipped and reported.  Reading ends normally exactly when every header is
    new and every key is new to the current section; otherwise it ends with
    a runtime_error. *)
Theorem ini_reader_exact fs filename contents :
  fs !! filename = Some contents →
  ∃ ls, Forall2 reads_as (getlines contents) ls ∧
    read_ini fs filename new_config_map = run_lines 0 ls new_config_map ∧
    ((∃ st, read_ini fs filename new_config_map = (Ok tt, st)) ↔
       ∀ ls1 l ls2, ls = ls1 ++ l :: ls2 → admissible ls1 l) ∧
    ((∃ st, read_ini fs filename new_config_map = (Ok tt, st)) ∨
     (∃ e st, read_ini fs filename new_config_map = (Throw (runtime_error e), st))).
Proof.
  intros Hf. destruct (reads_as_total (getlines contents)) as [ls Hls]. exists ls.
  assert (read_ini fs filename new_config_map = run_lines 0 ls new_config_map) as E.
  { rewrite /read_ini Hf. by apply read_lines_run. }
  rewrite E.
  destruct (run_lines_from 0 [] ls new_config_map has_read_new (reads_as_wf _ _ Hls))
    as [(st' & -> & _ & Ha)|(e & st' & ls1 & l & ls2 & -> & Hl & Hn)].
  - split_and!; [done..| |by eauto]. split; [done|by eauto].
  - split_and!; [done..| |by eauto]. split; [by intros [? ?]|].
    intros H. by destruct (Hn (H ls1 l ls2 Hl)).
Qed.

(** ** Writing a configuration *)

Definition entry_line (kv : bytes * bytes) : option ini_line :=
  Some (Entry kv.1 (str " ") (str " ") (Quoted kv.2) [] None).
Definition section_lines (sec : bytes * mapped_type) : list (option ini_line) :=
  Some (Header sec.1 [] None) :: (entry_line <$> map_to_list sec.2).
Definition config_lines (cm : container_type) : list (option ini_line) :=
  map_to_list cm ≫= section_lines.

(** The text of the configuration [cm]. *)
Definition print_config (cm : container_type) : bytes :=
  print_file ((λ l, from_option print_line [] l) <$> config_lines cm).

(** Names and keys are words of [name_char]; values are not empty and can be
    quoted. *)
Definition writable_value (v : bytes) : Prop := v ≠ [] ∧ dquote ∉ v ∧ newline ∉ v.
Definition writable_map (m : mapped_type) : Prop :=
  map_Forall (λ k v, name_ok name_char k ∧ writable_value v) m.
Definition writable (cm : container_type) : Prop :=
  map_Forall (λ sec m, name_ok name_char sec ∧ writable_map m) cm.

Lemma no_newline_in p s : p newline = false → all_of p s → newline ∉ s.
Proof. intros Hp Hs Hin. rewrite /all_of Forall_forall in Hs. by rewrite (Hs _ Hin) in Hp. Qed.

Lemma header_reads sec : name_ok name_char sec →
  reads_as (print_line (Header sec [] None)) (Some (Header sec [] None)) ∧
  newline ∉ print_line (Header sec [] None).
Proof.
  intros H. split; [split; [split; [done|constructor]|done]|]. simpl.
  assert (newline ∉ sec) by (eapply no_newline_in; [|apply H]; done).
  rewrite !not_elem_of_cons not_elem_of_app not_elem_of_cons. split_and!; [done..|apply not_elem_of_nil].
Qed.

Lemma entry_reads kv : name_ok name_char kv.1 → writable_value kv.2 →
  reads_as (from_option print_line [] (entry_line kv)) (entry_line kv) ∧
  newline ∉ from_option print_line [] (entry_line kv).
Proof.
  intros Hk (Hne & Hq & Hn). split.
  - split; [|done]. split_and!; [done|by repeat constructor..| |constructor].
    split; [done|]. apply Forall_forall. intros c Hc. apply bool_decide_eq_true. by intros ->.
  - assert (newline ∉ kv.1) by (eapply no_newline_in; [|apply Hk]; done).
    simpl. rewrite !app_nil_r.
    rewrite not_elem_of_app !not_elem_of_cons not_elem_of_app not_elem_of_cons.
    split_and!; [done..|apply not_elem_of_nil].
Qed.

Lemma config_reads cm : writable cm →
  Forall (λ l, reads_as (from_option print_line [] l) l ∧ newline ∉ from_option print_line [] l)
    (config_lines cm).
Proof.
  intros Hw. rewrite /config_lines Forall_bind Forall_forall. intros [sec m] Hin%elem_of_map_to_list.
  destruct (Hw _ _ Hin) as [Hs Hm]. constructor; [by apply header_reads|].
  apply Forall_fmap, Forall_forall. intros [k v] Hkv%elem_of_map_to_list.
  destruct (Hm _ _ Hkv). by apply entry_reads.
Qed.

Lemma entries_run n st sec m kvs :
  ini_section st = sec → sec ≠ [] → ini_map st !! sec = Some m →
  NoDup kvs.*1 → (∀ k, k ∈ kvs.*1 → m !! k = None) →
  run_lines n (entry_line <$> kvs) st =
    (Ok tt, ini_set_map (<[sec := list_to_map kvs ∪ m]> (ini_map st)) st).
Proof.
  revert n st m. induction kvs as [|[k v] kvs IH]; intros n st m Hs Hne Hm Hnd Hk.
  - rewrite /= left_id_L insert_id //. by destruct st.
  - rewrite fmap_cons. cbn [run_lines]. apply NoDup_cons in Hnd as [Hk' Hnd].
    assert (m !! k = None) as Hmk by (apply Hk; left).
    erewrite bind_ok; cycle 1.
    { rewrite /= /add_key_value_pair /sub_match /mbind /M_bind /= Hs bool_decide_eq_false_2 //=.
      rewrite Hm /= bool_decide_eq_false_2; [by rewrite Hmk; intros [? ?]|]. reflexivity. }
    rewrite (IH _ _ (<[k := v]> m)); simpl; [done|done| |done| |].
    + by rewrite lookup_insert_eq.
    + intros k' Hin. rewrite lookup_insert_ne; [by intros <-|]. apply Hk. by right.
    + rewrite !insert_insert_eq. rewrite /ini_set_map /=. do 3 f_equal.
      rewrite -insert_union_l insert_union_r //. by apply not_elem_of_list_to_map_1.
Qed.

Lemma run_lines_app n ls ls' st st' :
  run_lines n ls st = (Ok tt, st') → run_lines n (ls ++ ls') st = run_lines (n + zlen ls) ls' st'.
Proof.
  revert n st. induction ls as [|l ls IH]; intros n st; cbn [run_lines app].
  - intros [= ->]. by rewrite zlen_nil Z.add_0_r.
  - intros ([] & st1 & E1 & E2)%bind_inv_ok. rewrite (bind_ok _ _ _ _ _ E1) (IH _ _ E2).
    rewrite zlen_cons. by rewrite Z.add_assoc.
Qed.

Lemma section_run n st sec m :
  sec ≠ [] → ini_map st !! sec = None →
  run_lines n (section_lines (sec, m)) st =
    (Ok tt, {| ini_map := <[sec := m]> (ini_map st); ini_section := sec; ini_skipped := ini_skipped st |}).
Proof.
  intros Hne Hs. rewrite /section_lines. cbn [run_lines fst snd].
  erewrite bind_ok; cycle 1.
  { rewrite /= /new_section /sub_match /mbind /M_bind /= bool_decide_eq_false_2;
      [by rewrite Hs; intros [? ?]|]. reflexivity. }
  rewrite Hs /= (entries_run _ _ sec ∅); [done|done| | | |].
  - by rewrite /= lookup_insert_eq.
  - apply NoDup_fst_map_to_list.
  - intros. apply lookup_empty.
  - simpl. rewrite insert_insert_eq map_union_empty list_to_map_to_list. done.
Qed.

Lemma sections_run n st l :
  Forall (λ x, x.1 ≠ []) l → NoDup l.*1 → (∀ sec, sec ∈ l.*1 → ini_map st !! sec = None) →
  ∃ sec, run_lines n (l ≫= section_lines) st =
    (Ok tt, {| ini_map := list_to_map l ∪ ini_map st; ini_section := sec; ini_skipped := ini_skipped st |}).
Proof.
  intros Hl. revert n st. induction Hl as [|[sec m] l Hne Hl IH]; intros n st Hnd Hs.
  - exists (ini_section st). rewrite /= left_id_L. by destruct st.
  - apply NoDup_cons in Hnd as [Hsec Hnd]. rewrite bind_cons.
    assert (ini_map st !! sec = None) as Hsm by (apply Hs; left).
    erewrite run_lines_app; [|by apply section_run].
    destruct (IH (n + zlen (section_lines (sec, m)))
      {| ini_map := <[sec := m]> (ini_map st); ini_section := sec; ini_skipped := ini_skipped st |} Hnd)
      as [sec' E]; [|exists sec'; rewrite E].
    + intros sec' Hin. simpl. rewrite lookup_insert_ne; [by intros ->|]. apply Hs. by right.
    + cbn [ini_map list_to_map foldr fmap list_fmap uncurry fst snd]. do 2 f_equal.
      rewrite -insert_union_l insert_union_r //. by apply not_elem_of_list_to_map_1.
Qed.

(** Writing a configuration and reading it back gives the configuration:
    no line is skipped, no exception is thrown and the map is the same, for
    every configuration whose section names and keys are words and whose
    values are not empty and contain neither a quote nor a newline. *)
Theorem ini_roundtrip fs filename cm :
  writable cm → fs !! filename = Some (print_config cm) →
  ∃ sec, read_ini fs filename new_config_map =
    (Ok tt, {| ini_map := cm; ini_section := sec; ini_skipped := [] |}).
Proof.
  intros Hw Hf. pose proof (config_reads cm Hw) as Hc. rewrite /read_ini Hf.
  destruct (sections_run 0 new_config_map (map_to_list cm)) as [sec E].
  - apply Forall_forall. intros [sec m] Hin%elem_of_map_to_list. by destruct (Hw _ _ Hin) as [[? _] _].
  - apply NoDup_fst_map_to_list.
  - intros. apply lookup_empty.
  - exists sec. rewrite list_to_map_to_list map_union_empty in E. rewrite -E.
    rewrite /mbind /M_bind /=. apply (read_lines_run 0 (getlines _) (config_lines cm)).
    rewrite getlines_print.
    + apply Forall_fmap. eapply Forall_impl; [done|]. by intros l [_ ?].
    + apply Forall2_fmap_l, Forall_Forall2_diag. eapply Forall_impl; [done|]. by intros l [? _].
Qed.

(** ** Concrete files *)

Definition example_ini : bytes :=
  print_file [str "; middleware"; str "[global]"; str "log_level = info ; quiet"; str "junk line";
              str "[ipm]"; str "file=modules/libipm.so"].

Lemma example_ini_read :
  read_ini {[str "middleware.ini" := example_ini]} (str "middleware.ini") new_config_map =
  (Ok tt, {| ini_map := {[str "global" := {[str "log_level" := str "info"]};
                          str "ipm" := {[str "file" := str "modules/libipm.so"]}]};
             ini_section := str "ipm"; ini_skipped := [4] |}).
Proof. vm_compute. reflexivity. Qed.

Lemma ini_reader_exact_witness :
  ∃ ls, Forall2 reads_as (getlines example_ini) ls ∧
    read_ini {[str "middleware.ini" := example_ini]} (str "middleware.ini") new_config_map =
      run_lines 0 ls new_config_map.
Proof.
  destruct (ini_reader_exact {[str "middleware.ini" := example_ini]} (str "middleware.ini") example_ini)
    as (ls & H1 & H2 & _); [reflexivity|]. exists ls. exact (conj H1 H2).
Defined.

Definition example_config : container_type :=
  {[str "global" := {[str "log_level" := str "info"]}; str "ipm" := {[str "file" := str "a b"]}]}.

Lemma example_config_writable : writable example_config.
Proof.
  rewrite /example_config /writable.
  assert (∀ s : bytes, forallb name_char s && negb (bool_decide (s = [])) = true → name_ok name_char s) as Hn.
  { intros s [H1 H2]%andb_true_iff. split; [by apply negb_true_iff, bool_decide_eq_false in H2|].
    apply Forall_forall. intros c Hc%list_elem_of_In. by eapply forallb_forall in H1. }
  assert (∀ v : bytes, bool_decide (v ≠ [] ∧ dquote ∉ v ∧ newline ∉ v) = true → writable_value v) as Hv.
  { intros v. by rewrite bool_decide_eq_true. }
  apply map_Forall_insert_2.
  { split; [by apply Hn|]. apply map_Forall_singleton. split; [by apply Hn|by apply Hv]. }
  apply map_Forall_singleton. split; [by apply Hn|]. apply map_Forall_singleton.
  split; [by apply Hn|by apply Hv].
Qed.

Lemma ini_roundtrip_witness :
  ∃ sec, read_ini {[str "f" := print_config example_config]} (str "f") new_config_map =
    (Ok tt, {| ini_map := example_config; ini_section := sec; ini_skipped := [] |}).
Proof. exact (ini_roundtrip {[str "f" := print_config example_config]} (str "f") example_config example_config_writable eq_refl). Defined.
