(* ===== verification/MiddlewareConfig.v ===== *)
(** * The configuration of a running middleware

    [ipc::middleware_configuration] ([middleware_configuration.cpp]): the
    port and the process id of the running middleware, written to a file at
    the meeting point and read by every client.  What is written is read
    back, and the reader is characterised on every file. *)

From S2P Require Import Prelude Config Regex Uri ConfigMap.

(** ** Numbers as text *)

Definition digit (d : Z) : byte := z2b (48 + d).

(** The decimal representation of [n >= 0]; the fuel is the number of binary
    digits. *)
Fixpoint dec_digits (fuel : nat) (n : Z) : bytes :=
  match fuel with
  | O => []
  | S fuel' => if n <? 10 then [digit n] else dec_digits fuel' (n / 10) ++ [digit (n mod 10)]
  end.
Definition dec_unsigned (n : Z) : bytes := dec_digits (S (Z.to_nat (Z.log2 n))) n.

(** [boost::lexical_cast<std::string>(n)] and [stream << n]. *)
Definition dec (n : Z) : bytes := if n <? 0 then "-"%char :: dec_unsigned (- n) else dec_unsigned n.

(** An optional sign and the rest. *)
Definition split_sign (s : bytes) : bool * bytes :=
  match s with
  | c :: s' => if bool_decide (c = "-"%char) then (true, s')
               else if bool_decide (c = "+"%char) then (false, s') else (false, s)
  | [] => (false, [])
  end.

(** [boost::lexical_cast<T>(s)] for an unsigned and a signed type of [w]
    bits; [None] is [bad_lexical_cast].  A minus sign is accepted for an
    unsigned type, the result is the negation modulo [2^w]. *)
Definition lexical_cast_unsigned (w : Z) (s : bytes) : option Z :=
  let '(neg, ds) := split_sign s in
  let v := digits_value 0 ds in
  if negb (bool_decide (ds = [])) && forallb isdigit ds && (v <? 2 ^ w) then
    Some (if neg then uwrap w (- v) else v)
  else None.
Definition lexical_cast_signed (w : Z) (s : bytes) : option Z :=
  let '(neg, ds) := split_sign s in
  let v := digits_value 0 ds in
  if negb (bool_decide (ds = [])) && forallb isdigit ds &&
     (v <? (if neg then 2 ^ (w - 1) + 1 else 2 ^ (w - 1)))
  then Some (if neg then - v else v) else None.

(** *** Properties *)

Lemma digit_b2z d : 0 <= d <= 9 → b2z (digit d) = 48 + d.
Proof. intros. rewrite /digit b2z_z2b Z.mod_small; lia. Qed.

Lemma isdigit_digit d : 0 <= d <= 9 → isdigit (digit d) = true.
Proof. intros. rewrite /isdigit digit_b2z //. apply andb_true_iff. split; lia. Qed.

Lemma digits_value_snoc acc s d :
  forallb isdigit s = true → 0 <= d <= 9 →
  digits_value acc (s ++ [digit d]) = 10 * digits_value acc s + d.
Proof.
  intros Hs Hd. revert acc. induction s as [|c s IH]; intros acc; simpl.
  - rewrite isdigit_digit // digit_b2z //. lia.
  - apply andb_true_iff in Hs as [Hc Hs]. rewrite Hc. by apply IH.
Qed.

Lemma dec_digits_spec fuel n :
  0 <= n < 10 ^ Z.of_nat fuel → (0 < fuel)%nat →
  forallb isdigit (dec_digits fuel n) = true ∧ digits_value 0 (dec_digits fuel n) = n ∧
  ∃ d s, dec_digits fuel n = digit d :: s ∧ 0 <= d <= 9 ∧ (1 <= n → 1 <= d).
Proof.
  revert n. induction fuel as [|fuel IH]; intros n Hn Hf; [lia|]. cbn [dec_digits].
  destruct (Z.ltb_spec n 10).
  - split_and!.
    + rewrite /= isdigit_digit //. lia.
    + rewrite /= isdigit_digit ?digit_b2z; lia.
    + exists n, []. split_and!; [done|lia..].
  - rewrite Nat2Z.inj_succ Z.pow_succ_r in Hn; [lia|].
    assert (0 < fuel)%nat. { destruct fuel; simpl in Hn; lia. }
    pose proof (Z.mod_pos_bound n 10). assert (0 <= n / 10 < 10 ^ Z.of_nat fuel).
    { split; [apply Z.div_pos; lia|]. apply Z.div_lt_upper_bound; lia. }
    destruct (IH (n / 10)) as (Hi & Hv & d & s & E & Hd & Hp); [done..|]. split_and!.
    + rewrite forallb_app Hi /= isdigit_digit //. lia.
    + rewrite digits_value_snoc //; [lia|]. rewrite Hv. pose proof (Z.div_mod n 10). lia.
    + exists d, (s ++ [digit (n mod 10)]). rewrite E. split_and!; [done|lia..|].
      intros _. apply Hp. apply Z.div_le_lower_bound; lia.
Qed.

Lemma dec_unsigned_spec n :
  0 <= n →
  forallb isdigit (dec_unsigned n) = true ∧ digits_value 0 (dec_unsigned n) = n ∧
  ∃ d s, dec_unsigned n = digit d :: s ∧ 0 <= d <= 9 ∧ (1 <= n → 1 <= d).
Proof.
  intros Hn. apply dec_digits_spec; [|lia]. split; [done|].
  rewrite Nat2Z.inj_succ. rewrite -> Z2Nat.id by apply Z.log2_nonneg.
  apply Z.lt_le_trans with (2 ^ Z.succ (Z.log2 n)).
  - destruct (decide (n = 0)) as [->|]; [done|]. apply Z.log2_spec. lia.
  - apply Z.pow_le_mono_l. lia.
Qed.

Lemma split_sign_digits c s : isdigit c = true → split_sign (c :: s) = (false, c :: s).
Proof.
  intros H. rewrite /split_sign. case_bool_decide; [by subst|]. case_bool_decide; [by subst|done].
Qed.

(** Text that is a number without sign: the value, unless it is too large. *)
Lemma lexical_cast_unsigned_digits w s :
  s ≠ [] → forallb isdigit s = true →
  lexical_cast_unsigned w s = if digits_value 0 s <? 2 ^ w then Some (digits_value 0 s) else None.
Proof.
  intros Hne Hs. destruct s as [|c s]; [done|]. rewrite /lexical_cast_unsigned.
  rewrite split_sign_digits; [by simpl in Hs; apply andb_true_iff in Hs as [? _]|].
  by rewrite Hs bool_decide_eq_false_2.
Qed.

Lemma lexical_cast_signed_digits w s :
  s ≠ [] → forallb isdigit s = true →
  lexical_cast_signed w s = if digits_value 0 s <? 2 ^ (w - 1) then Some (digits_value 0 s) else None.
Proof.
  intros Hne Hs. destruct s as [|c s]; [done|]. rewrite /lexical_cast_signed.
  rewrite split_sign_digits; [by simpl in Hs; apply andb_true_iff in Hs as [? _]|].
  by rewrite Hs bool_decide_eq_false_2.
Qed.

(** Printing and parsing a number. *)
Lemma lexical_cast_dec w n : 0 <= n < 2 ^ w → lexical_cast_unsigned w (dec n) = Some n.
Proof.
  intros Hn. rewrite /dec. destruct (Z.ltb_spec n 0); [lia|].
  destruct (dec_unsigned_spec n) as (H1 & H2 & d & s & E & _); [lia|].
  rewrite lexical_cast_unsigned_digits // ?H2; [by rewrite E|]. destruct (Z.ltb_spec n (2 ^ w)); [done|lia].
Qed.

Lemma lexical_cast_signed_dec w n : 0 <= n < 2 ^ (w - 1) → lexical_cast_signed w (dec n) = Some n.
Proof.
  intros Hn. rewrite /dec. destruct (Z.ltb_spec n 0); [lia|].
  destruct (dec_unsigned_spec n) as (H1 & H2 & d & s & E & _); [lia|].
  rewrite lexical_cast_signed_digits // ?H2; [by rewrite E|]. destruct (Z.ltb_spec n (2 ^ (w - 1))); [done|lia].
Qed.

(** ** The class *)

Record middleware_configuration := {
  mc_port : Z;
  mc_str_port : bytes;
  mc_pid : Z
}.
Definition mc_set_port (p : Z) (mc : middleware_configuration) : middleware_configuration :=
  {| mc_port := p; mc_str_port := mc_str_port mc; mc_pid := mc_pid mc |}.
Definition mc_set_str_port (s : bytes) (mc : middleware_configuration) : middleware_configuration :=
  {| mc_port := mc_port mc; mc_str_port := s; mc_pid := mc_pid mc |}.
Definition mc_set_pid (p : Z) (mc : middleware_configuration) : middleware_configuration :=
  {| mc_port := mc_port mc; mc_str_port := mc_str_port mc; mc_pid := p |}.

(** The two constructors; the second asks the system for the process id. *)
Definition new_configuration : middleware_configuration :=
  {| mc_port := 0; mc_str_port := str "0"; mc_pid := 0 |}.
Definition configuration_at (getpid port : Z) : middleware_configuration :=
  {| mc_port := port; mc_str_port := dec port; mc_pid := getpid |}.

Definition string_config (mc : middleware_configuration) : bytes :=
  str "middleware.port = " ++ mc_str_port mc ++ [newline] ++
  str "middleware.pid = " ++ dec (mc_pid mc) ++ [newline].

(** [write_to] and [write]; [openable] says for which names an output stream
    can be opened, the state is the contents of the files. *)
Definition write_to (openable : bytes → bool) (mc : middleware_configuration) (filename : bytes) :
    M (gmap bytes bytes) bool :=
  if openable filename then modify (<[filename := string_config mc]>) ;; mret true
  else mret false.
Definition mc_write (openable : bytes → bool) (mc : middleware_configuration) : M (gmap bytes bytes) bool :=
  write_to openable mc (meeting_point ++ config_filename).

Definition Lit (s : bytes) : list part := (λ c, Txt (Chr c)) <$> s.

(** A captured number: one of 1 to 9 and any digits. *)
Definition number_rx : part := Grp (Seq (Range "1"%char "9"%char) (Star (Cls isdigit))).
Definition port_regex : list part := Lit (str "middleware.port = ") ++ [number_rx].
Definition pid_regex : list part := Lit (str "middleware.pid = ") ++ [number_rx].

(** The loop of [read_from] with its early returns. *)
Fixpoint read_from_loop (port_given pid_given : bool) (lines : list bytes) :
    M middleware_configuration bool :=
  match lines with
  | [] => mret (port_given && pid_given)
  | [] :: lines' => read_from_loop port_given pid_given lines'
  | line :: lines' =>
      match cap_match port_regex line with
      | Some sm =>
          if port_given then mret false
          else match lexical_cast_unsigned 16 (sub_match sm 1) with
               | Some p => modify (mc_set_port p) ;; read_from_loop true pid_given lines'
               | None => mret false
               end
      | None =>
          match cap_match pid_regex line with
          | Some sm =>
              if pid_given then mret false
              else match lexical_cast_signed 32 (sub_match sm 1) with
                   | Some p => modify (mc_set_pid p) ;; read_from_loop port_given true lines'
                   | None => mret false
                   end
          | None => read_from_loop port_given pid_given lines'
          end
      end
  end.

(** [read_from] and [read]; a file that cannot be opened has no lines. *)
Definition read_from (fs : gmap bytes bytes) (filename : bytes) : M middleware_configuration bool :=
  modify (mc_set_port 0) ;;
  modify (mc_set_str_port (str "0")) ;;
  read_from_loop false false (from_option getlines [] (fs !! filename)).
Definition mc_read (fs : gmap bytes bytes) : M middleware_configuration bool :=
  read_from fs (meeting_point ++ config_filename).

(** ** What a line says *)

(** The decimal numbers without leading zeros. *)
Definition numeral (s : bytes) : Prop :=
  ∃ d s', s = digit d :: s' ∧ 1 <= d <= 9 ∧ forallb isdigit s' = true.

Lemma matches_number s : matches (part_regex number_rx) s ↔ numeral s.
Proof.
  rewrite /= matches_seq_inv. split.
  - intros (s1 & s2 & -> & H1 & H2%matches_star_cls).
    apply matches_cls_inv in H1 as (c & -> & [Ha Hb]%andb_true_iff).
    exists (b2z c - 48), s2. split_and!.
    + rewrite /digit. replace (48 + (b2z c - 48)) with (b2z c) by lia. by rewrite z2b_b2z.
    + apply Z.leb_le in Ha. change (49 <= b2z c) in Ha. lia.
    + apply Z.leb_le in Hb. change (b2z c <= 57) in Hb. lia.
    + apply forallb_forall. intros x Hx. rewrite /all_of Forall_forall in H2. by apply H2, list_elem_of_In.
  - intros (d & s' & -> & Hd & Hs). exists [digit d], s'. split_and!; [done| |].
    + constructor. rewrite digit_b2z; [lia|]. apply andb_true_iff.
      change (b2z "1"%char) with 49. change (b2z "9"%char) with 57. split; lia.
    + apply matches_star_cls, Forall_forall. intros x Hx. rewrite ->forallb_forall in Hs.
      by apply Hs, list_elem_of_In.
Qed.

Lemma cap_parses_lit t ps s cs : cap_parses (Lit t ++ ps) s cs ↔ ∃ s', s = t ++ s' ∧ cap_parses ps s' cs.
Proof.
  revert s. induction t as [|c t IH]; intros s; [naive_solver|].
  rewrite /Lit fmap_cons -/(Lit t) /= cap_parses_cons_inv. split.
  - intros (s1 & s2 & cs' & -> & -> & ->%matches_chr_inv & (s' & -> & ?)%IH). simpl. eauto.
  - intros (s' & -> & H). exists [c], (t ++ s'), cs. split_and!; [done..|by apply matches_chr_inv|].
    apply IH. eauto.
Qed.

Lemma number_line t s cs :
  cap_match (Lit t ++ [number_rx]) s = Some cs ↔ ∃ n, s = t ++ n ∧ cs = [n] ∧ numeral n.
Proof.
  assert (∀ s cs, cap_parses (Lit t ++ [number_rx]) s cs ↔ ∃ n, s = t ++ n ∧ cs = [n] ∧ numeral n) as Hp.
  { intros s' cs'. rewrite cap_parses_lit. split.
    - intros (s1 & -> & H). apply cap_parses_cons_inv in H as (n & s2 & cs2 & -> & -> & H & [-> ->]%cap_parses_nil_inv).
      apply matches_number in H. exists n. rewrite app_nil_r. done.
    - intros (n & -> & -> & Hn). exists n. split; [done|]. apply cap_parses_cons_inv.
      exists n, [], []. rewrite app_nil_r. split_and!; [done..|by apply matches_number|constructor]. }
  rewrite cap_match_spec; [|by apply Hp].
  intros x c1 c2 (n1 & -> & -> & _)%Hp (n2 & ->%app_inv_head & -> & _)%Hp. done.
Qed.

(** The numbers a file gives with the lines that start with the text [t]. *)
Definition numbers (rx : list part) (lines : list bytes) : list Z :=
  omap (λ line, (λ sm, digits_value 0 (sub_match sm 1)) <$> cap_match rx line) lines.

(** A number is given once, and below the limit. *)
Definition accepted (given : bool) (ns : list Z) (limit : Z) : bool :=
  match given, ns with
  | true, [] => true
  | false, [n] => n <? limit
  | _, _ => false
  end.

Lemma numeral_digits s : numeral s → s ≠ [] ∧ forallb isdigit s = true ∧ split_sign s = (false, s).
Proof.
  intros (d & s' & -> & Hd & Hs). assert (isdigit (digit d) = true) by (apply isdigit_digit; lia).
  split_and!; [done| |by apply split_sign_digits]. simpl. by rewrite H.
Qed.

Lemma numbers_cons rx line lines :
  numbers rx (line :: lines) =
    match cap_match rx line with
    | Some sm => digits_value 0 (sub_match sm 1) :: numbers rx lines
    | None => numbers rx lines
    end.
Proof. rewrite /numbers /=. by destruct (cap_match rx line). Qed.

Lemma sub_match_1 (n : bytes) : sub_match [n] 1 = n.
Proof. done. Qed.

Lemma port_pid_disjoint line sm : cap_match port_regex line = Some sm → cap_match pid_regex line = None.
Proof.
  intros (n & -> & _)%number_line. destruct (cap_match pid_regex _) as [sm'|] eqn:E; [|done].
  by apply number_line in E as (n' & ? & _).
Qed.

Lemma empty_line_gives_nothing : cap_match port_regex [] = None ∧ cap_match pid_regex [] = None.
Proof. by vm_compute. Qed.

Lemma read_from_loop_spec pg qg lines mc :
  ∃ b mc', read_from_loop pg qg lines mc = (Ok b, mc') ∧
    b = accepted pg (numbers port_regex lines) (2 ^ 16) && accepted qg (numbers pid_regex lines) (2 ^ 31) ∧
    (b = true → mc' = {| mc_port := if pg then mc_port mc else hd 0 (numbers port_regex lines);
                         mc_str_port := mc_str_port mc;
                         mc_pid := if qg then mc_pid mc else hd 0 (numbers pid_regex lines) |}).
Proof.
  revert pg qg mc. induction lines as [|line lines IH]; intros pg qg mc.
  { exists (pg && qg), mc. split_and!; [done|by destruct pg, qg|].
    intros [-> ->]%andb_true_iff. by destruct mc. }
  rewrite !numbers_cons. destruct line as [|c line].
  { destruct empty_line_gives_nothing as [-> ->]. apply IH. }
  cbn [read_from_loop]. destruct (cap_match port_regex (c :: line)) as [sm|] eqn:E1.
  - rewrite (port_pid_disjoint _ _ E1). destruct pg.
    { exists false, mc. by destruct (numbers port_regex lines). }
    apply number_line in E1 as (n & _ & -> & (Hne & Hd & _)%numeral_digits).
    rewrite sub_match_1 lexical_cast_unsigned_digits //.
    destruct (Z.ltb_spec (digits_value 0 n) (2 ^ 16)) as [Hl|Hl].
    + destruct (IH true qg (mc_set_port (digits_value 0 n) mc)) as (b & mc' & E & Hb & Hmc).
      exists b, mc'. split_and!; [done| |].
      * rewrite Hb. destruct (numbers port_regex lines); [|done]. cbn [accepted].
        by rewrite (proj2 (Z.ltb_lt _ _) Hl).
      * intros ->. by rewrite Hmc.
    + exists false, mc. split_and!; [done| |done]. destruct (numbers port_regex lines); [|done]. cbn [accepted].
      by rewrite (proj2 (Z.ltb_ge _ _) Hl).
  - destruct (cap_match pid_regex (c :: line)) as [sm|] eqn:E2; [|apply IH]. destruct qg.
    { exists false, mc. split_and!; [done| |done].
      by destruct (accepted pg _ _), (numbers pid_regex lines). }
    apply number_line in E2 as (n & _ & -> & (Hne & Hd & _)%numeral_digits).
    rewrite sub_match_1 lexical_cast_signed_digits //. change (32 - 1) with 31.
    destruct (Z.ltb_spec (digits_value 0 n) (2 ^ 31)) as [Hl|Hl].
    + destruct (IH pg true (mc_set_pid (digits_value 0 n) mc)) as (b & mc' & E & Hb & Hmc).
      exists b, mc'. split_and!; [done| |].
      * rewrite Hb. destruct (numbers pid_regex lines); [|by rewrite !andb_false_r]. cbn [accepted].
        by rewrite (proj2 (Z.ltb_lt _ _) Hl).
      * intros ->. by rewrite Hmc.
    + exists false, mc. split_and!; [done| |done].
      destruct (numbers pid_regex lines); [|by rewrite !andb_false_r]. cbn [accepted].
      by rewrite (proj2 (Z.ltb_ge _ _) Hl) andb_false_r.
Qed.

(** The configuration file of a middleware is read exactly when it gives
    one port and one process id: [read_from] returns true if and only if
    exactly one line is [middleware.port = N] and exactly one line is
    [middleware.pid = N], with numbers without leading zeros that fit 16 and
    31 bits; then these are the port and the process id.  All other lines are
    ignored, and a missing file is not read.  The port as a string is left at
    [0]. *)
Theorem read_from_exact fs filename mc :
  let lines := from_option getlines [] (fs !! filename) in
  ∃ b mc', read_from fs filename mc = (Ok b, mc') ∧
    (b = true ↔ ∃ port pid, numbers port_regex lines = [port] ∧ port < 2 ^ 16 ∧
                            numbers pid_regex lines = [pid] ∧ pid < 2 ^ 31) ∧
    (b = true → numbers port_regex lines = [mc_port mc'] ∧ numbers pid_regex lines = [mc_pid mc'] ∧
                mc_str_port mc' = str "0").
Proof.
  intros lines.
  destruct (read_from_loop_spec false false lines (mc_set_str_port (str "0") (mc_set_port 0 mc)))
    as (b & mc' & E & Hb & Hmc). exists b, mc'. split; [exact E|]. clear E. clearbody lines.
  destruct (numbers port_regex lines) as [|n [|??]], (numbers pid_regex lines) as [|q [|??]];
    cbn [accepted andb] in Hb; rewrite ?andb_false_r in Hb; subst b;
    try (split; [split; [done|by intros (? & ? & ? & ? & ? & ?)]|done]).
  split; [|by intros ->%Hmc]. rewrite andb_true_iff !Z.ltb_lt. naive_solver.
Qed.

(** *** Writing and reading *)

Lemma dec_numeral n : 1 <= n → numeral (dec n) ∧ digits_value 0 (dec n) = n.
Proof.
  intros Hn. rewrite /dec. destruct (Z.ltb_spec n 0); [lia|].
  destruct (dec_unsigned_spec n) as (H1 & H2 & d & s & E & Hd & Hp); [lia|]. split; [|done].
  exists d, s. rewrite E in H1 |- *. split_and!; [done|lia..|].
  simpl in H1. by apply andb_true_iff in H1 as [_ ?].
Qed.

Lemma numbers_written mc t :
  1 <= mc_pid mc → 1 <= t → mc_str_port mc = dec t →
  numbers port_regex (getlines (string_config mc)) = [t] ∧
  numbers pid_regex (getlines (string_config mc)) = [mc_pid mc].
Proof.
  intros Hp Ht Hs. destruct (dec_numeral t Ht) as [N1 V1], (dec_numeral (mc_pid mc) Hp) as [N2 V2].
  assert (∀ s, numeral s → newline ∉ s) as Hnl.
  { intros s (_ & Hd & _)%numeral_digits Hin%list_elem_of_In. rewrite ->forallb_forall in Hd.
    by specialize (Hd _ Hin). }
  assert (getlines (string_config mc) = [str "middleware.port = " ++ dec t; str "middleware.pid = " ++ dec (mc_pid mc)])
    as ->.
  { transitivity (getlines (print_file
      [str "middleware.port = " ++ dec t; str "middleware.pid = " ++ dec (mc_pid mc)])).
    - f_equal. by rewrite /print_file /string_config Hs /= app_nil_r -!app_assoc.
    - apply getlines_print. repeat constructor; rewrite not_elem_of_app;
        (split; [by apply (bool_decide_unpack _)|auto]). }
  assert (cap_match port_regex (str "middleware.port = " ++ dec t) = Some [dec t]) as E1
    by (apply number_line; eauto).
  assert (cap_match pid_regex (str "middleware.pid = " ++ dec (mc_pid mc)) = Some [dec (mc_pid mc)]) as E2
    by (apply number_line; eauto).
  rewrite !numbers_cons E1 E2 (port_pid_disjoint _ _ E1).
  destruct (cap_match port_regex (str "middleware.pid = " ++ _)) eqn:E3.
  { apply port_pid_disjoint in E3. congruence. }
  rewrite /sub_match /= V1 V2. done.
Qed.

Lemma written_config_read getpid port fs mc :
  1 <= port < 2 ^ 16 → 1 <= getpid < 2 ^ 31 →
  fs !! (meeting_point ++ config_filename) = Some (string_config (configuration_at getpid port)) →
  mc_read fs mc = (Ok true, {| mc_port := port; mc_str_port := str "0"; mc_pid := getpid |}).
Proof.
  intros Hport Hpid Hf.
  destruct (numbers_written (configuration_at getpid port) port) as [E1 E2]; [simpl; lia|lia|done|].
  destruct (read_from_loop_spec false false (getlines (string_config (configuration_at getpid port)))
    (mc_set_str_port (str "0") (mc_set_port 0 mc))) as (b & mc' & E & Hb & Hmc).
  rewrite E1 E2 in Hb Hmc. cbn [accepted] in Hb.
  assert (b = true) as ->.
  { rewrite Hb. apply andb_true_iff. rewrite !Z.ltb_lt. simpl. lia. }
  rewrite Hmc // in E. rewrite /mc_read /read_from Hf. exact E.
Qed.

(** What a middleware writes at the meeting point is what its clients
    read: for every port from 1 to 65535 and every process id, a
    configuration that could be written is read with the same port and
    process id. *)
Theorem configuration_roundtrip openable getpid port fs :
  1 <= port < 2 ^ 16 → 1 <= getpid < 2 ^ 31 → openable (meeting_point ++ config_filename) = true →
  ∃ fs', mc_write openable (configuration_at getpid port) fs = (Ok true, fs') ∧
    ∀ mc, mc_read fs' mc = (Ok true, {| mc_port := port; mc_str_port := str "0"; mc_pid := getpid |}).
Proof.
  intros Hport Hpid Ho. rewrite /mc_write /write_to Ho. eexists. split; [reflexivity|]. intros mc.
  apply written_config_read; [done..|]. apply lookup_insert_eq.
Qed.

Lemma configuration_roundtrip_witness :
  ∃ fs', mc_write (λ _, true) (configuration_at 4711 32768) ∅ = (Ok true, fs') ∧
    mc_read fs' new_configuration =
      (Ok true, {| mc_port := 32768; mc_str_port := str "0"; mc_pid := 4711 |}).
Proof.
  destruct (configuration_roundtrip (λ _, true) 4711 32768 ∅) as (fs' & H1 & H2); [lia..|reflexivity|].
  exists fs'. exact (conj H1 (H2 new_configuration)).
Defined.

(** Port 0, a leading zero, a port that does not fit and a port given twice
    are refused. *)
Example refused_configurations :
  (λ t, (read_from {[str "f" := t]} (str "f") new_configuration).1) <$>
    [print_file [str "middleware.port = 0"; str "middleware.pid = 1"];
     print_file [str "middleware.port = 01"; str "middleware.pid = 1"];
     print_file [str "middleware.port = 65536"; str "middleware.pid = 1"];
     print_file [str "middleware.port = 1"; str "middleware.port = 1"; str "middleware.pid = 1"]]
  = [Ok false; Ok false; Ok false; Ok false].
Proof. vm_compute. reflexivity. Qed.
