(* ===== verification/Logging.v ===== *)
(** * Logging

    [hamcast_logging.cpp], compiled with [HC_ENABLE_LOGGING]: the global log
    function, the default functions for the six levels, and one log file per
    thread.  The theorems say which messages reach which file. *)

From S2P Require Import Prelude MiddlewareConfig.

Definition HC_LOG_TRACE_LVL : Z := 0x0100.
Definition HC_LOG_DEBUG_LVL : Z := 0x0200.
Definition HC_LOG_INFO_LVL : Z := 0x0300.
Definition HC_LOG_WARN_LVL : Z := 0x0400.
Definition HC_LOG_ERROR_LVL : Z := 0x0500.
Definition HC_LOG_FATAL_LVL : Z := 0x0600.

(** A function pointer of type [hc_log_fun_t]: one of the file's own, or a
    function of the application. *)
Inductive log_fun :=
  | log_all_fun
  | log_debug_fun
  | log_info_fun
  | log_warn_fun
  | log_error_fun
  | log_fatal_fun
  | custom_fun (id : Z).
#[export] Instance log_fun_eq_dec : EqDecision log_fun.
Proof. solve_decision. Defined.

Record log_entry := {
  le_lvl : Z;
  le_fun : bytes;
  le_what : bytes
}.

(** The globals of the file: [m_log_fun], [m_next_id], the thread-specific
    [m_logger] (the number of the logger of each thread that has one), the
    log files by name, and the calls of application functions. *)
Record logging := {
  lg_fun : option log_fun;
  lg_next_id : Z;
  lg_loggers : gmap Z Z;
  lg_files : gmap bytes bytes;
  lg_custom : list (Z * log_entry)
}.
Definition lg_set_fun f (s : logging) : logging := {| lg_fun := f; lg_next_id := lg_next_id s;
  lg_loggers := lg_loggers s; lg_files := lg_files s; lg_custom := lg_custom s |}.
Definition lg_set_next_id n (s : logging) : logging := {| lg_fun := lg_fun s; lg_next_id := n;
  lg_loggers := lg_loggers s; lg_files := lg_files s; lg_custom := lg_custom s |}.
Definition lg_set_loggers l (s : logging) : logging := {| lg_fun := lg_fun s; lg_next_id := lg_next_id s;
  lg_loggers := l; lg_files := lg_files s; lg_custom := lg_custom s |}.
Definition lg_set_files f (s : logging) : logging := {| lg_fun := lg_fun s; lg_next_id := lg_next_id s;
  lg_loggers := lg_loggers s; lg_files := f; lg_custom := lg_custom s |}.
Definition lg_set_custom c (s : logging) : logging := {| lg_fun := lg_fun s; lg_next_id := lg_next_id s;
  lg_loggers := lg_loggers s; lg_files := lg_files s; lg_custom := c |}.

Definition new_logging : logging :=
  {| lg_fun := None; lg_next_id := 0; lg_loggers := ∅; lg_files := ∅; lg_custom := [] |}.

Definition next_session_id : M logging Z :=
  id ← gets lg_next_id; modify (lg_set_next_id (u32 (id + 1))) ;; mret id.

Definition log_filename (id : Z) : bytes := str "thread" ++ dec id ++ str ".log".
#[global] Arguments log_filename : simpl never.

(** The constructor of [logger] opens its file for writing, which empties
    it. *)
Definition new_logger : M logging Z :=
  id ← next_session_id;
  modify (λ s, lg_set_files (<[log_filename id := []]> (lg_files s)) s) ;;
  mret id.

(** [stream << std::left << text] with [width(n)]. *)
Definition padded (n : nat) (t : bytes) : bytes := t ++ replicate (n - length t) " "%char.

Definition level_name (lvl : Z) : option bytes :=
  if lvl =? HC_LOG_TRACE_LVL then Some (str "TRACE")
  else if lvl =? HC_LOG_DEBUG_LVL then Some (str "DEBUG")
  else if lvl =? HC_LOG_INFO_LVL then Some (str "INFO")
  else if lvl =? HC_LOG_WARN_LVL then Some (str "WARN")
  else if lvl =? HC_LOG_ERROR_LVL then Some (str "ERROR")
  else if lvl =? HC_LOG_FATAL_LVL then Some (str "FATAL")
  else None.

Section logging.
(** The running thread and the text of the system time. *)
Context (self : Z) (time_stamp : bytes).

(** The line [logger::log] writes. *)
Definition log_line (e : log_entry) : bytes :=
  padded 28 time_stamp ++ from_option (padded 7) [] (level_name (le_lvl e)) ++
  padded 80 (le_fun e) ++ le_what e ++ [ascii_of_nat 10].

Definition logger_log (id : Z) (e : log_entry) : M logging unit :=
  modify (λ s, lg_set_files
    (<[log_filename id := default [] (lg_files s !! log_filename id) ++ log_line e]> (lg_files s)) s).

Definition thread_logger : M logging Z :=
  loggers ← gets lg_loggers;
  match loggers !! self with
  | Some id => mret id
  | None =>
      id ← new_logger;
      modify (λ s, lg_set_loggers (<[self := id]> (lg_loggers s)) s) ;;
      mret id
  end.

Definition call_log_all (e : log_entry) : M logging unit := id ← thread_logger; logger_log id e.

Definition when (b : bool) (m : M logging unit) : M logging unit := if b then m else mret tt.

(** A call of a log function. *)
Definition call_log_fun (f : log_fun) (e : log_entry) : M logging unit :=
  match f with
  | log_all_fun => call_log_all e
  | log_debug_fun => when (HC_LOG_DEBUG_LVL <=? le_lvl e) (call_log_all e)
  | log_info_fun => when (HC_LOG_INFO_LVL <=? le_lvl e) (call_log_all e)
  | log_warn_fun => when (HC_LOG_INFO_LVL <=? le_lvl e) (call_log_all e)
  | log_error_fun => when (HC_LOG_ERROR_LVL <=? le_lvl e) (call_log_all e)
  | log_fatal_fun => when (HC_LOG_FATAL_LVL <=? le_lvl e) (call_log_all e)
  | custom_fun id => modify (λ s, lg_set_custom (lg_custom s ++ [(id, e)]) s)
  end.

Definition hc_log (lvl : Z) (func_name msg : bytes) : M logging unit :=
  f ← gets lg_fun;
  match f with
  | Some f => call_log_fun f {| le_lvl := lvl; le_fun := func_name; le_what := msg |}
  | None => mret tt
  end.
End logging.

Definition hc_get_log_fun : M logging (option log_fun) := gets lg_fun.
Definition hc_set_log_fun (f : option log_fun) : M logging unit := modify (lg_set_fun f).

Definition default_log_fun (log_lvl : Z) : log_fun :=
  if log_lvl =? HC_LOG_DEBUG_LVL then log_debug_fun
  else if log_lvl =? HC_LOG_INFO_LVL then log_info_fun
  else if log_lvl =? HC_LOG_WARN_LVL then log_warn_fun
  else if log_lvl =? HC_LOG_ERROR_LVL then log_error_fun
  else if log_lvl =? HC_LOG_FATAL_LVL then log_fatal_fun
  else log_all_fun.

Definition hc_set_default_log_fun (log_lvl : Z) : M logging unit :=
  hc_set_log_fun (Some (default_log_fun log_lvl)).

(** ** One file per thread *)

(** The loggers have different numbers, below the next one, and their files
    are open. *)
Definition loggers_ok (s : logging) : Prop :=
  (∀ t id, lg_loggers s !! t = Some id → 0 <= id < lg_next_id s ∧ is_Some (lg_files s !! log_filename id)) ∧
  (∀ t u id, lg_loggers s !! t = Some id → lg_loggers s !! u = Some id → t = u) ∧
  0 <= lg_next_id s.

(** The file of a thread, if it has one. *)
Definition file_of (t : Z) (s : logging) : bytes :=
  match lg_loggers s !! t with
  | Some id => default [] (lg_files s !! log_filename id)
  | None => []
  end.

Lemma dec_inj n m : 0 <= n → 0 <= m → dec n = dec m → n = m.
Proof.
  intros Hn Hm. rewrite /dec. destruct (Z.ltb_spec n 0), (Z.ltb_spec m 0); [lia..|].
  intros E. destruct (dec_unsigned_spec n Hn) as (_ & <- & _), (dec_unsigned_spec m Hm) as (_ & <- & _).
  by rewrite E.
Qed.

Lemma log_filename_inj n m : 0 <= n → 0 <= m → log_filename n = log_filename m → n = m.
Proof.
  intros Hn Hm. rewrite /log_filename. intros E%app_inv_head%app_inv_tail. by apply dec_inj.
Qed.

Section logging_proofs.
Context (self : Z) (time_stamp : bytes).

(** The logger of the thread, created when it is missing. *)
Lemma thread_logger_spec s :
  loggers_ok s → lg_next_id s + 1 < 2 ^ 32 →
  ∃ id s', thread_logger self s = (Ok id, s') ∧ loggers_ok s' ∧ lg_loggers s' !! self = Some id ∧
    lg_fun s' = lg_fun s ∧ ∀ t, file_of t s' = file_of t s.
Proof.
  intros (H1 & H2 & H3) Hn. rewrite /thread_logger /mbind /M_bind /=.
  destruct (lg_loggers s !! self) as [id|] eqn:E.
  { exists id, s. done. }
  eexists _, _. split; [reflexivity|]. cbn.
  assert (u32 (lg_next_id s + 1) = lg_next_id s + 1) as Hu by (apply uwrap_small; split; lia).
  assert (∀ t id, lg_loggers s !! t = Some id → log_filename id ≠ log_filename (lg_next_id s)) as Hne.
  { intros t id [Hid _]%H1 He%log_filename_inj; lia. }
  split_and!.
  - split_and!; cbn; rewrite ?Hu; [| |lia].
    + intros t id. rewrite lookup_insert_Some. intros [[<- <-]|[_ Ht]].
      * split; [lia|]. rewrite lookup_insert_eq. eauto.
      * destruct (H1 _ _ Ht) as [? ?]. split; [lia|].
        rewrite lookup_insert_ne; [by apply not_eq_sym, (Hne t)|]. done.
    + intros t u id. rewrite !lookup_insert_Some.
      intros [[<- <-]|[_ Ht]] [[<- Hu']|[_ Hu']]; [done|..|by eapply H2].
      * destruct (H1 _ _ Hu'). lia.
      * subst. destruct (H1 _ _ Ht). lia.
  - by rewrite lookup_insert_eq.
  - done.
  - intros t. rewrite /file_of /=. destruct (decide (t = self)) as [->|Ht].
    + by rewrite lookup_insert_eq E lookup_insert_eq.
    + rewrite lookup_insert_ne //. destruct (lg_loggers s !! t) as [id|] eqn:Et; [|done].
      rewrite lookup_insert_ne //. by apply not_eq_sym, (Hne t).
Qed.

(** A message that is logged is appended to the file of its thread. *)
Lemma call_log_all_spec e s :
  loggers_ok s → lg_next_id s + 1 < 2 ^ 32 →
  ∃ s', call_log_all self time_stamp e s = (Ok tt, s') ∧ loggers_ok s' ∧ lg_fun s' = lg_fun s ∧
    file_of self s' = file_of self s ++ log_line time_stamp e ∧
    ∀ t, t ≠ self → file_of t s' = file_of t s.
Proof.
  intros Hok Hn. destruct (thread_logger_spec s Hok Hn) as (id & s1 & E & (H1 & H2 & H3) & Hid & Hf & Hfile).
  eexists. rewrite /call_log_all. step_ok E. split; [reflexivity|]. split_and!; [|done|..].
  - split_and!; [|done..]. intros t id' Ht. destruct (H1 _ _ Ht) as [? ?]. split; [done|]. simpl.
    destruct (decide (log_filename id' = log_filename id)) as [->|].
    + rewrite lookup_insert_eq. eauto.
    + by rewrite lookup_insert_ne.
  - rewrite -(Hfile self) /file_of /= Hid lookup_insert_eq. done.
  - intros t Ht. rewrite -(Hfile t) /file_of /=. destruct (lg_loggers s1 !! t) as [id'|] eqn:Et; [|done].
    rewrite lookup_insert_ne //. intros He. apply Ht.
    destruct (H1 _ _ Et) as [? _], (H1 _ _ Hid) as [? _].
    apply (H2 t self id'); [done|]. by apply log_filename_inj in He as <-; [|lia..].
Qed.
End logging_proofs.

Definition log_levels : list Z :=
  [HC_LOG_TRACE_LVL; HC_LOG_DEBUG_LVL; HC_LOG_INFO_LVL; HC_LOG_WARN_LVL; HC_LOG_ERROR_LVL; HC_LOG_FATAL_LVL].

(** Which messages pass: those of the chosen level and above; everything at
    the trace level; and at the warn level also those of the info level. *)
Definition passes (log_lvl lvl : Z) : bool :=
  if log_lvl =? HC_LOG_TRACE_LVL then true
  else if log_lvl =? HC_LOG_WARN_LVL then HC_LOG_INFO_LVL <=? lvl
  else log_lvl <=? lvl.

Lemma call_default_fun self ts log_lvl e s :
  log_lvl ∈ log_levels →
  call_log_fun self ts (default_log_fun log_lvl) e s =
    (if passes log_lvl (le_lvl e) then call_log_all self ts e s else (Ok tt, s)).
Proof.
  rewrite /log_levels. intros H. repeat (apply elem_of_cons in H as [->|H]; [cbn; by try case_match|]).
  by apply elem_of_nil in H.
Qed.

(** With the default log function of one of the six levels, a message is
    appended to the log file of the thread that logs it exactly when its
    level passes, and the files of all other threads are untouched.  Levels
    below the chosen one are discarded, with one exception: the function for
    warnings also logs messages of the info level. *)
Theorem default_logging self ts log_lvl lvl func msg s :
  log_lvl ∈ log_levels → loggers_ok s → lg_next_id s + 1 < 2 ^ 32 →
  ∃ s', (hc_set_default_log_fun log_lvl ;; hc_log self ts lvl func msg) s = (Ok tt, s') ∧
    loggers_ok s' ∧
    file_of self s' = file_of self s ++
      (if passes log_lvl lvl
       then log_line ts {| le_lvl := lvl; le_fun := func; le_what := msg |} else []) ∧
    ∀ t, t ≠ self → file_of t s' = file_of t s.
Proof.
  intros Hl Hok Hn. rewrite /hc_set_default_log_fun /hc_set_log_fun /mbind /M_bind /=.
  rewrite /hc_log /mbind /M_bind /= call_default_fun //=. destruct (passes log_lvl lvl).
  - destruct (call_log_all_spec self ts {| le_lvl := lvl; le_fun := func; le_what := msg |}
      (lg_set_fun (Some (default_log_fun log_lvl)) s)) as (s' & E & H1 & _ & H2 & H3); [done..|].
    exists s'. done.
  - eexists. split; [reflexivity|]. rewrite app_nil_r. done.
Qed.

Lemma default_logging_witness :
  ∃ s', (hc_set_default_log_fun HC_LOG_WARN_LVL ;;
         hc_log 1 (str "12:00") HC_LOG_INFO_LVL (str "f") (str "hello")) new_logging = (Ok tt, s') ∧
    file_of 1 s' = log_line (str "12:00") {| le_lvl := HC_LOG_INFO_LVL; le_fun := str "f"; le_what := str "hello" |}.
Proof.
  destruct (default_logging 1 (str "12:00") HC_LOG_WARN_LVL HC_LOG_INFO_LVL (str "f") (str "hello") new_logging)
    as (s' & E & _ & H & _).
  - by apply (bool_decide_unpack _).
  - split_and!; [by intros ??|by intros ???|done].
  - done.
  - exists s'. exact (conj E H).
Defined.
