(* ===== verification/MeetingPoint.v ===== *)
(** * The meeting point

    [initialize] and [cleanup] of [middleware/main.cpp]: the directory, the
    configuration file and the lock file through which clients find the
    running middleware.  The file system is modelled as far as the code uses
    it: directories, regular files, and advisory locks on files. *)

From S2P Require Import Prelude Config ConfigMap MiddlewareConfig.

(** ** The file system *)

Record fsys := {
  fs_dirs : gset bytes;
  fs_files : gmap bytes bytes;
  fs_locks : gmap bytes Z
}.
Definition fs_set_dirs d (s : fsys) : fsys := {| fs_dirs := d; fs_files := fs_files s; fs_locks := fs_locks s |}.
Definition fs_set_files f (s : fsys) : fsys := {| fs_dirs := fs_dirs s; fs_files := f; fs_locks := fs_locks s |}.
Definition fs_set_locks l (s : fsys) : fsys := {| fs_dirs := fs_dirs s; fs_files := fs_files s; fs_locks := l |}.

Definition slash : byte := "/"%char.
Definition npos : Z := 2 ^ 64 - 1.

(** [s.find(c, pos)] and [s.find_last_of(c)]. *)
Fixpoint find_from (c : byte) (i : Z) (s : bytes) : Z :=
  match s with
  | [] => npos
  | d :: s' => if bool_decide (d = c) then i else find_from c (i + 1) s'
  end.
Definition find (c : byte) (s : bytes) (pos : Z) : Z :=
  if zlen s <=? pos then npos else find_from c pos (zdrop pos s).
Fixpoint find_last_from (c : byte) (i : Z) (acc : Z) (s : bytes) : Z :=
  match s with
  | [] => acc
  | d :: s' => find_last_from c (i + 1) (if bool_decide (d = c) then i else acc) s'
  end.
Definition find_last_of (c : byte) (s : bytes) : Z := find_last_from c 0 npos s.

(** The directory that contains a path; the root is the empty path. *)
Definition dirname (p : bytes) : bytes :=
  let n := find_last_of slash p in if n =? npos then [] else ztake n p.

(** The calls of the operating system; [denied] are the directories in which
    the process must not create anything. *)
Inductive errno := EEXIST | ENOENT | EACCES | EISDIR.

Section system_calls.
Context (denied : bytes → bool).

Definition exists_path (p : bytes) (s : fsys) : bool :=
  bool_decide (p ∈ fs_dirs s) || bool_decide (is_Some (fs_files s !! p)).

Definition mkdir (p : bytes) : M fsys (option errno) := λ s,
  if exists_path p s then (Ok (Some EEXIST), s)
  else if negb (bool_decide (dirname p ∈ fs_dirs s)) then (Ok (Some ENOENT), s)
  else if denied (dirname p) then (Ok (Some EACCES), s)
  else (Ok None, fs_set_dirs ({[p]} ∪ fs_dirs s) s).

(** [creat] empties an existing file. *)
Definition creat (p : bytes) : M fsys (option errno) := λ s,
  if bool_decide (p ∈ fs_dirs s) then (Ok (Some EISDIR), s)
  else if negb (bool_decide (dirname p ∈ fs_dirs s)) then (Ok (Some ENOENT), s)
  else if denied (dirname p) then (Ok (Some EACCES), s)
  else (Ok None, fs_set_files (<[p := []]> (fs_files s)) s).

Definition unlink (p : bytes) : M fsys bool := λ s,
  if bool_decide (is_Some (fs_files s !! p)) && negb (denied (dirname p))
  then (Ok true, fs_set_files (delete p (fs_files s)) s) else (Ok false, s).

Definition is_empty_dir (p : bytes) (s : fsys) : bool :=
  bool_decide (set_Forall (λ d, dirname d ≠ p ∨ d = p) (fs_dirs s)) &&
  bool_decide (map_Forall (λ f _, dirname f ≠ p) (fs_files s)).

Definition rmdir (p : bytes) : M fsys bool := λ s,
  if bool_decide (p ∈ fs_dirs s) && is_empty_dir p s && negb (denied (dirname p))
  then (Ok true, fs_set_dirs (fs_dirs s ∖ {[p]}) s) else (Ok false, s).
End system_calls.

(** ** Paths *)

(** [*path.rbegin()] is defined for a path that is not empty. *)
Fixpoint drop_trailing (fuel : nat) (path : bytes) : bytes :=
  match fuel with
  | O => path
  | S fuel' =>
      if (1 <? zlen path) && bool_decide (last path = Some slash)
      then drop_trailing fuel' (ztake (zlen path - 1) path) else path
  end.
Definition erase_trailing_slash (path : bytes) : bytes := drop_trailing (length path) path.

Definition ensure_trailing_slash {S : Type} (path : bytes) : M S bytes :=
  if bool_decide (path = []) then throw (runtime_error "path.emtpy()")
  else if (1 <? zlen path) && negb (bool_decide (last path = Some slash)) then mret (path ++ [slash])
  else mret path.

(** ** The process *)

(** [pr_lock] is the pointer [middleware_lock], which [cleanup] deletes but
    does not reset; [pr_output] is what the process prints about directories
    and files, [pr_unloaded] says that [tech_module::unload_all] was called. *)
Inductive lock_ptr := lp_null | lp_live | lp_deleted.

Inductive report :=
  | created_directory (p : bytes)
  | already_exists (p : bytes)
  | creation_failed (p : bytes)
  | removed_directory (p : bytes)
  | could_not_remove_directory (p : bytes)
  | could_not_remove_file (p : bytes).

Record process := {
  pr_fs : fsys;
  pr_lock : lock_ptr;
  pr_output : list report;
  pr_unloaded : bool
}.
Definition pr_set_fs f (s : process) : process := {| pr_fs := f; pr_lock := pr_lock s;
  pr_output := pr_output s; pr_unloaded := pr_unloaded s |}.
Definition pr_set_lock b (s : process) : process := {| pr_fs := pr_fs s; pr_lock := b;
  pr_output := pr_output s; pr_unloaded := pr_unloaded s |}.
Definition print (r : report) : M process unit := modify (λ s, {| pr_fs := pr_fs s; pr_lock := pr_lock s;
  pr_output := pr_output s ++ [r]; pr_unloaded := pr_unloaded s |}).
Definition unload_all : M process unit := modify (λ s, {| pr_fs := pr_fs s; pr_lock := pr_lock s;
  pr_output := pr_output s; pr_unloaded := true |}).
Definition sys {A} (m : M fsys A) : M process A := zoom pr_fs pr_set_fs m.

Section process.
Context (denied : bytes → bool) (self : Z).

Inductive creation_result := cr_ok | cr_exist | cr_failure.

Definition create_directory (dir : bytes) : M process creation_result :=
  e ← sys (mkdir denied dir);
  mret match e with None => cr_ok | Some EEXIST => cr_exist | Some _ => cr_failure end.

Definition create_file (filename : bytes) (throw_if_file_exists : bool) : M process unit :=
  e ← sys (creat denied filename);
  match e with
  | None => mret tt
  | Some e =>
      if throw_if_file_exists || negb (match e with EEXIST => true | _ => false end)
      then throw (runtime_error ("could not create " +:+ string_of_list_ascii filename))
      else mret tt
  end.

(** The body of the loop of [initialize]. *)
Definition make_directory (sub : bytes) : M process unit :=
  r ← create_directory sub;
  match r with
  | cr_ok => print (created_directory sub)
  | cr_exist => print (already_exists sub)
  | cr_failure => print (creation_failed sub) ;; throw (terminated "abort()")
  end.

(** The loop of [initialize] over the positions of the slashes. *)
Fixpoint create_directories (fuel : nat) (path : bytes) (pos : Z) : M process unit :=
  if pos <? zlen path then
    match fuel with
    | O => ub "fuel"
    | S fuel' =>
        make_directory (ztake pos path) ;;
        create_directories fuel' path (find slash path (pos + 1))
    end
  else mret tt.

(** [file_lock(fname)] opens the file; [try_lock] fails when another process
    holds the lock. *)
Definition lock_file (fname : bytes) : M process unit :=
  fs ← gets pr_fs;
  (if negb (bool_decide (is_Some (fs_files fs !! fname)))
   then throw (runtime_error "interprocess_exception") else mret tt) ;;
  modify (pr_set_lock lp_live) ;;
  match fs_locks fs !! fname with
  | Some holder =>
      if holder =? self then mret tt
      else throw (runtime_error "Could not get interprocess file lock")
  | None => sys (modify (λ s, fs_set_locks (<[fname := self]> (fs_locks s)) s))
  end.

Definition initialize (meeting_point root : bytes) : M process unit :=
  let path := meeting_point in
  if bool_decide (path = []) then throw (logic_error "meeting_point is an empty string") else
  if negb (bool_decide (head path = Some slash)) then
    throw (logic_error "meeting_point is not an absolute path") else
  path ← ensure_trailing_slash path;
  create_directories (length path) path (find slash path (zlen root)) ;;
  create_file (path ++ config_filename) false ;;
  create_file (path ++ lock_filename) true ;;
  lock_file (path ++ lock_filename).

Definition remove_file (cfile : bytes) : M process unit :=
  fs ← gets pr_fs;
  if exists_path cfile fs then
    ok ← sys (unlink denied cfile);
    if ok : bool then mret tt else print (could_not_remove_file cfile)
  else mret tt.

(** The loop of [cleanup]; [false] is its early return. *)
Fixpoint remove_directories (fuel : nat) (root path : bytes) : M process bool :=
  if zlen root <? zlen path then
    match fuel with
    | O => ub "fuel"
    | S fuel' =>
        ok ← sys (rmdir denied path);
        if ok : bool then
          print (removed_directory path) ;;
          let new_size := find_last_of slash path in
          if new_size =? npos then throw (logic_error "length_error")
          else remove_directories fuel' root (ztake new_size path)
        else print (could_not_remove_directory path) ;; mret false
    end
  else mret true.

Definition cleanup (meeting_point root : bytes) : M process unit :=
  middleware_lock ← gets pr_lock;
  match middleware_lock with
  | lp_null => mret tt
  | lp_live =>
      sys (modify (λ s, fs_set_locks (filter (λ kv, kv.2 ≠ self) (fs_locks s)) s)) ;;
      modify (pr_set_lock lp_deleted)
  | lp_deleted => ub "delete of a deleted pointer"
  end ;;
  path ← ensure_trailing_slash meeting_point;
  remove_file (path ++ config_filename) ;;
  remove_file (path ++ lock_filename) ;;
  let path := erase_trailing_slash path in
  done ← remove_directories (length path) root path;
  if done : bool then unload_all else mret tt.
End process.

(** ** Concrete runs *)

Definition new_process (fs : fsys) : process :=
  {| pr_fs := fs; pr_lock := lp_null; pr_output := []; pr_unloaded := false |}.

Definition empty_fs : fsys := {| fs_dirs := {[ []; str "/tmp" ]}; fs_files := ∅; fs_locks := ∅ |}.

Example initialize_example :
  let '(r, s) := initialize (λ _, false) 1 meeting_point meeting_point_root (new_process empty_fs) in
  r = Ok tt ∧ pr_output s = [created_directory (str "/tmp/hamcast");
    created_directory (str "/tmp/hamcast/meeting_point");
    created_directory (str "/tmp/hamcast/meeting_point/middleware")].
Proof. vm_compute. done. Qed.

Example cleanup_example :
  let '(r, s) := (initialize (λ _, false) 1 meeting_point meeting_point_root ;;
                  cleanup (λ _, false) 1 meeting_point meeting_point_root) (new_process empty_fs) in
  r = Ok tt ∧ pr_fs s = empty_fs.
Proof. vm_compute. done. Qed.

(** ** The steps for the configured paths *)

Definition dir1 : bytes := str "/tmp/hamcast".
Definition dir2 : bytes := str "/tmp/hamcast/meeting_point".
Definition dir3 : bytes := str "/tmp/hamcast/meeting_point/middleware".
Definition config_path : bytes := meeting_point ++ config_filename.
Definition lock_path : bytes := meeting_point ++ lock_filename.

Section steps.
Context (denied : bytes → bool) (self : Z).

Lemma create_directories_step fuel path pos sub next s :
  (pos <? zlen path) = true → ztake pos path = sub → find slash path (pos + 1) = next →
  create_directories denied (S fuel) path pos s =
    (make_directory denied sub ;; create_directories denied fuel path next) s.
Proof. intros H <- <-. cbn [create_directories]. by rewrite H. Qed.

Lemma create_directories_end fuel path s : zlen path < npos → create_directories denied fuel path npos s = (Ok tt, s).
Proof. intros H. destruct fuel; cbn; by rewrite (proj2 (Z.ltb_ge _ _)); [lia|]. Qed.

Lemma directories_created s :
  create_directories denied (length meeting_point) meeting_point
    (find slash meeting_point (zlen meeting_point_root)) s =
  (make_directory denied dir1 ;; make_directory denied dir2 ;; make_directory denied dir3) s.
Proof.
  change (length meeting_point) with 38%nat. change (find slash meeting_point (zlen meeting_point_root)) with 12.
  rewrite (create_directories_step 37 meeting_point 12 dir1 26) //.
  apply bind_ext; [done|]. intros [] s1.
  rewrite (create_directories_step 36 meeting_point 26 dir2 37) //.
  apply bind_ext; [done|]. intros [] s2.
  rewrite (create_directories_step 35 meeting_point 37 dir3 npos) //.
  rewrite /mbind /M_bind. destruct (make_directory denied dir3 s2) as [[[]|e|w] s3]; [|done..].
  by apply create_directories_end.
Qed.

Lemma initialize_steps s :
  initialize denied self meeting_point meeting_point_root s =
    ((make_directory denied dir1 ;; make_directory denied dir2 ;; make_directory denied dir3) ;;
     create_file denied config_path false ;; create_file denied lock_path true ;;
     lock_file self lock_path) s.
Proof.
  rewrite /initialize. change (bool_decide (meeting_point = [])) with false.
  change (bool_decide (head meeting_point = Some slash)) with true. cbn [negb].
  rewrite (bind_ok _ _ s meeting_point s); [done|].
  apply bind_ext; [apply directories_created|done].
Qed.

Lemma remove_directories_step fuel root path new_size s :
  (zlen root <? zlen path) = true → find_last_of slash path = new_size → (new_size =? npos) = false →
  remove_directories denied (S fuel) root path s =
    (ok ← sys (rmdir denied path);
     if ok : bool then print (removed_directory path) ;; remove_directories denied fuel root (ztake new_size path)
     else print (could_not_remove_directory path) ;; mret false) s.
Proof. intros H1 H2 H3. cbn [remove_directories]. rewrite H1. cbn zeta. by rewrite H2 H3. Qed.

Lemma directories_removed s :
  remove_directories denied 37 meeting_point_root dir3 s =
  (ok ← sys (rmdir denied dir3);
   if ok : bool then print (removed_directory dir3) ;;
     ok ← sys (rmdir denied dir2);
     if ok : bool then print (removed_directory dir2) ;;
       ok ← sys (rmdir denied dir1);
       if ok : bool then print (removed_directory dir1) ;; mret true
       else print (could_not_remove_directory dir1) ;; mret false
     else print (could_not_remove_directory dir2) ;; mret false
   else print (could_not_remove_directory dir3) ;; mret false) s.
Proof.
  by rewrite (remove_directories_step 36 _ dir3 26).
Qed.

Lemma cleanup_steps s :
  pr_lock s = lp_live →
  cleanup denied self meeting_point meeting_point_root s =
    (remove_file denied config_path ;; remove_file denied lock_path ;;
     done ← remove_directories denied 37 meeting_point_root dir3;
     if done : bool then unload_all else mret tt)
    (pr_set_lock lp_deleted
       (pr_set_fs (fs_set_locks (filter (λ kv, kv.2 ≠ self) (fs_locks (pr_fs s))) (pr_fs s)) s)).
Proof.
  intros Hl. rewrite /cleanup /mbind /M_bind /gets Hl /sys /zoom /modify.
  change (ensure_trailing_slash meeting_point) with (@mret (M process) _ _ meeting_point). done.
Qed.
End steps.

(** ** The place of the meeting point *)

(** The directories the process needs are writable. *)
Definition writable_dirs (denied : bytes → bool) : Prop :=
  Forall (λ d, denied d = false) [str "/tmp"; dir1; dir2; dir3].

(** The parent directory exists, no file is where a directory belongs, and no
    directory where a file belongs; the directories and files themselves may
    be there already, and other things in them. *)
Definition usable (dirs : gset bytes) (files : gmap bytes bytes) : Prop :=
  str "/tmp" ∈ dirs ∧ Forall (λ p, files !! p = None) [dir1; dir2; dir3] ∧
  Forall (λ p, p ∉ dirs) [config_path; lock_path].

(** Nothing is there with the path of the first directory or below it. *)
Definition clean (dirs : gset bytes) (files : gmap bytes bytes) : Prop :=
  str "/tmp" ∈ dirs ∧ ∀ p, dir1 `prefix_of` p → p ∉ dirs ∧ files !! p = None.

(** What is there besides the directories and files of the meeting point. *)
Definition own_dirs : gset bytes := {[dir1; dir2; dir3]}.
Definition without_own (fs : fsys) : fsys :=
  {| fs_dirs := fs_dirs fs ∖ own_dirs;
     fs_files := delete lock_path (delete config_path (fs_files fs)); fs_locks := fs_locks fs |}.

(** The directories that are not removed, from the innermost one that holds
    something else outwards. *)
Definition kept_dirs (fs : fsys) : gset bytes :=
  if negb (is_empty_dir dir3 (without_own fs)) then own_dirs
  else if negb (is_empty_dir dir2 (without_own fs)) then {[dir1; dir2]}
  else if negb (is_empty_dir dir1 (without_own fs)) then {[dir1]}
  else ∅.

Lemma ztake_prefix {A} n (l : list A) : ztake n l `prefix_of` l.
Proof. exists (zdrop n l). by rewrite ztake_zdrop. Qed.

Lemma dirname_prefix p : dirname p `prefix_of` p.
Proof.
  rewrite /dirname. case_match; [apply prefix_nil|apply ztake_prefix].
Qed.

Lemma below_dir1 p d : dirname p = d → dir1 `prefix_of` d → dir1 `prefix_of` p.
Proof. intros <- H. etrans; [done|]. apply dirname_prefix. Qed.

Lemma below_paths : dir1 `prefix_of` dir2 ∧ dir1 `prefix_of` dir3 ∧
  dir1 `prefix_of` config_path ∧ dir1 `prefix_of` lock_path.
Proof. by apply (bool_decide_unpack _). Qed.

Lemma dirname_facts :
  dir2 ≠ dir1 ∧ dir3 ≠ dir1 ∧ dir3 ≠ dir2 ∧ config_path ≠ lock_path ∧
  dirname dir1 = str "/tmp" ∧ dirname dir2 = dir1 ∧ dirname dir3 = dir2 ∧
  dirname dir1 ≠ dir1 ∧ dirname dir1 ≠ dir2 ∧ dirname dir1 ≠ dir3 ∧
  dirname dir2 ≠ dir2 ∧ dirname dir2 ≠ dir3 ∧ dirname dir3 ≠ dir3 ∧
  Forall (λ p, p ≠ dir1 ∧ p ≠ dir2 ∧ p ≠ dir3) [config_path; lock_path].
Proof. by apply (bool_decide_unpack _). Qed.

Lemma clean_usable dirs files : clean dirs files → usable dirs files.
Proof.
  intros [Ht Hc]. destruct below_paths as (P2 & P3 & Pc & Pl).
  split_and!; [done| |]; rewrite !Forall_cons; split_and!; try done; by apply Hc.
Qed.

Lemma is_empty_dir_spec p fs :
  is_empty_dir p fs = true ↔
  (∀ d, d ∈ fs_dirs fs → dirname d ≠ p ∨ d = p) ∧ (∀ f c, fs_files fs !! f = Some c → dirname f ≠ p).
Proof. rewrite /is_empty_dir andb_true_iff !bool_decide_eq_true. done. Qed.

(** Directories that are not in [p] do not matter for its emptiness. *)
Lemma is_empty_dir_more p fs fs' X :
  fs_dirs fs = X ∪ fs_dirs fs' → fs_files fs = fs_files fs' → (∀ d, d ∈ X → dirname d ≠ p ∨ d = p) →
  is_empty_dir p fs = is_empty_dir p fs'.
Proof.
  intros Hd Hf HX. apply eq_iff_eq_true. rewrite !is_empty_dir_spec Hd Hf. set_solver.
Qed.

(** Set facts about three directories. *)
Lemma three_own (a b c : bytes) (D : gset bytes) :
  {[c]} ∪ ({[b]} ∪ ({[a]} ∪ D)) = {[c]} ∪ ({[b; a]} ∪ D ∖ {[a; b; c]}).
Proof.
  apply set_eq. intros x. rewrite !elem_of_union elem_of_difference !elem_of_union !elem_of_singleton.
  destruct (decide (x = a)), (decide (x = b)), (decide (x = c)); tauto.
Qed.

Lemma three_out (a b c : bytes) (D : gset bytes) :
  a ∉ D ∖ {[a; b; c]} ∧ b ∉ D ∖ {[a; b; c]} ∧ c ∉ D ∖ {[a; b; c]}.
Proof. set_solver. Qed.

Lemma three_all (a b c : bytes) (D : gset bytes) : {[c]} ∪ ({[b; a]} ∪ D) = {[a; b; c]} ∪ D.
Proof. set_solver. Qed.

Lemma three_union (a b c : bytes) (D : gset bytes) : {[c]} ∪ ({[b]} ∪ ({[a]} ∪ D)) = {[a; b; c]} ∪ D.
Proof. set_solver. Qed.

(** A clean place is left clean. *)
Lemma clean_without_own fs : clean (fs_dirs fs) (fs_files fs) → without_own fs = fs.
Proof.
  intros [_ Hc]. destruct below_paths as (P2 & P3 & Pc & Pl).
  pose proof (Hc dir1 ltac:(done)) as [N1 _]. pose proof (Hc dir2 P2) as [N2 _]. pose proof (Hc dir3 P3) as [N3 _].
  destruct fs as [D F L]. rewrite /without_own /own_dirs. cbn in *. f_equal; [set_solver|].
  destruct (Hc _ Pc) as [_ Fc], (Hc _ Pl) as [_ Fl]. by rewrite (delete_id F) // delete_id.
Qed.

Lemma clean_kept fs : clean (fs_dirs fs) (fs_files fs) → kept_dirs fs = ∅.
Proof.
  intros Hc. rewrite /kept_dirs (clean_without_own _ Hc).
  assert (∀ d, dir1 `prefix_of` d → is_empty_dir d fs = true) as He.
  { intros d Hd. apply is_empty_dir_spec. split.
    - intros p Hp. left. intros E. by destruct (proj2 Hc p (below_dir1 _ _ E Hd)).
    - intros f c Hf E. destruct (proj2 Hc f (below_dir1 _ _ E Hd)). congruence. }
  destruct below_paths as (P2 & P3 & _). by rewrite !He.
Qed.

Section meeting_point.
Context (denied : bytes → bool) (self : Z).

(** A directory is there afterwards, new or not. *)
Lemma make_directory_any dir parent s :
  dirname dir = parent → parent ∈ fs_dirs (pr_fs s) → denied parent = false → fs_files (pr_fs s) !! dir = None →
  ∃ s', make_directory denied dir s = (Ok tt, s') ∧
    pr_fs s' = fs_set_dirs ({[dir]} ∪ fs_dirs (pr_fs s)) (pr_fs s) ∧ pr_unloaded s' = pr_unloaded s.
Proof.
  intros Hd Hp Hden Hf. rewrite /make_directory /create_directory /sys /zoom /mkdir /mbind /M_bind.
  rewrite /exists_path Hf (bool_decide_eq_false_2 (is_Some None)); [by intros [? ?]|]. rewrite orb_false_r.
  destruct (decide (dir ∈ fs_dirs (pr_fs s))) as [Hin|Hn].
  - rewrite bool_decide_eq_true_2 //. eexists. split_and!; [reflexivity| |done]. cbn. destruct (pr_fs s) as [D F L]. cbn in *.
    rewrite /fs_set_dirs /=. f_equal. set_solver.
  - rewrite bool_decide_eq_false_2 // Hd bool_decide_eq_true_2 // Hden. by eexists.
Qed.

Lemma create_file_ok fname parent b s :
  dirname fname = parent → parent ∈ fs_dirs (pr_fs s) → denied parent = false → fname ∉ fs_dirs (pr_fs s) →
  create_file denied fname b s = (Ok tt, pr_set_fs (fs_set_files (<[fname := []]> (fs_files (pr_fs s))) (pr_fs s)) s).
Proof.
  intros Hd Hp Hden Hn. rewrite /create_file /sys /zoom /creat /mbind /M_bind bool_decide_eq_false_2 //.
  rewrite Hd bool_decide_eq_true_2 // Hden. done.
Qed.

(** What [initialize] leaves. *)
Definition initialized (dirs : gset bytes) (files : gmap bytes bytes) (locks : gmap bytes Z) (s : process) : Prop :=
  pr_lock s = lp_live ∧
  fs_dirs (pr_fs s) = {[dir3]} ∪ ({[dir2]} ∪ ({[dir1]} ∪ dirs)) ∧
  fs_files (pr_fs s) = <[lock_path := []]> (<[config_path := []]> files) ∧
  fs_locks (pr_fs s) = <[lock_path := self]> locks.

Ltac dir_in := rewrite !elem_of_union !elem_of_singleton; tauto.
Ltac dir_out := rewrite !not_elem_of_union !not_elem_of_singleton; tauto.

(** The directories and files are there before the lock is tried. *)
Lemma initialize_files s :
  writable_dirs denied → usable (fs_dirs (pr_fs s)) (fs_files (pr_fs s)) →
  ∃ s', initialize denied self meeting_point meeting_point_root s = lock_file self lock_path s' ∧
    fs_dirs (pr_fs s') = {[dir3]} ∪ ({[dir2]} ∪ ({[dir1]} ∪ fs_dirs (pr_fs s))) ∧
    fs_files (pr_fs s') = <[lock_path := []]> (<[config_path := []]> (fs_files (pr_fs s))) ∧
    fs_locks (pr_fs s') = fs_locks (pr_fs s) ∧ pr_unloaded s' = pr_unloaded s.
Proof.
  intros Hw (Ht & HF & HD). rewrite !Forall_cons in HF, HD. destruct HF as (F1 & F2 & F3 & _), HD as (Nc & Nl & _).
  rewrite /writable_dirs !Forall_cons in Hw. destruct Hw as (W0 & W1 & W2 & W3 & _).
  destruct dirname_facts as (_ & _ & _ & _ & _ & _ & _ & _ & _ & _ & _ & _ & _ & Hne).
  rewrite !Forall_cons in Hne. destruct Hne as ((? & ? & ?) & (? & ? & ?) & _).
  destruct (make_directory_any dir1 (str "/tmp") s) as (s1 & E1 & G1 & L1); [done..|].
  destruct (make_directory_any dir2 dir1 s1) as (s2 & E2 & G2 & L2); rewrite ?G1 /=; [done|dir_in|done|done|].
  destruct (make_directory_any dir3 dir2 s2) as (s3 & E3 & G3 & L3); rewrite ?G2 /= ?G1 /=; [done|dir_in|done|done|].
  rewrite initialize_steps. rewrite (bind_ok _ _ s tt s3); [by step_ok E1; step_ok E2|].
  assert (fs_dirs (pr_fs s3) = {[dir3]} ∪ ({[dir2]} ∪ ({[dir1]} ∪ fs_dirs (pr_fs s)))) as Hd.
  { by rewrite G3 G2 G1. }
  step_ok (create_file_ok config_path dir3 false s3 eq_refl ltac:(rewrite Hd; dir_in) W3 ltac:(rewrite Hd; dir_out)).
  erewrite bind_ok; [|apply (create_file_ok lock_path dir3)]; cbn [pr_fs pr_set_fs fs_dirs fs_set_files];
    [|done|rewrite Hd; dir_in|done|rewrite Hd; dir_out].
  eexists. split; [reflexivity|]. cbn [pr_fs pr_set_fs fs_dirs fs_files fs_locks fs_set_files].
  split_and!; [done|by rewrite G3 /= G2 /= G1..|by rewrite /= L3 L2].
Qed.

Lemma initialize_usable s :
  writable_dirs denied → usable (fs_dirs (pr_fs s)) (fs_files (pr_fs s)) → fs_locks (pr_fs s) !! lock_path = None →
  ∃ s', initialize denied self meeting_point meeting_point_root s = (Ok tt, s') ∧
    initialized (fs_dirs (pr_fs s)) (fs_files (pr_fs s)) (fs_locks (pr_fs s)) s' ∧ pr_unloaded s' = pr_unloaded s.
Proof.
  intros Hw Hu Hl. destruct (initialize_files s Hw Hu) as (s1 & -> & Hd & Hf & Hk & Hun).
  eexists. rewrite /lock_file /mbind /M_bind /gets Hf lookup_insert_eq bool_decide_eq_true_2; [eauto|].
  cbn -[lock_path]. rewrite Hk Hl. split; [reflexivity|]. split; [|done]. split_and!; [done..|]. cbn -[lock_path]. by rewrite Hk.
Qed.

(** Another process holds the lock: the files are emptied all the same. *)
Lemma initialize_locked s holder :
  writable_dirs denied → usable (fs_dirs (pr_fs s)) (fs_files (pr_fs s)) →
  fs_locks (pr_fs s) !! lock_path = Some holder → holder ≠ self →
  ∃ s', initialize denied self meeting_point meeting_point_root s =
      (Throw (runtime_error "Could not get interprocess file lock"), s') ∧
    fs_dirs (pr_fs s') = {[dir3]} ∪ ({[dir2]} ∪ ({[dir1]} ∪ fs_dirs (pr_fs s))) ∧
    fs_files (pr_fs s') = <[lock_path := []]> (<[config_path := []]> (fs_files (pr_fs s))) ∧
    fs_locks (pr_fs s') = fs_locks (pr_fs s).
Proof.
  intros Hw Hu Hl Hh. destruct (initialize_files s Hw Hu) as (s1 & -> & Hd & Hf & Hk & _).
  eexists. rewrite /lock_file /mbind /M_bind /gets Hf lookup_insert_eq bool_decide_eq_true_2; [eauto|].
  cbn -[lock_path]. rewrite Hk Hl (proj2 (Z.eqb_neq holder self) Hh). split; [reflexivity|]. done.
Qed.

Lemma initialize_clean s :
  writable_dirs denied → clean (fs_dirs (pr_fs s)) (fs_files (pr_fs s)) → fs_locks (pr_fs s) !! lock_path = None →
  ∃ s', initialize denied self meeting_point meeting_point_root s = (Ok tt, s') ∧
    initialized (fs_dirs (pr_fs s)) (fs_files (pr_fs s)) (fs_locks (pr_fs s)) s'.
Proof.
  intros Hw Hc Hl. destruct (initialize_usable s Hw (clean_usable _ _ Hc) Hl) as (s' & E & Hi & _). by exists s'.
Qed.

Lemma remove_file_ok f parent c s :
  dirname f = parent → fs_files (pr_fs s) !! f = Some c → denied parent = false →
  remove_file denied f s = (Ok tt, pr_set_fs (fs_set_files (delete f (fs_files (pr_fs s))) (pr_fs s)) s).
Proof.
  intros Hp Hf Hd. rewrite /remove_file /sys /zoom /unlink /mbind /M_bind /gets /exists_path.
  rewrite (bool_decide_eq_true_2 (is_Some (fs_files (pr_fs s) !! f))); [eauto|].
  rewrite orb_true_r Hp Hd bool_decide_eq_true_2; [eauto|done].
Qed.

(** A directory is removed if nothing is in it. *)
Lemma rmdir_outcome dir parent X rest s :
  dirname dir = parent → denied parent = false → dir ∉ X → dir ∉ fs_dirs rest →
  fs_dirs (pr_fs s) = {[dir]} ∪ (X ∪ fs_dirs rest) → fs_files (pr_fs s) = fs_files rest →
  (∀ d, d ∈ X → dirname d ≠ dir ∨ d = dir) →
  sys (rmdir denied dir) s =
    if is_empty_dir dir rest then (Ok true, pr_set_fs (fs_set_dirs (X ∪ fs_dirs rest) (pr_fs s)) s) else (Ok false, s).
Proof.
  intros Hp Hden HX Hr Hd Hf HXd. rewrite /sys /zoom /rmdir bool_decide_eq_true_2; [rewrite Hd; set_solver|].
  rewrite (is_empty_dir_more dir (pr_fs s) rest ({[dir]} ∪ X)); [by rewrite Hd assoc_L|done|set_solver|].
  rewrite Hp Hden. destruct (is_empty_dir dir rest); [|by destruct s]. cbn. do 3 f_equal. rewrite Hd. set_solver.
Qed.

Lemma remove_own fs s :
  writable_dirs denied → fs_dirs (pr_fs s) = {[dir3]} ∪ ({[dir2]} ∪ ({[dir1]} ∪ fs_dirs fs)) →
  fs_files (pr_fs s) = fs_files (without_own fs) →
  ∃ s', remove_directories denied 37 meeting_point_root dir3 s = (Ok (bool_decide (kept_dirs fs = ∅)), s') ∧
    pr_fs s' = fs_set_dirs (kept_dirs fs ∪ fs_dirs (without_own fs)) (pr_fs s) ∧ pr_unloaded s' = pr_unloaded s.
Proof.
  intros Hw Hd Hf. rewrite /writable_dirs !Forall_cons in Hw. destruct Hw as (W0 & W1 & W2 & W3 & _).
  destruct dirname_facts as (? & ? & ? & Hcl & ? & ? & ? & ? & ? & ? & ? & ? & ? & _).
  set (rest := without_own fs) in *.
  assert (fs_dirs (pr_fs s) = {[dir3]} ∪ ({[dir2; dir1]} ∪ fs_dirs rest)) as Hd'.
  { rewrite Hd. apply three_own. }
  assert (dir1 ∉ fs_dirs rest ∧ dir2 ∉ fs_dirs rest ∧ dir3 ∉ fs_dirs rest) as (R1 & R2 & R3).
  { apply three_out. }
  rewrite directories_removed /kept_dirs -/rest. clearbody rest.
  assert (sys (rmdir denied dir3) s = if is_empty_dir dir3 rest
    then (Ok true, pr_set_fs (fs_set_dirs ({[dir2; dir1]} ∪ fs_dirs rest) (pr_fs s)) s) else (Ok false, s)) as X3.
  { apply (rmdir_outcome dir3 dir2); [done|done|dir_out|done|done|done|].
    intros d. rewrite elem_of_union !elem_of_singleton. intros [->| ->]; by left. }
  destruct (is_empty_dir dir3 rest); cbn [negb].
  2:{ eexists. step_ok X3. split; [rewrite bool_decide_eq_false_2; [rewrite /own_dirs; set_solver|reflexivity]|]. split; [|done]. cbn.
      destruct (pr_fs s) as [D F L]. rewrite /fs_set_dirs /=. cbn in Hd'. f_equal. rewrite Hd'. apply three_all. }
  step_ok X3. cbv beta iota. erewrite bind_ok; [|reflexivity]. set (s1 := Build_process _ _ _ _).
  assert (sys (rmdir denied dir2) s1 = if is_empty_dir dir2 rest
    then (Ok true, pr_set_fs (fs_set_dirs ({[dir1]} ∪ fs_dirs rest) (pr_fs s1)) s1) else (Ok false, s1)) as X2.
  { apply (rmdir_outcome dir2 dir1); [done|done|by rewrite elem_of_singleton|done|cbn; by rewrite assoc_L|done|].
    intros d. rewrite elem_of_singleton. intros ->. by left. }
  destruct (is_empty_dir dir2 rest); cbn [negb].
  2:{ eexists. step_ok X2. split; [rewrite bool_decide_eq_false_2; [set_solver|reflexivity]|]. split; [|done]. cbn.
      rewrite /fs_set_dirs /=. f_equal. }
  step_ok X2. cbv beta iota. erewrite bind_ok; [|reflexivity]. set (s2 := Build_process _ _ _ _).
  assert (sys (rmdir denied dir1) s2 = if is_empty_dir dir1 rest
    then (Ok true, pr_set_fs (fs_set_dirs (∅ ∪ fs_dirs rest) (pr_fs s2)) s2) else (Ok false, s2)) as X1.
  { apply (rmdir_outcome dir1 (str "/tmp")); [done|done|set_solver|done|cbn; by rewrite left_id_L|done|set_solver]. }
  destruct (is_empty_dir dir1 rest); cbn [negb]; eexists; step_ok X1.
  - split; [rewrite bool_decide_eq_true_2; reflexivity|]. done.
  - split; [rewrite bool_decide_eq_false_2; [set_solver|reflexivity]|]. done.
Qed.

(** [cleanup] removes the two files, whatever they contain, and the
    directories in which nothing else is. *)
Lemma cleanup_own fs c c' s :
  writable_dirs denied → pr_lock s = lp_live →
  fs_dirs (pr_fs s) = {[dir3]} ∪ ({[dir2]} ∪ ({[dir1]} ∪ fs_dirs fs)) →
  fs_files (pr_fs s) = <[lock_path := c']> (<[config_path := c]> (fs_files fs)) →
  ∃ s', cleanup denied self meeting_point meeting_point_root s = (Ok tt, s') ∧
    pr_fs s' = {| fs_dirs := kept_dirs fs ∪ fs_dirs (without_own fs); fs_files := fs_files (without_own fs);
                  fs_locks := filter (λ kv, kv.2 ≠ self) (fs_locks (pr_fs s)) |} ∧
    pr_unloaded s' = pr_unloaded s || bool_decide (kept_dirs fs = ∅).
Proof.
  intros Hw Hl Hd Hf. pose proof Hw as Hw'.
  rewrite /writable_dirs !Forall_cons in Hw'. destruct Hw' as (W0 & W1 & W2 & W3 & _).
  destruct dirname_facts as (_ & _ & _ & Hcl & _).
  rewrite cleanup_steps //. set (s0 := pr_set_lock _ _).
  assert (fs_files (pr_fs s0) = <[lock_path := c']> (<[config_path := c]> (fs_files fs))) as Hf0 by done.
  step_ok (remove_file_ok config_path dir3 c s0 eq_refl ltac:(rewrite Hf0 lookup_insert_ne //; by apply lookup_insert_eq) W3).
  set (s1 := pr_set_fs _ _).
  assert (fs_files (pr_fs s1) = <[lock_path := c']> (delete config_path (fs_files fs))) as Hf1.
  { transitivity (delete config_path (<[lock_path:=c']> (<[config_path:=c]> (fs_files fs)))); [by rewrite -Hf0|].
    rewrite delete_insert_ne // delete_insert_eq //. }
  step_ok (remove_file_ok lock_path dir3 c' s1 eq_refl ltac:(rewrite Hf1; by apply lookup_insert_eq) W3).
  set (s2 := pr_set_fs _ s1).
  assert (fs_files (pr_fs s2) = fs_files (without_own fs)) as Hf2.
  { transitivity (delete lock_path (<[lock_path:=c']> (delete config_path (fs_files fs)))); [by rewrite -Hf1|].
    rewrite delete_insert_eq //. }
  assert (fs_dirs (pr_fs s2) = {[dir3]} ∪ ({[dir2]} ∪ ({[dir1]} ∪ fs_dirs fs))) as Hd2 by exact Hd.
  assert (fs_locks (pr_fs s2) = filter (λ kv, kv.2 ≠ self) (fs_locks (pr_fs s))) as Hl2 by done.
  assert (pr_unloaded s2 = pr_unloaded s) as Hu2 by done.
  clearbody s2. clear s0 s1 Hf0 Hf1. rewrite -Hl2. clear Hl2 Hf Hd. rewrite -Hu2. clear Hu2.
  destruct (remove_own fs s2 Hw Hd2 Hf2) as (s3 & E3 & G3 & U3). step_ok E3.
  case_bool_decide; (eexists; split; [reflexivity|]).
  - rewrite orb_true_r. split; [|done]. cbn. by rewrite G3 /fs_set_dirs Hf2.
  - rewrite orb_false_r. split; [|done]. by rewrite G3 /fs_set_dirs Hf2.
Qed.

(** In a clean place everything is removed. *)
Lemma cleanup_created dirs files c c' s :
  writable_dirs denied → clean dirs files → pr_lock s = lp_live →
  fs_dirs (pr_fs s) = {[dir3]} ∪ ({[dir2]} ∪ ({[dir1]} ∪ dirs)) →
  fs_files (pr_fs s) = <[lock_path := c']> (<[config_path := c]> files) →
  ∃ s', cleanup denied self meeting_point meeting_point_root s = (Ok tt, s') ∧
    pr_fs s' = {| fs_dirs := dirs; fs_files := files;
                  fs_locks := filter (λ kv, kv.2 ≠ self) (fs_locks (pr_fs s)) |} ∧
    pr_unloaded s' = true.
Proof.
  intros Hw Hc Hl Hd Hf. set (fs := {| fs_dirs := dirs; fs_files := files; fs_locks := ∅ |}).
  destruct (cleanup_own fs c c' s Hw Hl Hd Hf) as (s' & E & G & U).
  rewrite (clean_kept fs Hc) (clean_without_own fs Hc) /= in G. rewrite (clean_kept fs Hc) bool_decide_eq_true_2 // orb_true_r in U.
  exists s'. split_and!; [done| |done]. rewrite G. f_equal. set_solver.
Qed.
End meeting_point.

(** Releasing the locks of the process undoes taking one. *)
Lemma locks_restored (self : Z) (p : bytes) (L : gmap bytes Z) :
  map_Forall (λ _ holder, holder ≠ self) L → L !! p = None →
  filter (λ kv, kv.2 ≠ self) (<[p := self]> L) = L.
Proof.
  intros Hlk Hl. rewrite map_filter_insert_False; [intros H; by apply H|]. rewrite delete_id //.
  apply map_filter_id. intros k h Hk. by apply (Hlk k h).
Qed.

(** What the running middleware writes to its configuration file. *)
Definition write_config (contents : bytes) (s : process) : process :=
  pr_set_fs (fs_set_files (<[config_path := contents]> (fs_files (pr_fs s))) (pr_fs s)) s.

(** C30: What the start of the middleware creates and its end removes.  Let
    the directories be writable, the parent directory be there, no file be in
    the way of a directory or the other way round, and let the new process
    hold no lock; the directories and files of the meeting point may be
    there already, and other files in them.  If no process holds the lock,
    [initialize] makes the directories, empties the configuration file and
    the lock file and takes the lock; and [cleanup], whatever was written to
    the configuration file, deletes both files, releases the lock, and
    removes the directories from the innermost outwards, those that were
    there before included, up to the first one that holds something else
    ([kept_dirs]); everything else is as it was, and the modules are unloaded
    only if all directories went.  So a clean place is restored exactly.  If
    another process holds the lock, [initialize] throws, having emptied the
    configuration of that process. *)
Theorem meeting_point_restored denied self fs :
  writable_dirs denied → usable (fs_dirs fs) (fs_files fs) → map_Forall (λ _ holder, holder ≠ self) (fs_locks fs) →
  match fs_locks fs !! lock_path with
  | None =>
      ∃ s1, initialize denied self meeting_point meeting_point_root (new_process fs) = (Ok tt, s1) ∧
        fs_dirs (pr_fs s1) = own_dirs ∪ fs_dirs fs ∧
        fs_files (pr_fs s1) = <[lock_path := []]> (<[config_path := []]> (fs_files fs)) ∧
        fs_locks (pr_fs s1) = <[lock_path := self]> (fs_locks fs) ∧
        ∀ contents, ∃ s2,
          cleanup denied self meeting_point meeting_point_root (write_config contents s1) = (Ok tt, s2) ∧
          pr_fs s2 = fs_set_dirs (kept_dirs fs ∪ fs_dirs (without_own fs)) (without_own fs) ∧
          pr_unloaded s2 = bool_decide (kept_dirs fs = ∅) ∧
          (clean (fs_dirs fs) (fs_files fs) → pr_fs s2 = fs ∧ pr_unloaded s2 = true)
  | Some _ =>
      ∃ s1, initialize denied self meeting_point meeting_point_root (new_process fs) =
          (Throw (runtime_error "Could not get interprocess file lock"), s1) ∧
        fs_dirs (pr_fs s1) = own_dirs ∪ fs_dirs fs ∧
        fs_files (pr_fs s1) = <[lock_path := []]> (<[config_path := []]> (fs_files fs)) ∧
        fs_locks (pr_fs s1) = fs_locks fs
  end.
Proof.
  intros Hw Hus Hlk. destruct dirname_facts as (_ & _ & _ & Hne & _).
  assert ({[dir3]} ∪ ({[dir2]} ∪ ({[dir1]} ∪ fs_dirs fs)) = own_dirs ∪ fs_dirs fs) as Hown by apply three_union.
  destruct (fs_locks fs !! lock_path) as [holder|] eqn:Hl.
  { destruct (initialize_locked denied self (new_process fs) holder Hw Hus Hl) as (s1 & E & G2 & G3 & G4); [by apply (Hlk lock_path)|].
    exists s1. rewrite -Hown. by split_and!. }
  destruct (initialize_usable denied self (new_process fs) Hw Hus Hl) as (s1 & E1 & (G1 & G2 & G3 & G4) & HU).
  exists s1. rewrite -Hown. split_and!; [done..|].
  intros c. destruct (cleanup_own denied self fs c [] (write_config c s1)) as (s2 & E2 & G5 & G6); [done..| |].
  { cbn. rewrite G3. rewrite insert_insert_ne // insert_insert_eq //. }
  assert (pr_fs s2 = fs_set_dirs (kept_dirs fs ∪ fs_dirs (without_own fs)) (without_own fs)) as G7.
  { rewrite G5 /fs_set_dirs. f_equal. cbn. rewrite G4. by apply locks_restored. }
  change (pr_unloaded (write_config c s1)) with (pr_unloaded s1) in G6. rewrite HU /= in G6.
  exists s2. split_and!; [done..|]. intros Hc. rewrite G7 G6 (clean_kept fs Hc) (clean_without_own fs Hc).
  rewrite bool_decide_eq_true_2 //. split; [|done]. destruct fs as [D F L]. rewrite /fs_set_dirs /=. f_equal. set_solver.
Qed.

(** The directories are there, and another program put a file into the outer
    one. *)
Definition used_fs : fsys :=
  {| fs_dirs := {[ []; str "/tmp"; dir1; dir2 ]}; fs_files := {[ str "/tmp/hamcast/notes" := str "x" ]}; fs_locks := ∅ |}.

Lemma meeting_point_restored_witness :
  (∃ s1 s2, initialize (λ _, false) 1 meeting_point meeting_point_root (new_process empty_fs) = (Ok tt, s1) ∧
    cleanup (λ _, false) 1 meeting_point meeting_point_root (write_config (str "x") s1) = (Ok tt, s2) ∧
    pr_fs s2 = empty_fs) ∧
  (∃ s1 s2, initialize (λ _, false) 1 meeting_point meeting_point_root (new_process used_fs) = (Ok tt, s1) ∧
    cleanup (λ _, false) 1 meeting_point meeting_point_root (write_config (str "x") s1) = (Ok tt, s2) ∧
    fs_dirs (pr_fs s2) = {[ []; str "/tmp"; dir1 ]} ∧ pr_unloaded s2 = false).
Proof.
  split.
  - destruct (meeting_point_restored (λ _, false) 1 empty_fs) as (s1 & E1 & _ & _ & _ & H).
    + by repeat constructor.
    + by apply (bool_decide_unpack _).
    + apply map_Forall_empty.
    + destruct (H (str "x")) as (s2 & E2 & _ & _ & E3). exists s1, s2. split; [exact E1|]. split; [exact E2|].
      apply E3. split; [set_solver|]. intros p Hp. split; [|apply lookup_empty].
      cbn. rewrite not_elem_of_union !not_elem_of_singleton.
      split; intros ->; revert Hp; by apply (bool_decide_unpack _).
  - destruct (meeting_point_restored (λ _, false) 1 used_fs) as (s1 & E1 & _ & _ & _ & H).
    + by repeat constructor.
    + apply (bool_decide_unpack _). vm_compute. exact I.
    + apply map_Forall_empty.
    + destruct (H (str "x")) as (s2 & E2 & E3 & E4 & _). exists s1, s2. split; [exact E1|]. split; [exact E2|].
      rewrite E3 E4. split; apply (bool_decide_unpack _); vm_compute; exact I.
Defined.

(** An empty configuration file is not accepted. *)
Lemma read_empty_config fs :
  fs !! config_path = Some [] →
  fs !! config_path = Some [] ∧ ∀ mc, ∃ mc', mc_read fs mc = (Ok false, mc').
Proof.
  intros H. split; [done|]. intros mc.
  destruct (read_from_loop_spec false false [] (mc_set_str_port (str "0") (mc_set_port 0 mc)))
    as (b & mc' & E & -> & _). exists mc'. rewrite /mc_read /read_from -/config_path H. exact E.
Qed.

(** Starting a second middleware on the same host does no good to the
    first: [creat] never reports an existing file, so the second one empties
    the configuration file before it finds the lock taken and gives up; from
    then on clients do not find the middleware that runs. *)
Theorem second_instance_erases_config denied self other s contents :
  self ≠ other → denied dir3 = false →
  dir1 ∈ fs_dirs (pr_fs s) → dir2 ∈ fs_dirs (pr_fs s) → dir3 ∈ fs_dirs (pr_fs s) →
  config_path ∉ fs_dirs (pr_fs s) → lock_path ∉ fs_dirs (pr_fs s) →
  fs_files (pr_fs s) !! config_path = Some contents → fs_locks (pr_fs s) !! lock_path = Some self →
  ∃ s', initialize denied other meeting_point meeting_point_root s =
      (Throw (runtime_error "Could not get interprocess file lock"), s') ∧
    fs_files (pr_fs s') !! config_path = Some [] ∧
    ∀ mc, ∃ mc', mc_read (fs_files (pr_fs s')) mc = (Ok false, mc').
Proof.
  intros Hso Hden H1 H2 H3 Hc Hl Hcfg Hlk. destruct dirname_facts as (_ & _ & _ & Hne & _).
  assert (∀ d s0, pr_fs s0 = pr_fs s → d ∈ fs_dirs (pr_fs s) →
    ∃ s1, make_directory denied d s0 = (Ok tt, s1) ∧ pr_fs s1 = pr_fs s) as Hmk.
  { intros d s0 E0 Hd. eexists. rewrite /make_directory /create_directory /sys /zoom /mkdir /mbind /M_bind E0.
    by rewrite /exists_path bool_decide_eq_true_2. }
  destruct (Hmk dir1 s eq_refl H1) as (s1 & E1 & G1), (Hmk dir2 s1 G1 H2) as (s2 & E2 & G2),
    (Hmk dir3 s2 G2 H3) as (s3 & E3 & G3).
  eexists. rewrite initialize_steps. rewrite (bind_ok _ _ s tt s3); [by step_ok E1; step_ok E2|].
  step_ok (create_file_ok denied config_path dir3 false s3 eq_refl ltac:(by rewrite G3) Hden ltac:(by rewrite G3)).
  erewrite bind_ok; [|apply (create_file_ok denied lock_path dir3)]; cbn [pr_fs pr_set_fs fs_dirs fs_set_files];
    [|done|by rewrite G3|done|by rewrite G3].
  assert (fs_locks (pr_fs s3) !! lock_path = Some self) as Hlk3 by (by rewrite G3).
  split; [|apply read_empty_config].
  - rewrite /lock_file /mbind /M_bind /gets. cbn [pr_fs pr_set_fs fs_files fs_locks fs_set_files].
    rewrite lookup_insert_eq bool_decide_eq_true_2; [eauto|]. cbn -[lock_path]. rewrite Hlk3.
    rewrite (proj2 (Z.eqb_neq self other)) //.
  - cbn -[config_path lock_path]. rewrite lookup_insert_ne // lookup_insert_eq //.
Qed.

Definition first_instance : process :=
  (initialize (λ _, false) 1 meeting_point meeting_point_root (new_process empty_fs)).2.

Lemma second_instance_erases_config_witness :
  ∃ s', initialize (λ _, false) 2 meeting_point meeting_point_root (write_config (str "x") first_instance) =
      (Throw (runtime_error "Could not get interprocess file lock"), s') ∧
    fs_files (pr_fs s') !! config_path = Some [].
Proof.
  destruct (second_instance_erases_config (λ _, false) 1 2 (write_config (str "x") first_instance) (str "x"))
    as (s' & E & H & _); [done|done|apply (bool_decide_unpack _); vm_compute; exact I..| | |].
  - vm_compute. reflexivity.
  - vm_compute. reflexivity.
  - exists s'. exact (conj E H).
Defined.
