(* ===== verification/SingleReaderQueue.v ===== *)
(** * The single-reader-many-writer queue

    [util::single_reader_queue] ([util/single_reader_queue.hpp]) at the
    granularity of its shared-memory accesses: every load of [m_stack],
    every store to a [next] pointer, every compare-and-swap and every
    operation on the mutex and the condition variable is a step of one
    thread, and the steps of the reader and of any number of writers
    interleave in any order (sequentially consistent memory).

    The theorems: the queue is a FIFO queue for every interleaving, it loses
    and duplicates nothing, a blocking [pop] never returns NULL, and no
    wake-up is lost. *)

From S2P Require Import Prelude.

Module queue.

Abbreviation loc := positive.

(** ** Program counters *)

(** [push(head, tail)] of a list segment, newest element first; the flag
    tells [push] from [unsafe_push]. *)
Inductive wpc :=
  | W_idle
  | W_read (signaling : bool) (seg : list loc)
  | W_loaded (signaling : bool) (seg : list loc) (e : option loc)
  | W_linked (signaling : bool) (seg : list loc) (e : option loc)
  | W_locked (seg : list loc)
  | W_notify
  | W_unlock (retry : option (list loc)).

(** [pop()], [try_pop(duration)], [try_pop()] and [front()]. *)
Inductive mode := M_pop | M_timed_pop | M_try_pop | M_front.

Inductive rpc :=
  | R_idle
  | R_check (m : mode)
  | R_lock (m : mode)
  | R_loop (m : mode)
  | R_asleep (m : mode)
  | R_take (m : mode)
  | R_loaded (m : mode) (e : loc)
  | R_rev (m : mode) (e : option loc)
  | R_head (m : mode).

Inductive holder := H_reader | H_writer (i : nat).

#[export] Instance mode_eq_dec : EqDecision mode.
Proof. solve_decision. Defined.
#[export] Instance holder_eq_dec : EqDecision holder.
Proof. solve_decision. Defined.

(** The shared memory: the [next] pointers, [m_stack], [m_cache] and the
    mutex; the program counters; and the elements that client code owns,
    that is, that are neither in the queue nor in a running push. *)
Record state := {
  heap : gmap loc (option loc);
  stack : option loc;
  cache : option loc;
  mtx : option holder;
  reader : rpc;
  writers : gmap nat wpc;
  clients : gset loc
}.

Definition set_heap h s := {| heap := h; stack := stack s; cache := cache s; mtx := mtx s;
  reader := reader s; writers := writers s; clients := clients s |}.
Definition set_stack p s := {| heap := heap s; stack := p; cache := cache s; mtx := mtx s;
  reader := reader s; writers := writers s; clients := clients s |}.
Definition set_cache p s := {| heap := heap s; stack := stack s; cache := p; mtx := mtx s;
  reader := reader s; writers := writers s; clients := clients s |}.
Definition set_mtx o s := {| heap := heap s; stack := stack s; cache := cache s; mtx := o;
  reader := reader s; writers := writers s; clients := clients s |}.
Definition set_reader r s := {| heap := heap s; stack := stack s; cache := cache s; mtx := mtx s;
  reader := r; writers := writers s; clients := clients s |}.
Definition set_writer i w s := {| heap := heap s; stack := stack s; cache := cache s; mtx := mtx s;
  reader := reader s; writers := <[i := w]> (writers s); clients := clients s |}.
Definition set_clients c s := {| heap := heap s; stack := stack s; cache := cache s; mtx := mtx s;
  reader := reader s; writers := writers s; clients := c |}.

Definition wr (s : state) (i : nat) : wpc := default W_idle (writers s !! i).

(** What a completed step shows: the segment a push made visible, or what a
    reader operation returned. *)
Inductive event :=
  | E_push (seg : list loc)
  | E_pop (m : mode) (r : option loc)
  | E_front (r : option loc).

Definition result : Type := option (state * list event).
Definition silent (s : state) : result := Some (s, []).

(** ** The writer *)

(** Client code links the elements of a segment before it pushes it. *)
Fixpoint link_seg (seg : list loc) (h : gmap loc (option loc)) : gmap loc (option loc) :=
  match seg with
  | [] => h
  | a :: seg' => <[a := head seg']> (link_seg seg' h)
  end.

Definition start_push (i : nat) (signaling : bool) (seg : list loc) (s : state) : result :=
  match wr s i with
  | W_idle =>
      if bool_decide (seg ≠ [] ∧ NoDup seg ∧ list_to_set seg ⊆ clients s)
      then silent (set_writer i (W_read signaling seg) (set_heap (link_seg seg (heap s))
             (set_clients (clients s ∖ list_to_set seg) s)))
      else None
  | _ => None
  end.

(** The loops of [push] and [unsafe_push]. *)
Definition writer_step (i : nat) (s : state) : result :=
  match wr s i with
  | W_idle => None
  | W_read sg seg => silent (set_writer i (W_loaded sg seg (stack s)) s)
  | W_loaded sg seg e =>
      match last seg with
      | Some tail => silent (set_writer i (W_linked sg seg e) (set_heap (<[tail := e]> (heap s)) s))
      | None => None
      end
  | W_linked sg seg e =>
      if sg && bool_decide (e = None) then
        match mtx s with
        | None => silent (set_writer i (W_locked seg) (set_mtx (Some (H_writer i)) s))
        | Some _ => None
        end
      else if bool_decide (stack s = e) then
        Some (set_writer i W_idle (set_stack (head seg) s), [E_push seg])
      else silent (set_writer i (W_read sg seg) s)
  | W_locked seg =>
      if bool_decide (stack s = None) then
        Some (set_writer i W_notify (set_stack (head seg) s), [E_push seg])
      else silent (set_writer i (W_unlock (Some seg)) s)
  | W_notify =>
      let s' := match reader s with
                | R_asleep m => set_reader (R_lock m) s
                | _ => s
                end in
      silent (set_writer i (W_unlock None) s')
  | W_unlock retry =>
      let next := match retry with Some seg => W_read true seg | None => W_idle end in
      silent (set_writer i next (set_mtx None s))
  end.

(** ** The reader *)

Definition start_read (m : mode) (s : state) : result :=
  match reader s with
  | R_idle =>
      silent (set_reader (match m with
                          | M_pop | M_timed_pop => R_check m
                          | M_try_pop | M_front => R_take m
                          end) s)
  | _ => None
  end.

(** A return of NULL. *)
Definition return_null (m : mode) (s : state) : result :=
  Some (set_reader R_idle s, [match m with M_front => E_front None | _ => E_pop m None end]).

(** [wait_for_data], [take_head] and [take_public_tail]. *)
Definition reader_step (s : state) : result :=
  match reader s with
  | R_idle => None
  | R_check m =>
      if bool_decide (cache s = None ∧ stack s = None)
      then silent (set_reader (R_lock m) s)
      else silent (set_reader (R_take m) s)
  | R_lock m =>
      match mtx s with
      | None => silent (set_reader (R_loop m) (set_mtx (Some H_reader) s))
      | Some _ => None
      end
  | R_loop m =>
      if bool_decide (stack s = None)
      then silent (set_reader (R_asleep m) (set_mtx None s))
      else silent (set_reader (R_take m) (set_mtx None s))
  | R_asleep _ => None
  | R_take m =>
      match cache s with
      | Some _ => silent (set_reader (R_head m) s)
      | None =>
          match stack s with
          | Some e => silent (set_reader (R_loaded m e) s)
          | None => return_null m s
          end
      end
  | R_loaded m e =>
      if bool_decide (stack s = Some e) then
        silent (set_reader (R_rev m (Some e)) (set_stack None s))
      else
        match stack s with
        | Some e' => silent (set_reader (R_loaded m e') s)
        | None => return_null m s
        end
  | R_rev m (Some e) =>
      match heap s !! e with
      | Some next => silent (set_reader (R_rev m next) (set_cache (Some e)
                       (set_heap (<[e := cache s]> (heap s)) s)))
      | None => None
      end
  | R_rev m None => silent (set_reader (R_head m) s)
  | R_head m =>
      match m, cache s with
      | M_front, r => Some (set_reader R_idle s, [E_front r])
      | _, Some r =>
          match heap s !! r with
          | Some next => Some (set_reader R_idle (set_cache next
                           (set_clients ({[r]} ∪ clients s) s)), [E_pop m (Some r)])
          | None => None
          end
      | _, None => None
      end
  end.

(** A wake-up without notification, and the end of a timed wait. *)
Definition spurious_wakeup (s : state) : result :=
  match reader s with
  | R_asleep m => silent (set_reader (R_lock m) s)
  | _ => None
  end.

Definition timeout (s : state) : result :=
  match reader s, mtx s with
  | R_asleep M_timed_pop, None => return_null M_timed_pop s
  | _, _ => None
  end.

(** ** Executions *)

Inductive action :=
  | A_push (i : nat) (signaling : bool) (seg : list loc)
  | A_writer (i : nat)
  | A_read (m : mode)
  | A_reader
  | A_spurious
  | A_timeout.

Definition exec (a : action) (s : state) : result :=
  match a with
  | A_push i sg seg => start_push i sg seg s
  | A_writer i => writer_step i s
  | A_read m => start_read m s
  | A_reader => reader_step s
  | A_spurious => spurious_wakeup s
  | A_timeout => timeout s
  end.

Fixpoint run (acts : list action) (s : state) : result :=
  match acts with
  | [] => silent s
  | a :: acts' =>
      match exec a s with
      | Some (s', ev) =>
          match run acts' s' with
          | Some (s'', evs) => Some (s'', ev ++ evs)
          | None => None
          end
      | None => None
      end
  end.

(** [single_reader_queue()], with elements [els] in the hands of clients. *)
Definition init (els : gset loc) : state :=
  {| heap := ∅; stack := None; cache := None; mtx := None; reader := R_idle; writers := ∅;
     clients := els |}.

(** ** The abstract queue *)

Definition pushed (evs : list event) : list loc :=
  evs ≫= λ e, match e with E_push seg => reverse seg | _ => [] end.
Definition popped (evs : list event) : list loc :=
  evs ≫= λ e, match e with E_pop _ (Some r) => [r] | _ => [] end.

Fixpoint is_list (h : gmap loc (option loc)) (p : option loc) (l : list loc) : Prop :=
  match l with
  | [] => p = None
  | a :: l' => p = Some a ∧ ∃ n, h !! a = Some n ∧ is_list h n l'
  end.

(** A segment: linked except for the [next] of its last element. *)
Fixpoint is_seg (h : gmap loc (option loc)) (l : list loc) : Prop :=
  match l with
  | [] => True
  | a :: l' => (∃ n, h !! a = Some n ∧ (l' ≠ [] → n = head l')) ∧ is_seg h l'
  end.

Definition rev_ptr (r : rpc) : option loc :=
  match r with R_rev _ e => e | _ => None end.

Definition wseg (w : wpc) : list loc :=
  match w with
  | W_idle | W_notify => []
  | W_read _ seg | W_loaded _ seg _ | W_linked _ seg _ | W_locked seg => seg
  | W_unlock r => default [] r
  end.

(** The value a linked segment's tail points to. *)
Definition wlink (w : wpc) : option (option loc) :=
  match w with
  | W_linked _ _ e => Some e
  | W_locked _ => Some None
  | _ => None
  end.

(** The program counters that still have to publish a segment. *)
Definition pushing (w : wpc) : bool :=
  match w with W_idle | W_notify | W_unlock None => false | _ => true end.

Definition holds (w : wpc) : bool :=
  match w with W_locked _ | W_notify | W_unlock _ => true | _ => false end.

(** ** The invariant *)

Inductive owner := O_stack | O_rev | O_cache | O_writer (i : nat) | O_client.

Record shape (s : state) (own : loc → owner) (ls lr lc : list loc) : Prop := {
  sh_stack : is_list (heap s) (stack s) ls;
  sh_rev : is_list (heap s) (rev_ptr (reader s)) lr;
  sh_cache : is_list (heap s) (cache s) lc;
  sh_nodup : NoDup ls ∧ NoDup lr ∧ NoDup lc;
  sh_ls a : a ∈ ls → own a = O_stack;
  sh_lr a : a ∈ lr → own a = O_rev;
  sh_lc a : a ∈ lc → own a = O_cache;
  sh_wr i a : a ∈ wseg (wr s i) → own a = O_writer i;
  sh_cl a : a ∈ clients s → own a = O_client;
  sh_seg i : is_seg (heap s) (wseg (wr s i)) ∧ NoDup (wseg (wr s i));
  sh_link i e : wlink (wr s i) = Some e →
    ∃ t, last (wseg (wr s i)) = Some t ∧ heap s !! t = Some e;
  sh_ne i : pushing (wr s i) = true → wseg (wr s i) ≠ []
}.

Definition contents (ls lr lc : list loc) : list loc := reverse lr ++ lc ++ reverse ls.

(** What the reader knows at each point of its code. *)
Definition reader_ok (s : state) (lr lc : list loc) : Prop :=
  match reader s with
  | R_take M_pop => cache s ≠ None ∨ stack s ≠ None
  | R_loaded _ _ => cache s = None ∧ stack s ≠ None
  | R_rev _ _ => lr ++ lc ≠ []
  | R_head _ => cache s ≠ None
  | _ => True
  end.

(** The mutex has one holder, the one its program counter says. *)
Definition mutex_ok (s : state) : Prop :=
  (∀ m, reader s = R_loop m → mtx s = Some H_reader) ∧
  (∀ i, holds (wr s i) = true ↔ mtx s = Some (H_writer i)).

(** The whole invariant, for the abstract queue [c]. *)
Definition Inv (c : list loc) (s : state) : Prop :=
  ∃ own ls lr lc, shape s own ls lr lc ∧ reader_ok s lr lc ∧ mutex_ok s ∧ c = contents ls lr lc.

(** What an event may show when the queue holds [c]. *)
Definition event_ok (c : list loc) (ev : event) : Prop :=
  match ev with
  | E_pop M_pop None => False
  | E_pop M_try_pop None => c = []
  | E_front r => r = head c
  | _ => True
  end.

(** No lost wake-up: while the reader sleeps there is nothing to read, or a
    writer is about to notify it. *)
Definition wakeup_ok (s : state) : Prop :=
  ∀ m, reader s = R_asleep m → stack s = None ∨ ∃ i, wr s i = W_notify.

(** No writer uses the non-signaling push. *)
Definition signaling_ok (s : state) : Prop :=
  ∀ i, match wr s i with
       | W_read sg _ | W_loaded sg _ _ | W_linked sg _ _ => sg = true
       | _ => True
       end.

(** ** Linked lists under stores *)

Definition agree (h h' : gmap loc (option loc)) (l : list loc) : Prop :=
  ∀ a, a ∈ l → h' !! a = h !! a.

Lemma is_list_agree h h' p l : agree h h' l → is_list h p l → is_list h' p l.
Proof.
  revert p. induction l as [|a l IH]; intros p Ha Hl; [done|].
  destruct Hl as [-> (n & Hn & Hl)]. split; [done|]. exists n. split.
  - rewrite Ha; [set_solver|done].
  - apply IH; [|done]. intros b Hb. apply Ha. set_solver.
Qed.

Lemma is_seg_agree h h' l : agree h h' l → is_seg h l → is_seg h' l.
Proof.
  induction l as [|a l IH]; intros Ha Hl; [done|].
  destruct Hl as [(n & Hn & Hh) Hl]. split.
  - exists n. split; [|done]. rewrite Ha; [set_solver|done].
  - apply IH; [|done]. intros b Hb. apply Ha. set_solver.
Qed.

Lemma agree_insert h a v l : a ∉ l → agree h (<[a := v]> h) l.
Proof. intros Ha b Hb. rewrite lookup_insert_ne; [|done]. by intros ->. Qed.

Lemma link_seg_other seg h a : a ∉ seg → link_seg seg h !! a = h !! a.
Proof.
  induction seg as [|b seg IH]; intros Ha; [done|]. simpl.
  rewrite lookup_insert_ne; [set_solver|]. apply IH. set_solver.
Qed.

Lemma link_seg_is_seg seg h : NoDup seg → is_seg (link_seg seg h) seg.
Proof.
  induction 1 as [|a seg Ha Hnd IH]; [done|]. split.
  - exists (head seg). simpl. by rewrite lookup_insert_eq.
  - eapply is_seg_agree; [|exact IH]. simpl. by apply agree_insert.
Qed.

Lemma head_app_ne {A} (l k : list A) : l ≠ [] → head (l ++ k) = head l.
Proof. by destruct l. Qed.

(** Storing to the tail completes a segment in front of another list. *)
Lemma is_seg_join h seg t e l :
  is_seg h seg → last seg = Some t → h !! t = Some e → is_list h e l →
  is_list h (head seg) (seg ++ l).
Proof.
  induction seg as [|a seg IH]; intros Hs Ht He Hl; [done|]. simpl in Hs.
  destruct Hs as [(n & Hn & Hh) Hs]. simpl. split; [done|].
  destruct seg as [|b seg].
  - simpl in Ht. simplify_eq. by eexists.
  - exists n. split; [done|]. rewrite Hh; [done|]. by apply IH.
Qed.

Lemma is_seg_store_tail h seg t e :
  NoDup seg → is_seg h seg → last seg = Some t → is_seg (<[t := e]> h) seg.
Proof.
  induction seg as [|a seg IH]; intros Hnd Hs Ht; [done|].
  apply NoDup_cons in Hnd as [Ha Hnd]. destruct Hs as [(n & Hn & Hh) Hs].
  destruct seg as [|b seg].
  - simpl in Ht. simplify_eq. split; [|done]. exists e. by rewrite lookup_insert_eq.
  - split; [|by apply IH]. exists n. split; [|done]. rewrite lookup_insert_ne; [|done].
    intros <-. apply Ha. rewrite last_cons_cons in Ht. apply last_Some in Ht as (l0 & ->). set_solver.
Qed.

Lemma is_list_ne h p l : is_list h p l → p ≠ None → l ≠ [].
Proof. destruct l; simpl; naive_solver. Qed.

Lemma is_list_none h l : is_list h None l → l = [].
Proof. destruct l; simpl; naive_solver. Qed.

(** ** Preservation of the shape *)

Lemma wr_set_writer i w s j : wr (set_writer i w s) j = (if bool_decide (j = i) then w else wr s j).
Proof.
  rewrite /wr /=. case_bool_decide as E; [subst; by rewrite lookup_insert_eq|].
  by rewrite lookup_insert_ne.
Qed.

Definition own_set (l : list loc) (o : owner) (own : loc → owner) (a : loc) : owner :=
  if bool_decide (a ∈ l) then o else own a.

Lemma own_set_in l o own a : a ∈ l → own_set l o own a = o.
Proof. intros. rewrite /own_set. by case_bool_decide. Qed.

Lemma own_set_out l o own a : a ∉ l → own_set l o own a = own a.
Proof. intros. rewrite /own_set. by case_bool_decide. Qed.

(** A step that changes program counters and the mutex only. *)
Lemma shape_ext s s' own ls lr lc :
  shape s own ls lr lc →
  heap s' = heap s → stack s' = stack s → cache s' = cache s → clients s' = clients s →
  rev_ptr (reader s') = rev_ptr (reader s) →
  (∀ i, wseg (wr s' i) = wseg (wr s i) ∧
        (wlink (wr s' i) = wlink (wr s i) ∨ wlink (wr s' i) = None) ∧
        (pushing (wr s' i) = true → wseg (wr s' i) ≠ [])) →
  shape s' own ls lr lc.
Proof.
  intros [] Hh Hs Hc Hcl Hr Hw.
  split; rewrite ?Hh ?Hs ?Hc ?Hcl ?Hr; try done.
  - intros i a. rewrite (proj1 (Hw i)). eauto.
  - intros i. rewrite (proj1 (Hw i)). eauto.
  - intros i e. destruct (Hw i) as (-> & [->| ->] & _); [eauto|done].
  - intros i. apply (Hw i).
Qed.

Lemma shape_reader s r own ls lr lc :
  shape s own ls lr lc → rev_ptr r = rev_ptr (reader s) →
  shape (set_reader r s) own ls lr lc.
Proof. intros Hs Hr. eapply shape_ext; [done..|]. intros i. pose proof (sh_ne _ _ _ _ _ Hs i). eauto. Qed.

Lemma shape_mtx s o own ls lr lc : shape s own ls lr lc → shape (set_mtx o s) own ls lr lc.
Proof. intros Hs. eapply shape_ext; [done..|]. intros i. pose proof (sh_ne _ _ _ _ _ Hs i). eauto. Qed.

Lemma shape_writer s i w own ls lr lc :
  shape s own ls lr lc → wseg w = wseg (wr s i) →
  wlink w = wlink (wr s i) ∨ wlink w = None →
  (pushing w = true → wseg w ≠ []) →
  shape (set_writer i w s) own ls lr lc.
Proof.
  intros Hs Hseg Hl Hne. eapply shape_ext; [done..|]. intros j. rewrite wr_set_writer.
  case_bool_decide; [subst j; exact (conj Hseg (conj Hl Hne))|]. split; [done|]. split; [by left|]. by apply (sh_ne _ _ _ _ _ Hs).
Qed.

(** Distinct owners make distinct elements. *)
Lemma owners_disjoint (own : loc → owner) (o : owner) (l k : list loc) a :
  (∀ b, b ∈ l → own b = o) → (∀ b, b ∈ k → own b ≠ o) → a ∈ l → a ∉ k.
Proof. intros Hl Hk Ha Hk'. by apply (Hk a Hk'), Hl. Qed.

Lemma shape_start s i sg seg own ls lr lc :
  shape s own ls lr lc → wr s i = W_idle → seg ≠ [] → NoDup seg → list_to_set seg ⊆ clients s →
  shape (set_writer i (W_read sg seg) (set_heap (link_seg seg (heap s))
          (set_clients (clients s ∖ list_to_set seg) s)))
    (own_set seg (O_writer i) own) ls lr lc.
Proof.
  intros Hs Hi Hne Hnd Hsub.
  assert (∀ b, b ∈ seg → own b = O_client) as Hc.
  { intros b Hb. apply (sh_cl _ _ _ _ _ Hs). set_solver. }
  assert (∀ l, (∀ b, b ∈ l → own b ≠ O_client) → agree (heap s) (link_seg seg (heap s)) l ∧
            ∀ b, b ∈ l → own_set seg (O_writer i) own b = own b) as Hout.
  { intros l Hl. split; intros b Hb.
    - apply link_seg_other. intros Hb'. by apply (Hl b Hb), Hc.
    - apply own_set_out. intros Hb'. by apply (Hl b Hb), Hc. }
  assert (∀ j, j ≠ i → ∀ b, b ∈ wseg (wr s j) → own b ≠ O_client) as Hwo.
  { intros j Hj b Hb. rewrite (sh_wr _ _ _ _ _ Hs j b Hb). done. }
  destruct Hs as [H1 H2 H3 H4 H5 H6 H7 H8 H9 H10 H11 H12].
  destruct (Hout ls) as [Als Ols]; [intros b Hb; by rewrite H5|].
  destruct (Hout lr) as [Alr Olr]; [intros b Hb; by rewrite H6|].
  destruct (Hout lc) as [Alc Olc]; [intros b Hb; by rewrite H7|].
  split; cbn [heap stack cache clients reader set_writer set_heap set_clients]; try done.
  - by eapply is_list_agree.
  - by eapply is_list_agree.
  - by eapply is_list_agree.
  - intros a Ha. rewrite Ols; eauto.
  - intros a Ha. rewrite Olr; eauto.
  - intros a Ha. rewrite Olc; eauto.
  - intros j a. rewrite wr_set_writer. case_bool_decide as E.
    + subst j. apply own_set_in.
    + intros Ha. destruct (Hout (wseg (wr s j))) as [_ Ow]; [eauto|]. rewrite Ow; eauto.
  - intros a [Ha Hn]%elem_of_difference. rewrite own_set_out; [set_solver|eauto].
  - intros j. rewrite wr_set_writer. case_bool_decide as E.
    + split; [by apply link_seg_is_seg|done].
    + destruct (Hout (wseg (wr s j))) as [Aw _]; [eauto|].
      destruct (H10 j). split; [by eapply is_seg_agree|done].
  - intros j e. rewrite wr_set_writer. case_bool_decide as E; [done|]. intros Hl.
    destruct (H11 j e Hl) as (t & Ht & He). exists t. split; [done|].
    destruct (Hout (wseg (wr s j))) as [Aw _]; [eauto|]. rewrite Aw; [|done].
    by eapply last_Some_elem_of.
  - intros j. rewrite wr_set_writer. case_bool_decide as E; [done|apply H12].
Qed.

(** A store to an element that writer [i] owns. *)
Lemma shape_store s i sg seg e t own ls lr lc :
  shape s own ls lr lc → wr s i = W_loaded sg seg e → last seg = Some t →
  shape (set_writer i (W_linked sg seg e) (set_heap (<[t := e]> (heap s)) s)) own ls lr lc.
Proof.
  intros Hs Hi Ht. pose proof (last_Some_elem_of _ _ Ht) as Htin.
  assert (own t = O_writer i) as Hot.
  { apply (sh_wr _ _ _ _ _ Hs). by rewrite Hi. }
  assert (∀ l, (∀ b, b ∈ l → own b ≠ O_writer i) → agree (heap s) (<[t := e]> (heap s)) l) as Hout.
  { intros l Hl. apply agree_insert. intros Hb. by apply (Hl t Hb). }
  assert (∀ j, j ≠ i → agree (heap s) (<[t := e]> (heap s)) (wseg (wr s j))) as Hwo.
  { intros j Hj. apply Hout. intros b Hb. rewrite (sh_wr _ _ _ _ _ Hs j b Hb). congruence. }
  destruct Hs as [H1 H2 H3 H4 H5 H6 H7 H8 H9 H10 H11 H12].
  pose proof (H10 i) as [Hseg Hnd]. rewrite Hi in Hseg, Hnd.
  split; cbn [heap stack cache clients reader set_writer set_heap]; try done.
  - eapply is_list_agree; [|done]. apply Hout. intros b Hb. by rewrite H5.
  - eapply is_list_agree; [|done]. apply Hout. intros b Hb. by rewrite H6.
  - eapply is_list_agree; [|done]. apply Hout. intros b Hb. by rewrite H7.
  - intros j a. rewrite wr_set_writer. case_bool_decide as E; [|eauto].
    subst j. intros Ha. apply H8. by rewrite Hi.
  - intros j. rewrite wr_set_writer. case_bool_decide as E.
    + split; [|done]. by apply is_seg_store_tail.
    + destruct (H10 j). split; [by eapply is_seg_agree; eauto|done].
  - intros j e'. rewrite wr_set_writer. case_bool_decide as E.
    + intros [= <-]. exists t. by rewrite lookup_insert_eq.
    + intros Hl. destruct (H11 j e' Hl) as (t' & Ht' & He). exists t'. split; [done|].
      rewrite (Hwo j E); [|done]. by eapply last_Some_elem_of.
  - intros j. rewrite wr_set_writer. case_bool_decide as E; [|apply H12].
    intros _. pose proof (H12 i) as Hn. rewrite Hi in Hn. by apply Hn.
Qed.

(** The compare-and-swap that publishes a segment. *)
Lemma shape_publish s i w own ls lr lc :
  shape s own ls lr lc → wlink (wr s i) = Some (stack s) → wseg w = [] → wlink w = None →
  pushing w = false →
  shape (set_writer i w (set_stack (head (wseg (wr s i))) s))
    (own_set (wseg (wr s i)) O_stack own) (wseg (wr s i) ++ ls) lr lc.
Proof.
  intros Hs Hl Hw Hwl Hp. set (seg := wseg (wr s i)) in *.
  assert (∀ b, own b ≠ O_writer i → own_set seg O_stack own b = own b) as Hout.
  { intros b Hb. apply own_set_out. intros Hb'. by apply Hb, (sh_wr _ _ _ _ _ Hs). }
  destruct Hs as [H1 H2 H3 H4 H5 H6 H7 H8 H9 H10 H11 H12].
  destruct (H11 i _ Hl) as (t & Ht & He). destruct (H10 i) as [Hseg Hnd]. fold seg in Ht, Hseg, Hnd.
  split; cbn [heap stack cache clients reader set_writer set_stack]; try done.
  - by eapply is_seg_join.
  - destruct H4 as (? & ? & ?). split_and!; [|done..]. apply NoDup_app. split_and!; [done| |done].
    intros a Ha Ha'. apply H5 in Ha'. rewrite (H8 i a Ha) in Ha'. done.
  - intros a [Ha|Ha]%elem_of_app; [by apply own_set_in|].
    rewrite Hout; [rewrite H5|]; [done| |]; by rewrite ?H5.
  - intros a Ha. rewrite Hout; by rewrite H6.
  - intros a Ha. rewrite Hout; by rewrite H7.
  - intros j a. rewrite wr_set_writer. case_bool_decide as E; [by rewrite Hw; intros ?%elem_of_nil|].
    intros Ha. rewrite Hout; rewrite (H8 j a Ha); congruence.
  - intros a Ha. rewrite Hout; by rewrite H9.
  - intros j. rewrite wr_set_writer. case_bool_decide as E; [|apply H10].
    rewrite Hw. split; [done|constructor].
  - intros j e. rewrite wr_set_writer. case_bool_decide as E; [congruence|]. apply H11.
  - intros j. rewrite wr_set_writer. case_bool_decide as E; [congruence|]. apply H12.
Qed.

(** The compare-and-swap with which the reader takes the whole stack. *)
Lemma shape_grab s m e own ls lr lc :
  shape s own ls lr lc → stack s = Some e → rev_ptr (reader s) = None →
  shape (set_reader (R_rev m (Some e)) (set_stack None s)) (own_set ls O_rev own) [] ls lc.
Proof.
  intros Hs He Hr.
  assert (∀ b, own b ≠ O_stack → own_set ls O_rev own b = own b) as Hout.
  { intros b Hb. apply own_set_out. intros Hb'. by apply Hb, (sh_ls _ _ _ _ _ Hs). }
  destruct Hs as [H1 H2 H3 H4 H5 H6 H7 H8 H9 H10 H11 H12].
  split; cbn [heap stack cache clients reader rev_ptr set_reader set_stack]; try done.
  - by rewrite -He.
  - destruct H4 as (? & ? & ?). split_and!; [constructor|done..].
  - intros a Ha. by apply elem_of_nil in Ha.
  - intros a Ha. by apply own_set_in.
  - intros a Ha. rewrite Hout; by rewrite H7.
  - intros i a Ha. rewrite Hout; by rewrite (H8 i a Ha).
  - intros a Ha. rewrite Hout; by rewrite H9.
Qed.

(** One round of the reversal loop. *)
Lemma shape_reverse s m e n own ls lr lc :
  shape s own ls (e :: lr) lc → reader s = R_rev m (Some e) → heap s !! e = Some n →
  shape (set_reader (R_rev m n) (set_cache (Some e) (set_heap (<[e := cache s]> (heap s)) s)))
    (own_set [e] O_cache own) ls lr (e :: lc).
Proof.
  intros Hs He Hn. pose proof (sh_lr _ _ _ _ _ Hs e ltac:(by left)) as Hoe.
  assert (∀ b, own b ≠ O_rev → own_set [e] O_cache own b = own b) as Hout.
  { intros b Hb. apply own_set_out. intros ->%list_elem_of_singleton. done. }
  assert (∀ l, (∀ b, b ∈ l → own b ≠ O_rev) →
            agree (heap s) (<[e := cache s]> (heap s)) l) as Hag.
  { intros l Hl. apply agree_insert. intros Hb. by apply (Hl e Hb). }
  destruct Hs as [H1 H2 H3 H4 H5 H6 H7 H8 H9 H10 H11 H12].
  destruct H4 as (Hn1 & Hn2 & Hn3). apply NoDup_cons in Hn2 as [Hn2 Hn2'].
  destruct H2 as [_ (n' & Hn' & Hlr)]. rewrite Hn in Hn'. injection Hn' as <-.
  assert (agree (heap s) (<[e := cache s]> (heap s)) lc) as Alc.
  { apply Hag. intros b Hb. by rewrite H7. }
  split; cbn [heap stack cache clients reader rev_ptr set_reader set_cache set_heap]; try done.
  - eapply is_list_agree; [|done]. apply Hag. intros b Hb. by rewrite H5.
  - eapply is_list_agree; [|done]. by apply agree_insert.
  - split; [done|]. exists (cache s). rewrite lookup_insert_eq. split; [done|].
    by eapply is_list_agree.
  - split_and!; [done..|]. apply NoDup_cons. split; [|done]. intros Hin.
    apply H7 in Hin. by rewrite Hoe in Hin.
  - intros a Ha. rewrite Hout; by rewrite H5.
  - intros a Ha. rewrite own_set_out; [by intros ->%list_elem_of_singleton|]. apply H6. by right.
  - intros a [->|Ha]%elem_of_cons; [apply own_set_in; by left|]. rewrite Hout; by rewrite H7.
  - intros i a Ha. rewrite Hout; by rewrite (H8 i a Ha).
  - intros a Ha. rewrite Hout; by rewrite H9.
  - intros i. destruct (H10 i). split; [|done]. eapply is_seg_agree; [|done]. apply Hag.
    intros b Hb. by rewrite (H8 i b Hb).
  - intros i e' Hl. destruct (H11 i e' Hl) as (t & Ht & Hte). exists t. split; [done|].
    rewrite lookup_insert_ne; [|done]. intros <-. apply last_Some_elem_of in Ht.
    rewrite (H8 i e Ht) in Hoe. done.
Qed.

(** Taking the head of the cache. *)
Lemma shape_pop s r n own ls lr lc :
  shape s own ls lr (r :: lc) → heap s !! r = Some n → rev_ptr (reader s) = None →
  shape (set_reader R_idle (set_cache n (set_clients ({[r]} ∪ clients s) s)))
    (own_set [r] O_client own) ls lr lc.
Proof.
  intros Hs Hn Hr. pose proof (sh_lc _ _ _ _ _ Hs r ltac:(by left)) as Hor.
  assert (∀ b, own b ≠ O_cache → own_set [r] O_client own b = own b) as Hout.
  { intros b Hb. apply own_set_out. intros ->%list_elem_of_singleton. done. }
  destruct Hs as [H1 H2 H3 H4 H5 H6 H7 H8 H9 H10 H11 H12].
  destruct H4 as (Hn1 & Hn2 & Hn3). apply NoDup_cons in Hn3 as [Hn3 Hn3'].
  destruct H3 as [_ (n' & Hn' & Hlc)]. rewrite Hn in Hn'. injection Hn' as <-.
  split; cbn [heap stack cache clients reader rev_ptr set_reader set_cache set_clients]; try done.
  - by rewrite Hr in H2.
  - intros a Ha. rewrite Hout; by rewrite H5.
  - intros a Ha. rewrite Hout; by rewrite H6.
  - intros a Ha. rewrite own_set_out; [by intros ->%list_elem_of_singleton|]. apply H7. by right.
  - intros i a Ha. rewrite Hout; by rewrite (H8 i a Ha).
  - intros a [->%elem_of_singleton|Ha]%elem_of_union; [apply own_set_in; by left|].
    rewrite Hout; by rewrite H9.
Qed.

(** ** Preservation of the invariant *)

Lemma contents_publish seg ls lr lc :
  contents (seg ++ ls) lr lc = contents ls lr lc ++ reverse seg.
Proof. by rewrite /contents reverse_app -!app_assoc. Qed.

Lemma contents_reverse e ls lr lc : contents ls lr (e :: lc) = contents ls (e :: lr) lc.
Proof. by rewrite /contents reverse_cons -!app_assoc. Qed.

Lemma mutex_ok_writer s i w :
  mutex_ok s → holds w = holds (wr s i) → mutex_ok (set_writer i w s).
Proof.
  intros [Hr Hw] Hh. split; [done|]. intros j. rewrite wr_set_writer.
  case_bool_decide; [subst; rewrite Hh|]; apply Hw.
Qed.

Lemma mutex_ok_acquire s i w :
  mutex_ok s → mtx s = None → holds w = true →
  mutex_ok (set_writer i w (set_mtx (Some (H_writer i)) s)).
Proof.
  intros [Hr Hw] Hm Hh. split.
  - intros m Hl. apply Hr in Hl. congruence.
  - intros j. rewrite wr_set_writer. cbn [mtx set_writer set_mtx]. case_bool_decide as E.
    + subst. by rewrite Hh.
    + split; [|intros; simplify_eq]. intros Hj. apply Hw in Hj. congruence.
Qed.

Lemma mutex_ok_release s i w :
  mutex_ok s → holds (wr s i) = true → holds w = false →
  mutex_ok (set_writer i w (set_mtx None s)).
Proof.
  intros [Hr Hw] Hi Hh. apply Hw in Hi as Hm. split.
  - intros m Hl. apply Hr in Hl. congruence.
  - intros j. rewrite wr_set_writer. cbn [mtx set_writer set_mtx]. case_bool_decide as E.
    + by rewrite Hh.
    + split; [|done]. intros Hj. apply Hw in Hj. congruence.
Qed.

Lemma mutex_ok_reader s r :
  mutex_ok s → (∀ m, r ≠ R_loop m) → mutex_ok (set_reader r s).
Proof. intros [Hr Hw] Hn. split; [|done]. intros m Hm. by apply Hn in Hm. Qed.

Lemma mutex_ok_reader_acquire s m :
  mutex_ok s → mtx s = None → mutex_ok (set_reader (R_loop m) (set_mtx (Some H_reader) s)).
Proof.
  intros [Hr Hw] Hm. split; [done|]. intros i. split; [|done].
  intros Hi. apply Hw in Hi. congruence.
Qed.

Lemma mutex_ok_reader_release s r :
  mutex_ok s → mtx s = Some H_reader → (∀ m, r ≠ R_loop m) →
  mutex_ok (set_reader r (set_mtx None s)).
Proof.
  intros [Hr Hw] Hm Hn. split; [intros m E; by apply Hn in E|]. intros i. split; [|done].
  intros Hi. apply Hw in Hi. congruence.
Qed.

Lemma reader_ok_stack s w i p lr lc :
  reader_ok s lr lc → p ≠ None → reader_ok (set_writer i w (set_stack p s)) lr lc.
Proof.
  rewrite /reader_ok. cbn [reader stack cache set_writer set_stack].
  destruct (reader s) as [| | | | |[]| | |]; naive_solver.
Qed.

Lemma head_ne (seg : list loc) : seg ≠ [] → head seg ≠ None.
Proof. by destruct seg. Qed.

(** Publishing keeps the invariant and appends the segment. *)
Lemma Inv_publish c s i w :
  Inv c s → wlink (wr s i) = Some (stack s) → wseg w = [] → wlink w = None →
  pushing w = false → pushing (wr s i) = true → holds w = holds (wr s i) →
  Inv (c ++ reverse (wseg (wr s i))) (set_writer i w (set_stack (head (wseg (wr s i))) s)).
Proof.
  intros (own & ls & lr & lc & Hs & Hr & Hm & ->) Hl Hw Hwl Hp Hpi Hh.
  eexists _, _, lr, lc. split; [by apply shape_publish|]. split_and!.
  - apply reader_ok_stack; [done|]. apply head_ne. by apply (sh_ne _ _ _ _ _ Hs).
  - by apply (mutex_ok_writer (set_stack _ s)).
  - by rewrite contents_publish.
Qed.

Lemma Inv_writer_pc c s i w :
  Inv c s → wseg w = wseg (wr s i) → wlink w = wlink (wr s i) ∨ wlink w = None →
  (pushing w = true → wseg w ≠ []) → holds w = holds (wr s i) → Inv c (set_writer i w s).
Proof.
  intros (own & ls & lr & lc & Hs & Hr & Hm & ->) Hw Hwl Hp Hh.
  exists own, ls, lr, lc. split; [by apply shape_writer|]. split_and!; [done| |done].
  by apply mutex_ok_writer.
Qed.

(** What every step guarantees. *)
Definition step_ok_for (c : list loc) (s' : state) (ev : list event) : Prop :=
  ∃ c', Inv c' s' ∧ c ++ pushed ev = popped ev ++ c' ∧ Forall (event_ok c) ev.

Lemma step_silent c s' : Inv c s' → step_ok_for c s' [].
Proof. intros H. exists c. split; [done|]. split; [by rewrite app_nil_r|constructor]. Qed.

Lemma step_push c seg s' : Inv (c ++ reverse seg) s' → step_ok_for c s' [E_push seg].
Proof.
  intros H. eexists. split; [done|]. split; [by rewrite /pushed /popped /= app_nil_r|].
  by constructor.
Qed.

Lemma start_push_ok c i sg seg s s' ev :
  Inv c s → start_push i sg seg s = Some (s', ev) → step_ok_for c s' ev.
Proof.
  intros (own & ls & lr & lc & Hs & Hr & Hm & ->). rewrite /start_push.
  destruct (wr s i) eqn:Hi; try done. case_bool_decide as Hc; [|done].
  destruct Hc as (Hne & Hnd & Hsub). intros [= <- <-]. apply step_silent.
  eexists _, ls, lr, lc. split; [by apply shape_start|]. split_and!; [done| |done].
  apply (mutex_ok_writer (set_heap _ (set_clients _ s))); [done|].
  by rewrite /wr /= -/(wr s i) Hi.
Qed.

Lemma writer_step_ok c i s s' ev :
  Inv c s → writer_step i s = Some (s', ev) → step_ok_for c s' ev.
Proof.
  intros Hinv. pose proof Hinv as (own & ls & lr & lc & Hs & Hr & Hm & Hc).
  pose proof (sh_ne _ _ _ _ _ Hs i) as Hne. rewrite /writer_step.
  destruct (wr s i) as [|sg seg|sg seg e|sg seg e|seg| |retry] eqn:Hi; [done|..].
  - intros [= <- <-]. apply step_silent, Inv_writer_pc; rewrite ?Hi; auto.
  - destruct (last seg) as [t|] eqn:Ht; [|done]. intros [= <- <-]. apply step_silent.
    exists own, ls, lr, lc. split; [by apply shape_store|]. split_and!; [done| |done].
    apply (mutex_ok_writer (set_heap _ s)); [done|]. by rewrite /wr /= -/(wr s i) Hi.
  - destruct (sg && bool_decide (e = None)) eqn:Hsg.
    + apply andb_prop in Hsg as [-> ->%bool_decide_eq_true]. destruct (mtx s) eqn:Hmt; [done|].
      intros [= <- <-]. apply step_silent. exists own, ls, lr, lc.
      split; [apply (shape_writer (set_mtx _ s)); [by apply shape_mtx|..];
              rewrite /wr /= -/(wr s i) ?Hi; auto|].
      split_and!; [done|by apply mutex_ok_acquire|done].
    + clear Hsg; case_bool_decide as Hst.
      * intros [= <- <-]. apply step_push.
        pose proof (Inv_publish c s i W_idle Hinv) as Hp. rewrite Hi in Hp.
        apply Hp; simpl; congruence.
      * intros [= <- <-]. apply step_silent, Inv_writer_pc; rewrite ?Hi; auto.
  - case_bool_decide as Hst.
    + intros [= <- <-]. apply step_push.
      pose proof (Inv_publish c s i W_notify Hinv) as Hp. rewrite Hi in Hp.
      apply Hp; simpl; congruence.
    + intros [= <- <-]. apply step_silent, Inv_writer_pc; rewrite ?Hi; auto.
  - intros [= <- <-]. apply step_silent, Inv_writer_pc; auto.
    + exists own, ls, lr, lc. destruct (reader s) eqn:Hrd; try done.
      split; [apply shape_reader; [done|by rewrite Hrd]|]. split_and!; [done| |done].
      by apply mutex_ok_reader.
    + by destruct (reader s); rewrite /wr /= -/(wr s i) Hi.
    + by destruct (reader s); rewrite /wr /= -/(wr s i) Hi.
  - intros [= <- <-]. apply step_silent. exists own, ls, lr, lc. split_and!; [|done| |done].
    + apply (shape_writer (set_mtx _ s)); [by apply shape_mtx|..]; rewrite /wr /= -/(wr s i) ?Hi;
        destruct retry; auto.
    + apply mutex_ok_release; [done|by rewrite Hi|by destruct retry].
Qed.

(** A reader step that changes its program counter only. *)
Lemma Inv_reader_pc c s r own ls lr lc :
  shape s own ls lr lc → mutex_ok s → c = contents ls lr lc →
  rev_ptr r = rev_ptr (reader s) → (∀ m, r ≠ R_loop m) →
  reader_ok (set_reader r s) lr lc → Inv c (set_reader r s).
Proof.
  intros Hs Hm -> Hr Hl Hok. exists own, ls, lr, lc.
  split; [by apply shape_reader|]. split_and!; [done|by apply mutex_ok_reader|done].
Qed.

Lemma start_read_ok c m s s' ev :
  Inv c s → start_read m s = Some (s', ev) → step_ok_for c s' ev.
Proof.
  intros (own & ls & lr & lc & Hs & Hr & Hm & ->). rewrite /start_read.
  destruct (reader s) eqn:Hrd; try done. intros [= <- <-]. apply step_silent.
  eapply Inv_reader_pc; [done..| | |]; rewrite ?Hrd; by destruct m.
Qed.

Lemma return_null_ok c m s s' ev :
  Inv c s → rev_ptr (reader s) = None → m ≠ M_pop →
  (m = M_try_pop ∨ m = M_front → c = []) →
  return_null m s = Some (s', ev) → step_ok_for c s' ev.
Proof.
  intros (own & ls & lr & lc & Hs & Hr & Hm & ->) Hrev Hnp He [= <- <-].
  exists (contents ls lr lc). split; [by eapply Inv_reader_pc|].
  split; [destruct m; by rewrite app_nil_r|]. constructor; [|constructor].
  destruct m; simpl; try done; [by apply He; left|]. rewrite He; [by right|done].
Qed.

Lemma contents_empty s own ls lr lc :
  shape s own ls lr lc → stack s = None → cache s = None → rev_ptr (reader s) = None →
  contents ls lr lc = [].
Proof.
  intros [H1 H2 H3 _ _ _ _ _ _ _ _ _] Hs Hc Hr. rewrite Hs in H1. rewrite Hc in H3. rewrite Hr in H2.
  by rewrite (is_list_none _ _ H1) (is_list_none _ _ H2) (is_list_none _ _ H3).
Qed.

Lemma reader_head_ok c m s s' ev :
  Inv c s → reader s = R_head m → reader_step s = Some (s', ev) → step_ok_for c s' ev.
Proof.
  intros (own & ls & lr & lc & Hs & Hr & Hm & ->) Hrd. rewrite /reader_step Hrd.
  rewrite /reader_ok Hrd in Hr. pose proof (sh_rev _ _ _ _ _ Hs) as Hlr. rewrite Hrd in Hlr.
  simpl in Hlr. apply is_list_none in Hlr as ->.
  destruct (cache s) as [r|] eqn:Hc; [|done].
  pose proof (sh_cache _ _ _ _ _ Hs) as Hlc. rewrite Hc in Hlc.
  destruct lc as [|r' lc]; [done|]. destruct Hlc as [[= <-] (n & Hn & Hlc)]. rewrite Hn.
  assert (step_ok_for (contents ls [] (r :: lc))
    (set_reader R_idle (set_cache n (set_clients ({[r]} ∪ clients s) s))) [E_pop m (Some r)]) as Hpop.
  { exists (contents ls [] lc). split_and!; [|by rewrite app_nil_r|].
    - eexists _, ls, [], lc. split; [by apply shape_pop; rewrite ?Hrd|].
      split_and!; [done| |done]. by apply (mutex_ok_reader (set_cache _ _)).
    - constructor; [by destruct m|constructor]. }
  destruct m; intros [= <- <-]; [exact Hpop..|].
  exists (contents ls [] (r :: lc)). split_and!; [|by rewrite app_nil_r|by constructor].
  eapply Inv_reader_pc; [done..|by rewrite Hrd|done|done].
Qed.

Lemma reader_rev_ok c m e s s' ev :
  Inv c s → reader s = R_rev m e → reader_step s = Some (s', ev) → step_ok_for c s' ev.
Proof.
  intros (own & ls & lr & lc & Hs & Hr & Hm & ->) Hrd. rewrite /reader_step Hrd.
  rewrite /reader_ok Hrd in Hr. pose proof (sh_rev _ _ _ _ _ Hs) as Hlr. rewrite Hrd in Hlr.
  simpl in Hlr. destruct e as [e|].
  - destruct lr as [|e' lr]; [done|]. destruct Hlr as [[= <-] (n & Hn & Hlr)]. rewrite Hn.
    intros [= <- <-]. apply step_silent. rewrite -contents_reverse.
    eexists _, ls, lr, (e :: lc). split; [by eapply shape_reverse|]. split_and!; [|..|done].
    + rewrite /reader_ok /=. intros [_ ?]%app_eq_nil. done.
    + by apply (mutex_ok_reader (set_cache _ _)).
  - apply is_list_none in Hlr as ->. intros [= <- <-]. apply step_silent.
    eapply Inv_reader_pc; [done..|by rewrite Hrd|done|].
    rewrite /reader_ok /=. intros Hc. pose proof (sh_cache _ _ _ _ _ Hs) as Hlc.
    rewrite Hc in Hlc. by apply is_list_none in Hlc as ->.
Qed.

Lemma reader_step_ok c s s' ev :
  Inv c s → reader_step s = Some (s', ev) → step_ok_for c s' ev.
Proof.
  intros Hinv. pose proof Hinv as (own & ls & lr & lc & Hs & Hr & Hm & ->).
  destruct (reader s) as [|m|m|m|m|m|m e|m e|m] eqn:Hrd.
  8: by eapply reader_rev_ok. 8: by eapply reader_head_ok.
  all: rewrite /reader_step Hrd; rewrite /reader_ok Hrd in Hr.
  - done.
  - case_bool_decide as Hc; intros [= <- <-]; apply step_silent;
      (eapply Inv_reader_pc; [done..|by rewrite Hrd|done|]); [done|].
    rewrite /reader_ok /=. destruct m; try done. apply not_and_l in Hc. naive_solver.
  - destruct (mtx s) eqn:Hmt; [done|]. intros [= <- <-]. apply step_silent.
    exists own, ls, lr, lc. split; [apply (shape_reader (set_mtx _ s)); [by apply shape_mtx|]|].
    { by rewrite Hrd. } split_and!; [done|by apply mutex_ok_reader_acquire|done].
  - pose proof (proj1 Hm m Hrd) as Hmt.
    case_bool_decide as Hst; intros [= <- <-]; apply step_silent; exists own, ls, lr, lc;
      (split; [apply (shape_reader (set_mtx _ s)); [by apply shape_mtx|by rewrite /= Hrd]|]);
      split_and!; try done; try by apply mutex_ok_reader_release.
    rewrite /reader_ok /=. destruct m; auto.
  - done.
  - destruct (cache s) as [r|] eqn:Hc.
    + intros [= <- <-]. apply step_silent. eapply Inv_reader_pc; [done..|by rewrite Hrd|done|].
      by rewrite /reader_ok /= Hc.
    + destruct (stack s) as [e|] eqn:Hst.
      * intros [= <- <-]. apply step_silent. eapply Inv_reader_pc; [done..|by rewrite Hrd|done|].
        by rewrite /reader_ok /= Hst.
      * apply return_null_ok; [done|by rewrite Hrd| |].
        -- intros ->. naive_solver.
        -- intros _. eapply contents_empty; [done..|by rewrite Hrd].
  - destruct Hr as [Hc Hst]. pose proof (sh_rev _ _ _ _ _ Hs) as Hlr. rewrite Hrd in Hlr.
    simpl in Hlr. apply is_list_none in Hlr as ->.
    pose proof (sh_cache _ _ _ _ _ Hs) as Hlc. rewrite Hc in Hlc. apply is_list_none in Hlc as ->.
    case_bool_decide as He.
    + intros [= <- <-]. apply step_silent. eexists _, [], ls, [].
      split; [apply shape_grab with (lr := []); [done..|by rewrite Hrd]|]. split_and!.
      * rewrite /reader_ok /=. rewrite app_nil_r. eapply is_list_ne; [apply (sh_stack _ _ _ _ _ Hs)|done].
      * by apply (mutex_ok_reader (set_stack _ s)).
      * by rewrite /contents /= app_nil_r.
    + destruct (stack s) as [e'|] eqn:Hs'; [|done]. intros [= <- <-]. apply step_silent.
      eapply Inv_reader_pc; [done..|by rewrite Hrd|done|]. by rewrite /reader_ok /= Hs'.
Qed.

Lemma exec_ok c a s s' ev : Inv c s → exec a s = Some (s', ev) → step_ok_for c s' ev.
Proof.
  intros Hinv. destruct a as [i sg seg|i|m| | |]; simpl.
  - by apply start_push_ok.
  - by apply writer_step_ok.
  - by apply start_read_ok.
  - by apply reader_step_ok.
  - rewrite /spurious_wakeup. destruct (reader s) eqn:Hrd; try done. intros [= <- <-].
    destruct Hinv as (own & ls & lr & lc & Hs & Hr & Hm & ->). apply step_silent.
    eapply Inv_reader_pc; [done..|by rewrite Hrd|done|done].
  - rewrite /timeout. destruct (reader s) as [| | | |[]| | | |] eqn:Hrd; try done.
    destruct (mtx s); [done|]. apply return_null_ok; [done|by rewrite Hrd|done|naive_solver].
Qed.

(** ** Executions *)

Lemma wr_init els i : wr (init els) i = W_idle.
Proof. by rewrite /wr /= lookup_empty. Qed.

Lemma Inv_init els : Inv [] (init els).
Proof.
  exists (λ _, O_client), [], [], []. split_and!; [|done| |done].
  - split; try done.
    all: try by split_and!; constructor.
    all: intros i; rewrite ?wr_init; try (by intros ? ?%elem_of_nil); try (by intros ?%elem_of_nil); try done.
    split; [done|constructor].
  - split; [done|]. intros i. by rewrite wr_init.
Qed.

Lemma pushed_app e1 e2 : pushed (e1 ++ e2) = pushed e1 ++ pushed e2.
Proof. by rewrite /pushed bind_app. Qed.
Lemma popped_app e1 e2 : popped (e1 ++ e2) = popped e1 ++ popped e2.
Proof. by rewrite /popped bind_app. Qed.

Lemma run_acts_app a1 a2 s :
  run (a1 ++ a2) s =
  match run a1 s with
  | Some (s', e1) =>
      match run a2 s' with Some (s'', e2) => Some (s'', e1 ++ e2) | None => None end
  | None => None
  end.
Proof.
  revert s. induction a1 as [|a a1 IH]; intros s; simpl.
  - by destruct (run a2 s) as [[]|].
  - destruct (exec a s) as [[s1 ev]|]; [|done]. rewrite IH.
    destruct (run a1 s1) as [[s2 e1]|]; [|done].
    destruct (run a2 s2) as [[s3 e2]|]; [|done]. by rewrite app_assoc.
Qed.

Lemma run_silent a acts s s' : exec a s = Some (s', []) → run (a :: acts) s = run acts s'.
Proof. intros H. cbn [run]. rewrite H. by destruct (run acts s') as [[]|]. Qed.

(** An execution from a state whose queue holds [c]. *)
Lemma run_ok acts c s s' evs :
  Inv c s → run acts s = Some (s', evs) → ∃ c', Inv c' s' ∧ c ++ pushed evs = popped evs ++ c'.
Proof.
  revert c s evs. induction acts as [|a acts IH]; intros c s evs Hinv; simpl.
  - intros [= <- <-]. exists c. by rewrite app_nil_r.
  - destruct (exec a s) as [[s1 ev]|] eqn:Ha; [|done].
    destruct (run acts s1) as [[s2 evs']|] eqn:Hr; [|done]. intros [= <- <-].
    destruct (exec_ok c a s s1 ev Hinv Ha) as (c1 & Hinv1 & Hc1 & _).
    destruct (IH c1 s1 evs' Hinv1 Hr) as (c2 & Hinv2 & Hc2). exists c2. split; [done|].
    rewrite pushed_app popped_app app_assoc Hc1 -!app_assoc. by rewrite Hc2.
Qed.

(** A step shows at most one event. *)
Lemma exec_events a s s' ev : exec a s = Some (s', ev) → (length ev <= 1)%nat.
Proof.
  destruct a; simpl; rewrite /start_push /writer_step /start_read /reader_step /spurious_wakeup
    /timeout /return_null /silent; intros H; repeat case_match; simplify_eq/=; lia.
Qed.

(** Every event of an execution is in order with what happened before it. *)
Lemma run_events acts c s s' evs :
  Inv c s → run acts s = Some (s', evs) →
  ∀ e1 e e2, evs = e1 ++ e :: e2 →
  ∃ c', event_ok c' e ∧ c ++ pushed e1 = popped e1 ++ c'.
Proof.
  revert c s evs. induction acts as [|a acts IH]; intros c s evs Hinv; simpl.
  { intros [= <- <-] e1 e e2 H. by destruct e1. }
  destruct (exec a s) as [[s1 ev]|] eqn:Ha; [|done].
  destruct (run acts s1) as [[s2 evs']|] eqn:Hr; [|done]. intros [= <- <-] e1 e e2.
  destruct (exec_ok c a s s1 ev Hinv Ha) as (c1 & Hinv1 & Hc1 & Hev).
  pose proof (exec_events _ _ _ _ Ha) as Hlen.
  destruct ev as [|x [|]]; simpl in Hlen; [| |lia]; simpl; intros He.
  - destruct (IH c1 s1 evs' Hinv1 Hr e1 e e2 He) as (c' & Hok & Hc'). exists c'. split; [done|].
    rewrite -Hc'. f_equal. by rewrite /pushed /popped /= app_nil_r in Hc1.
  - destruct e1 as [|y e1]; simpl in He; injection He as <- He.
    + exists c. split; [by apply (Forall_inv Hev)|]. by rewrite app_nil_r.
    + destruct (IH c1 s1 evs' Hinv1 Hr e1 e e2 He) as (c' & Hok & Hc'). exists c'. split; [done|].
      change (x :: e1) with ([x] ++ e1).
      rewrite pushed_app popped_app app_assoc Hc1 -!app_assoc. by rewrite Hc'.
Qed.

(** ** Wake-ups *)

Definition wake_inv (s : state) : Prop := wakeup_ok s ∧ signaling_ok s.

Lemma signaling_ok_writer s i w :
  signaling_ok s →
  match w with W_read sg _ | W_loaded sg _ _ | W_linked sg _ _ => sg = true | _ => True end →
  signaling_ok (set_writer i w s).
Proof. intros Hs Hw j. rewrite wr_set_writer. case_bool_decide; [done|apply Hs]. Qed.

(** A writer that is not at its notification step moves on; the stack does
    not change. *)
Lemma wakeup_ok_writer s i w : wakeup_ok s → wr s i ≠ W_notify → wakeup_ok (set_writer i w s).
Proof.
  intros Hw Hi m Hm. destruct (Hw m Hm) as [?|[j Hj]]; [by left|].
  right. exists j. rewrite wr_set_writer bool_decide_false; [congruence|done].
Qed.

Lemma wakeup_ok_reader s r : (∀ m, r ≠ R_asleep m) → wakeup_ok (set_reader r s).
Proof. intros Hr m Hm. by apply Hr in Hm. Qed.

Lemma wake_inv_writer i s s' ev : wake_inv s → writer_step i s = Some (s', ev) → wake_inv s'.
Proof.
  intros [Hw Hs]. rewrite /writer_step. pose proof (Hs i) as Hi.
  destruct (wr s i) as [|sg seg|sg seg e|sg seg e|seg| |retry] eqn:Hwr; [done|..];
    try (assert (wr s i ≠ W_notify) as Hnn by congruence).
  - intros [= <- <-]. split; [by apply wakeup_ok_writer|by apply signaling_ok_writer].
  - destruct (last seg); [|done]. intros [= <- <-].
    split; [by apply (wakeup_ok_writer (set_heap _ s))|by apply (signaling_ok_writer (set_heap _ s))].
  - subst sg. simpl. case_bool_decide as He.
    + destruct (mtx s); [done|]. intros [= <- <-].
      split; [by apply (wakeup_ok_writer (set_mtx _ s))|by apply (signaling_ok_writer (set_mtx _ s))].
    + case_bool_decide as Hst; intros [= <- <-].
      * split; [|by apply (signaling_ok_writer (set_stack _ s))].
        intros m Hm. destruct (Hw m Hm) as [?|[j Hj]]; [congruence|]. right. exists j.
        rewrite (wr_set_writer i _ (set_stack _ s)) bool_decide_false; [congruence|done].
      * split; [by apply wakeup_ok_writer|by apply signaling_ok_writer].
  - case_bool_decide as Hst; intros [= <- <-].
    + split; [|by apply (signaling_ok_writer (set_stack _ s))].
      intros m Hm. right. exists i. by rewrite (wr_set_writer i _ (set_stack _ s)) bool_decide_true.
    + split; [by apply wakeup_ok_writer|by apply signaling_ok_writer].
  - intros [= <- <-]. split.
    + intros m Hm. exfalso. revert Hm. cbn [reader set_writer]. by destruct (reader s) eqn:Hr; simpl; rewrite ?Hr.
    + apply signaling_ok_writer; [|done]. by destruct (reader s).
  - intros [= <- <-]. split; [by apply (wakeup_ok_writer (set_mtx _ s))|].
    apply (signaling_ok_writer (set_mtx _ s)); [done|by destruct retry].
Qed.

Lemma wake_inv_reader s s' ev : wake_inv s → reader_step s = Some (s', ev) → wake_inv s'.
Proof.
  intros [Hw Hs] H.
  assert ((∀ i, wr s' i = wr s i) ∧ ∀ m, reader s' = R_asleep m → stack s' = None) as [Hwr Hst].
  { rewrite /reader_step /return_null /silent in H. repeat case_match; simplify_eq/=; (split; [done|]);
      intros m' Hm'; try done. all: try (by case_bool_decide; simplify_eq/=). }
  split; [intros m Hm; left; by eapply Hst|]. intros i. rewrite Hwr. apply Hs.
Qed.

(** An action that is not a non-signaling push. *)
Definition signals (a : action) : bool :=
  match a with A_push _ sg _ => sg | _ => true end.

Lemma wake_inv_exec a s s' ev :
  wake_inv s → signals a = true → exec a s = Some (s', ev) → wake_inv s'.
Proof.
  intros Hinv Ha. destruct a as [i sg seg|i|m| | |]; simpl in *.
  - destruct Hinv as [Hw Hs]. rewrite /start_push. destruct (wr s i) eqn:Hi; try done.
    case_bool_decide; [|done]. intros [= <- <-].
    split; [apply (wakeup_ok_writer (set_heap _ _)); [done|]|by apply (signaling_ok_writer (set_heap _ _))].
    rewrite /wr /= -/(wr s i). congruence.
  - by apply wake_inv_writer.
  - destruct Hinv as [Hw Hs]. rewrite /start_read. destruct (reader s); try done. intros [= <- <-].
    split; [|done]. apply wakeup_ok_reader. by destruct m.
  - by apply wake_inv_reader.
  - destruct Hinv as [Hw Hs]. rewrite /spurious_wakeup. destruct (reader s); try done.
    intros [= <- <-]. split; [|done]. by apply wakeup_ok_reader.
  - destruct Hinv as [Hw Hs]. rewrite /timeout. destruct (reader s) as [| | | |[]| | | |]; try done.
    destruct (mtx s); [done|]. intros [= <- <-]. split; [|done]. by apply wakeup_ok_reader.
Qed.

Lemma wake_inv_run acts s s' evs :
  wake_inv s → forallb signals acts = true → run acts s = Some (s', evs) → wake_inv s'.
Proof.
  revert s evs. induction acts as [|a acts IH]; intros s evs Hinv Ha; simpl.
  - by intros [= <- <-].
  - apply andb_prop in Ha as [Ha Has]. destruct (exec a s) as [[s1 ev]|] eqn:He; [|done].
    destruct (run acts s1) as [[s2 evs']|] eqn:Hr; [|done]. intros [= <- <-].
    eapply IH; [|done|done]. by eapply wake_inv_exec.
Qed.

(** ** The reader alone *)

(** The reversal loop ends after one round per element. *)
Lemma run_reverse lr c s m p :
  Inv c s → reader s = R_rev m p → is_list (heap s) p lr →
  ∃ s', run (replicate (length lr) A_reader) s = Some (s', []) ∧ Inv c s' ∧
    reader s' = R_rev m None.
Proof.
  revert s p. induction lr as [|e lr IH]; intros s p Hinv Hr Hl; simpl.
  { simpl in Hl. subst p. by exists s. }
  destruct Hl as [-> (n & Hn & Hl)].
  destruct (reader_step s) as [[s1 ev]|] eqn:Hs; [|by rewrite /reader_step Hr Hn in Hs].
  pose proof Hs as Hs'. rewrite /reader_step Hr Hn in Hs'. injection Hs' as <- <-.
  destruct Hinv as (own & ls & lr0 & lc & Hsh & Hrok & Hm & ->).
  pose proof (sh_rev _ _ _ _ _ Hsh) as Hlr. rewrite Hr in Hlr. simpl in Hlr.
  destruct lr0 as [|e0 lr0]; [done|]. destruct Hlr as [[= <-] (n0 & Hn0 & Hlr)].
  rewrite Hn in Hn0. injection Hn0 as <-. pose proof (sh_nodup _ _ _ _ _ Hsh) as (_ & Hnd & _).
  assert (lr0 = lr) as ->.
  { clear -Hlr Hl. revert n lr0 Hlr Hl. induction lr as [|a lr IH]; intros n [|b l0]; simpl; try naive_solver.
    intros [-> (n1 & H1 & H2)] [[= ->] (n2 & H3 & H4)]. f_equal. eapply IH; [|done]. congruence. }
  set (s1 := set_reader _ _).
  destruct (IH s1 n) as (s' & Hrun & Hinv' & Hr').
  - assert (Inv (contents ls (e :: lr) lc) s) as Hinv by (by exists own, ls, (e :: lr), lc).
    destruct (reader_step_ok _ _ _ _ Hinv Hs) as (c' & Hc' & Heq & _).
    rewrite /pushed /popped /= app_nil_r in Heq. by rewrite Heq.
  - done.
  - subst s1. simpl. eapply is_list_agree; [|done]. apply agree_insert.
    by apply NoDup_cons in Hnd as [? _].
  - exists s'. rewrite Hrun. done.
Qed.

(** From the head step on. *)
Lemma run_head c s :
  Inv c s → reader s = R_head M_try_pop →
  ∃ s', exec A_reader s = Some (s', [E_pop M_try_pop (head c)]).
Proof.
  intros (own & ls & lr & lc & Hs & Hr & Hm & ->) Hrd. rewrite /= /reader_step Hrd.
  rewrite /reader_ok Hrd in Hr. destruct Hs as [_ Hlr Hlc _ _ _ _ _ _ _ _ _].
  rewrite Hrd in Hlr. simpl in Hlr. apply is_list_none in Hlr as ->.
  destruct (cache s) as [r|]; [|done]. destruct lc as [|r' lc]; [done|].
  destruct Hlc as [[= <-] (n & -> & _)]. by eexists.
Qed.

Lemma run_try_pop c s :
  Inv c s → reader s = R_idle →
  ∃ n s', run (A_read M_try_pop :: replicate n A_reader) s = Some (s', [E_pop M_try_pop (head c)]).
Proof.
  intros Hinv Hrd.
  destruct (start_read M_try_pop s) as [[s0 ev]|] eqn:H0; [|by rewrite /start_read Hrd in H0].
  pose proof H0 as H0'. rewrite /start_read Hrd in H0'. injection H0' as <- <-.
  destruct (start_read_ok _ _ _ _ _ Hinv H0) as (c0 & Hinv0 & Hc0 & _).
  rewrite /pushed /popped /= app_nil_r in Hc0. subst c0. clear Hinv H0. set (s0 := set_reader _ s) in *.
  assert (∃ n s', run (replicate n A_reader) s0 = Some (s', [E_pop M_try_pop (head c)])) as (n & s' & Hrun).
  2: { exists n, s'. simpl. rewrite /start_read Hrd. fold s0. by rewrite /silent Hrun. }
  assert (reader s0 = R_take M_try_pop) as Hr0 by done. clearbody s0. clear Hrd s.
  destruct (cache s0) as [r|] eqn:Hc.
  - assert (exec A_reader s0 = Some (set_reader (R_head M_try_pop) s0, [])) as H1
      by (by rewrite /= /reader_step Hr0 Hc).
    destruct (exec_ok _ _ _ _ _ Hinv0 H1) as (c1 & Hinv1 & Hc1 & _).
    rewrite /pushed /popped /= app_nil_r in Hc1. subst c1.
    destruct (run_head c _ Hinv1 eq_refl) as (s2 & H2). exists 2%nat, s2.
    by rewrite /run /replicate H1 H2.
  - destruct (stack s0) as [e|] eqn:Hst.
    2: { exists 1%nat. eexists. simpl. rewrite /reader_step Hr0 Hc Hst /=. f_equal. f_equal.
         destruct Hinv0 as (own & ls & lr & lc & Hs & _ & _ & ->).
         erewrite contents_empty; [done..|by rewrite Hr0]. }
    assert (exec A_reader s0 = Some (set_reader (R_loaded M_try_pop e) s0, [])) as H1
      by (by rewrite /= /reader_step Hr0 Hc Hst).
    destruct (exec_ok _ _ _ _ _ Hinv0 H1) as (c1 & Hinv1 & Hc1 & _).
    rewrite /pushed /popped /= app_nil_r in Hc1. subst c1. set (s1 := set_reader _ s0) in *.
    assert (exec A_reader s1 = Some (set_reader (R_rev M_try_pop (Some e)) (set_stack None s1), [])) as H2
      by (by rewrite /= /reader_step /= Hst bool_decide_true).
    destruct (exec_ok _ _ _ _ _ Hinv1 H2) as (c2 & Hinv2 & Hc2 & _).
    rewrite /pushed /popped /= app_nil_r in Hc2. subst c2. set (s2 := set_reader _ (set_stack _ _)) in *.
    pose proof Hinv2 as (own & ls & lr & lc & Hs & _ & _ & _).
    destruct (run_reverse lr c s2 M_try_pop (Some e) Hinv2 eq_refl (sh_rev _ _ _ _ _ Hs))
      as (s3 & H3 & Hinv3 & Hr3).
    assert (exec A_reader s3 = Some (set_reader (R_head M_try_pop) s3, [])) as H4
      by (by rewrite /= /reader_step Hr3).
    destruct (exec_ok _ _ _ _ _ Hinv3 H4) as (c4 & Hinv4 & Hc4 & _).
    rewrite /pushed /popped /= app_nil_r in Hc4. subst c4.
    destruct (run_head c _ Hinv4 eq_refl) as (s5 & H5).
    exists (2 + (length lr + 2))%nat, s5.
    change (replicate (2 + (length lr + 2)) A_reader) with
      (A_reader :: A_reader :: replicate (length lr + 2) A_reader).
    rewrite (run_silent _ _ _ _ H1) (run_silent _ _ _ _ H2) replicate_add run_acts_app H3.
    change (replicate 2 A_reader) with [A_reader; A_reader].
    rewrite (run_silent _ _ _ _ H4). cbn [run]. by rewrite H5.
Qed.

(** ** Theorems *)

(** C2: for every interleaving of any number of writers and the reader, the
    elements popped so far, followed by the elements still in the queue, are
    exactly the elements pushed so far, in the order of the successful
    compare-and-swaps: nothing is lost, duplicated or reordered.  Between
    two reader operations the remaining elements are the cache followed by
    the reversed stack, both intact linked lists. *)
Theorem queue_fifo (els : gset loc) (acts : list action) (s : state) (evs : list event) :
  run acts (init els) = Some (s, evs) →
  ∃ c, pushed evs = popped evs ++ c ∧
    (reader s = R_idle → ∃ lc ls, is_list (heap s) (cache s) lc ∧ is_list (heap s) (stack s) ls ∧
       c = lc ++ reverse ls).
Proof.
  intros Hrun. destruct (run_ok acts [] _ _ _ (Inv_init els) Hrun) as (c & Hinv & Hc).
  exists c. split; [done|]. intros Hr. destruct Hinv as (own & ls & lr & lc & Hs & _ & _ & ->).
  exists lc, ls. destruct Hs as [H1 H2 H3 _ _ _ _ _ _ _ _ _]. rewrite Hr in H2.
  apply is_list_none in H2 as ->. done.
Qed.

(** Two writers race for the empty queue while the reader polls; the second
    writer has to retry. *)
Definition race : list action :=
  [A_push 0 true [1%positive]; A_push 1 true [3%positive; 2%positive];
   A_writer 0; A_writer 1; A_writer 0; A_writer 1; A_writer 0; A_writer 0; A_writer 0; A_writer 0;
   A_writer 1; A_writer 1; A_writer 1; A_writer 1; A_writer 1; A_writer 1;
   A_read M_pop] ++ replicate 8 A_reader.

Lemma queue_fifo_witness :
  ∃ s evs, run race (init {[1; 2; 3]}%positive) = Some (s, evs) ∧
    popped evs = [1]%positive ∧
    ∃ c, pushed evs = popped evs ++ c ∧ c = [2; 3]%positive.
Proof.
  assert (∃ s evs, run race (init {[1; 2; 3]}%positive) = Some (s, evs) ∧
    popped evs = [1]%positive ∧ pushed evs = [1; 2; 3]%positive) as (s & evs & Hrun & Hp & Hq).
  { eexists _, _. split; [vm_compute; reflexivity|]. split; reflexivity. }
  exists s, evs. split; [exact Hrun|]. split; [exact Hp|].
  destruct (queue_fifo _ _ _ _ Hrun) as (c & Hc & _). exists c. split; [exact Hc|].
  rewrite Hp Hq in Hc. by injection Hc as <-.
Defined.

(** A blocking [pop] never returns NULL, and a [try_pop] returns NULL
    only when, at that moment, everything pushed has been popped. *)
Theorem queue_null_only_when_empty (els : gset loc) (acts : list action) (s : state)
    (evs e1 e2 : list event) (m : mode) :
  run acts (init els) = Some (s, evs) → evs = e1 ++ E_pop m None :: e2 →
  m ≠ M_pop ∧ (m = M_try_pop → pushed e1 = popped e1).
Proof.
  intros Hrun He. destruct (run_events acts [] _ _ _ (Inv_init els) Hrun _ _ _ He) as (c & Hok & Hc).
  simpl in Hc. split; [by intros ->|]. intros ->. simpl in Hok. subst c. by rewrite app_nil_r in Hc.
Qed.

Lemma queue_null_only_when_empty_witness :
  ∃ s, run [A_read M_try_pop; A_reader] (init ∅) = Some (s, [E_pop M_try_pop None]) ∧
    pushed [] = popped [].
Proof.
  eexists. split; [vm_compute; reflexivity|].
  apply (queue_null_only_when_empty ∅ [A_read M_try_pop; A_reader]
           (set_reader R_idle (init ∅)) [E_pop M_try_pop None] [] [] M_try_pop);
    reflexivity.
Defined.

(** C24: no wake-up is lost.  If no writer uses the non-signaling push, then
    whenever the reader sleeps in [wait_for_data] although the queue is not
    empty, some writer holds the mutex and its next step wakes the reader. *)
Theorem queue_no_lost_wakeup (els : gset loc) (acts : list action) (s : state)
    (evs : list event) (m : mode) :
  forallb signals acts = true → run acts (init els) = Some (s, evs) →
  reader s = R_asleep m → stack s ≠ None →
  ∃ i s', mtx s = Some (H_writer i) ∧ writer_step i s = Some (s', []) ∧ reader s' = R_lock m.
Proof.
  intros Ha Hrun Hr Hs. destruct (run_ok acts [] _ _ _ (Inv_init els) Hrun) as (c & Hinv & _).
  assert (wake_inv (init els)) as H0 by (split; [by intros ?|intros i; by rewrite wr_init]).
  destruct (wake_inv_run acts _ _ _ H0 Ha Hrun) as [Hw _].
  destruct (Hw m Hr) as [?|[i Hi]]; [done|]. exists i.
  rewrite /writer_step Hi Hr. eexists. split; [|by split].
  destruct Hinv as (own & ls & lr & lc & _ & _ & [_ Hm] & _). apply Hm. by rewrite Hi.
Qed.

(** The reader goes to sleep on the empty queue and a writer pushes. *)
Definition sleep_then_push : list action :=
  [A_read M_pop; A_reader; A_reader; A_reader; A_push 0 true [1%positive];
   A_writer 0; A_writer 0; A_writer 0; A_writer 0].

Lemma queue_no_lost_wakeup_witness :
  ∃ s evs, run sleep_then_push (init {[1%positive]}) = Some (s, evs) ∧
    ∃ i s', writer_step i s = Some (s', []) ∧ reader s' = R_lock M_pop.
Proof.
  assert (∃ s evs, run sleep_then_push (init {[1%positive]}) = Some (s, evs) ∧
    reader s = R_asleep M_pop ∧ stack s ≠ None) as (s & evs & Hrun & Hr & Hs).
  { eexists _, _. split; [vm_compute; reflexivity|]. split; [reflexivity|discriminate]. }
  exists s, evs. split; [exact Hrun|].
  destruct (queue_no_lost_wakeup {[1%positive]} sleep_then_push s evs M_pop eq_refl Hrun Hr Hs)
    as (i & s' & _ & H1 & H2).
  exists i, s'. split; [exact H1|exact H2].
Defined.

(** C35: from every reachable state between two reader operations, a
    [try_pop] that runs undisturbed terminates and returns exactly the
    oldest element of the queue, or NULL when it is empty. *)
Theorem queue_try_pop_total (els : gset loc) (acts : list action) (s : state) (evs : list event) :
  run acts (init els) = Some (s, evs) → reader s = R_idle →
  ∃ n s' c, pushed evs = popped evs ++ c ∧
    run (A_read M_try_pop :: replicate n A_reader) s = Some (s', [E_pop M_try_pop (head c)]).
Proof.
  intros Hrun Hr. destruct (run_ok acts [] _ _ _ (Inv_init els) Hrun) as (c & Hinv & Hc).
  destruct (run_try_pop c s Hinv Hr) as (n & s' & Hrun'). exists n, s', c. done.
Qed.

Lemma queue_try_pop_total_witness :
  ∃ s evs n s', run (take 16 race) (init {[1; 2; 3]}%positive) = Some (s, evs) ∧
    run (A_read M_try_pop :: replicate n A_reader) s =
      Some (s', [E_pop M_try_pop (Some 1%positive)]).
Proof.
  assert (∃ s evs, run (take 16 race) (init {[1; 2; 3]}%positive) = Some (s, evs) ∧
    reader s = R_idle ∧ pushed evs = [1; 2; 3]%positive ∧ popped evs = []) as (s & evs & Hrun & Hr & Hq & Hp).
  { eexists _, _. split; [vm_compute; reflexivity|]. split_and!; reflexivity. }
  destruct (queue_try_pop_total _ _ _ _ Hrun Hr) as (n & s' & c & Hc & H).
  exists s, evs, n, s'. split; [exact Hrun|]. rewrite Hq Hp in Hc. simpl in Hc. by rewrite -Hc in H.
Defined.
End queue.
