(* ===== verification/RwSpinlock.v ===== *)
(** * The read/write spinlock

    [middleware::rw_spinlock] ([rw_spinlock.cpp]): one signed 32-bit flag
    that counts the readers and is the minimum value while a writer holds
    the lock.  Threads interleave at every load and compare-and-swap of the
    flag.  The theorems: a writer excludes everybody else, the flag never
    overflows, and an uncontended lock is obtained. *)

From S2P Require Import Prelude.

Module spinlock.

Definition min_32 : Z := - 2 ^ 31.

(** Where a thread is.  [None] as loaded value: the next step loads it. *)
Inductive pc :=
  | T_idle
  | T_lock (v : option Z)
  | T_exclusive
  | T_unlock
  | T_lock_shared (v : option Z)
  | T_try_lock_shared (v : Z)
  | T_shared
  | T_unlock_shared (v : option Z).

Record state := {
  m_flag : Z;
  threads : list pc
}.

Definition rw_spinlock (n : nat) : state := {| m_flag := 0; threads := replicate n T_idle |}.

(** A call of one of the member functions. *)
Inductive call :=
  | C_lock | C_unlock | C_try_lock | C_lock_shared | C_unlock_shared | C_try_lock_shared.

Definition goto (i : nat) (p : pc) (s : state) : state :=
  {| m_flag := m_flag s; threads := <[i := p]> (threads s) |}.

(** [atomic_cas(&m_flag, old, new)], then continue at [yes] or [no]. *)
Definition cas (i : nat) (old new : Z) (yes no : pc) (s : state) : state :=
  if m_flag s =? old then {| m_flag := new; threads := <[i := yes]> (threads s) |}
  else goto i no s.

Definition start (i : nat) (c : call) (s : state) : option state :=
  match threads s !! i, c with
  | Some T_idle, C_lock => Some (goto i (T_lock None) s)
  | Some T_idle, C_try_lock => Some (cas i 0 min_32 T_exclusive T_idle s)
  | Some T_exclusive, C_unlock => Some (goto i T_unlock s)
  | Some T_idle, C_lock_shared => Some (goto i (T_lock_shared None) s)
  | Some T_idle, C_try_lock_shared => Some (goto i (T_try_lock_shared (m_flag s)) s)
  | Some T_shared, C_unlock_shared => Some (goto i (T_unlock_shared None) s)
  | _, _ => None
  end.

(** The next step of thread [i] inside a member function. *)
Definition step (i : nat) (s : state) : option state :=
  match threads s !! i with
  | Some (T_lock None) => Some (goto i (T_lock (Some (m_flag s))) s)
  | Some (T_lock (Some v)) =>
      Some (if negb (v =? 0) then goto i (T_lock None) s
            else cas i 0 min_32 T_exclusive (T_lock None) s)
  | Some T_unlock => Some (cas i min_32 0 T_idle T_unlock s)
  | Some (T_lock_shared None) => Some (goto i (T_lock_shared (Some (m_flag s))) s)
  | Some (T_lock_shared (Some v)) =>
      Some (if v <? 0 then goto i (T_lock_shared None) s
            else cas i v (i32 (v + 1)) T_shared (T_lock_shared None) s)
  | Some (T_unlock_shared None) => Some (goto i (T_unlock_shared (Some (m_flag s))) s)
  | Some (T_unlock_shared (Some v)) =>
      Some (cas i v (i32 (v - 1)) T_idle (T_unlock_shared None) s)
  | Some (T_try_lock_shared v) =>
      Some (if 0 <=? v then cas i v (i32 (v + 1)) T_shared T_idle s else goto i T_idle s)
  | _ => None
  end.

Inductive move : state → state → Prop :=
  | move_call i c s s' : start i c s = Some s' → move s s'
  | move_step i s s' : step i s = Some s' → move s s'.

Definition reachable (n : nat) (s : state) : Prop := rtc move (rw_spinlock n) s.

(** ** The invariant *)

(** A thread holds the lock for reading until its decrement succeeded. *)
Definition is_reader (p : pc) : Z :=
  match p with T_shared | T_unlock_shared _ => 1 | _ => 0 end.
Definition is_writer (p : pc) : Z :=
  match p with T_exclusive | T_unlock => 1 | _ => 0 end.

Definition count (f : pc → Z) (l : list pc) : Z := foldr (λ p n, f p + n) 0 l.

Definition readers (s : state) : Z := count is_reader (threads s).
Definition writers (s : state) : Z := count is_writer (threads s).

Definition inv (s : state) : Prop :=
  (m_flag s = min_32 ∧ writers s = 1 ∧ readers s = 0) ∨
  (m_flag s = readers s ∧ writers s = 0).

Lemma count_insert f l i p q :
  l !! i = Some p → count f (<[i := q]> l) = count f l - f p + f q.
Proof.
  revert i. induction l as [|x l IH]; intros [|i]; simpl; try done.
  - intros [= ->]. lia.
  - intros Hi. rewrite (IH i Hi). lia.
Qed.

Lemma count_bounds f l :
  (∀ p, 0 <= f p <= 1) → 0 <= count f l <= Z.of_nat (length l).
Proof. intros Hf. induction l as [|x l IH]; simpl; [lia|]. specialize (Hf x). lia. Qed.

Lemma is_reader_bounds p : 0 <= is_reader p <= 1.
Proof. destruct p; simpl; lia. Qed.
Lemma is_writer_bounds p : 0 <= is_writer p <= 1.
Proof. destruct p; simpl; lia. Qed.

Lemma readers_bounds s : 0 <= readers s <= Z.of_nat (length (threads s)).
Proof. apply count_bounds, is_reader_bounds. Qed.
Lemma writers_bounds s : 0 <= writers s <= Z.of_nat (length (threads s)).
Proof. apply count_bounds, is_writer_bounds. Qed.

(** A thread counts. *)
Lemma count_elem f l i p : (∀ p, 0 <= f p <= 1) → l !! i = Some p → f p <= count f l.
Proof.
  intros Hf. revert i. induction l as [|x l IH]; intros [|i]; simpl; try done.
  - intros [= ->]. pose proof (count_bounds f l Hf). lia.
  - intros Hi. specialize (IH i Hi). specialize (Hf x). lia.
Qed.

(** A thread that changes neither count. *)
Lemma inv_goto s i p q :
  inv s → threads s !! i = Some p → is_reader q = is_reader p → is_writer q = is_writer p →
  inv (goto i q s).
Proof.
  intros Hs Hi Hr Hw. rewrite /inv /readers /writers /=. rewrite !(count_insert _ _ _ _ _ Hi).
  rewrite /inv /readers /writers in Hs. lia.
Qed.

(** A successful or failed compare-and-swap. *)
Lemma inv_cas s i p old new yes no :
  inv s → threads s !! i = Some p →
  is_reader no = is_reader p → is_writer no = is_writer p →
  (m_flag s = old → inv {| m_flag := new; threads := <[i := yes]> (threads s) |}) →
  inv (cas i old new yes no s).
Proof.
  intros Hs Hi Hr Hw Hyes. rewrite /cas. destruct (Z.eqb_spec (m_flag s) old); [by apply Hyes|].
  by eapply inv_goto.
Qed.

Lemma inv_update s i p q f :
  threads s !! i = Some p →
  let s' := {| m_flag := f; threads := <[i := q]> (threads s) |} in
  readers s' = readers s - is_reader p + is_reader q ∧
  writers s' = writers s - is_writer p + is_writer q.
Proof. intros Hi s'. split; apply (count_insert _ _ _ _ _ Hi). Qed.

Section bounded.
Context (n : nat) (few : Z.of_nat n < 2 ^ 31).

Definition good (s : state) : Prop := inv s ∧ length (threads s) = n.

Lemma length_cas i old new yes no s :
  length (threads (cas i old new yes no s)) = length (threads s).
Proof. rewrite /cas. destruct (m_flag s =? old); simpl; by rewrite length_insert. Qed.

Lemma length_goto i p s : length (threads (goto i p s)) = length (threads s).
Proof. apply length_insert. Qed.

(** Taking the lock for writing. *)
Lemma inv_take_exclusive s i p no :
  good s → threads s !! i = Some p → is_reader p = 0 → is_writer p = 0 →
  is_reader no = 0 → is_writer no = 0 → inv (cas i 0 min_32 T_exclusive no s).
Proof.
  intros [Hs Hn] Hi Hr Hw Hr' Hw'. eapply inv_cas; [done..|congruence|congruence|]. intros H0.
  destruct (inv_update s i p T_exclusive min_32 Hi) as [Er Ew]. left. rewrite Er Ew.
  pose proof (readers_bounds s). rewrite /inv /min_32 in Hs. simpl. lia.
Qed.

(** Taking it for reading. *)
Lemma inv_take_shared s i p v no :
  good s → threads s !! i = Some p → is_reader p = 0 → is_writer p = 0 →
  is_reader no = 0 → is_writer no = 0 → 0 <= v →
  inv (cas i v (i32 (v + 1)) T_shared no s).
Proof.
  intros [Hs Hn] Hi Hr Hw Hr' Hw' Hv. eapply inv_cas; [done..|congruence|congruence|]. intros H0.
  destruct (inv_update s i p T_shared (i32 (v + 1)) Hi) as [Er Ew]. right. rewrite Er Ew.
  pose proof (count_insert is_reader _ _ _ T_shared Hi) as Hc.
  pose proof (count_bounds is_reader (<[i := T_shared]> (threads s)) is_reader_bounds) as Hb.
  rewrite length_insert in Hb. rewrite /inv /min_32 /readers /writers in Hs |- *. simpl in *.
  rewrite i32_small; lia.
Qed.

Lemma inv_release_shared s i v p :
  good s → threads s !! i = Some p → is_reader p = 1 → is_writer p = 0 →
  inv (cas i v (i32 (v - 1)) T_idle (T_unlock_shared None) s).
Proof.
  intros [Hs Hn] Hi Hr Hw. eapply inv_cas; [done..|by rewrite Hr|by rewrite Hw|]. intros H0.
  destruct (inv_update s i p T_idle (i32 (v - 1)) Hi) as [Er Ew]. right. rewrite Er Ew.
  pose proof (readers_bounds s). pose proof (count_elem is_reader _ _ _ is_reader_bounds Hi).
  rewrite /inv /min_32 /readers /writers in Hs, H, H1 |- *. simpl. rewrite i32_small; lia.
Qed.

Lemma inv_release s i :
  good s → threads s !! i = Some T_unlock →
  inv (cas i min_32 0 T_idle T_unlock s) ∧ m_flag s = min_32.
Proof.
  intros [Hs Hn] Hi. pose proof (readers_bounds s).
  pose proof (count_elem is_writer _ _ _ is_writer_bounds Hi) as Hw. simpl in Hw.
  assert (m_flag s = min_32 ∧ writers s = 1 ∧ readers s = 0) as (Hf & Hw1 & Hr0).
  { rewrite /inv /writers in Hs, Hw |- *. lia. }
  split; [|done]. eapply inv_cas; [done..|]. intros _.
  destruct (inv_update s i T_unlock T_idle 0 Hi) as [Er Ew]. right. rewrite Er Ew /=. lia.
Qed.

Lemma good_move s s' : good s → move s s' → good s'.
Proof.
  intros Hg Hm. pose proof Hg as [Hs Hn]. destruct Hm as [i c s s' H|i s s' H].
  - rewrite /start in H. destruct (threads s !! i) as [p|] eqn:Hi; [|done].
    destruct p, c; simplify_eq; (split; [|by rewrite ?length_cas ?length_goto]);
      try (by eapply inv_goto); by eapply inv_take_exclusive.
  - rewrite /step in H. destruct (threads s !! i) as [p|] eqn:Hi; [|done].
    destruct p as [|[v|]| | |[v|]|v| |[v|]]; simplify_eq;
      (split; [|repeat case_match; by rewrite ?length_cas ?length_goto]).
    + case_match; [by eapply inv_goto|]. by eapply inv_take_exclusive.
    + by eapply inv_goto.
    + by apply inv_release.
    + destruct (Z.ltb_spec v 0); [by eapply inv_goto|]. by eapply inv_take_shared.
    + by eapply inv_goto.
    + destruct (Z.leb_spec 0 v); [by eapply inv_take_shared|by eapply inv_goto].
    + by eapply inv_release_shared.
    + by eapply inv_goto.
Qed.

Lemma count_zero f m : f T_idle = 0 → count f (replicate m T_idle) = 0.
Proof. intros H. induction m; simpl; lia. Qed.

Lemma good_reachable s : reachable n s → good s.
Proof.
  assert (good (rw_spinlock n)) as H0.
  { split; [|apply length_replicate]. right. rewrite /readers /writers /=. by rewrite !count_zero. }
  intros Hr. revert H0. induction Hr as [s|s s1 s2 Hm _ IH]; [done|]. intros Hg.
  apply IH. by eapply good_move.
Qed.
End bounded.

Lemma count_two f l i j p q :
  (∀ p, 0 <= f p <= 1) → i ≠ j → l !! i = Some p → l !! j = Some q → f p + f q <= count f l.
Proof.
  intros Hf. revert i j. induction l as [|x l IH]; intros [|i] [|j]; simpl; try done.
  - intros _ [= ->] Hj. pose proof (count_elem f l j q Hf Hj). lia.
  - intros _ Hi [= ->]. pose proof (count_elem f l i p Hf Hi). lia.
  - intros Hij Hi Hj. specialize (Hf x) as Hx. specialize (IH i j ltac:(lia) Hi Hj). lia.
Qed.

(** ** Theorems *)

(** C27: with fewer than 2^31 threads, in every reachable state the flag is
    exact: either one thread holds the lock for writing, none for reading, and
    the flag is the minimum value; or none holds it for writing and the flag is
    the number of threads that hold it for reading (so the counter never
    overflows).  In particular a thread that holds the lock for writing
    excludes every other thread. *)
Theorem rw_mutual_exclusion (n : nat) (s : state) :
  Z.of_nat n < 2 ^ 31 → reachable n s →
  ((writers s = 1 ∧ readers s = 0 ∧ m_flag s = min_32) ∨
   (writers s = 0 ∧ m_flag s = readers s ∧ 0 <= readers s <= Z.of_nat n)) ∧
  ∀ i j p q, i ≠ j → threads s !! i = Some p → threads s !! j = Some q → is_writer p = 1 →
    is_writer q = 0 ∧ is_reader q = 0 ∧ m_flag s = min_32 ∧ readers s = 0.
Proof.
  intros Hn Hr. destruct (good_reachable n Hn s Hr) as [Hs Hlen]. split.
  - pose proof (count_bounds is_reader (threads s) is_reader_bounds) as Hb. rewrite /inv /readers in Hs |- *. lia.
  - intros i j p q Hij Hi Hj Hp.
    pose proof (count_two is_writer _ _ _ _ _ is_writer_bounds Hij Hi Hj) as Hw.
    pose proof (count_elem is_reader _ _ _ is_reader_bounds Hj) as Hre.
    pose proof (is_writer_bounds q). pose proof (is_reader_bounds q).
    rewrite /inv /readers /writers in Hs |- *. lia.
Qed.

(** Two threads: thread 0 takes the lock for writing, thread 1 tries. *)
Definition contended : state :=
  {| m_flag := min_32; threads := [T_exclusive; T_lock_shared (Some min_32)] |}.

Lemma contended_reachable : reachable 2 contended.
Proof.
  eapply rtc_l; [by apply (move_call 0 C_lock)|]. eapply rtc_l; [by apply (move_step 0)|].
  eapply rtc_l; [by apply (move_step 0)|]. eapply rtc_l; [by apply (move_call 1 C_lock_shared)|].
  eapply rtc_l; [by apply (move_step 1)|]. apply rtc_refl.
Qed.

Lemma rw_mutual_exclusion_witness :
  is_reader (T_lock_shared (Some min_32)) = 0 ∧ readers contended = 0.
Proof.
  destruct (rw_mutual_exclusion 2 contended) as [_ H]; [lia|exact contended_reachable|].
  destruct (H 0%nat 1%nat T_exclusive (T_lock_shared (Some min_32))) as (_ & H1 & _ & H2); [lia|reflexivity..|].
  split; [exact H1|exact H2].
Defined.

(** The lock is obtained when nobody holds it, and [unlock] by the
    holder succeeds at its first compare-and-swap: it never spins. *)
Theorem rw_lock_unlock_progress (n : nat) (s : state) (i : nat) :
  Z.of_nat n < 2 ^ 31 → reachable n s →
  (threads s !! i = Some T_idle → readers s = 0 → writers s = 0 →
   ∃ s1 s2 s3, start i C_lock s = Some s1 ∧ step i s1 = Some s2 ∧ step i s2 = Some s3 ∧
     threads s3 !! i = Some T_exclusive) ∧
  (threads s !! i = Some T_unlock →
   ∃ s1, step i s = Some s1 ∧ threads s1 !! i = Some T_idle ∧ m_flag s1 = 0).
Proof.
  intros Hn Hr. pose proof (good_reachable n Hn s Hr) as Hg. split.
  - intros Hi Hr0 Hw0. pose proof (lookup_lt_Some _ _ _ Hi) as Hlt.
    assert (m_flag s = 0) as Hf by (destruct Hg as [[(? & ? & _)|[? _]] _]; lia).
    eexists _, _, _. rewrite /start Hi. split; [done|]. rewrite /step /=.
    rewrite list_lookup_insert_eq; [done|]. split; [done|]. simpl.
    rewrite list_lookup_insert_eq; [by rewrite length_insert|]. rewrite Hf /cas /= Hf /=.
    split; [done|]. simpl. rewrite list_lookup_insert_eq; [by rewrite !length_insert|done].
  - intros Hi. pose proof (lookup_lt_Some _ _ _ Hi) as Hlt.
    destruct (inv_release n s i Hg Hi) as [_ Hf]. eexists. rewrite /step Hi. split; [done|].
    rewrite /cas Hf Z.eqb_refl /=. by rewrite list_lookup_insert_eq.
Qed.

Lemma rw_lock_unlock_progress_witness :
  ∃ s1 s2 s3, start 0 C_lock (rw_spinlock 3) = Some s1 ∧ step 0 s1 = Some s2 ∧
    step 0 s2 = Some s3 ∧ threads s3 !! 0%nat = Some T_exclusive.
Proof.
  apply (rw_lock_unlock_progress 3 (rw_spinlock 3) 0); [lia|apply rtc_refl|reflexivity..].
Defined.
End spinlock.
