(* ===== verification/ChimeraKey.v ===== *)
(** * Overlay keys

    The keys of the Chimera overlay as the modules use them
    ([utils/chimera/src/key.c]): three 32-bit words, the least significant
    first, read as 48 digits to the base 4.  Comparison, the length of the
    common prefix, single digits and the network encoding work on the words;
    the theorems show that they compute the comparison, the common prefix,
    the digits and the encoding of the 96-bit number.  The flag [valid] of a
    key takes no part in any of them. *)

From S2P Require Import Prelude.

Definition KEY_ARRAY_SIZE : nat := 3.
Definition KEY_SIZE : Z := 96.
Definition BASE_B : Z := 2.

Definition Key := list Z.
Definition word (k : Key) (i : nat) : Z := default 0 (k !! i).

(** ** Operations *)

Definition key_equal (k1 k2 : Key) : bool :=
  forallb (λ i, word k1 i =? word k2 i) (seq 0 KEY_ARRAY_SIZE).

(** [key_comp]: the words [i - 1] down to [0]. *)
Fixpoint key_comp_words (i : nat) (k1 k2 : Key) : Z :=
  match i with
  | O => 0
  | S i' =>
      if word k2 i' <? word k1 i' then 1
      else if word k1 i' <? word k2 i' then -1
      else key_comp_words i' k1 k2
  end.
Definition key_comp (k1 k2 : Key) : Z := key_comp_words KEY_ARRAY_SIZE k1 k2.

Definition m_number_of_digits : Z := 32 / BASE_B.
Definition max_len : Z := KEY_SIZE / BASE_B.

(** The first loop of [key_index_int]: the result at once, or the digits
    counted and the word where the keys differ. *)
Fixpoint key_index_words (j : nat) (i : Z) (mykey k : Key) : Z + (Z * nat) :=
  match j with
  | O => inr (i, 0%nat)
  | S j' =>
      if word mykey j' =? word k j' then
        let i := i + m_number_of_digits in
        if i =? max_len then inl (max_len - 1) else key_index_words j' i mykey k
      else inr (i, j')
  end.

(** The second loop: digits are shifted out until the words agree. *)
Fixpoint key_index_shift (fuel : nat) (tmp a b : Z) : Z :=
  match fuel with
  | O => tmp
  | S fuel' =>
      if a =? b then tmp
      else key_index_shift fuel' (tmp - 1) (Z.shiftr a BASE_B) (Z.shiftr b BASE_B)
  end.

Definition key_index_int (mykey k : Key) : Z :=
  match key_index_words KEY_ARRAY_SIZE 0 mykey k with
  | inl r => r
  | inr (i, jump) =>
      i + key_index_shift (Z.to_nat m_number_of_digits) m_number_of_digits (word mykey jump) (word k jump)
  end.
Definition key_index (mykey k : Key) : Z := key_index_int mykey k.

Definition get_col (k : Key) (i : Z) : Z :=
  if max_len - 1 <? i then 0
  else
    let jump := i / m_number_of_digits in
    let i := i - jump * m_number_of_digits in
    let shift_left := i * BASE_B in
    let shift_right := (m_number_of_digits - 1) * BASE_B in
    let go_to := Z.of_nat KEY_ARRAY_SIZE - 1 - jump in
    let g := word k (Z.to_nat go_to) in
    let g := u32 (Z.shiftl g shift_left) in
    Z.shiftr g shift_right.

(** The network encoding: each word in network byte order. *)
Definition write_u32_to_buffer (v : Z) : bytes := rev (le_bytes 4 v).
Definition read_u32_from_buffer (b : bytes) : Z := le_value (rev (take 4 b)).

Definition write_key_to_buffer (k : Key) : bytes := concat (write_u32_to_buffer <$> take KEY_ARRAY_SIZE k).
Fixpoint read_words (n : nat) (b : bytes) : Key :=
  match n with O => [] | S n' => read_u32_from_buffer b :: read_words n' (drop 4 b) end.
Definition read_key_from_buffer (b : bytes) : Key := read_words KEY_ARRAY_SIZE b.

(** [key_to_cstr] to the base 4: eight hexadecimal digits per word, the most
    significant word first, and two digits for each of them. *)
Definition hex_digits (w : Z) : list Z := (λ i, Z.land (Z.shiftr w (4 * i)) 15) <$> rev (seqZ 0 8).
Definition hex_to_base4 (hexstr : list Z) : bytes :=
  concat ((λ h, [z2b (48 + h / 4); z2b (48 + h mod 4)]) <$> hexstr).
Definition key_to_string (k : Key) : bytes :=
  hex_to_base4 (concat ((λ i, hex_digits (word k i)) <$> rev (seq 0 KEY_ARRAY_SIZE))).

(** ** Keys as numbers *)

Definition key_ok (k : Key) : Prop := length k = KEY_ARRAY_SIZE ∧ Forall (λ w, 0 <= w < 2 ^ 32) k.

(** The number the first [j] words stand for. *)
Fixpoint value (j : nat) (k : Key) : Z :=
  match j with O => 0 | S j' => value j' k + 2 ^ (32 * Z.of_nat j') * word k j' end.
Definition key_value (k : Key) : Z := value KEY_ARRAY_SIZE k.

Lemma key_ok_word k i : key_ok k → 0 <= word k i < 2 ^ 32.
Proof.
  intros [_ Hk]. rewrite /word. destruct (k !! i) as [w|] eqn:E; simpl; [|lia].
  by apply (Forall_lookup_1 _ _ _ _ Hk E).
Qed.

Lemma value_bound j k : key_ok k → 0 <= value j k < 2 ^ (32 * Z.of_nat j).
Proof.
  intros Hk. induction j as [|j IH]; simpl value; [lia|].
  pose proof (key_ok_word k j Hk) as Hw.
  replace (2 ^ (32 * Z.of_nat (S j))) with (2 ^ (32 * Z.of_nat j) * 2 ^ 32); [nia|].
  rewrite -Z.pow_add_r; [lia|lia|]. f_equal. lia.
Qed.

Lemma key_ext k1 k2 : key_ok k1 → key_ok k2 → (∀ i, (i < KEY_ARRAY_SIZE)%nat → word k1 i = word k2 i) → k1 = k2.
Proof.
  intros [H1 _] [H2 _] He. apply list_eq_same_length with KEY_ARRAY_SIZE; [done..|].
  intros i x y Hi Hx Hy. specialize (He i Hi). rewrite /word Hx Hy in He. done.
Qed.

(** Comparison of numbers that differ in their high part. *)
Lemma lex_compare B lo1 lo2 hi1 hi2 :
  0 <= lo1 < B → 0 <= lo2 < B →
  (lo1 + B * hi1 < lo2 + B * hi2 ↔ hi1 < hi2 ∨ hi1 = hi2 ∧ lo1 < lo2).
Proof. nia. Qed.

Lemma key_comp_words_sign j k1 k2 :
  key_ok k1 → key_ok k2 →
  key_comp_words j k1 k2 = (if value j k2 <? value j k1 then 1 else if value j k1 <? value j k2 then -1 else 0).
Proof.
  intros H1 H2. induction j as [|j IH]; simpl; [done|].
  pose proof (value_bound j k1 H1) as B1. pose proof (value_bound j k2 H2) as B2. rewrite IH.
  pose proof (lex_compare _ _ _ (word k1 j) (word k2 j) B1 B2) as L1.
  pose proof (lex_compare _ _ _ (word k2 j) (word k1 j) B2 B1) as L2.
  set (v1 := value j k1 + _) in L1, L2 |- *. set (v2 := value j k2 + _) in L1, L2 |- *. clearbody v1 v2.
  destruct (Z.ltb_spec (word k2 j) (word k1 j)), (Z.ltb_spec (word k1 j) (word k2 j)),
    (Z.ltb_spec v2 v1), (Z.ltb_spec v1 v2),
    (Z.ltb_spec (value j k2) (value j k1)), (Z.ltb_spec (value j k1) (value j k2)); try done; exfalso; lia.
Qed.

Lemma value_inj j k1 k2 :
  key_ok k1 → key_ok k2 → value j k1 = value j k2 → ∀ i, (i < j)%nat → word k1 i = word k2 i.
Proof.
  intros H1 H2. induction j as [|j IH]; [lia|]. simpl. intros He i Hi.
  pose proof (value_bound j k1 H1) as B1. pose proof (value_bound j k2 H2) as B2.
  pose proof (lex_compare _ _ _ (word k1 j) (word k2 j) B1 B2) as L1.
  pose proof (lex_compare _ _ _ (word k2 j) (word k1 j) B2 B1) as L2.
  assert (word k1 j = word k2 j ∧ value j k1 = value j k2) as [E1 E2] by (rewrite He in L1, L2; lia).
  destruct (decide (i = j)) as [->|]; [done|]. apply IH; [done|lia].
Qed.

Lemma key_value_inj k1 k2 : key_ok k1 → key_ok k2 → key_value k1 = key_value k2 → k1 = k2.
Proof. intros H1 H2 He. apply key_ext; [done..|]. by apply value_inj. Qed.

Lemma key_equal_spec k1 k2 : key_ok k1 → key_ok k2 → key_equal k1 k2 = true ↔ k1 = k2.
Proof.
  intros H1 H2. rewrite /key_equal forallb_forall. split; [|intros -> i _; apply Z.eqb_refl].
  intros Hf. apply key_ext; [done..|]. intros i Hi. apply Z.eqb_eq, Hf, in_seq. lia.
Qed.

(** ** Common prefixes *)

(** Shifting out digits. *)
Lemma key_index_shift_spec fuel a b m :
  0 <= a < 4 ^ Z.of_nat fuel → 0 <= b < 4 ^ Z.of_nat fuel → 0 <= m <= Z.of_nat fuel →
  0 <= key_index_shift fuel (Z.of_nat fuel) a b <= Z.of_nat fuel ∧
  (m <= key_index_shift fuel (Z.of_nat fuel) a b ↔ a / 4 ^ (Z.of_nat fuel - m) = b / 4 ^ (Z.of_nat fuel - m)).
Proof.
  revert a b m. induction fuel as [|n IH]; intros a b m Ha Hb Hm; simpl key_index_shift.
  - assert (m = 0) as -> by lia. simpl in Ha, Hb. replace a with 0 by lia. replace b with 0 by lia. done.
  - rewrite Nat2Z.inj_succ in Ha, Hb, Hm |- *. rewrite Z.pow_succ_r in Ha, Hb; [lia..|].
    destruct (Z.eqb_spec a b) as [->|Hne]; [split; [lia|split; [done|lia]]|].
    rewrite !Z.shiftr_div_pow2; [done..|]. change (2 ^ BASE_B) with 4.
    replace (Z.succ (Z.of_nat n) - 1) with (Z.of_nat n) by lia.
    assert (∀ x, 0 <= x < 4 * 4 ^ Z.of_nat n → 0 <= x / 4 < 4 ^ Z.of_nat n) as Hdiv.
    { intros x Hx. split; [apply Z.div_pos; lia|apply Z.div_lt_upper_bound; lia]. }
    destruct (decide (m = Z.succ (Z.of_nat n))) as [->|Hm'].
    + destruct (IH (a / 4) (b / 4) 0) as [B _]; [by apply Hdiv..|lia|]. split; [lia|].
      rewrite Z.sub_diag Z.pow_0_r !Z.div_1_r. split; [lia|done].
    + destruct (IH (a / 4) (b / 4) m) as [B E]; [by apply Hdiv..|lia|]. split; [lia|]. rewrite E.
      rewrite !Z.div_div; try lia; [apply Z.pow_pos_nonneg; lia..|].
      rewrite -Z.pow_succ_r; [lia|]. by replace (Z.succ (Z.of_nat n - m)) with (Z.succ (Z.of_nat n) - m) by lia.
Qed.

(** The prefix of [n] digits of the first [j] words. *)
Definition prefix (j : nat) (n : Z) (k : Key) : Z := value j k / 4 ^ (16 * Z.of_nat j - n).

Lemma pow4 n : 0 <= n → 4 ^ n = 2 ^ (2 * n).
Proof. intros. by rewrite Z.pow_mul_r. Qed.

(** The prefix of a number with a high word [hi]: digits of [hi] first. *)
Lemma prefix_high j n k : key_ok k → 0 <= n <= 16 → prefix (S j) n k = word k j / 4 ^ (16 - n).
Proof.
  intros Hk Hn. rewrite /prefix. simpl value. pose proof (value_bound j k Hk) as B.
  replace (16 * Z.of_nat (S j) - n) with (16 * Z.of_nat j + (16 - n)) by lia.
  rewrite Z.pow_add_r; [lia..|]. rewrite (pow4 (16 * Z.of_nat j)); [lia|].
  replace (2 * (16 * Z.of_nat j)) with (32 * Z.of_nat j) by lia.
  rewrite -Z.div_div; [lia|apply Z.pow_pos_nonneg; lia|]. f_equal.
  rewrite Z.mul_comm Z.div_add; [lia|]. rewrite Z.div_small; lia.
Qed.

Lemma prefix_low j n k :
  16 <= n <= 16 * Z.of_nat (S j) → prefix (S j) n k = prefix j (n - 16) k + 4 ^ (n - 16) * word k j.
Proof.
  intros Hn. rewrite /prefix. simpl value.
  replace (16 * Z.of_nat (S j) - n) with (16 * Z.of_nat j - (n - 16)) by lia.
  rewrite (_ : 2 ^ (32 * Z.of_nat j) = 4 ^ (n - 16) * 4 ^ (16 * Z.of_nat j - (n - 16))).
  { rewrite -Z.pow_add_r; [lia..|]. rewrite pow4; [lia|]. f_equal. lia. }
  rewrite -Z.mul_assoc (Z.mul_comm (4 ^ (16 * _ - _))) Z.mul_assoc Z.div_add //.
  apply Z.pow_nonzero; lia.
Qed.

Lemma prefix_bound j n k : key_ok k → 0 <= n <= 16 * Z.of_nat j → 0 <= prefix j n k < 4 ^ n.
Proof.
  intros Hk Hn. pose proof (value_bound j k Hk) as B. rewrite /prefix.
  assert (0 < 4 ^ (16 * Z.of_nat j - n)) by (apply Z.pow_pos_nonneg; lia).
  split; [apply Z.div_pos; lia|]. apply Z.div_lt_upper_bound; [done|].
  rewrite -Z.pow_add_r; [lia..|]. rewrite pow4; [lia|]. replace (2 * (16 * Z.of_nat j - n + n)) with (32 * Z.of_nat j) by lia.
  lia.
Qed.

(** The common digits of the first [j] words, without the limit. *)
Fixpoint raw_index (j : nat) (k1 k2 : Key) : Z :=
  match j with
  | O => 0
  | S j' =>
      if word k1 j' =? word k2 j' then 16 + raw_index j' k1 k2
      else key_index_shift 16 16 (word k1 j') (word k2 j')
  end.

Lemma raw_index_S j k1 k2 :
  raw_index (S j) k1 k2 = if word k1 j =? word k2 j then 16 + raw_index j k1 k2
                          else key_index_shift 16 16 (word k1 j) (word k2 j).
Proof. done. Qed.

Lemma word_shift_spec k1 k2 j n :
  key_ok k1 → key_ok k2 → 0 <= n <= 16 →
  0 <= key_index_shift 16 16 (word k1 j) (word k2 j) <= 16 ∧
  (n <= key_index_shift 16 16 (word k1 j) (word k2 j) ↔ word k1 j / 4 ^ (16 - n) = word k2 j / 4 ^ (16 - n)).
Proof.
  intros H1 H2 Hn. pose proof (key_ok_word k1 j H1). pose proof (key_ok_word k2 j H2).
  apply (key_index_shift_spec 16); done.
Qed.

Lemma raw_index_spec j k1 k2 :
  key_ok k1 → key_ok k2 →
  0 <= raw_index j k1 k2 <= 16 * Z.of_nat j ∧
  ∀ n, 0 <= n <= 16 * Z.of_nat j → (n <= raw_index j k1 k2 ↔ prefix j n k1 = prefix j n k2).
Proof.
  intros H1 H2. induction j as [|j [B IH]].
  - simpl. split; [lia|]. intros n Hn. split; [done|]. intros _. lia.
  - rewrite raw_index_S. destruct (word_shift_spec k1 k2 j 0 H1 H2 ltac:(lia)) as [Bs _].
    destruct (Z.eqb_spec (word k1 j) (word k2 j)) as [E|E]; (split; [lia|]); intros n Hn.
    + destruct (decide (n <= 16)) as [Hle|Hgt].
      * rewrite !prefix_high; [done|lia|done|lia|]. rewrite E. split; [done|lia].
      * rewrite !prefix_low; [lia..|]. specialize (IH (n - 16) ltac:(lia)). rewrite E. lia.
    + destruct (decide (n <= 16)) as [Hle|Hgt].
      * rewrite !prefix_high; [done|lia|done|lia|]. by apply word_shift_spec; [..|lia].
      * split; [lia|]. rewrite !prefix_low; [lia..|]. intros He.
        pose proof (prefix_bound j (n - 16) k1 H1 ltac:(lia)) as P1.
        pose proof (prefix_bound j (n - 16) k2 H2 ltac:(lia)) as P2.
        pose proof (lex_compare _ _ _ (word k1 j) (word k2 j) P1 P2) as L1.
        pose proof (lex_compare _ _ _ (word k2 j) (word k1 j) P2 P1) as L2. rewrite He in L1, L2. lia.
Qed.

Lemma raw_index_differ j k1 k2 :
  key_ok k1 → key_ok k2 → word k1 j ≠ word k2 j → key_index_shift 16 16 (word k1 j) (word k2 j) < 16.
Proof.
  intros H1 H2 Hne. destruct (word_shift_spec k1 k2 j 16 H1 H2 ltac:(lia)) as [B E].
  rewrite Z.sub_diag Z.pow_0_r !Z.div_1_r in E. lia.
Qed.

Lemma key_index_words_raw j i k1 k2 :
  key_ok k1 → key_ok k2 → i + 16 * Z.of_nat j = 48 → (0 < j)%nat →
  match key_index_words j i k1 k2 with
  | inl r => r = 47 ∧ raw_index j k1 k2 = 16 * Z.of_nat j
  | inr (i', jump) =>
      i' + key_index_shift 16 16 (word k1 jump) (word k2 jump) = i + raw_index j k1 k2 ∧
      raw_index j k1 k2 < 16 * Z.of_nat j
  end.
Proof.
  intros H1 H2. revert i. induction j as [|j IH]; [lia|]. intros i Hi _. simpl key_index_words. rewrite raw_index_S.
  change m_number_of_digits with 16. change max_len with 48.
  destruct (Z.eqb_spec (word k1 j) (word k2 j)) as [E|E].
  - destruct (Z.eqb_spec (i + 16) 48).
    + assert (j = 0%nat) as -> by lia. done.
    + specialize (IH (i + 16) ltac:(lia) ltac:(lia)).
      destruct (key_index_words j (i + 16) k1 k2) as [r|[i' jump]]; lia.
  - pose proof (raw_index_differ j k1 k2 H1 H2 E). lia.
Qed.

Lemma key_index_int_raw k1 k2 :
  key_ok k1 → key_ok k2 → key_index_int k1 k2 = Z.min 47 (raw_index KEY_ARRAY_SIZE k1 k2).
Proof.
  intros H1 H2. rewrite /key_index_int.
  pose proof (key_index_words_raw KEY_ARRAY_SIZE 0 k1 k2 H1 H2 ltac:(done) ltac:(rewrite /KEY_ARRAY_SIZE; lia)) as G.
  change (Z.to_nat m_number_of_digits) with 16%nat. change m_number_of_digits with 16.
  destruct (key_index_words KEY_ARRAY_SIZE 0 k1 k2) as [r|[i jump]];
    rewrite /KEY_ARRAY_SIZE in G |- *; lia.
Qed.

Lemma key_index_int_bounds k1 k2 : key_ok k1 → key_ok k2 → 0 <= key_index_int k1 k2 <= 47.
Proof.
  intros H1 H2. rewrite key_index_int_raw //. destruct (raw_index_spec KEY_ARRAY_SIZE k1 k2 H1 H2) as [B _]. lia.
Qed.

(** ** Digits *)

Definition digit (k : Key) (i : Z) : Z := key_value k / 4 ^ (47 - i) mod 4.

Lemma word_digit w r :
  0 <= w < 2 ^ 32 → 0 <= r < 16 → Z.shiftr (u32 (Z.shiftl w (r * 2))) 30 = w / 4 ^ (15 - r) mod 4.
Proof.
  intros Hw Hr. rewrite (pow4 (15 - r)); [lia|]. rewrite -Z.shiftr_div_pow2; [lia|].
  change 4 with (2 ^ 2) at 1. apply Z.bits_inj'. intros n Hn.
  rewrite Z.shiftr_spec // /u32 /uwrap. destruct (decide (n < 2)) as [Hlt|Hge].
  - rewrite !Z.mod_pow2_bits_low; [lia|lia|]. rewrite Z.shiftl_spec; [lia|]. rewrite Z.shiftr_spec //. f_equal. lia.
  - rewrite !Z.mod_pow2_bits_high //; lia.
Qed.

Lemma get_col_word k i :
  key_ok k → 0 <= i < 48 → get_col k i = word k (Z.to_nat (2 - i / 16)) / 4 ^ (15 - i mod 16) mod 4.
Proof.
  intros Hk Hi. rewrite /get_col. change max_len with 48. change m_number_of_digits with 16.
  rewrite (proj2 (Z.ltb_ge _ _)); [lia|]. change (Z.of_nat KEY_ARRAY_SIZE - 1) with 2. change ((16 - 1) * BASE_B) with 30.
  replace (i - i / 16 * 16) with (i mod 16) by (rewrite Z.mod_eq; lia). change BASE_B with 2.
  apply word_digit; [by apply key_ok_word|]. by apply Z.mod_pos_bound.
Qed.

Lemma mod4_low x y n : 1 <= n → (x + 4 ^ n * y) mod 4 = x mod 4.
Proof.
  intros Hn. replace (4 ^ n) with (4 ^ (n - 1) * 4).
  - rewrite -Z.mul_assoc (Z.mul_comm 4) Z.mul_assoc Z.mod_add; lia.
  - rewrite -{2}(Z.pow_1_r 4) -Z.pow_add_r; [lia..|]. f_equal. lia.
Qed.

Lemma digit_word k i :
  key_ok k → 0 <= i < 48 → digit k i = word k (Z.to_nat (2 - i / 16)) / 4 ^ (15 - i mod 16) mod 4.
Proof.
  intros Hk Hi. rewrite /digit /key_value /KEY_ARRAY_SIZE.
  rewrite (_ : value 3 k / 4 ^ (47 - i) = prefix 3 (i + 1) k); [rewrite /prefix; do 2 f_equal; lia|].
  assert (i = 16 * (i / 16) + i mod 16) as Hdiv by (apply Z.div_mod; lia).
  pose proof (Z.mod_pos_bound i 16 ltac:(lia)) as Hm. set (q := i / 16) in *. set (r := i mod 16) in *. clearbody q r.
  assert (q = 0 ∨ q = 1 ∨ q = 2) as [->|[->| ->]] by lia; simpl Z.to_nat.
  - rewrite prefix_high; [done|lia|]. do 3 f_equal. lia.
  - rewrite prefix_low; [lia|]. rewrite mod4_low; [lia|]. rewrite prefix_high; [done|lia|]. do 3 f_equal. lia.
  - rewrite prefix_low; [lia|]. rewrite mod4_low; [lia|]. rewrite prefix_low; [lia|]. rewrite mod4_low; [lia|].
    rewrite prefix_high; [done|lia|]. do 3 f_equal. lia.
Qed.

(** ** Encoding *)

Lemma length_write_u32 v : length (write_u32_to_buffer v) = 4%nat.
Proof. by rewrite /write_u32_to_buffer length_rev length_le_bytes. Qed.

Lemma read_write_u32 v rest : 0 <= v < 2 ^ 32 → read_u32_from_buffer (write_u32_to_buffer v ++ rest) = v.
Proof.
  intros Hv. rewrite /read_u32_from_buffer take_app_length'; [by rewrite length_write_u32|].
  rewrite /write_u32_to_buffer rev_involutive le_value_le_bytes //.
Qed.

Lemma read_words_write k rest :
  Forall (λ w, 0 <= w < 2 ^ 32) k → read_words (length k) (concat (write_u32_to_buffer <$> k) ++ rest) = k.
Proof.
  induction 1 as [|w k Hw Hk IH]; [done|].
  cbn [length read_words]. rewrite fmap_cons concat_cons -app_assoc read_write_u32 //.
  by rewrite drop_app_length'; [by rewrite length_write_u32|]; rewrite IH.
Qed.

Lemma write_read_u32 b : (4 <= length b)%nat → write_u32_to_buffer (read_u32_from_buffer b) = take 4 b.
Proof.
  intros Hb. rewrite /write_u32_to_buffer /read_u32_from_buffer.
  rewrite -{1}(_ : length (rev (take 4 b)) = 4%nat); [rewrite length_rev length_take; lia|].
  by rewrite le_bytes_le_value rev_involutive.
Qed.

(** ** Theorems *)

(** The word-wise comparisons of keys are the comparison of 96-bit
    numbers: [key_comp] returns the sign of the difference, and
    [key_equal] holds exactly for equal keys.  [operator<] of the modules'
    maps is thus a strict total order. *)
Theorem key_comp_compares k1 k2 :
  key_ok k1 → key_ok k2 →
  key_comp k1 k2 = Z.sgn (key_value k1 - key_value k2) ∧
  (key_comp k1 k2 = 0 ↔ k1 = k2) ∧ (key_equal k1 k2 = true ↔ k1 = k2).
Proof.
  intros H1 H2. rewrite /key_comp key_comp_words_sign // -!/(key_value _).
  split_and!; [|split|by apply key_equal_spec].
  - destruct (Z.ltb_spec (key_value k2) (key_value k1)), (Z.ltb_spec (key_value k1) (key_value k2)); lia.
  - intros Hz. apply key_value_inj; [done..|]. revert Hz.
    destruct (Z.ltb_spec (key_value k2) (key_value k1)), (Z.ltb_spec (key_value k1) (key_value k2)); lia.
  - intros ->. by rewrite Z.ltb_irrefl.
Qed.

Definition sample_key (a b c : Z) : Key := [a; b; c].
Lemma sample_key_ok a b c :
  0 <= a < 2 ^ 32 → 0 <= b < 2 ^ 32 → 0 <= c < 2 ^ 32 → key_ok (sample_key a b c).
Proof. intros. split; [done|]. rewrite /sample_key !Forall_cons Forall_nil. done. Qed.

Lemma key_comp_compares_witness :
  key_comp (sample_key 9 0 1) (sample_key 1 2 1) = Z.sgn (key_value (sample_key 9 0 1) - key_value (sample_key 1 2 1)).
Proof. apply (key_comp_compares (sample_key 9 0 1) (sample_key 1 2 1)); apply sample_key_ok; lia. Defined.

(** [key_index_int] is the length of the common prefix of two keys in
    digits to the base 4, limited to 47: the keys agree in the first [n]
    digits exactly when [n] is at most the result; and [get_col] is the
    digit at a position.  So the digits at the result differ unless the
    result is 47. *)
Theorem key_index_is_common_prefix k1 k2 :
  key_ok k1 → key_ok k2 →
  0 <= key_index_int k1 k2 <= 47 ∧
  (∀ n, 0 <= n <= 47 →
    (n <= key_index_int k1 k2 ↔ key_value k1 / 4 ^ (48 - n) = key_value k2 / 4 ^ (48 - n))) ∧
  (∀ i, 0 <= i < 48 → get_col k1 i = digit k1 i) ∧
  key_index_int k1 k2 = key_index_int k2 k1.
Proof.
  intros H1 H2. rewrite !key_index_int_raw //.
  destruct (raw_index_spec KEY_ARRAY_SIZE k1 k2 H1 H2) as [B E].
  destruct (raw_index_spec KEY_ARRAY_SIZE k2 k1 H2 H1) as [B' E'].
  change (16 * Z.of_nat KEY_ARRAY_SIZE) with 48 in *. split_and!; [lia|lia|..].
  - intros n Hn. specialize (E n ltac:(lia)). rewrite /prefix -!/(key_value _) in E.
    change (16 * Z.of_nat KEY_ARRAY_SIZE) with 48 in E. rewrite -E. lia.
  - intros i Hi. by rewrite get_col_word // digit_word.
  - pose proof (E (raw_index KEY_ARRAY_SIZE k2 k1) B') as F. pose proof (E' (raw_index KEY_ARRAY_SIZE k1 k2) B) as F'.
    pose proof (E (raw_index KEY_ARRAY_SIZE k1 k2) B) as G. pose proof (E' (raw_index KEY_ARRAY_SIZE k2 k1) B') as G'.
    lia.
Qed.

Lemma key_index_is_common_prefix_witness :
  (4 <= key_index_int (sample_key 5 7 (27 * 2 ^ 24)) (sample_key 0 0 (27 * 2 ^ 24 + 2 ^ 20)) ↔
   key_value (sample_key 5 7 (27 * 2 ^ 24)) / 4 ^ (48 - 4) =
   key_value (sample_key 0 0 (27 * 2 ^ 24 + 2 ^ 20)) / 4 ^ (48 - 4)) ∧
  key_index_int (sample_key 5 7 (27 * 2 ^ 24)) (sample_key 0 0 (27 * 2 ^ 24 + 2 ^ 20)) = 5.
Proof.
  split; [|by vm_compute].
  apply (key_index_is_common_prefix (sample_key 5 7 (27 * 2 ^ 24)) (sample_key 0 0 (27 * 2 ^ 24 + 2 ^ 20)));
    [apply sample_key_ok; lia..|lia].
Defined.

(** Keys survive the network encoding: reading what was written returns
    the key, whatever follows it in the buffer, and every twelve bytes are
    the encoding of the key read from them. *)
Theorem key_buffer_roundtrip k rest :
  key_ok k →
  read_key_from_buffer (write_key_to_buffer k ++ rest) = k ∧
  ∀ b, length b = 12%nat → write_key_to_buffer (read_key_from_buffer b) = b.
Proof.
  intros [Hl Hk]. split.
  - rewrite /write_key_to_buffer -Hl firstn_all /read_key_from_buffer -Hl. by apply read_words_write.
  - intros b Hb. rewrite /read_key_from_buffer /KEY_ARRAY_SIZE /write_key_to_buffer.
    cbn [read_words]. rewrite firstn_all2; [done|]. rewrite !fmap_cons fmap_nil !concat_cons concat_nil.
    rewrite !write_read_u32; rewrite ?length_drop; [lia..|].
    rewrite drop_drop app_nil_r (firstn_all2 (drop (4 + 4) b)); [rewrite length_drop; lia|].
    by rewrite -drop_drop take_drop take_drop.
Qed.

Lemma key_buffer_roundtrip_witness :
  read_key_from_buffer (write_key_to_buffer (sample_key 1 258 4294967295) ++ str "rest") = sample_key 1 258 4294967295.
Proof. apply (key_buffer_roundtrip (sample_key 1 258 4294967295) (str "rest")). apply sample_key_ok; lia. Defined.
