(* ===== verification/StorageSemaphore.v ===== *)
(** * The storage semaphore

    [util::storage_semaphore<max_size, nonblocking_t>]
    ([util/storage_semaphore.hpp]), which bounds the bytes a socket buffers.
    [try_acquire] is a load and a compare-and-swap in a loop, [release] an
    atomic addition; any number of threads interleave.  The theorem: the
    counter is exactly the maximum less what the threads hold, and never
    leaves its range. *)

From S2P Require Import Prelude.

Module semaphore.

Section semaphore.
Context (max_size : Z).

(** A thread: idle, or inside [try_acquire(n)] with the value it loaded;
    and the bytes it holds. *)
Inductive pc :=
  | S_idle
  | S_try (n : Z) (av : option Z).

Record thread := { t_pc : pc; t_held : Z }.

Record state := {
  m_available : Z;
  threads : list thread
}.

Definition storage_semaphore (n : nat) : state :=
  {| m_available := max_size; threads := replicate n {| t_pc := S_idle; t_held := 0 |} |}.

Definition goto (i : nat) (t : thread) (s : state) : state :=
  {| m_available := m_available s; threads := <[i := t]> (threads s) |}.

(** A call of [try_acquire(n)]: the argument is an [int32_t], not
    negative. *)
Definition call_try_acquire (i : nat) (n : Z) (s : state) : option state :=
  match threads s !! i with
  | Some {| t_pc := S_idle; t_held := h |} =>
      if (0 <=? n) && (n <? 2 ^ 31) then Some (goto i {| t_pc := S_try n None; t_held := h |} s)
      else None
  | _ => None
  end.

(** The loop of [try_acquire]. *)
Definition try_acquire_step (i : nat) (s : state) : option state :=
  match threads s !! i with
  | Some {| t_pc := S_try n None; t_held := h |} =>
      Some (goto i {| t_pc := S_try n (Some (m_available s)); t_held := h |} s)
  | Some {| t_pc := S_try n (Some av); t_held := h |} =>
      let av_new := i32 (av - n) in
      if av_new <? 0 then Some (goto i {| t_pc := S_idle; t_held := h |} s)
      else if m_available s =? av then
        Some {| m_available := av_new;
                threads := <[i := {| t_pc := S_idle; t_held := h + n |}]> (threads s) |}
      else Some (goto i {| t_pc := S_try n None; t_held := h |} s)
  | _ => None
  end.

(** [release(n)] of bytes the thread holds. *)
Definition release (i : nat) (n : Z) (s : state) : option state :=
  match threads s !! i with
  | Some {| t_pc := S_idle; t_held := h |} =>
      if (0 <=? n) && (n <=? h) then
        Some {| m_available := i32 (m_available s + n);
                threads := <[i := {| t_pc := S_idle; t_held := h - n |}]> (threads s) |}
      else None
  | _ => None
  end.

Inductive move : state → state → Prop :=
  | move_call i n s s' : call_try_acquire i n s = Some s' → move s s'
  | move_step i s s' : try_acquire_step i s = Some s' → move s s'
  | move_release i n s s' : release i n s = Some s' → move s s'.

(** The operations run without interference. *)
Definition try_acquire (n av : Z) : option Z :=
  let av_new := i32 (av - n) in if av_new <? 0 then None else Some av_new.
Definition release_bytes (n av : Z) : Z := i32 (av + n).

Definition acquired (s : state) : Z := max_size - m_available s.

(** ** The invariant *)

Definition held (s : state) : Z := zsum t_held (threads s).

Definition inv (s : state) : Prop :=
  m_available s = max_size - held s ∧ 0 <= m_available s <= max_size ∧
  Forall (λ t, 0 <= t_held t ∧
    match t_pc t with S_try n av => 0 <= n < 2 ^ 31 ∧ from_option (λ v, 0 <= v <= max_size) True av
                    | S_idle => True end) (threads s).

Context (max_bounds : 0 <= max_size < 2 ^ 31).

Lemma sem_inv_goto s i t t' :
  inv s → threads s !! i = Some t → t_held t' = t_held t →
  match t_pc t' with S_try n av => 0 <= n < 2 ^ 31 ∧ from_option (λ v, 0 <= v <= max_size) True av
                   | S_idle => True end →
  inv (goto i t' s).
Proof.
  intros (Hav & Hb & Hall) Hi Hh Hpc. split_and!; simpl; try lia.
  - rewrite /held /=. rewrite (zsum_insert _ _ _ _ _ Hi). rewrite /held in Hav. lia.
  - apply Forall_insert; [done|]. split; [|done]. rewrite Hh. by apply (Forall_lookup_1 _ _ _ _ Hall Hi).
Qed.

Lemma inv_move s s' : inv s → move s s' → inv s'.
Proof.
  intros Hs Hm. pose proof Hs as (Hav & Hb & Hall). destruct Hm as [i n s s' H|i s s' H|i n s s' H].
  - rewrite /call_try_acquire in H. destruct (threads s !! i) as [[[|m av] h]|] eqn:Hi; try done.
    destruct (Z.leb_spec 0 n), (Z.ltb_spec n (2 ^ 31)); simplify_eq/=. by eapply sem_inv_goto.
  - rewrite /try_acquire_step in H. destruct (threads s !! i) as [[[|n [av|]] h]|] eqn:Hi; try done.
    + pose proof (Forall_lookup_1 _ _ _ _ Hall Hi) as (Hh & Hn & Ha). simpl in Hh, Hn, Ha.
      rewrite i32_small in H; [lia|]. destruct (Z.ltb_spec (av - n) 0).
      { simplify_eq. by eapply sem_inv_goto. }
      destruct (Z.eqb_spec (m_available s) av); simplify_eq; [|by eapply sem_inv_goto].
      split_and!; simpl; try lia.
      * rewrite /held /=. rewrite (zsum_insert _ _ _ _ _ Hi) /=. rewrite /held in Hav. lia.
      * apply Forall_insert; [done|]. simpl. lia.
    + simplify_eq. pose proof (Forall_lookup_1 _ _ _ _ Hall Hi) as (Hh & Hn & _).
      by eapply sem_inv_goto.
  - rewrite /release in H. destruct (threads s !! i) as [[[|m av] h]|] eqn:Hi; try done.
    destruct (Z.leb_spec 0 n), (Z.leb_spec n h); simplify_eq/=.
    assert (h <= held s) as Hle.
    { apply (zsum_lookup t_held _ i _) in Hi; [done|].
      eapply Forall_impl; [exact Hall|]. naive_solver. }
    rewrite i32_small; [lia|]. split_and!; simpl; try lia.
    + rewrite /held /=. rewrite (zsum_insert _ _ _ _ _ Hi) /=. rewrite /held in Hav. lia.
    + apply Forall_insert; [done|]. simpl. lia.
Qed.

Lemma inv_init n : inv (storage_semaphore n).
Proof.
  assert (held (storage_semaphore n) = 0) as Hh.
  { apply zsum_zero, Forall_replicate. done. }
  split_and!; simpl; try lia.
  apply Forall_replicate. simpl. lia.
Qed.

Lemma inv_reachable n s : rtc move (storage_semaphore n) s → inv s.
Proof.
  intros Hr. pose proof (inv_init n) as H0. revert H0.
  induction Hr as [s|s s1 s2 Hm _ IH]; [done|]. intros Hs. apply IH. by eapply inv_move.
Qed.
End semaphore.

(** ** Theorems *)

(** For every interleaving of acquisitions and releases by any number
    of threads, the available bytes are exactly the maximum less the bytes
    held, and stay between zero and the maximum; no machine operation
    overflows. *)
Theorem semaphore_exact (max_size : Z) (n : nat) (s : state) :
  0 <= max_size < 2 ^ 31 → rtc move (storage_semaphore max_size n) s →
  m_available s = max_size - held s ∧ 0 <= m_available s <= max_size.
Proof. intros Hm Hr. destruct (inv_reachable max_size Hm n s Hr) as (H1 & H2 & _). done. Qed.

Definition half_taken : state :=
  {| m_available := 40; threads := [{| t_pc := S_idle; t_held := 60 |}; {| t_pc := S_try 50 (Some 100); t_held := 0 |}] |}.

(** Thread 1 loaded the counter before thread 0 took its bytes. *)
Lemma semaphore_exact_witness : m_available half_taken = 100 - held half_taken.
Proof.
  apply (semaphore_exact 100 2 half_taken); [lia|].
  eapply rtc_l; [by apply (move_call 0 60)|]. eapply rtc_l; [by apply (move_call 1 50)|].
  eapply rtc_l; [by apply (move_step 0)|]. eapply rtc_l; [by apply (move_step 1)|].
  eapply rtc_l; [by apply (move_step 0)|]. apply rtc_refl.
Defined.
End semaphore.
