(* ===== verification/BlockingSemaphore.v ===== *)
(** * The blocking storage semaphore

    [util::storage_semaphore<max_size, blocking_t>]
    ([util/storage_semaphore.hpp]): the bytes a client socket may have in
    flight.  [acquire] takes its bytes at once, even when that makes the
    counter negative, and then sleeps on a condition variable until the
    counter is not negative any more; the mutex is taken only when a thread
    may have to sleep or to be woken.  Any number of threads interleave, one
    shared access per step; sleeping threads may wake up spuriously.

    The theorems: what returned acquisitions hold never exceeds the maximum by
    more than what was released without being held, and no wake-up is lost. *)

From S2P Require Import Prelude StorageSemaphore.

Module blocking.

Section blocking.
Context (max_size : Z).

(** Where a thread is.  [A_]: in [acquire(n)], [R_]: in [release(n)], [W_]:
    in one of the [wait_for_not_full] (with a timeout or not).  [A_load2],
    [A_cas2], [R_load2] and [R_cas2] are the recursive calls that hold the
    lock. *)
Inductive pc :=
  | idle
  | A_load (n : Z) | A_cas (n av : Z) | A_lock (n : Z) | A_load2 (n : Z) | A_cas2 (n av : Z)
  | A_notify | A_check (n : Z) | A_wait (n : Z) | A_sleep (n : Z) | A_wake (n : Z)
  | R_load (n : Z) | R_cas (n av : Z) | R_lock (n : Z) | R_load2 (n : Z) | R_cas2 (n av : Z)
  | R_notify
  | W_load (timed : bool) | W_lock (timed : bool) | W_check (timed : bool) | W_wait (timed : bool)
  | W_sleep (timed : bool) | W_wake (timed : bool) | W_timeout
  | unlock.

#[global] Instance pc_eq_dec : EqDecision pc.
Proof. solve_decision. Defined.

(** [g_held] counts the bytes of acquisitions that returned and were not
    handed to a [release] yet; it is not part of the object. *)
Record state := {
  m_available : Z;
  m_mtx : option nat;
  threads : list pc;
  g_held : Z
}.

Definition storage_semaphore (n : nat) : state :=
  {| m_available := max_size; m_mtx := None; threads := replicate n idle; g_held := 0 |}.

Definition goto (i : nat) (p : pc) (s : state) : state :=
  {| m_available := m_available s; m_mtx := m_mtx s; threads := <[i := p]> (threads s); g_held := g_held s |}.
Definition set_available (a : Z) (s : state) : state :=
  {| m_available := a; m_mtx := m_mtx s; threads := threads s; g_held := g_held s |}.
Definition set_mtx (m : option nat) (s : state) : state :=
  {| m_available := m_available s; m_mtx := m; threads := threads s; g_held := g_held s |}.
Definition hold (n : Z) (s : state) : state :=
  {| m_available := m_available s; m_mtx := m_mtx s; threads := threads s; g_held := g_held s + n |}.

(** Taking the lock, when it is free. *)
Definition lock (i : nat) (p : pc) (s : state) : option state :=
  match m_mtx s with None => Some (goto i p (set_mtx (Some i) s)) | Some _ => None end.

(** [notify_all] and [notify_one]. *)
Definition wake (p : pc) : pc :=
  match p with A_sleep n => A_wake n | W_sleep t => W_wake t | p => p end.
Definition sleeping (p : pc) : bool := match p with A_sleep _ | W_sleep _ => true | _ => false end.
Definition notify_all (s : state) : state :=
  {| m_available := m_available s; m_mtx := m_mtx s; threads := wake <$> threads s; g_held := g_held s |}.
Definition notify_one (j : nat) (s : state) : option state :=
  match threads s !! j with
  | Some p => if sleeping p then Some (goto j (wake p) s)
              else if existsb sleeping (threads s) then None else Some s
  | None => None
  end.

(** ** Calls *)

Definition call_acquire (i : nat) (n : Z) (s : state) : option state :=
  match threads s !! i with
  | Some idle => if (0 <=? n) && (n <=? max_size) then Some (goto i (A_load n) s) else None
  | _ => None
  end.
Definition call_release (i : nat) (n : Z) (s : state) : option state :=
  match threads s !! i with
  | Some idle => if (0 <=? n) && (n <=? g_held s) then Some (goto i (R_load n) (hold (- n) s)) else None
  | _ => None
  end.

(** The class supports one thread that waits for a change of a full
    semaphore. *)
Definition in_wait (p : pc) : bool :=
  match p with
  | W_load _ | W_lock _ | W_check _ | W_wait _ | W_sleep _ | W_wake _ | W_timeout => true
  | _ => false
  end.
Definition call_wait_for_not_full (i : nat) (timed : bool) (s : state) : option state :=
  match threads s !! i with
  | Some idle => if existsb in_wait (threads s) then None else Some (goto i (W_load timed) s)
  | _ => None
  end.

(** ** Steps *)

(** [acquire_impl]; [j] is the thread [notify_one] picks. *)
Definition acquire_step (i j : nat) (p : pc) (s : state) : option state :=
  match p with
  | A_load n => Some (goto i (A_cas n (m_available s)) s)
  | A_cas n av =>
      let av_new := i32 (av - n) in
      if (av_new <? 0) || (av =? max_size) then Some (goto i (A_lock n) s)
      else if m_available s =? av then Some (goto i idle (hold n (set_available av_new s)))
      else Some (goto i (A_load n) s)
  | A_lock n => lock i (A_load2 n) s
  | A_load2 n => Some (goto i (A_cas2 n (m_available s)) s)
  | A_cas2 n av =>
      let av_new := i32 (av - n) in
      if m_available s =? av then
        if av_new <? 0 then Some (goto i (A_check n) (set_available av_new s))
        else if av =? max_size then Some (goto i A_notify (hold n (set_available av_new s)))
        else Some (goto i unlock (hold n (set_available av_new s)))
      else Some (goto i (A_load2 n) s)
  | A_notify => goto i unlock <$> notify_one j s
  | A_check n => if m_available s <? 0 then Some (goto i (A_wait n) s) else Some (goto i unlock (hold n s))
  | A_wait n => Some (goto i (A_sleep n) (set_mtx None s))
  | A_wake n => lock i (A_check n) s
  | _ => None
  end.

(** [release_impl]. *)
Definition release_step (i : nat) (p : pc) (s : state) : option state :=
  match p with
  | R_load n => Some (goto i (R_cas n (m_available s)) s)
  | R_cas n av =>
      let av_new := i32 (av + n) in
      if (av <? 0) && (0 <=? av_new) then Some (goto i (R_lock n) s)
      else if m_available s =? av then Some (goto i idle (set_available av_new s))
      else Some (goto i (R_load n) s)
  | R_lock n => lock i (R_load2 n) s
  | R_load2 n => Some (goto i (R_cas2 n (m_available s)) s)
  | R_cas2 n av =>
      if m_available s =? av then Some (goto i R_notify (set_available (i32 (av + n)) s))
      else Some (goto i (R_load2 n) s)
  | R_notify => Some (goto i unlock (notify_all s))
  | _ => None
  end.

(** The two [wait_for_not_full]. *)
Definition wait_step (i : nat) (p : pc) (s : state) : option state :=
  match p with
  | W_load t => if m_available s =? max_size then Some (goto i (W_lock t) s) else Some (goto i idle s)
  | W_lock t => lock i (W_check t) s
  | W_check t => if m_available s =? max_size then Some (goto i (W_wait t) s) else Some (goto i unlock s)
  | W_wait t => Some (goto i (W_sleep t) (set_mtx None s))
  | W_wake t => lock i (W_check t) s
  | W_timeout => lock i unlock s
  | _ => None
  end.

Definition thread_step (i j : nat) (s : state) : option state :=
  match threads s !! i with
  | Some unlock => Some (goto i idle (set_mtx None s))
  | Some p =>
      match acquire_step i j p s with
      | Some s' => Some s'
      | None => match release_step i p s with Some s' => Some s' | None => wait_step i p s end
      end
  | None => None
  end.

(** A sleeping thread wakes up without a notification, or its time is up. *)
Definition spurious (i : nat) (s : state) : option state :=
  match threads s !! i with
  | Some p => if sleeping p then Some (goto i (wake p) s) else None
  | None => None
  end.
Definition time_out (i : nat) (s : state) : option state :=
  match threads s !! i with Some (W_sleep true) => Some (goto i W_timeout s) | _ => None end.

Inductive move : state → state → Prop :=
  | move_acquire i n s s' : call_acquire i n s = Some s' → move s s'
  | move_release i n s s' : call_release i n s = Some s' → move s s'
  | move_wait i t s s' : call_wait_for_not_full i t s = Some s' → move s s'
  | move_step i j s s' : thread_step i j s = Some s' → move s s'
  | move_spurious i s s' : spurious i s = Some s' → move s s'
  | move_timeout i s s' : time_out i s = Some s' → move s s'.

(** ** The invariant *)

(** The bytes an acquisition that still waits has taken, and the bytes a
    release has not given back yet. *)
Definition reserved (p : pc) : Z :=
  match p with A_check n | A_wait n | A_sleep n | A_wake n => n | _ => 0 end.
Definition releasing (p : pc) : Z :=
  match p with R_load n | R_cas n _ | R_lock n | R_load2 n | R_cas2 n _ => n | _ => 0 end.

Definition holds (p : pc) : bool :=
  match p with
  | A_load2 _ | A_cas2 _ _ | A_notify | A_check _ | A_wait _ | R_load2 _ | R_cas2 _ _ | R_notify
  | W_check _ | W_wait _ | unlock => true
  | _ => false
  end.

(** The arguments of a thread, and what it relies on between two steps. *)
Definition args_ok (low : Z) (p : pc) : Prop :=
  match p with
  | A_load n | A_lock n | A_load2 n | A_check n | A_wait n | A_sleep n | A_wake n
  | R_load n | R_lock n | R_load2 n => 0 <= n <= max_size
  | A_cas n av | A_cas2 n av | R_cas n av | R_cas2 n av => 0 <= n <= max_size ∧ low <= av <= max_size
  | _ => True
  end.
Definition relies (av : Z) (p : pc) : Prop :=
  match p with
  | A_wait _ => av < 0
  | A_notify => 0 <= av
  | W_wait _ => av = max_size
  | _ => True
  end.

Definition low (s : state) : Z := - zlen (threads s) * max_size.

Record inv (s : state) : Prop := {
  i_av : m_available s = max_size - g_held s - zsum reserved (threads s) - zsum releasing (threads s);
  i_held : 0 <= g_held s ∧ g_held s + zsum releasing (threads s) <= max_size;
  i_args : Forall (args_ok (low s)) (threads s);
  i_mtx i p : threads s !! i = Some p → holds p = true ↔ m_mtx s = Some i;
  i_relies i p : threads s !! i = Some p → relies (m_available s) p;
  i_sleep i n : threads s !! i = Some (A_sleep n) → 0 <= m_available s → ∃ j, threads s !! j = Some R_notify;
  i_wsleep i t : threads s !! i = Some (W_sleep t) → m_available s ≠ max_size → ∃ j, threads s !! j = Some A_notify;
  i_one i j p q : threads s !! i = Some p → threads s !! j = Some q → in_wait p → in_wait q → i = j
}.

Context (max_pos : 0 <= max_size).

Lemma args_reserved b p : args_ok b p → 0 <= reserved p <= max_size ∧ 0 <= releasing p <= max_size.
Proof. destruct p; simpl; lia. Qed.

Lemma blk_inv_sums s :
  inv s → 0 <= zsum reserved (threads s) <= zlen (threads s) * max_size ∧ 0 <= zsum releasing (threads s).
Proof.
  intros Hs. pose proof (i_args s Hs) as Ha. split_and!.
  - apply zsum_nonneg. eapply Forall_impl; [exact Ha|]. intros p Hp%args_reserved. lia.
  - apply zsum_bound. eapply Forall_impl; [exact Ha|]. intros p Hp%args_reserved. lia.
  - apply zsum_nonneg. eapply Forall_impl; [exact Ha|]. intros p Hp%args_reserved. lia.
Qed.

Lemma avail_bounds s : inv s → low s <= m_available s <= max_size.
Proof.
  intros Hs. pose proof (blk_inv_sums s Hs). pose proof (i_av s Hs). pose proof (i_held s Hs). rewrite /low. lia.
Qed.

(** At most one thread holds the lock. *)
Lemma one_holder s i j p q :
  inv s → threads s !! i = Some p → threads s !! j = Some q → holds p = true → holds q = true → i = j.
Proof.
  intros Hs Hi Hj Hp Hq. apply (i_mtx s Hs i p Hi) in Hp. apply (i_mtx s Hs j q Hj) in Hq. congruence.
Qed.

(** A thread moves from [p] to [p'] and changes the counter, the lock and
    the bytes held. *)
Lemma blk_inv_update s i p p' av' mtx' h' :
  inv s → threads s !! i = Some p →
  (p ≠ R_notify ∧ p ≠ A_notify ∨ ∀ k q, threads s !! k = Some q → sleeping q = false) →
  (mtx' = m_mtx s ∧ holds p' = holds p ∨ m_mtx s = None ∧ mtx' = Some i ∧ holds p' = true ∨
   mtx' = None ∧ holds p = true ∧ holds p' = false) →
  args_ok (low s) p' → relies av' p' →
  (in_wait p' → in_wait p ∨ ∀ k q, threads s !! k = Some q → ¬ in_wait q) →
  av' + h' + reserved p' + releasing p' = m_available s + g_held s + reserved p + releasing p →
  0 <= h' → (h' + releasing p' <= g_held s + releasing p ∨ 0 <= av') →
  (av' = m_available s ∨ holds p = true ∨
   (m_available s < 0 ↔ av' < 0) ∧ (m_available s = max_size → av' = max_size)) →
  (0 <= av' → 0 <= m_available s ∨ p' = R_notify) →
  (av' ≠ max_size → m_available s ≠ max_size ∨ p' = A_notify) →
  (∀ n, p' = A_sleep n → av' < 0) → (∀ t, p' = W_sleep t → av' = max_size) →
  inv {| m_available := av'; m_mtx := mtx'; threads := <[i := p']> (threads s); g_held := h' |}.
Proof.
  intros Hs Hi Hn Hm Hargs Hrel Hw Hsum Hh Hcap Hav Hsl Hws Hsa Hsw.
  pose proof (blk_inv_sums s Hs) as Hsums. pose proof (i_av s Hs) as Eav. pose proof (i_held s Hs) as Eh.
  pose proof (lookup_lt_Some _ _ _ Hi) as Hlt.
  assert (∀ q, threads s !! i = Some q → q = p) as Huniq by congruence.
  assert (low {| m_available := av'; m_mtx := mtx'; threads := <[i := p']> (threads s); g_held := h' |} = low s) as El.
  { by rewrite /low /= /zlen length_insert. }
  split; cbn [m_available m_mtx threads g_held]; try rewrite El.
  - rewrite !(zsum_insert _ _ _ _ _ Hi). lia.
  - rewrite (zsum_insert _ _ _ _ _ Hi). split; [done|]. destruct Hcap as [Hcap|Hcap]; [lia|].
    pose proof (args_reserved _ _ Hargs).
    assert (reserved p <= zsum reserved (threads s)); [|lia].
    eapply zsum_lookup; [|done]. eapply Forall_impl; [apply (i_args s Hs)|]. intros q Hq%args_reserved. lia.
  - apply Forall_insert; [apply (i_args s Hs)|done].
  - intros k q Hk. apply list_lookup_insert_Some in Hk as [(<- & <- & _)|(Hne & Hk)].
    + pose proof (i_mtx s Hs i p Hi) as E. destruct Hm as [[-> ->]|[(E0 & -> & ->)|(-> & E1 & ->)]]; done.
    + pose proof (i_mtx s Hs k q Hk) as E. pose proof (i_mtx s Hs i p Hi) as E1.
      destruct Hm as [[-> _]|[(E0 & -> & _)|(-> & E2 & _)]]; [done| |].
      * rewrite E0 in E. rewrite E. split; [done|congruence].
      * apply E1 in E2. rewrite E2 in E. rewrite E. split; [congruence|done].
  - intros k q Hk. apply list_lookup_insert_Some in Hk as [(<- & <- & _)|(Hne & Hk)]; [done|].
    pose proof (i_relies s Hs k q Hk) as Hq. destruct Hav as [->|[Hp|[G1 G2]]]; [done| |].
    + assert (holds q = false) as Hqf.
      { destruct (holds q) eqn:E; [|done]. by destruct Hne, (one_holder s i k p q Hs). }
      by destruct q.
    + destruct q; simpl in *; try done; lia.
  - intros k n Hk H0. apply list_lookup_insert_Some in Hk as [(<- & -> & _)|(Hne & Hk)].
    + specialize (Hsa n eq_refl). lia.
    + destruct (Hsl H0) as [Hold| ->].
      * destruct (i_sleep s Hs k n Hk Hold) as [j Hj]. exists j.
        destruct Hn as [[Hnr _]|Hn]; [|by specialize (Hn _ _ Hk)].
        rewrite list_lookup_insert_ne; [|done]. intros ->. by apply Hnr, eq_sym, Huniq.
      * exists i. by rewrite list_lookup_insert_eq.
  - intros k t Hk H0. apply list_lookup_insert_Some in Hk as [(<- & -> & _)|(Hne & Hk)].
    + by specialize (Hsw t eq_refl).
    + destruct (Hws H0) as [Hold| ->].
      * destruct (i_wsleep s Hs k t Hk Hold) as [j Hj]. exists j.
        destruct Hn as [[_ Hna]|Hn]; [|by specialize (Hn _ _ Hk)].
        rewrite list_lookup_insert_ne; [|done]. intros ->. by apply Hna, eq_sym, Huniq.
      * exists i. by rewrite list_lookup_insert_eq.
  - intros k l q q' Hk Hl Hq Hq'.
    apply list_lookup_insert_Some in Hk as [(<- & <- & _)|(Hne & Hk)];
      apply list_lookup_insert_Some in Hl as [(<- & <- & _)|(Hne' & Hl)]; try done.
    + destruct (Hw Hq) as [Hp|Hno]; [by eapply (i_one s Hs)|by destruct (Hno l q')].
    + destruct (Hw Hq') as [Hp|Hno]; [by eapply (i_one s Hs)|by destruct (Hno k q)].
    + by eapply (i_one s Hs).
Qed.

Definition in_range (s : state) : Prop := (zlen (threads s) + 2) * max_size < 2 ^ 31.

Lemma sub_in_range s n av :
  in_range s → 0 <= n <= max_size → low s <= av <= max_size → i32 (av - n) = av - n.
Proof.
  rewrite /in_range /low. intros Hr Hn Hav. apply i32_small.
  pose proof (zlen_nonneg (threads s)). nia.
Qed.

Lemma add_in_range s n av :
  in_range s → 0 <= n <= max_size → low s <= av <= max_size → i32 (av + n) = av + n.
Proof.
  rewrite /in_range /low. intros Hr Hn Hav. apply i32_small.
  pose proof (zlen_nonneg (threads s)). nia.
Qed.

(** Solves the side conditions of [blk_inv_update] for a step that is given by
    its result. *)
Ltac side := try done; simpl in *; try (by left); try (by right); try lia; try naive_solver lia.

Lemma blk_inv_acquire s s' i j p :
  in_range s → inv s → threads s !! i = Some p → p ≠ A_notify → acquire_step i j p s = Some s' → inv s'.
Proof.
  intros Hr Hs Hi Hna Hst. pose proof (avail_bounds s Hs) as Hb. pose proof (i_held s Hs) as Hh.
  pose proof (Forall_lookup_1 _ _ _ _ (i_args s Hs) Hi) as Ha. pose proof (i_relies s Hs i p Hi) as Hrel.
  destruct p as [|n|n av|n|n|n av| |n|n|n|n| | | | | | | | | | | | | |]; simpl in Hst; try done; simpl in Ha, Hrel;
    try rewrite (sub_in_range s _ _ Hr (proj1 Ha) (proj2 Ha)) in Hst.
  - injection Hst as <-. apply (blk_inv_update s i _ _ _ _ _ Hs Hi); side.
  - destruct (Z.ltb_spec (av - n) 0), (Z.eqb_spec av max_size); simpl in Hst;
      try (injection Hst as <-; apply (blk_inv_update s i _ _ _ _ _ Hs Hi); side; fail).
    destruct (Z.eqb_spec (m_available s) av) as [E|E]; injection Hst as <-;
      apply (blk_inv_update s i _ _ _ _ _ Hs Hi); side.
  - rewrite /lock in Hst. destruct (m_mtx s) eqn:Em; [done|]. injection Hst as <-.
    apply (blk_inv_update s i _ _ _ _ _ Hs Hi); side.
  - injection Hst as <-. apply (blk_inv_update s i _ _ _ _ _ Hs Hi); side.
  - destruct (Z.eqb_spec (m_available s) av) as [E|E].
    + destruct (Z.ltb_spec (av - n) 0); [|destruct (Z.eqb_spec av max_size)]; injection Hst as <-;
        apply (blk_inv_update s i _ _ _ _ _ Hs Hi); side.
    + injection Hst as <-. apply (blk_inv_update s i _ _ _ _ _ Hs Hi); side.
  - destruct (Z.ltb_spec (m_available s) 0); injection Hst as <-;
      apply (blk_inv_update s i _ _ _ _ _ Hs Hi); side.
  - injection Hst as <-. apply (blk_inv_update s i _ _ _ _ _ Hs Hi); side.
  - rewrite /lock in Hst. destruct (m_mtx s) eqn:Em; [done|]. injection Hst as <-.
    apply (blk_inv_update s i _ _ _ _ _ Hs Hi); side.
Qed.

Lemma blk_inv_release s s' i p :
  in_range s → inv s → threads s !! i = Some p → p ≠ R_notify → release_step i p s = Some s' → inv s'.
Proof.
  intros Hr Hs Hi Hnr Hst. pose proof (avail_bounds s Hs) as Hb. pose proof (i_held s Hs) as Hh.
  pose proof (blk_inv_sums s Hs) as Hsums. pose proof (i_av s Hs) as Hav.
  assert (releasing p <= zsum releasing (threads s)) as Hrp.
  { eapply zsum_lookup; [|done]. eapply Forall_impl; [apply (i_args s Hs)|]. intros q Hq%args_reserved. lia. }
  pose proof (Forall_lookup_1 _ _ _ _ (i_args s Hs) Hi) as Ha.
  destruct p as [| | | | | | | | | | |n|n av|n|n|n av| | | | | | | | |]; simpl in Hst; try done; simpl in Ha, Hrp;
    try rewrite (add_in_range s _ _ Hr (proj1 Ha) (proj2 Ha)) in Hst.
  - injection Hst as <-. apply (blk_inv_update s i _ _ _ _ _ Hs Hi); side.
  - destruct (Z.ltb_spec av 0), (Z.leb_spec 0 (av + n)); simpl in Hst;
      try (injection Hst as <-; apply (blk_inv_update s i _ _ _ _ _ Hs Hi); side; fail);
      (destruct (Z.eqb_spec (m_available s) av) as [E|E]; injection Hst as <-;
      apply (blk_inv_update s i _ _ _ _ _ Hs Hi); side).
  - rewrite /lock in Hst. destruct (m_mtx s) eqn:Em; [done|]. injection Hst as <-.
    apply (blk_inv_update s i _ _ _ _ _ Hs Hi); side.
  - injection Hst as <-. apply (blk_inv_update s i _ _ _ _ _ Hs Hi); side.
  - destruct (Z.eqb_spec (m_available s) av) as [E|E]; injection Hst as <-;
      apply (blk_inv_update s i _ _ _ _ _ Hs Hi); side.
Qed.

Lemma blk_inv_wait s s' i p :
  inv s → threads s !! i = Some p → wait_step i p s = Some s' → inv s'.
Proof.
  intros Hs Hi Hst. pose proof (i_held s Hs) as Hh. pose proof (i_relies s Hs i p Hi) as Hrel.
  destruct p; simpl in Hst; try done; simpl in Hrel;
    try (rewrite /lock in Hst; destruct (m_mtx s) eqn:Em; [done|]);
    try (destruct (Z.eqb_spec (m_available s) max_size) as [E|E]); injection Hst as <-;
    apply (blk_inv_update s i _ _ _ _ _ Hs Hi); side.
Qed.

(** A sleeping thread wakes up; the lock does not change hands. *)
Lemma blk_inv_wake s i p : inv s → threads s !! i = Some p → sleeping p → inv (goto i (wake p) s).
Proof.
  intros Hs Hi Hp. pose proof (i_held s Hs) as Hh.
  pose proof (Forall_lookup_1 _ _ _ _ (i_args s Hs) Hi) as Ha.
  destruct p; simpl in Hp; try done; apply (blk_inv_update s i _ _ _ _ _ Hs Hi); side.
Qed.

(** A notifier that leaves nobody asleep. *)
Lemma blk_inv_notified s i p :
  inv s → threads s !! i = Some p → p = R_notify ∨ p = A_notify →
  (∀ k q, threads s !! k = Some q → sleeping q = false) → inv (goto i unlock s).
Proof.
  intros Hs Hi Hp Hno. pose proof (i_held s Hs) as Hh.
  apply (blk_inv_update s i p _ _ _ _ Hs Hi); destruct Hp as [->| ->]; side.
Qed.

Lemma lookup_notify_all s i q :
  threads (notify_all s) !! i = Some q ↔ ∃ p, threads s !! i = Some p ∧ q = wake p.
Proof. rewrite /= list_lookup_fmap. destruct (threads s !! i); naive_solver. Qed.

Lemma zsum_wake (f : pc → Z) l : (∀ p, f (wake p) = f p) → zsum f (wake <$> l) = zsum f l.
Proof. intros Hf. induction l as [|p l IH]; simpl; [done|]. by rewrite Hf IH. Qed.

Lemma wake_not_sleeping p : sleeping (wake p) = false.
Proof. by destruct p. Qed.

Lemma blk_inv_notify_all s : inv s → inv (notify_all s).
Proof.
  intros Hs. assert (low (notify_all s) = low s) as El by (by rewrite /low /zlen /= length_fmap).
  split; try rewrite El.
  - rewrite /= !zsum_wake; [by intros []..|apply (i_av s Hs)].
  - rewrite /= zsum_wake; [by intros []|apply (i_held s Hs)].
  - apply Forall_fmap. eapply Forall_impl; [apply (i_args s Hs)|]. by intros [].
  - intros i q (p & Hi & ->)%lookup_notify_all. pose proof (i_mtx s Hs i p Hi) as E. by destruct p.
  - intros i q (p & Hi & ->)%lookup_notify_all. pose proof (i_relies s Hs i p Hi) as E. by destruct p.
  - intros i n (p & Hi & E)%lookup_notify_all. pose proof (wake_not_sleeping p) as W. by rewrite -E in W.
  - intros i n (p & Hi & E)%lookup_notify_all. pose proof (wake_not_sleeping p) as W. by rewrite -E in W.
  - intros i j p q (p' & Hi & ->)%lookup_notify_all (q' & Hj & ->)%lookup_notify_all Hp Hq.
    apply (i_one s Hs i j p' q' Hi Hj); [by destruct p'|by destruct q'].
Qed.

Lemma blk_inv_r_notify s i : inv s → threads s !! i = Some R_notify → inv (goto i unlock (notify_all s)).
Proof.
  intros Hs Hi. apply (blk_inv_notified _ _ R_notify); [by apply blk_inv_notify_all| |by left|].
  - apply lookup_notify_all. by exists R_notify.
  - intros k q (p & _ & ->)%lookup_notify_all. apply wake_not_sleeping.
Qed.

(** While a thread is about to call [notify_one], only the one waiter of a
    full semaphore can be asleep. *)
Lemma a_notify_sleepers s i k q :
  inv s → threads s !! i = Some A_notify → threads s !! k = Some q → sleeping q → in_wait q.
Proof.
  intros Hs Hi Hk Hq. destruct q as [| | | | | | | | |n| | | | | | | | | | | | | | |]; try done.
  destruct (i_sleep s Hs k n Hk) as [j Hj]; [apply (i_relies s Hs i _ Hi)|].
  by assert (i = j) as -> by (by apply (one_holder s i j A_notify R_notify)); simplify_eq.
Qed.

Lemma blk_inv_a_notify s s' i j :
  inv s → threads s !! i = Some A_notify → notify_one j s = Some s' → inv (goto i unlock s').
Proof.
  rewrite /notify_one. intros Hs Hi Hn. destruct (threads s !! j) as [p|] eqn:Hj; [|done].
  destruct (sleeping p) eqn:Hp.
  - injection Hn as <-. assert (i ≠ j) as Hne by (intros ->; by simplify_eq).
    apply (blk_inv_notified _ _ A_notify); [by apply blk_inv_wake; rewrite ?Hp| |by right|].
    + by rewrite list_lookup_insert_ne.
    + intros k q Hk. apply list_lookup_insert_Some in Hk as [(<- & <- & _)|(Hjk & Hk)]; [apply wake_not_sleeping|].
      destruct (sleeping q) eqn:Hq; [|done]. destruct Hjk. eapply (i_one s Hs j k p q Hj Hk);
        (eapply (a_notify_sleepers s i); [done..|by rewrite ?Hp ?Hq]).
  - destruct (existsb sleeping (threads s)) eqn:He; [done|]. injection Hn as <-.
    apply (blk_inv_notified _ _ A_notify); [done..|by right|]. intros k q Hk.
    apply not_true_is_false. intros Hq. apply (not_true_iff_false _) in He. apply He, existsb_exists.
    exists q. split; [|done]. apply list_elem_of_In, list_elem_of_lookup. eauto.
Qed.

Lemma existsb_none {A} (f : A → bool) l k q : existsb f l = false → l !! k = Some q → ¬ f q.
Proof.
  intros He Hk Hq. apply not_true_iff_false in He. apply He, existsb_exists. exists q. split; [|by apply Is_true_true].
  apply list_elem_of_In, list_elem_of_lookup. eauto.
Qed.

Lemma thread_step_cases s s' i j :
  thread_step i j s = Some s' →
  ∃ p, threads s !! i = Some p ∧
    (p = unlock ∧ s' = goto i idle (set_mtx None s) ∨
     p = A_notify ∧ (∃ s1, notify_one j s = Some s1 ∧ s' = goto i unlock s1) ∨
     p = R_notify ∧ s' = goto i unlock (notify_all s) ∨
     p ≠ A_notify ∧ acquire_step i j p s = Some s' ∨ p ≠ R_notify ∧ release_step i p s = Some s' ∨
     wait_step i p s = Some s').
Proof.
  rewrite /thread_step. intros Hst. destruct (threads s !! i) as [p|]; [|done]. exists p. split; [done|].
  destruct (decide (p = unlock)) as [->|Hu]; [left; naive_solver|]. right.
  destruct (decide (p = A_notify)) as [->|Ha].
  { left. split; [done|]. simpl in Hst. destruct (notify_one j s) as [s1|]; naive_solver. }
  destruct (decide (p = R_notify)) as [->|Hrn]; [right; left; naive_solver|]. right. right.
  destruct (acquire_step i j p s) eqn:E1, (release_step i p s) eqn:E2; destruct p; naive_solver.
Qed.

Lemma blk_inv_step s s' i j : in_range s → inv s → thread_step i j s = Some s' → inv s'.
Proof.
  intros Hr Hs (p & Hi & Hc)%thread_step_cases. pose proof (i_held s Hs) as Hh.
  destruct Hc as [[-> ->]|[(-> & s1 & Hn & ->)|[[-> ->]|[[Ha Hc]|[[Hrn Hc]|Hc]]]]].
  - apply (blk_inv_update s i _ _ _ _ _ Hs Hi); side.
  - by eapply blk_inv_a_notify.
  - by apply blk_inv_r_notify.
  - by eapply blk_inv_acquire.
  - by eapply blk_inv_release.
  - by eapply blk_inv_wait.
Qed.

Lemma blk_inv_move s s' : in_range s → inv s → move s s' → inv s'.
Proof.
  intros Hr Hs Hm. pose proof (i_held s Hs) as Hh. pose proof (blk_inv_sums s Hs) as Hsm.
  destruct Hm as [i n s s' Hm|i n s s' Hm|i t s s' Hm|i j s s' Hm|i s s' Hm|i s s' Hm].
  - rewrite /call_acquire in Hm. destruct (threads s !! i) as [[]|] eqn:Hi; try done.
    destruct (Z.leb_spec 0 n), (Z.leb_spec n max_size); try done. injection Hm as <-.
    apply (blk_inv_update s i _ _ _ _ _ Hs Hi); side.
  - rewrite /call_release in Hm. destruct (threads s !! i) as [[]|] eqn:Hi; try done.
    destruct (Z.leb_spec 0 n), (Z.leb_spec n (g_held s)); try done. injection Hm as <-.
    apply (blk_inv_update s i _ _ _ _ _ Hs Hi); side.
  - rewrite /call_wait_for_not_full in Hm. destruct (threads s !! i) as [[]|] eqn:Hi; try done.
    destruct (existsb in_wait (threads s)) eqn:He; [done|]. injection Hm as <-.
    apply (blk_inv_update s i _ _ _ _ _ Hs Hi); side. intros _. right. intros k q. by apply existsb_none.
  - by eapply blk_inv_step.
  - rewrite /spurious in Hm. destruct (threads s !! i) as [p|] eqn:Hi; [|done].
    destruct (sleeping p) eqn:Hp; [|done]. injection Hm as <-. apply blk_inv_wake; [done..|by rewrite Hp].
  - rewrite /time_out in Hm. destruct (threads s !! i) as [[]|] eqn:Hi; try done.
    destruct timed; [|done]. injection Hm as <-. apply (blk_inv_update s i _ _ _ _ _ Hs Hi); side.
Qed.

Lemma blk_inv_init n : inv (storage_semaphore n).
Proof.
  assert (∀ (f : pc → Z), f idle = 0 → zsum f (replicate n idle) = 0) as Hz.
  { intros f Hf. apply zsum_zero, Forall_replicate. done. }
  assert (∀ i p, replicate n idle !! i = Some p → p = idle) as Hi by (by intros i p [-> _]%lookup_replicate).
  split; simpl; rewrite ?Hz //; try lia.
  - by apply Forall_replicate.
  - by intros i p ->%Hi.
  - by intros i p ->%Hi.
  - by intros i k ?%Hi.
  - by intros i j p q Hp%Hi Hq%Hi; subst.
Qed.

Lemma wait_step_threads i p s s' : wait_step i p s = Some s' → length (threads s') = length (threads s).
Proof. destruct p; simpl; rewrite /lock; repeat case_match; intros; simplify_eq; by rewrite /= ?length_insert. Qed.
Lemma release_step_threads i p s s' : release_step i p s = Some s' → length (threads s') = length (threads s).
Proof.
  destruct p; simpl; rewrite /lock; repeat case_match; intros; simplify_eq; by rewrite /= ?length_insert ?length_fmap.
Qed.
Lemma acquire_step_threads i j p s s' : acquire_step i j p s = Some s' → length (threads s') = length (threads s).
Proof.
  destruct p; simpl; rewrite /lock /notify_one; repeat case_match; intros; simplify_eq/=; by rewrite ?length_insert.
Qed.

Lemma move_threads s s' : move s s' → length (threads s') = length (threads s).
Proof.
  destruct 1 as [i n s s' Hm|i n s s' Hm|i t s s' Hm|i j s s' Hm|i s s' Hm|i s s' Hm]; revert Hm;
    rewrite /call_acquire /call_release /call_wait_for_not_full /spurious /time_out;
    try (repeat case_match; intros; simplify_eq; by rewrite /= ?length_insert).
  intros (p & Hi & [[-> ->]|[(-> & s1 & Hn & ->)|[[-> ->]|[[Ha Hc]|[[Hrn Hc]|Hc]]]]])%thread_step_cases;
    rewrite /= ?length_insert ?length_fmap; eauto using wait_step_threads, release_step_threads, acquire_step_threads.
  rewrite -(acquire_step_threads i j A_notify s (goto i unlock s1)); [by rewrite /= Hn|by rewrite /= length_insert].
Qed.

(** The states [n] threads can reach. *)
Definition reachable (n : nat) (s : state) : Prop := rtc move (storage_semaphore n) s.

Lemma blk_inv_moves n s s' :
  (Z.of_nat n + 2) * max_size < 2 ^ 31 → length (threads s) = n → inv s → rtc move s s' →
  inv s' ∧ length (threads s') = n.
Proof.
  intros Hr. induction 3 as [|s s1 s2 Hm _ IH]; [done|]. apply IH.
  - by rewrite (move_threads _ _ Hm).
  - eapply blk_inv_move; [|done..]. rewrite /in_range /zlen. by subst n.
Qed.

Lemma blk_inv_reachable n s :
  (Z.of_nat n + 2) * max_size < 2 ^ 31 → reachable n s → inv s ∧ length (threads s) = n.
Proof.
  intros Hr Hs. eapply blk_inv_moves; [done| |apply blk_inv_init|exact Hs]. by rewrite /= length_replicate.
Qed.

(** Executable schedules. *)
Inductive act :=
  | do_acquire (i : nat) (n : Z) | do_release (i : nat) (n : Z) | do_wait (i : nat) (t : bool)
  | run (i : nat) (steps : nat).

Fixpoint run_steps (i steps : nat) (s : state) : option state :=
  match steps with 0%nat => Some s | S k => thread_step i i s ≫= run_steps i k end.
Definition perform (a : act) (s : state) : option state :=
  match a with
  | do_acquire i n => call_acquire i n s
  | do_release i n => call_release i n s
  | do_wait i t => call_wait_for_not_full i t s
  | run i k => run_steps i k s
  end.
Fixpoint schedule (l : list act) (s : state) : option state :=
  match l with [] => Some s | a :: l' => perform a s ≫= schedule l' end.

Lemma perform_moves a s s' : perform a s = Some s' → rtc move s s'.
Proof.
  destruct a as [i n|i n|i t|i k]; simpl; [intros; apply rtc_once; by econstructor..|].
  revert s. induction k as [|k IH]; simpl; intros s.
  - intros [= <-]. constructor.
  - intros (s1 & H1 & H2)%bind_Some. eapply rtc_l; [by eapply move_step|by apply IH].
Qed.
Lemma schedule_moves l s s' : schedule l s = Some s' → rtc move s s'.
Proof.
  revert s. induction l as [|a l IH]; simpl; intros s.
  - intros [= <-]. constructor.
  - intros (s1 & H1%perform_moves & H2)%bind_Some. etrans; [done|by apply IH].
Qed.

(** ** Waiters that ask for too much *)

(** The counter is negative and nobody holds bytes or gives bytes back. *)
Definition exhausted (s : state) : Prop :=
  m_available s < 0 ∧ g_held s = 0 ∧ zsum releasing (threads s) = 0.

(** A thread waits for [b] bytes it has taken. *)
Definition waiting (b : Z) (p : pc) : Prop := p = A_check b ∨ p = A_wait b ∨ p = A_sleep b ∨ p = A_wake b.

Lemma exhausted_releasing s i p : inv s → exhausted s → threads s !! i = Some p → releasing p = 0.
Proof.
  intros Hs (_ & _ & Hz) Hi. pose proof (Forall_lookup_1 _ _ _ _ (i_args s Hs) Hi) as Ha%args_reserved.
  assert (releasing p <= zsum releasing (threads s)); [|lia].
  eapply zsum_lookup; [|done]. eapply Forall_impl; [apply (i_args s Hs)|]. intros q Hq%args_reserved. lia.
Qed.

(** What a move of an exhausted semaphore does to it: the counter stays
    negative, nothing is held or given back, a waiting thread waits on. *)
Definition stuck (s s' : state) : Prop :=
  exhausted s' ∧ ∀ b k p, threads s !! k = Some p → waiting b p → ∃ p', threads s' !! k = Some p' ∧ waiting b p'.

Lemma stuck_update s i p p' av' mtx' :
  inv s → exhausted s → threads s !! i = Some p → av' <= m_available s → releasing p' = 0 →
  (∀ b, waiting b p → waiting b p') →
  stuck s {| m_available := av'; m_mtx := mtx'; threads := <[i := p']> (threads s); g_held := g_held s |}.
Proof.
  intros Hs He Hi Hav Hp' Hw. pose proof (exhausted_releasing s i p Hs He Hi) as Hp.
  destruct He as (H1 & H2 & H3). split.
  - split_and!; simpl; [lia|done|]. rewrite (zsum_insert _ _ _ _ _ Hi). lia.
  - intros b k q Hk Hq. simpl. destruct (decide (k = i)) as [->|Hne].
    + simplify_eq. exists p'. split; [|by apply Hw]. apply list_lookup_insert_eq. by eapply lookup_lt_Some.
    + exists q. by rewrite list_lookup_insert_ne.
Qed.

Lemma stuck_refl s : exhausted s → stuck s s.
Proof. split; eauto. Qed.
Lemma stuck_trans s1 s2 s3 : stuck s1 s2 → stuck s2 s3 → stuck s1 s3.
Proof. intros [_ H1] [H2 H3]. split; [done|]. intros b k p Hk Hp. destruct (H1 b k p Hk Hp) as (q & Hq & ?). eauto. Qed.

Lemma waiting_wake b p : waiting b p → waiting b (wake p).
Proof. rewrite /waiting. by intros [->|[->|[->| ->]]]; simpl; auto. Qed.

Lemma stuck_notify_all s : exhausted s → stuck s (notify_all s).
Proof.
  intros (H1 & H2 & H3). split; [split_and!; [done..|]; rewrite /= zsum_wake; [by intros []|done]|].
  intros b k p Hk Hp. exists (wake p). split; [apply lookup_notify_all; eauto|by apply waiting_wake].
Qed.

Lemma exhausted_notify_one s s' j : inv s → exhausted s → notify_one j s = Some s' → stuck s s'.
Proof.
  rewrite /notify_one. intros Hs He Hn. destruct (threads s !! j) as [p|] eqn:Hj; [|done].
  destruct (sleeping p) eqn:Hp; [|destruct (existsb _ _); [done|]]; injection Hn as <-; [|by apply stuck_refl].
  apply (stuck_update s j p); try done; [destruct p; by simplify_eq/=|intros b; apply waiting_wake].
Qed.

(** Solves the side conditions of [stuck_update] for a step that is given by
    its result. *)
Ltac stays := try done; simpl in *; try lia; try (intros ?; rewrite /waiting; naive_solver).

Ltac to_props :=
  repeat match goal with
  | H : (_ <? _) = true |- _ => apply Z.ltb_lt in H
  | H : (_ <? _) = false |- _ => apply Z.ltb_ge in H
  | H : (_ =? _) = true |- _ => apply Z.eqb_eq in H
  | H : (_ =? _) = false |- _ => apply Z.eqb_neq in H
  | H : _ || _ = false |- _ => apply orb_false_iff in H as [??]
  end.

Lemma stuck_acquire s s' i j p :
  in_range s → inv s → exhausted s → threads s !! i = Some p → p ≠ A_notify → acquire_step i j p s = Some s' →
  stuck s s'.
Proof.
  intros Hr Hs He Hi Hna Hst. pose proof (proj1 He) as Hneg.
  pose proof (Forall_lookup_1 _ _ _ _ (i_args s Hs) Hi) as Ha.
  destruct p as [|n|n av|n|n|n av| |n|n|n|n| | | | | | | | | | | | | |]; simpl in Hst; try done; simpl in Ha;
    try rewrite (sub_in_range s _ _ Hr (proj1 Ha) (proj2 Ha)) in Hst;
    rewrite /lock in Hst; repeat case_match; try done; to_props; try lia;
    injection Hst as <-; apply (stuck_update s i _ _ _ _ Hs He Hi); stays.
Qed.

Lemma stuck_release s s' i p :
  in_range s → inv s → exhausted s → threads s !! i = Some p → p ≠ R_notify → release_step i p s = Some s' →
  stuck s s'.
Proof.
  intros Hr Hs He Hi Hna Hst. pose proof (exhausted_releasing s i p Hs He Hi) as Hz.
  pose proof (Forall_lookup_1 _ _ _ _ (i_args s Hs) Hi) as Ha.
  destruct p as [| | | | | | | | | | |n|n av|n|n|n av| | | | | | | | |]; simpl in Hst; try done; simpl in Ha, Hz;
    try rewrite (add_in_range s _ _ Hr (proj1 Ha) (proj2 Ha)) in Hst;
    rewrite /lock in Hst; repeat case_match; try done; to_props; injection Hst as <-; apply (stuck_update s i _ _ _ _ Hs He Hi); stays.
Qed.

Lemma stuck_wait s s' i p :
  inv s → exhausted s → threads s !! i = Some p → wait_step i p s = Some s' → stuck s s'.
Proof.
  intros Hs He Hi Hst. destruct p; simpl in Hst; try done;
    rewrite /lock in Hst; repeat case_match; try done; injection Hst as <-;
    apply (stuck_update s i _ _ _ _ Hs He Hi); stays.
Qed.

Lemma stuck_step s s' i j : in_range s → inv s → exhausted s → thread_step i j s = Some s' → stuck s s'.
Proof.
  intros Hr Hs He (p & Hi & Hc)%thread_step_cases.
  destruct Hc as [[-> ->]|[(-> & s1 & Hn & ->)|[[-> ->]|[[Ha Hc]|[[Hrn Hc]|Hc]]]]].
  - apply (stuck_update s i _ _ _ _ Hs He Hi); stays.
  - pose proof (i_relies s Hs i _ Hi) as Hrel. destruct He as [He _]. simpl in Hrel. lia.
  - eapply stuck_trans; [by apply stuck_notify_all|].
    eapply (stuck_update (notify_all s) i R_notify); try done; [by apply blk_inv_notify_all|by apply stuck_notify_all| |].
    + apply lookup_notify_all. by exists R_notify.
    + rewrite /waiting. naive_solver.
  - by eapply stuck_acquire.
  - by eapply stuck_release.
  - by eapply stuck_wait.
Qed.

Lemma stuck_move s s' : in_range s → inv s → exhausted s → move s s' → stuck s s'.
Proof.
  intros Hr Hs He Hm. destruct Hm as [i n s s' Hm|i n s s' Hm|i t s s' Hm|i j s s' Hm|i s s' Hm|i s s' Hm].
  - rewrite /call_acquire in Hm. destruct (threads s !! i) as [[]|] eqn:Hi; try done.
    case_match; [|done]. injection Hm as <-. apply (stuck_update s i _ _ _ _ Hs He Hi); stays.
  - rewrite /call_release in Hm. destruct (threads s !! i) as [[]|] eqn:Hi; try done.
    destruct (Z.leb_spec 0 n), (Z.leb_spec n (g_held s)); try done. injection Hm as <-.
    pose proof (proj1 (proj2 He)) as Hg. rewrite /goto /hold /= (_ : g_held s + - n = g_held s); [lia|].
    apply (stuck_update s i _ _ _ _ Hs He Hi); stays.
  - rewrite /call_wait_for_not_full in Hm. destruct (threads s !! i) as [[]|] eqn:Hi; try done.
    case_match; [done|]. injection Hm as <-. apply (stuck_update s i _ _ _ _ Hs He Hi); stays.
  - by eapply stuck_step.
  - rewrite /spurious in Hm. destruct (threads s !! i) as [p|] eqn:Hi; [|done].
    destruct (sleeping p) eqn:Hp; [|done]. injection Hm as <-.
    apply (stuck_update s i _ _ _ _ Hs He Hi); try done; [destruct p; by simplify_eq/=|intros b; apply waiting_wake].
  - rewrite /time_out in Hm. destruct (threads s !! i) as [[]|] eqn:Hi; try done.
    destruct timed; [|done]. injection Hm as <-. apply (stuck_update s i _ _ _ _ Hs He Hi); stays.
Qed.

Lemma stuck_moves n s s' :
  (Z.of_nat n + 2) * max_size < 2 ^ 31 → length (threads s) = n → inv s → exhausted s → rtc move s s' → stuck s s'.
Proof.
  intros Hr Hl Hs He. induction 1 as [s|s s1 s2 Hm Hrt IH]; [by apply stuck_refl|].
  assert (in_range s) as Hir by (rewrite /in_range /zlen; by subst n).
  pose proof (stuck_move s s1 Hir Hs He Hm) as Hst. eapply stuck_trans; [done|].
  apply IH; [by rewrite (move_threads _ _ Hm)|by eapply blk_inv_move|apply Hst].
Qed.

(** ** Surplus releases

    Nothing stops a caller from releasing more than was acquired, and the
    client socket does ([release_storage] gives back at least one chunk per
    acknowledgement, also for an acknowledgement of nothing new).  The states
    with such releases: [extra] counts the bytes that were released beyond
    those held, so that [g_held s + extra] bytes are held. *)

Inductive reachable_extra (n : nat) : Z → state → Prop :=
  | extra_start : reachable_extra n 0 (storage_semaphore n)
  | extra_move extra s s' : reachable_extra n extra s → move s s' → reachable_extra n extra s'
  | extra_release extra s i m :
      reachable_extra n extra s → threads s !! i = Some idle → 0 <= m <= max_size →
      reachable_extra n (extra + Z.max 0 (m - (g_held s + extra))) (goto i (R_load m) (hold (- m) s)).

Lemma reachable_no_extra n s : reachable n s → reachable_extra n 0 s.
Proof.
  intros Hr. assert (reachable_extra n 0 (storage_semaphore n)) as H0 by constructor.
  rewrite /reachable in Hr. induction Hr as [|s0 s1 s2 Hm _ IH]; [done|]. apply IH. by eapply extra_move.
Qed.

(** The arguments of a thread, with counters up to [max_size + extra]. *)
Definition args_extra (extra low : Z) (p : pc) : Prop :=
  match p with
  | A_load n | A_lock n | A_load2 n | A_check n | A_wait n | A_sleep n | A_wake n
  | R_load n | R_lock n | R_load2 n => 0 <= n <= max_size
  | A_cas n av | A_cas2 n av | R_cas n av | R_cas2 n av => 0 <= n <= max_size ∧ low <= av <= max_size + extra
  | _ => True
  end.

Record accounts (extra : Z) (s : state) : Prop := {
  x_av : m_available s = max_size - g_held s - zsum reserved (threads s) - zsum releasing (threads s);
  x_held : 0 <= extra ∧ 0 <= g_held s + extra ∧ g_held s + zsum releasing (threads s) <= max_size;
  x_args : Forall (args_extra extra (low s)) (threads s)
}.

Lemma args_extra_bounds e b p : args_extra e b p → 0 <= reserved p <= max_size ∧ 0 <= releasing p <= max_size.
Proof. destruct p; simpl; lia. Qed.

Lemma accounts_sums e s :
  accounts e s → 0 <= zsum reserved (threads s) <= zlen (threads s) * max_size ∧ 0 <= zsum releasing (threads s).
Proof.
  intros Hs. pose proof (x_args e s Hs) as Ha. split_and!.
  - apply zsum_nonneg. eapply Forall_impl; [exact Ha|]. intros p Hp%args_extra_bounds. lia.
  - apply zsum_bound. eapply Forall_impl; [exact Ha|]. intros p Hp%args_extra_bounds. lia.
  - apply zsum_nonneg. eapply Forall_impl; [exact Ha|]. intros p Hp%args_extra_bounds. lia.
Qed.

Lemma accounts_bounds e s : accounts e s → low s <= m_available s <= max_size + e.
Proof.
  intros Hs. pose proof (accounts_sums e s Hs). pose proof (x_av e s Hs). pose proof (x_held e s Hs). rewrite /low. lia.
Qed.

(** A thread moves from [p] to [p']. *)
Lemma accounts_update e e' s i p p' av' mtx' h' :
  accounts e s → threads s !! i = Some p → e <= e' → args_extra e' (low s) p' →
  av' + h' + reserved p' + releasing p' = m_available s + g_held s + reserved p + releasing p →
  0 <= h' + e' → (h' + releasing p' <= g_held s + releasing p ∨ 0 <= av') →
  accounts e' {| m_available := av'; m_mtx := mtx'; threads := <[i := p']> (threads s); g_held := h' |}.
Proof.
  intros Hs Hi He Hargs Hsum Hh Hcap.
  pose proof (accounts_sums e s Hs) as Hsums. pose proof (x_av e s Hs) as Eav. pose proof (x_held e s Hs) as Eh.
  assert (low {| m_available := av'; m_mtx := mtx'; threads := <[i := p']> (threads s); g_held := h' |} = low s) as El.
  { by rewrite /low /= /zlen length_insert. }
  split; cbn [m_available threads g_held]; try rewrite El.
  - rewrite !(zsum_insert _ _ _ _ _ Hi). lia.
  - rewrite (zsum_insert _ _ _ _ _ Hi). split_and!; [lia|done|]. destruct Hcap as [Hcap|Hcap]; [lia|].
    pose proof (args_extra_bounds _ _ _ Hargs).
    assert (reserved p <= zsum reserved (threads s)); [|lia].
    eapply zsum_lookup; [|done]. eapply Forall_impl; [apply (x_args e s Hs)|]. intros q Hq%args_extra_bounds. lia.
  - apply Forall_insert; [|done]. eapply Forall_impl; [apply (x_args e s Hs)|]. intros []; simpl; lia.
Qed.

Lemma accounts_notify_all e s : accounts e s → accounts e (notify_all s).
Proof.
  intros Hs. assert (low (notify_all s) = low s) as El by (by rewrite /low /zlen /= length_fmap).
  split; try rewrite El.
  - rewrite /= !zsum_wake; [by intros []..|apply (x_av e s Hs)].
  - rewrite /= zsum_wake; [by intros []|apply (x_held e s Hs)].
  - apply Forall_fmap. eapply Forall_impl; [apply (x_args e s Hs)|]. by intros [].
Qed.

Lemma accounts_wake e s i p : accounts e s → threads s !! i = Some p → accounts e (goto i (wake p) s).
Proof.
  intros Hs Hi. pose proof (x_held e s Hs) as Hh. pose proof (Forall_lookup_1 _ _ _ _ (x_args e s Hs) Hi) as Ha.
  destruct p; apply (accounts_update e e s i _ _ _ _ _ Hs Hi); side.
Qed.

Definition in_range_extra (e : Z) (s : state) : Prop := (zlen (threads s) + 2) * max_size + e < 2 ^ 31.

(** No 32-bit operation wraps. *)
Lemma extra_in_range e s n av :
  in_range_extra e s → 0 <= e → 0 <= n <= max_size ∧ low s <= av <= max_size + e →
  i32 (av - n) = av - n ∧ i32 (av + n) = av + n.
Proof.
  rewrite /in_range_extra /low. intros Hr He [Hn Hav]. pose proof (zlen_nonneg (threads s)).
  split; apply i32_small; nia.
Qed.

(** The branches of a step, with their conditions. *)
Ltac step_cases H :=
  rewrite /lock in H;
  repeat match type of H with
  | context [?a <? ?b] => destruct (Z.ltb_spec a b)
  | context [?a <=? ?b] => destruct (Z.leb_spec a b)
  | context [?a =? ?b] => destruct (Z.eqb_spec a b)
  | context [match m_mtx ?s with _ => _ end] => destruct (m_mtx s)
  end; simpl in H; try done; injection H as <-.

Lemma accounts_step e s s' i j : in_range_extra e s → accounts e s → thread_step i j s = Some s' → accounts e s'.
Proof.
  intros Hr Hs (p & Hi & Hc)%thread_step_cases. pose proof (x_held e s Hs) as Hh.
  pose proof (accounts_bounds e s Hs) as Hb. pose proof (accounts_sums e s Hs) as Hsm. pose proof (x_av e s Hs) as Hav.
  pose proof (Forall_lookup_1 _ _ _ _ (x_args e s Hs) Hi) as Ha.
  assert (releasing p <= zsum releasing (threads s)) as Hrp.
  { eapply zsum_lookup; [|done]. eapply Forall_impl; [apply (x_args e s Hs)|]. intros q Hq%args_extra_bounds. lia. }
  destruct Hc as [[-> ->]|[(-> & s1 & Hn & ->)|[[-> ->]|[[Hp Hc]|[[Hp Hc]|Hc]]]]].
  - apply (accounts_update e e s i _ _ _ _ _ Hs Hi); side.
  - rewrite /notify_one in Hn. destruct (threads s !! j) as [q|] eqn:Hj; [|done].
    destruct (sleeping q) eqn:Hq; [|destruct (existsb sleeping (threads s)); [done|]]; injection Hn as <-.
    + assert (i ≠ j) as Hne by (intros ->; by simplify_eq).
      apply (accounts_update e e _ i A_notify _ _ _ _ (accounts_wake e s j q Hs Hj)); side.
      by rewrite list_lookup_insert_ne.
    + apply (accounts_update e e s i _ _ _ _ _ Hs Hi); side.
  - apply (accounts_update e e _ i R_notify _ _ _ _ (accounts_notify_all e s Hs)); side.
    apply lookup_notify_all. by exists R_notify.
  - destruct p as [|n|n av|n|n|n av| |n|n|n|n| | | | | | | | | | | | | |]; simpl in Hc; try done; simpl in Ha;
      try rewrite (proj1 (extra_in_range e s _ _ Hr (proj1 Hh) Ha)) in Hc;
      step_cases Hc; apply (accounts_update e e s i _ _ _ _ _ Hs Hi); side.
  - destruct p as [| | | | | | | | | | |n|n av|n|n|n av| | | | | | | | |]; simpl in Hc; try done; simpl in Ha, Hrp;
      try rewrite (proj2 (extra_in_range e s _ _ Hr (proj1 Hh) Ha)) in Hc;
      step_cases Hc; apply (accounts_update e e s i _ _ _ _ _ Hs Hi); side.
  - destruct p; simpl in Hc; try done; step_cases Hc; apply (accounts_update e e s i _ _ _ _ _ Hs Hi); side.
Qed.

Lemma accounts_move e s s' : in_range_extra e s → accounts e s → move s s' → accounts e s'.
Proof.
  intros Hr Hs Hm. pose proof (x_held e s Hs) as Hh.
  destruct Hm as [i n s s' Hm|i n s s' Hm|i t s s' Hm|i j s s' Hm|i s s' Hm|i s s' Hm].
  - rewrite /call_acquire in Hm. destruct (threads s !! i) as [[]|] eqn:Hi; try done.
    destruct (Z.leb_spec 0 n), (Z.leb_spec n max_size); try done. injection Hm as <-.
    apply (accounts_update e e s i _ _ _ _ _ Hs Hi); side.
  - rewrite /call_release in Hm. destruct (threads s !! i) as [[]|] eqn:Hi; try done.
    pose proof (accounts_sums e s Hs).
    destruct (Z.leb_spec 0 n), (Z.leb_spec n (g_held s)); try done. injection Hm as <-.
    apply (accounts_update e e s i _ _ _ _ _ Hs Hi); side.
  - rewrite /call_wait_for_not_full in Hm. destruct (threads s !! i) as [[]|] eqn:Hi; try done.
    destruct (existsb in_wait (threads s)) eqn:He; [done|]. injection Hm as <-.
    apply (accounts_update e e s i _ _ _ _ _ Hs Hi); side.
  - by eapply accounts_step.
  - rewrite /spurious in Hm. destruct (threads s !! i) as [p|] eqn:Hi; [|done].
    destruct (sleeping p) eqn:Hp; [|done]. injection Hm as <-. by apply accounts_wake.
  - rewrite /time_out in Hm. destruct (threads s !! i) as [[]|] eqn:Hi; try done.
    destruct timed; [|done]. injection Hm as <-. apply (accounts_update e e s i _ _ _ _ _ Hs Hi); side.
Qed.

Lemma accounts_reachable n e s :
  reachable_extra n e s → (Z.of_nat n + 2) * max_size + e < 2 ^ 31 → accounts e s ∧ length (threads s) = n.
Proof.
  induction 1 as [|e s s' _ IH Hm|e s i m _ IH Hi Hm0]; intros Hr.
  - pose proof (blk_inv_init n) as Hi. split; [|by rewrite /= length_replicate]. split; [apply Hi| |].
    + destruct (i_held _ Hi). simpl in *. lia.
    + eapply Forall_impl; [apply (i_args _ Hi)|]. intros []; simpl; lia.
  - destruct (IH Hr) as [Hs Hl]. split; [|by rewrite (move_threads _ _ Hm)].
    eapply accounts_move; [|done..]. rewrite /in_range_extra /zlen. by subst n.
  - destruct IH as [Hs Hl]; [lia|]. split; [|by rewrite /= length_insert].
    pose proof (x_held e s Hs). apply (accounts_update e _ s i _ _ _ _ _ Hs Hi); side.
Qed.

(** ** Theorems *)

(** C26: The blocking semaphore counts exactly.  In every state [n] threads
    can reach in which releases have given back [extra] bytes beyond those
    held, as long as [(n + 2) * max_size + extra] stays below 2^31: the bytes
    of acquisitions that returned and are not released
    ([g_held s + extra]) are at most [max_size + extra], so that without
    surplus releases the semaphore never over-commits and with them it
    over-commits by at most the surplus; the counter is [max_size + extra]
    less these bytes, less the bytes of the acquisitions that still wait, less
    the bytes of releases under way; it stays between [- n * max_size] and
    [max_size + extra], and no 32-bit operation wraps. *)
Theorem blocking_semaphore_bounds n extra s :
  (Z.of_nat n + 2) * max_size + extra < 2 ^ 31 → reachable_extra n extra s →
  0 <= g_held s + extra <= max_size + extra ∧
  m_available s = max_size + extra - (g_held s + extra) - zsum reserved (threads s) - zsum releasing (threads s) ∧
  - Z.of_nat n * max_size <= m_available s <= max_size + extra ∧
  (Forall (λ p, p = idle) (threads s) → m_available s = max_size + extra - (g_held s + extra)) ∧
  Forall (λ p, match p with
    | A_cas b av | A_cas2 b av => i32 (av - b) = av - b
    | R_cas b av | R_cas2 b av => i32 (av + b) = av + b
    | _ => True
    end) (threads s).
Proof.
  intros Hr Hs. destruct (accounts_reachable n extra s Hs Hr) as [Hi Hl].
  pose proof (x_av extra s Hi) as Hav. pose proof (x_held extra s Hi) as Hh. pose proof (accounts_sums extra s Hi) as Hsm.
  pose proof (accounts_bounds extra s Hi) as Hb. rewrite /low /zlen Hl in Hb. split_and!; try lia.
  - intros Hidle. rewrite !zsum_zero in Hav; [eapply Forall_impl; [exact Hidle|]; by intros p ->..|lia].
  - assert (in_range_extra extra s) as Hrx by (rewrite /in_range_extra /zlen Hl; lia).
    eapply Forall_impl; [apply (x_args extra s Hi)|]. intros []; simpl; try done;
      intros Hq; by destruct (extra_in_range extra s _ _ Hrx (proj1 Hh) Hq).
Qed.


(** What waiting acquisitions come to when everything has been given
    back.  If together they want at most [max_size] bytes, each sleeper is
    being woken.  If they want more, none of them ever returns, whatever
    the threads do: they have taken their bytes before they wait, so two
    waiting senders can block each other for good. *)
Theorem blocking_semaphore_waiters n s :
  (Z.of_nat n + 2) * max_size < 2 ^ 31 → reachable n s → g_held s = 0 → zsum releasing (threads s) = 0 →
  (zsum reserved (threads s) <= max_size →
     ∀ i b, threads s !! i = Some (A_sleep b) → ∃ j, threads s !! j = Some R_notify) ∧
  (max_size < zsum reserved (threads s) →
     ∀ s' i b p, rtc move s s' → threads s !! i = Some p → waiting b p →
       ∃ p', threads s' !! i = Some p' ∧ waiting b p').
Proof.
  intros Hr Hs Hh Hz. destruct (blk_inv_reachable n s Hr Hs) as [Hi Hl]. pose proof (i_av s Hi) as Hav. split.
  - intros Hle i b Hb. apply (i_sleep s Hi i b Hb). lia.
  - intros Hlt s' i b p Hm Hp Hw. apply (stuck_moves n s s' Hr Hl Hi) with p; [|done..]. split_and!; [lia|done..].
Qed.
End blocking.

(** ** Witnesses *)

(** Thread 0 takes all ten bytes, thread 1 asks for ten more and sleeps,
    thread 0 gives its bytes back and is about to notify. *)
Definition handover_trace : list act :=
  [do_acquire 0 10; run 0 7; do_acquire 1 10; run 1 7; do_release 0 10; run 0 5].
Definition handover : state :=
  {| m_available := 0; m_mtx := Some 0%nat; threads := [R_notify; A_sleep 10]; g_held := 0 |}.
Lemma handover_reachable : reachable 10 2 handover.
Proof. apply (schedule_moves 10 handover_trace). by vm_compute. Qed.

(** Two threads wait for ten bytes each while a third gives ten back. *)
Definition deadlock_trace : list act :=
  [do_acquire 0 10; run 0 7; do_acquire 1 10; run 1 7; do_acquire 2 10; run 2 7; do_release 0 10; run 0 2].
Definition deadlock : state :=
  {| m_available := -10; m_mtx := None; threads := [idle; A_sleep 10; A_sleep 10]; g_held := 0 |}.
Lemma deadlock_reachable : reachable 10 3 deadlock.
Proof. apply (schedule_moves 10 deadlock_trace). by vm_compute. Qed.

(** Nothing was acquired and five bytes are released. *)
Definition surplus : state :=
  {| m_available := 10; m_mtx := None; threads := [R_load 5; idle]; g_held := -5 |}.
Lemma surplus_reachable : reachable_extra 10 2 5 surplus.
Proof. apply (extra_release 10 2 0 (storage_semaphore 10 2) 0 5 (extra_start 10 2)); [done|lia]. Qed.

Lemma blocking_semaphore_bounds_witness :
  m_available handover = 10 + 0 - (g_held handover + 0) - zsum reserved (threads handover) - zsum releasing (threads handover) ∧
  g_held surplus + 5 <= 10 + 5.
Proof.
  split.
  - refine (proj1 (proj2 (blocking_semaphore_bounds 10 _ 2 0 handover _ (reachable_no_extra 10 2 _ handover_reachable)))); done.
  - refine (proj2 (proj1 (blocking_semaphore_bounds 10 _ 2 5 surplus _ surplus_reachable))); done.
Defined.


(** Even another acquisition does not help. *)
Definition deadlock_later : state :=
  {| m_available := -15; m_mtx := None; threads := [A_sleep 5; A_sleep 10; A_sleep 10]; g_held := 0 |}.
Lemma deadlock_later_moves : rtc (move 10) deadlock deadlock_later.
Proof. apply (schedule_moves 10 [do_acquire 0 5; run 0 7]). by vm_compute. Qed.

Lemma blocking_semaphore_waiters_witness :
  ∃ p', threads deadlock_later !! 1%nat = Some p' ∧ waiting 10 p'.
Proof.
  refine (proj2 (blocking_semaphore_waiters 10 _ 3 deadlock _ deadlock_reachable _ _) _ deadlock_later 1%nat 10
    (A_sleep 10) deadlock_later_moves _ _);
    first [done | by vm_compute | rewrite /waiting; auto].
Defined.
End blocking.
