(* ===== verification/TechModule.v ===== *)
(** * Technology modules

    [middleware::tech_module] ([tech_module.cpp]): the worker thread that
    owns a module instance, its queue of requests, the table of joined
    groups and the calls it makes into the module.  The module itself is
    foreign code behind a table of C functions; its answers are parameters
    and the calls into it are recorded. *)

From stdpp Require Import sorting.
From S2P Require Import Prelude Uri Message UriMappings.

(** An [abstract_socket::ptr], by its session and its socket id. *)
Abbreviation sock := (Z * Z)%type.

(** [send_job]; the object is shared by the queues it was put into, so it
    has an identity. *)
Record send_job := {
  sj_id : nat;
  sj_msg : message;
  sj_receiver : uri;
  sj_ttl : Z;
  sj_client : Z
}.

(** The answers of the module: [hc_map] returns a string, an object or
    neither; [hc_join] and [hc_leave] return a status. *)
Record module_fns := {
  map_fun : uri → option bytes * option uri;
  join_fun : uri → Z;
  leave_fun : uri → Z
}.

Definition HC_SUCCESS : Z := 0.

(** The calls into the module. *)
Inductive module_call :=
  | Call_join (u : uri)
  | Call_leave (u : uri)
  | Call_sendto (content : option bytes) (content_size ttl : Z) (receiver : uri)
  | Call_delete_instance.

(** [tm_msg]. *)
Inductive tm_msg :=
  | mapping_lookup_t (req_uri : uri)
  | send_job_t (j : send_job)
  | join_t (req_uri : uri) (who : sock)
  | leave_t (req_uri : uri) (who : sock)
  | leave_all_t (who : sock)
  | kill_t.

(** What processing a message does for others: it sets a future, or
    releases its reference to a job. *)
Inductive tm_reply :=
  | Set_uri (u : uri)
  | Set_bool (b : bool)
  | Released (j : send_job).

(** An element of [m_joins]: its key, [element.first] and the sockets. *)
Record join_entry := {
  je_key : uri;
  je_first : uri;
  je_socks : list sock
}.

Record tech_module := {
  tm_id : Z;
  tm_atomic_msg_size : Z;
  tm_sdr : gmap bytes bytes;
  tm_mappings : uri_mappings;
  tm_queue : list tm_msg;
  tm_joins : gmap bytes join_entry;
  tm_fjoins : gmap bytes uri;
  tm_calls : list module_call;
  tm_running : bool
}.

Definition tm_set_atomic n s := {| tm_id := tm_id s; tm_atomic_msg_size := n; tm_sdr := tm_sdr s;
  tm_mappings := tm_mappings s; tm_queue := tm_queue s; tm_joins := tm_joins s;
  tm_fjoins := tm_fjoins s; tm_calls := tm_calls s; tm_running := tm_running s |}.
Definition tm_set_mappings m s := {| tm_id := tm_id s; tm_atomic_msg_size := tm_atomic_msg_size s;
  tm_sdr := tm_sdr s; tm_mappings := m; tm_queue := tm_queue s; tm_joins := tm_joins s;
  tm_fjoins := tm_fjoins s; tm_calls := tm_calls s; tm_running := tm_running s |}.
Definition tm_set_queue q s := {| tm_id := tm_id s; tm_atomic_msg_size := tm_atomic_msg_size s;
  tm_sdr := tm_sdr s; tm_mappings := tm_mappings s; tm_queue := q; tm_joins := tm_joins s;
  tm_fjoins := tm_fjoins s; tm_calls := tm_calls s; tm_running := tm_running s |}.
Definition tm_set_joins j s := {| tm_id := tm_id s; tm_atomic_msg_size := tm_atomic_msg_size s;
  tm_sdr := tm_sdr s; tm_mappings := tm_mappings s; tm_queue := tm_queue s; tm_joins := j;
  tm_fjoins := tm_fjoins s; tm_calls := tm_calls s; tm_running := tm_running s |}.
Definition tm_set_fjoins j s := {| tm_id := tm_id s; tm_atomic_msg_size := tm_atomic_msg_size s;
  tm_sdr := tm_sdr s; tm_mappings := tm_mappings s; tm_queue := tm_queue s; tm_joins := tm_joins s;
  tm_fjoins := j; tm_calls := tm_calls s; tm_running := tm_running s |}.
Definition tm_set_calls c s := {| tm_id := tm_id s; tm_atomic_msg_size := tm_atomic_msg_size s;
  tm_sdr := tm_sdr s; tm_mappings := tm_mappings s; tm_queue := tm_queue s; tm_joins := tm_joins s;
  tm_fjoins := tm_fjoins s; tm_calls := c; tm_running := tm_running s |}.
Definition tm_set_running b s := {| tm_id := tm_id s; tm_atomic_msg_size := tm_atomic_msg_size s;
  tm_sdr := tm_sdr s; tm_mappings := tm_mappings s; tm_queue := tm_queue s; tm_joins := tm_joins s;
  tm_fjoins := tm_fjoins s; tm_calls := tm_calls s; tm_running := b |}.

(** [handle_kvp_list]: entries without key or value are skipped, a later
    entry overwrites an earlier one. *)
Definition handle_kvp_list (l : list (option bytes * option bytes)) (m : gmap bytes bytes) :
    gmap bytes bytes :=
  foldl (λ m kv, match kv with (Some k, Some v) => <[k := v]> m | _ => m end) m l.

(** The constructor and [new_instance]. *)
Definition new_tech_module (id init_atomic_size : Z) (kvps : list (option bytes * option bytes)) :
    tech_module :=
  {| tm_id := id; tm_atomic_msg_size := init_atomic_size; tm_sdr := handle_kvp_list kvps ∅;
     tm_mappings := new_uri_mappings; tm_queue := []; tm_joins := ∅; tm_fjoins := ∅;
     tm_calls := []; tm_running := true |}.

(** [atomic_msg_size_changed]. *)
Definition atomic_msg_size_changed (new_size : Z) : M tech_module unit :=
  modify (tm_set_atomic (u32 new_size)).

(** The order of the keys of a [std::map<uri, ...>]: that of the strings,
    byte by byte. *)
Fixpoint bytes_leb (a b : bytes) : bool :=
  match a, b with
  | [], _ => true
  | _ :: _, [] => false
  | x :: a', y :: b' =>
      if b2z x <? b2z y then true else if b2z y <? b2z x then false else bytes_leb a' b'
  end.
Definition bytes_le (a b : bytes) : Prop := bytes_leb a b = true.
#[export] Instance bytes_le_dec : RelDecision bytes_le.
Proof. intros a b. rewrite /bytes_le. apply _. Defined.

Definition sorted_keys {A} (m : gmap bytes A) : list bytes :=
  merge_sort bytes_le (elements (dom m)).

(** [lst.erase(std::find(lst.begin(), lst.end(), x))]. *)
Fixpoint erase_first {A} `{EqDecision A} (x : A) (l : list A) : list A :=
  match l with
  | [] => []
  | y :: l' => if bool_decide (x = y) then l' else y :: erase_first x l'
  end.

Section tech_module.
Context (fns : module_fns).

(** The size that [del] reads from a list that [m_joins.erase] destroyed:
    whatever the freed memory holds. *)
Context (stale_size : Z).

(** [tm_mapping_helper]. *)
Definition tm_mapping_helper (what : uri) : uri :=
  match map_fun fns what with
  | (Some s, _) => uri_of s
  | (None, Some u) => u
  | (None, None) => uri_default
  end.

Definition record_call (c : module_call) : M tech_module unit :=
  modify (λ s, tm_set_calls (tm_calls s ++ [c]) s).

Definition add (whom : sock) (mapped_what unmapped_what : uri) : M tech_module bool :=
  s ← get;
  let element := default {| je_key := mapped_what; je_first := uri_default; je_socks := [] |}
                   (tm_joins s !! uri_str mapped_what) in
  match je_socks element with
  | [] =>
      modify (λ s, tm_set_joins (<[uri_str mapped_what :=
        {| je_key := je_key element; je_first := mapped_what; je_socks := [whom] |}]> (tm_joins s)) s) ;;
      modify (λ s, tm_set_fjoins (<[uri_str unmapped_what := mapped_what]> (tm_fjoins s)) s) ;;
      mret true
  | lst =>
      if bool_decide (whom ∈ lst) then mret false
      else
        modify (λ s, tm_set_joins (<[uri_str mapped_what :=
          {| je_key := je_key element; je_first := je_first element; je_socks := lst ++ [whom] |}]>
            (tm_joins s)) s) ;;
        mret true
  end.

Definition del (whom : sock) (mapped_what unmapped_what : uri) : M tech_module (bool * Z) :=
  s ← get;
  match tm_joins s !! uri_str mapped_what with
  | None => mret (false, 0)
  | Some element =>
      let lst := je_socks element in
      if bool_decide (whom ∈ lst) then
        let lst' := erase_first whom lst in
        match lst' with
        | [] =>
            modify (λ s, tm_set_joins (delete (uri_str mapped_what) (tm_joins s)) s) ;;
            modify (λ s, tm_set_fjoins (delete (uri_str unmapped_what) (tm_fjoins s)) s) ;;
            mret (true, stale_size)
        | _ =>
            modify (λ s, tm_set_joins (<[uri_str mapped_what :=
              {| je_key := je_key element; je_first := je_first element; je_socks := lst' |}]>
                (tm_joins s)) s) ;;
            mret (true, zlen lst')
        end
      else mret (false, zlen lst)
  end.

(** The first loop of [del_all]: the groups that become empty. *)
Fixpoint del_from_lists (whom : sock) (keys : list bytes) : M tech_module (list uri) :=
  match keys with
  | [] => mret []
  | k :: keys' =>
      s ← get;
      empty ← match tm_joins s !! k with
              | None => mret []
              | Some element =>
                  if bool_decide (whom ∈ je_socks element) then
                    let spl := erase_first whom (je_socks element) in
                    modify (λ s, tm_set_joins (<[k := {| je_key := je_key element;
                      je_first := je_first element; je_socks := spl |}]> (tm_joins s)) s) ;;
                    match spl with
                    | [] =>
                        modify (λ s, tm_set_fjoins (delete (uri_str (je_first element)) (tm_fjoins s)) s) ;;
                        mret [je_key element]
                    | _ => mret []
                    end
                  else mret []
              end;
      rest ← del_from_lists whom keys';
      mret (empty ++ rest)
  end.

Definition call_leave (u : uri) : M tech_module unit :=
  record_call (Call_leave u) ;;
  require (leave_fun fns u =? HC_SUCCESS) "m_handle->leave_fun(...) == HC_SUCCESS".

Definition call_join (u : uri) : M tech_module unit :=
  record_call (Call_join u) ;;
  require (join_fun fns u =? HC_SUCCESS) "m_handle->join_fun(...) == HC_SUCCESS".

Definition del_all (whom : sock) : M tech_module unit :=
  keys ← gets (λ s, sorted_keys (tm_joins s));
  empty_groups ← del_from_lists whom keys;
  for_each empty_groups (λ g,
    modify (λ s, tm_set_joins (delete (uri_str g) (tm_joins s)) s) ;; call_leave g).

Definition lookup_mapping (u : uri) : M tech_module uri :=
  zoom tm_mappings tm_set_mappings (forward_lookup_map tm_mapping_helper u).

(** One iteration of the loop of [worker()]. *)
Definition process (msg : tm_msg) : M tech_module tm_reply :=
  match msg with
  | mapping_lookup_t req_uri =>
      result ← lookup_mapping req_uri;
      mret (Set_uri result)
  | send_job_t j =>
      try_catch
        (receiver ← lookup_mapping (sj_receiver j);
         record_call (Call_sendto (m_content (sj_msg j)) (m_content_size (sj_msg j))
                        (sj_ttl j) receiver))
        (λ e, match e with requirement_failed _ => mret tt | e => throw e end) ;;
      mret (Released j)
  | join_t req_uri who =>
      mapped ← lookup_mapping req_uri;
      success ← add who mapped req_uri;
      (if (success : bool) then call_join mapped else mret tt) ;;
      mret (Set_bool success)
  | leave_t req_uri who =>
      mapped ← lookup_mapping req_uri;
      res ← del who mapped req_uri;
      (if (res.1 : bool) && (res.2 =? 0) then call_leave mapped else mret tt) ;;
      mret (Set_bool res.1)
  | leave_all_t who =>
      del_all who ;;
      mret (Set_bool true)
  | kill_t =>
      record_call Call_delete_instance ;;
      modify (tm_set_running false) ;;
      mret (Set_bool true)
  end.

(** The worker takes the next message; an exception that leaves the thread
    ends the process. *)
Definition worker_step : M tech_module (option tm_reply) :=
  s ← get;
  match tm_running s, tm_queue s with
  | true, msg :: q =>
      modify (tm_set_queue q) ;;
      r ← try_catch (process msg) (λ _, throw (terminated "exception in tech_module::worker"));
      mret (Some r)
  | _, _ => mret None
  end.

(** [m_queue.push(msg)]. *)
Definition post (msg : tm_msg) : M tech_module unit :=
  modify (λ s, tm_set_queue (tm_queue s ++ [msg]) s).

Definition add_job (job : send_job) : M tech_module unit := post (send_job_t job).

(** The worker processes the next [n] messages. *)
Fixpoint work (n : nat) : M tech_module (list tm_reply) :=
  match n with
  | O => mret []
  | S n' =>
      r ← worker_step;
      match r with
      | Some r => rs ← work n'; mret (r :: rs)
      | None => ub "waits for ever: the worker has ended"
      end
  end.

(** [join], [leave], [leave_all], [mapping_of], [unload]: post a request
    and wait for its future; the worker processes what is queued before
    it.  The other replies are the jobs released meanwhile. *)
Definition call (msg : tm_msg) : M tech_module (tm_reply * list tm_reply) :=
  post msg ;;
  s ← get;
  rs ← work (length (tm_queue s));
  match last rs with
  | Some r => mret (r, removelast rs)
  | None => ub "no reply"
  end.
End tech_module.

(** ** Abstraction

    The table of joined groups as a relation between group names (mapped)
    and sockets; and what the module has been told, from the calls it got. *)

Definition joined (s : tech_module) (k : bytes) (who : sock) : bool :=
  match tm_joins s !! k with
  | Some e => bool_decide (who ∈ je_socks e)
  | None => false
  end.

Definition module_joined (calls : list module_call) (k : bytes) : bool :=
  foldl (λ b c, match c with
                | Call_join u => if bool_decide (uri_str u = k) then true else b
                | Call_leave u => if bool_decide (uri_str u = k) then false else b
                | _ => b
                end) false calls.

(** ** The invariant *)

Definition entry_ok (k : bytes) (e : join_entry) : Prop :=
  NoDup (je_socks e) ∧ uri_str (je_key e) = k ∧ uri_str (je_first e) = k.

Definition joins_ok (m : gmap bytes join_entry) : Prop :=
  ∀ k e, m !! k = Some e → entry_ok k e ∧ je_socks e ≠ [].

(** The tables alone. *)
Definition tables_ok (s : tech_module) : Prop := um_ok (tm_mappings s) ∧ joins_ok (tm_joins s).

(** No group without sockets; and the module is a member of exactly the
    groups in the table. *)
Definition tm_ok (s : tech_module) : Prop :=
  um_ok (tm_mappings s) ∧ joins_ok (tm_joins s) ∧
  ∀ k, module_joined (tm_calls s) k = bool_decide (is_Some (tm_joins s !! k)).

Lemma tm_ok_tables s : tm_ok s → tables_ok s.
Proof. intros (? & ? & _). done. Qed.

Lemma module_joined_snoc calls c k :
  module_joined (calls ++ [c]) k =
  match c with
  | Call_join u => if bool_decide (uri_str u = k) then true else module_joined calls k
  | Call_leave u => if bool_decide (uri_str u = k) then false else module_joined calls k
  | _ => module_joined calls k
  end.
Proof. by rewrite /module_joined foldl_app. Qed.

Lemma new_tech_module_ok id n kvps : tm_ok (new_tech_module id n kvps).
Proof.
  split_and!; [apply new_uri_mappings_ok| |].
  - intros k e H. by rewrite lookup_empty in H.
  - intros k. by rewrite /= lookup_empty.
Qed.

Lemma erase_first_elem {A} `{EqDecision A} (x y : A) l :
  NoDup l → y ∈ erase_first x l ↔ y ∈ l ∧ y ≠ x.
Proof.
  induction 1 as [|z l Hz Hnd IH]; simpl; [set_solver|].
  case_bool_decide; subst; set_solver.
Qed.

Lemma erase_first_nodup {A} `{EqDecision A} (x : A) l : NoDup l → NoDup (erase_first x l).
Proof.
  induction 1 as [|z l Hz Hnd IH]; simpl; [constructor|]. case_bool_decide; [done|].
  constructor; [|done]. rewrite erase_first_elem; [done|]. naive_solver.
Qed.

Lemma erase_first_absent {A} `{EqDecision A} (x : A) l : x ∉ l → erase_first x l = l.
Proof.
  induction l as [|y l IH]; intros Hx; simpl; [done|].
  rewrite bool_decide_false; [set_solver|]. rewrite IH; [set_solver|done].
Qed.

(** What the table operations leave alone. *)
Definition same_rest (s s' : tech_module) : Prop :=
  tm_mappings s' = tm_mappings s ∧ tm_calls s' = tm_calls s ∧ tm_queue s' = tm_queue s.

(** ** The operations on the table *)

Lemma add_spec who m u s :
  joins_ok (tm_joins s) →
  ∃ s', add who m u s = (Ok (negb (joined s (uri_str m) who)), s') ∧
    joins_ok (tm_joins s') ∧ same_rest s s' ∧
    (∀ k w, joined s' k w = joined s k w || bool_decide (k = uri_str m ∧ w = who)) ∧
    (∀ k, is_Some (tm_joins s' !! k) ↔ is_Some (tm_joins s !! k) ∨ k = uri_str m).
Proof.
  intros Hj. rewrite /add /mbind /M_bind /get.
  assert (∀ e, entry_ok (uri_str m) e → je_socks e ≠ [] →
    joins_ok (<[uri_str m := e]> (tm_joins s))) as Hins.
  { intros e He Hne k' e'. rewrite lookup_insert. case_decide; [intros [= <-]; by subst|apply Hj]. }
  assert (∀ (e : join_entry) k, is_Some (<[uri_str m := e]> (tm_joins s) !! k) ↔
    is_Some (tm_joins s !! k) ∨ k = uri_str m) as Hdom.
  { intros e k. rewrite lookup_insert. case_decide; naive_solver. }
  rewrite /joined. destruct (tm_joins s !! uri_str m) as [e|] eqn:E; simpl.
  - destruct (Hj _ _ E) as [(Hnd & Hk & Hf) Hne]. destruct (je_socks e) as [|x l] eqn:El; [done|].
    case_bool_decide as Hin; simpl.
    + exists s. split_and!; try done.
      * intros k w. case_bool_decide as Hw; [|by rewrite orb_false_r].
        destruct Hw as [-> ->]. rewrite E El. by rewrite bool_decide_true.
      * intros k. split; [by left|]. intros [?| ->]; [done|]. by rewrite E.
    + eexists. split; [done|]. split_and!; try done.
      * apply Hins; [|by destruct l]. split_and!; try done. cbn [je_socks].
        change (x :: l ++ [who]) with ((x :: l) ++ [who]). apply NoDup_app. split_and!; [done| |by apply NoDup_singleton]. set_solver.
      * intros k w. cbn [tm_joins tm_set_joins]. rewrite lookup_insert. case_decide as Hk'.
        -- subst k. rewrite E El /=. destruct (decide (w = who)) as [->|Hw].
           ++ rewrite bool_decide_true; [set_solver|]. by rewrite (bool_decide_true (_ ∧ _)) ?orb_true_r.
           ++ rewrite (bool_decide_false (_ ∧ _)) ?orb_false_r; [naive_solver|].
              apply bool_decide_ext. set_solver.
        -- rewrite (bool_decide_false (_ ∧ _)) ?orb_false_r; [naive_solver|done].
      * intros k. apply Hdom.
  - eexists. split; [done|]. split_and!; try done.
    + apply Hins; [|done]. split_and!; try done. apply NoDup_singleton.
    + intros k w. cbn [tm_joins tm_set_joins tm_set_fjoins]. rewrite lookup_insert. case_decide as Hk'.
      * subst k. rewrite E /=. apply bool_decide_ext. set_solver.
      * rewrite (bool_decide_false (_ ∧ _)) ?orb_false_r; [naive_solver|done].
    + intros k. apply Hdom.
Qed.

Lemma del_spec stale who m u s :
  joins_ok (tm_joins s) →
  ∃ n s', del stale who m u s = (Ok (joined s (uri_str m) who, n), s') ∧
    joins_ok (tm_joins s') ∧ same_rest s s' ∧
    (∀ k w, joined s' k w = joined s k w && negb (bool_decide (k = uri_str m ∧ w = who))) ∧
    (∀ k, k ≠ uri_str m → is_Some (tm_joins s' !! k) ↔ is_Some (tm_joins s !! k)) ∧
    (joined s (uri_str m) who = true →
       (tm_joins s' !! uri_str m = None ∧ n = stale) ∨ (is_Some (tm_joins s' !! uri_str m) ∧ 0 < n)) ∧
    (joined s (uri_str m) who = false → s' = s).
Proof.
  intros Hj. rewrite /del /mbind /M_bind /get /joined.
  destruct (tm_joins s !! uri_str m) as [e|] eqn:E.
  2: { exists 0, s. split_and!; try done. intros k w. case_bool_decide as Hk; [|by rewrite andb_true_r].
       destruct Hk as [-> _]. by rewrite E. }
  destruct (Hj _ _ E) as [(Hnd & Hk & Hf) Hne].
  case_bool_decide as Hin; simpl.
  2: { eexists _, s. split_and!; try done. intros k w. case_bool_decide as Hw; [|by rewrite andb_true_r].
       destruct Hw as [-> ->]. rewrite E. by rewrite bool_decide_false. }
  pose proof (erase_first_elem who) as Hel.
  destruct (erase_first who (je_socks e)) as [|x l] eqn:El; simpl.
  - eexists _, _. split; [done|]. split_and!; try done.
    + intros k' e'. cbn [tm_joins tm_set_joins tm_set_fjoins]. intros [_ ?]%lookup_delete_Some. by apply Hj.
    + intros k w. cbn [tm_joins tm_set_joins tm_set_fjoins]. rewrite lookup_delete. case_decide as Hk'.
      * subst k. rewrite E. destruct (decide (w = who)) as [->|Hw].
        -- rewrite (bool_decide_true (_ ∧ _)) //. by rewrite andb_false_r.
        -- rewrite bool_decide_false; [|done]. intros Hw'. specialize (Hel w _ Hnd). rewrite El in Hel. set_solver.
      * rewrite (bool_decide_false (_ ∧ _)) ?andb_true_r; [naive_solver|done].
    + intros k Hk'. cbn [tm_joins tm_set_joins tm_set_fjoins]. by rewrite lookup_delete_ne.
    + intros _. left. cbn [tm_joins tm_set_joins tm_set_fjoins]. by rewrite lookup_delete_eq.
  - eexists _, _. split; [done|]. split_and!; try done.
    + intros k' e'. cbn [tm_joins tm_set_joins]. rewrite lookup_insert. case_decide; [|apply Hj].
      intros [= <-]. subst k'. split; [|done]. split_and!; try done. simpl. rewrite -El.
      by apply erase_first_nodup.
    + intros k w. cbn [tm_joins tm_set_joins]. rewrite lookup_insert. case_decide as Hk'.
      * subst k. rewrite E. cbn [je_socks]. specialize (Hel w _ Hnd). rewrite El in Hel.
        destruct (decide (w = who)) as [->|Hw].
        -- rewrite (bool_decide_true (_ ∧ _)) // andb_false_r. apply bool_decide_false. naive_solver.
        -- rewrite (bool_decide_false (_ ∧ _)) ?andb_true_r; [naive_solver|].
           apply bool_decide_ext. naive_solver.
      * rewrite (bool_decide_false (_ ∧ _)) ?andb_true_r; [naive_solver|done].
    + intros k Hk'. cbn [tm_joins tm_set_joins]. by rewrite lookup_insert_ne.
    + intros _. right. cbn [tm_joins tm_set_joins]. rewrite lookup_insert_eq. split; [done|].
      rewrite zlen_cons. pose proof (zlen_nonneg l). lia.
Qed.

Definition purge (who : sock) (e : join_entry) : join_entry :=
  {| je_key := je_key e; je_first := je_first e; je_socks := erase_first who (je_socks e) |}.

(** The group that leaves the table when [who] leaves everything. *)
Definition emptied (who : sock) (m : gmap bytes join_entry) (k : bytes) : option uri :=
  match m !! k with
  | Some e => if bool_decide (who ∈ je_socks e ∧ erase_first who (je_socks e) = [])
              then Some (je_key e) else None
  | None => None
  end.

Lemma purge_absent who e : who ∉ je_socks e → purge who e = e.
Proof. intros H. rewrite /purge erase_first_absent; [done|]. by destruct e. Qed.

Lemma del_from_lists_spec who keys s :
  NoDup keys →
  ∃ s', del_from_lists who keys s = (Ok (omap (emptied who (tm_joins s)) keys), s') ∧
    same_rest s s' ∧
    ∀ k, tm_joins s' !! k =
      if bool_decide (k ∈ keys) then purge who <$> tm_joins s !! k else tm_joins s !! k.
Proof.
  revert s. induction keys as [|k keys IH]; intros s Hnd.
  { exists s. split_and!; try done. }
  apply NoDup_cons in Hnd as [Hk Hnd]. cbn [del_from_lists].
  assert (∃ s1, (match tm_joins s !! k with
    | None => mret []
    | Some element =>
        if bool_decide (who ∈ je_socks element) then
          let spl := erase_first who (je_socks element) in
          modify (λ s, tm_set_joins (<[k := {| je_key := je_key element;
            je_first := je_first element; je_socks := spl |}]> (tm_joins s)) s) ;;
          match spl with
          | [] => modify (λ s, tm_set_fjoins (delete (uri_str (je_first element)) (tm_fjoins s)) s) ;;
                  mret [je_key element]
          | _ => mret []
          end
        else mret []
    end : M tech_module (list uri)) s = (Ok (option_list (emptied who (tm_joins s) k)), s1) ∧
    same_rest s s1 ∧
    ∀ k', tm_joins s1 !! k' =
      if bool_decide (k' = k) then purge who <$> tm_joins s !! k' else tm_joins s !! k') as
    (s1 & H1 & Hr1 & Hj1).
  { rewrite /emptied. destruct (tm_joins s !! k) as [e|] eqn:E.
    - case_bool_decide as Hin.
      + assert (∀ k', (<[k:=purge who e]> (tm_joins s)) !! k' =
          (if bool_decide (k' = k) then purge who <$> tm_joins s !! k' else tm_joins s !! k')) as Hl.
        { intros k'. rewrite lookup_insert. case_bool_decide; case_decide; subst; try done. by rewrite E. }
        destruct (erase_first who (je_socks e)) as [|x l] eqn:El.
        * rewrite bool_decide_true; [done|]. eexists. split; [done|]. split; [done|].
          cbn [tm_joins tm_set_joins tm_set_fjoins]. rewrite /purge El in Hl. apply Hl.
        * rewrite bool_decide_false; [naive_solver|]. eexists. split; [done|]. split; [done|].
          cbn [tm_joins tm_set_joins tm_set_fjoins]. rewrite /purge El in Hl. apply Hl.
      + rewrite bool_decide_false; [naive_solver|]. exists s. split_and!; try done.
        intros k'. case_bool_decide; [|done]. subst. rewrite E /=. by rewrite purge_absent.
    - exists s. split_and!; try done. intros k'. case_bool_decide; [|done]. subst. by rewrite E. }
  rewrite {1}/mbind /M_bind /get. rewrite {1}/mbind /M_bind H1.
  destruct (IH s1 Hnd) as (s2 & H2 & Hr2 & Hj2). exists s2.
  rewrite {1}/mbind /M_bind H2. split_and!.
  - rewrite /mret /M_ret. f_equal. f_equal. simpl.
    assert (omap (emptied who (tm_joins s1)) keys = omap (emptied who (tm_joins s)) keys) as ->.
    { clear -Hk Hj1. induction keys as [|a keys IH]; [done|]. csimpl.
      rewrite IH; [set_solver|]. rewrite /emptied Hj1 bool_decide_false; [set_solver|done]. }
    by destruct (emptied who (tm_joins s) k).
  - destruct Hr1 as (? & ? & ?), Hr2 as (? & ? & ?). split_and!; congruence.
  - intros k'. rewrite Hj2 Hj1. destruct (decide (k' = k)) as [->|Hne].
    + rewrite (bool_decide_false (k ∈ keys)) // (bool_decide_true (k = k)) // bool_decide_true; [by left|done].
    + rewrite (bool_decide_false (k' = k)) //. rewrite (bool_decide_ext (k' ∈ k :: keys) (k' ∈ keys)); [set_solver|done].
Qed.

Lemma leave_loop_spec fns es s :
  (∀ g, g ∈ es → leave_fun fns g = HC_SUCCESS) →
  ∃ s', for_each es (λ g, modify (λ s, tm_set_joins (delete (uri_str g) (tm_joins s)) s) ;;
                          call_leave fns g) s = (Ok tt, s') ∧
    tm_mappings s' = tm_mappings s ∧ tm_queue s' = tm_queue s ∧
    tm_calls s' = tm_calls s ++ (Call_leave <$> es) ∧
    ∀ k, tm_joins s' !! k =
      if bool_decide (k ∈ (uri_str <$> es : list bytes)) then None else tm_joins s !! k.
Proof.
  revert s. induction es as [|g es IH]; intros s Hs.
  { exists s. split_and!; try done. by rewrite app_nil_r. }
  cbn [for_each]. set (s1 := tm_set_calls (tm_calls s ++ [Call_leave g])
    (tm_set_joins (delete (uri_str g) (tm_joins s)) s)).
  assert ((modify (λ s, tm_set_joins (delete (uri_str g) (tm_joins s)) s) ;; call_leave fns g) s
    = (Ok tt, s1)) as H1.
  { rewrite /call_leave /record_call /mbind /M_bind /modify /=. rewrite Hs; [by left|done]. }
  destruct (IH s1) as (s2 & H2 & Hm & Hq & Hc & Hj); [set_solver|].
  exists s2. rewrite (bind_ok _ _ _ _ _ H1) H2. split_and!; try done.
  - rewrite Hc. subst s1. simpl. by rewrite -app_assoc.
  - intros k. rewrite Hj. subst s1. cbn [tm_joins tm_set_calls tm_set_joins]. rewrite fmap_cons.
    rewrite lookup_delete. destruct (decide (k = uri_str g)) as [->|Hne].
    + rewrite (bool_decide_true (_ ∈ _ :: _)); [by left|]. rewrite decide_True; [done|]. by case_bool_decide.
    + rewrite decide_False; [done|]. rewrite (bool_decide_ext (k ∈ _ :: _) (k ∈ (uri_str <$> es : list bytes))); [|done].
      set_solver.
Qed.

Lemma module_joined_leaves calls (es : list uri) k :
  module_joined (calls ++ (Call_leave <$> es)) k =
  if bool_decide (k ∈ (uri_str <$> es : list bytes)) then false else module_joined calls k.
Proof.
  induction es as [|g es IH] using rev_ind; [by rewrite app_nil_r|].
  rewrite fmap_app app_assoc module_joined_snoc IH fmap_app.
  destruct (decide (uri_str g = k)) as [Hg|Hg].
  - rewrite (bool_decide_true (uri_str g = k)) // bool_decide_true; [|done].
    apply elem_of_app. right. apply list_elem_of_singleton. by subst.
  - rewrite (bool_decide_false (uri_str g = k)) //.
    rewrite (bool_decide_ext (k ∈ (uri_str <$> es : list bytes) ++ _) (k ∈ (uri_str <$> es : list bytes))); [|done].
    rewrite elem_of_app. split; [|by left]. intros [?|Hin%list_elem_of_singleton]; [done|]. by subst.
Qed.

Lemma sorted_keys_elem {A} (m : gmap bytes A) k : k ∈ sorted_keys m ↔ is_Some (m !! k).
Proof.
  rewrite /sorted_keys. rewrite (merge_sort_Permutation bytes_le (elements (dom m))).
  rewrite elem_of_elements elem_of_dom. done.
Qed.

Lemma sorted_keys_nodup {A} (m : gmap bytes A) : NoDup (sorted_keys m).
Proof.
  rewrite /sorted_keys. rewrite (merge_sort_Permutation bytes_le (elements (dom m))).
  apply NoDup_elements.
Qed.

(** The whole of [del_all], when the module accepts the leaves. *)
Lemma del_all_spec fns who s :
  tables_ok s → (∀ u, leave_fun fns u = HC_SUCCESS) →
  ∃ s', del_all fns who s = (Ok tt, s') ∧ tables_ok s' ∧ (tm_ok s → tm_ok s') ∧
    ∀ k w, joined s' k w = joined s k w && negb (bool_decide (w = who)).
Proof.
  intros (Hum & Hj) Hl. rewrite /del_all {1}/mbind /M_bind /gets.
  destruct (del_from_lists_spec who (sorted_keys (tm_joins s)) s (sorted_keys_nodup _))
    as (s1 & H1 & (Hm1 & Hc1 & Hq1) & Hj1).
  set (es := omap _ _) in *. rewrite (bind_ok _ _ _ _ _ H1).
  destruct (leave_loop_spec fns es s1) as (s2 & H2 & Hm2 & Hq2 & Hc2 & Hj2); [by intros ? _|].
  exists s2.
  assert (∀ k, k ∈ (uri_str <$> es : list bytes) ↔
    ∃ e, tm_joins s !! k = Some e ∧ who ∈ je_socks e ∧ erase_first who (je_socks e) = []) as Hes.
  { intros k. rewrite list_elem_of_fmap. split.
    - intros (u & -> & Hu). apply list_elem_of_omap in Hu as (k' & Hk' & Hu).
      rewrite /emptied in Hu. destruct (tm_joins s !! k') as [e|] eqn:E; [|done].
      case_bool_decide as Hb; [|done]. injection Hu as <-.
      destruct (Hj _ _ E) as [(_ & -> & _) _]. eauto.
    - intros (e & E & Hin & Her). exists (je_key e). destruct (Hj _ _ E) as [(_ & Hk & _) _].
      split; [done|]. apply list_elem_of_omap. exists k. rewrite sorted_keys_elem E.
      split; [done|]. by rewrite /emptied E bool_decide_true. }
  assert (∀ k, tm_joins s1 !! k = purge who <$> tm_joins s !! k) as Hj1'.
  { intros k. rewrite Hj1. case_bool_decide as Hk; [done|]. rewrite sorted_keys_elem in Hk.
    destruct (tm_joins s !! k) eqn:E; [|done]. by destruct Hk. }
  assert (tables_ok s2) as Hs2.
  { split; [by rewrite Hm2 Hm1|]. intros k e. rewrite Hj2. case_bool_decide as Hk; [done|]. rewrite Hj1'.
    destruct (tm_joins s !! k) as [e0|] eqn:E; [|done]. intros [= <-].
    destruct (Hj _ _ E) as [(Hnd & Hk1 & Hk2) Hne]. split; [split_and!; [|done..]|].
    - by apply erase_first_nodup.
    - simpl. intros Her. destruct (decide (who ∈ je_socks e0)) as [Hin|Hin].
      + apply Hk, Hes. eauto.
      + by rewrite erase_first_absent in Her. }
  split_and!; [done|done| |].
  - intros (_ & _ & Hc). destruct Hs2 as [Hs21 Hs22]. split_and!; [done|done|].
    intros k. rewrite Hc2 Hc1 module_joined_leaves Hj2 Hj1'. case_bool_decide; [done|].
    rewrite Hc. by destruct (tm_joins s !! k).
  - intros k w. rewrite /joined Hj2 Hj1'. case_bool_decide as Hk.
    + apply Hes in Hk as (e & E & Hin & Her). rewrite E.
      destruct (Hj k e E) as [(Hnd & _) _]. pose proof (erase_first_elem who w _ Hnd) as Hel.
      rewrite Her in Hel. destruct (decide (w = who)) as [->|Hw].
      * by rewrite (bool_decide_true (who = who)) // andb_false_r.
      * rewrite bool_decide_false; [|done]. set_solver.
    + destruct (tm_joins s !! k) as [e|] eqn:E; [|done]. simpl.
      destruct (Hj k e E) as [(Hnd & _) _]. pose proof (erase_first_elem who w _ Hnd) as Hel.
      destruct (decide (w = who)) as [->|Hw].
      * rewrite (bool_decide_true (who = who)) // andb_false_r. apply bool_decide_false. naive_solver.
      * rewrite (bool_decide_false (w = who)) // andb_true_r. apply bool_decide_ext. naive_solver.
Qed.

(** ** The worker *)

Lemma lookup_mapping_tables fns u s r s' :
  tables_ok s → lookup_mapping fns u s = (r, s') →
  tables_ok s' ∧ tm_joins s' = tm_joins s ∧ tm_calls s' = tm_calls s ∧
  match r with
  | Ok m => um_forward (tm_mappings s') !! uri_str u = Some m
  | Throw e => tm_mappings s' = tm_mappings s ∧ ∃ why, e = requirement_failed why
  | UB _ => False
  end.
Proof.
  intros (Hum & Hj). rewrite /lookup_mapping /zoom.
  destruct (forward_lookup_map (tm_mapping_helper fns) u (tm_mappings s)) as [r' m'] eqn:E.
  intros [= <- <-]. apply forward_lookup_map_ok in E as [Hok Hr]; [|done].
  split; [by split|]. split_and!; [done|done|]. destruct r' as [m|e|]; [apply Hr| |done].
  destruct Hr as (? & ? & _). done.
Qed.

Lemma lookup_mapping_spec fns u s r s' :
  tm_ok s → lookup_mapping fns u s = (r, s') →
  tm_ok s' ∧ tm_joins s' = tm_joins s ∧ tm_calls s' = tm_calls s ∧
  match r with
  | Ok m => um_forward (tm_mappings s') !! uri_str u = Some m
  | Throw e => tm_mappings s' = tm_mappings s ∧ ∃ why, e = requirement_failed why
  | UB _ => False
  end.
Proof.
  intros Hs E. destruct (lookup_mapping_tables _ _ _ _ _ (tm_ok_tables _ Hs) E) as ((Hum & Hj) & E1 & E2 & Hr).
  destruct Hs as (_ & _ & Hc). split_and!; [|done..]. split_and!; [done|done|]. intros k. by rewrite E1 E2.
Qed.

(** Calls into the module that succeed. *)
Lemma call_join_spec fns m s :
  (∀ u, join_fun fns u = HC_SUCCESS) →
  call_join fns m s = (Ok tt, tm_set_calls (tm_calls s ++ [Call_join m]) s).
Proof. intros Hj. by rewrite /call_join /record_call /mbind /M_bind /modify /require Hj. Qed.

Lemma call_leave_spec fns m s :
  (∀ u, leave_fun fns u = HC_SUCCESS) →
  call_leave fns m s = (Ok tt, tm_set_calls (tm_calls s ++ [Call_leave m]) s).
Proof. intros Hj. by rewrite /call_leave /record_call /mbind /M_bind /modify /require Hj. Qed.

(** The abstract machine: a relation between groups and sockets. *)
Definition request_uri (msg : tm_msg) : option uri :=
  match msg with
  | mapping_lookup_t u | join_t u _ | leave_t u _ => Some u
  | _ => None
  end.

Definition member_spec (msg : tm_msg) (mapped : uri) (g g' : bytes → sock → bool) (r : tm_reply) :
    Prop :=
  match msg with
  | join_t _ who =>
      r = Set_bool (negb (g (uri_str mapped) who)) ∧
      ∀ k w, g' k w = g k w || bool_decide (k = uri_str mapped ∧ w = who)
  | leave_t _ who =>
      r = Set_bool (g (uri_str mapped) who) ∧
      ∀ k w, g' k w = g k w && negb (bool_decide (k = uri_str mapped ∧ w = who))
  | leave_all_t who =>
      r = Set_bool true ∧ ∀ k w, g' k w = g k w && negb (bool_decide (w = who))
  | mapping_lookup_t _ => r = Set_uri mapped ∧ ∀ k w, g' k w = g k w
  | send_job_t j => r = Released j ∧ ∀ k w, g' k w = g k w
  | kill_t => r = Set_bool true ∧ ∀ k w, g' k w = g k w
  end.

(** What processing a message guarantees. *)
Definition process_ok (msg : tm_msg) (s : tech_module) (res : outcome tm_reply * tech_module) : Prop :=
  match res with
  | (Ok r, s') =>
      tm_ok s' ∧ ∃ mapped,
        (∀ u, request_uri msg = Some u → um_forward (tm_mappings s') !! uri_str u = Some mapped) ∧
        member_spec msg mapped (joined s) (joined s') r
  | (Throw e, s') => is_Some (request_uri msg) ∧ (∃ why, e = requirement_failed why) ∧ tm_ok s' ∧
                     ∀ k w, joined s' k w = joined s k w
  | (UB _, _) => False
  end.

Lemma joined_same s s' : tm_joins s' = tm_joins s → ∀ k w, joined s' k w = joined s k w.
Proof. intros H k w. by rewrite /joined H. Qed.

Section worker.
Context (fns : module_fns) (joins_succeed : ∀ u, join_fun fns u = HC_SUCCESS)
  (leaves_succeed : ∀ u, leave_fun fns u = HC_SUCCESS).

Lemma process_join u who s : tm_ok s → process_ok (join_t u who) s (process fns 0 (join_t u who) s).
Proof.
  intros Hs. cbn [process]. rewrite {1}/mbind /M_bind.
  destruct (lookup_mapping fns u s) as [[m|e|] s1] eqn:E;
    destruct (lookup_mapping_spec _ _ _ _ _ Hs E) as (Hs1 & Hj1 & Hc1 & Hm); [| |done].
  2: { split_and!; [done|apply Hm|done|by apply joined_same]. }
  pose proof Hs1 as (Hum & Hj & Hc).
  destruct (add_spec who m u s1 Hj) as (s2 & H2 & Hj2 & (Hm2 & Hc2 & _) & Hjoin & Hdom).
  rewrite (bind_ok _ _ _ _ _ H2).
  assert (∀ s3, tm_joins s3 = tm_joins s2 → tm_mappings s3 = tm_mappings s2 →
    (∀ k, module_joined (tm_calls s3) k = bool_decide (is_Some (tm_joins s3 !! k))) →
    process_ok (join_t u who) s (Ok (Set_bool (negb (joined s1 (uri_str m) who))), s3)) as Hend.
  { intros s3 H3 H4 H5. split; [split_and!; [by rewrite H4 Hm2|by rewrite H3|done]|].
    exists m. split; [by intros ? [= <-]; rewrite H4 Hm2|].
    split; [by rewrite (joined_same _ _ Hj1)|]. intros k w.
    by rewrite (joined_same _ _ H3) Hjoin (joined_same _ _ Hj1). }
  destruct (joined s1 (uri_str m) who) eqn:Ejo; simpl.
  - apply Hend; [done..|]. intros k. rewrite Hc2 Hc. apply bool_decide_ext. rewrite Hdom.
    split; [by left|]. intros [?| ->]; [done|]. rewrite /joined in Ejo.
    by destruct (tm_joins s1 !! uri_str m).
  - rewrite (bind_ok _ _ _ _ _ (call_join_spec fns m s2 joins_succeed)).
    apply Hend; [done..|]. intros k. cbn [tm_calls tm_joins tm_set_calls].
    rewrite module_joined_snoc Hc2 Hc. case_bool_decide as Hk.
    + symmetry. apply bool_decide_true. apply Hdom. by right.
    + apply bool_decide_ext. rewrite Hdom. naive_solver.
Qed.

Lemma process_leave u who s : tm_ok s → process_ok (leave_t u who) s (process fns 0 (leave_t u who) s).
Proof.
  intros Hs. cbn [process]. rewrite {1}/mbind /M_bind.
  destruct (lookup_mapping fns u s) as [[m|e|] s1] eqn:E;
    destruct (lookup_mapping_spec _ _ _ _ _ Hs E) as (Hs1 & Hj1 & Hc1 & Hm); [| |done].
  2: { split_and!; [done|apply Hm|done|by apply joined_same]. }
  pose proof Hs1 as (Hum & Hj & Hc).
  destruct (del_spec 0 who m u s1 Hj) as (n & s2 & H2 & Hj2 & (Hm2 & Hc2 & _) & Hjoin & Hdom & Ht & Hf).
  rewrite (bind_ok _ _ _ _ _ H2). cbn [fst snd].
  assert (∀ s3, tm_joins s3 = tm_joins s2 → tm_mappings s3 = tm_mappings s2 →
    (∀ k, module_joined (tm_calls s3) k = bool_decide (is_Some (tm_joins s3 !! k))) →
    process_ok (leave_t u who) s (Ok (Set_bool (joined s1 (uri_str m) who)), s3)) as Hend.
  { intros s3 H3 H4 H5. split; [split_and!; [by rewrite H4 Hm2|by rewrite H3|done]|].
    exists m. split; [by intros ? [= <-]; rewrite H4 Hm2|].
    split; [by rewrite (joined_same _ _ Hj1)|]. intros k w.
    by rewrite (joined_same _ _ H3) Hjoin (joined_same _ _ Hj1). }
  destruct (joined s1 (uri_str m) who) eqn:Ejo; simpl.
  - assert (is_Some (tm_joins s1 !! uri_str m)) as Hin.
    { rewrite /joined in Ejo. by destruct (tm_joins s1 !! uri_str m). }
    destruct (Ht eq_refl) as [[Hnone ->]|[Hsome Hn]].
    + rewrite Z.eqb_refl (bind_ok _ _ _ _ _ (call_leave_spec fns m s2 leaves_succeed)).
      apply Hend; [done..|]. intros k. cbn [tm_calls tm_joins tm_set_calls].
      rewrite module_joined_snoc Hc2 Hc. case_bool_decide as Hk.
      * subst k. by rewrite Hnone.
      * apply bool_decide_ext. by rewrite Hdom.
    + rewrite (proj2 (Z.eqb_neq n 0)); [lia|]. apply Hend; [done..|]. intros k. rewrite Hc2 Hc.
      apply bool_decide_ext. destruct (decide (k = uri_str m)) as [->|]; [naive_solver|by rewrite Hdom].
  - apply Hend; [done..|]. intros k. rewrite Hc2 Hc. by rewrite (Hf eq_refl).
Qed.

Lemma process_step msg s : tm_ok s → process_ok msg s (process fns 0 msg s).
Proof.
  intros Hs. destruct msg as [u|j|u who|u who|who|].
  - cbn [process]. rewrite {1}/mbind /M_bind.
    destruct (lookup_mapping fns u s) as [[m|e|] s1] eqn:E;
      destruct (lookup_mapping_spec _ _ _ _ _ Hs E) as (Hs1 & Hj1 & Hc1 & Hm); [| |done].
    + split; [done|]. exists m. split; [by intros ? [= <-]|]. split; [done|]. by apply joined_same.
    + split_and!; [done|apply Hm|done|by apply joined_same].
  - cbn [process]. rewrite {1}/mbind /M_bind /try_catch. rewrite {1}/mbind /M_bind.
    destruct (lookup_mapping fns (sj_receiver j) s) as [[m|e|] s1] eqn:E;
      destruct (lookup_mapping_spec _ _ _ _ _ Hs E) as (Hs1 & Hj1 & Hc1 & Hm); [| |done].
    + split; [|exists uri_default; split; [done|split; [done|by apply joined_same]]].
      destruct Hs1 as (? & ? & Hc). split_and!; [done|done|]. intros k.
      cbn [tm_calls tm_joins tm_set_calls]. rewrite module_joined_snoc. apply Hc.
    + destruct Hm as (_ & why & ->). split; [done|]. exists uri_default. split; [done|].
      split; [done|by apply joined_same].
  - by apply process_join.
  - by apply process_leave.
  - cbn [process]. destruct (del_all_spec fns who s (tm_ok_tables _ Hs) leaves_succeed) as (s1 & H1 & _ & Hs1 & Hj).
    rewrite (bind_ok _ _ _ _ _ H1). split; [by apply Hs1|]. exists uri_default. done.
  - cbn [process]. split; [|exists uri_default; done]. destruct Hs as (? & ? & Hc).
    split_and!; [done|done|]. intros k. cbn [tm_calls tm_joins tm_set_calls tm_set_running].
    rewrite module_joined_snoc. apply Hc.
Qed.
End worker.

(** The worker processes a list of messages, one after the other. *)
Fixpoint process_all (fns : module_fns) (stale : Z) (msgs : list tm_msg) :
    M tech_module (list tm_reply) :=
  match msgs with
  | [] => mret []
  | m :: msgs' => r ← process fns stale m; rs ← process_all fns stale msgs'; mret (r :: rs)
  end.

Lemma process_all_ok fns msgs s rs s' :
  (∀ u, join_fun fns u = HC_SUCCESS) → (∀ u, leave_fun fns u = HC_SUCCESS) →
  tm_ok s → process_all fns 0 msgs s = (Ok rs, s') → tm_ok s'.
Proof.
  intros Hj Hl. revert s rs. induction msgs as [|m msgs IH]; intros s rs Hs; simpl.
  - by intros [= <- <-].
  - intros H. apply bind_inv_ok in H as (r & s1 & Hr & H).
    pose proof (process_step fns Hj Hl m s Hs) as Hp. rewrite Hr in Hp. destruct Hp as [Hs1 _].
    apply bind_inv_ok in H as (rs1 & s2 & Hrs & H). apply ret_inv in H as [_ <-]. by eapply IH.
Qed.

(** ** Requests

    What a caller of [leave_all] gets when only jobs wait in the queue. *)

(** Functions of the worker that leave the queue alone. *)
Definition keeps_queue {A} (m : M tech_module A) : Prop :=
  ∀ s, tm_queue (m s).2 = tm_queue s ∧ tm_running (m s).2 = tm_running s.

Lemma keeps_queue_bind {A B} (m : M tech_module A) (k : A → M tech_module B) :
  keeps_queue m → (∀ a, keeps_queue (k a)) → keeps_queue (m ≫= k).
Proof.
  intros Hm Hk s. specialize (Hm s). rewrite /mbind /M_bind.
  destruct (m s) as [[a|e|w] s1]; [|done|done]. simpl in Hm. destruct (Hk a s1), Hm. split; congruence.
Qed.

Lemma keeps_queue_modify f :
  (∀ s, tm_queue (f s) = tm_queue s ∧ tm_running (f s) = tm_running s) → keeps_queue (modify f).
Proof. intros Hf s. apply Hf. Qed.

Lemma keeps_queue_ret {A} (a : A) : keeps_queue (mret a).
Proof. done. Qed.

Lemma keeps_queue_for_each {A} (l : list A) body :
  (∀ x, keeps_queue (body x)) → keeps_queue (for_each l body).
Proof. intros Hb. induction l; [done|]. by apply keeps_queue_bind. Qed.

Lemma keeps_queue_require b what : keeps_queue (require b what).
Proof. by destruct b. Qed.

Lemma keeps_queue_lookup fns u : keeps_queue (lookup_mapping fns u).
Proof. intros s. rewrite /lookup_mapping /zoom. by destruct (forward_lookup_map _ _ _). Qed.

Create HintDb queue discriminated.
#[export] Hint Resolve keeps_queue_bind keeps_queue_modify keeps_queue_ret keeps_queue_for_each
  keeps_queue_require keeps_queue_lookup : queue.

Lemma keeps_queue_del_all fns who : keeps_queue (del_all fns who).
Proof.
  apply keeps_queue_bind; [done|]. intros keys. apply keeps_queue_bind.
  - induction keys as [|k keys IH]; [done|]. cbn [del_from_lists].
    apply keeps_queue_bind; [done|]. intros s. apply keeps_queue_bind; [|eauto with queue].
    destruct (tm_joins s !! k) as [e|]; [|done]. destruct (bool_decide _); [|done].
    apply keeps_queue_bind; [by apply keeps_queue_modify|]. intros _.
    destruct (erase_first who (je_socks e)); [|done].
    apply keeps_queue_bind; [by apply keeps_queue_modify|done].
  - intros es. apply keeps_queue_for_each. intros g.
    apply keeps_queue_bind; [by apply keeps_queue_modify|]. intros _.
    apply keeps_queue_bind; [by apply keeps_queue_modify|eauto with queue].
Qed.

Lemma keeps_queue_try {A} (m : M tech_module A) h :
  keeps_queue m → (∀ e, keeps_queue (h e)) → keeps_queue (try_catch m h).
Proof.
  intros Hm Hh s. specialize (Hm s). rewrite /try_catch.
  destruct (m s) as [[a|e|w] s1]; [done| |done]. simpl in Hm. destruct (Hh e s1), Hm. split; congruence.
Qed.

Lemma keeps_queue_send fns stale j : keeps_queue (process fns stale (send_job_t j)).
Proof.
  apply keeps_queue_bind; [|done]. apply keeps_queue_try; [|by intros []].
  apply keeps_queue_bind; [apply keeps_queue_lookup|]. intros r. by apply keeps_queue_modify.
Qed.

Lemma keeps_queue_leave_all fns stale who : keeps_queue (process fns stale (leave_all_t who)).
Proof. apply keeps_queue_bind; [apply keeps_queue_del_all|done]. Qed.

Lemma tm_ok_queue q s : tm_ok s → tm_ok (tm_set_queue q s).
Proof. by destruct s. Qed.

Lemma tables_ok_queue q s : tables_ok s → tables_ok (tm_set_queue q s).
Proof. by destruct s. Qed.

Section requests.
Context (fns : module_fns) (stale : Z) (leaves_succeed : ∀ u, leave_fun fns u = HC_SUCCESS).

(** The messages that name no group: jobs and leave-all. *)
Definition names_no_group (msg : tm_msg) : Prop :=
  match msg with send_job_t _ | leave_all_t _ => True | _ => False end.

Lemma process_no_group msg s :
  tables_ok s → names_no_group msg →
  ∃ r s', process fns stale msg s = (Ok r, s') ∧ tables_ok s' ∧ tm_running s' = tm_running s ∧
    tm_queue s' = tm_queue s ∧ member_spec msg uri_default (joined s) (joined s') r.
Proof.
  intros Hs Hm. assert (keeps_queue (process fns stale msg)) as Hk.
  { destruct msg; try done; [apply keeps_queue_send|apply keeps_queue_leave_all]. }
  assert (∃ r s', process fns stale msg s = (Ok r, s') ∧ tables_ok s' ∧
    member_spec msg uri_default (joined s) (joined s') r) as (r & s' & E & Hs' & Hspec).
  { clear Hk. destruct msg as [|j| | |who|]; try done; cbn [process].
    - rewrite {1}/mbind /M_bind /try_catch. rewrite {1}/mbind /M_bind.
      destruct (lookup_mapping fns (sj_receiver j) s) as [[m|e|] s1] eqn:E;
        destruct (lookup_mapping_tables _ _ _ _ _ Hs E) as (Hs1 & Hj1 & _ & Hl); [| |done].
      + eexists _, _. split; [done|]. split; [by destruct Hs1|]. split; [done|by apply joined_same].
      + destruct Hl as (_ & why & ->). eexists _, _. split; [done|]. split; [done|]. split; [done|by apply joined_same].
    - destruct (del_all_spec fns who s Hs leaves_succeed) as (s1 & H1 & Hs1 & _ & Hj).
      rewrite (bind_ok _ _ _ _ _ H1). by eexists _, _. }
  specialize (Hk s). rewrite E in Hk. destruct Hk as [Hk1 Hk2]. by exists r, s'.
Qed.

(** The worker takes such a message: it cannot fail. *)
Lemma worker_step_total msg q s :
  tables_ok s → tm_running s = true → tm_queue s = msg :: q → names_no_group msg →
  ∃ r s', worker_step fns stale s = (Ok (Some r), s') ∧ tables_ok s' ∧ tm_running s' = true ∧
    tm_queue s' = q ∧ member_spec msg uri_default (joined s) (joined s') r.
Proof.
  intros Hs Hr Hq Hu. rewrite /worker_step {1}/mbind /M_bind /get Hr Hq.
  rewrite {1}/mbind /M_bind /modify. rewrite {1}/mbind /M_bind /try_catch.
  destruct (process_no_group msg _ (tables_ok_queue q s Hs) Hu) as (r & s1 & -> & Hs1 & Hr1 & Hq1 & Hm).
  exists r, s1. split; [done|]. split; [done|]. split; [by rewrite Hr1|]. split; [by rewrite Hq1|done].
Qed.

Lemma work_jobs js q s :
  tables_ok s → tm_running s = true → tm_queue s = (send_job_t <$> js) ++ q →
  ∃ s', tables_ok s' ∧ tm_running s' = true ∧ tm_queue s' = q ∧ (∀ k w, joined s' k w = joined s k w) ∧
    ∀ n, work fns stale (length js + n) s =
      match work fns stale n s' with
      | (Ok rs, s'') => (Ok ((Released <$> js) ++ rs), s'')
      | r => r
      end.
Proof.
  revert s. induction js as [|j js IH]; intros s Hs Hr Hq.
  { exists s. split_and!; try done. intros n. simpl. by destruct (work fns stale n s) as [[]]. }
  destruct (worker_step_total (send_job_t j) (fmap (M := list) send_job_t js ++ q) s Hs Hr Hq I)
    as (r & s1 & H1 & Hs1 & Hr1 & Hq1 & -> & Hj1).
  destruct (IH s1 Hs1 Hr1 Hq1) as (s2 & Hs2 & Hr2 & Hq2 & Hj2 & Hw2).
  exists s2. split_and!; try done; [intros; by rewrite Hj2 Hj1|]. intros n.
  simpl. rewrite (bind_ok _ _ _ _ _ H1) {1}/mbind /M_bind Hw2.
  by destruct (work fns stale n s2) as [[]].
Qed.

Lemma call_leave_all who js s :
  tables_ok s → tm_running s = true → tm_queue s = send_job_t <$> js →
  ∃ s', call fns stale (leave_all_t who) s = (Ok (Set_bool true, Released <$> js), s') ∧
    tables_ok s' ∧ tm_running s' = true ∧ tm_queue s' = [] ∧
    ∀ k w, joined s' k w = joined s k w && negb (bool_decide (w = who)).
Proof.
  intros Hs Hr Hq. rewrite /call {1}/mbind /M_bind /post /modify. rewrite {1}/mbind /M_bind /get.
  set (s0 := tm_set_queue _ s).
  assert (tm_queue s0 = (send_job_t <$> js) ++ [leave_all_t who]) as Hq0 by (cbn; by rewrite Hq).
  destruct (work_jobs js [leave_all_t who] s0) as (s1 & Hs1 & Hr1 & Hq1 & Hj1 & Hw1);
    [by apply tables_ok_queue|done|done|].
  destruct (worker_step_total (leave_all_t who) [] s1 Hs1 Hr1 Hq1 I)
    as (r & s2 & H2 & Hs2 & Hr2 & Hq2 & -> & Hj2).
  assert (length (tm_queue s0) = (length js + 1)%nat) as -> by by rewrite Hq0 length_app length_fmap.
  exists s2. rewrite {1}/mbind /M_bind Hw1. simpl. rewrite (bind_ok _ _ _ _ _ H2). simpl.
  rewrite last_snoc removelast_last. split_and!; try done. intros k w. by rewrite Hj2 Hj1.
Qed.
End requests.

(** ** Theorems *)

(** C5: the worker implements the membership relation.  Every message is
    processed to a reply, or throws a failed requirement because its group
    cannot be mapped, in which case no membership changes.  A join answers
    whether the socket was not yet a member of the mapped group and adds
    exactly this membership; a leave answers whether it was and removes
    exactly it; leave-all removes exactly the socket's memberships; nothing
    else changes any.  (For a module that accepts joins and leaves, and for
    [del] reading zero from the list it has just destroyed.) *)
Theorem worker_refines_membership (fns : module_fns) (msg : tm_msg) (s : tech_module) :
  (∀ u, join_fun fns u = HC_SUCCESS) → (∀ u, leave_fun fns u = HC_SUCCESS) →
  tm_ok s → process_ok msg s (process fns 0 msg s).
Proof. intros Hj Hl. by apply process_step. Qed.

(** A module that maps every group to one native name. *)
Definition native_group : uri := uri_of (str "ham:ip:239.0.0.1:5000").
Definition sample_fns : module_fns :=
  {| map_fun _ := (None, Some native_group); join_fun _ := HC_SUCCESS; leave_fun _ := HC_SUCCESS |}.
Definition news : uri := uri_of (str "ham:sip:news@cast").

Lemma worker_refines_membership_witness :
  process_ok (join_t news (1, 7)) (new_tech_module 1 0 [])
    (process sample_fns 0 (join_t news (1, 7)) (new_tech_module 1 0 [])).
Proof.
  apply (worker_refines_membership sample_fns (join_t news (1, 7)) (new_tech_module 1 0 []));
    [reflexivity|reflexivity|apply new_tech_module_ok].
Defined.

(** After any sequence of processed messages the module has been told
    to be a member of exactly the groups at least one socket has joined. *)
Theorem module_membership_exact (fns : module_fns) (msgs : list tm_msg) (id n : Z)
    (kvps : list (option bytes * option bytes)) (rs : list tm_reply) (s : tech_module) (k : bytes) :
  (∀ u, join_fun fns u = HC_SUCCESS) → (∀ u, leave_fun fns u = HC_SUCCESS) →
  process_all fns 0 msgs (new_tech_module id n kvps) = (Ok rs, s) →
  module_joined (tm_calls s) k = true ↔ ∃ who, joined s k who = true.
Proof.
  intros Hj Hl Hrun.
  destruct (process_all_ok _ _ _ _ _ Hj Hl (new_tech_module_ok id n kvps) Hrun) as (_ & Hjo & Hc).
  rewrite Hc bool_decide_eq_true /joined. split.
  - intros [e He]. destruct (Hjo _ _ He) as [_ Hne]. rewrite He.
    destruct (je_socks e) as [|x l]; [done|]. exists x. apply bool_decide_true. by left.
  - intros [who Hw]. by destruct (tm_joins s !! k).
Qed.

Lemma module_membership_exact_witness :
  ∃ rs s, process_all sample_fns 0 [join_t news (1, 7); join_t news (1, 8); leave_all_t (1, 7)]
      (new_tech_module 1 0 []) = (Ok rs, s) ∧
    ∃ who, joined s (uri_str native_group) who = true.
Proof.
  assert (∃ rs s, process_all sample_fns 0 [join_t news (1, 7); join_t news (1, 8); leave_all_t (1, 7)]
    (new_tech_module 1 0 []) = (Ok rs, s) ∧
    module_joined (tm_calls s) (uri_str native_group) = true) as (rs & s & Hrun & Hm).
  { eexists _, _. split; [vm_compute; reflexivity|]. vm_compute. reflexivity. }
  exists rs, s. split; [exact Hrun|].
  apply (module_membership_exact sample_fns _ 1 0 [] rs s (uri_str native_group)
           (λ _, eq_refl) (λ _, eq_refl) Hrun). exact Hm.
Defined.

(** A request to join, leave or look up a group that the module cannot
    map ends the whole process: the failed requirement leaves the thread
    function of the worker, which catches it for send jobs only. *)
Theorem unmappable_request_terminates (fns : module_fns) (stale : Z) (msg : tm_msg) (u : uri)
    (q : list tm_msg) (s : tech_module) :
  tm_running s = true → tm_queue s = msg :: q → request_uri msg = Some u →
  um_forward (tm_mappings s) !! uri_str u = None → uri_empty (tm_mapping_helper fns u) = true →
  ∃ s', worker_step fns stale s = (Throw (terminated "exception in tech_module::worker"), s').
Proof.
  intros Hr Hq Hu Hn He. rewrite /worker_step {1}/mbind /M_bind /get Hr Hq.
  rewrite {1}/mbind /M_bind /modify. rewrite {1}/mbind /M_bind /try_catch.
  assert (∀ s0, tm_mappings s0 = tm_mappings s →
    ∃ why s1, lookup_mapping fns u s0 = (Throw (requirement_failed why), s1)) as Hl.
  { intros s0 H0. rewrite /lookup_mapping /zoom /forward_lookup_map /mbind /M_bind /get H0 Hn.
    rewrite /require He. by eexists _, _. }
  destruct (Hl (tm_set_queue q s) eq_refl) as (why & s1 & Hl1).
  destruct msg; simplify_eq/=; erewrite bind_throw; try done; by eexists.
Qed.

Definition no_map_fns : module_fns :=
  {| map_fun _ := (None, None); join_fun _ := HC_SUCCESS; leave_fun _ := HC_SUCCESS |}.

Lemma unmappable_request_terminates_witness :
  ∃ s', worker_step no_map_fns 0 (tm_set_queue [join_t news (1, 7)] (new_tech_module 1 0 [])) =
    (Throw (terminated "exception in tech_module::worker"), s').
Proof.
  apply (unmappable_request_terminates no_map_fns 0 (join_t news (1, 7)) news []);
    reflexivity || (vm_compute; reflexivity).
Defined.

(** [leave_all] does not clean [m_fjoins]: [add] stores the mapped name
    where [del_all] expects the original one, so after a socket joined a
    group with a different native name and left everything, no group is
    joined but the forward entry of the group is still there. *)
Theorem leave_all_keeps_forward_join (fns : module_fns) (stale id n : Z) (u : uri) (who : sock) :
  join_fun fns (tm_mapping_helper fns u) = HC_SUCCESS →
  (∀ u, leave_fun fns u = HC_SUCCESS) →
  uri_empty (tm_mapping_helper fns u) = false → uri_str u ≠ uri_str (tm_mapping_helper fns u) →
  ∃ rs s, process_all fns stale [join_t u who; leave_all_t who] (new_tech_module id n []) = (Ok rs, s) ∧
    (∀ k w, joined s k w = false) ∧ tm_fjoins s !! uri_str u = Some (tm_mapping_helper fns u).
Proof.
  intros Hj Hl He Hne. set (m := tm_mapping_helper fns u) in *.
  set (s1 := {| tm_id := id; tm_atomic_msg_size := n; tm_sdr := ∅;
    tm_mappings := {| um_forward := {[uri_str u := m]}; um_reverse := {[uri_str m := u]} |};
    tm_queue := []; tm_joins := {[uri_str m := {| je_key := m; je_first := m; je_socks := [who] |}]};
    tm_fjoins := {[uri_str u := m]}; tm_calls := [Call_join m]; tm_running := true |}).
  assert (process fns stale (join_t u who) (new_tech_module id n []) = (Ok (Set_bool true), s1)) as H1.
  { cbn [process]. rewrite /lookup_mapping /zoom /forward_lookup_map. cbn [tm_mappings new_tech_module].
    rewrite /mbind /M_bind /get /=. rewrite lookup_empty /= /require He /= lookup_empty /=.
    rewrite /map_emplace !lookup_empty. rewrite /add /mbind /M_bind /get /= lookup_empty /=.
    rewrite /call_join /record_call /mbind /M_bind /modify /require. cbn [fst snd]. by rewrite Hj. }
  assert (sorted_keys (tm_joins s1) = [uri_str m]) as Hk.
  { rewrite /sorted_keys /= dom_singleton_L elements_singleton. done. }
  assert (∃ s2, process fns stale (leave_all_t who) s1 = (Ok (Set_bool true), s2) ∧
    tm_joins s2 = ∅ ∧ tm_fjoins s2 = {[uri_str u := m]}) as (s2 & H2 & Hj2 & Hf2).
  { cbn [process]. rewrite /del_all {1}/mbind /M_bind. rewrite {1}/mbind /M_bind /gets Hk.
    cbn [del_from_lists]. rewrite /mbind /M_bind /get. cbn [tm_joins s1].
    rewrite lookup_singleton_eq. cbn [je_socks]. rewrite bool_decide_true; [by left|].
    cbn [erase_first]. rewrite bool_decide_true; [done|]. cbn [je_key je_first].
    rewrite /modify /mret /M_ret. cbn [app for_each]. rewrite /mbind /M_bind /call_leave /record_call.
    rewrite /mbind /M_bind /modify /require Hl /=. eexists. split; [done|]. simpl.
    rewrite insert_singleton_eq delete_singleton_eq. split; [done|].
    rewrite delete_singleton_ne; [done|]. done. }
  exists [Set_bool true; Set_bool true], s2. cbn [process_all].
  rewrite (bind_ok _ _ _ _ _ H1). rewrite {1}/mbind /M_bind. rewrite {1}/mbind /M_bind H2.
  split; [done|]. split.
  - intros k w. by rewrite /joined Hj2 lookup_empty.
  - by rewrite Hf2 lookup_singleton_eq.
Qed.

Lemma leave_all_keeps_forward_join_witness :
  ∃ rs s, process_all sample_fns 0 [join_t news (1, 7); leave_all_t (1, 7)] (new_tech_module 1 0 [])
      = (Ok rs, s) ∧ tm_fjoins s !! uri_str news = Some (tm_mapping_helper sample_fns news).
Proof.
  destruct (leave_all_keeps_forward_join sample_fns 0 1 0 news (1, 7)) as (rs & s & H1 & _ & H2).
  - reflexivity.
  - reflexivity.
  - vm_compute. reflexivity.
  - vm_compute. discriminate.
  - exists rs, s. split; [exact H1|exact H2].
Defined.
