(* ===== verification/SocketProxy.v ===== *)
(** * Socket proxies

    [middleware::socket_proxy] ([socket_proxy.cpp]) and the lifetime of
    [send_job] ([send_job.cpp]): the middleware's side of a client socket.
    It accepts outgoing packets in the order of their sequence numbers,
    hands them to every interface, acknowledges them, and keeps the joined
    groups in step with the interfaces. *)

From stdpp Require Import sorting.
From S2P Require Import Prelude Config Uri Streams Serialization Message UriMappings StorageSemaphore.
From S2P Require Import TechModule.

(** ** The modules a socket talks to

    The tech modules by interface id, and the send jobs that are alive with
    their reference counts.  A job whose count drops to zero reports to the
    session of its client. *)
Record env := {
  e_modules : gmap Z tech_module;
  e_jobs : gmap nat (send_job * nat);
  e_next_job : nat;
  e_created : list send_job;
  e_done : list (Z * message)
}.

Definition e_set_modules m e := {| e_modules := m; e_jobs := e_jobs e; e_next_job := e_next_job e;
  e_created := e_created e; e_done := e_done e |}.
Definition e_set_jobs j e := {| e_modules := e_modules e; e_jobs := j; e_next_job := e_next_job e;
  e_created := e_created e; e_done := e_done e |}.
Definition e_set_done d e := {| e_modules := e_modules e; e_jobs := e_jobs e;
  e_next_job := e_next_job e; e_created := e_created e; e_done := d |}.

Definition empty_env : env :=
  {| e_modules := ∅; e_jobs := ∅; e_next_job := 0; e_created := []; e_done := [] |}.

(** [send_job(msg, receiver_group, ttl_value, client)]: the new object has
    one reference. *)
Definition new_send_job (msg : message) (receiver_group : uri) (ttl_value client : Z) :
    M env send_job :=
  require (negb (uri_empty receiver_group)) "!receiver_group.empty() && client" ;;
  e ← get;
  let j := {| sj_id := e_next_job e; sj_msg := msg; sj_receiver := receiver_group;
              sj_ttl := ttl_value; sj_client := client |} in
  put {| e_modules := e_modules e; e_jobs := <[sj_id j := (j, 1%nat)]> (e_jobs e);
         e_next_job := S (e_next_job e); e_created := e_created e ++ [j]; e_done := e_done e |} ;;
  mret j.

(** Copying and dropping a [send_job::ptr]; [~send_job] calls
    [m_client->async_job_done(m_msg)]. *)
Definition job_add_ref (j : send_job) : M env unit :=
  modify (λ e, match e_jobs e !! sj_id j with
               | Some (j', n) => e_set_jobs (<[sj_id j := (j', S n)]> (e_jobs e)) e
               | None => e
               end).

Definition job_release (j : send_job) : M env unit :=
  modify (λ e, match e_jobs e !! sj_id j with
               | Some (j', S (S n)) => e_set_jobs (<[sj_id j := (j', S n)]> (e_jobs e)) e
               | Some (j', _) =>
                   e_set_done (e_done e ++ [(sj_client j', sj_msg j')])
                     (e_set_jobs (delete (sj_id j) (e_jobs e)) e)
               | None => e
               end).

Definition release_all (rs : list tm_reply) : M env unit :=
  for_each rs (λ r, match r with Released j => job_release j | _ => mret tt end).

Section env.
Context (fns : Z → module_fns) (stale_size : Z).

(** A function of module [iid]. *)
Definition in_module {A} (iid : Z) (m : M tech_module A) : M env A := λ e,
  match e_modules e !! iid with
  | Some tm => let '(r, tm') := m tm in (r, e_set_modules (<[iid := tm']> (e_modules e)) e)
  | None => (UB "dangling tech_module pointer", e)
  end.

(** [join], [leave], [leave_all] and [mapping_of] of module [iid]: wait for
    the reply; the jobs the worker finished meanwhile lose a reference. *)
Definition module_request (iid : Z) (msg : tm_msg) : M env tm_reply :=
  p ← in_module iid (call (fns iid) stale_size msg);
  release_all p.2 ;;
  mret p.1.

(** The worker of module [iid] processes its next message. *)
Definition module_work (iid : Z) : M env unit :=
  r ← in_module iid (worker_step (fns iid) stale_size);
  release_all (option_list r).

(** [add_job] of module [iid]. *)
Definition module_add_job (iid : Z) (j : send_job) : M env unit :=
  job_add_ref j ;; in_module iid (add_job j).
End env.

(** ** The socket *)

Record socket_proxy := {
  sp_id : Z;
  sp_session : Z;
  last_acknowledged : Z;
  next_expected_seq_nr : Z;
  ack_counter : Z;
  sp_ttl : Z;
  sp_interfaces : list Z;
  sp_joined_groups : gmap bytes uri;
  sp_streams : gmap Z uri;
  sp_stream_ids : Z;
  sp_send_buf : Z;
  sp_receive_buf : Z
}.

Definition sp_set_acks l c s := {| sp_id := sp_id s; sp_session := sp_session s;
  last_acknowledged := l; next_expected_seq_nr := next_expected_seq_nr s; ack_counter := c;
  sp_ttl := sp_ttl s; sp_interfaces := sp_interfaces s; sp_joined_groups := sp_joined_groups s;
  sp_streams := sp_streams s; sp_stream_ids := sp_stream_ids s; sp_send_buf := sp_send_buf s;
  sp_receive_buf := sp_receive_buf s |}.
Definition sp_set_next n s := {| sp_id := sp_id s; sp_session := sp_session s;
  last_acknowledged := last_acknowledged s; next_expected_seq_nr := n; ack_counter := ack_counter s;
  sp_ttl := sp_ttl s; sp_interfaces := sp_interfaces s; sp_joined_groups := sp_joined_groups s;
  sp_streams := sp_streams s; sp_stream_ids := sp_stream_ids s; sp_send_buf := sp_send_buf s;
  sp_receive_buf := sp_receive_buf s |}.
Definition sp_set_ttl n s := {| sp_id := sp_id s; sp_session := sp_session s;
  last_acknowledged := last_acknowledged s; next_expected_seq_nr := next_expected_seq_nr s;
  ack_counter := ack_counter s; sp_ttl := n; sp_interfaces := sp_interfaces s;
  sp_joined_groups := sp_joined_groups s; sp_streams := sp_streams s;
  sp_stream_ids := sp_stream_ids s; sp_send_buf := sp_send_buf s; sp_receive_buf := sp_receive_buf s |}.
Definition sp_set_interfaces l s := {| sp_id := sp_id s; sp_session := sp_session s;
  last_acknowledged := last_acknowledged s; next_expected_seq_nr := next_expected_seq_nr s;
  ack_counter := ack_counter s; sp_ttl := sp_ttl s; sp_interfaces := l;
  sp_joined_groups := sp_joined_groups s; sp_streams := sp_streams s;
  sp_stream_ids := sp_stream_ids s; sp_send_buf := sp_send_buf s; sp_receive_buf := sp_receive_buf s |}.
Definition sp_set_joined g s := {| sp_id := sp_id s; sp_session := sp_session s;
  last_acknowledged := last_acknowledged s; next_expected_seq_nr := next_expected_seq_nr s;
  ack_counter := ack_counter s; sp_ttl := sp_ttl s; sp_interfaces := sp_interfaces s;
  sp_joined_groups := g; sp_streams := sp_streams s; sp_stream_ids := sp_stream_ids s;
  sp_send_buf := sp_send_buf s; sp_receive_buf := sp_receive_buf s |}.
Definition sp_set_streams m i s := {| sp_id := sp_id s; sp_session := sp_session s;
  last_acknowledged := last_acknowledged s; next_expected_seq_nr := next_expected_seq_nr s;
  ack_counter := ack_counter s; sp_ttl := sp_ttl s; sp_interfaces := sp_interfaces s;
  sp_joined_groups := sp_joined_groups s; sp_streams := m; sp_stream_ids := i;
  sp_send_buf := sp_send_buf s; sp_receive_buf := sp_receive_buf s |}.
Definition sp_set_send_buf n s := {| sp_id := sp_id s; sp_session := sp_session s;
  last_acknowledged := last_acknowledged s; next_expected_seq_nr := next_expected_seq_nr s;
  ack_counter := ack_counter s; sp_ttl := sp_ttl s; sp_interfaces := sp_interfaces s;
  sp_joined_groups := sp_joined_groups s; sp_streams := sp_streams s;
  sp_stream_ids := sp_stream_ids s; sp_send_buf := n; sp_receive_buf := sp_receive_buf s |}.
Definition sp_set_receive_buf n s := {| sp_id := sp_id s; sp_session := sp_session s;
  last_acknowledged := last_acknowledged s; next_expected_seq_nr := next_expected_seq_nr s;
  ack_counter := ack_counter s; sp_ttl := sp_ttl s; sp_interfaces := sp_interfaces s;
  sp_joined_groups := sp_joined_groups s; sp_streams := sp_streams s;
  sp_stream_ids := sp_stream_ids s; sp_send_buf := sp_send_buf s; sp_receive_buf := n |}.

(** The constructor: the socket uses the first known interface. *)
Definition new_socket_proxy (sid session : Z) : M env socket_proxy :=
  e ← get;
  match merge_sort Z.le (elements (dom (e_modules e))) with
  | [] => throw (requirement_failed "!possibilities.empty()")
  | front :: _ =>
      mret {| sp_id := sid; sp_session := session; last_acknowledged := 0;
              next_expected_seq_nr := 0; ack_counter := 0; sp_ttl := 1;
              sp_interfaces := [front]; sp_joined_groups := ∅; sp_streams := ∅;
              sp_stream_ids := 0; sp_send_buf := default_max_buffer_size;
              sp_receive_buf := default_max_buffer_size |}
  end.

(** What a member function works on: the socket, the modules and the IPC
    output. *)
Record pstate (S : Type) := {
  p_sock : socket_proxy;
  p_env : env;
  p_out : S
}.
Arguments p_sock {S}.
Arguments p_env {S}.
Arguments p_out {S}.
Arguments Build_pstate {S}.

Section socket_proxy.
Context {S : Type} `{Sink S} (fns : Z → module_fns) (stale_size : Z) (address : Z → Z).
Abbreviation PM := (M (pstate S)).

Definition on_sock {A} (m : M socket_proxy A) : PM A :=
  zoom p_sock (λ x s, Build_pstate x (p_env s) (p_out s)) m.
Definition on_env {A} (m : M env A) : PM A :=
  zoom p_env (λ x s, Build_pstate (p_sock s) x (p_out s)) m.
Definition on_out {A} (m : M S A) : PM A :=
  zoom p_out (λ x s, Build_pstate (p_sock s) (p_env s) x) m.

(** [acquire_bytes] and [delivered]: the receive buffer. *)
Definition acquire_bytes (num : Z) : M socket_proxy bool :=
  s ← get;
  match semaphore.try_acquire (i32 num) (sp_receive_buf s) with
  | Some av => modify (sp_set_receive_buf av) ;; mret true
  | None => mret false
  end.

Definition delivered (num_bytes : Z) : M socket_proxy unit :=
  modify (λ s, sp_set_receive_buf (semaphore.release_bytes (i32 num_bytes) (sp_receive_buf s)) s).

(** [add_stream]: [id_generator<uint16_t>::next] and an insertion that
    keeps an existing stream. *)
Definition add_stream (group : uri) : M socket_proxy Z :=
  s ← get;
  let result := sp_stream_ids s in
  modify (sp_set_streams (match sp_streams s !! result with
                          | Some _ => sp_streams s
                          | None => <[result := group]> (sp_streams s)
                          end) (u16 (result + 1))) ;;
  mret result.

(** [handle_async_send]. *)
Definition handle_async_send (msg : message) : PM unit :=
  let asv := view_async_send msg in
  s ← gets p_sock;
  match sp_streams s !! as_stm_id asv with
  | Some outgoing_group =>
      if next_expected_seq_nr s =? as_seq_nr asv then
        match semaphore.try_acquire (i32 (m_content_size msg)) (sp_send_buf s) with
        | Some av =>
            on_sock (modify (sp_set_send_buf av)) ;;
            sj ← on_env (new_send_job msg outgoing_group (sp_ttl s) (sp_session s));
            for_each (sp_interfaces s) (λ t, on_env (module_add_job t sj)) ;;
            on_sock (modify (λ s, sp_set_next (u32 (next_expected_seq_nr s + 1)) s)) ;;
            on_env (job_release sj)
        | None =>
            on_out (serialize_as_message message_type.retransmit (as_stm_id asv) (as_sck_id asv)
                      (as_seq_nr asv) 0 None) ;;
            on_out sink_flush
        end
      else mret tt
  | None => mret tt
  end.

(** [async_job_done]. *)
Definition async_job_done (msg : message) : PM unit :=
  let asv := view_async_send msg in
  s ← gets p_sock;
  match sp_streams s !! as_stm_id asv with
  | Some _ =>
      let ac := (ack_counter s + 1) mod max_ack_block_size in
      (if (ac =? 0) || (default_max_buffer_size <=? (default_max_buffer_size - sp_send_buf s) * 2) then
         on_out (serialize_as_message message_type.cumulative_ack (as_stm_id asv) (sp_id s)
                   (as_seq_nr asv) 0 None) ;;
         on_sock (modify (λ s, sp_set_acks (as_seq_nr asv) (ack_counter s) s)) ;;
         on_out sink_flush
       else mret tt) ;;
      on_sock (modify (λ s, sp_set_send_buf
                 (semaphore.release_bytes (i32 (m_content_size msg)) (sp_send_buf s)) s)) ;;
      on_sock (modify (λ s, sp_set_acks (last_acknowledged s) ac s))
  | None => mret tt
  end.

(** The streams in the order of their ids. *)
Definition stream_ids (s : socket_proxy) : list Z := merge_sort Z.le (elements (dom (sp_streams s))).

(** [force_acks]. *)
Fixpoint force_acks_loop (ids : list Z) : PM bool :=
  match ids with
  | [] => mret false
  | i :: ids' =>
      s ← gets p_sock;
      r ← (if 0 <? ack_counter s then
             let sqnr := u32 (last_acknowledged s + u32 (ack_counter s)) in
             on_out (serialize_as_message message_type.cumulative_ack i (sp_id s) sqnr 0 None) ;;
             on_sock (modify (sp_set_acks sqnr 0)) ;;
             mret true
           else mret false);
      rest ← force_acks_loop ids';
      mret (r || rest)
  end.

Definition force_acks : PM bool :=
  s ← gets p_sock; force_acks_loop (stream_ids s).

(** ** Groups and interfaces *)

Definition self_ptr (s : socket_proxy) : sock := (sp_session s, sp_id s).

Definition sp_join (what : uri) : PM unit :=
  s ← gets p_sock;
  require (bool_decide (sp_interfaces s ≠ [])) "!m_interfaces.empty()" ;;
  match sp_joined_groups s !! uri_str what with
  | Some _ => mret tt
  | None =>
      on_sock (modify (λ s, sp_set_joined (<[uri_str what := what]> (sp_joined_groups s)) s)) ;;
      for_each (sp_interfaces s) (λ i,
        on_env (module_request fns stale_size i (join_t what (self_ptr s))) ;; mret tt)
  end.

Definition sp_leave (what : uri) : PM unit :=
  s ← gets p_sock;
  require (bool_decide (sp_interfaces s ≠ [])) "!m_interfaces.empty()" ;;
  match sp_joined_groups s !! uri_str what with
  | None => mret tt
  | Some _ =>
      on_sock (modify (λ s, sp_set_joined (delete (uri_str what) (sp_joined_groups s)) s)) ;;
      for_each (sp_interfaces s) (λ i,
        on_env (module_request fns stale_size i (leave_t what (self_ptr s))) ;; mret tt)
  end.

Definition sp_leave_all (clear_joined_groups : bool) : PM unit :=
  s ← gets p_sock;
  match sp_interfaces s with
  | [] => mret tt
  | l =>
      for_each l (λ i, on_env (module_request fns stale_size i (leave_all_t (self_ptr s))) ;; mret tt) ;;
      if clear_joined_groups then on_sock (modify (sp_set_joined ∅)) else mret tt
  end.

(** [std::sort] of the module pointers, by their addresses. *)
Definition address_le (a b : Z) : Prop := address a <= address b.
#[export] Instance address_le_dec : RelDecision address_le.
Proof. intros a b. rewrite /address_le. apply _. Defined.

(** [std::set_intersection]. *)
Fixpoint set_intersection (l1 : list Z) : list Z → list Z :=
  fix go (l2 : list Z) : list Z :=
    match l1, l2 with
    | x :: l1', y :: l2' =>
        if address x <? address y then set_intersection l1' l2
        else if address y <? address x then go l2'
        else x :: set_intersection l1' l2'
    | _, _ => []
    end.

(** The groups in the order of [std::set<uri>]. *)
Definition joined_list (s : socket_proxy) : list uri :=
  omap (λ k, sp_joined_groups s !! k) (sorted_keys (sp_joined_groups s)).

Definition sp_set_ifaces (const_tms : list Z) : PM unit :=
  s ← gets p_sock;
  let tms := merge_sort address_le const_tms in
  let ifs := merge_sort address_le (sp_interfaces s) in
  let intersection := set_intersection tms ifs in
  let ifs' := foldl (λ l i, erase_first i l) ifs intersection in
  let tms' := foldl (λ l i, erase_first i l) tms intersection in
  on_sock (modify (sp_set_interfaces ifs')) ;;
  (if bool_decide (ifs' ≠ []) then sp_leave_all false else mret tt) ;;
  for_each (joined_list s) (λ g,
    for_each tms' (λ j,
      on_env (module_request fns stale_size j (join_t g (self_ptr s))) ;; mret tt)) ;;
  on_sock (modify (sp_set_interfaces (intersection ++ tms'))).
End socket_proxy.

(** ** What handing a job to the interfaces does *)

(** The jobs alive with [j] counted [n] times; a dead job is gone. *)
Definition with_refs (j : send_job) (n : nat) (js : gmap nat (send_job * nat)) :
    gmap nat (send_job * nat) :=
  if (n =? 0)%nat then delete (sj_id j) js else <[sj_id j := (j, n)]> js.

(** The modules after [j] was queued once for each occurrence in [l]. *)
Definition queue_job (l : list Z) (j : send_job) (ms : gmap Z tech_module) : gmap Z tech_module :=
  map_imap (λ i m, Some (tm_set_queue
    (tm_queue m ++ replicate (length (filter (i =.) l)) (send_job_t j)) m)) ms.

Lemma tm_set_queue_self m : tm_set_queue (tm_queue m) m = m.
Proof. by destruct m. Qed.

Lemma queue_job_nil j ms : queue_job [] j ms = ms.
Proof.
  apply map_eq. intros i. rewrite /queue_job map_lookup_imap.
  destruct (ms !! i) as [m|]; simpl; [|done]. by rewrite app_nil_r tm_set_queue_self.
Qed.

Lemma queue_job_cons i l j ms m :
  ms !! i = Some m →
  queue_job (i :: l) j ms = queue_job l j (<[i := tm_set_queue (tm_queue m ++ [send_job_t j]) m]> ms).
Proof.
  intros Hi. apply map_eq. intros k. rewrite /queue_job !map_lookup_imap filter_cons.
  destruct (decide (k = i)) as [->|Hk].
  - rewrite lookup_insert_eq Hi /=. by rewrite -app_assoc.
  - by rewrite lookup_insert_ne.
Qed.

Lemma add_jobs_spec l j n e :
  e_jobs e !! sj_id j = Some (j, n) → (∀ i, i ∈ l → is_Some (e_modules e !! i)) →
  for_each l (λ t, module_add_job t j) e =
    (Ok tt, e_set_modules (queue_job l j (e_modules e))
              (e_set_jobs (<[sj_id j := (j, (n + length l)%nat)]> (e_jobs e)) e)).
Proof.
  revert n e. induction l as [|i l IH]; intros n e Hj Hl; simpl.
  - rewrite queue_job_nil Nat.add_0_r insert_id //. by destruct e.
  - destruct (Hl i) as [m Hm]; [by left|].
    rewrite /module_add_job {1}/mbind /M_bind. rewrite {1}/mbind /M_bind /job_add_ref /modify Hj.
    rewrite /in_module. cbn [e_modules e_set_jobs]. rewrite Hm. cbn [add_job post modify].
    rewrite /add_job /post /modify. rewrite (IH (S n)).
    + cbn. by rewrite lookup_insert_eq.
    + intros k Hk. cbn. destruct (decide (k = i)) as [->|].
      * rewrite lookup_insert_eq. eauto.
      * rewrite lookup_insert_ne //. apply Hl. by right.
    + cbn. rewrite (queue_job_cons _ _ _ _ _ Hm) insert_insert_eq.
      by rewrite Nat.add_succ_r.
Qed.

Lemma on_env_for_each {S A} (l : list A) (body : A → M env unit) (s : pstate S) :
  for_each l (λ x, on_env (body x)) s = on_env (for_each l body) s.
Proof.
  revert s. induction l as [|x l IH]; intros s; simpl; [by destruct s|].
  rewrite /mbind /M_bind /on_env /zoom. destruct (body x (p_env s)) as [[[]|e|w] e1] eqn:E; [|done|done].
  rewrite IH /on_env /zoom /=. done.
Qed.

Lemma job_release_spec j n e :
  e_jobs e !! sj_id j = Some (j, S n) →
  job_release j e =
    (Ok tt, e_set_done (e_done e ++ if (n =? 0)%nat then [(sj_client j, sj_msg j)] else [])
              (e_set_jobs (with_refs j n (e_jobs e)) e)).
Proof.
  intros Hj. rewrite /job_release /modify Hj. destruct n as [|n]; [done|].
  rewrite app_nil_r. by destruct e.
Qed.

Lemma control_message_emits {S} `{Sink S} t f1 f2 f3 :
  emits (serialize_as_message t f1 f2 f3 0 None) (enc_header t f1 f2 f3 0).
Proof. rewrite -(app_nil_r (enc_header _ _ _ _ _)). apply emits_header, emits_nil. Qed.

(** The job that [handle_async_send] creates, and the environment it leaves
    behind: the job is queued for every interface, holds one reference per
    interface, and is already done when there is no interface. *)
Definition job_of (msg : message) (g : uri) (s : socket_proxy) (e : env) : send_job :=
  {| sj_id := e_next_job e; sj_msg := msg; sj_receiver := g; sj_ttl := sp_ttl s;
     sj_client := sp_session s |}.

Definition env_accepted (j : send_job) (l : list Z) (e : env) : env := {|
  e_modules := queue_job l j (e_modules e);
  e_jobs := with_refs j (length l) (<[sj_id j := (j, 1%nat)]> (e_jobs e));
  e_next_job := S (e_next_job e);
  e_created := e_created e ++ [j];
  e_done := e_done e ++ match l with [] => [(sj_client j, sj_msg j)] | _ => [] end |}.

Lemma with_refs_insert j n x js : with_refs j n (<[sj_id j := x]> js) = with_refs j n js.
Proof. rewrite /with_refs. destruct n; simpl; [apply delete_insert_eq|apply insert_insert_eq]. Qed.

(** Jobs reach the queues, or nothing but the output changes. *)
Definition async_send_result {S} (msg : message) (s : pstate S) (o : M S unit) :
    outcome unit * pstate S :=
  let sk := p_sock s in
  match sp_streams sk !! as_stm_id (view_async_send msg) with
  | None => (Ok tt, s)
  | Some g =>
      if next_expected_seq_nr sk =? as_seq_nr (view_async_send msg) then
        match semaphore.try_acquire (i32 (m_content_size msg)) (sp_send_buf sk) with
        | None => on_out o s
        | Some av =>
            if uri_empty g then
              (Throw (requirement_failed "!receiver_group.empty() && client"),
               Build_pstate (sp_set_send_buf av sk) (p_env s) (p_out s))
            else
              (Ok tt, Build_pstate
                (sp_set_next (u32 (next_expected_seq_nr sk + 1)) (sp_set_send_buf av sk))
                (env_accepted (job_of msg g sk (p_env s)) (sp_interfaces sk) (p_env s)) (p_out s))
        end
      else (Ok tt, s)
  end.

(** [handle_async_send] on every branch.  A packet of an unknown stream
    or out of sequence changes nothing.  One that does not fit the send
    buffer changes nothing but is answered by a retransmit message for its
    sequence number.  One that fits takes its size from the buffer, advances
    the expected number, and is queued exactly once for every interface of
    the socket, alive with one reference per interface (and reported as done
    at once when there is no interface).  A stream for the empty URI makes
    the constructor of the job throw after the bytes were taken. *)
Theorem handle_async_send_functional {S} `{Sink S} (msg : message) (s : pstate S) :
  (∀ i, i ∈ sp_interfaces (p_sock s) → is_Some (e_modules (p_env s) !! i)) →
  ∃ o : M S unit,
    emits o (enc_header message_type.retransmit (as_stm_id (view_async_send msg))
               (as_sck_id (view_async_send msg)) (as_seq_nr (view_async_send msg)) 0) ∧
    handle_async_send msg s = async_send_result msg s (o ;; sink_flush).
Proof.
  intros Hl. eexists. split; [apply control_message_emits|].
  rewrite /handle_async_send /async_send_result {1}/mbind /M_bind /gets.
  destruct (sp_streams _ !! _) as [g|]; [|done]. destruct (_ =? _); [|done].
  destruct (semaphore.try_acquire _ _) as [av|].
  2: { rewrite /mbind /M_bind /on_out /zoom.
       destruct (serialize_as_message _ _ _ _ _ _ (p_out s)) as [[[]|?|?] o1]; [|done|done].
       cbn. by destruct (sink_flush o1). }
  rewrite {1}/mbind /M_bind {1}/on_sock /zoom /modify. cbn [p_env p_sock p_out].
  rewrite {1}/mbind /M_bind {1}/on_env /zoom. cbn [p_env p_sock p_out].
  rewrite /new_send_job {1}/mbind /M_bind /require. destruct (uri_empty g); [done|].
  cbn [negb]. rewrite /mret /M_ret /get /put. rewrite {1}/mbind /M_bind. rewrite {1}/mbind /M_bind.
  rewrite {1}/mbind /M_bind on_env_for_each /on_env /zoom. cbn [p_env p_sock p_out].
  change {| sj_id := e_next_job (p_env s) |} with (job_of msg g (p_sock s) (p_env s)).
  set (j := job_of msg g (p_sock s) (p_env s)).
  rewrite (add_jobs_spec _ j 1); [by cbn; rewrite lookup_insert_eq|done|].
  rewrite {1}/mbind /M_bind /on_sock /zoom. cbn [p_env p_sock p_out].
  rewrite (job_release_spec j (length (sp_interfaces (p_sock s)))).
  { cbn. by rewrite lookup_insert_eq. }
  cbn -[queue_job with_refs]. rewrite /env_accepted.
  change (e_next_job (p_env s)) with (sj_id j). rewrite !with_refs_insert.
  by destruct (sp_interfaces _).
Qed.

(** A socket with one stream and one interface. *)
Definition sample_env : env :=
  e_set_modules {[ 1 := new_tech_module 1 0 [] ]} empty_env.
Definition sample_proxy : socket_proxy := {|
  sp_id := 7; sp_session := 1; last_acknowledged := 0; next_expected_seq_nr := 0; ack_counter := 0;
  sp_ttl := 1; sp_interfaces := [1]; sp_joined_groups := ∅; sp_streams := {[ 0 := news ]};
  sp_stream_ids := 1; sp_send_buf := default_max_buffer_size;
  sp_receive_buf := default_max_buffer_size |}.
Definition sample_pstate : pstate log_sink := Build_pstate sample_proxy sample_env empty_log.
Definition sample_send (seq : Z) : message := {| m_type := message_type.async_send; m_field1 := 0;
  m_field2 := 7; m_field3 := seq; m_content_size := 3; m_content := Some (str "abc") |}.

Lemma handle_async_send_functional_witness :
  ∃ o : M log_sink unit, handle_async_send (sample_send 0) sample_pstate =
    async_send_result (sample_send 0) sample_pstate (o ;; sink_flush).
Proof.
  destruct (handle_async_send_functional (sample_send 0) sample_pstate) as (o & _ & Ho).
  - intros i Hi. apply list_elem_of_singleton in Hi as ->.
    exists (new_tech_module 1 0 []). vm_compute. reflexivity.
  - exists o. exact Ho.
Defined.

(** ** Histories of a socket

    The packets in flight are those of the jobs that were created and not
    yet reported back; [op_done k] reports the [k]-th of them, jobs finish
    in any order. *)
Inductive proxy_op :=
  | op_stream (g : uri)
  | op_send (msg : message)
  | op_done (k : nat)
  | op_ack
  | op_work (iid : Z).

Section history.
Context {S : Type} `{Sink S} (fns : Z → module_fns) (stale_size : Z).

Definition proxy_step (op : proxy_op) (flight : list message) : M (pstate S) (list message) :=
  match op with
  | op_stream g => on_sock (add_stream g) ;; mret flight
  | op_send msg =>
      e ← gets p_env;
      handle_async_send msg ;;
      e' ← gets p_env;
      mret (flight ++ (sj_msg <$> drop (length (e_created e)) (e_created e')))
  | op_done k =>
      match flight !! k with
      | Some msg => async_job_done msg ;; mret (delete k flight)
      | None => mret flight
      end
  | op_ack => force_acks ;; mret flight
  | op_work iid => on_env (module_work fns stale_size iid) ;; mret flight
  end.

Fixpoint proxy_run (ops : list proxy_op) (flight : list message) : M (pstate S) (list message) :=
  match ops with
  | [] => mret flight
  | op :: ops' => f ← proxy_step op flight; proxy_run ops' f
  end.

Definition sizes (l : list message) : Z := foldr (λ m n, m_content_size m + n) 0 l.

Definition size_ok (m : message) : Prop := 0 <= m_content_size m < 2 ^ 31.
Definition op_ok (op : proxy_op) : Prop :=
  match op with op_send m => size_ok m | _ => True end.

(** The accounting of the send buffer and the numbering of the jobs. *)
Definition proxy_inv (flight : list message) (s : pstate S) : Prop :=
  Forall (λ m, size_ok m ∧ is_Some (sp_streams (p_sock s) !! as_stm_id (view_async_send m))) flight ∧
  sp_send_buf (p_sock s) = default_max_buffer_size - sizes flight ∧ 0 <= sp_send_buf (p_sock s) ∧
  next_expected_seq_nr (p_sock s) = u32 (zlen (e_created (p_env s))) ∧
  ∀ i j, e_created (p_env s) !! i = Some j → as_seq_nr (view_async_send (sj_msg j)) = u32 (Z.of_nat i).

Lemma sizes_cons m l : sizes (m :: l) = m_content_size m + sizes l.
Proof. done. Qed.

Lemma sizes_app l k : sizes (l ++ k) = sizes l + sizes k.
Proof. induction l as [|m l IH]; [done|]. rewrite -app_comm_cons !sizes_cons IH. lia. Qed.

Lemma sizes_nonneg l : Forall size_ok l → 0 <= sizes l.
Proof. induction 1 as [|m l [? ?] _ IH]; [done|]. rewrite sizes_cons. lia. Qed.

Lemma sizes_delete l k m : l !! k = Some m → sizes (delete k l) = sizes l - m_content_size m.
Proof.
  intros Hk. rewrite delete_take_drop sizes_app -{3}(take_drop_middle _ _ _ Hk) sizes_app sizes_cons.
  lia.
Qed.

(** Functions that keep the list of created jobs. *)
Definition keeps_created {A} (m : M env A) : Prop := ∀ e, e_created (m e).2 = e_created e.

Lemma keeps_ret {A} (a : A) : keeps_created (mret a).
Proof. done. Qed.

Lemma keeps_bind {A B} (m : M env A) (k : A → M env B) :
  keeps_created m → (∀ a, keeps_created (k a)) → keeps_created (m ≫= k).
Proof.
  intros Hm Hk e. rewrite /mbind /M_bind. specialize (Hm e).
  destruct (m e) as [[a|?|?] e1]; simpl in *; [by rewrite Hk|done|done].
Qed.

Lemma keeps_for_each {A} (l : list A) (body : A → M env unit) :
  (∀ x, keeps_created (body x)) → keeps_created (for_each l body).
Proof. intros Hb. induction l; simpl; [apply keeps_ret|]. by apply keeps_bind. Qed.

Lemma keeps_in_module {A} iid (m : M tech_module A) : keeps_created (in_module iid m).
Proof. intros e. rewrite /in_module. destruct (_ !! _); [|done]. by destruct (m t). Qed.

Lemma keeps_release j : keeps_created (job_release j).
Proof.
  intros e. rewrite /job_release /modify /=. by destruct (_ !! _) as [[j' [|[|n]]]|].
Qed.

Lemma keeps_work iid : keeps_created (module_work fns stale_size iid).
Proof.
  apply keeps_bind; [apply keeps_in_module|]. intros r. apply keeps_for_each.
  intros []; [apply keeps_ret..|apply keeps_release].
Qed.

Lemma keeps_add_job iid j : keeps_created (module_add_job iid j).
Proof.
  apply keeps_bind; [|intros; apply keeps_in_module].
  intros e. rewrite /job_add_ref /modify /=. by destruct (_ !! _) as [[]|].
Qed.

Lemma send_cases msg (s s' : pstate S) :
  handle_async_send msg s = (Ok tt, s') →
  (p_sock s' = p_sock s ∧ e_created (p_env s') = e_created (p_env s)) ∨
  ∃ av j, is_Some (sp_streams (p_sock s) !! as_stm_id (view_async_send msg)) ∧
    next_expected_seq_nr (p_sock s) = as_seq_nr (view_async_send msg) ∧
    semaphore.try_acquire (i32 (m_content_size msg)) (sp_send_buf (p_sock s)) = Some av ∧
    p_sock s' = sp_set_next (u32 (next_expected_seq_nr (p_sock s) + 1)) (sp_set_send_buf av (p_sock s)) ∧
    e_created (p_env s') = e_created (p_env s) ++ [j] ∧ sj_msg j = msg.
Proof.
  rewrite /handle_async_send {1}/mbind /M_bind /gets.
  destruct (sp_streams _ !! _) as [g|] eqn:Eg; [|intros [= <-]; by left].
  destruct (Z.eqb_spec (next_expected_seq_nr (p_sock s)) (as_seq_nr (view_async_send msg)));
    [|intros [= <-]; by left].
  destruct (semaphore.try_acquire _ _) as [av|] eqn:Eav; intros Hm.
  - right. inv_bind Hm as u1 s1 H1. inv_bind Hm as sj s2 H2. inv_bind Hm as u3 s3 H3.
    inv_bind Hm as u4 s4 H4. injection H1 as _ <-. injection H4 as _ <-.
    rewrite on_env_for_each /on_env /zoom in H3. rewrite /on_env /zoom in H2 Hm.
    cbn [p_sock p_env p_out] in *.
    assert (e_created (p_env s2) = e_created (p_env s) ++ [sj] ∧ sj_msg sj = msg ∧
      p_sock s2 = sp_set_send_buf av (p_sock s)) as (Hc2 & Hmsg & Hs2).
    { destruct (new_send_job _ _ _ _ _) as [r e2] eqn:En. injection H2 as -> <-.
      rewrite /new_send_job /require {1}/mbind /M_bind in En. destruct (negb _); [|done].
      by injection En as <- <-. }
    pose proof (keeps_for_each (sp_interfaces (p_sock s)) (λ x, module_add_job x sj)
      (λ x, keeps_add_job x sj) (p_env s2)) as Hc3.
    destruct (for_each _ _ (p_env s2)) as [r3 e3]. injection H3 as -> <-. cbn [p_sock p_env p_out snd] in Hm, Hc3.
    pose proof (keeps_release sj e3) as Hc4. destruct (job_release sj e3) as [r4 e4].
    injection Hm as -> <-. cbn in *. exists av, sj. rewrite Hc4 Hc3 Hs2 Hc2. eauto 10.
  - left. inv_bind Hm as u1 s1 H1. rewrite /on_out /zoom in H1 Hm.
    destruct (serialize_as_message _ _ _ _ _ _ _). injection H1 as -> <-. cbn in Hm.
    destruct (sink_flush _). by injection Hm as -> <-.
Qed.

Lemma done_spec msg (s s' : pstate S) :
  async_job_done msg s = (Ok tt, s') →
  is_Some (sp_streams (p_sock s) !! as_stm_id (view_async_send msg)) →
  p_env s' = p_env s ∧ ∃ l c, p_sock s' = sp_set_acks l c (sp_set_send_buf
    (semaphore.release_bytes (i32 (m_content_size msg)) (sp_send_buf (p_sock s))) (p_sock s)).
Proof.
  intros Hm [g Hg]. rewrite /async_job_done {1}/mbind /M_bind /gets Hg in Hm.
  inv_bind Hm as u1 s1 H1. inv_bind Hm as u2 s2 H2. injection H2 as _ <-. injection Hm as <-. cbn.
  assert (p_env s1 = p_env s ∧ ∃ l, p_sock s1 = sp_set_acks l (ack_counter (p_sock s)) (p_sock s))
    as (He & l & Hl).
  { destruct (_ || _).
    - inv_bind H1 as v1 t1 G1. inv_bind H1 as v2 t2 G2. injection G2 as _ <-.
      rewrite /on_out /zoom in G1 H1.
      destruct (serialize_as_message _ _ _ _ _ _ _). injection G1 as -> <-. cbn in H1.
      destruct (sink_flush _). injection H1 as -> <-. cbn. eauto.
    - injection H1 as _ <-. split; [done|]. exists (last_acknowledged (p_sock s)). by destruct (p_sock s). }
  rewrite He Hl. split; [done|]. eexists _, _. done.
Qed.

Lemma acks_spec ids (s s' : pstate S) b :
  force_acks_loop ids s = (Ok b, s') →
  p_env s' = p_env s ∧ ∃ l c, p_sock s' = sp_set_acks l c (p_sock s).
Proof.
  revert s b. induction ids as [|i ids IH]; intros s b Hm; cbn [force_acks_loop] in Hm.
  - injection Hm as _ <-. split; [done|]. exists (last_acknowledged (p_sock s)), (ack_counter (p_sock s)). by destruct (p_sock s).
  - rewrite {1}/mbind /M_bind /gets in Hm. inv_bind Hm as r1 s1 H1. inv_bind Hm as r2 s2 H2.
    apply ret_inv in Hm as [_ <-]. apply IH in H2 as (He2 & l & c & Hl2).
    assert (p_env s1 = p_env s ∧ ∃ l c, p_sock s1 = sp_set_acks l c (p_sock s)) as (He1 & l' & c' & Hl1).
    { destruct (_ <? _).
      - inv_bind H1 as v1 t1 G1. inv_bind H1 as v2 t2 G2. injection G2 as _ <-.
        apply ret_inv in H1 as [_ <-]. rewrite /on_out /zoom in G1.
        destruct (serialize_as_message _ _ _ _ _ _ _). injection G1 as -> <-. cbn. eauto.
      - apply ret_inv in H1 as [_ <-]. split; [done|]. exists (last_acknowledged (p_sock s)), (ack_counter (p_sock s)). by destruct (p_sock s). }
    rewrite He2 Hl2 He1 Hl1. eauto.
Qed.

(** Changes the accounting does not depend on. *)
Lemma proxy_inv_mono f (s s' : pstate S) :
  proxy_inv f s → sp_send_buf (p_sock s') = sp_send_buf (p_sock s) →
  next_expected_seq_nr (p_sock s') = next_expected_seq_nr (p_sock s) →
  e_created (p_env s') = e_created (p_env s) →
  (∀ i, is_Some (sp_streams (p_sock s) !! i) → is_Some (sp_streams (p_sock s') !! i)) →
  proxy_inv f s'.
Proof.
  intros (Hf & Hb & Hp & Hn & Hc) H1 H2 H3 H4. rewrite /proxy_inv H1 H2 H3. split_and!; try done.
  eapply Forall_impl; [exact Hf|]. intros m [? ?]. eauto.
Qed.

Lemma u32_succ n : u32 (u32 n + 1) = u32 (n + 1).
Proof. apply Zplus_mod_idemp_l. Qed.

Lemma acquire_exact n av av' :
  0 <= n < 2 ^ 31 → 0 <= av <= default_max_buffer_size →
  semaphore.try_acquire (i32 n) av = Some av' → av' = av - n ∧ 0 <= av'.
Proof.
  intros Hn Hav. assert (default_max_buffer_size < 2 ^ 31) by done.
  rewrite /semaphore.try_acquire. rewrite (i32_small n); [lia|]. rewrite i32_small; [lia|].
  destruct (Z.ltb_spec (av - n) 0); [done|]. intros [= <-]. lia.
Qed.

Lemma release_exact n av :
  0 <= n < 2 ^ 31 → 0 <= av → av + n <= default_max_buffer_size →
  semaphore.release_bytes (i32 n) av = av + n.
Proof.
  intros Hn Hav Hs. assert (default_max_buffer_size < 2 ^ 31) by done.
  rewrite /semaphore.release_bytes. rewrite (i32_small n); [lia|]. rewrite i32_small; lia.
Qed.

Lemma proxy_inv_send f msg (s s' : pstate S) :
  size_ok msg → proxy_inv f s → handle_async_send msg s = (Ok tt, s') →
  proxy_inv (f ++ (sj_msg <$> drop (length (e_created (p_env s))) (e_created (p_env s')))) s'.
Proof.
  intros Hsz Hinv Hm. pose proof Hinv as (Hf & Hb & Hp & Hn & Hc).
  assert (0 <= sizes f) as Hpos.
  { apply sizes_nonneg. eapply Forall_impl; [exact Hf|]. by intros m [? ?]. }
  destruct (send_cases _ _ _ Hm) as [[H1 H2]|(av & j & Hst & Hseq & Hav & Hs' & He' & Hj)].
  - rewrite H2 drop_all app_nil_r. eapply proxy_inv_mono; [done|by rewrite ?H1..]. 
  - apply acquire_exact in Hav as [-> Hav]; [|done|lia].
    rewrite He' drop_app_length /= Hj.
    assert (sp_streams (p_sock s') = sp_streams (p_sock s)) as Hstr by by rewrite Hs'.
    split_and!.
    + rewrite Hstr. apply Forall_app. split; [done|]. apply Forall_singleton. done.
    + rewrite Hs' sizes_app sizes_cons /=. change (sizes []) with 0. lia.
    + by rewrite Hs' /=.
    + rewrite Hs' /= He' Hn zlen_app u32_succ. done.
    + rewrite He'. intros i j' Hi. apply lookup_app_Some in Hi as [Hi|[Hle Hi]]; [by eapply Hc|].
      apply list_lookup_singleton_Some in Hi as [Hi <-]. rewrite Hj -Hseq Hn /zlen. f_equal. lia.
Qed.

Lemma proxy_inv_done f k msg (s s' : pstate S) :
  f !! k = Some msg → proxy_inv f s → async_job_done msg s = (Ok tt, s') → proxy_inv (delete k f) s'.
Proof.
  intros Hk Hinv Hm. pose proof Hinv as (Hf & Hb & Hp & Hn & Hc).
  destruct (Forall_lookup_1 _ _ _ _ Hf Hk) as [Hsz Hst].
  destruct (done_spec _ _ _ Hm Hst) as (He & l & c & Hs').
  assert (Forall size_ok (delete k f)) as Hd.
  { apply Forall_delete. eapply Forall_impl; [exact Hf|]. by intros m [? ?]. }
  apply sizes_nonneg in Hd. pose proof (sizes_delete _ _ _ Hk) as Hsd. destruct Hsz as [? ?].
  rewrite release_exact in Hs'; [done|lia|lia|]. rewrite /proxy_inv He Hs' /=.
  split_and!; try done; [by apply Forall_delete|lia|lia].
Qed.

Lemma proxy_inv_step op f f' (s s' : pstate S) :
  op_ok op → proxy_inv f s → proxy_step op f s = (Ok f', s') → proxy_inv f' s'.
Proof.
  intros Hop Hinv Hm. destruct op as [g|msg|k| |iid]; cbn [proxy_step] in Hm.
  - inv_bind Hm as u1 s1 H1. apply ret_inv in Hm as [<- <-]. injection H1 as _ <-.
    eapply proxy_inv_mono; [done..|]. intros i Hi. cbn. destruct (_ !! sp_stream_ids _) eqn:E; [done|].
    destruct (decide (i = sp_stream_ids (p_sock s))) as [->|].
    + rewrite lookup_insert_eq. eauto.
    + by rewrite lookup_insert_ne.
  - rewrite {1}/mbind /M_bind /gets in Hm. inv_bind Hm as u1 s1 H1. destruct u1.
    injection Hm as <- <-. by eapply proxy_inv_send.
  - destruct (f !! k) as [msg|] eqn:Hk; [|by apply ret_inv in Hm as [<- <-]].
    inv_bind Hm as u1 s1 H1. destruct u1. apply ret_inv in Hm as [<- <-]. by eapply proxy_inv_done.
  - inv_bind Hm as b s1 H1. apply ret_inv in Hm as [<- <-]. rewrite /force_acks /mbind /M_bind /gets in H1.
    apply acks_spec in H1 as (He & l & c & Hs). eapply proxy_inv_mono; rewrite ?Hs ?He //.
  - inv_bind Hm as b s1 H1. apply ret_inv in Hm as [<- <-]. rewrite /on_env /zoom in H1.
    pose proof (keeps_work iid (p_env s)) as Hk.
    destruct (module_work _ _ _ _) as [r e]. injection H1 as -> <-. by eapply proxy_inv_mono.
Qed.

Lemma proxy_inv_run ops f f' (s s' : pstate S) :
  Forall op_ok ops → proxy_inv f s → proxy_run ops f s = (Ok f', s') → proxy_inv f' s'.
Proof.
  intros Hops. revert f s. induction Hops as [|op ops Hop _ IH]; intros f s Hinv Hm; cbn in Hm.
  - by injection Hm as <- <-.
  - inv_bind Hm as f1 s1 H1. eapply IH; [|done]. by eapply proxy_inv_step.
Qed.
End history.

(** C11: the send buffer and the sequence numbers of a socket, after any
    history of new streams, packets, finished jobs (in any order), forced
    acknowledgements and work of the modules.  The bytes taken from the send
    buffer are exactly those of the packets in flight, never more than there
    are; the [i]-th packet handed to the modules carries sequence number [i]
    (modulo 2^32), whatever the client sent in between; and the next number
    is expected. *)
Theorem send_buffer_and_sequence_exact {S} `{Sink S} (fns : Z → module_fns) (stale_size sid session : Z)
    (e e1 : env) (o : S) (sp : socket_proxy) (ops : list proxy_op) (flight : list message)
    (s : pstate S) :
  e_created e = [] → new_socket_proxy sid session e = (Ok sp, e1) → Forall op_ok ops →
  proxy_run fns stale_size ops [] (Build_pstate sp e1 o) = (Ok flight, s) →
  sp_send_buf (p_sock s) = default_max_buffer_size - sizes flight ∧ 0 <= sp_send_buf (p_sock s) ∧
  next_expected_seq_nr (p_sock s) = u32 (zlen (e_created (p_env s))) ∧
  ∀ i j, e_created (p_env s) !! i = Some j → as_seq_nr (view_async_send (sj_msg j)) = u32 (Z.of_nat i).
Proof.
  intros He Hn Hops Hrun. eapply proxy_inv_run in Hrun as (_ & ? & ? & ? & ?); [done|done|].
  rewrite /new_socket_proxy {1}/mbind /M_bind /get in Hn. destruct (merge_sort _ _); [done|].
  injection Hn as <- <-. split_and!; try done; by rewrite /= He.
Qed.

Definition sample_ops : list proxy_op :=
  [op_stream news; op_send (sample_send 0); op_send (sample_send 2); op_send (sample_send 1);
   op_work 1; op_done 0; op_ack].

Lemma send_buffer_and_sequence_exact_witness :
  ∃ flight s, proxy_run (λ _, sample_fns) 0 sample_ops [] (Build_pstate
      (match new_socket_proxy 7 1 sample_env with (Ok sp, _) => sp | _ => sample_proxy end)
      sample_env empty_log) = (Ok flight, s) ∧
    sp_send_buf (p_sock s) = default_max_buffer_size - sizes flight.
Proof.
  assert (∃ flight s, proxy_run (λ _, sample_fns) 0 sample_ops [] (Build_pstate
      (match new_socket_proxy 7 1 sample_env with (Ok sp, _) => sp | _ => sample_proxy end)
      sample_env empty_log) = (Ok flight, s)) as (flight & s & Hrun).
  { eexists _, _. vm_compute. reflexivity. }
  exists flight, s. split; [exact Hrun|].
  apply (send_buffer_and_sequence_exact (λ _, sample_fns) 0 7 1 sample_env sample_env empty_log
    _ sample_ops flight s) in Hrun as [Hr _]; [exact Hr|reflexivity|vm_compute; reflexivity|].
  repeat constructor; unfold size_ok; cbn; lia.
Defined.

(** ** Forced acknowledgements *)

Section acks.
Context {S : Type} `{Sink S}.

(** A finished job that triggers no acknowledgement. *)
Lemma done_quiet msg (s : pstate S) :
  is_Some (sp_streams (p_sock s) !! as_stm_id (view_async_send msg)) → size_ok msg →
  0 <= ack_counter (p_sock s) < max_ack_block_size - 1 →
  default_max_buffer_size < 2 * sp_send_buf (p_sock s) →
  sp_send_buf (p_sock s) + m_content_size msg <= default_max_buffer_size →
  async_job_done msg s = (Ok tt, Build_pstate
    (sp_set_acks (last_acknowledged (p_sock s)) (ack_counter (p_sock s) + 1)
      (sp_set_send_buf (sp_send_buf (p_sock s) + m_content_size msg) (p_sock s))) (p_env s) (p_out s)).
Proof.
  intros [g Hg] Hsz Hc Hhalf Hmax. rewrite /async_job_done {1}/mbind /M_bind /gets Hg.
  rewrite (Z.mod_small (ack_counter (p_sock s) + 1)); [lia|].
  rewrite (proj2 (Z.eqb_neq _ _)); [lia|]. rewrite (proj2 (Z.leb_gt _ _)); [lia|].
  rewrite /mbind /M_bind. cbn. rewrite release_exact //. rewrite /size_ok in Hsz. lia.
Qed.

Lemma done_quiet_all msgs (s : pstate S) :
  Forall (λ m, size_ok m ∧ is_Some (sp_streams (p_sock s) !! as_stm_id (view_async_send m))) msgs →
  0 <= ack_counter (p_sock s) → ack_counter (p_sock s) + zlen msgs < max_ack_block_size →
  default_max_buffer_size < 2 * sp_send_buf (p_sock s) →
  sp_send_buf (p_sock s) + sizes msgs <= default_max_buffer_size →
  for_each msgs async_job_done s = (Ok tt, Build_pstate
    (sp_set_acks (last_acknowledged (p_sock s)) (ack_counter (p_sock s) + zlen msgs)
      (sp_set_send_buf (sp_send_buf (p_sock s) + sizes msgs) (p_sock s))) (p_env s) (p_out s)).
Proof.
  intros Hm. revert s Hm. induction msgs as [|m msgs IH]; intros s Hm Hc Hmax Hhalf Hfit; cbn [for_each].
  - change (sizes []) with 0. rewrite zlen_nil !Z.add_0_r. by destruct s as [[] ? ?].
  - apply Forall_cons in Hm as [[Hsz Hst] Hm]. rewrite zlen_cons in Hmax. rewrite sizes_cons in Hfit.
    assert (0 <= sizes msgs).
    { apply sizes_nonneg. eapply Forall_impl; [exact Hm|]. by intros x [? ?]. }
    pose proof (zlen_nonneg msgs). pose proof Hsz as [? ?].
    step_ok (done_quiet m s Hst Hsz ltac:(lia) Hhalf ltac:(lia)).
    rewrite IH; cbn -[zlen sizes]; [done|lia|lia|lia|lia|].
    rewrite zlen_cons !Z.add_assoc. done.
Qed.
End acks.

(** A forced acknowledgement on a fresh socket is one ahead.  After the
    first [n] packets (0 < n < 64, numbered from 0) are done and none was
    acknowledged yet, [force_acks] acknowledges number [n], which no finished
    packet carries: [last_acknowledged] starts at 0, the number of the first
    packet, not before it. *)
Theorem forced_ack_overshoots {S} `{SinkSpec S} (i : Z) (g : uri) (msgs : list message)
    (s s' : pstate S) (b : bool) :
  last_acknowledged (p_sock s) = 0 → ack_counter (p_sock s) = 0 →
  sp_streams (p_sock s) = {[i := g]} → 0 < zlen msgs < max_ack_block_size →
  (∀ k m, msgs !! k = Some m →
     size_ok m ∧ as_stm_id (view_async_send m) = i ∧ as_seq_nr (view_async_send m) = Z.of_nat k) →
  sp_send_buf (p_sock s) + sizes msgs <= default_max_buffer_size →
  default_max_buffer_size < 2 * sp_send_buf (p_sock s) → sink_ok (p_out s) →
  (for_each msgs async_job_done ;; force_acks) s = (Ok b, s') →
  sink_accepted (p_out s') = sink_accepted (p_out s) ++
    enc_header message_type.cumulative_ack i (sp_id (p_sock s)) (zlen msgs) 0 ∧
  ∀ m, m ∈ msgs → as_seq_nr (view_async_send m) < zlen msgs.
Proof.
  intros Hl Hc Hst Hn Hm Hfit Hhalf Hok Hrun. split.
  2: { intros m [k Hk]%list_elem_of_lookup. destruct (Hm _ _ Hk) as (_ & _ & ->).
       apply lookup_lt_Some in Hk. rewrite /zlen. lia. }
  rewrite (bind_ok _ _ _ _ _ (done_quiet_all msgs s _ _ _ _ _)) in Hrun;
    [|rewrite Hc; lia|rewrite Hc; lia|done|done|].
  { apply Forall_lookup. intros k m Hk. destruct (Hm _ _ Hk) as (? & -> & _).
    split; [done|]. rewrite Hst lookup_singleton_eq. eauto. }
  rewrite /force_acks {1}/mbind /M_bind /gets /stream_ids in Hrun. cbn -[zlen sizes] in Hrun.
  rewrite Hst dom_singleton_L elements_singleton in Hrun.
  cbn [merge_sort merge_sort_aux merge_list_to_stack merge_stack force_acks_loop] in Hrun.
  inv_bind Hrun as sk s0 G0. injection G0 as <- <-.
  cbn [p_sock p_env p_out sp_set_acks sp_set_send_buf ack_counter last_acknowledged sp_id] in Hrun.
  rewrite Hl Hc !Z.add_0_l (proj2 (Z.ltb_lt 0 _)) in Hrun; [lia|].
  assert (max_ack_block_size < 2 ^ 32) as Hmax by done.
  assert (u32 (u32 (zlen msgs)) = zlen msgs) as Hu.
  { rewrite /u32 !uwrap_small //; rewrite /fits; lia. }
  rewrite Hu in Hrun. inv_bind Hrun as r1 s1 H1. injection Hrun as <- <-.
  inv_bind H1 as u2 s2 H2. inv_bind H1 as u3 s3 H3. injection H3 as _ <-. injection H1 as _ <-.
  rewrite /on_out /zoom in H2. cbn [p_sock p_env p_out] in H2.
  pose proof (emits_triple _ _ (sink_accepted (p_out s))
    (control_message_emits message_type.cumulative_ack i (sp_id (p_sock s)) (zlen msgs))
    (p_out s) (conj Hok eq_refl)) as Ht.
  destruct (serialize_as_message _ _ _ _ _ _ _) as [r o]. injection H2 as -> <-. by destruct Ht.
Qed.

Lemma forced_ack_overshoots_witness :
  ∃ b s', (async_job_done (sample_send 0) ;; force_acks)
      (Build_pstate (sp_set_send_buf (default_max_buffer_size - 3) sample_proxy) sample_env empty_log)
      = (Ok b, s') ∧
    sink_accepted (p_out s') = enc_header message_type.cumulative_ack 0 7 1 0.
Proof.
  set (s := Build_pstate (sp_set_send_buf (default_max_buffer_size - 3) sample_proxy) sample_env empty_log).
  assert (∃ b s', (for_each [sample_send 0] async_job_done ;; force_acks) s = (Ok b, s') ∧
    (async_job_done (sample_send 0) ;; force_acks) s = (Ok b, s')) as (b & s' & H1 & H2).
  { eexists _, _. split; vm_compute; reflexivity. }
  exists b, s'. split; [exact H2|].
  apply (forced_ack_overshoots 0 news [sample_send 0] s s' b) in H1 as [H1 _]; try done.
  intros [|k] m Hk; [|done]. injection Hk as <-. split_and!; [|reflexivity|reflexivity].
  unfold size_ok. cbn. lia.
Defined.

(** ** Changing the interfaces *)

Lemma erase_first_perm {A} `{EqDecision A} (x : A) l : x ∈ l → x :: erase_first x l ≡ₚ l.
Proof.
  induction l as [|y l IH]; intros Hx; [by apply not_elem_of_nil in Hx|]. simpl. case_bool_decide as E.
  - by subst.
  - apply elem_of_cons in Hx as [->|Hx]; [done|]. rewrite -{2}(IH Hx). apply perm_swap.
Qed.

Lemma erase_all_perm {A} `{EqDecision A} (k r l : list A) :
  k ++ r ≡ₚ l → foldl (λ l i, erase_first i l) l k ≡ₚ r.
Proof.
  revert l. induction k as [|x k IH]; intros l Hl; simpl; [by symmetry|].
  apply IH. apply (Permutation_cons_inv (a := x)). rewrite erase_first_perm; [|done].
  rewrite -Hl. by left.
Qed.

Section interfaces.
Context (address : Z → Z) `{!Inj (=) (=) address}.

#[local] Instance address_le_trans : Transitive (address_le address).
Proof. intros a b c. rewrite /address_le. lia. Qed.
#[local] Instance address_le_total : Total (address_le address).
Proof. intros a b. rewrite /address_le. lia. Qed.

Lemma set_intersection_spec l1 l2 :
  StronglySorted (address_le address) l1 → StronglySorted (address_le address) l2 →
  ∃ r1 r2, set_intersection address l1 l2 ++ r1 ≡ₚ l1 ∧ set_intersection address l1 l2 ++ r2 ≡ₚ l2 ∧
    ∀ x, x ∈ r1 → x ∉ r2.
Proof.
  intros H1. revert l2. induction H1 as [|x l1 H1 IH Hx]; intros l2 H2.
  { exists [], l2. split_and!; [by destruct l2|by destruct l2|]. intros x Hx. by apply not_elem_of_nil in Hx. }
  induction H2 as [|y l2 H2 IH2 Hy].
  { exists (x :: l1), []. split_and!; [done|done|]. intros. apply not_elem_of_nil. }
  cbn [set_intersection]. destruct (Z.ltb_spec (address x) (address y)).
  { destruct (IH (y :: l2)) as (r1 & r2 & Hr1 & Hr2 & Hd); [by constructor|].
    exists (x :: r1), r2. split_and!; [by rewrite -Permutation_middle Hr1|done|].
    intros z [->|Hz]%elem_of_cons; [|by apply Hd]. intros Hin.
    assert (x ∈ y :: l2) as [->|Hin']%elem_of_cons by (rewrite -Hr2; set_solver); [lia|].
    rewrite Forall_forall in Hy. specialize (Hy _ Hin'). rewrite /address_le in Hy. lia. }
  destruct (Z.ltb_spec (address y) (address x)).
  { destruct IH2 as (r1 & r2 & Hr1 & Hr2 & Hd).
    exists r1, (y :: r2). split_and!; [done|by rewrite -Permutation_middle Hr2|].
    intros z Hz [->|Hin]%elem_of_cons; [|by eapply Hd].
    assert (y ∈ x :: l1) as [->|Hin']%elem_of_cons by (rewrite -Hr1; set_solver); [lia|].
    rewrite Forall_forall in Hx. specialize (Hx _ Hin'). rewrite /address_le in Hx. lia. }
  assert (x = y) as <- by (apply (inj address); lia).
  destruct (IH l2 H2) as (r1 & r2 & Hr1 & Hr2 & Hd).
  exists r1, r2. simpl. by rewrite Hr1 Hr2.
Qed.

Lemma interface_split (tms ifs : list Z) :
  let tms1 := merge_sort (address_le address) tms in
  let ifs1 := merge_sort (address_le address) ifs in
  let inter := set_intersection address tms1 ifs1 in
  let removed := foldl (λ l i, erase_first i l) ifs1 inter in
  let added := foldl (λ l i, erase_first i l) tms1 inter in
  inter ++ removed ≡ₚ ifs ∧ inter ++ added ≡ₚ tms ∧ ∀ x, x ∈ removed → x ∉ added.
Proof.
  intros tms1 ifs1 inter removed added.
  destruct (set_intersection_spec tms1 ifs1) as (r1 & r2 & H1 & H2 & Hd);
    [apply (StronglySorted_merge_sort _)..|].
  assert (added ≡ₚ r1) as Ha by by apply erase_all_perm.
  assert (removed ≡ₚ r2) as Hr by by apply erase_all_perm.
  assert (tms1 ≡ₚ tms) as Ht by apply merge_sort_Permutation.
  assert (ifs1 ≡ₚ ifs) as Hi by apply merge_sort_Permutation.
  split_and!; [by rewrite Hr -Hi|by rewrite Ha -Ht|]. intros x. rewrite Ha Hr. naive_solver.
Qed.
End interfaces.

(** A list of requests to modules, in order. *)
Definition requests (fns : Z → module_fns) (stale_size : Z) (l : list (Z * tm_msg)) : M env unit :=
  for_each l (λ r, module_request fns stale_size r.1 r.2 ;; mret tt).

Lemma requests_app fns stale_size l1 l2 e :
  requests fns stale_size (l1 ++ l2) e =
  match requests fns stale_size l1 e with
  | (Ok _, e') => requests fns stale_size l2 e'
  | r => r
  end.
Proof.
  rewrite /requests for_each_app {1}/mbind /M_bind. by destruct (for_each l1 _ e) as [[[]|x|w] e'].
Qed.

Lemma on_env_requests {S A} fns stale_size (f : A → Z * tm_msg) (l : list A) (s : pstate S) :
  for_each l (λ x, on_env (module_request fns stale_size (f x).1 (f x).2) ;; mret tt) s =
  on_env (requests fns stale_size (f <$> l)) s.
Proof.
  rewrite /requests. revert s. induction l as [|x l IH]; intros s; simpl; [by destruct s|].
  rewrite /mbind /M_bind /on_env /zoom.
  destruct (module_request _ _ _ _ (p_env s)) as [[r|e|w] e1]; [|done|done].
  cbn. rewrite IH /on_env /zoom. done.
Qed.

(** The requests that changing the interfaces makes: leave everything where
    the socket no longer is, then join every group where it is new. *)
Definition change_requests (self : sock) (groups : list uri) (removed added : list Z) :
    list (Z * tm_msg) :=
  ((λ i, (i, leave_all_t self)) <$> removed) ++
  (groups ≫= λ g, (λ j, (j, join_t g self)) <$> added).

Lemma on_env_joins {S} fns stale_size self (groups : list uri) (added : list Z) (s : pstate S) :
  for_each groups (λ g, for_each added (λ j,
    on_env (module_request fns stale_size j (join_t g self)) ;; mret tt)) s =
  on_env (requests fns stale_size (groups ≫= λ g, (λ j, (j, join_t g self)) <$> added)) s.
Proof.
  revert s. induction groups as [|g groups IH]; intros s; cbn [for_each]; [by destruct s|].
  rewrite {1}/mbind /M_bind (on_env_requests _ _ (λ j, (j, join_t g self))).
  rewrite bind_cons /on_env /zoom requests_app.
  destruct (requests _ _ _ (p_env s)) as [[[]|e|w] e1]; [|done|done].
  rewrite IH /on_env /zoom. done.
Qed.

Lemma leave_all_requests {S} fns stale_size (s : pstate S) :
  (if bool_decide (sp_interfaces (p_sock s) ≠ []) then sp_leave_all fns stale_size false else mret tt) s =
  on_env (requests fns stale_size
    ((λ i, (i, leave_all_t (self_ptr (p_sock s)))) <$> sp_interfaces (p_sock s))) s.
Proof.
  case_bool_decide as Hne.
  - rewrite /sp_leave_all {1}/mbind /M_bind /gets -(on_env_requests _ _ (λ i, (i, _))).
    destruct (sp_interfaces (p_sock s)) as [|i l]; [done|]. rewrite {1}/mbind /M_bind.
    by destruct (for_each _ _ s) as [[[]|e|w] s1].
  - rewrite Hne. by destruct s.
Qed.

(** [set_interfaces] exchanges the interfaces and nothing else.  The old
    and the requested interfaces split into common, removed and added ones
    (as multisets, in whatever order the pointers sort); the socket leaves
    everything on the removed ones, joins each of its groups on the added
    ones, sends no request to the common ones, and ends up with a permutation
    of the requested list and its groups unchanged.  A failing request ends
    the change with its exception. *)
Theorem set_interfaces_functional {S} `{Sink S} (fns : Z → module_fns) (stale_size : Z)
    (address : Z → Z) (tms : list Z) (s : pstate S) :
  Inj (=) (=) address →
  ∃ common removed added ifs,
    common ++ removed ≡ₚ sp_interfaces (p_sock s) ∧ common ++ added ≡ₚ tms ∧
    (∀ x, x ∈ removed → x ∉ added) ∧
    let r := requests fns stale_size (change_requests (self_ptr (p_sock s)) (joined_list (p_sock s))
               removed added) (p_env s) in
    sp_set_ifaces fns stale_size address tms s =
      (r.1, Build_pstate (sp_set_interfaces ifs (p_sock s)) r.2 (p_out s)) ∧
    (r.1 = Ok tt → ifs ≡ₚ tms).
Proof.
  intros Hinj. pose proof (interface_split address tms (sp_interfaces (p_sock s))) as (H1 & H2 & H3).
  set (tms1 := merge_sort (address_le address) tms) in *.
  set (ifs1 := merge_sort (address_le address) (sp_interfaces (p_sock s))) in *.
  set (common := set_intersection address tms1 ifs1) in *.
  set (removed := foldl (λ l i, erase_first i l) ifs1 common) in *.
  set (added := foldl (λ l i, erase_first i l) tms1 common) in *.
  exists common, removed, added.
  set (s1 := Build_pstate (sp_set_interfaces removed (p_sock s)) (p_env s) (p_out s)).
  rewrite /sp_set_ifaces {1}/mbind /M_bind /gets. cbv zeta.
  rewrite -/tms1 -/ifs1 -/common -/removed -/added. rewrite {1}/mbind /M_bind {1}/on_sock /zoom /modify.
  cbn [p_sock p_env p_out]. rewrite -/s1. rewrite {1}/mbind /M_bind.
  rewrite (leave_all_requests fns stale_size s1).
  rewrite /change_requests requests_app.
  rewrite {1}/on_env /zoom. cbn [s1 p_sock p_env p_out sp_interfaces sp_set_interfaces].
  change (self_ptr (sp_set_interfaces removed (p_sock s))) with (self_ptr (p_sock s)).
  destruct (requests _ _ _ (p_env s)) as [[[]|e|w] e1]; [|by exists removed..].
  rewrite {1}/mbind /M_bind on_env_joins /on_env /zoom. cbn [p_sock p_env p_out].
  destruct (requests _ _ _ e1) as [[[]|e|w] e2]; [|by exists removed..].
  exists (common ++ added). done.
Qed.

Lemma set_interfaces_functional_witness :
  ∃ common removed added, common ++ removed ≡ₚ [1] ∧ common ++ added ≡ₚ [2; 1] ∧
    ∀ x, x ∈ removed → x ∉ added.
Proof.
  destruct (set_interfaces_functional (λ _, sample_fns) 0 (λ x, x) [2; 1] sample_pstate)
    as (common & removed & added & _ & H1 & H2 & H3 & _); [intros x y E; exact E|].
  exists common, removed, added. split; [exact H1|]. split; [exact H2|exact H3].
Defined.
