(* ===== verification/Ipm.v ===== *)
(** * The module ipm

    IP multicast ([modules/ipm]): an [ip_instance] sends through one socket
    and receives in a thread of its own.  Joins and leaves go through a queue
    to that thread, which keeps one socket per group, waits for all of them
    with [select] and hands the datagrams to the middleware under the name of
    the group their socket was opened for.  The kernel appears as the
    descriptors it opened with the datagrams waiting in them. *)

From S2P Require Import Prelude Uri UriMappings TechModule.

Definition HC_UNKNOWN_ERROR : Z := -1.
Definition HC_INVALID_URI : Z := -2.
Definition HC_LISTENER_STATE : Z := 0.
Definition IPM_DEFAULT_MSG_SIZE : Z := 65000.
Definition DEFAULT_MULTICAST_TTL : Z := 1.
Definition FD_SETSIZE : Z := 1024.
Definition s_queue_event : Z := 0.
Definition s_quit_event : Z := 1.
Definition maxreads : nat := 10.
Definition recvbuf_len : Z := 65000.

(** ** Data *)

Inductive ip_instance_msg := iio_join (uri_arg : uri) | iio_leave (uri_arg : uri).

(** A socket of the kernel: the group it was bound to, whether it is a member,
    the datagrams that wait, and all that ever arrived. *)
Record ksock := {
  ks_group : bytes;
  ks_member : bool;
  ks_rx : list bytes;
  ks_arrived : list bytes
}.
Definition ks_set_member b k : ksock :=
  {| ks_group := ks_group k; ks_member := b; ks_rx := ks_rx k; ks_arrived := ks_arrived k |}.
Definition ks_set_rx l k : ksock :=
  {| ks_group := ks_group k; ks_member := ks_member k; ks_rx := l; ks_arrived := ks_arrived k |}.
Definition ks_push d k : ksock :=
  {| ks_group := ks_group k; ks_member := ks_member k; ks_rx := ks_rx k ++ [d]; ks_arrived := ks_arrived k ++ [d] |}.

(** An instance: its queue and pipe, [m_groups], the variables of the receive
    loop ([l_sockets], [l_uris], the descriptors of [readset_org]), whether it
    runs, the kernel's sockets, and the calls of the receive callback (with the
    descriptor the data came from). *)
Record ip_instance := {
  ii_queue : list ip_instance_msg;
  ii_pipe : list Z;
  ii_groups : gset bytes;
  ii_sockets : gmap bytes Z;
  ii_uris : gmap Z bytes;
  ii_readset : gset Z;
  ii_running : bool;
  ii_kernel : gmap Z ksock;
  ii_received : list (Z * (bytes * bytes))
}.
Definition ii_set_queue q p s := {| ii_queue := q; ii_pipe := p; ii_groups := ii_groups s; ii_sockets := ii_sockets s;
  ii_uris := ii_uris s; ii_readset := ii_readset s; ii_running := ii_running s; ii_kernel := ii_kernel s;
  ii_received := ii_received s |}.
Definition ii_set_sockets x g s := {| ii_queue := ii_queue s; ii_pipe := ii_pipe s; ii_groups := g; ii_sockets := x;
  ii_uris := ii_uris s; ii_readset := ii_readset s; ii_running := ii_running s; ii_kernel := ii_kernel s;
  ii_received := ii_received s |}.
Definition ii_set_select u r s := {| ii_queue := ii_queue s; ii_pipe := ii_pipe s; ii_groups := ii_groups s;
  ii_sockets := ii_sockets s; ii_uris := u; ii_readset := r; ii_running := ii_running s; ii_kernel := ii_kernel s;
  ii_received := ii_received s |}.
Definition ii_set_running b s := {| ii_queue := ii_queue s; ii_pipe := ii_pipe s; ii_groups := ii_groups s;
  ii_sockets := ii_sockets s; ii_uris := ii_uris s; ii_readset := ii_readset s; ii_running := b;
  ii_kernel := ii_kernel s; ii_received := ii_received s |}.
Definition ii_set_kernel k s := {| ii_queue := ii_queue s; ii_pipe := ii_pipe s; ii_groups := ii_groups s;
  ii_sockets := ii_sockets s; ii_uris := ii_uris s; ii_readset := ii_readset s; ii_running := ii_running s;
  ii_kernel := k; ii_received := ii_received s |}.
Definition ii_set_received r s := {| ii_queue := ii_queue s; ii_pipe := ii_pipe s; ii_groups := ii_groups s;
  ii_sockets := ii_sockets s; ii_uris := ii_uris s; ii_readset := ii_readset s; ii_running := ii_running s;
  ii_kernel := ii_kernel s; ii_received := r |}.

Abbreviation I := (M ip_instance).

(** The constructor starts the loop. *)
Definition new_ip_instance : ip_instance :=
  {| ii_queue := []; ii_pipe := []; ii_groups := ∅; ii_sockets := ∅; ii_uris := ∅; ii_readset := ∅;
     ii_running := true; ii_kernel := ∅; ii_received := [] |}.

(** ** Initialization *)

Inductive discovery_type := OFF | LIGHT | FULL.
Inductive discovery_ip_version := IP4 | IP6 | IPALL.

Definition to_upper (c : byte) : byte := if (97 <=? b2z c) && (b2z c <=? 122) then z2b (b2z c - 32) else c.
Definition to_upper_copy (s : bytes) : bytes := to_upper <$> s.

Record ipm_config := { cfg_discovery : discovery_type; cfg_version : discovery_ip_version; cfg_if : bytes }.

(** One key-value pair of the configuration. *)
Definition read_kvp (c : ipm_config) (kv : bytes * bytes) : ipm_config :=
  let key := to_upper_copy kv.1 in
  if bool_decide (key = str "DISCOVERY") then
    let val := to_upper_copy kv.2 in
    {| cfg_discovery := if bool_decide (val = str "FULL") then FULL
                        else if bool_decide (val = str "LIGHT") then LIGHT else OFF;
       cfg_version := cfg_version c; cfg_if := cfg_if c |}
  else if bool_decide (key = str "IPVERSION") || bool_decide (key = str "IP") then
    let val := to_upper_copy kv.2 in
    {| cfg_discovery := cfg_discovery c;
       cfg_version := if bool_decide (val = str "IP4") then IP4
                      else if bool_decide (val = str "IP6") then IP6 else IPALL;
       cfg_if := cfg_if c |}
  else if bool_decide (key = str "INTERFACE") || bool_decide (key = str "IF") || bool_decide (key = str "IFACE") then
    {| cfg_discovery := cfg_discovery c; cfg_version := cfg_version c; cfg_if := kv.2 |}
  else c.
Definition read_kvps (kvps : list (bytes * bytes)) : ipm_config :=
  foldl read_kvp {| cfg_discovery := OFF; cfg_version := IPALL; cfg_if := [] |} kvps.

(** An entry of [getifaddrs]: its name and, for an IPv4 address, its text (when
    [getnameinfo] succeeds). *)
Record if_entry := { ife_name : bytes; ife_ipv4 : option bytes }.

Definition acceptable (local_if name ip : bytes) : bool :=
  negb (contains (str "127.0.0.1") ip) && negb (contains (str "127.0.1.1") ip) &&
  (bool_decide (local_if = []) || contains local_if name).

(** The search without service discovery; the variables keep the values of the
    last IPv4 entry when no entry is acceptable. *)
Fixpoint choose_interface (local_if : bytes) (ifaddrs : list if_entry) (current : option (bytes * bytes)) :
    option (bytes * bytes) :=
  match ifaddrs with
  | [] => current
  | ifa :: rest =>
      match ife_ipv4 ifa with
      | None => choose_interface local_if rest current
      | Some ip =>
          if acceptable local_if (ife_name ifa) ip then Some (ife_name ifa, ip)
          else choose_interface local_if rest (Some (ife_name ifa, ip))
      end
  end.

(** [hc_init] (without discovery): the key-value pairs of the instance, if one
    is created. *)
Definition ipm_kvps (chosen : option (bytes * bytes)) : list (option bytes * option bytes) :=
  [(Some (str "if_tech"), Some (str "IPv4"));
   (Some (str "if_addr"), Some (str "ip://" ++ from_option snd (str "0.0.0.0") chosen));
   (Some (str "if_name"), Some (from_option fst (str "unknown") chosen))].
Definition ipm_init (msg_size : Z) (kvps : list (bytes * bytes)) (ifaddrs : option (list if_entry)) :
    option (list (option bytes * option bytes)) :=
  if IPM_DEFAULT_MSG_SIZE <? msg_size then None
  else Some (ipm_kvps (choose_interface (cfg_if (read_kvps kvps)) (default [] ifaddrs) None)).

(** The configured interface is used when an acceptable one exists, and the
    last IPv4 interface otherwise, whatever was configured. *)
Lemma choose_interface_spec local_if l current :
  (∀ name ip, choose_interface local_if l current = Some (name, ip) →
     {| ife_name := name; ife_ipv4 := Some ip |} ∈ l ∨ current = Some (name, ip)) ∧
  ((∃ ifa ip, ifa ∈ l ∧ ife_ipv4 ifa = Some ip ∧ acceptable local_if (ife_name ifa) ip = true) →
   ∃ name ip, choose_interface local_if l current = Some (name, ip) ∧ acceptable local_if name ip = true).
Proof.
  revert current. induction l as [|[n o] l IH]; intros current; [split; [by right|intros (ifa & ip & H & _); set_solver]|].
  destruct o as [ip0|]; cbn [choose_interface ife_ipv4 ife_name].
  - destruct (acceptable local_if n ip0) eqn:E.
    + split; [intros name ip [= -> ->]; left; left|]. intros _. by exists n, ip0.
    + destruct (IH (Some (n, ip0))) as [A B]. split.
      * intros name ip H. destruct (A name ip H) as [?|[= -> ->]]; [left; by right|left; left].
      * intros (ifa & ip & [->|Hin]%elem_of_cons & H1 & H2); [cbn in H1, H2; simplify_eq; congruence|].
        apply B. by exists ifa, ip.
  - destruct (IH current) as [A B]. split.
    + intros name ip H. destruct (A name ip H) as [?|?]; [left; by right|by right].
    + intros (ifa & ip & [->|Hin]%elem_of_cons & H1 & H2); [done|]. apply B. by exists ifa, ip.
Qed.

(** ** Requests *)

Definition ii_request (msg : ip_instance_msg) : I Z :=
  modify (λ s, ii_set_queue (ii_queue s ++ [msg]) (ii_pipe s ++ [s_queue_event]) s) ;; mret HC_SUCCESS.
Definition ip_join (group_uri : uri) : I Z := ii_request (iio_join group_uri).
Definition ip_leave (group_uri : uri) : I Z := ii_request (iio_leave group_uri).

(** [kill_receive_loop] (which then waits for the thread). *)
Definition kill_receive_loop : I unit :=
  modify (λ s, ii_set_queue (ii_queue s) (ii_pipe s ++ [s_quit_event]) s).

Definition ip_map (group_uri : uri) : uri :=
  if negb (uri_empty group_uri) && bool_decide (m_ham_namespace group_uri = str "ip") then group_uri else uri_default.

(** The names [neighbor_set] and [group_set] report: without the port, but
    with its separator. *)
Definition rebuild (u : uri) : uri :=
  uri_of (m_ham_scheme u ++ str ":" ++ m_ham_namespace u ++ str ":" ++ m_group u ++ str ":" ++
          (if bool_decide (m_instantiation u = []) then [] else str "@" ++ m_instantiation u)).
Definition ip_group_set (groups : list uri) : list (uri * Z) :=
  (λ u, (u, HC_LISTENER_STATE)) <$> filter (λ u, uri_empty u = false) (rebuild <$> groups).
Definition ip_neighbor_set (neighbors : list uri) : list uri :=
  filter (λ u, uri_empty u = false) (rebuild <$> neighbors).
Definition ip_children_set (group : uri) : list uri := [].
Definition ip_parent_set (querier : uri) : list uri := if uri_empty querier then [] else [querier].
Definition ip_designated_host (group : uri) : Z := 0.

(** [send]: the state is the ttl of the sending socket and what was handed to
    [sendto]; [set_ok], [resolves] and [sent] are the answers of the system. *)
Definition ip_send (set_ok resolves : bool) (sent : Z) (group_uri : uri) (buf : option bytes) (len ttl : Z) :
    M (Z * list (uri * option bytes * Z * Z)) Z :=
  if uri_empty group_uri then mret HC_INVALID_URI
  else
    let ttl := if ttl <? 1 then DEFAULT_MULTICAST_TTL else ttl in
    s ← get;
    (if s.1 =? ttl then mret tt else put ((if set_ok then ttl else DEFAULT_MULTICAST_TTL), s.2)) ;;
    if (resolves : bool) then
      s ← get; put (s.1, s.2 ++ [(group_uri, buf, len, s.1)]) ;; mret sent
    else mret HC_UNKNOWN_ERROR.

(** ** The receive loop *)

Section loop.
(** The descriptor of the next socket, given the open ones; whether the system
    accepts the membership (a refusal is only logged). *)
Context (new_fd : gset Z → option Z) (joins : bytes → bool).

Definition in_fd_set (fd : Z) : bool := (0 <=? fd) && (fd <? FD_SETSIZE).

(** The join of a request: a new socket ([-1] when there is none). *)
Definition loop_join (g : bytes) : I bool :=
  s ← get;
  match ii_sockets s !! g with
  | Some _ => mret false
  | None =>
      match new_fd (dom (ii_kernel s)) with
      | Some fd =>
          put (ii_set_kernel (<[fd := {| ks_group := g; ks_member := joins g; ks_rx := []; ks_arrived := [] |}]>
                 (ii_kernel s)) (ii_set_sockets (<[g := fd]> (ii_sockets s)) ({[g]} ∪ ii_groups s) s))
      | None => put (ii_set_sockets (<[g := -1]> (ii_sockets s)) ({[g]} ∪ ii_groups s) s)
      end ;;
      mret true
  end.

(** The leave; the destructor of the socket does not close it. *)
Definition loop_leave (g : bytes) : I bool :=
  s ← get;
  match ii_sockets s !! g with
  | None => mret false
  | Some fd =>
      put (ii_set_kernel (alter (ks_set_member false) fd (ii_kernel s))
             (ii_set_sockets (delete g (ii_sockets s)) (ii_groups s ∖ {[g]}) s)) ;;
      mret true
  end.

(** An event in the pipe; the result tells whether to go on and the value of
    [init].  For a queue event there is always a message. *)
Definition handle_pipe : I (bool * bool) :=
  s ← get;
  match ii_pipe s with
  | [] => mret (true, false)
  | e :: p =>
      if e =? s_queue_event then
        match ii_queue s with
        | [] => ub "waits for a message for ever"
        | msg :: q =>
            put (ii_set_queue q p s) ;;
            init ← (match msg with
                    | iio_join u => if uri_empty u then mret false else loop_join (uri_str u)
                    | iio_leave u => if uri_empty u then mret false else loop_leave (uri_str u)
                    end);
            mret (true, init)
        end
      else put (ii_set_running false (ii_set_queue (ii_queue s) p s)) ;; mret (false, false)
  end.

(** At most [n] reads from the socket of the group a ready descriptor stands
    for; an empty datagram looks like no data. *)
Fixpoint read_socket (n : nat) (i : Z) : I unit :=
  match n with
  | O => mret tt
  | S n =>
      s ← get;
      match ii_uris s !! i with
      | None => read_socket n i
      | Some g =>
          match ii_sockets s !! g with
          | None => read_socket n i
          | Some fd =>
              match ii_kernel s !! fd with
              | Some k =>
                  match ks_rx k with
                  | [] => mret tt
                  | d :: l =>
                      put (ii_set_kernel (<[fd := ks_set_rx l k]> (ii_kernel s)) s) ;;
                      if bool_decide (d = []) then mret tt
                      else
                        modify (λ s, ii_set_received (ii_received s ++ [(fd, (ztake recvbuf_len d, g))]) s) ;;
                        read_socket n i
                  end
              | None => mret tt
              end
          end
      end
  end.

(** The new [readset_org] and [l_uris] ([insert] keeps an entry). *)
Definition add_uri (uris : gmap Z bytes) (gfd : bytes * Z) : gmap Z bytes :=
  match uris !! gfd.2 with Some _ => uris | None => <[gfd.2 := gfd.1]> uris end.
Definition init_select : I unit :=
  s ← get;
  let l := map_to_list (ii_sockets s) in
  if forallb (λ gfd, in_fd_set gfd.2) l then
    put (ii_set_select (foldl add_uri (ii_uris s) l) (list_to_set (snd <$> l)) s)
  else ub "FD_SET outside of the set".

(** Descriptors with data. *)
Definition has_data (s : ip_instance) (fd : Z) : bool :=
  match ii_kernel s !! fd with Some k => negb (bool_decide (ks_rx k = [])) | None => false end.
Definition ready (s : ip_instance) : gset Z := filter (λ fd, has_data s fd = true) (ii_readset s).

(** One iteration of [receive_loop]; [false] when the thread has ended or
    [select] waits. *)
Definition receive_iteration : I bool :=
  s ← get;
  if negb (ii_running s) || (bool_decide (ii_pipe s = []) && bool_decide (ready s = ∅)) then mret false
  else
    r ← handle_pipe;
    if (r.1 : bool) then
      for_each (in_order (ready s)) (read_socket maxreads) ;;
      (if (r.2 : bool) then init_select else mret tt) ;;
      mret true
    else mret true.

(** A datagram for a group reaches its members. *)
Definition arrive (g d : bytes) (s : ip_instance) : ip_instance :=
  ii_set_kernel ((λ k, if ks_member k && bool_decide (ks_group k = g) then ks_push d k else k) <$> ii_kernel s) s.

(** The threads of the middleware, the network and the receive loop. *)
Inductive istep : ip_instance → ip_instance → Prop :=
  | i_request msg s : istep s (ii_request msg s).2
  | i_quit s : istep s (kill_receive_loop s).2
  | i_arrive g d s : istep s (arrive g d s)
  | i_loop s b s' : receive_iteration s = (Ok b, s') → istep s s'.

(** ** The invariant *)

Definition payload (d : bytes) : option bytes := if bool_decide (d = []) then None else Some (ztake recvbuf_len d).

(** What was received from a descriptor. *)
Definition received_from (s : ip_instance) (fd : Z) : list (bytes * bytes) :=
  snd <$> filter (λ r : Z * (bytes * bytes), r.1 = fd) (ii_received s).

Definition fd_ok (s : ip_instance) (fd : Z) (k : ksock) : Prop :=
  received_from s fd ++ ((λ d, (d, ks_group k)) <$> omap payload (ks_rx k)) =
  (λ d, (d, ks_group k)) <$> omap payload (ks_arrived k).

Definition events (s : ip_instance) : Z := zsum (λ e, if e =? s_queue_event then 1 else 0) (ii_pipe s).

(** The tables: a socket in use has its descriptor in all of them, and [l_uris]
    names the group a descriptor was opened for. *)
Record tables (s : ip_instance) : Prop := {
  t_sockets g fd : ii_sockets s !! g = Some fd →
    (∃ k, ii_kernel s !! fd = Some k ∧ ks_group k = g) ∧ ii_uris s !! fd = Some g ∧ fd ∈ ii_readset s;
  t_readset fd : fd ∈ ii_readset s → ∃ g, ii_sockets s !! g = Some fd;
  t_uris fd g : ii_uris s !! fd = Some g → ∃ k, ii_kernel s !! fd = Some k ∧ ks_group k = g;
  t_fds fd : is_Some (ii_kernel s !! fd) → 0 <= fd
}.
Record books (s : ip_instance) : Prop := {
  b_fd fd k : ii_kernel s !! fd = Some k → fd_ok s fd k;
  b_known r : r ∈ ii_received s → is_Some (ii_kernel s !! r.1);
  b_events : events s = zlen (ii_queue s)
}.

(** Between the request and the new [readset_org]; a socket that could not be
    opened has the descriptor -1. *)
Record mid (s : ip_instance) : Prop := {
  mid_sockets g fd : ii_sockets s !! g = Some fd → fd = -1 ∨ ∃ k, ii_kernel s !! fd = Some k ∧ ks_group k = g;
  mid_uris fd g : ii_uris s !! fd = Some g → ∃ k, ii_kernel s !! fd = Some k ∧ ks_group k = g;
  mid_fds fd : is_Some (ii_kernel s !! fd) → 0 <= fd
}.

(** A read changes only what waits in the kernel and what was received. *)
Definition reads (s s' : ip_instance) : Prop :=
  ii_queue s' = ii_queue s ∧ ii_pipe s' = ii_pipe s ∧ ii_sockets s' = ii_sockets s ∧ ii_uris s' = ii_uris s ∧
  ii_readset s' = ii_readset s ∧ ii_running s' = ii_running s ∧
  (∀ fd, ii_kernel s !! fd = None → ii_kernel s' !! fd = None) ∧
  (∀ fd k, ii_kernel s !! fd = Some k →
     ∃ l, ii_kernel s' !! fd = Some (ks_set_rx l k) ∧ (length l <= length (ks_rx k))%nat).

Lemma reads_refl s : reads s s.
Proof. split_and!; try done. intros fd k Hk. exists (ks_rx k). split; [by destruct k|done]. Qed.

Lemma reads_trans s1 s2 s3 : reads s1 s2 → reads s2 s3 → reads s1 s3.
Proof.
  intros (A1 & A2 & A3 & A4 & A5 & A6 & A7 & A8) (B1 & B2 & B3 & B4 & B5 & B6 & B7 & B8).
  split_and!; [congruence..|by auto|]. intros fd k Hk. destruct (A8 fd k Hk) as (l & Hl & Hlen).
  destruct (B8 fd _ Hl) as (l' & Hl' & Hlen'). exists l'. split; [by destruct k|]. cbn in Hlen'. lia.
Qed.

Lemma reads_mid s s' : reads s s' → mid s → mid s'.
Proof.
  intros (_ & _ & E3 & E4 & _ & _ & Hn & Hk) [M1 M2 M3]. split.
  - rewrite E3. intros g fd H. destruct (M1 g fd H) as [?|(k & Hk' & Hg)]; [by left|right].
    destruct (Hk fd k Hk') as (l & Hl & _). by exists (ks_set_rx l k).
  - rewrite E4. intros fd g H. destruct (M2 fd g H) as (k & Hk' & Hg).
    destruct (Hk fd k Hk') as (l & Hl & _). by exists (ks_set_rx l k).
  - intros fd Hfd. apply M3. destruct (ii_kernel s !! fd) eqn:E; [done|]. rewrite (Hn fd E) in Hfd. by destruct Hfd.
Qed.

Lemma received_from_snoc s fd fd' x :
  received_from (ii_set_received (ii_received s ++ [(fd, x)]) s) fd' =
  received_from s fd' ++ (if bool_decide (fd = fd') then [x] else []).
Proof.
  rewrite /received_from /= filter_app fmap_app. f_equal. rewrite filter_cons /=. case_bool_decide; by case_decide.
Qed.

(** Taking one datagram. *)
Lemma take_books s fd k d l (s1 := ii_set_kernel (<[fd := ks_set_rx l k]> (ii_kernel s)) s) :
  books s → ii_kernel s !! fd = Some k → ks_rx k = d :: l →
  reads s s1 ∧
  (d = [] → books s1) ∧
  (d ≠ [] → books (ii_set_received (ii_received s1 ++ [(fd, (ztake recvbuf_len d, ks_group k))]) s1)).
Proof.
  intros [B1 B2 B3] Hk Hrx. split; [|split].
  - split_and!; try done; intros fd'; cbn.
    + intros Hn. rewrite lookup_insert_ne //. congruence.
    + intros k' Hk'. destruct (decide (fd = fd')) as [<-|Hne].
      * rewrite lookup_insert_eq. exists l. simplify_eq. split; [done|]. rewrite Hrx /=. lia.
      * rewrite lookup_insert_ne // Hk'. exists (ks_rx k'). split; [by destruct k'|done].
  - intros ->. split; cbn.
    + intros fd' k'. intros [[<- <-]|[Hne Hk']]%lookup_insert_Some; [|by apply B1].
      specialize (B1 fd k Hk). rewrite /fd_ok Hrx in B1. exact B1.
    + intros r Hr. apply lookup_insert_is_Some'. right. by apply B2.
    + done.
  - intros Hd. split; cbn.
    + intros fd' k'. rewrite /fd_ok received_from_snoc. change (received_from s1 fd') with (received_from s fd').
      intros [[<- <-]|[Hne Hk']]%lookup_insert_Some.
      * specialize (B1 fd k Hk). rewrite /fd_ok Hrx in B1. rewrite bool_decide_true // -app_assoc.
        cbn in B1 |- *. rewrite {1}/payload bool_decide_false // in B1.
      * rewrite bool_decide_false // app_nil_r. by apply B1.
    + intros r [Hr|Hr]%elem_of_app; apply lookup_insert_is_Some'; [right; by apply B2|left].
      apply list_elem_of_singleton in Hr. by subst.
    + done.
Qed.

Lemma read_socket_spec n i s :
  books s → mid s →
  ∃ s', read_socket n i s = (Ok tt, s') ∧ books s' ∧ reads s s' ∧
    (∀ g k, n ≠ O → ii_uris s !! i = Some g → ii_sockets s !! g = Some i → ii_kernel s !! i = Some k →
       ks_rx k ≠ [] → ∃ l, ii_kernel s' !! i = Some (ks_set_rx l k) ∧ (length l < length (ks_rx k))%nat).
Proof.
  revert s. induction n as [|n IH]; intros s Hb Hm; [exists s; split_and!; try done; apply reads_refl|].
  cbn [read_socket]. rewrite {1}/mbind /M_bind /get.
  assert (∃ s', read_socket n i s = (Ok tt, s') ∧ books s' ∧ reads s s') as (s0 & E0 & Hb0 & Hr0)
    by (destruct (IH s Hb Hm) as (s' & ? & ? & ? & _); eauto).
  destruct (ii_uris s !! i) as [g|]; [|exists s0; split_and!; naive_solver].
  destruct (ii_sockets s !! g) as [fd|] eqn:Eg; [|exists s0; split_and!; naive_solver].
  destruct (ii_kernel s !! fd) as [k|] eqn:Ek; [|exists s; split_and!; [done..|apply reads_refl|naive_solver]].
  destruct (ks_rx k) as [|d l] eqn:Erx; [exists s; split_and!; [done..|apply reads_refl|naive_solver]|].
  destruct (take_books s fd k d l Hb Ek Erx) as (Hrd & Hb1 & Hb2). rewrite {1}/mbind /M_bind /put.
  set (s1 := ii_set_kernel _ s) in *.
  assert (ii_kernel s1 !! fd = Some (ks_set_rx l k)) as Ek1 by (cbn; by rewrite lookup_insert_eq).
  case_bool_decide as Hd.
  - exists s1. split_and!; [done|by apply Hb1|done|]. intros g' k' _ [= <-] Eg' Ek' _.
    assert (fd = i) as -> by congruence. exists l. split; [congruence|]. simplify_eq. rewrite Erx /=. lia.
  - assert (ks_group k = g) as Hg.
    { destruct (mid_sockets s Hm g fd Eg) as [->|(k' & Hk' & <-)]; [|by simplify_eq].
      pose proof (mid_fds s Hm (-1) ltac:(by rewrite Ek)). lia. }
    rewrite {1}/mbind /M_bind /modify. rewrite -Hg. set (s2 := ii_set_received _ s1).
    assert (reads s1 s2) as Hr12 by (destruct (reads_refl s1) as (? & ? & ? & ? & ? & ? & ? & ?); by split_and!).
    assert (reads s s2) as Hr2 by (by eapply reads_trans).
    destruct (IH s2) as (s' & E & Hb' & Hr' & _); [by apply Hb2|by eapply reads_mid|].
    exists s'. split_and!; [done|done|by eapply reads_trans|]. intros g' k' _ [= <-] Eg' Ek' _.
    assert (fd = i) as -> by congruence. destruct Hr' as (_ & _ & _ & _ & _ & _ & _ & Hr').
    destruct (Hr' i (ks_set_rx l k) Ek1) as (l' & Hl' & Hlen). exists l'. assert (k' = k) as -> by congruence.
    split; [by destruct k|]. rewrite Erx. cbn in Hlen |- *. lia.
Qed.

(** Reading all ready descriptors. *)
Lemma read_all_spec l s :
  books s → mid s →
  ∃ s', for_each l (read_socket maxreads) s = (Ok tt, s') ∧ books s' ∧ reads s s' ∧
    (∀ i g k, i ∈ l → ii_uris s !! i = Some g → ii_sockets s !! g = Some i → ii_kernel s !! i = Some k →
       ks_rx k ≠ [] → ∃ l, ii_kernel s' !! i = Some (ks_set_rx l k) ∧ (length l < length (ks_rx k))%nat).
Proof.
  revert s. induction l as [|i l IH]; intros s Hb Hm; [exists s; split_and!; [done..|apply reads_refl|set_solver]|].
  destruct (read_socket_spec maxreads i s Hb Hm) as (s1 & E1 & Hb1 & Hr1 & Hp1).
  destruct (IH s1 Hb1 (reads_mid _ _ Hr1 Hm)) as (s2 & E2 & Hb2 & Hr2 & Hp2).
  exists s2. cbn [for_each]. step_ok E1. split_and!; [done|done|by eapply reads_trans|].
  intros j g k Hj Hu Hs Hk Hrx. pose proof Hr1 as (_ & _ & Es & Eu & _ & _ & _ & Hr1').
  pose proof Hr2 as (_ & _ & _ & _ & _ & _ & _ & Hr2').
  assert (∀ l1, ii_kernel s1 !! j = Some (ks_set_rx l1 k) → (length l1 < length (ks_rx k))%nat →
    ∃ l, ii_kernel s2 !! j = Some (ks_set_rx l k) ∧ (length l < length (ks_rx k))%nat) as Hdone.
  { intros l1 H1 Hl1. destruct (Hr2' j _ H1) as (l2 & H2 & Hl2). exists l2. split; [by destruct k|]. cbn in Hl2. lia. }
  destruct (decide (j = i)) as [->|Hne].
  { destruct (Hp1 g k ltac:(discriminate) Hu Hs Hk Hrx) as (l1 & H1 & Hl1). exact (Hdone l1 H1 Hl1). }
  destruct (Hr1' j k Hk) as (l1 & H1 & Hl1). destruct (decide (l1 = [])) as [->|Hnil].
  { apply (Hdone []); [done|]. destruct (ks_rx k); [done|cbn; lia]. }
  destruct (Hp2 j g (ks_set_rx l1 k)) as (l2 & H2 & Hl2); [by apply elem_of_cons in Hj as [?|?]|by rewrite Eu|by rewrite Es|exact H1|exact Hnil|].
  exists l2. split; [by destruct k|]. cbn in Hl2. lia.
Qed.

Lemma tables_mid s : tables s → mid s.
Proof.
  intros [T1 T2 T3 T4]. split; [|done|done]. intros g fd H. right. by destruct (T1 g fd H).
Qed.

Lemma reads_tables s s' : reads s s' → tables s → tables s'.
Proof.
  intros Hr [T1 T2 T3 T4]. pose proof (reads_mid s s' Hr (tables_mid s (Build_tables s T1 T2 T3 T4))) as [M1 M2 M3].
  destruct Hr as (_ & _ & E3 & E4 & E5 & _ & _ & Hk). split; [|by rewrite E3 E5|done|done].
  intros g fd. rewrite E3 E4 E5. intros H. destruct (T1 g fd H) as ((k & Hk' & Hg) & Hu & Hr). split; [|done].
  destruct (Hk fd k Hk') as (l & Hl & _). by exists (ks_set_rx l k).
Qed.

(** The new tables. *)
Lemma add_uris_keep l uris fd g : uris !! fd = Some g → foldl add_uri uris l !! fd = Some g.
Proof.
  revert uris. induction l as [|[g0 fd0] l IH]; intros uris Hu; [done|]. apply IH. rewrite /add_uri /=.
  destruct (uris !! fd0) eqn:E; [done|]. rewrite lookup_insert_ne //. congruence.
Qed.

Lemma add_uris_spec l uris :
  (∀ g fd, (g, fd) ∈ l → ∀ g', uris !! fd = Some g' → g' = g) →
  (∀ g g' fd, (g, fd) ∈ l → (g', fd) ∈ l → g = g') →
  (∀ g fd, (g, fd) ∈ l → foldl add_uri uris l !! fd = Some g) ∧
  (∀ fd g, foldl add_uri uris l !! fd = Some g → uris !! fd = Some g ∨ (g, fd) ∈ l).
Proof.
  revert uris. induction l as [|[g0 fd0] l IH]; intros uris Hu Hinj; [split; [set_solver|by left]|].
  assert (add_uri uris (g0, fd0) !! fd0 = Some g0) as H0.
  { rewrite /add_uri /=. destruct (uris !! fd0) as [g'|] eqn:E; [|by rewrite lookup_insert_eq].
    rewrite E. f_equal. eapply Hu; [left|done]. }
  assert (∀ fd g, add_uri uris (g0, fd0) !! fd = Some g → uris !! fd = Some g ∨ (g = g0 ∧ fd = fd0)) as H1.
  { intros fd g. rewrite /add_uri /=. destruct (uris !! fd0) eqn:E; [by left|].
    intros [[<- <-]|[_ ?]]%lookup_insert_Some; auto. }
  destruct (IH (add_uri uris (g0, fd0))) as [A B].
  - intros g fd Hin g' Hg'. destruct (H1 fd g' Hg') as [?|[-> ->]]; [eapply Hu; [by right|done]|].
    eapply Hinj; [left|by right].
  - intros g g' fd Hg Hg'. eapply Hinj; by right.
  - cbn [foldl]. split.
    + intros g fd [[= -> ->]|Hin]%elem_of_cons; [by apply add_uris_keep|by apply A].
    + intros fd g Hg. destruct (B fd g Hg) as [H|H]; [|right; by right].
      destruct (H1 fd g H) as [?|[-> ->]]; [by left|right; left].
Qed.

Lemma init_select_spec s s' :
  mid s → books s → init_select s = (Ok tt, s') →
  tables s' ∧ books s' ∧ ii_running s' = ii_running s ∧ ii_sockets s' = ii_sockets s.
Proof.
  intros [M1 M2 M3] [B1 B2 B3]. rewrite /init_select {1}/mbind /M_bind /get. cbn zeta.
  destruct (forallb _ _) eqn:Hall; [|done]. intros [= <-].
  assert (∀ g fd, ii_sockets s !! g = Some fd → ∃ k, ii_kernel s !! fd = Some k ∧ ks_group k = g) as Hs.
  { intros g fd Hg. destruct (M1 g fd Hg) as [->|?]; [|done]. exfalso.
    rewrite forallb_forall in Hall. specialize (Hall (g, -1)). rewrite -list_elem_of_In elem_of_map_to_list in Hall.
    by specialize (Hall Hg). }
  destruct (add_uris_spec (map_to_list (ii_sockets s)) (ii_uris s)) as [A B].
  { intros g fd Hg%elem_of_map_to_list g' Hu. destruct (Hs g fd Hg) as (k & Hk & <-), (M2 fd g' Hu) as (k' & Hk' & <-).
    congruence. }
  { intros g g' fd Hg%elem_of_map_to_list Hg'%elem_of_map_to_list.
    destruct (Hs g fd Hg) as (k & Hk & <-), (Hs g' fd Hg') as (k' & Hk' & <-). congruence. }
  split_and!; [|by split|done|done]. split; cbn.
  - intros g fd Hg. split; [by apply Hs|]. split; [by apply A, elem_of_map_to_list|].
    apply elem_of_list_to_set, list_elem_of_fmap. exists (g, fd). by rewrite elem_of_map_to_list.
  - intros fd ([g fd'] & -> & Hg%elem_of_map_to_list)%elem_of_list_to_set%list_elem_of_fmap. by exists g.
  - intros fd g Hu. destruct (B fd g Hu) as [?|?%elem_of_map_to_list]; [by apply M2|by apply Hs].
  - done.
Qed.

(** The kernel does not hand out an open descriptor. *)
Context (new_fd_fresh : ∀ fds fd, new_fd fds = Some fd → fd ∉ fds ∧ 0 <= fd).

Lemma received_from_nil s fd : books s → ii_kernel s !! fd = None → received_from s fd = [].
Proof.
  intros [_ B2 _] Hn. rewrite /received_from.
  assert (filter (λ r : Z * (bytes * bytes), r.1 = fd) (ii_received s) = []) as ->; [|done].
  apply elem_of_nil_inv. intros r [<- Hr]%list_elem_of_filter. destruct (B2 r Hr). congruence.
Qed.

Lemma loop_join_spec g s :
  tables s → books s →
  ∃ init s', loop_join g s = (Ok init, s') ∧ mid s' ∧ books s' ∧ (init = false → tables s') ∧
    ii_running s' = ii_running s.
Proof.
  intros Ht Hb. pose proof (tables_mid s Ht) as [M1 M2 M3]. pose proof Hb as [B1 B2 B3].
  rewrite /loop_join {1}/mbind /M_bind /get. destruct (ii_sockets s !! g) as [fd|] eqn:Eg;
    [exists false, s; split_and!; try done; by apply tables_mid|].
  destruct (new_fd (dom (ii_kernel s))) as [fd|] eqn:Efd; rewrite {1}/mbind /M_bind /put.
  - destruct (new_fd_fresh _ _ Efd) as [Hfresh%not_elem_of_dom Hpos]. eexists true, _. split; [reflexivity|].
    assert (∀ fd' k, ii_kernel s !! fd' = Some k → fd ≠ fd') as Hne by (intros fd' k Hk ->; congruence).
    split_and!; [split|split|done|done]; cbn.
    + intros g' fd' [[<- <-]|[_ Hg]]%lookup_insert_Some.
      * right. eexists. by rewrite lookup_insert_eq.
      * destruct (M1 g' fd' Hg) as [?|(k & Hk & ?)]; [by left|right]. exists k. rewrite lookup_insert_ne //. eauto.
    + intros fd' g' Hu. destruct (M2 fd' g' Hu) as (k & Hk & ?). exists k. rewrite lookup_insert_ne //. eauto.
    + intros fd' [<-|?]%lookup_insert_is_Some'; [done|by apply M3].
    + intros fd' k [[<- <-]|[_ Hk]]%lookup_insert_Some; [|by apply B1]. rewrite /fd_ok /=.
      change (received_from _ fd) with (received_from s fd). by rewrite received_from_nil.
    + intros r Hr. apply lookup_insert_is_Some'. right. by apply B2.
    + done.
  - eexists true, _. split; [reflexivity|]. split_and!; [split|by split|done|done]; cbn; try done.
    intros g' fd' [[<- <-]|[_ Hg]]%lookup_insert_Some; [by left|by apply M1].
Qed.

Lemma loop_leave_spec g s :
  tables s → books s →
  ∃ init s', loop_leave g s = (Ok init, s') ∧ mid s' ∧ books s' ∧ (init = false → tables s') ∧
    ii_running s' = ii_running s.
Proof.
  intros Ht Hb. pose proof (tables_mid s Ht) as [M1 M2 M3]. pose proof Hb as [B1 B2 B3].
  rewrite /loop_leave {1}/mbind /M_bind /get. destruct (ii_sockets s !! g) as [fd|] eqn:Eg;
    [|exists false, s; split_and!; try done; by apply tables_mid].
  rewrite {1}/mbind /M_bind /put. eexists true, _. split; [reflexivity|].
  assert (∀ fd' k, ii_kernel s !! fd' = Some k →
    ∃ b, alter (ks_set_member false) fd (ii_kernel s) !! fd' = Some (ks_set_member b k)) as Ha.
  { intros fd' k Hk. destruct (decide (fd' = fd)) as [->|Hne].
    - exists false. by rewrite lookup_alter_eq Hk.
    - exists (ks_member k). rewrite lookup_alter_ne // Hk. by destruct k. }
  split_and!; [split|split|done|done]; cbn.
  - intros g' fd' [_ Hg]%lookup_delete_Some. destruct (M1 g' fd' Hg) as [?|(k & Hk & ?)]; [by left|right].
    destruct (Ha fd' k Hk) as [b Hb']. by exists (ks_set_member b k).
  - intros fd' g' Hu. destruct (M2 fd' g' Hu) as (k & Hk & ?). destruct (Ha fd' k Hk) as [b Hb']. by exists (ks_set_member b k).
  - intros fd'. rewrite lookup_alter_is_Some. apply M3.
  - intros fd' k'. destruct (ii_kernel s !! fd') as [k|] eqn:Hk.
    + destruct (Ha fd' k Hk) as [b ->]. intros [= <-]. exact (B1 fd' k Hk).
    + intros H. apply mk_is_Some, lookup_alter_is_Some in H. rewrite Hk in H. by destruct H.
  - intros r Hr. rewrite lookup_alter_is_Some. by apply B2.
  - done.
Qed.

Lemma events_nonneg p : 0 <= zsum (λ e, if e =? s_queue_event then 1 else 0) p.
Proof. apply zsum_nonneg, Forall_forall. intros e _. destruct (_ =? _); lia. Qed.

Lemma handle_pipe_spec s :
  tables s → books s →
  ∃ go init s', handle_pipe s = (Ok (go, init), s') ∧ mid s' ∧ books s' ∧ (init = false → tables s') ∧
    ii_running s' = go && ii_running s ∧ (go = false → init = false).
Proof.
  intros Ht Hb. rewrite /handle_pipe {1}/mbind /M_bind /get. pose proof Hb as [B1 B2 B3].
  destruct (ii_pipe s) as [|e p] eqn:Ep; [exists true, false, s; split_and!; try done; by apply tables_mid|].
  rewrite /events Ep in B3. cbn in B3. pose proof (events_nonneg p).
  assert (∀ q, zsum (λ e, if e =? s_queue_event then 1 else 0) p = zlen q → books (ii_set_queue q p s)) as Hbq
    by (intros q Hq; by split).
  assert (∀ q, tables (ii_set_queue q p s)) as Htq by (intros q; destruct Ht; by split).
  destruct (e =? s_queue_event) eqn:Ee.
  - destruct (ii_queue s) as [|msg q] eqn:Eq; [rewrite zlen_nil in B3; lia|]. rewrite zlen_cons in B3.
    rewrite {1}/mbind /M_bind /put. set (s1 := ii_set_queue q p s).
    assert (books s1 ∧ tables s1) as [Hb1 Ht1] by (split; [apply Hbq; lia|apply Htq]).
    assert (∀ m : I bool, (∃ init s', m s1 = (Ok init, s') ∧ mid s' ∧ books s' ∧ (init = false → tables s') ∧
      ii_running s' = ii_running s1) → ∃ go init s', (init ← m; mret (true, init)) s1 = (Ok (go, init), s') ∧ mid s' ∧
      books s' ∧ (init = false → tables s') ∧ ii_running s' = go && ii_running s ∧ (go = false → init = false)) as Hgo.
    { intros m (init & s' & E & ? & ? & ? & ?). exists true, init, s'. by step_ok E. }
    assert (∃ init s', (mret false : I bool) s1 = (Ok init, s') ∧ mid s' ∧ books s' ∧ (init = false → tables s') ∧
      ii_running s' = ii_running s1) as Hskip by (exists false, s1; split_and!; try done; by apply tables_mid).
    apply Hgo. destruct msg as [u|u]; destruct (uri_empty u); try exact Hskip;
      [by apply loop_join_spec|by apply loop_leave_spec].
  - rewrite {1}/mbind /M_bind /put. exists false, false, (ii_set_running false (ii_set_queue (ii_queue s) p s)).
    assert (tables (ii_set_running false (ii_set_queue (ii_queue s) p s))) as Ht' by (destruct Ht; by split).
    split_and!; [done|by apply tables_mid|by split; [..|cbn; lia]|done|done|done].
Qed.

(** ** The steps *)

Definition iinv (s : ip_instance) : Prop := tables s ∧ books s.

Lemma iinv_loop s b s' : iinv s → receive_iteration s = (Ok b, s') → iinv s'.
Proof.
  intros [Ht Hb]. rewrite /receive_iteration {1}/mbind /M_bind /get.
  destruct (negb (ii_running s) || _); [by intros [= <- <-]|].
  destruct (handle_pipe_spec s Ht Hb) as (go & init & s1 & E1 & Hm1 & Hb1 & Ht1 & _ & Hgo). step_ok E1. cbn [fst snd].
  destruct go; [|intros [= <- <-]; split; [by apply Ht1, Hgo|done]].
  destruct (read_all_spec (in_order (ready s)) s1 Hb1 Hm1) as (s2 & E2 & Hb2 & Hr2 & _). step_ok E2.
  destruct init.
  - rewrite {1}/mbind /M_bind. destruct (init_select s2) as [[[]|?|?] s3] eqn:E3; [|done..]. intros [= <- <-].
    by destruct (init_select_spec s2 s3 (reads_mid _ _ Hr2 Hm1) Hb2 E3) as (? & ? & _).
  - intros [= <- <-]. split; [eapply reads_tables; [done|by apply Ht1]|done].
Qed.

Lemma iinv_arrive g d s : iinv s → iinv (arrive g d s).
Proof.
  intros [[T1 T2 T3 T4] [B1 B2 B3]]. set (f := λ k, if ks_member k && bool_decide (ks_group k = g) then ks_push d k else k).
  assert (∀ k, ks_group (f k) = ks_group k) as Hf by (intros k; rewrite /f; by destruct (_ && _)).
  assert (∀ fd g', (∃ k, ii_kernel s !! fd = Some k ∧ ks_group k = g') →
    ∃ k, (f <$> ii_kernel s) !! fd = Some k ∧ ks_group k = g') as Hk.
  { intros fd g' (k & Hk & <-). exists (f k). by rewrite lookup_fmap Hk Hf. }
  split; split; cbn [arrive ii_set_kernel ii_sockets ii_kernel ii_uris ii_readset ii_received ii_pipe ii_queue].
  - intros g' fd Hg. destruct (T1 g' fd Hg) as (? & ?). split; [by apply Hk|done].
  - done.
  - intros fd g' Hu. by apply Hk, T3.
  - intros fd. rewrite lookup_fmap fmap_is_Some. apply T4.
  - intros fd k'. rewrite lookup_fmap. intros (k & Hk' & ->)%fmap_Some. specialize (B1 fd k Hk').
    rewrite /f. destruct (ks_member k && _); [|exact B1]. rewrite /fd_ok /= !omap_app !fmap_app app_assoc.
    change (received_from _ fd) with (received_from s fd). by rewrite B1.
  - intros r Hr. rewrite lookup_fmap fmap_is_Some. by apply B2.
  - exact B3.
Qed.

Lemma iinv_step s s' : iinv s → istep s s' → iinv s'.
Proof.
  intros Hs. destruct 1 as [msg s|s|g d s|s b s' E].
  - destruct Hs as [[T1 T2 T3 T4] [B1 B2 B3]]. split; split; try done.
    cbn. rewrite /events /= zsum_app zlen_app. rewrite /events in B3. rewrite B3. done.
  - destruct Hs as [[T1 T2 T3 T4] [B1 B2 B3]]. split; split; try done.
    cbn. rewrite /events /= zsum_app. rewrite /events in B3. rewrite B3. cbn. lia.
  - by apply iinv_arrive.
  - by eapply iinv_loop.
Qed.

Lemma iinv_reachable s : rtc istep new_ip_instance s → iinv s.
Proof.
  intros Hs. assert (iinv new_ip_instance) as Hi.
  { split; split; try done; intros x Hx; try (by destruct Hx); by apply not_elem_of_empty in Hx || by apply not_elem_of_nil in Hx. }
  induction Hs as [|s1 s2 s3 H12 _ IH]; [done|]. by eapply IH, iinv_step.
Qed.

(** ** Progress *)

Definition rx_length (s : ip_instance) (fd : Z) : Z := from_option (λ k, zlen (ks_rx k)) 0 (ii_kernel s !! fd).
Definition waiting (s : ip_instance) : Z := zsum (rx_length s) (in_order (ii_readset s)).

Lemma iteration_reads s :
  iinv s → ii_running s = true → ii_pipe s = [] → ready s ≠ ∅ →
  ∃ s', receive_iteration s = (Ok true, s') ∧ reads s s' ∧ waiting s' < waiting s.
Proof.
  intros [Ht Hb] Hrun Hp Hne. rewrite /receive_iteration {1}/mbind /M_bind /get Hrun Hp.
  rewrite (bool_decide_false (ready s = ∅)) // andb_false_r. cbn [negb orb].
  assert (handle_pipe s = (Ok (true, false), s)) as Eh by (by rewrite /handle_pipe {1}/mbind /M_bind /get Hp).
  step_ok Eh. cbn [fst snd].
  destruct (read_all_spec (in_order (ready s)) s Hb (tables_mid s Ht)) as (s' & E & _ & Hr & Hshrink).
  exists s'. step_ok E. split; [done|]. split; [done|]. pose proof Hr as (_ & _ & _ & _ & Ers & _ & Hn & Hk).
  apply set_choose_L in Hne as [i Hi]. pose proof Hi as [Hd Hin]%elem_of_filter.
  rewrite /waiting Ers. destruct (in_order_spec (ii_readset s)) as [_ Hin2].
  assert (∀ fd, rx_length s' fd <= rx_length s fd) as Hle.
  { intros fd. rewrite /rx_length. destruct (ii_kernel s !! fd) as [k|] eqn:Ek; [|by rewrite (Hn fd Ek)].
    destruct (Hk fd k Ek) as (l & -> & Hl). cbn. rewrite /zlen. lia. }
  assert (rx_length s' i < rx_length s i) as Hlt.
  { destruct Ht as [T1 T2 T3 _]. destruct (T2 i Hin) as [g Hg]. destruct (T1 g i Hg) as ((k & Ek & Hgk) & Hu & _).
    rewrite /has_data Ek in Hd. apply negb_true_iff, bool_decide_eq_false in Hd.
    destruct (Hshrink i g k) as (l & El & Hl); try done; [by apply in_order_spec|].
    rewrite /rx_length Ek El /= /zlen. lia. }
  assert (i ∈ in_order (ii_readset s)) as Hii by (by apply Hin2). revert Hii. clear -Hle Hlt.
  assert (∀ l, zsum (rx_length s') l <= zsum (rx_length s) l) as Hsum
    by (induction l as [|x l IH]; cbn; [done|specialize (Hle x); lia]).
  induction (in_order (ii_readset s)) as [|x l IH]; [by intros []%not_elem_of_nil|]. cbn.
  intros [<-|Hx]%elem_of_cons; [specialize (Hsum l); lia|]. specialize (IH Hx). specialize (Hle x). lia.
Qed.

Lemma waiting_nonneg s : 0 <= waiting s.
Proof.
  apply zsum_nonneg, Forall_forall. intros fd _. rewrite /rx_length. destruct (ii_kernel s !! fd); cbn; [apply zlen_nonneg|done].
Qed.

Lemma drain s :
  iinv s → ii_running s = true → ii_pipe s = [] →
  ∃ s', rtc istep s s' ∧ iinv s' ∧ reads s s' ∧ ready s' = ∅.
Proof.
  remember (Z.to_nat (waiting s)) as n eqn:En. revert s En. induction (lt_wf n) as [n _ IH]. intros s En Hs Hrun Hp.
  destruct (decide (ready s = ∅)) as [He|Hne]; [exists s; split_and!; try done; apply reads_refl|].
  destruct (iteration_reads s Hs Hrun Hp Hne) as (s1 & E & Hr & Hlt). pose proof (waiting_nonneg s1).
  pose proof Hr as (_ & E2 & _ & _ & _ & E6 & _ & _).
  destruct (IH (Z.to_nat (waiting s1)) ltac:(lia) s1 eq_refl) as (s2 & H2 & Hi2 & Hr2 & He2);
    [by eapply iinv_loop|by rewrite E6|by rewrite E2|].
  exists s2. split_and!; [eapply rtc_l; [by eapply i_loop|done]|done|by eapply reads_trans|done].
Qed.
End loop.

(** C7: The IP module delivers exactly.  In every interleaving of requests,
    arriving datagrams and the receive loop, what was received from a
    descriptor is, once each and in order, the non-empty datagrams that arrived
    there (at most 65000 bytes of each) up to those still waiting, all under
    the name of the group the descriptor was opened for; and when no request
    is pending the loop can go on until everything that arrived at the sockets
    in use is received. *)
Theorem ipm_delivers (new_fd : gset Z → option Z) (joins : bytes → bool) (s : ip_instance) :
  (∀ fds fd, new_fd fds = Some fd → fd ∉ fds ∧ 0 <= fd) →
  rtc (istep new_fd joins) new_ip_instance s →
  (∀ fd k, ii_kernel s !! fd = Some k →
     received_from s fd ++ ((λ d, (d, ks_group k)) <$> omap payload (ks_rx k)) =
     (λ d, (d, ks_group k)) <$> omap payload (ks_arrived k)) ∧
  (ii_running s = true → ii_pipe s = [] →
   ∃ s', rtc (istep new_fd joins) s s' ∧ ∀ g fd k, ii_sockets s !! g = Some fd → ii_kernel s !! fd = Some k →
     ks_group k = g ∧ received_from s' fd = (λ d, (d, g)) <$> omap payload (ks_arrived k)).
Proof.
  intros Hfresh Hs. pose proof (iinv_reachable new_fd joins Hfresh s Hs) as Hi.
  split; [destruct Hi as [_ [B1 _ _]]; exact B1|].
  intros Hrun Hp. destruct (drain new_fd joins Hfresh s Hi Hrun Hp) as (s' & Hs' & [_ [B1 _ _]] & Hr & He). exists s'.
  split; [done|]. intros g fd k Hg Hk. destruct Hi as [[T1 T2 T3 T4] _]. destruct (T1 g fd Hg) as ((k0 & Hk0 & Hgk) & _ & Hin).
  assert (k0 = k) as -> by congruence. split; [done|]. destruct Hr as (_ & _ & _ & _ & Ers & _ & _ & Hr).
  destruct (Hr fd k Hk) as (l & Hl & _). specialize (B1 fd _ Hl). rewrite /fd_ok /= Hgk in B1.
  assert (l = []) as ->; [|by rewrite app_nil_r in B1].
  destruct l as [|d l]; [done|]. exfalso. assert (fd ∈ ready s') as H; [|rewrite He in H; set_solver].
  apply elem_of_filter. rewrite /has_data Hl Ers. done.
Qed.

(** The lowest free descriptor that is at least [b]. *)
Definition lowest_fd (b : Z) (fds : gset Z) : option Z :=
  head (filter (λ fd, fd ∉ fds) (seqZ b (Z.of_nat (size fds) + 1))).

Lemma lowest_fd_fresh b fds fd : 0 <= b → lowest_fd b fds = Some fd → fd ∉ fds ∧ 0 <= fd.
Proof.
  intros Hb Hh. apply head_Some in Hh as [l Hl].
  assert (fd ∈ filter (λ fd, fd ∉ fds) (seqZ b (Z.of_nat (size fds) + 1))) as H by (rewrite Hl; left).
  apply list_elem_of_filter in H as [? ?%elem_of_seqZ]. split; [done|lia].
Qed.

(** A group is joined and left, [n] times. *)
Section cycles.
Context (b : Z) (joins : bytes → bool) (u : uri).

Definition join_round : I bool := ip_join u ;; receive_iteration (lowest_fd b) joins.
Definition leave_round : I bool := ip_leave u ;; receive_iteration (lowest_fd b) joins.
Definition cycle : I unit := join_round ;; leave_round ;; mret tt.
Fixpoint cycles (n : nat) : I unit := match n with O => mret tt | S n => cycles n ;; cycle end.

(** Nothing joined, nothing to do, and [n] descriptors open. *)
Record idle (n : nat) (s : ip_instance) : Prop := {
  id_queue : ii_queue s = [];
  id_pipe : ii_pipe s = [];
  id_sockets : ii_sockets s = ∅;
  id_readset : ii_readset s = ∅;
  id_running : ii_running s = true;
  id_kernel : dom (ii_kernel s) = list_to_set (seqZ b (Z.of_nat n));
  id_rx fd k : ii_kernel s !! fd = Some k → ks_rx k = []
}.

Lemma lowest_fd_next n : lowest_fd b (list_to_set (seqZ b (Z.of_nat n))) = Some (b + Z.of_nat n).
Proof.
  rewrite /lowest_fd size_list_to_set; [apply NoDup_seqZ|]. rewrite length_seqZ Nat2Z.id.
  rewrite seqZ_app; [lia|lia|]. rewrite filter_app.
  assert (filter (λ fd : Z, fd ∉ (list_to_set (seqZ b (Z.of_nat n)) : gset Z)) (seqZ b (Z.of_nat n)) = []) as ->.
  { apply elem_of_nil_inv. intros x [Hx Hin]%list_elem_of_filter. apply Hx. by apply elem_of_list_to_set. }
  rewrite app_nil_l (seqZ_cons _ 1); [lia|]. rewrite filter_cons_True; [|done].
  rewrite elem_of_list_to_set elem_of_seqZ. lia.
Qed.

Lemma ready_empty s : (∀ fd k, ii_kernel s !! fd = Some k → ks_rx k = []) → ready s = ∅.
Proof.
  intros Hrx. apply set_eq. intros fd. split; [|set_solver]. intros [Hd _]%elem_of_filter. revert Hd. rewrite /has_data.
  destruct (ii_kernel s !! fd) eqn:E; [|done]. by rewrite (Hrx _ _ E).
Qed.

Lemma in_order_empty : in_order ∅ = [].
Proof. done. Qed.

Lemma iteration_request msg q p s init s1 :
  ii_pipe s = s_queue_event :: p → ii_queue s = msg :: q → ii_running s = true → ready s = ∅ →
  (match msg with
   | iio_join u => if uri_empty u then mret false else loop_join (lowest_fd b) joins (uri_str u)
   | iio_leave u => if uri_empty u then mret false else loop_leave (uri_str u)
   end) (ii_set_queue q p s) = (Ok init, s1) →
  receive_iteration (lowest_fd b) joins s = ((if init then init_select else mret tt) ;; mret true) s1.
Proof.
  intros Hp Hq Hrun Hready E. rewrite /receive_iteration {1}/mbind /M_bind /get Hrun Hp Hready in_order_empty.
  cbn [negb orb andb]. rewrite bool_decide_false //=.
  assert (handle_pipe (lowest_fd b) joins s = (Ok (true, init), s1)) as Eh.
  { rewrite /handle_pipe {1}/mbind /M_bind /get Hp Hq. cbn [Z.eqb s_queue_event].
    rewrite {1}/mbind /M_bind /put. by step_ok E. }
  step_ok Eh. done.
Qed.

(** The state after the join of an idle instance, before the new set. *)
Definition opened (n : nat) (s : ip_instance) : ip_instance :=
  let fd := b + Z.of_nat n in
  ii_set_kernel (<[fd := {| ks_group := uri_str u; ks_member := joins (uri_str u); ks_rx := []; ks_arrived := [] |}]>
    (ii_kernel s)) (ii_set_sockets {[uri_str u := fd]} ({[uri_str u]} ∪ ii_groups s) s).

Context (u_valid : uri_empty u = false).

Lemma join_iteration n s :
  idle n s →
  join_round s = (init_select ;; mret true) (opened n s).
Proof.
  intros [Hq Hp Hs Hr Hrun Hk Hrx]. rewrite /join_round /ip_join /ii_request. rewrite {1}/mbind /M_bind {1}/mbind /M_bind /modify.
  cbn [mret M_ret]. rewrite (iteration_request (iio_join u) [] [] _ true (opened n s)); cbn.
  - by rewrite Hp.
  - by rewrite Hq.
  - done.
  - apply ready_empty. exact Hrx.
  - rewrite u_valid /loop_join {1}/mbind /M_bind /get. cbn [ii_sockets ii_kernel ii_set_queue]. rewrite Hs lookup_empty Hk.
    rewrite lowest_fd_next {1}/mbind /M_bind /put. cbn [mret M_ret]. rewrite /opened. destruct s. cbn in *. by subst.
  - done.
Qed.

Lemma select_opened n s (fd := b + Z.of_nat n) :
  idle n s →
  init_select (opened n s) =
  if in_fd_set fd then (Ok tt, ii_set_select (add_uri (ii_uris s) (uri_str u, fd)) {[fd]} (opened n s))
  else (UB "FD_SET outside of the set", opened n s).
Proof.
  intros _. rewrite /init_select {1}/mbind /M_bind /get. cbn [opened ii_sockets ii_set_kernel ii_set_sockets].
  rewrite map_to_list_singleton. cbn [forallb foldl fmap list_fmap snd list_to_set ii_uris]. rewrite andb_true_r.
  destruct (in_fd_set fd) eqn:E; rewrite E; [|done]. rewrite /put. do 2 f_equal. set_solver.
Qed.

Lemma cycle_step n s : idle n s → in_fd_set (b + Z.of_nat n) = true → ∃ s', cycle s = (Ok tt, s') ∧ idle (S n) s'.
Proof.
  intros Hi Hin. rewrite /cycle. set (fd := b + Z.of_nat n) in *.
  set (s1 := ii_set_select (add_uri (ii_uris s) (uri_str u, fd)) {[fd]} (opened n s)).
  assert (join_round s = (Ok true, s1)) as E1.
  { rewrite (join_iteration n s Hi). rewrite {1}/mbind /M_bind (select_opened n s Hi) -/fd Hin. done. }
  pose proof Hi as [Hq Hp Hs Hr Hrun Hk Hrx].
  set (s2 := ii_set_kernel (alter (ks_set_member false) fd (ii_kernel s1))
    (ii_set_sockets (delete (uri_str u) (ii_sockets s1)) (ii_groups s1 ∖ {[uri_str u]}) s1)).
  assert (∀ fd' k, ii_kernel s1 !! fd' = Some k → ks_rx k = []) as Hrx1.
  { intros fd' k. cbn. intros [[<- <-]|[_ H]]%lookup_insert_Some; [done|by eapply Hrx]. }
  assert (leave_round s1 = (init_select ;; mret true) s2) as E2.
  { rewrite /leave_round /ip_leave /ii_request {1}/mbind /M_bind {1}/mbind /M_bind /modify. cbn [mret M_ret].
    rewrite (iteration_request (iio_leave u) [] [] _ true s2); cbn; [by rewrite Hp|by rewrite Hq|done|by apply ready_empty| |done].
    rewrite u_valid /loop_leave {1}/mbind /M_bind /get. cbn [ii_sockets ii_kernel ii_set_queue].
    rewrite lookup_singleton_eq {1}/mbind /M_bind /put. cbn [mret M_ret]. rewrite /s2 /s1. destruct s. cbn in *. by subst. }
  set (s3 := ii_set_select (ii_uris s2) ∅ s2).
  assert (init_select s2 = (Ok tt, s3)) as E3.
  { rewrite /init_select {1}/mbind /M_bind /get. cbn [s2 s1 opened ii_sockets ii_set_kernel ii_set_sockets ii_set_select].
    rewrite delete_singleton_eq map_to_list_empty. done. }
  exists s3. split.
  - step_ok E1. rewrite {1}/mbind /M_bind E2 {1}/mbind /M_bind E3. done.
  - split; try done; cbn.
    + apply delete_singleton_eq.
    + rewrite dom_alter_L dom_insert_L Hk. apply set_eq. intros x.
      rewrite elem_of_union elem_of_singleton !elem_of_list_to_set !elem_of_seqZ. rewrite /fd. lia.
    + intros fd' k'. destruct (decide (fd' = fd)) as [->|Hne].
      * rewrite lookup_alter_eq lookup_insert_eq. by intros [= <-].
      * rewrite lookup_alter_ne // lookup_insert_ne //. apply Hrx.
Qed.

Lemma cycles_idle n :
  0 <= b → b + Z.of_nat n <= FD_SETSIZE → ∃ s, cycles n new_ip_instance = (Ok tt, s) ∧ idle n s.
Proof.
  intros Hb. induction n as [|n IH]; intros Hn.
  { eexists. split; [done|]. split; done. }
  destruct IH as (s & E & Hi); [lia|]. destruct (cycle_step n s Hi) as (s' & E' & Hi').
  { rewrite /in_fd_set. rewrite /FD_SETSIZE in Hn |- *. lia. }
  exists s'. cbn [cycles]. by step_ok E.
Qed.
End cycles.

(** Leaving a group leaks its descriptor, until the module writes outside of
    an [fd_set].  Let the system hand out the lowest free descriptor from [b]
    on.  Joining and leaving a group [n] times leaves [n] descriptors open,
    although no group is joined, and the join after [1024 - b] rounds puts
    descriptor 1024 into a set of 1024. *)
Theorem ipm_leaves_leak (b : Z) (joins : bytes → bool) (u : uri) (n : nat) :
  0 <= b → b + Z.of_nat n <= FD_SETSIZE → uri_empty u = false →
  ∃ s, cycles b joins u n new_ip_instance = (Ok tt, s) ∧ ii_sockets s = ∅ ∧
    dom (ii_kernel s) = list_to_set (seqZ b (Z.of_nat n)) ∧
    (b + Z.of_nat n = FD_SETSIZE → ∃ s', join_round b joins u s = (UB "FD_SET outside of the set", s')).
Proof.
  intros Hb Hn Hu. destruct (cycles_idle b joins u Hu n Hb Hn) as (s & E & Hi). exists s.
  pose proof Hi as [_ _ Hs _ _ Hk _]. split_and!; [done..|]. intros Hfull. exists (opened b joins u n s).
  rewrite (join_iteration b joins u Hu n s Hi) {1}/mbind /M_bind (select_opened b joins u Hu n s Hi) Hfull. done.
Qed.

Definition sample_ip_group : uri := uri_of (str "ham:ip:239.0.0.1:1234").

Lemma ipm_leaves_leak_witness :
  ∃ s, cycles 1020 (λ _, true) sample_ip_group 4 new_ip_instance = (Ok tt, s) ∧ ii_sockets s = ∅ ∧
    ∃ s', join_round 1020 (λ _, true) sample_ip_group s = (UB "FD_SET outside of the set", s').
Proof.
  destruct (ipm_leaves_leak 1020 (λ _, true) sample_ip_group 4) as (s & E & H1 & _ & H2);
    [lia|vm_compute; discriminate|vm_compute; reflexivity|].
  exists s. split; [exact E|]. split; [exact H1|]. apply H2. reflexivity.
Defined.

(** A joined group and a datagram. *)
Definition sample_listening : ip_instance := (join_round 3 (λ _, true) sample_ip_group new_ip_instance).2.
Definition sample_arrived : ip_instance := arrive (uri_str sample_ip_group) (str "hi") sample_listening.

Lemma ipm_delivers_witness :
  ∃ s, rtc (istep (lowest_fd 3) (λ _, true)) new_ip_instance s ∧
    received_from s 3 = [(str "hi", str "ham:ip:239.0.0.1:1234")].
Proof.
  assert (∀ fds fd, lowest_fd 3 fds = Some fd → fd ∉ fds ∧ 0 <= fd) as Hfresh.
  { intros fds fd. apply lowest_fd_fresh. lia. }
  assert (rtc (istep (lowest_fd 3) (λ _, true)) new_ip_instance sample_arrived) as Hs.
  { eapply rtc_l; [apply (i_request _ _ (iio_join sample_ip_group))|]. eapply rtc_l; [|apply rtc_once, i_arrive].
    apply (i_loop _ _ _ true). vm_compute. reflexivity. }
  destruct (ipm_delivers (lowest_fd 3) (λ _, true) sample_arrived Hfresh Hs) as [_ H].
  destruct H as (s & H1 & H2); [vm_compute; reflexivity|vm_compute; reflexivity|].
  exists s. split; [exact (transitivity Hs H1)|].
  destruct (H2 (str "ham:ip:239.0.0.1:1234") 3 {| ks_group := str "ham:ip:239.0.0.1:1234"; ks_member := true;
    ks_rx := [str "hi"]; ks_arrived := [str "hi"] |}) as [_ E]; [vm_compute; reflexivity|vm_compute; reflexivity|].
  rewrite E. vm_compute. reflexivity.
Defined.
