(* ===== verification/Session.v ===== *)
(** * Sessions

    [middleware::session] ([session.cpp], [session.hpp]): one client of the
    middleware.  Its thread answers the client's requests with the [cb_]
    functions, hands outgoing packets to the socket proxies, and writes
    received packets, acknowledgements and events to the client.  The
    receiving half of [tech_module.cpp] ([recv_callback], [handle_receive],
    [event_callack] and the table of instances) feeds the sessions' queues. *)

From stdpp Require Import sorting.
From S2P Require Import Prelude Config Uri Streams WriteBuffer ReadBuffer Serialization Message.
From S2P Require Import SyncFunction Dispatcher UriMappings StorageSemaphore TechModule SocketProxy.

(** [session_msg]; a packet message owns a copy of the data. *)
Inductive session_msg :=
  | outgoing_ipc_msg_t (msg : message)
  | outgoing_mcast_pckt_t (sck_id : Z) (source : uri) (data_size : Z) (raw_data : bytes)
  | incoming_sync_request_t (msg : message)
  | async_send_job_done_t (msg : message)
  | receive_loop_killed_t
  | membership_event_t (mbs_event : membership_event).

(** [m_sockets] by its keys (the proxies are in [w_heap]), the id generator,
    [m_subscribed_events], the queue, the bytes in the notification pipe and
    [m_loop_done]. *)
Record session := {
  se_sockets : gset Z;
  se_next_id : Z;
  se_subscribed : bool;
  se_queue : list session_msg;
  se_pipe : nat;
  se_loop_done : bool
}.

Definition se_set_sockets x i s := {| se_sockets := x; se_next_id := i;
  se_subscribed := se_subscribed s; se_queue := se_queue s; se_pipe := se_pipe s;
  se_loop_done := se_loop_done s |}.
Definition se_set_subscribed b s := {| se_sockets := se_sockets s; se_next_id := se_next_id s;
  se_subscribed := b; se_queue := se_queue s; se_pipe := se_pipe s; se_loop_done := se_loop_done s |}.
Definition se_set_queue q p s := {| se_sockets := se_sockets s; se_next_id := se_next_id s;
  se_subscribed := se_subscribed s; se_queue := q; se_pipe := p; se_loop_done := se_loop_done s |}.
Definition se_set_done b s := {| se_sockets := se_sockets s; se_next_id := se_next_id s;
  se_subscribed := se_subscribed s; se_queue := se_queue s; se_pipe := se_pipe s; se_loop_done := b |}.

Definition new_session : session :=
  {| se_sockets := ∅; se_next_id := 0; se_subscribed := false; se_queue := []; se_pipe := 0;
     se_loop_done := false |}.

(** The middleware process: the modules and jobs, every socket proxy that
    was created (a proxy lives as long as anything points to it), the
    sessions, the event subscribers and the flag [s_is_img]. *)
Record world := {
  w_env : env;
  w_heap : gmap sock socket_proxy;
  w_sessions : gmap Z session;
  w_subscribers : gset Z;
  w_is_img : bool;
  w_next_iid : Z
}.

Definition w_set_env e w := {| w_env := e; w_heap := w_heap w; w_sessions := w_sessions w;
  w_subscribers := w_subscribers w; w_is_img := w_is_img w; w_next_iid := w_next_iid w |}.
Definition w_set_heap h w := {| w_env := w_env w; w_heap := h; w_sessions := w_sessions w;
  w_subscribers := w_subscribers w; w_is_img := w_is_img w; w_next_iid := w_next_iid w |}.
Definition w_set_sessions x w := {| w_env := w_env w; w_heap := w_heap w; w_sessions := x;
  w_subscribers := w_subscribers w; w_is_img := w_is_img w; w_next_iid := w_next_iid w |}.
Definition w_set_subscribers x w := {| w_env := w_env w; w_heap := w_heap w;
  w_sessions := w_sessions w; w_subscribers := x; w_is_img := w_is_img w; w_next_iid := w_next_iid w |}.
Definition w_set_is_img b w := {| w_env := w_env w; w_heap := w_heap w; w_sessions := w_sessions w;
  w_subscribers := w_subscribers w; w_is_img := b; w_next_iid := w_next_iid w |}.

Definition empty_world : world :=
  {| w_env := empty_env; w_heap := ∅; w_sessions := ∅; w_subscribers := ∅; w_is_img := false;
     w_next_iid := 0 |}.

(** A member function of session [x]. *)
Definition in_session {A} (x : Z) (m : M session A) : M world A := λ w,
  match w_sessions w !! x with
  | Some s => let '(r, s') := m s in (r, w_set_sessions (<[x := s']> (w_sessions w)) w)
  | None => (UB "dangling session pointer", w)
  end.

(** [session::push]: the queue, then one byte into the pipe. *)
Definition push (x : Z) (msg : session_msg) : M world unit :=
  in_session x (modify (λ s, se_set_queue (se_queue s ++ [msg]) (S (se_pipe s)) s)).

(** [send], [handle_event] and [async_job_done]. *)
Definition send (x : Z) (what : option message) : M world unit :=
  match what with Some m => push x (outgoing_ipc_msg_t m) | None => mret tt end.
Definition handle_event (x : Z) (mevent : membership_event) : M world unit :=
  push x (membership_event_t mevent).
Definition async_job_done_msg (x : Z) (what : message) : M world unit :=
  push x (async_send_job_done_t what).

(** The destructors of the jobs that died meanwhile have told their
    sessions. *)
Definition deliver_done : M world unit :=
  w ← get;
  modify (w_set_env (e_set_done [] (w_env w))) ;;
  for_each (e_done (w_env w)) (λ p, async_job_done_msg p.1 p.2).

(** A function of the modules, and the notifications it causes. *)
Definition on_modules {A} (m : M env A) : M world A :=
  r ← zoom w_env w_set_env m; deliver_done ;; mret r.

(** A member function of a socket proxy that writes to output [S]. *)
Definition run_sock {S A : Type} (sk : sock) (m : M (pstate S) A) : M (world * S) A := λ ws,
  match w_heap ws.1 !! sk with
  | Some sp =>
      let '(r, p) := m (Build_pstate sp (w_env ws.1) ws.2) in
      (r, (w_set_env (p_env p) (w_set_heap (<[sk := p_sock p]> (w_heap ws.1)) ws.1), p_out p))
  | None => (UB "dangling socket pointer", ws)
  end.

Definition on_world {S A : Type} (m : M world A) : M (world * S) A :=
  zoom fst (λ w ws, (w, ws.2)) m.

Definition sock_io {S A : Type} (sk : sock) (m : M (pstate S) A) : M (world * S) A :=
  r ← run_sock sk m; on_world deliver_done ;; mret r.

(** One that does not write. *)
Definition sock_op {A} (sk : sock) (m : M (pstate unit) A) : M world A := λ w,
  let '(r, ws) := sock_io sk m (w, tt) in (r, ws.1).

(** ** Modules: the table of instances, queries, received data and events *)

(** An element of the [hc_uri_list_t] a module returns. *)
Record uri_node := { un_obj : option uri; un_str : option bytes; un_type : Z }.

(** [consume_uri_list] into a vector of URIs or of pairs: the elements with
    neither representation are skipped. *)
Definition node_uri (l : uri_node) : option uri :=
  match un_obj l, un_str l with
  | Some u, _ => Some u
  | None, Some s => Some (uri_of s)
  | None, None => None
  end.
Definition consume_uris (l : list uri_node) : list uri := omap node_uri l.
Definition consume_pairs (l : list uri_node) : list (uri * Z) :=
  omap (λ n, u ← node_uri n; Some (u, un_type n)) l.

(** The query functions of a module. *)
Record query_fns := {
  neighbor_set_fun : list uri_node;
  group_set_fun : list uri_node;
  children_set_fun : uri → list uri_node;
  parent_set_fun : uri → list uri_node;
  designated_host_fun : uri → Z
}.

(** The queries; [m_handle] is never null, so [closed()] is false. *)
Definition neighbor_set (q : query_fns) : list uri := consume_uris (neighbor_set_fun q).
Definition group_set (q : query_fns) : list (uri * Z) := consume_pairs (group_set_fun q).
Definition children_set (q : query_fns) (u : uri) : list uri := consume_uris (children_set_fun q u).
Definition parent_set (q : query_fns) (u : uri) : list uri := consume_uris (parent_set_fun q u).
Definition designated_host (q : query_fns) (u : uri) : bool := designated_host_fun q u =? 1.

(** [next_iid]: ids count from one.  [add_instance] keeps an instance with
    the same id.  [new_instance]: the constructor and the registration. *)
Definition next_iid : M world Z :=
  w ← get;
  let iid := u32 (w_next_iid w + 1) in
  put {| w_env := w_env w; w_heap := w_heap w; w_sessions := w_sessions w;
         w_subscribers := w_subscribers w; w_is_img := w_is_img w; w_next_iid := iid |} ;;
  mret iid.
Definition add_instance (obj : tech_module) : M world unit :=
  modify (λ w,
    let ms := e_modules (w_env w) in
    w_set_env (e_set_modules (if bool_decide (is_Some (ms !! tm_id obj)) then ms
                              else <[tm_id obj := obj]> ms) (w_env w)) w).
Definition new_instance (init_atomic_size : Z) (kvps : list (option bytes * option bytes)) :
    M world Z :=
  iid ← next_iid;
  add_instance (new_tech_module iid (u32 init_atomic_size) kvps) ;;
  mret iid.

(** [instances()] in the order of their ids; [instance_by_iid]. *)
Definition instances (w : world) : list (Z * tech_module) :=
  omap (λ i, m ← e_modules (w_env w) !! i; Some (i, m))
    (merge_sort Z.le (elements (dom (e_modules (w_env w))))).
Definition instance_by_iid (iid : Z) (w : world) : option tech_module := e_modules (w_env w) !! iid.

(** [new_mcast_packet_msg<Size>]: a fixed buffer, filled with [memcpy]. *)
Definition new_mcast_packet_msg {S} (size : Z) (data : bytes) (data_size : Z) (source : uri)
    (sck_id : Z) : M S session_msg :=
  if data_size <=? size then
    if data_size <=? zlen data then
      mret (outgoing_mcast_pckt_t sck_id source data_size (ztake data_size data))
    else ub "memcpy from beyond the end of the data"
  else ub "memcpy beyond the end of the packet buffer".

(** The chain of [if (len < ...)] in [handle_receive]. *)
Definition packet_sizes : list Z := [128; 256; 512; 1024; 2048; 4096; 8192; 16384; 32768].
Definition packet_buffer_size (len : Z) : Z :=
  default 65536 (snd <$> list_find (λ n, len < n) packet_sizes).

(** [tech_module::handle_receive] of module [iid]. *)
Definition handle_receive (iid : Z) (data : option bytes) (len : Z) (source : uri) : M world unit :=
  require ((0 <=? len) && bool_decide (is_Some data)) "len >= 0 && data" ;;
  if 65536 <? len then mret tt
  else
    w ← get;
    match instance_by_iid iid w with
    | None => ub "dangling tech_module pointer"
    | Some tm =>
        let socks := match tm_joins tm !! uri_str source with Some e => je_socks e | None => [] end in
        for_each socks (λ sk,
          got ← sock_op sk (on_sock (acquire_bytes len));
          if (got : bool) then
            msg ← new_mcast_packet_msg (packet_buffer_size len) (default [] data) len source sk.2;
            push sk.1 msg
          else mret tt)
    end.

(** [recv_callback]: the module's handle, the data and the group as object
    or string. *)
Definition recv_callback (mod_hdl : option Z) (data : option bytes) (data_len : Z)
    (uri_obj : option uri) (uri_string : option bytes) : M world unit :=
  match mod_hdl, data, uri_obj, uri_string with
  | Some iid, Some _, Some u, _ =>
      if 0 <? data_len then handle_receive iid data data_len u else mret tt
  | Some iid, Some _, None, Some s =>
      if 0 <? data_len then handle_receive iid data data_len (uri_of s) else mret tt
  | _, _, _, _ => mret tt
  end.

(** [subscribe_events], [unsubscribe_events] and [deliver_event]. *)
Definition subscribe_events (x : Z) : M world unit :=
  modify (λ w, w_set_subscribers ({[x]} ∪ w_subscribers w) w).
Definition unsubscribe_events (x : Z) : M world unit :=
  modify (λ w, w_set_subscribers (w_subscribers w ∖ {[x]}) w).
Definition deliver_event (event : membership_event) : M world unit :=
  w ← get; for_each (elements (w_subscribers w)) (λ x, handle_event x event).

(** [event_callack]. *)
Definition event_of_int (etype : Z) : membership_event_type :=
  if etype =? 1 then join_event else if etype =? 2 then leave_event
  else if etype =? 3 then new_source_event else invalid_event.
Definition event_callack (iid etype : Z) (uri_obj : option uri) (uri_cstr : option bytes) :
    M world unit :=
  require ((1 <=? etype) && (etype <=? 3)) "etype >= 1 && etype <= 3" ;;
  require (bool_decide (is_Some uri_obj) || bool_decide (is_Some uri_cstr)) "(uri_obj) || (uri_cstr)" ;;
  let group := match uri_obj with Some u => u | None => uri_of (default [] uri_cstr) end in
  deliver_event (new_membership_event group iid (event_of_int etype)).

(** ** The callbacks *)

Section callbacks.
Context (fns : Z → module_fns) (qfns : Z → query_fns) (stale_size : Z) (address : Z → Z).
Context (self : Z).

Definition no_such_socket (sid : Z) : string :=
  ("No such socket (socket id = " +:+ pretty sid +:+ ")")%string.
Definition no_such_interface (iid : Z) : string :=
  ("No such interface (id = " +:+ pretty iid +:+ ")")%string.

(** [session::socket]. *)
Definition socket (sid : Z) : M world sock :=
  ok ← in_session self (gets (λ s, bool_decide (sid ∈ se_sockets s)));
  require ok (no_such_socket sid) ;;
  mret (self, sid).

(** The checked lookup of an interface. *)
Definition interface (iid : Z) : M world tech_module :=
  o ← gets (instance_by_iid iid);
  match o with
  | Some tm => mret tm
  | None => throw (requirement_failed (no_such_interface iid))
  end.

(** [session::add_new_socket]. *)
Definition add_new_socket : M world Z :=
  new_sid ← in_session self (s ← get;
    put (se_set_sockets (se_sockets s) (u32 (se_next_id s + 1)) s) ;; mret (se_next_id s));
  sp ← zoom w_env w_set_env (new_socket_proxy new_sid self);
  known ← in_session self (gets (λ s, bool_decide (new_sid ∈ se_sockets s)));
  (if (known : bool) then mret tt
   else
     modify (λ w, w_set_heap (<[(self, new_sid) := sp]> (w_heap w)) w) ;;
     in_session self (modify (λ s, se_set_sockets ({[new_sid]} ∪ se_sockets s) (se_next_id s) s))) ;;
  mret new_sid.

(** [session::remove_socket]. *)
Definition remove_socket (sid : Z) : M world unit :=
  known ← in_session self (gets (λ s, bool_decide (sid ∈ se_sockets s)));
  if (known : bool) then
    sock_op (self, sid) (sp_leave_all fns stale_size true) ;;
    in_session self (modify (λ s, se_set_sockets (se_sockets s ∖ {[sid]}) (se_next_id s) s))
  else mret tt.

Definition enable_events : M world unit :=
  sub ← in_session self (gets se_subscribed);
  if (sub : bool) then mret tt
  else subscribe_events self ;; in_session self (modify (se_set_subscribed true)).

Definition disable_events : M world unit :=
  sub ← in_session self (gets se_subscribed);
  if (sub : bool) then
    unsubscribe_events self ;; in_session self (modify (se_set_subscribed false))
  else mret tt.

Definition cb_set_is_img (value : bool) : M world unit := modify (w_set_is_img value).
Definition cb_get_is_img : M world bool := gets w_is_img.

Definition cb_cr_sock_stream (sid : Z) (group : uri) : M world Z :=
  require (negb (uri_empty group)) "!group.empty()" ;;
  sk ← socket sid;
  sock_op sk (on_sock (add_stream group)).

Definition cb_get_sock_ifs (sid : Z) : M world (list Z) :=
  sk ← socket sid;
  iv ← sock_op sk (gets (λ p, sp_interfaces (p_sock p)));
  require (bool_decide (iv ≠ [])) "!iv.empty()" ;;
  mret iv.

Definition cb_designated_host (iid : Z) (group : uri) : M world bool :=
  interface iid ;; mret (designated_host (qfns iid) group).

Definition cb_set_sock_ifs (sid : Z) (ifs : list Z) : M world unit :=
  require (bool_decide (ifs ≠ [])) "!ifs.empty()" ;;
  for_each ifs (λ i,
    o ← gets (instance_by_iid i); require (bool_decide (is_Some o)) "tm.get() != 0") ;;
  sk ← socket sid;
  sock_op sk (sp_set_ifaces fns stale_size address ifs).

Definition cb_add_sock_if (sid iid : Z) : M world unit :=
  ifs ← cb_get_sock_ifs sid;
  if bool_decide (iid ∈ ifs) then mret tt else cb_set_sock_ifs sid (ifs ++ [iid]).

Definition cb_rm_sock_if (sid iid : Z) : M world unit :=
  ifs ← cb_get_sock_ifs sid;
  if bool_decide (iid ∈ ifs) then cb_set_sock_ifs sid (erase_first iid ifs) else mret tt.

Definition cb_neighbor_set (iid : Z) : M world (list uri) :=
  interface iid ;; mret (neighbor_set (qfns iid)).

Definition cb_children_set (iid : Z) (group : uri) : M world (list uri) :=
  require (negb (uri_empty group)) "!group.empty()" ;;
  interface iid ;; mret (children_set (qfns iid) group).

Definition cb_parent_set (iid : Z) (group : uri) : M world (list uri) :=
  require (negb (uri_empty group)) "!group.empty()" ;;
  interface iid ;; mret (parent_set (qfns iid) group).

Definition cb_group_set (iid : Z) : M world (list (uri * Z)) :=
  interface iid ;; mret (group_set (qfns iid)).

(** [set_from_map] with a default. *)
Definition set_from_map (container : gmap bytes bytes) (key storage : bytes) : bytes :=
  default storage (container !! key).

Definition cb_get_ifs : M world (list interface_property) :=
  mods ← gets instances;
  mret ((λ im, {| ip_id := tm_id im.2;
                  ip_name := set_from_map (tm_sdr im.2) (str "if_name") [];
                  ip_address := set_from_map (tm_sdr im.2) (str "if_addr") [];
                  ip_technology := set_from_map (tm_sdr im.2) (str "if_tech") [] |}) <$> mods).

Definition cb_cr_sock : M world Z := add_new_socket.
Definition cb_rm_sock (sid : Z) : M world unit := remove_socket sid.

Definition cb_set_ttl (sid ttl_value : Z) : M world unit :=
  sk ← socket sid; sock_op sk (on_sock (modify (sp_set_ttl ttl_value))).

Definition cb_leave (sid : Z) (group : uri) : M world unit :=
  require (negb (uri_empty group)) "!group.empty()" ;;
  sk ← socket sid; sock_op sk (sp_leave fns stale_size group).

Definition cb_join (sid : Z) (group : uri) : M world unit :=
  require (negb (uri_empty group)) "!group.empty()" ;;
  sk ← socket sid; sock_op sk (sp_join fns stale_size group).

Definition cb_enable_events : M world unit := enable_events.
Definition cb_disable_events : M world unit := disable_events.

Definition cb_get_atomic_msg_size (iid : Z) : M world Z :=
  tm ← interface iid; mret (tm_atomic_msg_size tm).
End callbacks.

(** ** The dispatcher and the session's thread *)

Section session.
Context {S : Type} `{Sink S} {R : Type} `{Source R}.
Context (fns : Z → module_fns) (qfns : Z → query_fns) (stale_size : Z) (address : Z → Z).
Context (self : Z).

(** The constructor of the session registers its callbacks with the
    dispatcher ([sync_function_dispatcher::init]). *)
Definition session_callbacks : callbacks world := {|
  m_cr_sock_stream := cb_cr_sock_stream self;
  m_get_sock_ifs := cb_get_sock_ifs self;
  m_designated_host := cb_designated_host qfns;
  m_add_sock_if := cb_add_sock_if fns stale_size address self;
  m_set_sock_ifs := cb_set_sock_ifs fns stale_size address self;
  m_rm_sock_if := cb_rm_sock_if fns stale_size address self;
  m_neighbor_set := cb_neighbor_set qfns;
  m_children_set := cb_children_set qfns;
  m_get_ifs := cb_get_ifs;
  m_cr_sock := cb_cr_sock self;
  m_rm_sock := cb_rm_sock fns stale_size self;
  m_parent_set := cb_parent_set qfns;
  m_group_set := cb_group_set qfns;
  m_set_ttl := cb_set_ttl self;
  m_leave := cb_leave fns stale_size self;
  m_join := cb_join fns stale_size self;
  m_enable_events := cb_enable_events self;
  m_disable_events := cb_disable_events self;
  m_get_atomic_msg_size := cb_get_atomic_msg_size;
  m_set_is_img_flag := cb_set_is_img;
  m_get_is_img_flag := cb_get_is_img
|}.

(** The requests of the client. *)
Definition dispatch (fid rid : Z) (content : option bytes) (content_size : Z) : M (server world S) unit :=
  dispatch_to session_callbacks fid rid content content_size.
Definition invoke (msg : message) : M (server world S) unit := invoke_msg session_callbacks msg.

(** What the session's thread works on: the process, its output and its
    input with the thread's URI cache. *)
Record sstate := {
  ss_world : world;
  ss_out : S;
  ss_in : dstate R
}.

Definition s_world {A} (m : M world A) : M sstate A :=
  zoom ss_world (λ w s, Build_sstate w (ss_out s) (ss_in s)) m.
Definition s_out {A} (m : M S A) : M sstate A :=
  zoom ss_out (λ o s, Build_sstate (ss_world s) o (ss_in s)) m.
Definition s_in {A} (m : M (dstate R) A) : M sstate A :=
  zoom ss_in (λ i s, Build_sstate (ss_world s) (ss_out s) i) m.
Definition s_server {A} (m : M (server world S) A) : M sstate A :=
  zoom (λ s, Build_server (ss_world s) (d_cache (ss_in s)) (ss_out s))
    (λ v s, Build_sstate (sv_world v) (sv_out v) (d_set_cache (sv_cache v) (ss_in s))) m.
Definition s_sock {A} (sk : sock) (m : M (pstate S) A) : M sstate A :=
  zoom (λ s, (ss_world s, ss_out s)) (λ ws s, Build_sstate ws.1 ws.2 (ss_in s)) (sock_io sk m).

Definition my_session : M sstate session := s_world (in_session self get).

(** [flush_if_needed]. *)
Definition flush_if_needed : M sstate unit :=
  se ← my_session;
  match se_queue se with [] => s_out sink_flush | _ => mret tt end.

(** The sockets in the order of their ids. *)
Definition socket_list (se : session) : list Z := merge_sort Z.le (elements (se_sockets se)).

(** [handle_poll_timeout]. *)
Fixpoint force_all (sids : list Z) : M sstate bool :=
  match sids with
  | [] => mret false
  | sid :: sids' =>
      r ← s_sock (self, sid) force_acks; rest ← force_all sids'; mret (r || rest)
  end.
Definition handle_poll_timeout : M sstate unit :=
  se ← my_session;
  ack_forced ← force_all (socket_list se);
  if (ack_forced : bool) then s_out sink_flush else flush_if_needed.

(** One message of [poll_messages]; the result tells whether to go on. *)
Definition handle_session_msg (sm : session_msg) : M sstate bool :=
  match sm with
  | receive_loop_killed_t =>
      s_world (in_session self (modify (se_set_done true))) ;; mret false
  | outgoing_ipc_msg_t msg =>
      s_out (message_serialize msg) ;; flush_if_needed ;; mret true
  | outgoing_mcast_pckt_t sid source data_size raw_data =>
      se ← my_session;
      if bool_decide (sid ∈ se_sockets se) then
        s_sock (self, sid) (on_sock (delivered data_size)) ;;
        s_out (serialize_as_message_data sid source data_size (Some raw_data)) ;;
        flush_if_needed ;; mret true
      else mret true
  | incoming_sync_request_t msg =>
      s_server (invoke msg) ;; s_out sink_flush ;; mret true
  | async_send_job_done_t msg =>
      se ← my_session;
      (if bool_decide (as_sck_id (view_async_send msg) ∈ se_sockets se) then
         s_sock (self, as_sck_id (view_async_send msg)) (async_job_done msg)
       else mret tt) ;;
      flush_if_needed ;; mret true
  | membership_event_t ev =>
      s_out (serialize_as_message_event ev) ;; flush_if_needed ;; mret true
  end.

(** [poll_messages]: [num] messages were announced. *)
Fixpoint poll_messages (num : nat) : M sstate unit :=
  match num with
  | O => mret tt
  | Datatypes.S num' =>
      se ← my_session;
      match se_queue se with
      | [] => throw (requirement_failed "sm != NULL")
      | sm :: q =>
          s_world (in_session self (modify (λ s, se_set_queue q (se_pipe s) s))) ;;
          go_on ← handle_session_msg sm;
          if (go_on : bool) then poll_messages num' else mret tt
      end
  end.

(** One message of the client. *)
Definition ipc_read_msg : M sstate unit :=
  msg ← s_in message_deserialize;
  if m_type msg =? message_type.sync_request then
    s_server (invoke msg) ;; s_out sink_flush
  else if m_type msg =? message_type.async_send then
    se ← my_session;
    if bool_decide (as_sck_id (view_async_send msg) ∈ se_sockets se) then
      s_sock (self, as_sck_id (view_async_send msg)) (handle_async_send msg)
    else mret tt
  else throw (runtime_error ("Client sendet illegal message type: " +:+ pretty (m_type msg))).

(** [ipc_read]: as long as the source has buffered data; an exception is
    announced to the loop and thrown again. *)
Fixpoint ipc_read_loop (fuel : nat) : M sstate unit :=
  match fuel with
  | O => ub "fuel"
  | Datatypes.S fuel' =>
      ipc_read_msg ;;
      s ← get;
      if source_has_buffered_data (d_src (ss_in s)) then ipc_read_loop fuel' else mret tt
  end.
Definition ipc_read (fuel : nat) : M sstate unit :=
  try_catch (ipc_read_loop fuel)
    (λ e, s_world (push self receive_loop_killed_t) ;; throw e).

(** [on_exit]. *)
Definition on_exit : M sstate unit :=
  s_world (disable_events self) ;;
  se ← my_session;
  for_each (socket_list se) (λ sid,
    s_world (sock_op (self, sid) (sp_leave_all fns stale_size true))) ;;
  s_world (in_session self (modify (λ s, se_set_sockets ∅ (se_next_id s) s))).

(** ** [channel::loop] and [channel::run_loop] ([channel.cpp]) *)

Record fd_status := { fd_hup : bool; fd_in : bool }.
Inductive poll_event :=
  | poll_eintr
  | poll_failed
  | poll_timeout
  | poll_ready (pipe ipc : fd_status).

(** One iteration; the result tells whether the loop function returned. *)
Definition handle_fd (st : fd_status) (h : M sstate unit) (rest : M sstate bool) : M sstate bool :=
  if fd_hup st then mret true
  else (if fd_in st then h else mret tt) ;; rest.

(** [m_pipe->read_some(64, tmp)], then [poll_messages]. *)
Definition read_pipe : M sstate unit :=
  num ← s_world (in_session self (s ← get;
    put (se_set_queue (se_queue s) (se_pipe s - Nat.min 64 (se_pipe s)) s) ;;
    mret (Nat.min 64 (se_pipe s))));
  poll_messages num.

Definition loop_iteration (fuel : nat) (ev : poll_event) : M sstate bool :=
  match ev with
  | poll_eintr => mret false
  | poll_failed => throw (terminated "abort()")
  | poll_timeout => handle_poll_timeout ;; mret false
  | poll_ready p i =>
      handle_fd p read_pipe (handle_fd i (ipc_read fuel) (mret false))
  end.

(** The loop over what the calls of [poll] return; [true] when it ended. *)
Fixpoint loop (fuel : nat) (evs : list poll_event) : M sstate bool :=
  se ← my_session;
  if se_loop_done se then mret true
  else match evs with
       | [] => mret false
       | ev :: evs' =>
           done ← loop_iteration fuel ev;
           if (done : bool) then mret true else loop fuel evs'
       end.

(** [run_loop]: however the loop ends, [on_exit] follows. *)
Definition run_loop (fuel : nat) (evs : list poll_event) : M sstate bool :=
  ended ← try_catch (loop fuel evs)
    (λ e, match e with terminated _ => throw e | _ => mret true end);
  if (ended : bool) then on_exit ;; mret true else mret false.
End session.
Arguments sstate : clear implicits.

(** ** Pushing messages *)

(** Session [x] after [msgs] were pushed to it. *)
Definition pushed (msgs : list session_msg) (s : session) : session :=
  se_set_queue (se_queue s ++ msgs) (se_pipe s + length msgs) s.

Lemma pushed_nil s : pushed [] s = s.
Proof. rewrite /pushed app_nil_r Nat.add_0_r. by destruct s. Qed.

Lemma pushed_pushed m1 m2 s : pushed m2 (pushed m1 s) = pushed (m1 ++ m2) s.
Proof. rewrite /pushed /se_set_queue /= length_app app_assoc Nat.add_assoc. done. Qed.

Lemma push_spec x msg w :
  is_Some (w_sessions w !! x) →
  push x msg w = (Ok tt, w_set_sessions (alter (pushed [msg]) x (w_sessions w)) w).
Proof.
  intros [se Hse]. rewrite /push /in_session Hse /modify. do 2 f_equal.
  apply map_eq. intros y. destruct (decide (y = x)) as [->|].
  - by rewrite lookup_insert_eq lookup_alter_eq Hse /= /pushed Nat.add_1_r.
  - by rewrite lookup_insert_ne // lookup_alter_ne.
Qed.

Lemma w_set_sessions_self w : w_set_sessions (w_sessions w) w = w.
Proof. by destruct w. Qed.

(** Pushing one message to each session of a list without duplicates. *)
Lemma push_each_spec (msg : session_msg) xs w :
  NoDup xs → (∀ x, x ∈ xs → is_Some (w_sessions w !! x)) →
  ∃ ss, for_each xs (λ x, push x msg) w = (Ok tt, w_set_sessions ss w) ∧
    ∀ x, ss !! x = (λ se, if bool_decide (x ∈ xs) then pushed [msg] se else se) <$> w_sessions w !! x.
Proof.
  intros Hnd. revert w. induction Hnd as [|x xs Hx Hnd IH]; intros w Hin; cbn [for_each].
  - exists (w_sessions w). split; [by rewrite w_set_sessions_self|]. intros y.
    rewrite bool_decide_false; [apply not_elem_of_nil|]. by destruct (w_sessions w !! y).
  - rewrite (bind_ok _ _ _ _ _ (push_spec x msg w (Hin x (list_elem_of_here _ _)))).
    destruct (IH (w_set_sessions (alter (pushed [msg]) x (w_sessions w)) w)) as (ss & -> & Hss).
    { intros y Hy. cbn. apply lookup_alter_is_Some. apply Hin. by right. }
    exists ss. split; [done|]. intros y. rewrite Hss. cbn. destruct (decide (y = x)) as [->|Hyx].
    + rewrite lookup_alter_eq bool_decide_false // bool_decide_true; [by left|].
      by destruct (w_sessions w !! x).
    + rewrite lookup_alter_ne //. f_equal.
      rewrite (bool_decide_ext (y ∈ xs) (y ∈ x :: xs)) //. rewrite elem_of_cons. naive_solver.
Qed.

(** A membership event of a module reaches exactly the sessions that
    subscribed to events, each of them once, and changes nothing else. *)
Theorem events_reach_subscribers (iid etype : Z) (uri_obj : option uri) (uri_cstr : option bytes)
    (w : world) :
  1 <= etype <= 3 → is_Some uri_obj ∨ is_Some uri_cstr →
  (∀ x, x ∈ w_subscribers w → is_Some (w_sessions w !! x)) →
  ∃ ss, event_callack iid etype uri_obj uri_cstr w = (Ok tt, w_set_sessions ss w) ∧
    ∀ x, ss !! x = (λ se, if bool_decide (x ∈ w_subscribers w) then
        pushed [membership_event_t {| ev_group := from_option id (uri_of (default [] uri_cstr)) uri_obj;
                                      ev_iid := iid; ev_type := event_of_int etype |}] se
      else se) <$> w_sessions w !! x.
Proof.
  intros Ht Hu Hsub. rewrite /event_callack (proj2 (Z.leb_le 1 etype)); [lia|].
  rewrite (proj2 (Z.leb_le etype 3)); [lia|]. rewrite {1}/mbind /M_bind /=.
  assert (bool_decide (is_Some uri_obj) || bool_decide (is_Some uri_cstr) = true) as ->.
  { destruct Hu; [by rewrite bool_decide_true|by rewrite orb_comm bool_decide_true]. }
  rewrite {1}/mbind /M_bind /= /deliver_event {1}/mbind /M_bind /get.
  set (msg := membership_event_t _).
  destruct (push_each_spec msg (elements (w_subscribers w)) w) as (ss & Hp & Hss).
  { apply NoDup_elements. }
  { intros x. rewrite elem_of_elements. apply Hsub. }
  exists ss. split.
  - rewrite -Hp. rewrite /handle_event /new_membership_event /msg. by destruct uri_obj.
  - intros x. rewrite Hss. destruct (w_sessions w !! x); [|done]. simpl.
    rewrite (bool_decide_ext (x ∈ elements (w_subscribers w)) (x ∈ w_subscribers w)); [apply elem_of_elements|].
    rewrite /msg. by destruct uri_obj.
Qed.

Lemma events_reach_subscribers_witness :
  ∃ ss, event_callack 1 2 None (Some (str "ham:sip:news@cast"))
      (w_set_subscribers {[7]} (w_set_sessions {[7 := new_session; 8 := new_session]} empty_world)) =
      (Ok tt, w_set_sessions ss
        (w_set_subscribers {[7]} (w_set_sessions {[7 := new_session; 8 := new_session]} empty_world))) ∧
    (se_queue <$> ss !! 8) = Some [].
Proof.
  destruct (events_reach_subscribers 1 2 None (Some (str "ham:sip:news@cast"))
    (w_set_subscribers {[7]} (w_set_sessions {[7 := new_session; 8 := new_session]} empty_world)))
    as (ss & H1 & H2).
  - lia.
  - right. eexists. reflexivity.
  - intros x Hx. change (x ∈ ({[7]} : gset Z)) in Hx. apply elem_of_singleton in Hx as ->.
    eexists. vm_compute. reflexivity.
  - exists ss. split; [exact H1|]. rewrite H2. vm_compute. reflexivity.
Defined.

(** ** Received packets *)

(** A socket after it was asked to take [len] bytes, and whether it did. *)
Definition take_bytes (len : Z) (sp : socket_proxy) : socket_proxy :=
  match semaphore.try_acquire (i32 len) (sp_receive_buf sp) with
  | Some av => sp_set_receive_buf av sp
  | None => sp
  end.
Definition has_room (len : Z) (sp : socket_proxy) : bool :=
  bool_decide (is_Some (semaphore.try_acquire (i32 len) (sp_receive_buf sp))).
Definition accepts (w : world) (len : Z) (sk : sock) : bool :=
  from_option (has_room len) false (w_heap w !! sk).

Lemma deliver_nothing w : e_done (w_env w) = [] → deliver_done w = (Ok tt, w).
Proof.
  intros He. rewrite /deliver_done /mbind /M_bind /get /modify /=. rewrite He /=.
  do 2 f_equal. destruct w as [[] ? ? ? ? ?]. simpl in *. by subst.
Qed.

Lemma acquire_op sk len w sp :
  w_heap w !! sk = Some sp → e_done (w_env w) = [] →
  sock_op sk (on_sock (acquire_bytes len)) w =
    (Ok (has_room len sp), w_set_heap (<[sk := take_bytes len sp]> (w_heap w)) w).
Proof.
  intros Hsk He. rewrite /sock_op /sock_io {1}/mbind /M_bind /run_sock. cbn [fst snd]. rewrite Hsk.
  set (w1 := w_set_heap (<[sk := take_bytes len sp]> (w_heap w)) w).
  assert (on_sock (acquire_bytes len) (Build_pstate sp (w_env w) tt) =
    (Ok (has_room len sp), Build_pstate (take_bytes len sp) (w_env w) tt)) as ->.
  { rewrite /on_sock /zoom /acquire_bytes /mbind /M_bind /get. cbn [p_sock p_env p_out].
    rewrite /has_room /take_bytes. by destruct (semaphore.try_acquire _ _). }
  cbn [p_env p_sock p_out]. 
  change (w_set_env (w_env w) _) with w1.
  rewrite {1}/mbind /M_bind /on_world /zoom. cbn [fst snd].
  rewrite (deliver_nothing w1 He). done.
Qed.

(** The body of the loop of [handle_receive]. *)
Definition receive_one (len : Z) (source : uri) (data : bytes) (sk : sock) (w : world) : world :=
  let w1 := w_set_heap (alter (take_bytes len) sk (w_heap w)) w in
  if accepts w len sk then
    w_set_sessions (alter (pushed [outgoing_mcast_pckt_t sk.2 source len (ztake len data)]) sk.1
                      (w_sessions w)) w1
  else w1.

Lemma packet_fits {S} len data source sid (s : S) :
  0 <= len <= 65536 → len <= zlen data →
  new_mcast_packet_msg (packet_buffer_size len) data len source sid s =
    (Ok (outgoing_mcast_pckt_t sid source len (ztake len data)), s).
Proof.
  intros Hl Hd. assert (len <= packet_buffer_size len) as Hb.
  { rewrite /packet_buffer_size. destruct (list_find _ _) as [[i n]|] eqn:E; simpl; [|lia].
    apply list_find_Some in E as (_ & ? & _). lia. }
  rewrite /new_mcast_packet_msg. rewrite (proj2 (Z.leb_le _ _) Hb) (proj2 (Z.leb_le _ _) Hd). done.
Qed.

Definition receive_body (len : Z) (source : uri) (data : bytes) (sk : sock) : M world unit :=
  got ← sock_op sk (on_sock (acquire_bytes len));
  if (got : bool) then
    msg ← new_mcast_packet_msg (packet_buffer_size len) data len source sk.2;
    push sk.1 msg
  else mret tt.

Lemma receive_body_spec len source data sk w :
  0 <= len <= 65536 → len <= zlen data → is_Some (w_heap w !! sk) →
  is_Some (w_sessions w !! sk.1) → e_done (w_env w) = [] →
  receive_body len source data sk w = (Ok tt, receive_one len source data sk w).
Proof.
  intros Hl Hd [sp Hsp] Hx He. rewrite /receive_body.
  rewrite (bind_ok _ _ _ _ _ (acquire_op sk len w sp Hsp He)). rewrite /receive_one /accepts Hsp /=.
  assert (<[sk := take_bytes len sp]> (w_heap w) = alter (take_bytes len) sk (w_heap w)) as ->.
  { apply map_eq. intros k. destruct (decide (k = sk)) as [->|].
    - by rewrite lookup_insert_eq lookup_alter_eq Hsp.
    - by rewrite lookup_insert_ne // lookup_alter_ne. }
  destruct (has_room len sp); [|done].
  rewrite (bind_ok _ _ _ _ _ (packet_fits len data source sk.2 _ Hl Hd)).
  rewrite push_spec //.
Qed.

Lemma omap_ext_in {A B} (f g : A → option B) (l : list A) : (∀ x, x ∈ l → f x = g x) → omap f l = omap g l.
Proof.
  induction l as [|x l IH]; intros Hl; [done|]. csimpl. rewrite (Hl x); [by left|].
  rewrite IH; [|done]. intros y Hy. apply Hl. by right.
Qed.

(** The messages the members among [socks] that belong to session [x] get. *)
Definition packets_for (w : world) (len : Z) (source : uri) (data : bytes) (socks : list sock) (x : Z) :
    list session_msg :=
  omap (λ sk, if bool_decide (sk.1 = x) && accepts w len sk
              then Some (outgoing_mcast_pckt_t sk.2 source len (ztake len data)) else None) socks.

Lemma receive_all_spec len source data socks w :
  0 <= len <= 65536 → len <= zlen data → NoDup socks →
  (∀ sk, sk ∈ socks → is_Some (w_heap w !! sk) ∧ is_Some (w_sessions w !! sk.1)) →
  e_done (w_env w) = [] →
  ∃ h ss, for_each socks (receive_body len source data) w = (Ok tt, w_set_sessions ss (w_set_heap h w)) ∧
    (∀ k, h !! k = (if bool_decide (k ∈ socks) then take_bytes len else id) <$> w_heap w !! k) ∧
    (∀ x, ss !! x = pushed (packets_for w len source data socks x) <$> w_sessions w !! x).
Proof.
  intros Hl Hd Hnd. revert w. induction Hnd as [|sk socks Hsk Hnd IH]; intros w Hin He; cbn [for_each].
  - exists (w_heap w), (w_sessions w). split; [by destruct w|]. split.
    + intros k. rewrite bool_decide_false; [apply not_elem_of_nil|]. by rewrite option_fmap_id.
    + intros x. destruct (w_sessions w !! x); [|done]. by rewrite /= pushed_nil.
  - destruct (Hin sk (list_elem_of_here _ _)) as [Hh Hs].
    rewrite (bind_ok _ _ _ _ _ (receive_body_spec len source data sk w Hl Hd Hh Hs He)).
    set (w1 := receive_one len source data sk w).
    assert (w_heap w1 = alter (take_bytes len) sk (w_heap w)) as Hh1.
    { rewrite /w1 /receive_one. by destruct (accepts w len sk). }
    assert (w_sessions w1 = alter (pushed (packets_for w len source data [sk] sk.1)) sk.1 (w_sessions w)) as Hs1.
    { rewrite /w1 /receive_one /packets_for. csimpl. rewrite bool_decide_true //=.
      destruct (accepts w len sk); [done|]. apply map_eq. intros x.
      destruct (decide (x = sk.1)) as [->|]; [|by rewrite lookup_alter_ne].
      rewrite lookup_alter_eq. destruct (w_sessions w !! sk.1) eqn:E; simpl; rewrite E; [|done].
      by rewrite pushed_nil. }
    destruct (IH w1) as (h & ss & -> & Hh' & Hss').
    { intros k Hk. rewrite Hh1 Hs1 !lookup_alter_is_Some. apply Hin. by right. }
    { rewrite /w1 /receive_one. by destruct (accepts w len sk). }
    exists h, ss. split; [|split].
    + f_equal. rewrite /w1 /receive_one. by destruct (accepts w len sk).
    + intros k. rewrite Hh' Hh1. destruct (decide (k = sk)) as [->|Hk].
      * rewrite lookup_alter_eq bool_decide_false // option_fmap_id bool_decide_true //. by left.
      * rewrite lookup_alter_ne //.
        rewrite (bool_decide_ext (k ∈ socks) (k ∈ sk :: socks)) // elem_of_cons. naive_solver.
    + intros x. rewrite Hss' Hs1.
      assert (packets_for w1 len source data socks x = packets_for w len source data socks x) as ->.
      { apply omap_ext_in. intros k Hk. rewrite /accepts Hh1 lookup_alter_ne //. by intros ->. }
      destruct (decide (x = sk.1)) as [->|Hx].
      * rewrite lookup_alter_eq. destruct (w_sessions w !! sk.1); [|done]. simpl.
        rewrite pushed_pushed. f_equal. f_equal. rewrite /packets_for. csimpl.
        by destruct (bool_decide _ && accepts w len sk).
      * rewrite lookup_alter_ne //. f_equal. rewrite /packets_for. csimpl.
        by rewrite bool_decide_false.
Qed.

(** C3: a received packet is delivered to exactly the members.  For a packet
    of [len] bytes (at most 65536) from group [source], every socket that
    joined the group on this module and has room takes [len] bytes of its
    receive buffer and its session gets one message with exactly the data,
    in the order of joining; sockets without room and all others get
    nothing; nothing else of the process changes, and no buffer overflows. *)
Theorem receive_delivers_to_members (iid len : Z) (data : bytes) (source : uri) (tm : tech_module)
    (w : world) :
  let socks := from_option je_socks [] (tm_joins tm !! uri_str source) in
  0 < len <= 65536 → len <= zlen data → instance_by_iid iid w = Some tm → tm_ok tm →
  (∀ sk, sk ∈ socks → is_Some (w_heap w !! sk) ∧ is_Some (w_sessions w !! sk.1)) →
  e_done (w_env w) = [] →
  ∃ h ss, recv_callback (Some iid) (Some data) len (Some source) None w =
      (Ok tt, w_set_sessions ss (w_set_heap h w)) ∧
    (∀ k, h !! k = (if bool_decide (joined tm (uri_str source) k = true) then take_bytes len else id)
                     <$> w_heap w !! k) ∧
    (∀ x, ss !! x = pushed (packets_for w len source data socks x) <$> w_sessions w !! x).
Proof.
  intros socks Hl Hd Htm (_ & Hj & _) Hin He.
  assert (NoDup socks) as Hnd.
  { rewrite /socks. destruct (tm_joins tm !! uri_str source) as [e|] eqn:E; [|constructor].
    by destruct (Hj _ _ E) as [[? _] _]. }
  destruct (receive_all_spec len source data socks w ltac:(lia) Hd Hnd Hin He) as (h & ss & Hr & Hh & Hss).
  exists h, ss. split; [|split; [|done]].
  - rewrite /recv_callback (proj2 (Z.ltb_lt 0 len)); [lia|]. rewrite /handle_receive.
    rewrite (proj2 (Z.leb_le 0 len)); [lia|]. rewrite {1}/mbind /M_bind /=.
    rewrite (proj2 (Z.ltb_ge 65536 len)); [lia|]. rewrite {1}/mbind /M_bind /get Htm.
    rewrite -Hr /socks. by destruct (tm_joins tm !! uri_str source).
  - intros k. rewrite Hh. f_equal. rewrite /joined /socks.
    destruct (tm_joins tm !! uri_str source) as [e|]; simpl.
    + rewrite (bool_decide_ext (bool_decide (k ∈ je_socks e) = true) (k ∈ je_socks e)) //.
      apply bool_decide_eq_true.
    + done.
Qed.

(** A process with one module, one session and its socket 0, which joined a
    group. *)
Definition joined_world : world :=
  match (new_instance 0 [] ;; modify (w_set_sessions {[7 := new_session]}) ;;
         cb_cr_sock 7 ;; cb_join (λ _, sample_fns) 0 7 0 news) empty_world with
  | (Ok _, w) => w
  | _ => empty_world
  end.

Lemma receive_delivers_to_members_witness :
  ∃ w', recv_callback (Some 1) (Some (str "hello")) 5 (Some native_group) None joined_world = (Ok tt, w') ∧
    se_queue <$> w_sessions w' !! 7 =
      Some [outgoing_mcast_pckt_t 0 native_group 5 (str "hello")].
Proof.
  assert (∃ tm, instance_by_iid 1 joined_world = Some tm ∧ tm_ok tm ∧
    from_option je_socks [] (tm_joins tm !! uri_str native_group) = [(7, 0)]) as (tm & H1 & H2 & H3).
  { destruct (call sample_fns 0 (join_t news (7, 0)) (new_tech_module 1 0 [])) as [r tm] eqn:E.
    exists tm. assert (tm = (call sample_fns 0 (join_t news (7, 0)) (new_tech_module 1 0 [])).2) as ->
      by (rewrite E; reflexivity). clear E. split_and!; [vm_compute; reflexivity| |vm_compute; reflexivity].
    apply (process_all_ok sample_fns [join_t news (7, 0)] (new_tech_module 1 0 [])
      [Set_bool true]); [reflexivity|reflexivity|apply new_tech_module_ok|vm_compute; reflexivity]. }
  destruct (receive_delivers_to_members 1 5 (str "hello") native_group tm joined_world)
    as (h & ss & Hr & _ & Hss).
  - lia.
  - vm_compute. discriminate.
  - exact H1.
  - exact H2.
  - rewrite H3. intros sk Hsk. apply list_elem_of_singleton in Hsk as ->.
    split; eexists; vm_compute; reflexivity.
  - vm_compute. reflexivity.
  - eexists. split; [exact Hr|]. cbn [w_sessions w_set_sessions]. rewrite Hss H3. vm_compute. reflexivity.
Defined.

(** ** What the session's thread writes *)

Section writes.
Context {S : Type} `{SinkSpec S} {R : Type} `{Source R}.
Context (fns : Z → module_fns) (qfns : Z → query_fns) (stale_size : Z) (address : Z → Z).
Context (self : Z).
Implicit Types s : sstate S R.

Lemma my_session_spec s se :
  w_sessions (ss_world s) !! self = Some se → my_session self s = (Ok se, s).
Proof.
  intros Hse. rewrite /my_session /s_world /zoom /in_session Hse /get. do 2 f_equal.
  rewrite insert_id //. rewrite w_set_sessions_self. by destruct s.
Qed.

Lemma flush_spec s s' :
  sink_ok (ss_out s) → flush_if_needed self s = (Ok tt, s') →
  ss_world s' = ss_world s ∧ sink_ok (ss_out s') ∧ sink_accepted (ss_out s') = sink_accepted (ss_out s).
Proof.
  intros Hok Hf. rewrite /flush_if_needed in Hf. inv_bind Hf as se s1 H1'.
  assert (ss_world s1 = ss_world s ∧ ss_out s1 = ss_out s) as [Hw Ho].
  { rewrite /my_session /s_world /zoom /in_session in H1'.
    destruct (w_sessions (ss_world s) !! self) as [se'|] eqn:E; [|done]. injection H1' as <- <-.
    cbn. by rewrite insert_id // w_set_sessions_self. }
  destruct (se_queue se); [|apply ret_inv in Hf as [_ <-]; by rewrite Hw Ho].
  rewrite /s_out /zoom Ho in Hf.
  pose proof (sink_flush_spec (sink_accepted (ss_out s)) (ss_out s) (conj Hok eq_refl)) as Ht.
  destruct (sink_flush (ss_out s)) as [r o]. injection Hf as -> <-. cbn. by rewrite Hw.
Qed.

(** Writing to the client. *)
Lemma s_out_emits (m : M S unit) e s s' :
  emits m e → sink_ok (ss_out s) → s_out m s = (Ok tt, s') →
  ss_world s' = ss_world s ∧ ss_in s' = ss_in s ∧ sink_ok (ss_out s') ∧
  sink_accepted (ss_out s') = sink_accepted (ss_out s) ++ e.
Proof.
  intros Hm Hok Hs. rewrite /s_out /zoom in Hs.
  pose proof (emits_triple m e (sink_accepted (ss_out s)) Hm (ss_out s) (conj Hok eq_refl)) as Ht.
  destruct (m (ss_out s)) as [r o]. injection Hs as -> <-. by destruct Ht.
Qed.

Lemma delivered_op sid n s sp :
  w_heap (ss_world s) !! (self, sid) = Some sp → e_done (w_env (ss_world s)) = [] →
  s_sock (self, sid) (on_sock (delivered n)) s =
    (Ok tt, Build_sstate (w_set_heap (<[(self, sid) := sp_set_receive_buf
        (semaphore.release_bytes (i32 n) (sp_receive_buf sp)) sp]> (w_heap (ss_world s))) (ss_world s))
      (ss_out s) (ss_in s)).
Proof.
  intros Hsk He. rewrite /s_sock /zoom /sock_io {1}/mbind /M_bind /run_sock. cbn [fst snd]. rewrite Hsk.
  cbn [on_sock zoom delivered modify p_sock p_env p_out]. rewrite /on_sock /zoom /delivered /modify.
  cbn [p_sock p_env p_out]. set (w1 := w_set_env _ _).
  rewrite {1}/mbind /M_bind /on_world /zoom. cbn [fst snd]. rewrite (deliver_nothing w1 He). done.
Qed.
End writes.

(** A queued packet reaches the client.  When the session's thread
    takes a received packet for one of its sockets from the queue, it
    gives the bytes back to the socket's receive buffer and writes exactly
    one message, the [async_recv] message that carries the packet to that
    socket; the rest of the queue, the notifications and all other sockets
    stay as they are. *)
Theorem queued_packet_written {S : Type} `{SinkSpec S} {R : Type} `{Source R}
    (fns : Z → module_fns) (qfns : Z → query_fns) (stale_size : Z) (address : Z → Z) (self sid : Z)
    (pck : multicast_packet) (d : bytes) (q : list session_msg) (se : session) (sp : socket_proxy)
    (s s' : sstate S R) :
  rep_packet pck → mp_data pck = Some d → zlen (enc_packet pck) < 2 ^ 32 →
  w_sessions (ss_world s) !! self = Some se → sid ∈ se_sockets se →
  se_queue se = outgoing_mcast_pckt_t sid (mp_from pck) (mp_size pck) d :: q →
  w_heap (ss_world s) !! (self, sid) = Some sp → e_done (w_env (ss_world s)) = [] →
  sink_ok (ss_out s) → poll_messages fns qfns stale_size address self 1 s = (Ok tt, s') →
  sink_accepted (ss_out s') = sink_accepted (ss_out s) ++ enc_message (recv_message sid pck) ∧
  ss_world s' = w_set_heap (<[(self, sid) := sp_set_receive_buf
      (semaphore.release_bytes (i32 (mp_size pck)) (sp_receive_buf sp)) sp]> (w_heap (ss_world s)))
    (w_set_sessions (<[self := se_set_queue q (se_pipe se) se]> (w_sessions (ss_world s))) (ss_world s)).
Proof.
  intros Hp Hd Hl Hse Hsid Hq Hsp He Hok Hm. cbn [poll_messages] in Hm.
  rewrite (bind_ok _ _ _ _ _ (my_session_spec self s se Hse)) Hq in Hm.
  rewrite {1}/mbind /M_bind {1}/s_world /zoom /in_session Hse /modify in Hm.
  set (s1 := Build_sstate _ _ _) in Hm.
  assert (w_sessions (ss_world s1) !! self = Some (se_set_queue q (se_pipe se) se)) as Hse1
    by (cbn; by rewrite lookup_insert_eq).
  inv_bind Hm as b s2 H1'. cbn [handle_session_msg] in H1'.
  rewrite (bind_ok _ _ _ _ _ (my_session_spec self s1 _ Hse1)) in H1'.
  rewrite bool_decide_true // in H1'.
  rewrite (bind_ok _ _ _ _ _ (delivered_op self sid (mp_size pck) s1 sp Hsp He)) in H1'.
  set (s3 := Build_sstate _ _ _) in H1'.
  inv_bind H1' as u1 s4 H2'. destruct u1. inv_bind H1' as u2 s5 H3'. destruct u2.
  apply ret_inv in H1' as [<- <-]. cbn in Hm. injection Hm as <-.
  destruct (recv_message_emits (S:=S) sid pck Hp Hl) as [_ Hem]. rewrite Hd in Hem.
  destruct (s_out_emits _ _ s3 s4 Hem Hok H2') as (Hw4 & _ & Hok4 & Ha4).
  destruct (flush_spec self s4 s5 Hok4 H3') as (Hw5 & _ & Ha5).
  rewrite Ha5 Ha4 Hw5 Hw4. done.
Qed.

Definition hello_packet : multicast_packet :=
  {| mp_from := native_group; mp_size := 5; mp_data := Some (str "hello") |}.
Lemma hello_packet_rep : rep_packet hello_packet.
Proof.
  split; [split; [|split]|split_and!].
  - vm_compute. reflexivity.
  - apply (bool_decide_unpack _). vm_compute. exact I.
  - vm_compute. reflexivity.
  - vm_compute. discriminate.
  - vm_compute. reflexivity.
  - reflexivity.
  - vm_compute. reflexivity.
Qed.

Definition waiting_state : sstate log_sink (list bytes) :=
  Build_sstate (recv_callback (Some 1) (Some (str "hello")) 5 (Some native_group) None joined_world).2
    empty_log (Build_dstate [] ∅).

Lemma queued_packet_written_witness :
  ∃ s', poll_messages (λ _, sample_fns) (λ _, {| neighbor_set_fun := []; group_set_fun := [];
        children_set_fun _ := []; parent_set_fun _ := []; designated_host_fun _ := 0 |}) 0 (λ x, x) 7 1
      waiting_state = (Ok tt, s') ∧
    sink_accepted (ss_out s') = enc_message (recv_message 0 hello_packet).
Proof.
  set (qf := λ _, {| neighbor_set_fun := []; group_set_fun := [];
        children_set_fun _ := []; parent_set_fun _ := []; designated_host_fun _ := 0 |}).
  assert (∃ se sp, w_sessions (ss_world waiting_state) !! 7 = Some se ∧ 0 ∈ se_sockets se ∧
    se_queue se = [outgoing_mcast_pckt_t 0 native_group 5 (str "hello")] ∧
    w_heap (ss_world waiting_state) !! (7, 0) = Some sp) as (se & sp & H1 & H2 & H3 & H4).
  { eexists _, _. split_and!; [vm_compute; reflexivity| |vm_compute; reflexivity|vm_compute; reflexivity].
    apply (bool_decide_unpack _). vm_compute. exact I. }
  assert (∃ s', poll_messages (λ _, sample_fns) qf 0 (λ x, x) 7 1 waiting_state = (Ok tt, s'))
    as (s' & Hrun) by (eexists; vm_compute; reflexivity).
  exists s'. split; [exact Hrun|].
  apply (queued_packet_written (λ _, sample_fns) qf 0 (λ x, x) 7 0 hello_packet (str "hello") []
    se sp waiting_state s') in Hrun as [Ha _];
    [exact Ha| |reflexivity|vm_compute; reflexivity|exact H1|exact H2|exact H3|exact H4
    |vm_compute; reflexivity|exact I].
  exact hello_packet_rep.
Defined.

(** ** Event subscription *)

(** [disable_events] of the client API enables events.  Its functor has
    the function id of [enable_events]; whatever state the session is in,
    after the middleware processed the request the session is subscribed. *)
Theorem disable_events_enables {S : Type} `{Sink S} (fns : Z → module_fns) (qfns : Z → query_fns)
    (stale_size : Z) (address : Z → Z) (self rid : Z) (sv sv' : server world S) (r : outcome unit)
    (se : session) :
  w_sessions (sv_world sv) !! self = Some se →
  (se_subscribed se = true → self ∈ w_subscribers (sv_world sv)) →
  dispatch fns qfns stale_size address self (function_id_value (functor_fid fid_disable_events))
    rid None 0 sv = (r, sv') →
  (se_subscribed <$> w_sessions (sv_world sv') !! self = Some true) ∧ self ∈ w_subscribers (sv_world sv').
Proof.
  intros Hse Hsub Hd.
  assert (∃ w', run_callback c_unit (cb_enable_events self) (sv_world sv) =
    (Ok (eid_none, (0, None)), w') ∧ se_subscribed <$> w_sessions w' !! self = Some true ∧
    self ∈ w_subscribers w') as (w' & Hcb & Hw1 & Hw2).
  { rewrite /run_callback /cb_enable_events /enable_events {1}/mbind /M_bind /in_session Hse /gets.
    rewrite insert_id // w_set_sessions_self. destruct (se_subscribed se) eqn:E.
    - exists (sv_world sv). cbn. rewrite Hse /= E. auto.
    - rewrite /subscribe_events /modify {1}/mbind /M_bind. cbn. rewrite Hse.
      eexists. split; [reflexivity|]. cbn. rewrite lookup_insert_eq. split; [done|set_solver]. }
  change (reply c_unit c_unit rid None 0 (λ _, cb_enable_events self) sv = (r, sv')) in Hd.
  rewrite /reply /zoom {1}/mbind /M_bind in Hd. cbn -[run_callback message_create_pair message_serialize] in Hd.
  rewrite {1}/mbind /M_bind Hcb in Hd. rewrite {1}/mbind /M_bind in Hd.
  cbn [fst snd] in Hd. change (0, None) with (zlen ([] : bytes), content_of []) in Hd.
  rewrite create_response in Hd; [done|]. destruct (message_serialize _ _) as [r' o]. by injection Hd as <- <-.
Qed.

Lemma disable_events_enables_witness :
  ∃ r sv', dispatch (λ _, sample_fns) (λ _, {| neighbor_set_fun := []; group_set_fun := [];
        children_set_fun _ := []; parent_set_fun _ := []; designated_host_fun _ := 0 |}) 0 (λ x, x) 7
      (function_id_value (functor_fid fid_disable_events)) 1 None 0
      (Build_server joined_world ∅ empty_log) = (r, sv') ∧
    se_subscribed <$> w_sessions (sv_world sv') !! 7 = Some true.
Proof.
  set (qf := λ _, {| neighbor_set_fun := []; group_set_fun := [];
        children_set_fun _ := []; parent_set_fun _ := []; designated_host_fun _ := 0 |}).
  assert (∃ se, w_sessions joined_world !! 7 = Some se ∧ se_subscribed se = false) as (se & H1 & H2).
  { eexists. split; vm_compute; reflexivity. }
  destruct (dispatch (λ _, sample_fns) qf 0 (λ x, x) 7
    (function_id_value (functor_fid fid_disable_events)) 1 None 0
    (Build_server joined_world ∅ empty_log)) as [r sv'] eqn:E.
  exists r, sv'. split; [reflexivity|].
  apply (disable_events_enables (λ _, sample_fns) qf 0 (λ x, x) 7 1 (Build_server joined_world ∅ empty_log)
    sv' r se H1) in E as [E _]; [exact E|]. rewrite H2. discriminate.
Defined.

(** ** Leaving

    The conditions under which the middleware runs: modules with their
    invariant whose queues hold jobs only (requests are waited for), jobs
    of known sessions, proxies at their own address with known interfaces. *)

Definition modules_ok (e : env) : Prop :=
  ∀ i tm, e_modules e !! i = Some tm →
    tables_ok tm ∧ tm_running tm = true ∧ ∃ js, tm_queue tm = send_job_t <$> js.

Definition clients_ok (P : Z → Prop) (e : env) : Prop :=
  (∀ n j c, e_jobs e !! n = Some (j, c) → P (sj_client j)) ∧ Forall (λ p, P p.1) (e_done e).

Definition world_ok (w : world) : Prop :=
  modules_ok (w_env w) ∧ clients_ok (λ x, is_Some (w_sessions w !! x)) (w_env w) ∧
  ∀ sk sp, w_heap w !! sk = Some sp →
    self_ptr sp = sk ∧ ∀ i, i ∈ sp_interfaces sp → is_Some (e_modules (w_env w) !! i).

(** From [e] to [e'] exactly the memberships in [L] are given up. *)
Definition left_groups (L : list (Z * sock)) (e e' : env) : Prop :=
  ∀ i, match e_modules e !! i, e_modules e' !! i with
       | Some tm, Some tm' =>
           ∀ k who, joined tm' k who = joined tm k who && negb (bool_decide ((i, who) ∈ L))
       | None, None => True
       | _, _ => False
       end.

Lemma left_groups_refl e e' : e_modules e' = e_modules e → left_groups [] e e'.
Proof.
  intros He i. rewrite He. destruct (e_modules e !! i); [|done]. intros k who.
  rewrite bool_decide_false; [apply not_elem_of_nil|]. by rewrite andb_true_r.
Qed.

Lemma left_groups_trans L1 L2 e1 e2 e3 :
  left_groups L1 e1 e2 → left_groups L2 e2 e3 → left_groups (L1 ++ L2) e1 e3.
Proof.
  intros H1 H2 i. specialize (H1 i). specialize (H2 i).
  destruct (e_modules e1 !! i), (e_modules e2 !! i), (e_modules e3 !! i); try done.
  intros k who. rewrite H2 H1 -andb_assoc -negb_orb. f_equal. f_equal.
  apply eq_true_iff_eq. rewrite orb_true_iff !bool_decide_eq_true elem_of_app. done.
Qed.

Lemma left_groups_dom L e e' i : left_groups L e e' → is_Some (e_modules e' !! i) ↔ is_Some (e_modules e !! i).
Proof.
  intros Hl. specialize (Hl i). by destruct (e_modules e !! i), (e_modules e' !! i).
Qed.

Section leaving.
Context (fns : Z → module_fns) (stale : Z) (leaves_succeed : ∀ i u, leave_fun (fns i) u = HC_SUCCESS).

Lemma job_release_clients P j e :
  clients_ok P e → ∃ e', job_release j e = (Ok tt, e') ∧ e_modules e' = e_modules e ∧ clients_ok P e'.
Proof.
  intros [Hj Hd]. rewrite /job_release /modify.
  destruct (e_jobs e !! sj_id j) as [[j' n]|] eqn:E; [|by exists e].
  pose proof (Hj _ _ _ E) as Hc.
  assert (∀ c, clients_ok P (e_set_jobs (<[sj_id j := (j', c)]> (e_jobs e)) e)) as Hins.
  { intros c. split; [|done]. intros m j1 c1 Hm. cbn in Hm.
    apply lookup_insert_Some in Hm as [[_ [= -> _]]|[_ Hm]]; [done|by eapply Hj]. }
  destruct n as [|[|n]]; [| |by eexists].
  1, 2: eexists; split; [done|]; split; [done|]; split;
    [intros m j1 c1 Hm; cbn in Hm; apply lookup_delete_Some in Hm as [_ Hm]; by eapply Hj|apply Forall_app; split; [done|by repeat constructor]].
Qed.

Lemma release_all_clients P rs e :
  clients_ok P e → ∃ e', release_all rs e = (Ok tt, e') ∧ e_modules e' = e_modules e ∧ clients_ok P e'.
Proof.
  revert e. induction rs as [|r rs IH]; intros e He; [by exists e|]. rewrite /release_all. cbn [for_each].
  assert (∃ e1, (match r with Released j => job_release j | _ => mret tt end) e = (Ok tt, e1) ∧
    e_modules e1 = e_modules e ∧ clients_ok P e1) as (e1 & H1 & Hm1 & Hc1).
  { destruct r; [by exists e|by exists e|by apply job_release_clients]. }
  rewrite (bind_ok _ _ _ _ _ H1). destruct (IH e1 Hc1) as (e2 & H2 & Hm2 & Hc2).
  exists e2. split; [exact H2|]. by rewrite Hm2.
Qed.

Lemma request_leave_all P i who e :
  modules_ok e → clients_ok P e → is_Some (e_modules e !! i) →
  ∃ e', module_request fns stale i (leave_all_t who) e = (Ok (Set_bool true), e') ∧
    modules_ok e' ∧ clients_ok P e' ∧ left_groups [(i, who)] e e'.
Proof.
  intros Hm Hc [tm Htm]. destruct (Hm i tm Htm) as (Hok & Hrun & js & Hq).
  destruct (call_leave_all (fns i) stale (leaves_succeed i) who js tm Hok Hrun Hq)
    as (tm' & Hcall & Hok' & Hrun' & Hq' & Hj').
  rewrite /module_request {1}/mbind /M_bind /in_module Htm Hcall. cbn [fst snd].
  set (e1 := e_set_modules _ e). destruct (release_all_clients P (Released <$> js) e1 Hc) as (e2 & H2 & Hm2 & Hc2).
  rewrite (bind_ok _ _ _ _ _ H2). exists e2. split_and!; [done| |done|].
  - intros j tmj. rewrite Hm2 /=. intros [[<- <-]|[_ Hj]]%lookup_insert_Some; [|by apply (Hm j)].
    split_and!; [done|done|]. by exists [].
  - intros j. rewrite Hm2 /=. destruct (decide (j = i)) as [->|Hne].
    + rewrite lookup_insert_eq Htm. intros k w. rewrite Hj'. f_equal. f_equal.
      apply bool_decide_ext. rewrite list_elem_of_singleton. naive_solver.
    + rewrite lookup_insert_ne //. destruct (e_modules e !! j); [|done]. intros k w.
      rewrite bool_decide_false; [|by rewrite andb_true_r].
      rewrite list_elem_of_singleton. naive_solver.
Qed.

Lemma requests_leave_all P who l e :
  modules_ok e → clients_ok P e → (∀ i, i ∈ l → is_Some (e_modules e !! i)) →
  ∃ e', requests fns stale ((λ i, (i, leave_all_t who)) <$> l) e = (Ok tt, e') ∧
    modules_ok e' ∧ clients_ok P e' ∧ left_groups ((λ i, (i, who)) <$> l) e e'.
Proof.
  revert e. induction l as [|i l IH]; intros e Hm Hc Hl.
  { exists e. split_and!; [done..|]. by apply left_groups_refl. }
  destruct (request_leave_all P i who e Hm Hc) as (e1 & H1 & Hm1 & Hc1 & Hl1); [apply Hl; by left|].
  destruct (IH e1 Hm1 Hc1) as (e2 & H2 & Hm2 & Hc2 & Hl2).
  { intros j Hj. rewrite (left_groups_dom _ _ _ _ Hl1). apply Hl. by right. }
  exists e2. split_and!; [|done|done|exact (left_groups_trans [_] _ _ _ _ Hl1 Hl2)].
  rewrite fmap_cons. rewrite (requests_app _ _ [_]). rewrite /requests. cbn [for_each fst snd].
  rewrite {1}/mbind /M_bind. rewrite {1}/mbind /M_bind H1. exact H2.
Qed.

Lemma sp_leave_all_ok P (sp : socket_proxy) e :
  modules_ok e → clients_ok P e → (∀ i, i ∈ sp_interfaces sp → is_Some (e_modules e !! i)) →
  ∃ sp' e', sp_leave_all fns stale true (Build_pstate sp e tt) = (Ok tt, Build_pstate sp' e' tt) ∧
    sp_interfaces sp' = sp_interfaces sp ∧ self_ptr sp' = self_ptr sp ∧ modules_ok e' ∧ clients_ok P e' ∧
    left_groups ((λ i, (i, self_ptr sp)) <$> sp_interfaces sp) e e'.
Proof.
  intros Hm Hc Hl. destruct (requests_leave_all P (self_ptr sp) _ e Hm Hc Hl) as (e' & Hr & Hm' & Hc' & Hl').
  rewrite /sp_leave_all {1}/mbind /M_bind /gets. cbn [p_sock].
  destruct (sp_interfaces sp) as [|i l] eqn:E.
  - exists sp, e. split_and!; try done. by apply left_groups_refl.
  - rewrite {1}/mbind /M_bind (on_env_requests _ _ (λ i, (i, leave_all_t (self_ptr sp)))).
    rewrite /on_env /zoom. cbn [p_env p_sock p_out]. rewrite Hr. exists (sp_set_joined ∅ sp), e'.
    by split_and!.
Qed.

(** Telling the sessions about finished jobs only appends to their queues. *)
Lemma deliver_done_ok w :
  clients_ok (λ x, is_Some (w_sessions w !! x)) (w_env w) →
  ∃ ss, deliver_done w = (Ok tt, w_set_sessions ss (w_set_env (e_set_done [] (w_env w)) w)) ∧
    ∀ x, ∃ msgs, ss !! x = pushed msgs <$> w_sessions w !! x.
Proof.
  intros [_ Hd]. rewrite /deliver_done {1}/mbind /M_bind /get {1}/mbind /M_bind /modify.
  set (w0 := w_set_env (e_set_done [] (w_env w)) w).
  change (w_sessions w) with (w_sessions w0) in *. clearbody w0. revert w0 Hd.
  induction (e_done (w_env w)) as [|[x msg] l IH]; intros w0 Hd; cbn [for_each].
  - exists (w_sessions w0). rewrite w_set_sessions_self. split; [done|]. intros y. exists [].
    destruct (w_sessions w0 !! y); [|done]. by rewrite /= pushed_nil.
  - apply Forall_cons in Hd as [Hx Hd]. cbn [fst snd].
    rewrite (bind_ok (async_job_done_msg x msg) _ _ _ _ (push_spec x (async_send_job_done_t msg) w0 Hx)).
    destruct (IH (w_set_sessions (alter (pushed [async_send_job_done_t msg]) x (w_sessions w0)) w0))
      as (ss & -> & Hss).
    { eapply Forall_impl; [exact Hd|]. intros [y m] Hy. cbn. by apply lookup_alter_is_Some. }
    exists ss. split; [done|]. intros y. destruct (Hss y) as [msgs Hy]. cbn in Hy.
    destruct (decide (y = x)) as [->|Hne].
    + rewrite lookup_alter_eq in Hy. exists (async_send_job_done_t msg :: msgs). rewrite Hy.
      destruct (w_sessions w0 !! x); [|done]. by rewrite /= pushed_pushed.
    + rewrite lookup_alter_ne // in Hy. by exists msgs.
Qed.

(** What leaving groups does to the process. *)
Definition stepped (L : list (Z * sock)) (w w' : world) : Prop :=
  world_ok w' ∧ left_groups L (w_env w) (w_env w') ∧
  (∀ x, ∃ msgs, w_sessions w' !! x = pushed msgs <$> w_sessions w !! x) ∧
  w_subscribers w' = w_subscribers w ∧
  ∀ sk, sp_interfaces <$> w_heap w' !! sk = sp_interfaces <$> w_heap w !! sk.

Lemma stepped_refl w : world_ok w → stepped [] w w.
Proof.
  intros Hw. split_and!; [done|by apply left_groups_refl| |done|done].
  intros x. exists []. destruct (w_sessions w !! x); [|done]. by rewrite /= pushed_nil.
Qed.

Lemma stepped_trans L1 L2 w1 w2 w3 : stepped L1 w1 w2 → stepped L2 w2 w3 → stepped (L1 ++ L2) w1 w3.
Proof.
  intros (_ & Hl1 & Hs1 & Hu1 & Hh1) (Hw & Hl2 & Hs2 & Hu2 & Hh2).
  split_and!; [done|by eapply left_groups_trans| |by rewrite Hu2|intros sk; by rewrite Hh2].
  intros x. destruct (Hs1 x) as [m1 H1], (Hs2 x) as [m2 H2]. exists (m1 ++ m2). rewrite H2 H1.
  destruct (w_sessions w1 !! x); [|done]. by rewrite /= pushed_pushed.
Qed.

Lemma pushed_lookup (ss ss' : gmap Z session) :
  (∀ x, ∃ msgs, ss' !! x = pushed msgs <$> ss !! x) → ∀ x, is_Some (ss !! x) → is_Some (ss' !! x).
Proof. intros Hs x Hx. destruct (Hs x) as [m ->]. by apply fmap_is_Some. Qed.

Lemma clients_ok_mono (P Q : Z → Prop) e : (∀ x, P x → Q x) → clients_ok P e → clients_ok Q e.
Proof.
  intros HPQ [Hj Hd]. split; [by eauto|]. eapply Forall_impl; [exact Hd|]. intros [x m]. apply HPQ.
Qed.

Lemma sock_leave_all_ok sk sp w :
  world_ok w → w_heap w !! sk = Some sp →
  ∃ w', sock_op sk (sp_leave_all fns stale true) w = (Ok tt, w') ∧
    stepped ((λ i, (i, sk)) <$> sp_interfaces sp) w w'.
Proof.
  intros (Hm & Hc & Hh) Hsk. destruct (Hh _ _ Hsk) as [Hself Hif].
  destruct (sp_leave_all_ok _ sp (w_env w) Hm Hc Hif) as (sp' & e' & Hl & Hi' & Hp' & Hm' & Hc' & Hleft).
  rewrite /sock_op /sock_io {1}/mbind /M_bind /run_sock. cbn [fst snd]. rewrite Hsk Hl.
  cbn [p_sock p_env p_out]. set (w1 := w_set_env e' _).
  rewrite {1}/mbind /M_bind /on_world /zoom. cbn [fst snd].
  destruct (deliver_done_ok w1 Hc') as (ss & -> & Hss). cbn [fst snd]. eexists. split; [done|].
  rewrite Hself in Hleft. split_and!; cbn.
  - split_and!; cbn.
    + exact Hm'.
    + apply (clients_ok_mono (λ x, is_Some (w_sessions w !! x))); [by apply pushed_lookup|].
      split; [apply Hc'|by constructor].
    + intros k spk [[<- <-]|[_ Hk]]%lookup_insert_Some.
      * split; [by rewrite Hp'|]. intros i Hi. rewrite (left_groups_dom _ _ _ _ Hleft).
        apply Hif. by rewrite -Hi'.
      * destruct (Hh _ _ Hk) as [? Hki]. split; [done|]. intros i Hi.
        rewrite (left_groups_dom _ _ _ _ Hleft). by apply Hki.
  - exact Hleft.
  - exact Hss.
  - done.
  - intros k. destruct (decide (k = sk)) as [->|].
    + by rewrite lookup_insert_eq Hsk /= Hi'.
    + by rewrite lookup_insert_ne.
Qed.

Definition ifaces_of (w : world) (sk : sock) : list Z := from_option sp_interfaces [] (w_heap w !! sk).

(** The memberships a list of sockets can have. *)
Definition memberships (w : world) (self : Z) (sids : list Z) : list (Z * sock) :=
  sids ≫= λ sid, (λ i, (i, (self, sid))) <$> ifaces_of w (self, sid).

Lemma ifaces_of_stepped L w w' sk : stepped L w w' → ifaces_of w' sk = ifaces_of w sk.
Proof.
  intros (_ & _ & _ & _ & Hh). specialize (Hh sk). rewrite /ifaces_of.
  destruct (w_heap w' !! sk), (w_heap w !! sk); simpl in *; congruence.
Qed.

Lemma leave_sockets_ok {S R} self sids (s : sstate S R) :
  world_ok (ss_world s) → (∀ sid, sid ∈ sids → is_Some (w_heap (ss_world s) !! (self, sid))) →
  ∃ w', for_each sids (λ sid, s_world (sock_op (self, sid) (sp_leave_all fns stale true))) s =
      (Ok tt, Build_sstate w' (ss_out s) (ss_in s)) ∧
    stepped (memberships (ss_world s) self sids) (ss_world s) w'.
Proof.
  revert s. induction sids as [|sid sids IH]; intros s Hw Hin; cbn [for_each].
  { exists (ss_world s). split; [by destruct s|]. by apply stepped_refl. }
  destruct (Hin sid (list_elem_of_here _ _)) as [sp Hsp].
  destruct (sock_leave_all_ok (self, sid) sp (ss_world s) Hw Hsp) as (w1 & H1 & Hst1).
  rewrite {1}/mbind /M_bind {1}/s_world /zoom H1.
  set (s1 := Build_sstate w1 (ss_out s) (ss_in s)).
  destruct (IH s1) as (w2 & H2 & Hst2); [apply Hst1| |].
  { intros x Hx. destruct Hst1 as (_ & _ & _ & _ & Hh). specialize (Hh (self, x)).
    destruct (Hin x (list_elem_of_further _ _ _ Hx)) as [y Hy]. rewrite Hy in Hh. cbn.
    by destruct (w_heap w1 !! (self, x)). }
  exists w2. split; [exact H2|].
  assert (memberships w1 self sids = memberships (ss_world s) self sids) as Heq.
  { rewrite /memberships. clear -Hst1. induction sids as [|x l IHl]; [done|]. csimpl.
    by rewrite IHl (ifaces_of_stepped _ _ _ _ Hst1). }
  rewrite /memberships bind_cons -/(memberships _ _ _).
  replace (ifaces_of (ss_world s) (self, sid)) with (sp_interfaces sp) by by rewrite /ifaces_of Hsp.
  rewrite -Heq. by eapply stepped_trans.
Qed.

Lemma memberships_elem w self sids i who :
  (i, who) ∈ memberships w self sids ↔ who.1 = self ∧ who.2 ∈ sids ∧ i ∈ ifaces_of w who.
Proof.
  rewrite /memberships list_elem_of_bind. setoid_rewrite list_elem_of_fmap. split.
  - intros (sid & (j & [= -> ->] & Hj) & Hsid). done.
  - destruct who as [x sid]. cbn. intros (-> & Hsid & Hi). exists sid. split; [|done]. by exists i.
Qed.
End leaving.

(** *** Modules that refuse a leave

    [agrees e bad m m']: [m] does what [m'] does, or it throws [e] and the
    reason is [bad]. *)

Definition agrees {S A : Type} (e : exn) (bad : Prop) (m m' : M S A) : Prop :=
  ∀ s, m s = m' s ∨ bad ∧ ∃ s', m s = (Throw e, s').

Section agreement.
Context (e : exn) (bad : Prop).

Lemma agrees_refl {S A} (m : M S A) : agrees e bad m m.
Proof. intros s. by left. Qed.

Lemma agrees_bind {S A B} (m m' : M S A) (k k' : A → M S B) :
  agrees e bad m m' → (∀ a, agrees e bad (k a) (k' a)) → agrees e bad (m ≫= k) (m' ≫= k').
Proof.
  intros Hm Hk s. rewrite /mbind /M_bind. destruct (Hm s) as [->|(Hb & s' & ->)]; [|right; by eauto].
  destruct (m' s) as [[a|x|w] s1]; [apply Hk|by left..].
Qed.

Lemma agrees_for_each {S A} (l : list A) (f f' : A → M S unit) :
  (∀ x, agrees e bad (f x) (f' x)) → agrees e bad (for_each l f) (for_each l f').
Proof. intros Hf. induction l as [|x l IH]; [apply agrees_refl|]. by apply agrees_bind. Qed.

Lemma agrees_zoom {S T A} (view : S → T) upd (m m' : M T A) :
  agrees e bad m m' → agrees e bad (zoom view upd m) (zoom view upd m').
Proof.
  intros Hm s. rewrite /zoom. destruct (Hm (view s)) as [->|(Hb & s' & ->)]; [by left|]. right. by eauto.
Qed.

Lemma agrees_in_module {A} i (m m' : M tech_module A) :
  agrees e bad m m' → agrees e bad (in_module i m) (in_module i m').
Proof.
  intros Hm x. rewrite /in_module. destruct (e_modules x !! i) as [tm|]; [|by left].
  destruct (Hm tm) as [->|(Hb & s' & ->)]; [by left|]. right. by eauto.
Qed.

Lemma agrees_sock_op {A} sk (m m' : M (pstate unit) A) :
  agrees e bad m m' → agrees e bad (sock_op sk m) (sock_op sk m').
Proof.
  intros Hm w. rewrite /sock_op.
  assert (agrees e bad (sock_io sk m) (sock_io sk m')) as Hio.
  { apply agrees_bind; [|intros; apply agrees_refl]. intros ws. rewrite /run_sock.
    destruct (w_heap ws.1 !! sk) as [sp|]; [|by left].
    destruct (Hm (Build_pstate sp (w_env ws.1) ws.2)) as [->|(Hb & s' & ->)]; [by left|]. right. by eauto. }
  destruct (Hio (w, tt)) as [->|(Hb & s' & ->)]; [by left|]. right. by eauto.
Qed.
End agreement.

Section refusing.
Context (fns : Z → module_fns) (stale : Z).

(** Some module answers a leave with an error. *)
Definition refuses : Prop := ∃ i u, leave_fun (fns i) u ≠ HC_SUCCESS.

(** The same modules, but accepting every leave. *)
Definition accepting (i : Z) : module_fns :=
  {| map_fun := map_fun (fns i); join_fun := join_fun (fns i); leave_fun := λ _, HC_SUCCESS |}.

Abbreviation worker_exception := (terminated "exception in tech_module::worker").

Lemma agrees_call_leave i u :
  agrees (requirement_failed "m_handle->leave_fun(...) == HC_SUCCESS") refuses
    (call_leave (fns i) u) (call_leave (accepting i) u).
Proof.
  apply agrees_bind; [apply agrees_refl|]. intros _ s. rewrite /require.
  destruct (Z.eqb_spec (leave_fun (fns i) u) HC_SUCCESS) as [|Hne]; [by left|]. right. split; [by exists i, u|by eexists].
Qed.

Lemma agrees_process i msg :
  agrees (requirement_failed "m_handle->leave_fun(...) == HC_SUCCESS") refuses
    (process (fns i) stale msg) (process (accepting i) stale msg).
Proof.
  destruct msg as [u|j|u who|u who|who|]; cbn [process]; try apply agrees_refl.
  - apply agrees_bind; [apply agrees_refl|]. intros mapped. apply agrees_bind; [apply agrees_refl|]. intros [[] n].
    + apply agrees_bind; [|intros; apply agrees_refl]. cbn [fst snd andb].
      destruct (n =? 0); [apply agrees_call_leave|apply agrees_refl].
    + apply agrees_refl.
  - apply agrees_bind; [|intros; apply agrees_refl]. apply agrees_bind; [apply agrees_refl|]. intros keys.
    apply agrees_bind; [apply agrees_refl|]. intros es. apply agrees_for_each. intros g.
    apply agrees_bind; [apply agrees_refl|]. intros _. apply agrees_call_leave.
Qed.

Lemma agrees_worker_step i : agrees worker_exception refuses (worker_step (fns i) stale) (worker_step (accepting i) stale).
Proof.
  apply agrees_bind; [apply agrees_refl|]. intros s. destruct (tm_running s), (tm_queue s) as [|msg q]; try apply agrees_refl.
  apply agrees_bind; [apply agrees_refl|]. intros _. apply agrees_bind; [|intros; apply agrees_refl].
  intros s1. rewrite /try_catch. destruct (agrees_process i msg s1) as [->|(Hb & s' & ->)]; [by left|]. right. by eauto.
Qed.

Lemma agrees_work i n : agrees worker_exception refuses (work (fns i) stale n) (work (accepting i) stale n).
Proof.
  induction n as [|n IH]; [apply agrees_refl|]. apply agrees_bind; [apply agrees_worker_step|].
  intros [r|]; [|apply agrees_refl]. apply agrees_bind; [done|]. intros rs. apply agrees_refl.
Qed.

Lemma agrees_request i msg :
  agrees worker_exception refuses (module_request fns stale i msg) (module_request accepting stale i msg).
Proof.
  apply agrees_bind; [|intros; apply agrees_refl]. apply agrees_in_module.
  apply agrees_bind; [apply agrees_refl|]. intros _. apply agrees_bind; [apply agrees_refl|]. intros s.
  apply agrees_bind; [apply agrees_work|]. intros rs. apply agrees_refl.
Qed.

Lemma agrees_sp_leave_all b :
  agrees worker_exception refuses (sp_leave_all (S := unit) fns stale b) (sp_leave_all accepting stale b).
Proof.
  apply agrees_bind; [apply agrees_refl|]. intros sp. destruct (sp_interfaces sp) as [|i l]; [apply agrees_refl|].
  apply agrees_bind; [|intros; apply agrees_refl]. apply agrees_for_each. intros j.
  apply agrees_bind; [|intros; apply agrees_refl]. apply agrees_zoom, agrees_request.
Qed.

Lemma agrees_on_exit {S R} self :
  agrees worker_exception refuses (on_exit (S := S) (R := R) fns stale self) (on_exit accepting stale self).
Proof.
  apply agrees_bind; [apply agrees_refl|]. intros _. apply agrees_bind; [apply agrees_refl|]. intros se.
  apply agrees_bind; [|intros; apply agrees_refl]. apply agrees_for_each. intros sid.
  apply agrees_zoom, agrees_sock_op, agrees_sp_leave_all.
Qed.
End refusing.

(** *** The end of a session with modules that accept leaves *)

(** What [on_exit] leaves: the session has no sockets, is not subscribed, and
    exactly the memberships of its sockets on the interfaces they use are
    gone. *)
Definition cleaned {S R : Type} (self : Z) (se : session) (s s' : sstate S R) : Prop :=
  ∃ se', w_sessions (ss_world s') !! self = Some se' ∧ se_sockets se' = ∅ ∧ se_subscribed se' = false ∧
    self ∉ w_subscribers (ss_world s') ∧
    ∀ i tm, e_modules (w_env (ss_world s)) !! i = Some tm →
      ∃ tm', e_modules (w_env (ss_world s')) !! i = Some tm' ∧
        ∀ k who, joined tm' k who = joined tm k who &&
          negb (bool_decide (who.1 = self ∧ who.2 ∈ se_sockets se ∧ i ∈ ifaces_of (ss_world s) who)).

Lemma on_exit_accepting {S R : Type} (fns : Z → module_fns) (stale self : Z) (se : session) (s : sstate S R) :
  (∀ i u, leave_fun (fns i) u = HC_SUCCESS) →
  world_ok (ss_world s) → w_sessions (ss_world s) !! self = Some se →
  (∀ sid, sid ∈ se_sockets se → is_Some (w_heap (ss_world s) !! (self, sid))) →
  (self ∈ w_subscribers (ss_world s) → se_subscribed se = true) →
  ∃ s', on_exit fns stale self s = (Ok tt, s') ∧ cleaned self se s s'.
Proof.
  intros Hl Hw Hse Hin Hsub. rewrite /on_exit.
  set (w1 := w_set_subscribers (w_subscribers (ss_world s) ∖ {[self]})
    (w_set_sessions (<[self := se_set_subscribed false se]> (w_sessions (ss_world s))) (ss_world s))).
  assert (disable_events self (ss_world s) = (Ok tt, w1)) as H1.
  { rewrite /disable_events {1}/mbind /M_bind /in_session Hse /gets insert_id // w_set_sessions_self.
    destruct (se_subscribed se) eqn:E.
    - rewrite /unsubscribe_events /modify {1}/mbind /M_bind. cbn. by rewrite Hse.
    - assert (self ∉ w_subscribers (ss_world s)) as Hn by naive_solver. rewrite /w1.
      assert (w_subscribers (ss_world s) ∖ {[self]} = w_subscribers (ss_world s)) as -> by set_solver.
      rewrite insert_id; [|by destruct (ss_world s)]. rewrite Hse. by destruct se; simpl in *; subst. }
  set (s1 := Build_sstate w1 (ss_out s) (ss_in s)).
  rewrite {1}/mbind /M_bind {1}/s_world /zoom H1 -/s1.
  set (se1 := se_set_subscribed false se).
  assert (w_sessions (ss_world s1) !! self = Some se1) as Hse1 by (cbn; by rewrite lookup_insert_eq).
  rewrite (bind_ok _ _ _ _ _ (my_session_spec self s1 se1 Hse1)).
  assert (world_ok w1) as Hw1.
  { destruct Hw as (Hm & Hc & Hh). split_and!; [done| |done].
    eapply clients_ok_mono; [|exact Hc]. intros x Hx. cbn. apply lookup_insert_is_Some'. by right. }
  destruct (leave_sockets_ok fns stale Hl self (socket_list se1) s1 Hw1) as (w2 & H2 & _ & Hlg & Hss & Hu & _).
  { intros sid. rewrite /socket_list merge_sort_Permutation elem_of_elements. apply Hin. }
  rewrite (bind_ok _ _ _ _ _ H2). destruct (Hss self) as [msgs Hs2]. cbn in Hs2. rewrite lookup_insert_eq in Hs2.
  rewrite /s_world /zoom /in_session. cbn [ss_world ss_out ss_in]. rewrite Hs2. cbn [fmap option_fmap option_map].
  rewrite /modify. eexists. split; [done|]. eexists. cbn. rewrite lookup_insert_eq. split_and!; [done..| |].
  - rewrite Hu. set_solver.
  - intros i tm Htm. specialize (Hlg i). cbn in Hlg. rewrite Htm in Hlg.
    destruct (e_modules (w_env w2) !! i) as [tm'|]; [|done]. exists tm'. split; [done|].
    intros k who. rewrite Hlg. f_equal. f_equal. apply bool_decide_ext.
    rewrite memberships_elem /socket_list merge_sort_Permutation elem_of_elements. done.
Qed.

(** C17: when a session ends, the middleware forgets its client.  Let the
    middleware be in the state it runs in ([world_ok]: the workers of the
    modules run and have jobs only in their queues, the pointers to modules
    and sockets are valid), whatever the module's earlier [del] read from
    destroyed lists.  Then [on_exit], which follows the loop however that
    ended, completes unless a module answers a leave with an error: the
    session has no sockets left and is not subscribed to events, and of all
    memberships in the process exactly those of its sockets on the interfaces
    they use are gone; so if they were members on no others, none is left.
    If a module refuses a leave, the exception in its worker can end the
    process. *)
Theorem session_exit_cleans {S R : Type} (fns : Z → module_fns) (stale self : Z) (se : session)
    (s : sstate S R) :
  world_ok (ss_world s) → w_sessions (ss_world s) !! self = Some se →
  (∀ sid, sid ∈ se_sockets se → is_Some (w_heap (ss_world s) !! (self, sid))) →
  (self ∈ w_subscribers (ss_world s) → se_subscribed se = true) →
  (∃ s', on_exit fns stale self s = (Ok tt, s') ∧ cleaned self se s s' ∧
     ((∀ i tm k sid, e_modules (w_env (ss_world s)) !! i = Some tm → joined tm k (self, sid) = true →
         sid ∈ se_sockets se ∧ i ∈ ifaces_of (ss_world s) (self, sid)) →
      ∀ i tm' k sid, is_Some (e_modules (w_env (ss_world s)) !! i) →
        e_modules (w_env (ss_world s')) !! i = Some tm' → joined tm' k (self, sid) = false)) ∨
  (∃ i u, leave_fun (fns i) u ≠ HC_SUCCESS) ∧
    ∃ s', on_exit fns stale self s = (Throw (terminated "exception in tech_module::worker"), s').
Proof.
  intros Hw Hse Hin Hsub.
  destruct (on_exit_accepting (accepting fns) stale self se s (λ _ _, eq_refl) Hw Hse Hin Hsub) as (s' & E & Hcl).
  destruct (agrees_on_exit fns stale self s) as [Ha|Hstop]; [left|by right].
  exists s'. rewrite Ha. split_and!; [done..|]. intros Hmem i tm' k sid [tm Htm] Htm'.
  destruct Hcl as (_ & _ & _ & _ & _ & Hj). destruct (Hj i tm Htm) as (tm2 & E2 & Hj2).
  rewrite Htm' in E2. injection E2 as <-. rewrite Hj2. destruct (joined tm k (self, sid)) eqn:Ejo; [|done].
  destruct (Hmem i tm k sid Htm Ejo) as [H1 H2]. by rewrite bool_decide_eq_true_2.
Qed.
(** The module, the socket and the session of [joined_world]. *)
Definition joined_module : tech_module :=
  (process_all sample_fns 0 [join_t news (7, 0)] (new_tech_module 1 0 [])).2.
Definition joined_socket : socket_proxy :=
  default sample_proxy (w_heap joined_world !! (7, 0)).
Definition joined_session : session :=
  default new_session (w_sessions joined_world !! 7).

Lemma joined_world_ok : world_ok joined_world.
Proof.
  assert (e_modules (w_env joined_world) = {[1 := joined_module]}) as Hm by (vm_compute; reflexivity).
  assert (w_heap joined_world = {[(7, 0) := joined_socket]}) as Hh by (vm_compute; reflexivity).
  assert (e_jobs (w_env joined_world) = ∅) as Hj by (vm_compute; reflexivity).
  assert (e_done (w_env joined_world) = []) as Hd by (vm_compute; reflexivity).
  assert (self_ptr joined_socket = (7, 0) ∧ sp_interfaces joined_socket = [1]) as [Hp Hi]
    by (split; vm_compute; reflexivity).
  split_and!.
  - intros i tm. rewrite Hm. intros [<- <-]%lookup_singleton_Some. split_and!.
    + apply tm_ok_tables, (process_all_ok sample_fns [join_t news (7, 0)] (new_tech_module 1 0 []) [Set_bool true]);
        [done|done|apply new_tech_module_ok|vm_compute; reflexivity].
    + vm_compute. reflexivity.
    + exists []. vm_compute. reflexivity.
  - split; [rewrite Hj; intros m j c Hx; by rewrite lookup_empty in Hx|rewrite Hd; constructor].
  - intros sk sp. rewrite Hh. intros [<- <-]%lookup_singleton_Some. split; [done|].
    rewrite Hi Hm. intros i ->%list_elem_of_singleton. rewrite lookup_singleton_eq. eauto.
Qed.

Lemma session_exit_cleans_witness :
  ∃ s' se', on_exit (λ _, sample_fns) 3 7
      (Build_sstate joined_world empty_log (Build_dstate ([] : list bytes) ∅)) = (Ok tt, s') ∧
    w_sessions (ss_world s') !! 7 = Some se' ∧ se_sockets se' = ∅ ∧
    ∃ tm', e_modules (w_env (ss_world s')) !! 1 = Some tm' ∧
      joined tm' (uri_str native_group) (7, 0) = false.
Proof.
  assert (w_sessions joined_world !! 7 = Some joined_session) as Hse by (vm_compute; reflexivity).
  destruct (session_exit_cleans (λ _, sample_fns) 3 7 joined_session
    (Build_sstate joined_world empty_log (Build_dstate ([] : list bytes) ∅)))
    as [(s' & H1 & (se' & H2 & H3 & _ & _ & H4) & _)|((i & u & Hne) & _)].
  - exact joined_world_ok.
  - exact Hse.
  - intros sid Hsid. assert (se_sockets joined_session = {[0]}) as Heq by (vm_compute; reflexivity).
    rewrite Heq in Hsid. apply elem_of_singleton in Hsid as ->. exists joined_socket. vm_compute. reflexivity.
  - intros Hs. assert (w_subscribers joined_world = ∅) as Heq by (vm_compute; reflexivity).
    cbn [ss_world] in Hs. rewrite Heq in Hs. exfalso. exact (not_elem_of_empty _ Hs).
  - exists s', se'. split; [exact H1|]. split; [exact H2|]. split; [exact H3|].
    destruct (H4 1 joined_module) as (tm' & Ht & Hj); [vm_compute; reflexivity|].
    exists tm'. split; [exact Ht|]. rewrite Hj. vm_compute. reflexivity.
  - exfalso. apply Hne. reflexivity.
Defined.
