(* ===== verification/LocalModules.v ===== *)
(** * The modules loopback and void

    The two technology modules without a network ([modules/loopback] and
    [modules/void]): loopback hands every packet back through a queue and a
    thread of its own, void drops it.  What the middleware expects of a module
    is an interface ([Technology]); a module that keeps group names and
    accepts every join ([LocalTechnology]) makes the worker of [TechModule.v]
    work without exceptions.  Worker and loopback together deliver every
    packet that was sent, once and in order. *)

From S2P Require Import Prelude Uri Message UriMappings TechModule SocketProxy Session.

(** ** The interface of a module

    The functions a shared library exports, on the state of an instance. *)
Class Technology (T : Type) := {
  hc_map : uri → option bytes * option uri;
  hc_join : uri → M T Z;
  hc_leave : uri → M T Z;
  hc_sendto : option bytes → Z → Z → option uri → M T Z;
  hc_delete_instance : M T unit;
  hc_queries : query_fns
}.

(** Names are kept and memberships are accepted. *)
Class LocalTechnology (T : Type) `{Technology T} := {
  local_map u : hc_map u = (None, Some u);
  local_join u (t : T) : ∃ t', hc_join u t = (Ok HC_SUCCESS, t');
  local_leave u (t : T) : ∃ t', hc_leave u t = (Ok HC_SUCCESS, t')
}.

(** The module as the worker sees it; that [hc_join] and [hc_leave] answer
    [HC_SUCCESS] is the promise of [LocalTechnology]. *)
Definition fns_of (T : Type) `{Technology T} : module_fns :=
  {| map_fun := hc_map; join_fun _ := HC_SUCCESS; leave_fun _ := HC_SUCCESS |}.

(** A recorded call of the worker, made. *)
Definition apply_call {T : Type} `{Technology T} (c : module_call) : M T unit :=
  match c with
  | Call_join u => hc_join u ;; mret tt
  | Call_leave u => hc_leave u ;; mret tt
  | Call_sendto content content_size ttl receiver =>
      hc_sendto content content_size ttl (Some receiver) ;; mret tt
  | Call_delete_instance => hc_delete_instance
  end.

(** The helpers with which a module builds the lists it returns; the reader
    is [consume_uri_list] ([Session.v]). *)
Definition no_uri : uri_node := {| un_obj := None; un_str := None; un_type := -1 |}.
Definition create_uri_list (vec : list uri) : list uri_node :=
  match vec with
  | [] => [no_uri]
  | _ => (λ u, {| un_obj := Some u; un_str := None; un_type := -1 |}) <$> vec
  end.
Definition create_pair_list (vec : list (uri * Z)) : list uri_node :=
  match vec with
  | [] => [no_uri]
  | _ => (λ p, {| un_obj := Some p.1; un_str := None; un_type := p.2 |}) <$> vec
  end.

Lemma consume_create vec : consume_uris (create_uri_list vec) = vec.
Proof.
  rewrite /consume_uris. destruct vec as [|u vec]; [done|]. cbn. f_equal.
  induction vec as [|v vec IH]; cbn; [done|by f_equal].
Qed.

Lemma consume_create_pairs vec : consume_pairs (create_pair_list vec) = vec.
Proof.
  rewrite /consume_pairs. destruct vec as [|[u n] vec]; [done|]. cbn. f_equal.
  induction vec as [|[v m] vec IH]; cbn; [done|by f_equal].
Qed.

(** ** loopback *)

Inductive loopback_module_msg :=
  | lb_kill
  | lb_send (data : bytes) (source : uri).

(** The queue, the handle (0 until [set_handle]), the calls of the two
    callbacks, and whether the receive loop runs. *)
Record loopback_module := {
  lb_queue : list loopback_module_msg;
  lb_handle : option Z;
  lb_received : list (bytes * uri);
  lb_events : list (membership_event_type * uri);
  lb_running : bool
}.
Definition lb_set_queue q (s : loopback_module) : loopback_module := {| lb_queue := q; lb_handle := lb_handle s;
  lb_received := lb_received s; lb_events := lb_events s; lb_running := lb_running s |}.
Definition lb_set_handle h (s : loopback_module) : loopback_module := {| lb_queue := lb_queue s; lb_handle := h;
  lb_received := lb_received s; lb_events := lb_events s; lb_running := lb_running s |}.
Definition lb_set_received r (s : loopback_module) : loopback_module := {| lb_queue := lb_queue s;
  lb_handle := lb_handle s; lb_received := r; lb_events := lb_events s; lb_running := lb_running s |}.
Definition lb_set_events e (s : loopback_module) : loopback_module := {| lb_queue := lb_queue s;
  lb_handle := lb_handle s; lb_received := lb_received s; lb_events := e; lb_running := lb_running s |}.
Definition lb_set_running b (s : loopback_module) : loopback_module := {| lb_queue := lb_queue s;
  lb_handle := lb_handle s; lb_received := lb_received s; lb_events := lb_events s; lb_running := b |}.

(** [hc_init]: the instance, its handle, and the thread. *)
Definition new_loopback (hdl : Z) : loopback_module :=
  {| lb_queue := []; lb_handle := Some hdl; lb_received := []; lb_events := []; lb_running := true |}.

(** The key-value pairs of the instance; [name_val] contains its address. *)
Definition loopback_kvps (name_val : bytes) : list (option bytes * option bytes) :=
  [(Some (str "if_tech"), Some (str "loopback")); (Some (str "if_addr"), Some (str "localhost"));
   (Some (str "if_name"), Some name_val)].

Definition lb_push (msg : loopback_module_msg) : M loopback_module unit :=
  modify (λ s, lb_set_queue (lb_queue s ++ [msg]) s).

Definition lb_event (e : membership_event_type) (group : uri) : M loopback_module Z :=
  s ← get;
  match lb_handle s with
  | Some _ => modify (lb_set_events (lb_events s ++ [(e, group)])) ;; mret HC_SUCCESS
  | None => mret HC_SUCCESS
  end.
Definition lb_join : uri → M loopback_module Z := lb_event join_event.
Definition lb_leave : uri → M loopback_module Z := lb_event leave_event.

(** The constructor of the message copies [len] bytes; a negative length
    becomes a huge allocation. *)
Definition lb_sendto (buf : option bytes) (len ttl : Z) (src : option uri) : M loopback_module Z :=
  match src, buf with
  | Some src, Some buf =>
      if (0 <=? len) && (len <=? zlen buf) then lb_push (lb_send (ztake len buf) src) ;; mret HC_SUCCESS
      else ub "copy of more bytes than the buffer has"
  | _, _ => mret HC_SUCCESS
  end.

Definition lb_map (group_uri : uri) : option bytes * option uri := (None, Some group_uri).

(** The destructor asks the receive loop to end (and waits for it). *)
Definition lb_delete : M loopback_module unit := lb_push lb_kill.

(** One iteration of [recv_loop]; [false] when there is nothing to do. *)
Definition recv_loop_step : M loopback_module bool :=
  s ← get;
  match lb_running s, lb_queue s with
  | true, lb_kill :: q => modify (lb_set_queue q) ;; modify (lb_set_running false) ;; mret true
  | true, lb_send data source :: q =>
      modify (lb_set_queue q) ;;
      modify (λ s, lb_set_received (lb_received s ++ [(data, source)]) s) ;;
      mret true
  | _, _ => mret false
  end.

Definition HC_IGNORED : Z := -1.
Definition empty_uri_list : list uri_node := [{| un_obj := None; un_str := None; un_type := HC_IGNORED |}].
Definition HC_IS_NOT_A_DESIGNATED_HOST : Z := 0.
Definition no_queries : query_fns :=
  {| neighbor_set_fun := empty_uri_list; group_set_fun := empty_uri_list;
     children_set_fun _ := empty_uri_list; parent_set_fun _ := empty_uri_list;
     designated_host_fun _ := HC_IS_NOT_A_DESIGNATED_HOST |}.

#[export] Instance loopback_technology : Technology loopback_module := {
  hc_map := lb_map; hc_join := lb_join; hc_leave := lb_leave; hc_sendto := lb_sendto;
  hc_delete_instance := lb_delete; hc_queries := no_queries
}.

#[export] Instance loopback_local : LocalTechnology loopback_module.
Proof.
  split; [done| |]; intros u t; rewrite /= /lb_join /lb_leave /lb_event /mbind /M_bind /get;
    destruct (lb_handle t); by eexists.
Qed.

(** ** void *)

Record void_module := {
  vm_handle : option Z;
  vm_received : list (bytes * uri);
  vm_events : list (membership_event_type * uri);
  vm_generator : bool;
  vm_deleted : bool
}.

Definition new_void (hdl : Z) : void_module :=
  {| vm_handle := Some hdl; vm_received := []; vm_events := []; vm_generator := false; vm_deleted := false |}.

Definition void_kvps (name_val : bytes) : list (option bytes * option bytes) :=
  [(Some (str "if_tech"), Some (str "none")); (Some (str "if_addr"), Some (str "localhost"));
   (Some (str "if_name"), Some name_val)].

Definition vm_event (e : membership_event_type) (what : uri) : M void_module unit :=
  modify (λ s, match vm_handle s with
               | Some _ => {| vm_handle := vm_handle s; vm_received := vm_received s;
                              vm_events := vm_events s ++ [(e, what)]; vm_generator := vm_generator s;
                              vm_deleted := vm_deleted s |}
               | None => s
               end).

Definition joker : uri := uri_of (str "jo:ker").

(** Joining one special group starts the generator, once; the name is compared
    as a string. *)
Definition vm_join (what : uri) : M void_module unit :=
  vm_event join_event what ;;
  if bool_decide (uri_str what = str "jo:ker") then
    modify (λ s, {| vm_handle := vm_handle s; vm_received := vm_received s; vm_events := vm_events s;
                    vm_generator := true; vm_deleted := vm_deleted s |})
  else mret tt.

(** The generator never starts: the name of that group is not a URI. *)
Lemma generator_never_starts (s : bytes) (t : void_module) :
  vm_generator (vm_join (uri_of s) t).2 = vm_generator t.
Proof.
  rewrite /vm_join /mbind /M_bind /vm_event /=. case_bool_decide as E; [|by destruct (vm_handle t)].
  assert (uri_str (uri_of (uri_str (uri_of s))) = []) as E' by (rewrite E; by vm_compute).
  by rewrite uri_of_str E in E'.
Qed.

Definition vm_leave (what : uri) : M void_module unit := vm_event leave_event what.
Definition vm_send (whom : uri) (buf : option bytes) (len ttl : Z) : M void_module unit := mret tt.
Definition vm_map (what : uri) : option bytes * option uri := (None, Some what).

Definition quote_text : bytes := str "Ever danced with the devil in the pale moonlight?".

(** One iteration of [generator_loop], which never ends: not even when the
    instance is deleted. *)
Definition generator_step : M void_module bool :=
  s ← get;
  if vm_generator s then
    if vm_deleted s then ub "use of a deleted void_module"
    else modify (λ s, {| vm_handle := vm_handle s; vm_received := vm_received s ++ [(quote_text, joker)];
                         vm_events := vm_events s; vm_generator := vm_generator s; vm_deleted := vm_deleted s |}) ;;
         mret true
  else mret false.

Definition vm_delete : M void_module unit :=
  modify (λ s, {| vm_handle := vm_handle s; vm_received := vm_received s; vm_events := vm_events s;
                  vm_generator := vm_generator s; vm_deleted := true |}).

(** The exported functions; a null group is dereferenced by [hc_sendto]. *)
#[export] Instance void_technology : Technology void_module := {
  hc_map := vm_map;
  hc_join u := vm_join u ;; mret HC_SUCCESS;
  hc_leave u := vm_leave u ;; mret HC_SUCCESS;
  hc_sendto buf len ttl group :=
    match group with
    | Some group => vm_send group buf len ttl ;; mret HC_SUCCESS
    | None => ub "null pointer"
    end;
  hc_delete_instance := vm_delete;
  hc_queries := no_queries
}.

#[export] Instance void_local : LocalTechnology void_module.
Proof.
  split; [done| |]; intros u t; cbn; rewrite /mbind /M_bind; [|by eexists].
  rewrite /vm_join /mbind /M_bind /=. case_bool_decide; by eexists.
Qed.

(** ** The worker with a local module *)

(** Every mapping in the table maps a name to itself. *)
Definition names_kept (s : tech_module) : Prop :=
  (∀ k m, um_forward (tm_mappings s) !! k = Some m → uri_str m = k ∧ k ≠ []) ∧
  (∀ k m, um_reverse (tm_mappings s) !! k = Some m → uri_str m = k).

(** A request that names a group names a group that is not empty. *)
Definition named (msg : tm_msg) : Prop :=
  match request_uri msg with Some u => uri_empty u = false | None => True end.

(** The calls [process] adds for a local module: the packet of a job whose
    group has a name, and no other [sendto]. *)
Definition sent_packet (msg : tm_msg) : list (option bytes * Z * bytes) :=
  match msg with
  | send_job_t j =>
      if uri_empty (sj_receiver j) then []
      else [(m_content (sj_msg j), m_content_size (sj_msg j), uri_str (sj_receiver j))]
  | _ => []
  end.
Definition sendto_of (c : module_call) : list (option bytes * Z * bytes) :=
  match c with
  | Call_sendto content size _ receiver => [(content, size, uri_str receiver)]
  | _ => []
  end.
Definition deletes (c : module_call) : bool := match c with Call_delete_instance => true | _ => false end.

Section local.
Context (T : Type) `{LocalTechnology T}.

#[local] Notation fns := (fns_of T).

Lemma local_lookup u s :
  tm_ok s → names_kept s →
  ∃ r s', lookup_mapping fns u s = (r, s') ∧ tm_ok s' ∧ names_kept s' ∧
    tm_joins s' = tm_joins s ∧ tm_calls s' = tm_calls s ∧ tm_queue s' = tm_queue s ∧ tm_running s' = tm_running s ∧
    (if uri_empty u then ∃ why, r = Throw (requirement_failed why) else ∃ m, r = Ok m ∧ uri_str m = uri_str u).
Proof.
  intros Hok [Hf Hr]. destruct (lookup_mapping fns u s) as [r s'] eqn:E. exists r, s'.
  destruct (lookup_mapping_spec _ _ _ _ _ Hok E) as (Hok' & Hj & Hc & _). split; [done|]. split; [done|].
  revert E. rewrite /lookup_mapping /zoom /forward_lookup_map /tm_mapping_helper /= local_map.
  rewrite {1}/mbind /M_bind /get. destruct (um_forward (tm_mappings s) !! uri_str u) as [m|] eqn:Eu.
  - intros [= <- <-]. destruct (Hf _ _ Eu) as [Hm Hne]. split_and!; [done..|].
    rewrite /uri_empty bool_decide_eq_false_2 //. eauto.
  - destruct (uri_empty u) eqn:Ee; cbn [negb require].
    { intros [= <- <-]. split_and!; [done..|]. eauto. }
    rewrite bool_decide_eq_true_2.
    + destruct (um_reverse (tm_mappings s) !! uri_str u) as [o|] eqn:Er; [|done].
      destruct Hok as ((_ & Hi) & _). destruct (Hi _ _ Er) as (o' & Ho' & _).
      by rewrite (Hr _ _ Er) Eu in Ho'.
    + cbn. intros [= <- <-]. apply bool_decide_eq_false in Ee. split_and!; [|done..|by eauto].
      split; cbn; intros k m; rewrite /map_emplace.
      * rewrite Eu. rewrite lookup_insert_Some. intros [[<- <-]|[_ Hk]]; [done|by apply Hf].
      * destruct (um_reverse (tm_mappings s) !! uri_str u) as [o|] eqn:Er; [by apply Hr|].
        rewrite lookup_insert_Some. intros [[<- <-]|[_ Hk]]; [done|by apply Hr].
Qed.

(** Calls other than those of [sendto] and of the end. *)
Definition only_memberships (cs : list module_call) : Prop :=
  Forall (λ c, match c with Call_join _ | Call_leave _ => True | _ => False end) cs.

(** Functions that return, and at most tell the module about memberships. *)
Definition quiet {A} (m : M tech_module A) : Prop :=
  ∀ s, ∃ a s' cs, m s = (Ok a, s') ∧ tm_calls s' = tm_calls s ++ cs ∧ only_memberships cs ∧
    tm_mappings s' = tm_mappings s ∧ tm_queue s' = tm_queue s ∧ tm_running s' = tm_running s.

Lemma quiet_pure {A} (m : M tech_module A) a f :
  (∀ s, m s = (Ok (a s), f s) ∧ tm_calls (f s) = tm_calls s ∧ tm_mappings (f s) = tm_mappings s ∧
        tm_queue (f s) = tm_queue s ∧ tm_running (f s) = tm_running s) → quiet m.
Proof.
  intros Hm s. destruct (Hm s) as (E & ? & ? & ? & ?). exists (a s), (f s), []. rewrite app_nil_r.
  split_and!; [done|done|constructor|done..].
Qed.

Lemma quiet_ret {A} (a : A) : quiet (mret a).
Proof. by apply (quiet_pure _ (λ _, a) id). Qed.

Lemma quiet_gets {A} (f : tech_module → A) : quiet (gets f).
Proof. by apply (quiet_pure _ f id). Qed.

Lemma quiet_modify f :
  (∀ s, tm_calls (f s) = tm_calls s ∧ tm_mappings (f s) = tm_mappings s ∧
        tm_queue (f s) = tm_queue s ∧ tm_running (f s) = tm_running s) → quiet (modify f).
Proof. intros Hf. by apply (quiet_pure _ (λ _, tt) f). Qed.

Lemma quiet_bind {A B} (m : M tech_module A) (k : A → M tech_module B) :
  quiet m → (∀ a, quiet (k a)) → quiet (m ≫= k).
Proof.
  intros Hm Hk s. destruct (Hm s) as (a & s1 & cs & E & Hc & Hcs & Em & Eq & Er).
  destruct (Hk a s1) as (b & s2 & cs' & E' & Hc' & Hcs' & Em' & Eq' & Er').
  exists b, s2, (cs ++ cs'). step_ok E. rewrite Hc' Hc -app_assoc.
  split_and!; [done|done|by apply Forall_app|congruence..].
Qed.

Lemma quiet_for_each {A} (l : list A) body : (∀ x, quiet (body x)) → quiet (for_each l body).
Proof. intros Hb. induction l; [apply quiet_ret|by apply quiet_bind]. Qed.

Lemma quiet_record c : only_memberships [c] → quiet (record_call c).
Proof. intros Hc s. eexists tt, _, [c]. split; [reflexivity|]. done. Qed.

Lemma quiet_if {A} (b : bool) (m m' : M tech_module A) : quiet m → quiet m' → quiet (if b then m else m').
Proof. by destruct b. Qed.

#[local] Hint Resolve quiet_ret quiet_gets quiet_if : core.

Lemma quiet_call_join u : quiet (call_join fns u).
Proof. apply quiet_bind; [apply quiet_record; by repeat constructor|intros _; apply quiet_ret]. Qed.
Lemma quiet_call_leave u : quiet (call_leave fns u).
Proof. apply quiet_bind; [apply quiet_record; by repeat constructor|intros _; apply quiet_ret]. Qed.
#[local] Hint Resolve quiet_call_join quiet_call_leave : core.

Lemma quiet_add who m u : quiet (add who m u).
Proof.
  apply quiet_bind; [by apply (quiet_pure _ id id)|]. intros s. cbn zeta. case_match.
  - repeat (apply quiet_bind; [by apply quiet_modify|intros _]). done.
  - case_bool_decide; [done|]. apply quiet_bind; [by apply quiet_modify|done].
Qed.

Lemma quiet_del stale who m u : quiet (del stale who m u).
Proof.
  apply quiet_bind; [by apply (quiet_pure _ id id)|]. intros s.
  destruct (tm_joins s !! uri_str m) as [j|]; [|done]. cbn zeta. case_bool_decide; [|done]. cbn zeta. destruct (erase_first who (je_socks j)).
  - repeat (apply quiet_bind; [by apply quiet_modify|intros _]). done.
  - apply quiet_bind; [by apply quiet_modify|done].
Qed.

Lemma quiet_del_from_lists who keys : quiet (del_from_lists who keys).
Proof.
  induction keys as [|k keys IH]; [apply quiet_ret|]. cbn [del_from_lists].
  apply quiet_bind; [by apply (quiet_pure _ id id)|intros s]. apply quiet_bind.
  - destruct (tm_joins s !! k) as [j|]; [|done]. case_bool_decide; [|done]. cbn zeta.
    apply quiet_bind; [by apply quiet_modify|intros _]. destruct (erase_first who (je_socks j)); [|done].
    apply quiet_bind; [by apply quiet_modify|done].
  - intros e. by apply quiet_bind.
Qed.

Lemma quiet_del_all who : quiet (del_all fns who).
Proof.
  apply quiet_bind; [done|intros keys]. apply quiet_bind; [apply quiet_del_from_lists|intros gs].
  apply quiet_for_each. intros g. apply quiet_bind; [by apply quiet_modify|done].
Qed.

Definition is_kill (msg : tm_msg) : bool := match msg with kill_t => true | _ => false end.

(** What processing one message does for the module. *)
Definition processed (msg : tm_msg) (s : tech_module) (r : tm_reply) (s' : tech_module) (cs : list module_call) : Prop :=
  process fns 0 msg s = (Ok r, s') ∧ names_kept s' ∧ tm_queue s' = tm_queue s ∧
  tm_running s' = tm_running s && negb (is_kill msg) ∧ tm_calls s' = tm_calls s ++ cs ∧
  (cs ≫= sendto_of) = sent_packet msg ∧ Forall (λ c, deletes c = is_kill msg) cs.

Lemma memberships_send_nothing cs :
  only_memberships cs → (cs ≫= sendto_of) = [] ∧ Forall (λ c, deletes c = false) cs.
Proof.
  induction 1 as [|c cs Hc _ [IH1 IH2]]; [done|]. cbn [mbind list_bind]. destruct c; try done.
  all: split; [exact IH1|by constructor].
Qed.

(** A request that looks a group up and goes on quietly. *)
Lemma lookup_then {B} u (k : uri → M tech_module B) s :
  tm_ok s → names_kept s → uri_empty u = false → (∀ m, quiet (k m)) →
  ∃ r s' cs, (lookup_mapping fns u ≫= k) s = (Ok r, s') ∧ names_kept s' ∧ tm_queue s' = tm_queue s ∧
    tm_running s' = tm_running s ∧ tm_calls s' = tm_calls s ++ cs ∧ only_memberships cs.
Proof.
  intros Hok Hn Hu Hk.
  destruct (local_lookup u s Hok Hn) as (r & s1 & E & _ & Hn1 & _ & Hc & Hq & Hr & Hm). rewrite Hu in Hm.
  destruct Hm as (m & -> & _). destruct (Hk m s1) as (b & s2 & cs & E2 & Hc2 & Hcs & Em & Eq & Er).
  exists b, s2, cs. step_ok E. split_and!; [done| |congruence..|done].
  destruct Hn1 as [Hf1 Hr1]. split; by rewrite Em.
Qed.

(** One message: the worker replies, keeps its invariants, and passes the
    packet of a job to the module. *)
Lemma local_process msg s :
  tm_ok s → names_kept s → named msg → ∃ r s' cs, processed msg s r s' cs.
Proof.
  intros Hok Hn Hnm. destruct msg as [u|j|u who|u who|who|].
  - destruct (lookup_then u (λ result, mret (Set_uri result)) s) as (r & s' & cs & E & H1 & H2 & H3 & H4 & H5); [done..|].
    destruct (memberships_send_nothing cs H5). exists r, s', cs. split_and!; try done. by rewrite andb_true_r.
  - destruct (local_lookup (sj_receiver j) s Hok Hn) as (r & s1 & E & _ & Hn1 & _ & Hc & Hq & Hr & Hm).
    exists (Released j). rewrite /processed. cbn [process sent_packet]. destruct (uri_empty (sj_receiver j)).
    + destruct Hm as [why ->]. exists s1, []. rewrite app_nil_r andb_true_r. split_and!; try done.
      rewrite /mbind /M_bind /try_catch E. done.
    + destruct Hm as (m & -> & Hm). eexists _, [_]. split_and!.
      * erewrite bind_ok; [reflexivity|]. rewrite /try_catch. erewrite bind_ok; [|exact E]. reflexivity.
      * done.
      * done.
      * by rewrite andb_true_r.
      * cbn. by rewrite Hc.
      * cbn. by rewrite Hm.
      * by repeat constructor.
  - destruct (lookup_then u (λ mapped, success ← add who mapped u;
      (if (success : bool) then call_join fns mapped else mret tt) ;; mret (Set_bool success)) s)
      as (r & s' & cs & E & H1 & H2 & H3 & H4 & H5); [done..| |].
    { intros m. apply quiet_bind; [apply quiet_add|]. intros b. apply quiet_bind; [by apply quiet_if|done]. }
    destruct (memberships_send_nothing cs H5). exists r, s', cs. split_and!; try done. by rewrite andb_true_r.
  - destruct (lookup_then u (λ mapped, res ← del 0 who mapped u;
      (if (res.1 : bool) && (res.2 =? 0) then call_leave fns mapped else mret tt) ;; mret (Set_bool res.1)) s)
      as (r & s' & cs & E & H1 & H2 & H3 & H4 & H5); [done..| |].
    { intros m. apply quiet_bind; [apply quiet_del|]. intros b. apply quiet_bind; [by apply quiet_if|done]. }
    destruct (memberships_send_nothing cs H5). exists r, s', cs. split_and!; try done. by rewrite andb_true_r.
  - destruct (quiet_del_all who s) as ([] & s' & cs & E & Hc & Hcs & Em & Eq & Er).
    destruct (memberships_send_nothing cs Hcs). exists (Set_bool true), s', cs. destruct Hn as [Hf Hr].
    split_and!; try done; [by cbn [process]; step_ok E|by split; rewrite Em|by rewrite andb_true_r].
  - eexists _, _, [Call_delete_instance]. split; [reflexivity|]. split_and!; try done.
    + by rewrite andb_false_r.
    + by repeat constructor.
Qed.

(** A step of the worker. *)
Lemma local_worker_step msg q s :
  tm_ok s → names_kept s → named msg → tm_running s = true → tm_queue s = msg :: q →
  ∃ r s' cs, worker_step fns 0 s = (Ok (Some r), s') ∧ tm_ok s' ∧ names_kept s' ∧ tm_queue s' = q ∧
    tm_running s' = negb (is_kill msg) ∧ tm_calls s' = tm_calls s ++ cs ∧
    (cs ≫= sendto_of) = sent_packet msg ∧ Forall (λ c, deletes c = is_kill msg) cs.
Proof.
  intros Hok Hn Hnm Hr Hq.
  destruct (local_process msg (tm_set_queue q s) (tm_ok_queue q s Hok) Hn Hnm) as (r & s' & cs & E & H1 & H2 & H3 & H4 & H5 & H6).
  exists r, s', cs. split_and!; try done.
  - rewrite /worker_step {1}/mbind /M_bind /get Hr Hq. rewrite {1}/mbind /M_bind /modify.
    rewrite {1}/mbind /M_bind /try_catch E. done.
  - pose proof (process_step fns (λ _, eq_refl) (λ _, eq_refl) msg _ (tm_ok_queue q s Hok)) as Hp.
    rewrite E in Hp. by destruct Hp.
  - by rewrite H3 /= Hr.
Qed.
End local.

(** ** Worker and loopback together

    Three threads: clients post messages to the worker's queue, the worker
    processes them and calls the module, and the receive loop of the module
    calls back.  A run is any interleaving of their steps. *)

Record lsys := {
  ls_tm : tech_module;
  ls_lb : loopback_module;
  ls_posted : list tm_msg
}.

(** The size of a message is that of its content. *)
Definition job_ok (msg : tm_msg) : Prop :=
  match msg with
  | send_job_t j => ∀ c, m_content (sj_msg j) = Some c → m_content_size (sj_msg j) = zlen c
  | _ => True
  end.

Inductive lstep : lsys → lsys → Prop :=
  | l_post s msg :
      named msg → job_ok msg →
      lstep s {| ls_tm := tm_set_queue (tm_queue (ls_tm s) ++ [msg]) (ls_tm s); ls_lb := ls_lb s;
                 ls_posted := ls_posted s ++ [msg] |}
  | l_work s r tm' lb' :
      worker_step (fns_of loopback_module) 0 (ls_tm s) = (Ok (Some r), tm') →
      for_each (drop (length (tm_calls (ls_tm s))) (tm_calls tm')) apply_call (ls_lb s) = (Ok tt, lb') →
      lstep s {| ls_tm := tm'; ls_lb := lb'; ls_posted := ls_posted s |}
  | l_recv s lb' :
      recv_loop_step (ls_lb s) = (Ok true, lb') →
      lstep s {| ls_tm := ls_tm s; ls_lb := lb'; ls_posted := ls_posted s |}.

Definition linit (id hdl n : Z) (kvps : list (option bytes * option bytes)) : lsys :=
  {| ls_tm := new_tech_module id n kvps; ls_lb := new_loopback hdl; ls_posted := [] |}.

(** The packets of messages, of calls and of the queue of loopback. *)
Definition with_content (p : option bytes * Z * bytes) : list (bytes * bytes) :=
  match p with (Some c, _, u) => [(c, u)] | _ => [] end.
Definition packets (msgs : list tm_msg) : list (bytes * bytes) := msgs ≫= λ msg, sent_packet msg ≫= with_content.
Definition pending (q : list loopback_module_msg) : list (bytes * bytes) :=
  q ≫= λ m, match m with lb_send data src => [(data, uri_str src)] | lb_kill => [] end.
Definition received (lb : loopback_module) : list (bytes * bytes) := prod_map id uri_str <$> lb_received lb.

(** The calls of the worker reach the queue. *)
Lemma apply_calls cs lb :
  Forall (λ p, ∀ c, p.1.1 = Some c → p.1.2 = zlen c) (cs ≫= sendto_of) →
  ∃ lb', for_each cs apply_call lb = (Ok tt, lb') ∧
    pending (lb_queue lb') = pending (lb_queue lb) ++ ((cs ≫= sendto_of) ≫= with_content) ∧
    lb_received lb' = lb_received lb ∧ lb_running lb' = lb_running lb ∧
    (Forall (λ c, deletes c = false) cs → lb_kill ∉ lb_queue lb → lb_kill ∉ lb_queue lb').
Proof.
  revert lb. induction cs as [|c cs IH]; intros lb Hs.
  { exists lb. rewrite /= app_nil_r. by split_and!. }
  rewrite bind_cons Forall_app in Hs. destruct Hs as [Hc Hs].
  assert (∃ lb1, apply_call c lb = (Ok tt, lb1) ∧
    pending (lb_queue lb1) = pending (lb_queue lb) ++ (sendto_of c ≫= with_content) ∧
    lb_received lb1 = lb_received lb ∧ lb_running lb1 = lb_running lb ∧
    (deletes c = false → lb_kill ∉ lb_queue lb → lb_kill ∉ lb_queue lb1)) as (lb1 & E1 & P1 & R1 & N1 & K1).
  { destruct c as [u|u|content size ttl u|]; cbn -[lb_sendto pending].
    - rewrite /lb_join /lb_event /mbind /M_bind /get. destruct (lb_handle lb); eexists; by rewrite app_nil_r.
    - rewrite /lb_leave /lb_event /mbind /M_bind /get. destruct (lb_handle lb); eexists; by rewrite app_nil_r.
    - destruct content as [c|]; cbn -[pending]; [|eexists; by rewrite app_nil_r].
      cbn in Hc. apply Forall_cons in Hc as [Hc _]. specialize (Hc c eq_refl). cbn in Hc. subst size.
      pose proof (zlen_nonneg c). rewrite (proj2 (Z.leb_le 0 (zlen c))) // Z.leb_refl.
      eexists. split; [reflexivity|]. cbn -[pending]. split_and!; [|done|done|set_solver].
      rewrite /pending bind_app /=. by rewrite ztake_all.
    - eexists. split; [reflexivity|]. cbn -[pending]. rewrite /pending bind_app /=. by split_and!. }
  destruct (IH lb1 Hs) as (lb2 & E2 & P2 & R2 & N2 & K2).
  exists lb2. cbn [for_each]. step_ok E1. split_and!; [done| |congruence..|].
  - rewrite P2 P1 -app_assoc. f_equal. by rewrite !bind_app.
  - intros [Hd Hds]%Forall_cons Hk. auto.
Qed.

(** What holds in every reachable state. *)
Definition linv (s : lsys) : Prop :=
  tm_ok (ls_tm s) ∧ names_kept (ls_tm s) ∧ Forall (λ m, named m ∧ job_ok m) (tm_queue (ls_tm s)) ∧
  received (ls_lb s) ++ pending (lb_queue (ls_lb s)) ++ packets (tm_queue (ls_tm s)) = packets (ls_posted s) ∧
  (Forall (λ m, is_kill m = false) (ls_posted s) →
     tm_running (ls_tm s) = true ∧ lb_running (ls_lb s) = true ∧ lb_kill ∉ lb_queue (ls_lb s) ∧
     Forall (λ m, is_kill m = false) (tm_queue (ls_tm s))).

Lemma linv_init id hdl n kvps : linv (linit id hdl n kvps).
Proof.
  split_and!; [apply new_tech_module_ok|by split|constructor|done|]. intros _. split_and!; [done|done|set_solver|constructor].
Qed.

Lemma packets_app m1 m2 : packets (m1 ++ m2) = packets m1 ++ packets m2.
Proof. by rewrite /packets bind_app. Qed.

(** A message the worker can take leads to a state with the invariant. *)
Lemma linv_work s msg q :
  linv s → tm_running (ls_tm s) = true → tm_queue (ls_tm s) = msg :: q →
  ∃ r tm' lb', worker_step (fns_of loopback_module) 0 (ls_tm s) = (Ok (Some r), tm') ∧
    for_each (drop (length (tm_calls (ls_tm s))) (tm_calls tm')) apply_call (ls_lb s) = (Ok tt, lb') ∧
    tm_queue tm' = q ∧ linv {| ls_tm := tm'; ls_lb := lb'; ls_posted := ls_posted s |}.
Proof.
  intros (Hok & Hn & Hq & Hp & Hk) Hr Eq. rewrite Eq in Hq. apply Forall_cons in Hq as [[Hnm Hj] Hq].
  destruct (local_worker_step loopback_module msg q (ls_tm s) Hok Hn Hnm Hr Eq)
    as (r & tm' & cs & E & Hok' & Hn' & Eq' & Er' & Ec & Es & Ed).
  destruct (apply_calls cs (ls_lb s)) as (lb' & El & P & R & N & K).
  { rewrite Es. destruct msg; try constructor. cbn. destruct (uri_empty _); [constructor|].
    repeat constructor. done. }
  exists r, tm', lb'. rewrite Ec drop_app_length. split_and!; [done..|].
  split_and!; cbn [ls_tm ls_lb ls_posted]; [done|done|by rewrite Eq'| |].
  - by rewrite -Hp Eq P Es Eq' /received R -app_assoc.
  - intros Hnk. destruct (Hk Hnk) as (_ & Hlr & Hlk & Hqk). rewrite Eq in Hqk. apply Forall_cons in Hqk as [Hmk Hqk].
    split_and!; [by rewrite Er' Hmk|by rewrite N| |by rewrite Eq']. apply K; [|done]. by rewrite Hmk in Ed.
Qed.

(** Likewise for the receive loop. *)
Lemma linv_recv s msg q :
  linv s → lb_running (ls_lb s) = true → lb_queue (ls_lb s) = msg :: q →
  ∃ lb', recv_loop_step (ls_lb s) = (Ok true, lb') ∧ lb_queue lb' = q ∧
    linv {| ls_tm := ls_tm s; ls_lb := lb'; ls_posted := ls_posted s |}.
Proof.
  intros (Hok & Hn & Hq & Hp & Hk) Hr Eq. rewrite Eq in Hp.
  destruct msg as [|data source]; eexists; rewrite /recv_loop_step {1}/mbind /M_bind /get Hr Eq.
  - split; [reflexivity|]. split; [done|]. split_and!; cbn; try done.
    intros Hnk. destruct (Hk Hnk) as (_ & _ & Hlk & _). exfalso. apply Hlk. rewrite Eq. left.
  - split; [reflexivity|]. split; [done|]. split_and!; cbn -[pending received packets]; try done.
    + by rewrite -Hp /received /lb_set_received fmap_app -app_assoc.
    + intros Hnk. destruct (Hk Hnk) as (? & ? & Hlk & ?). rewrite Eq in Hlk. split_and!; try done. set_solver.
Qed.

Lemma worker_step_inv fns stale s r s' :
  worker_step fns stale s = (Ok (Some r), s') → tm_running s = true ∧ ∃ msg q, tm_queue s = msg :: q.
Proof.
  rewrite /worker_step {1}/mbind /M_bind /get. destruct (tm_running s); [|done].
  destruct (tm_queue s); [done|]. eauto.
Qed.

Lemma recv_loop_step_inv s s' :
  recv_loop_step s = (Ok true, s') → lb_running s = true ∧ ∃ msg q, lb_queue s = msg :: q.
Proof.
  rewrite /recv_loop_step {1}/mbind /M_bind /get. destruct (lb_running s); [|done].
  destruct (lb_queue s); [done|]. eauto.
Qed.

Lemma linv_step s s' : linv s → lstep s s' → linv s'.
Proof.
  intros Hs. destruct 1 as [s msg Hnm Hj|s r tm' lb' Ew El|s lb' Er].
  - destruct Hs as (Hok & Hn & Hq & Hp & Hk).
    split_and!; cbn [ls_tm ls_lb ls_posted tm_queue tm_set_queue]; [by apply tm_ok_queue|done| | |].
    + by apply Forall_app; repeat constructor.
    + by rewrite !packets_app -Hp -!app_assoc.
    + intros [Hnk Hm]%Forall_app. destruct (Hk Hnk) as (? & ? & ? & ?). split_and!; [done..|by apply Forall_app].
  - destruct (worker_step_inv _ _ _ _ _ Ew) as (Hr & msg & q & Eq).
    destruct (linv_work s msg q Hs Hr Eq) as (r0 & tm0 & lb0 & Ew0 & El0 & _ & Hi). congruence.
  - destruct (recv_loop_step_inv _ _ Er) as (Hr & msg & q & Eq).
    destruct (linv_recv s msg q Hs Hr Eq) as (lb0 & E0 & _ & Hi). congruence.
Qed.

Lemma linv_reachable id hdl n kvps s : rtc lstep (linit id hdl n kvps) s → linv s.
Proof.
  intros Hs. assert (linv (linit id hdl n kvps)) as Hi by apply linv_init.
  induction Hs as [|s1 s2 s3 H12 _ IH]; [done|]. by apply IH, (linv_step s1).
Qed.

(** The worker and then the receive loop empty their queues. *)
Lemma drain_worker s :
  linv s → Forall (λ m, is_kill m = false) (ls_posted s) →
  ∃ s', rtc lstep s s' ∧ linv s' ∧ ls_posted s' = ls_posted s ∧ tm_queue (ls_tm s') = [].
Proof.
  remember (tm_queue (ls_tm s)) as q eqn:Eq. symmetry in Eq. revert s Eq.
  induction q as [|msg q IH]; intros s Eq Hs Hk; [by exists s|].
  pose proof Hs as (_ & _ & _ & _ & Hrun). destruct (Hrun Hk) as (Hr & _).
  destruct (linv_work s msg q Hs Hr Eq) as (r & tm' & lb' & Ew & El & Eq' & Hi).
  destruct (IH {| ls_tm := tm'; ls_lb := lb'; ls_posted := ls_posted s |} Eq' Hi Hk) as (s' & Hs' & Hi' & Ep & Et). exists s'. split_and!; [|done..].
  eapply rtc_l; [by eapply l_work|done].
Qed.

Lemma drain_recv s :
  linv s → Forall (λ m, is_kill m = false) (ls_posted s) → tm_queue (ls_tm s) = [] →
  ∃ s', rtc lstep s s' ∧ ls_posted s' = ls_posted s ∧ received (ls_lb s') = packets (ls_posted s').
Proof.
  remember (lb_queue (ls_lb s)) as q eqn:Eq. symmetry in Eq. revert s Eq.
  induction q as [|msg q IH]; intros s Eq Hs Hk Ht.
  { exists s. split_and!; [done..|]. destruct Hs as (_ & _ & _ & Hp & _). rewrite Eq Ht in Hp.
    by rewrite -Hp /= !app_nil_r. }
  pose proof Hs as (_ & _ & _ & _ & Hrun). destruct (Hrun Hk) as (_ & Hr & _).
  destruct (linv_recv s msg q Hs Hr Eq) as (lb' & El & Eq' & Hi).
  destruct (IH {| ls_tm := ls_tm s; ls_lb := lb'; ls_posted := ls_posted s |} Eq' Hi Hk Ht) as (s' & Hs' & Ep & Et). exists s'. split_and!; [|done..].
  eapply rtc_l; [by eapply l_recv|done].
Qed.

(** C6: The worker of the middleware and the module loopback deliver every
    packet.  In every interleaving of clients, worker and receive loop, what
    the module has received back is, in order and once each, the packets of
    the jobs posted first, and the others wait in the two queues; and as long
    as the instance is not deleted, the worker and the receive loop can go on
    until everything posted has been received. *)
Theorem loopback_delivers id hdl n kvps s :
  rtc lstep (linit id hdl n kvps) s →
  received (ls_lb s) ++ pending (lb_queue (ls_lb s)) ++ packets (tm_queue (ls_tm s)) = packets (ls_posted s) ∧
  (Forall (λ m, is_kill m = false) (ls_posted s) →
   ∃ s', rtc lstep s s' ∧ ls_posted s' = ls_posted s ∧ received (ls_lb s') = packets (ls_posted s)).
Proof.
  intros Hs. pose proof (linv_reachable _ _ _ _ _ Hs) as Hi. split; [by destruct Hi as (_ & _ & _ & ? & _)|].
  intros Hk. destruct (drain_worker s Hi Hk) as (s1 & H1 & Hi1 & Ep1 & Eq1).
  destruct (drain_recv s1 Hi1) as (s2 & H2 & Ep2 & Er); [by rewrite Ep1|done|].
  exists s2. split_and!; [by etrans|by rewrite Ep2|by rewrite Er Ep2 Ep1].
Qed.

Definition sample_job : tm_msg :=
  send_job_t {| sj_id := 1; sj_msg := {| m_type := 0; m_field1 := 0; m_field2 := 0; m_field3 := 0;
      m_content_size := 2; m_content := Some (str "hi") |};
    sj_receiver := uri_of (str "ham:ip:239.0.0.1"); sj_ttl := 1; sj_client := 0 |}.

Lemma loopback_delivers_witness :
  ∃ s, rtc lstep (linit 1 1 0 []) s ∧ received (ls_lb s) = [(str "hi", str "ham:ip:239.0.0.1")].
Proof.
  set (s1 := {| ls_tm := tm_set_queue [sample_job] (new_tech_module 1 0 []); ls_lb := new_loopback 1;
                ls_posted := [sample_job] |}).
  assert (rtc lstep (linit 1 1 0 []) s1) as Hs.
  { apply rtc_once. apply (l_post (linit 1 1 0 []) sample_job); [done|]. by intros c [= <-]. }
  destruct (loopback_delivers 1 1 0 [] s1 Hs) as [_ H].
  destruct H as (s2 & H2 & _ & E); [by repeat constructor|].
  exists s2. split; [exact (transitivity Hs H2)|]. rewrite E. vm_compute. reflexivity.
Defined.
