(* ===== verification/ClientChannel.v ===== *)
(** * The client's channel

    [ipc::client_channel] ([client_channel.cpp], [client_channel.hpp]): the
    client's end of the connection.  Its thread cuts the incoming stream
    into messages with a resumable state machine, dispatches them, and sends
    requests and packets.  Packets are numbered per socket, kept until they
    are acknowledged, and at most [max_pending_sends] are on the way. *)

From stdpp Require Import sorting.
From S2P Require Import Prelude Config Uri Streams WriteBuffer ReadBuffer Serialization Message.
From S2P Require Import SyncFunction.

(** ** Data *)

(** [outgoing_mcast_packet]. *)
Record omp := {
  omp_seq_nr : Z;
  omp_stm_id : Z;
  omp_sck_id : Z;
  omp_content_size : Z;
  omp_content : option bytes
}.
Definition omp_set_seq_nr n o := {| omp_seq_nr := n; omp_stm_id := omp_stm_id o;
  omp_sck_id := omp_sck_id o; omp_content_size := omp_content_size o; omp_content := omp_content o |}.

(** [outgoing_synchronous_message]: the function, the serialized arguments
    (none is the null pointer [buf]) and the future of the waiting caller. *)
Record osm := {
  osm_fid : Z;
  osm_size : Z;
  osm_data : option bytes;
  osm_fmsg : Z
}.

(** [client_channel_msg]; sockets and callbacks of the application are
    identified by numbers. *)
Inductive cc_msg :=
  | omp_t (o : omp)
  | osm_t (o : osm)
  | reg_d_ptr_t (sck_id ptr : Z)
  | reg_cb_t (fun_ : Z)
  | reg_recv_cb_t (sck_id fun_ : Z).

Inductive socket_state :=
  | uninitialized_state | socket_open_state | socket_about_to_close_state | socket_closed_state.

#[export] Instance socket_state_eq_dec : EqDecision socket_state.
Proof. solve_decision. Defined.

Record socket_data := {
  sd_pending_sends : Z;
  sd_last_sent : Z;
  sd_seq_nrs : Z;
  sd_buffer : gmap Z omp;
  sd_state : socket_state;
  sd_delayed_close : option osm;
  sd_mcast_obj : option Z;
  sd_recv_cb : option Z
}.

Definition sd_set_sends p l s := {| sd_pending_sends := p; sd_last_sent := l;
  sd_seq_nrs := sd_seq_nrs s; sd_buffer := sd_buffer s; sd_state := sd_state s;
  sd_delayed_close := sd_delayed_close s; sd_mcast_obj := sd_mcast_obj s; sd_recv_cb := sd_recv_cb s |}.
Definition sd_set_seq_nrs n s := {| sd_pending_sends := sd_pending_sends s;
  sd_last_sent := sd_last_sent s; sd_seq_nrs := n; sd_buffer := sd_buffer s; sd_state := sd_state s;
  sd_delayed_close := sd_delayed_close s; sd_mcast_obj := sd_mcast_obj s; sd_recv_cb := sd_recv_cb s |}.
Definition sd_set_buffer b s := {| sd_pending_sends := sd_pending_sends s;
  sd_last_sent := sd_last_sent s; sd_seq_nrs := sd_seq_nrs s; sd_buffer := b; sd_state := sd_state s;
  sd_delayed_close := sd_delayed_close s; sd_mcast_obj := sd_mcast_obj s; sd_recv_cb := sd_recv_cb s |}.
Definition sd_set_state t d s := {| sd_pending_sends := sd_pending_sends s;
  sd_last_sent := sd_last_sent s; sd_seq_nrs := sd_seq_nrs s; sd_buffer := sd_buffer s;
  sd_state := t; sd_delayed_close := d; sd_mcast_obj := sd_mcast_obj s; sd_recv_cb := sd_recv_cb s |}.
Definition sd_set_mcast_obj x s := {| sd_pending_sends := sd_pending_sends s;
  sd_last_sent := sd_last_sent s; sd_seq_nrs := sd_seq_nrs s; sd_buffer := sd_buffer s;
  sd_state := sd_state s; sd_delayed_close := sd_delayed_close s; sd_mcast_obj := x;
  sd_recv_cb := sd_recv_cb s |}.
Definition sd_set_recv_cb x s := {| sd_pending_sends := sd_pending_sends s;
  sd_last_sent := sd_last_sent s; sd_seq_nrs := sd_seq_nrs s; sd_buffer := sd_buffer s;
  sd_state := sd_state s; sd_delayed_close := sd_delayed_close s; sd_mcast_obj := sd_mcast_obj s;
  sd_recv_cb := x |}.

Definition has_pending_sends (s : socket_data) : bool := bool_decide (sd_buffer s ≠ ∅).

(** What the channel does for the application: hands a packet to a socket or
    a callback, releases storage of a socket, answers a request, reports an
    event. *)
Inductive cc_effect :=
  | fx_recv (d : Z) (mp : multicast_packet)
  | fx_recv_cb (cb : Z) (from : uri) (data_size : Z) (data : option bytes)
  | fx_release (d bytes_ : Z)
  | fx_response (o : osm) (msg : message)
  | fx_event (cb : Z) (event : membership_event).

(** The members the message handlers use. *)
Record app (S : Type) := {
  cc_sockets : gmap Z socket_data;
  cc_requests : gmap Z osm;
  cc_req_ids : Z;
  cc_cbs : list Z;
  cc_queue : list cc_msg;
  cc_cache : gmap bytes uri;
  cc_out : S;
  cc_log : list cc_effect
}.
Arguments cc_sockets {S}.
Arguments cc_requests {S}.
Arguments cc_req_ids {S}.
Arguments cc_cbs {S}.
Arguments cc_queue {S}.
Arguments cc_cache {S}.
Arguments cc_out {S}.
Arguments cc_log {S}.
Arguments Build_app {S}.

Section app.
Context {S : Type} `{Sink S}.
Implicit Types a : app S.

Definition cc_set_sockets x a : app S := Build_app x (cc_requests a) (cc_req_ids a) (cc_cbs a)
  (cc_queue a) (cc_cache a) (cc_out a) (cc_log a).
Definition cc_set_requests x i a : app S := Build_app (cc_sockets a) x i (cc_cbs a)
  (cc_queue a) (cc_cache a) (cc_out a) (cc_log a).
Definition cc_set_cbs x a : app S := Build_app (cc_sockets a) (cc_requests a) (cc_req_ids a) x
  (cc_queue a) (cc_cache a) (cc_out a) (cc_log a).
Definition cc_set_queue x a : app S := Build_app (cc_sockets a) (cc_requests a) (cc_req_ids a)
  (cc_cbs a) x (cc_cache a) (cc_out a) (cc_log a).
Definition cc_set_cache x a : app S := Build_app (cc_sockets a) (cc_requests a) (cc_req_ids a)
  (cc_cbs a) (cc_queue a) x (cc_out a) (cc_log a).
Definition cc_set_out x a : app S := Build_app (cc_sockets a) (cc_requests a) (cc_req_ids a)
  (cc_cbs a) (cc_queue a) (cc_cache a) x (cc_log a).
Definition cc_set_log x a : app S := Build_app (cc_sockets a) (cc_requests a) (cc_req_ids a)
  (cc_cbs a) (cc_queue a) (cc_cache a) (cc_out a) x.

Definition a_out {A} (m : M S A) : M (app S) A := zoom cc_out cc_set_out m.
Definition a_cache {A} (m : M (gmap bytes uri) A) : M (app S) A := zoom cc_cache cc_set_cache m.
Definition effect (e : cc_effect) : M (app S) unit := modify (λ a, cc_set_log (cc_log a ++ [e]) a).
Definition set_socket (sid : Z) (sd : socket_data) : M (app S) unit :=
  modify (λ a, cc_set_sockets (<[sid := sd]> (cc_sockets a)) a).
Definition cc_push (m : cc_msg) : M (app S) unit := modify (λ a, cc_set_queue (cc_queue a ++ [m]) a).

(** ** Flow control *)

(** The keys of the buffer within [from, to], in order. *)
Definition keys_between (from to : Z) (b : gmap Z omp) : list Z :=
  filter (λ k, from <= k <= to) (merge_sort Z.le (elements (dom b))).

(** What a packet takes in the output buffer of its socket. *)
Definition chunk_size (o : omp) : Z := Z.max (omp_content_size o) min_buffer_chunk.

(** [drop_smaller_or_equal_seq_nrs]: the released bytes and the socket
    afterwards. *)
Definition drop_smaller_or_equal_seq_nrs (ostm : socket_data) (seq_nr : Z) : Z * socket_data :=
  let dropped := filter (λ kv, kv.1 <= seq_nr) (sd_buffer ostm) in
  (map_fold (λ _ o n, u32 (n + chunk_size o)) 0 dropped,
   sd_set_sends (sd_pending_sends ostm - Z.of_nat (size dropped)) (sd_last_sent ostm)
     (sd_set_buffer (filter (λ kv, ¬ kv.1 <= seq_nr) (sd_buffer ostm)) ostm)).

(** A packet as [async_send] message. *)
Definition send_packet (o : omp) : M S unit :=
  serialize_as_message message_type.async_send (omp_stm_id o) (omp_sck_id o) (omp_seq_nr o)
    (omp_content_size o) (omp_content o).

(** [do_send]: the packets [from..to] of the buffer.  The iterators run from
    [find(from)] to [upper_bound(to)]; when the end lies before the
    beginning the loop leaves the map. *)
Definition do_send (ostm : socket_data) (from to : Z) : M S socket_data :=
  match sd_buffer ostm !! from with
  | None => mret ostm
  | Some _ =>
      if (to <? from) && bool_decide (keys_between (to + 1) (from - 1) (sd_buffer ostm) ≠ []) then
        ub "iterator past the end of a map"
      else
        let ks := keys_between from to (sd_buffer ostm) in
        for_each ks (λ k, match sd_buffer ostm !! k with Some o => send_packet o | None => mret tt end) ;;
        sink_flush ;;
        mret (sd_set_sends (sd_pending_sends ostm + zlen ks) (u32 (sd_last_sent ostm + zlen ks)) ostm)
  end.

(** ** Messages from the middleware *)

(** The first value of a serialized content. *)
Definition first_value (c : codec Z) (size : Z) (data : option bytes) : M (app S) Z :=
  a_cache (from_content c size data).

(** A value and the memory behind it. *)
Definition from_content_rest {A} (c : codec A) (size : Z) (content : option bytes) :
    M (gmap bytes uri) (A * option bytes) := λ cache,
  let '(r, d) := c_des c (Build_dstate (new_read_buffer (cb_view size content)) cache) in
  (match r with Ok x => Ok (x, rb_data (d_src d)) | Throw e => Throw e | UB y => UB y end, d_cache d).

Definition find_socket (sid : Z) : M (app S) (option socket_data) :=
  gets (λ a, cc_sockets a !! sid).

(** The constructor of [socket_data] leaves [last_sent] as it is. *)
Context (junk : Z).
Definition new_socket_data : socket_data :=
  {| sd_pending_sends := 0; sd_last_sent := junk; sd_seq_nrs := 0; sd_buffer := ∅;
     sd_state := uninitialized_state; sd_delayed_close := None; sd_mcast_obj := None;
     sd_recv_cb := None |}.

(** [wiretap]: the channel learns of created and deleted sockets. *)
Definition wiretap (request : osm) (resp : message) : M (app S) unit :=
  if negb (srs_exc_id (view_sync_response resp) =? eid_none) then mret tt
  else
    match function_id_of (osm_fid request) with
    | Some fid_create_socket =>
        require (bool_decide (is_Some (m_content resp))) "resp_view.content()" ;;
        sid ← first_value c_u32 (m_content_size resp) (m_content resp);
        o ← find_socket sid;
        require (bool_decide (o = None)) "smap.insert(std::make_pair(sid, socket_data())).second" ;;
        set_socket sid new_socket_data
    | Some fid_create_send_stream =>
        require (bool_decide (is_Some (m_content resp)) && bool_decide (is_Some (osm_data request)))
          "resp_view.content() && request->buf" ;;
        first_value c_u16 (m_content_size resp) (m_content resp) ;;
        sck_id ← first_value c_u32 (osm_size request) (osm_data request);
        o ← find_socket sck_id;
        require (bool_decide (is_Some o)) "i != smap.end()"
    | Some fid_delete_socket =>
        require (bool_decide (is_Some (osm_data request))) "request->buf" ;;
        sck_id ← first_value c_u32 (osm_size request) (osm_data request);
        o ← find_socket sck_id;
        match o with
        | Some sd => set_socket sck_id (sd_set_state socket_closed_state (sd_delayed_close sd) sd)
        | None => throw (requirement_failed "i != smap.end()")
        end
    | _ => mret tt
    end.

(** [multicast_socket::release_storage] through the socket's pointer. *)
Definition release_storage (d : option Z) (bytes_ : Z) : M (app S) unit :=
  match d with
  | Some d => effect (fx_release d (Z.max (i32 bytes_) min_buffer_chunk))
  | None => ub "release_storage through a null pointer"
  end.

(** The [async_recv] case; the result tells whether the content was
    skipped. *)
Definition deliver_recv (m : message) : M (app S) bool :=
  require (0 <? m_content_size m) "m_content_size > 0" ;;
  o ← find_socket (m_field2 m);
  match o with
  | None => mret false
  | Some sdata =>
      match sd_mcast_obj sdata, sd_recv_cb sdata with
      | Some d, _ =>
          mp ← a_cache (from_content c_packet (m_content_size m) (m_content m));
          effect (fx_recv d mp) ;;
          mret true
      | None, Some cb =>
          p ← a_cache (from_content_rest (c_pair c_uri c_u32) (m_content_size m) (m_content m));
          effect (fx_recv_cb cb p.1.1 p.1.2 p.2) ;;
          mret true
      | None, None => mret false
      end
  end.

(** The [sync_response] case. *)
Definition deliver_response (m : message) : M (app S) bool :=
  msg ← message_create (m_type m) (m_field1 m) (m_field2 m) (m_field3 m) (m_content_size m) (m_content m);
  let rid := srs_req_id (view_sync_response msg) in
  a ← get;
  match cc_requests a !! rid with
  | None => mret true
  | Some o =>
      modify (cc_set_requests (delete rid (cc_requests a)) (cc_req_ids a)) ;;
      wiretap o msg ;;
      effect (fx_response o msg) ;;
      mret true
  end.

(** The [retransmit] case. *)
Definition deliver_retransmit (m : message) : M (app S) bool :=
  require (m_content_size m =? 0) "m_content_size == 0" ;;
  o ← find_socket (m_field2 m);
  match o with
  | Some sdata =>
      sdata' ← a_out (do_send sdata (m_field3 m) (sd_last_sent sdata));
      set_socket (m_field2 m) sdata' ;;
      a_out sink_flush ;;
      mret true
  | None => mret true
  end.

(** The [cumulative_ack] case. *)
Definition deliver_ack (m : message) : M (app S) bool :=
  require (m_content_size m =? 0) "m_content_size == 0" ;;
  o ← find_socket (m_field2 m);
  match o with
  | Some sdata =>
      let '(released, sdata1) := drop_smaller_or_equal_seq_nrs sdata (m_field3 m) in
      set_socket (m_field2 m) sdata1 ;;
      release_storage (sd_mcast_obj sdata1) released ;;
      sdata2 ← (if sd_pending_sends sdata1 <? max_pending_sends then
                  let from := u32 (sd_last_sent sdata1 + 1) in
                  let to := u32 (from + (max_pending_sends - sd_pending_sends sdata1)) in
                  a_out (do_send sdata1 from to)
                else mret sdata1);
      set_socket (m_field2 m) sdata2 ;;
      (if bool_decide (sd_state sdata2 = socket_about_to_close_state) && negb (has_pending_sends sdata2) then
         match sd_delayed_close sdata2 with
         | Some d =>
             cc_push (osm_t d) ;;
             set_socket (m_field2 m) (sd_set_state (sd_state sdata2) None sdata2)
         | None => mret tt
         end
       else mret tt) ;;
      a_out sink_flush ;;
      mret true
  | None => mret true
  end.

(** The [async_event] case: the content is read but not skipped. *)
Definition event_type_of (v : Z) : option membership_event_type :=
  if v =? 1 then Some join_event else if v =? 2 then Some leave_event
  else if v =? 3 then Some new_source_event else None.
Definition deliver_event_msg (m : message) : M (app S) bool :=
  grp ← a_cache (from_content c_uri (m_content_size m) (m_content m));
  if uri_empty grp then throw (logic_error "empty group name")
  else
    match event_type_of (m_field1 m) with
    | None => throw (logic_error "invalid event type")
    | Some met =>
        cbs ← gets cc_cbs;
        for_each cbs (λ cb, effect (fx_event cb (new_membership_event grp (m_field2 m) met))) ;;
        mret false
    end.

(** The switch over the message type. *)
Definition deliver (m : message) : M (app S) bool :=
  if m_type m =? message_type.async_recv then deliver_recv m
  else if m_type m =? message_type.sync_response then deliver_response m
  else if m_type m =? message_type.retransmit then deliver_retransmit m
  else if m_type m =? message_type.cumulative_ack then deliver_ack m
  else if m_type m =? message_type.async_event then deliver_event_msg m
  else throw (logic_error "invalid message type").
End app.

(** ** Messages from the application *)

Section poll.
Context {S : Type} `{Sink S} (junk : Z).

(** [m_sockets[sid]]: inserts a default element. *)
Definition socket_at (sid : Z) : M (app S) socket_data :=
  gets (λ a, default (new_socket_data junk) (cc_sockets a !! sid)).

(** The [omp_t] case: number the packet, send it when it is next and not too
    many are pending, and keep it. *)
Definition send_mcast (o : omp) : M (app S) unit :=
  sd ← find_socket (omp_sck_id o);
  match sd with
  | None => mret tt
  | Some sdata =>
      let o := omp_set_seq_nr (sd_seq_nrs sdata) o in
      let sdata := sd_set_seq_nrs (u32 (sd_seq_nrs sdata + 1)) sdata in
      sdata ← (if ((omp_seq_nr o =? 0) || (omp_seq_nr o =? u32 (sd_last_sent sdata + 1)))
                  && (sd_pending_sends sdata <? max_pending_sends) then
                 a_out (send_packet o) ;;
                 a_out sink_flush ;;
                 mret (sd_set_sends (sd_pending_sends sdata + 1) (omp_seq_nr o) sdata)
               else mret sdata);
      set_socket (omp_sck_id o) (sd_set_buffer
        (match sd_buffer sdata !! omp_seq_nr o with
         | Some _ => sd_buffer sdata
         | None => <[omp_seq_nr o := o]> (sd_buffer sdata)
         end) sdata)
  end.

(** The [osm_t] case: closing a socket waits until its packets are
    acknowledged. *)
Definition send_request (o : osm) : M (app S) unit :=
  do_not_send ←
    (if osm_fid o =? function_id_value fid_delete_socket then
       sck_id ← first_value c_u32 (osm_size o) (osm_data o);
       sd ← find_socket sck_id;
       match sd with
       | None => throw (requirement_failed "i != m_sockets.end()")
       | Some sdata =>
           if has_pending_sends sdata then
             set_socket sck_id (sd_set_state socket_about_to_close_state (Some o) sdata) ;; mret true
           else mret false
       end
     else mret false);
  if (do_not_send : bool) then mret tt
  else
    a ← get;
    let rid := cc_req_ids a in
    modify (cc_set_requests (cc_requests a) (u32 (rid + 1))) ;;
    a_out (serialize_as_message message_type.sync_request (osm_fid o) rid 0 (u32 (osm_size o)) (osm_data o)) ;;
    a_out sink_flush ;;
    modify (λ a, cc_set_requests (<[rid := o]> (cc_requests a)) (cc_req_ids a) a).

Definition handle_cc_msg (e : cc_msg) : M (app S) unit :=
  match e with
  | reg_d_ptr_t sid ptr => sd ← socket_at sid; set_socket sid (sd_set_mcast_obj (Some ptr) sd)
  | reg_recv_cb_t sid fn => sd ← socket_at sid; set_socket sid (sd_set_recv_cb (Some fn) sd)
  | omp_t o => send_mcast o
  | osm_t o => send_request o
  | reg_cb_t fn => modify (λ a, cc_set_cbs (cc_cbs a ++ [fn]) a)
  end.

(** [poll_messages]; the serializer flushes at the end of its scope. *)
Fixpoint cc_poll_loop (num : nat) : M (app S) unit :=
  match num with
  | O => mret tt
  | Datatypes.S num' =>
      q ← gets cc_queue;
      match q with
      | [] => throw (requirement_failed "e != 0")
      | e :: q' => modify (cc_set_queue q') ;; handle_cc_msg e ;; cc_poll_loop num'
      end
  end.
Definition cc_poll_messages (num : nat) : M (app S) unit := cc_poll_loop num ;; a_out sink_flush.
End poll.

(** ** The reading state machine *)

Inductive rd_state :=
  | rd_msg_type | rd_field1 | rd_field2 | rd_field3 | rd_content_size | rd_content.

#[export] Instance rd_state_eq_dec : EqDecision rd_state.
Proof. solve_decision. Defined.

(** The reader's members: the state, the fields read so far, the buffer of
    received bytes and the view on it. *)
Record reader := {
  rd_st : rd_state;
  rd_type : Z;
  rd_f1 : Z;
  rd_f2 : Z;
  rd_f3 : Z;
  rd_size : Z;
  rd_wb : write_buffer;
  rd_buf : read_buffer
}.

Definition rd_set_state x r := {| rd_st := x; rd_type := rd_type r; rd_f1 := rd_f1 r;
  rd_f2 := rd_f2 r; rd_f3 := rd_f3 r; rd_size := rd_size r; rd_wb := rd_wb r; rd_buf := rd_buf r |}.
Definition rd_set_buf x r := {| rd_st := rd_st r; rd_type := rd_type r; rd_f1 := rd_f1 r;
  rd_f2 := rd_f2 r; rd_f3 := rd_f3 r; rd_size := rd_size r; rd_wb := rd_wb r; rd_buf := x |}.
Definition rd_set_wb x r := {| rd_st := rd_st r; rd_type := rd_type r; rd_f1 := rd_f1 r;
  rd_f2 := rd_f2 r; rd_f3 := rd_f3 r; rd_size := rd_size r; rd_wb := x; rd_buf := rd_buf r |}.
Definition rd_set_fields t f1 f2 f3 n r := {| rd_st := rd_st r; rd_type := t; rd_f1 := f1;
  rd_f2 := f2; rd_f3 := f3; rd_size := n; rd_wb := rd_wb r; rd_buf := rd_buf r |}.

Section client.
Context {S : Type} `{Sink S} {R : Type} `{Source R} (junk : Z).

Record client := {
  cl_app : app S;
  cl_rd : reader;
  cl_src : R
}.

Definition c_app {A} (m : M (app S) A) : M client A :=
  zoom cl_app (λ x c, Build_client x (cl_rd c) (cl_src c)) m.
Definition c_rd {A} (m : M reader A) : M client A :=
  zoom cl_rd (λ x c, Build_client (cl_app c) x (cl_src c)) m.

(** [try_read]: a field of [n] bytes, stored with [set]. *)
Definition try_read (n : Z) (set : Z → reader → reader) (next : rd_state) : M reader bool :=
  r ← get;
  if n <=? rb_available (rd_buf r) then
    bs ← zoom rd_buf rd_set_buf (rb_read n);
    modify (λ r, rd_set_state next (set (le_value bs) r)) ;;
    mret false
  else mret true.

(** The message in the fields, with its content at the read position. *)
Definition rd_message (r : reader) : message :=
  {| m_type := rd_type r; m_field1 := rd_f1 r; m_field2 := rd_f2 r; m_field3 := rd_f3 r;
     m_content_size := rd_size r;
     m_content := if 0 <? rd_size r then ztake (rd_size r) <$> rb_data (rd_buf r) else None |}.

(** One case of the switch; falling through to the next case is the next
    step.  The result is [finished]. *)
Definition read_step : M client bool :=
  c ← get;
  let r := cl_rd c in
  match rd_st r with
  | rd_msg_type => c_rd (try_read 2 (λ v r, rd_set_fields v (rd_f1 r) (rd_f2 r) (rd_f3 r) (rd_size r) r) rd_field1)
  | rd_field1 => c_rd (try_read 2 (λ v r, rd_set_fields (rd_type r) v (rd_f2 r) (rd_f3 r) (rd_size r) r) rd_field2)
  | rd_field2 => c_rd (try_read 4 (λ v r, rd_set_fields (rd_type r) (rd_f1 r) v (rd_f3 r) (rd_size r) r) rd_field3)
  | rd_field3 => c_rd (try_read 4 (λ v r, rd_set_fields (rd_type r) (rd_f1 r) (rd_f2 r) v (rd_size r) r) rd_content_size)
  | rd_content_size => c_rd (try_read 4 (λ v r, rd_set_fields (rd_type r) (rd_f1 r) (rd_f2 r) (rd_f3 r) v r) rd_content)
  | rd_content =>
      if (0 <? rd_size r) && (rb_available (rd_buf r) <? rd_size r) then mret true
      else
        skipped ← c_app (deliver junk (rd_message r));
        (if (skipped : bool) then c_rd (zoom rd_buf rd_set_buf (rb_skip (rd_size r))) else mret tt) ;;
        c_rd (modify (rd_set_state rd_msg_type)) ;;
        mret false
  end.

Fixpoint read_loop (fuel : nat) : M client unit :=
  match fuel with
  | O => ub "fuel"
  | Datatypes.S fuel' =>
      finished ← read_step;
      if (finished : bool) then mret tt else read_loop fuel'
  end.

(** [ipc_read]: every message takes six steps and at least sixteen bytes. *)
Definition cc_ipc_read : M client unit :=
  zoom (λ c, (rd_wb (cl_rd c), cl_src c))
    (λ p c, Build_client (cl_app c) (rd_set_wb p.1 (cl_rd c)) p.2)
    (n ← gets (λ p, wb_remaining p.1);
     append_some_from default_block_size default_max_write_buffer_size n) ;;
  c ← get;
  let wb := rd_wb (cl_rd c) in
  c_rd (zoom rd_buf rd_set_buf (rb_reset_view (wb_size wb) ((λ _, wb_contents wb) <$> wb_data wb))) ;;
  read_loop (Z.to_nat (6 * wb_size wb) + 7) ;;
  c ← get;
  c_rd (zoom rd_wb rd_set_wb (wb_erase 0 (rb_rd_pos (rd_buf (cl_rd c))))).

(** The constructor, with a buffer of the maximum size; the message fields
    are not initialised. *)
Definition new_reader : M reader unit :=
  zoom rd_wb rd_set_wb (wb_reserve default_block_size default_max_write_buffer_size
    default_max_write_buffer_size).
Definition raw_reader : reader :=
  {| rd_st := rd_msg_type; rd_type := junk; rd_f1 := junk; rd_f2 := junk; rd_f3 := junk;
     rd_size := junk; rd_wb := new_write_buffer; rd_buf := new_read_buffer (cb_view 0 None) |}.
Definition new_app (out : S) : app S := Build_app ∅ ∅ 0 [] [] ∅ out [].
Definition new_client_channel (in_ : R) (out : S) : outcome unit * client :=
  let '(o, r) := new_reader raw_reader in (o, Build_client (new_app out) r in_).

(** [on_exit]: losing the middleware ends the client. *)
Definition cc_on_exit : M client unit := throw (terminated "abort()").
End client.

(** ** Cutting the stream into messages *)

(** The number of header bytes consumed in a state, and the fields they
    determine. *)
Definition offset (st : rd_state) : Z :=
  match st with
  | rd_msg_type => 0 | rd_field1 => 2 | rd_field2 => 4 | rd_field3 => 8
  | rd_content_size => 12 | rd_content => 16
  end.

Definition slice (from n : Z) (h : bytes) : Z := le_value (ztake n (zdrop from h)).

Definition fields_of (h : bytes) (r : reader) : Prop :=
  (2 <= zlen h → rd_type r = slice 0 2 h) ∧ (4 <= zlen h → rd_f1 r = slice 2 2 h) ∧
  (8 <= zlen h → rd_f2 r = slice 4 4 h) ∧ (12 <= zlen h → rd_f3 r = slice 8 4 h) ∧
  (16 <= zlen h → rd_size r = slice 12 4 h).

(** [h] are the header bytes of the current message that were consumed. *)
Definition header_read (h : bytes) (r : reader) : Prop :=
  zlen h = offset (rd_st r) ∧ fields_of h r.

Lemma slice_app from n h k : 0 <= from → 0 <= n → from + n <= zlen h → slice from n (h ++ k) = slice from n h.
Proof.
  intros Hf Hn Hl. rewrite /slice zdrop_app_le; [lia|]. rewrite ztake_app_le; [|done].
  rewrite zlen_zdrop; lia.
Qed.

Lemma slice_last from n h k : zlen h = from → zlen k = n → slice from n (h ++ k) = le_value k.
Proof. intros <- <-. rewrite /slice zdrop_app ztake_all //. Qed.

(** The fields a header stores. *)
Lemma slice_header t f1 f2 f3 n k :
  0 <= t < 2 ^ 16 → 0 <= f1 < 2 ^ 16 → 0 <= f2 < 2 ^ 32 → 0 <= f3 < 2 ^ 32 → 0 <= n < 2 ^ 32 →
  let e := enc_header t f1 f2 f3 n ++ k in
  slice 0 2 e = t ∧ slice 2 2 e = f1 ∧ slice 4 4 e = f2 ∧ slice 8 4 e = f3 ∧ slice 12 4 e = n.
Proof.
  intros Ht H1 H2 H3 Hn e.
  assert (∀ p w v q, 0 <= v < 256 ^ Z.of_nat w → slice (zlen p) (Z.of_nat w) (p ++ le_bytes w v ++ q) = v) as Hs.
  { intros p w v q Hv. rewrite /slice zdrop_app -{1}(zlen_le_bytes w v) ztake_app.
    by apply le_value_le_bytes. }
  rewrite /e /enc_header -!app_assoc. split_and!.
  - by apply (Hs [] 2%nat).
  - by apply (Hs (le_bytes 2 t) 2%nat).
  - rewrite app_assoc. by apply (Hs (le_bytes 2 t ++ le_bytes 2 f1) 4%nat).
  - rewrite 2!app_assoc. by apply (Hs ((le_bytes 2 t ++ le_bytes 2 f1) ++ le_bytes 4 f2) 4%nat).
  - rewrite 3!app_assoc. by apply (Hs (((le_bytes 2 t ++ le_bytes 2 f1) ++ le_bytes 4 f2) ++ le_bytes 4 f3) 4%nat).
Qed.

(** A stream that does not hold a whole message. *)
Definition incomplete (d : bytes) : Prop :=
  zlen d < header_size ∨ zlen d < header_size + slice 12 4 d.

(** Every byte sequence starts with the header its fields determine. *)
Lemma enc_header_slices d :
  16 <= zlen d →
  enc_header (slice 0 2 d) (slice 2 2 d) (slice 4 4 d) (slice 8 4 d) (slice 12 4 d) = ztake 16 d.
Proof.
  intros Hl.
  assert (∀ from w, 0 <= from → 0 <= Z.of_nat w → from + Z.of_nat w <= zlen d →
    le_bytes w (slice from (Z.of_nat w) d) = ztake (Z.of_nat w) (zdrop from d)) as Hs.
  { intros from w Hf Hw Hfit. rewrite /slice.
    rewrite -(le_bytes_le_value (ztake (Z.of_nat w) (zdrop from d))). f_equal; [|by rewrite le_bytes_le_value].
    apply Nat2Z.inj. rewrite -/(zlen _) zlen_ztake; [|done]. rewrite zlen_zdrop; lia. }
  assert (∀ a b, 0 <= a → 0 <= b → ztake a d ++ ztake b (zdrop a d) = ztake (a + b) d) as Hc.
  { intros a b Ha Hb. rewrite /ztake /zdrop take_take_drop. f_equal. lia. }
  rewrite /enc_header (Hs 0 2%nat) ?(Hs 2 2%nat) ?(Hs 4 4%nat) ?(Hs 8 4%nat) ?(Hs 12 4%nat); try lia.
  rewrite zdrop_0 !app_assoc. rewrite !Hc; lia || done.
Qed.

Lemma rb_read_buf n s : rb_buf (rb_read n s).2 = rb_buf s.
Proof.
  rewrite /rb_read /mbind /M_bind /gets. destruct (_ <=? _); [|done].
  rewrite /rb_do_copy /mbind /M_bind /get. destruct (cb_data (rb_buf s)) as [d|].
  - by destruct (_ <=? _).
  - by destruct (_ =? _).
Qed.

Section reading.
Context {S : Type} `{Sink S} {R : Type} `{Source R} (junk : Z).
Implicit Types c : @client S R.
Implicit Types a : app S.

(** The messages whose content the reader skips: all but events, and packets
    for sockets that have no receiver. *)
Definition skips (m : message) (a : app S) : bool :=
  if m_type m =? message_type.async_recv then
    match cc_sockets a !! m_field2 m with
    | Some sd => bool_decide (is_Some (sd_mcast_obj sd) ∨ is_Some (sd_recv_cb sd))
    | None => false
    end
  else negb (m_type m =? message_type.async_event).

(** What the reader makes of a stream: it delivers the first message and
    goes on behind its content, or behind its header when the content is
    not skipped, until no whole message is left or the delivery fails. *)
Inductive streams : bytes → app S → outcome bytes → app S → Prop :=
  | streams_stop d a : incomplete d → streams d a (Ok d) a
  | streams_message m d a a1 skipped rest a' :
      rep_message m → deliver junk m a = (Ok skipped, a1) →
      streams ((if skips m a then [] else default [] (m_content m)) ++ d) a1 rest a' →
      streams (enc_message m ++ d) a rest a'
  | streams_throw m d a a1 e :
      rep_message m → deliver junk m a = (Throw e, a1) → streams (enc_message m ++ d) a (Throw e) a1
  | streams_ub m d a a1 w :
      rep_message m → deliver junk m a = (UB w, a1) → streams (enc_message m ++ d) a (UB w) a1.

(** The messages of a list one after the other, and that each content is
    skipped (or empty) until the end or the first failure. *)
Definition deliver_all (ms : list message) : M (app S) unit := for_each ms (λ m, deliver junk m ;; mret tt).

Fixpoint all_skipped (ms : list message) (a : app S) : bool :=
  match ms with
  | [] => true
  | m :: ms' =>
      match deliver junk m a with
      | (Ok _, a') => (skips m a || (m_content_size m =? 0)) && all_skipped ms' a'
      | _ => true
      end
  end.

(** The same end of another computation. *)
Definition outcome_map {A B : Type} (f : A → B) (o : outcome A) : outcome B :=
  match o with Ok x => Ok (f x) | Throw e => Throw e | UB w => UB w end.

Lemma deliver_recv_skips m a b a' :
  deliver_recv m a = (Ok b, a') →
  b = match cc_sockets a !! m_field2 m with
      | Some sd => bool_decide (is_Some (sd_mcast_obj sd) ∨ is_Some (sd_recv_cb sd))
      | None => false
      end.
Proof.
  intros E. rewrite /deliver_recv in E. inv_bind E as u s1 E1. apply require_inv in E1 as [-> _].
  inv_bind E as o s2 E2. injection E2 as <- <-.
  destruct (cc_sockets a !! m_field2 m) as [sd|]; [|by injection E].
  destruct (sd_mcast_obj sd) as [d|]; [|destruct (sd_recv_cb sd) as [cb|]].
  - inv_bind E as mp s3 E3. inv_bind E as v s4 E4. injection E as <- _. rewrite bool_decide_eq_true_2; eauto.
  - inv_bind E as p s3 E3. inv_bind E as v s4 E4. injection E as <- _. rewrite bool_decide_eq_true_2; eauto.
  - injection E as <- _. rewrite bool_decide_eq_false_2; [|done]. by intros [[? ?]|[? ?]].
Qed.

Lemma deliver_response_skips m a b a' : deliver_response junk m a = (Ok b, a') → b = true.
Proof.
  intros E. rewrite /deliver_response in E. inv_bind E as msg s1 E1. inv_bind E as a2 s2 E2.
  destruct (cc_requests a2 !! _); [|by injection E].
  inv_bind E as u1 s3 E3. inv_bind E as u2 s4 E4. inv_bind E as u3 s5 E5. by injection E.
Qed.

Lemma deliver_retransmit_skips m a b a' : deliver_retransmit m a = (Ok b, a') → b = true.
Proof.
  intros E. rewrite /deliver_retransmit in E. inv_bind E as u s1 E1. inv_bind E as o s2 E2.
  destruct o as [sd|]; [|by injection E].
  inv_bind E as u1 s3 E3. inv_bind E as u2 s4 E4. inv_bind E as u3 s5 E5. by injection E.
Qed.

Lemma deliver_ack_skips m a b a' : deliver_ack m a = (Ok b, a') → b = true.
Proof.
  intros E. rewrite /deliver_ack in E. inv_bind E as u s1 E1. inv_bind E as o s2 E2.
  destruct o as [sd|]; [|by injection E]. destruct (drop_smaller_or_equal_seq_nrs _ _) as [rel sd1].
  inv_bind E as u1 s3 E3. inv_bind E as u2 s4 E4. inv_bind E as u3 s5 E5. inv_bind E as u4 s6 E6.
  inv_bind E as u5 s7 E7. inv_bind E as u6 s8 E8. by injection E.
Qed.

Lemma deliver_event_skips m a b a' : deliver_event_msg m a = (Ok b, a') → b = false.
Proof.
  intros E. rewrite /deliver_event_msg in E. inv_bind E as grp s1 E1. destruct (uri_empty grp); [done|].
  destruct (event_type_of _); [|done]. inv_bind E as u1 s2 E2. inv_bind E as u2 s3 E3. by injection E.
Qed.

(** [skips] says which contents are skipped. *)
Lemma deliver_skips m a b a' : deliver junk m a = (Ok b, a') → b = skips m a.
Proof.
  rewrite /deliver /skips. destruct (Z.eqb_spec (m_type m) message_type.async_recv) as [|N1]; [apply deliver_recv_skips|].
  destruct (Z.eqb_spec (m_type m) message_type.sync_response) as [->|N2]; [apply deliver_response_skips|].
  destruct (Z.eqb_spec (m_type m) message_type.retransmit) as [->|N3]; [apply deliver_retransmit_skips|].
  destruct (Z.eqb_spec (m_type m) message_type.cumulative_ack) as [->|N4]; [apply deliver_ack_skips|].
  destruct (Z.eqb_spec (m_type m) message_type.async_event) as [|N5]; [apply deliver_event_skips|done].
Qed.

(** The width of the next field and the state after it. *)
Definition next_field (st : rd_state) : option (Z * rd_state) :=
  match st with
  | rd_msg_type => Some (2, rd_field1) | rd_field1 => Some (2, rd_field2)
  | rd_field2 => Some (4, rd_field3) | rd_field3 => Some (4, rd_content_size)
  | rd_content_size => Some (4, rd_content) | rd_content => None
  end.

Lemma read_field_wait c n st :
  next_field (rd_st (cl_rd c)) = Some (n, st) → rb_ok (rd_buf (cl_rd c)) →
  zlen (rb_rest (rd_buf (cl_rd c))) < n → read_step junk c = (Ok true, c).
Proof.
  intros Hn Hok Hl. rewrite /read_step {1}/mbind /M_bind /get.
  destruct (rd_st (cl_rd c)); simplify_eq/=;
    rewrite /c_rd /zoom /try_read {1}/mbind /M_bind /get (rb_available_rest _ Hok)
      (proj2 (Z.leb_gt _ _) Hl); by destruct c.
Qed.

Lemma read_field_ok c h n st :
  next_field (rd_st (cl_rd c)) = Some (n, st) → rb_ok (rd_buf (cl_rd c)) → header_read h (cl_rd c) →
  n <= zlen (rb_rest (rd_buf (cl_rd c))) →
  ∃ r, read_step junk c = (Ok false, Build_client (cl_app c) r (cl_src c)) ∧ rd_st r = st ∧
    rd_wb r = rd_wb (cl_rd c) ∧ rb_buf (rd_buf r) = rb_buf (rd_buf (cl_rd c)) ∧ rb_ok (rd_buf r) ∧
    rb_rest (rd_buf r) = zdrop n (rb_rest (rd_buf (cl_rd c))) ∧
    header_read (h ++ ztake n (rb_rest (rd_buf (cl_rd c)))) r.
Proof.
  intros Hn Hok [Hh Hf] Hl.
  assert (0 <= n) as Hn0 by (destruct (rd_st (cl_rd c)); simplify_eq/=; lia).
  destruct (rb_read_ok n (rd_buf (cl_rd c)) Hok ltac:(lia)) as (b & Hb & Hokb & Hrb).
  pose proof (rb_read_buf n (rd_buf (cl_rd c))) as Hbuf. rewrite Hb in Hbuf. simpl in Hbuf.
  set (bs := ztake n (rb_rest (rd_buf (cl_rd c)))) in *.
  assert (zlen bs = n) as Hbs by (rewrite zlen_ztake; lia).
  rewrite /read_step {1}/mbind /M_bind /get.
  destruct Hf as (F1 & F2 & F3 & F4 & F5).
  destruct (rd_st (cl_rd c)) eqn:Est; simplify_eq/=;
    rewrite /c_rd /zoom /try_read {1}/mbind /M_bind /get (rb_available_rest _ Hok)
      (proj2 (Z.leb_le _ _) Hl) {1}/mbind /M_bind /zoom Hb /modify;
    (eexists; split; [done|]); cbn -[bs zlen offset Z.le]; (split_and!; try done);
    rewrite /header_read /fields_of zlen_app Hbs Hh; cbn -[bs slice Z.le]; (split; [done|]);
    split_and!; intros Hx; try lia;
    first [ by rewrite (slice_last _ _ _ _ Hh Hbs)
          | rewrite slice_app; [lia|lia|rewrite Hh /=; lia|];
            first [apply F1; lia | apply F2; lia | apply F3; lia | apply F4; lia] ].
Qed.

(** The content of the current message has arrived: it is delivered. *)
Lemma read_content_delivers c m d' h :
  rd_st (cl_rd c) = rd_content → rb_ok (rd_buf (cl_rd c)) → header_read h (cl_rd c) → rep_message m →
  h ++ rb_rest (rd_buf (cl_rd c)) = enc_message m ++ d' →
  rb_rest (rd_buf (cl_rd c)) = default [] (m_content m) ++ d' ∧
  read_step junk c =
    (skipped ← c_app (deliver junk m);
     (if (skipped : bool) then c_rd (zoom rd_buf rd_set_buf (rb_skip (m_content_size m))) else mret tt) ;;
     c_rd (modify (rd_set_state rd_msg_type)) ;;
     mret false) c.
Proof.
  intros Est Hok [Hh Hf] Hrep Hd. rewrite Est /= in Hh.
  pose proof Hrep as ((B1 & B2 & B3 & B4 & B5) & _ & Hlen).
  set (e := enc_header (m_type m) (m_field1 m) (m_field2 m) (m_field3 m) (m_content_size m)).
  assert (zlen e = 16) as He by apply enc_header_size.
  assert (h = e ∧ rb_rest (rd_buf (cl_rd c)) = default [] (m_content m) ++ d') as [-> Hrest].
  { rewrite /enc_message -/e -app_assoc in Hd. apply app_inj_1 in Hd; [done|].
    rewrite /zlen in Hh He. lia. }
  destruct Hf as (F1 & F2 & F3 & F4 & F5).
  destruct (slice_header _ _ _ _ _ [] B1 B2 B3 B4 B5) as (G1 & G2 & G3 & G4 & G5).
  rewrite -/e app_nil_r in G1 G2 G3 G4 G5. rewrite He in F1 F2 F3 F4 F5.
  rewrite G1 in F1. rewrite G2 in F2. rewrite G3 in F3. rewrite G4 in F4. rewrite G5 in F5.
  specialize (F1 ltac:(lia)). specialize (F2 ltac:(lia)). specialize (F3 ltac:(lia)).
  specialize (F4 ltac:(lia)). specialize (F5 ltac:(lia)).
  assert (rd_message (cl_rd c) = m) as Hm.
  { rewrite /rd_message F1 F2 F3 F4 F5. destruct m as [t f1 f2 f3 n ct]; cbn in *. f_equal.
    destruct (rep_content_cases _ Hrep) as [[E1 E2]|(E1 & d & E2 & E3)]; cbn in *; subst.
    - done.
    - rewrite (proj2 (Z.ltb_lt _ _) E1). rewrite /rb_data. rewrite /rb_rest in Hrest.
      destruct (cb_data (rb_buf (rd_buf (cl_rd c)))) as [x|]; simpl in *.
      + by rewrite Hrest ztake_app.
      + symmetry in Hrest. apply app_nil in Hrest as [-> _]. rewrite zlen_nil in E1. lia. }
  pose proof (zlen_nonneg d').
  assert (zlen (rb_rest (rd_buf (cl_rd c))) = m_content_size m + zlen d') as Hzr
    by by rewrite Hrest zlen_app Hlen.
  rewrite /read_step {1}/mbind /M_bind /get Est F5 (rb_available_rest _ Hok) Hzr.
  rewrite (proj2 (Z.ltb_ge (_ + _) _)); [lia|]. rewrite andb_false_r.
  split; [done|]. by rewrite Hm.
Qed.

Lemma read_content_ok c m d' h app' skipped :
  rd_st (cl_rd c) = rd_content → rb_ok (rd_buf (cl_rd c)) → header_read h (cl_rd c) → rep_message m →
  h ++ rb_rest (rd_buf (cl_rd c)) = enc_message m ++ d' →
  deliver junk m (cl_app c) = (Ok skipped, app') →
  ∃ r, read_step junk c = (Ok false, Build_client app' r (cl_src c)) ∧ rd_st r = rd_msg_type ∧
    rd_wb r = rd_wb (cl_rd c) ∧ rb_buf (rd_buf r) = rb_buf (rd_buf (cl_rd c)) ∧ rb_ok (rd_buf r) ∧
    rb_rest (rd_buf r) = (if skipped then [] else default [] (m_content m)) ++ d' ∧ header_read [] r.
Proof.
  intros Est Hok Hh Hrep Hd Hdel. destruct (read_content_delivers c m d' h Est Hok Hh Hrep Hd) as [Hrest ->].
  pose proof Hrep as ((B1 & B2 & B3 & B4 & B5) & _ & Hlen). pose proof (zlen_nonneg d').
  assert (zlen (rb_rest (rd_buf (cl_rd c))) = m_content_size m + zlen d') as Hzr
    by by rewrite Hrest zlen_app Hlen.
  rewrite {1}/mbind /M_bind {1}/c_app /zoom Hdel.
  destruct (rb_do_copy_ok (m_content_size m) (rd_buf (cl_rd c)) Hok ltac:(lia)) as (b & Hb & Hokb & Hrb).
  assert (b = rb_set_rd_pos (u32 (rb_rd_pos (rd_buf (cl_rd c)) + u32 (m_content_size m))) (rd_buf (cl_rd c))) as Eb.
  { rewrite /rb_do_copy /mbind /M_bind /get in Hb. destruct (cb_data (rb_buf (rd_buf (cl_rd c)))).
    - destruct (_ <=? _) in Hb; [|done]. by injection Hb as _ <-.
    - destruct (_ =? _) in Hb; [|done]. by injection Hb as _ <-. }
  assert (rb_rest b = d') as Hbr.
  { rewrite Hrb Hrest -Hlen zdrop_app. done. }
  destruct skipped.
  - rewrite {1}/mbind /M_bind {1}/c_rd /zoom /rb_skip /modify. cbn [cl_rd rd_buf]. rewrite -Eb.
    eexists. split; [done|]. cbn. split_and!; (done || by rewrite Eb).
  - rewrite {1}/mbind /M_bind. eexists. split; [done|]. cbn. by split_and!.
Qed.

(** A failing delivery ends the reading. *)
Lemma read_content_fails {A} c m d' h app' (o : outcome A) :
  rd_st (cl_rd c) = rd_content → rb_ok (rd_buf (cl_rd c)) → header_read h (cl_rd c) → rep_message m →
  h ++ rb_rest (rd_buf (cl_rd c)) = enc_message m ++ d' →
  deliver junk m (cl_app c) = (outcome_map (λ _, true) o, app') → (∀ x, o ≠ Ok x) →
  read_step junk c = (outcome_map (λ _, true) o, Build_client app' (cl_rd c) (cl_src c)).
Proof.
  intros Est Hok Hh Hrep Hd Hdel Ho. destruct (read_content_delivers c m d' h Est Hok Hh Hrep Hd) as [_ ->].
  rewrite {1}/mbind /M_bind {1}/c_app /zoom Hdel. destruct o as [x|e|w]; [by destruct (Ho x)|done..].
Qed.

(** Only a part of the content has arrived. *)
Lemma read_content_wait c h :
  rd_st (cl_rd c) = rd_content → rb_ok (rd_buf (cl_rd c)) → header_read h (cl_rd c) →
  incomplete (h ++ rb_rest (rd_buf (cl_rd c))) → read_step junk c = (Ok true, c).
Proof.
  intros Est Hok [Hh (_ & _ & _ & _ & F5)] Hinc. rewrite Est /= in Hh. rewrite Hh in F5.
  specialize (F5 ltac:(lia)). pose proof (zlen_nonneg (rb_rest (rd_buf (cl_rd c)))).
  rewrite /incomplete slice_app ?zlen_app ?Hh -?F5 /header_size in Hinc; [lia..|].
  rewrite /read_step {1}/mbind /M_bind /get Est (rb_available_rest _ Hok).
  rewrite (proj2 (Z.ltb_lt 0 _)); [lia|]. rewrite (proj2 (Z.ltb_lt _ _)); [lia|]. done.
Qed.

(** The stream ahead of the reader is a list of whole messages and a rest
    that is none. *)
Definition cut (d : bytes) (ms : list message) (rest : bytes) : Prop :=
  d = concat (enc_message <$> ms) ++ rest ∧ Forall rep_message ms ∧ incomplete rest.

Lemma slice_bound from n d : 0 <= n → 0 <= slice from n d < 256 ^ n.
Proof.
  intros Hn. rewrite /slice. set (l := ztake n (zdrop from d)).
  assert (zlen l <= n) by (rewrite /l /zlen /ztake length_take; lia).
  pose proof (le_value_bound l). pose proof (Z.pow_le_mono_r 256 (zlen l) n). lia.
Qed.

(** Every byte sequence is cut in this way. *)
Lemma stream_cut d : ∃ ms rest, cut d ms rest.
Proof.
  remember (length d) as k eqn:Hk. revert d Hk.
  induction (lt_wf k) as [k _ IH]. intros d ->.
  destruct (Z.lt_ge_cases (zlen d) 16) as [Hlt|Hge].
  { exists [], d. split_and!; [done|done|]. by left. }
  set (n := slice 12 4 d). destruct (Z.lt_ge_cases (zlen d) (16 + n)) as [Hlt|Hfit].
  { exists [], d. split_and!; [done|done|]. by right. }
  pose proof (slice_bound 12 4 d ltac:(lia)) as Hn. rewrite -/n in Hn.
  set (m := {| m_type := slice 0 2 d; m_field1 := slice 2 2 d; m_field2 := slice 4 4 d;
               m_field3 := slice 8 4 d; m_content_size := n;
               m_content := if 0 <? n then Some (ztake n (zdrop 16 d)) else None |}).
  assert (default [] (m_content m) = ztake n (zdrop 16 d)) as Hct.
  { simpl. destruct (Z.ltb_spec 0 n) as [|Hle]; [done|]. by assert (n = 0) as -> by lia. }
  assert (zlen (ztake n (zdrop 16 d)) = n) as Hzn.
  { rewrite zlen_ztake; [|done]. rewrite zlen_zdrop; lia. }
  assert (enc_message m = ztake 16 d ++ ztake n (zdrop 16 d)) as Henc.
  { rewrite /enc_message Hct -(enc_header_slices d Hge). done. }
  assert (d = enc_message m ++ zdrop n (zdrop 16 d)) as Hd.
  { by rewrite Henc -app_assoc !ztake_zdrop. }
  destruct (IH (length (zdrop n (zdrop 16 d))) ltac:(rewrite /zlen in Hge; rewrite /zdrop !length_drop; lia)
    _ eq_refl) as (ms & rest & Hcut & Hrep & Hinc).
  exists (m :: ms), rest. split_and!; [|constructor; [|done]|done].
  - rewrite fmap_cons concat_cons -app_assoc -Hcut. exact Hd.
  - split_and!; try apply slice_bound; try lia; [by simpl; destruct (0 <? n)|by rewrite Hct].
Qed.

Definition rank (r : reader) : Z :=
  2 * zlen (rb_rest (rd_buf r)) + if bool_decide (rd_st r = rd_content) then 1 else 0.

Lemma cut_streams d ms rest a :
  cut d ms rest → all_skipped ms a = true →
  streams d a (outcome_map (λ _, rest) (deliver_all ms a).1) (deliver_all ms a).2.
Proof.
  intros (-> & Hrep & Hinc). revert a. induction ms as [|m ms IH]; intros a Hsk; [by apply streams_stop|].
  apply Forall_cons in Hrep as [Hm Hrep]. rewrite fmap_cons concat_cons -app_assoc /deliver_all.
  cbn [for_each all_skipped] in Hsk |- *. rewrite /mbind /M_bind in Hsk |- *.
  destruct (deliver junk m a) as [[sk|e|w] a1] eqn:E; [|by eapply streams_throw|by eapply streams_ub].
  apply andb_true_iff in Hsk as [Hsk Hall]. eapply streams_message; [done..|].
  replace (if skips m a then [] else _) with (@nil ascii); [by apply IH|].
  destruct (skips m a); [done|]. apply Z.eqb_eq in Hsk. destruct Hm as (_ & _ & Hl).
  symmetry. apply zlen_zero_nil. by rewrite Hl.
Qed.

(** Reading any stream ends. *)
Lemma streams_total d a : ∃ o a', streams d a o a'.
Proof.
  remember (length d) as k eqn:Hk. revert d a Hk.
  induction (lt_wf k) as [k _ IH]. intros d a ->.
  destruct (stream_cut d) as ([|m ms] & rest & -> & Hrep & Hinc); [eexists _, _; by apply streams_stop|].
  apply Forall_cons in Hrep as [Hm _]. rewrite fmap_cons concat_cons -app_assoc.
  destruct (deliver junk m a) as [[sk|e|w] a1] eqn:E;
    [|eexists _, _; by eapply streams_throw|eexists _, _; by eapply streams_ub].
  set (d1 := concat _ ++ rest).
  destruct (IH (length ((if skips m a then [] else default [] (m_content m)) ++ d1))) with
    (d := (if skips m a then [] else default [] (m_content m)) ++ d1) (a := a1) as (o & a' & Hst); [|done|].
  - pose proof (enc_message_size _ Hm) as Hs. pose proof Hm as (_ & _ & Hl).
    rewrite /message_size /header_size /zlen in Hs. rewrite /zlen in Hl.
    rewrite fmap_cons concat_cons -(app_assoc (enc_message m)) -/d1 (length_app (enc_message m)) length_app. destruct (skips m a); simpl; lia.
  - exists o, a'. by eapply streams_message.
Qed.

Lemma enc_message_complete m d : rep_message m → ¬ incomplete (enc_message m ++ d).
Proof.
  intros Hm. pose proof Hm as ((B1 & B2 & B3 & B4 & B5) & _ & Hl).
  rewrite /incomplete zlen_app (enc_message_size _ Hm) /message_size /enc_message -app_assoc.
  destruct (slice_header _ _ _ _ _ (default [] (m_content m) ++ d) B1 B2 B3 B4 B5) as (_ & _ & _ & _ & ->).
  pose proof (zlen_nonneg d). rewrite /header_size. lia.
Qed.

(** Reading a stream starts with an incomplete rest or with the delivery of a
    message. *)
Lemma streams_inv d a o a' :
  streams d a o a' →
  (incomplete d ∧ o = Ok d ∧ a' = a) ∨
  ∃ m d1, d = enc_message m ++ d1 ∧ rep_message m ∧
    ((∃ a1, deliver junk m a = (Ok (skips m a), a1) ∧
        streams ((if skips m a then [] else default [] (m_content m)) ++ d1) a1 o a') ∨
     (∀ x, o ≠ Ok x) ∧ deliver junk m a = (outcome_map (λ _, true) o, a')).
Proof.
  destruct 1 as [d a Hinc|m d a a1 sk o a' Hm E Hst|m d a a1 e Hm E|m d a a1 w Hm E]; [by left|right; exists m, d..].
  - split_and!; [done..|]. left. exists a1. split; [|done]. by rewrite -(deliver_skips _ _ _ _ E).
  - split_and!; [done..|]. by right.
  - split_and!; [done..|]. by right.
Qed.

(** The outcome: the application is [app'], and either the reader stands
    before [rest] in the same buffer, or reading failed in the same way. *)
Definition reaches c (app' : app S) (o : outcome bytes) (res : outcome unit * @client S R) : Prop :=
  match o with
  | Ok rest => ∃ r h', res = (Ok tt, Build_client app' r (cl_src c)) ∧
      rd_wb r = rd_wb (cl_rd c) ∧ rb_buf (rd_buf r) = rb_buf (rd_buf (cl_rd c)) ∧ rb_ok (rd_buf r) ∧
      header_read h' r ∧ h' ++ rb_rest (rd_buf r) = rest
  | Throw e => ∃ r, res = (Throw e, Build_client app' r (cl_src c))
  | UB w => ∃ r, res = (UB w, Build_client app' r (cl_src c))
  end.

Lemma read_loop_ok fuel o c h app' :
  rb_ok (rd_buf (cl_rd c)) → header_read h (cl_rd c) →
  streams (h ++ rb_rest (rd_buf (cl_rd c))) (cl_app c) o app' → rank (cl_rd c) < Z.of_nat fuel →
  reaches c app' o (read_loop junk fuel c).
Proof.
  revert c h. induction fuel as [|fuel IH]; intros c h Hok Hh Hst Hf.
  { pose proof (zlen_nonneg (rb_rest (rd_buf (cl_rd c)))). rewrite /rank in Hf. case_bool_decide; lia. }
  assert (read_step junk c = (Ok true, c) → incomplete (h ++ rb_rest (rd_buf (cl_rd c))) →
    reaches c app' o (read_loop junk (Datatypes.S fuel) c)) as Hstop.
  { intros Hs Hinc. apply streams_inv in Hst as [(_ & -> & ->)|(m & d & Hd & Hm & _)].
    - exists (cl_rd c), h. rewrite /= {1}/mbind /M_bind Hs. by destruct c.
    - rewrite Hd in Hinc. by destruct (enc_message_complete m d). }
  assert (∀ c' h', read_step junk c = (Ok false, c') → cl_src c' = cl_src c →
    rd_wb (cl_rd c') = rd_wb (cl_rd c) → rb_buf (rd_buf (cl_rd c')) = rb_buf (rd_buf (cl_rd c)) →
    rb_ok (rd_buf (cl_rd c')) → header_read h' (cl_rd c') →
    streams (h' ++ rb_rest (rd_buf (cl_rd c'))) (cl_app c') o app' →
    rank (cl_rd c') < rank (cl_rd c) →
    reaches c app' o (read_loop junk (Datatypes.S fuel) c)) as Hgo.
  { intros c' h' Hs E1 E2 E3 Hok' Hh' Hst' Hr.
    assert (reaches c app' o = reaches c' app' o) as -> by (by rewrite /reaches E1 E2 E3).
    rewrite /= {1}/mbind /M_bind Hs. apply (IH c' h'); try done. lia. }
  destruct (next_field (rd_st (cl_rd c))) as [[n st]|] eqn:En.
  - destruct (Z.lt_ge_cases (zlen (rb_rest (rd_buf (cl_rd c)))) n) as [Hlt|Hge].
    + apply Hstop; [by eapply read_field_wait|]. destruct Hh as [Hh _]. left.
      rewrite zlen_app Hh /header_size. destruct (rd_st (cl_rd c)); simplify_eq/=; lia.
    + destruct (read_field_ok c h n st En Hok Hh Hge) as (r & Hs & Est & Ew & Eb & Hokr & Hrr & Hhr).
      eapply Hgo; [exact Hs|done..| |].
      * rewrite /= Hrr -app_assoc ztake_zdrop. exact Hst.
      * assert (2 <= n) by (destruct (rd_st (cl_rd c)); simplify_eq/=; lia).
        rewrite /rank /= Hrr zlen_zdrop; [lia|]. repeat case_bool_decide; lia.
  - assert (rd_st (cl_rd c) = rd_content) as Est by by destruct (rd_st (cl_rd c)).
    pose proof (streams_inv _ _ _ _ Hst) as [(Hinc & _)|(m & d & Hd & Hm & [(a1 & Hdel & Hst1)|[Ho Hdel]])].
    { apply Hstop; [|done]. by eapply read_content_wait. }
    { destruct (read_content_ok c m d h a1 _ Est Hok Hh Hm Hd Hdel)
        as (r & Hs & Esr & Ew & Eb & Hokr & Hrr & Hhr).
      eapply (Hgo _ []); [exact Hs|done..| |]; [by rewrite /= Hrr|].
      apply (f_equal zlen) in Hd. destruct Hh as [Hh _]. pose proof Hm as (_ & _ & Hl).
      rewrite (zlen_app h) zlen_app (enc_message_size _ Hm) /message_size Hh Est /header_size /= in Hd.
      pose proof (zlen_nonneg (default [] (m_content m))).
      rewrite /rank /= Est Esr Hrr zlen_app. repeat case_bool_decide; try done.
      destruct (skips _ _); rewrite ?zlen_nil; lia. }
    pose proof (read_content_fails c m d h app' o Est Hok Hh Hm Hd Hdel Ho) as Hs.
    rewrite /= {1}/mbind /M_bind Hs. destruct o as [x|e|w]; [by destruct (Ho x)|by eexists..].
Qed.

(** The bytes of the current message the reader holds: the consumed header
    and the buffer. *)
Definition holds (d : bytes) (r : reader) : Prop :=
  ∃ h, header_read h r ∧ d = h ++ wb_contents (rd_wb r) ∧ wb_ok default_max_write_buffer_size (rd_wb r).

(** The view on the received bytes. *)
Definition wb_view (wb : write_buffer) : const_buffer :=
  cb_view (wb_size wb) ((λ _, wb_contents wb) <$> wb_data wb).

Lemma wb_view_ok wb b :
  wb_ok default_max_write_buffer_size wb → rb_buf b = wb_view wb → 0 <= rb_rd_pos b <= wb_size wb →
  rb_ok b ∧ rb_rest b = zdrop (rb_rd_pos b) (wb_contents wb).
Proof.
  intros Hwb Hb Hp. pose proof (zlen_wb_contents _ _ Hwb) as Hl. destruct Hwb as (Hp1 & Hp2 & Hd).
  rewrite /rb_ok /rb_rest Hb /wb_view /wb_size in Hp |- *. rewrite /default_max_write_buffer_size in Hp2.
  destruct (wb_data wb) as [x|] eqn:E; simpl.
  - split_and!; try lia; done.
  - rewrite /wb_contents E /zdrop drop_nil. split_and!; try lia; done.
Qed.

(** How a call of [ipc_read] ends when reading the stream ends with [o]. *)
Definition reading_ends c (src' : R) (app' : app S) (o : outcome bytes) (res : outcome unit * @client S R) : Prop :=
  match o with
  | Ok rest => ∃ r, res = (Ok tt, Build_client app' r src') ∧ holds rest r ∧
      wb_reserved (rd_wb r) = wb_reserved (rd_wb (cl_rd c))
  | Throw e => ∃ r, res = (Throw e, Build_client app' r src')
  | UB w => ∃ r, res = (UB w, Build_client app' r src')
  end.

Lemma read_round c d bs src' o app' :
  holds d (cl_rd c) → source_read_some (wb_remaining (rd_wb (cl_rd c))) (cl_src c) = (Ok bs, src') →
  zlen bs <= wb_remaining (rd_wb (cl_rd c)) → streams (d ++ bs) (cl_app c) o app' →
  reading_ends c src' app' o (cc_ipc_read junk c).
Proof.
  intros (h & Hh & -> & Hwb) Hsrc Hlen Hst. pose proof Hwb as (Hp & Hmx & _).
  destruct (append_some_from_ok default_block_size default_max_write_buffer_size eq_refl eq_refl
    (wb_remaining (rd_wb (cl_rd c))) _ (cl_src c) src' bs Hwb) as (wb & Ha & Hwb' & Hc & _ & Hres);
    [rewrite /wb_remaining; lia..|done|done|].
  pose proof Hwb' as (Hp' & _). pose proof (zlen_wb_contents _ _ Hwb') as Hzl.
  set (b0 := {| rb_buf := wb_view wb; rb_rd_pos := 0 |}).
  destruct (wb_view_ok wb b0 Hwb' eq_refl) as [Hb0 Hr0]; [simpl; rewrite /wb_size; lia|].
  rewrite zdrop_0 in Hr0.
  set (c1 := Build_client (cl_app c) (rd_set_buf b0 (rd_set_wb wb (cl_rd c))) src').
  assert (reaches c1 app' o (read_loop junk (Z.to_nat (6 * wb_size wb) + 7) c1)) as Hreach.
  { apply (read_loop_ok _ _ _ h); [done|done| |].
    - by rewrite /= Hr0 Hc app_assoc.
    - rewrite /rank /= Hr0 Hzl /wb_size. case_bool_decide; lia. }
  assert (cc_ipc_read junk c = (read_loop junk (Z.to_nat (6 * wb_size wb) + 7) ;;
    c ← get; c_rd (zoom rd_wb rd_set_wb (wb_erase 0 (rb_rd_pos (rd_buf (cl_rd c)))))) c1) as ->.
  { rewrite /cc_ipc_read.
    erewrite (bind_ok _ _ _ (zlen bs)); [|rewrite /zoom; erewrite bind_ok; [|done]; by rewrite Ha].
    erewrite bind_ok; [|done]. by erewrite (bind_ok _ _ _ tt c1); [|done]. }
  destruct o as [rest|e|w]; [|destruct Hreach as (r & E); exists r; by rewrite /mbind /M_bind E..].
  destruct Hreach as (r & h' & Hloop & Ew & Eb & Hokr & Hhr & Hrest).
  destruct (wb_erase_ok default_max_write_buffer_size 0 (rb_rd_pos (rd_buf r)) wb Hwb')
    as (wb2 & He & Hwb2 & Hres2 & Hc2); [destruct Hokr; lia|].
  assert (rb_rest (rd_buf r) = wb_contents wb2) as Hx.
  { destruct Hokr as [Hpr _]. rewrite Eb in Hpr.
    destruct (wb_view_ok wb (rd_buf r) Hwb' Eb Hpr) as [_ ->]. by rewrite Hc2. }
  exists (rd_set_wb wb2 r). split_and!.
  - step_ok Hloop. erewrite bind_ok; [|done]. rewrite /c_rd /zoom /= Ew /= He. done.
  - exists h'. split_and!; [exact Hhr|by rewrite -Hrest Hx|done].
  - rewrite /= Hres2. apply Hres. rewrite /wb_remaining. lia.
Qed.

(** An event is reported to every callback; its content is not skipped. *)
Lemma event_delivered ev a :
  ev_type ev ≠ invalid_event → rep_uri (ev_group ev) → uri_empty (ev_group ev) = false →
  zlen (enc_uri (ev_group ev)) <= default_max_write_buffer_size → cache_ok (cc_cache a) →
  ∃ cache', deliver junk (event_message ev) a =
    (Ok false, cc_set_log (cc_log a ++ ((λ cb, fx_event cb ev) <$> cc_cbs a)) (cc_set_cache cache' a)).
Proof.
  intros Ht Hu He Hl Hc.
  destruct (from_content_ok c_uri enc_uri rep_uri (ev_group ev) (cc_cache a) Hu Hl Hc) as (cache' & Hf & _).
  assert (content_of (enc_uri (ev_group ev)) = Some (enc_uri (ev_group ev))) as Hco by done.
  rewrite Hco in Hf. exists cache'.
  change (deliver junk (event_message ev) a) with (deliver_event_msg (event_message ev) a).
  rewrite /deliver_event_msg. erewrite (bind_ok _ _ _ (ev_group ev));
    [|rewrite /a_cache /zoom /event_message; cbn [m_content_size m_content]; by rewrite Hf].
  rewrite He. cbn [m_field1 m_field2 event_message].
  assert (event_type_of (membership_event_type_value (ev_type ev)) = Some (ev_type ev)) as ->
    by by destruct (ev_type ev).
  erewrite bind_ok; [|done]. cbn [cc_cbs cc_set_cache].
  assert (new_membership_event (ev_group ev) (ev_iid ev) (ev_type ev) = ev) as -> by by destruct ev.
  assert (∀ l a0, for_each l (λ cb, effect (S := S) (fx_event cb ev)) a0 =
    (Ok tt, cc_set_log (cc_log a0 ++ ((λ cb, fx_event cb ev) <$> l)) a0)) as Hl'.
  { induction l as [|cb l IH]; intros a0; simpl; [by rewrite app_nil_r; destruct a0|].
    erewrite bind_ok; [|done]. rewrite IH /= -app_assoc. done. }
  by step_ok (Hl' (cc_cbs a) (cc_set_cache cache' a)).
Qed.
End reading.

(** ** Sending packets *)

(** A connection that accepts everything. *)
Class TotalSink (S : Type) `{SinkSpec S} := {
  sink_write_total bs (s : S) : sink_ok s → ∃ s', sink_write bs s = (Ok tt, s');
  sink_flush_total (s : S) : sink_ok s → ∃ s', sink_flush s = (Ok tt, s')
}.

#[export] Instance log_sink_total : TotalSink log_sink.
Proof. split; intros; by eexists. Qed.

Lemma seqZ_sorted m n : StronglySorted Z.le (seqZ m n).
Proof.
  rewrite /seqZ. generalize (Z.to_nat n). intros k. revert m.
  assert (∀ j m, StronglySorted Z.le ((λ i : nat, Z.of_nat i + m) <$> seq j k)) as Hs; [|by apply Hs].
  induction k as [|k IH]; intros j m; simpl; constructor; [apply IH|].
  apply Forall_fmap, Forall_forall. intros i Hi%elem_of_seq. simpl. lia.
Qed.

Lemma filter_sorted {A} (R : relation A) (P : A → Prop) `{∀ x, Decision (P x)} l :
  StronglySorted R l → StronglySorted R (filter P l).
Proof.
  induction 1 as [|x l Hl IH Hx]; [constructor|]. rewrite filter_cons. destruct (decide (P x)); [|done].
  constructor; [done|]. apply Forall_forall. intros y [_ Hy]%list_elem_of_filter.
  by apply (proj1 (Forall_forall _ _) Hx).
Qed.

(** The keys of a buffer that holds an interval. *)
Lemma keys_between_interval b lo hi from to :
  (∀ k, is_Some (b !! k) ↔ lo <= k < hi) → lo <= from →
  keys_between from to b = seqZ from (Z.min (to + 1) hi - from).
Proof.
  intros Hb Hlo. apply (StronglySorted_unique Z.le).
  - apply filter_sorted, StronglySorted_merge_sort; apply _.
  - apply seqZ_sorted.
  - apply NoDup_Permutation.
    + apply NoDup_filter. rewrite merge_sort_Permutation. apply NoDup_elements.
    + apply NoDup_seqZ.
    + intros k. rewrite list_elem_of_filter merge_sort_Permutation elem_of_elements elem_of_dom Hb elem_of_seqZ. lia.
Qed.

Lemma interval_size {A} (b : gmap Z A) lo hi :
  lo <= hi → (∀ k, is_Some (b !! k) ↔ lo <= k < hi) → Z.of_nat (size b) = hi - lo.
Proof.
  intros Hl Hb. rewrite -size_dom.
  assert (dom b ≡ list_to_set (C := gset Z) (seqZ lo (hi - lo))) as ->.
  { intros k. rewrite elem_of_dom Hb elem_of_list_to_set elem_of_seqZ. lia. }
  rewrite size_list_to_set; [apply NoDup_seqZ|]. rewrite length_seqZ. lia.
Qed.

Section sending.
Context {S : Type} `{TotalSink S} (junk : Z).
Implicit Types a : app S.

Lemma emits_total (m : M S unit) e s :
  emits m e → sink_ok s →
  ∃ s', m s = (Ok tt, s') ∧ sink_ok s' ∧ sink_accepted s' = sink_accepted s ++ e.
Proof.
  intros Hm Hs. pose proof (emits_triple m e (sink_accepted s) Hm s (conj Hs eq_refl)) as Ht.
  destruct Hm as (cs & <- & Hm). rewrite Hm in Ht |- *.
  assert (∃ s', for_each cs sink_write s = (Ok tt, s')) as (s' & E).
  { clear Hm Ht. revert s Hs. induction cs as [|c cs IH]; intros s Hs; [by eexists|].
    destruct (sink_write_total c s Hs) as (s1 & E1).
    pose proof (sink_write_spec c _ s (conj Hs eq_refl)) as Hw. rewrite E1 in Hw.
    simpl. step_ok E1. apply IH, Hw. }
  rewrite E in Ht |- *. destruct Ht. by exists s'.
Qed.

Lemma flush_total (s : S) :
  sink_ok s → ∃ s', sink_flush s = (Ok tt, s') ∧ sink_ok s' ∧ sink_accepted s' = sink_accepted s.
Proof.
  intros Hs. destruct (sink_flush_total s Hs) as (s' & E). exists s'. split; [done|].
  pose proof (sink_flush_spec _ s (conj Hs eq_refl)) as Hf. by rewrite E in Hf.
Qed.

(** The message of a packet. *)
Definition packet_message (o : omp) : message :=
  {| m_type := message_type.async_send; m_field1 := omp_stm_id o; m_field2 := omp_sck_id o;
     m_field3 := omp_seq_nr o; m_content_size := omp_content_size o; m_content := omp_content o |}.

Lemma send_packet_emits o :
  rep_message (packet_message o) → emits (send_packet o : M S unit) (enc_message (packet_message o)).
Proof. intros (_ & Hc & Hl). apply emits_header. by apply emits_content. Qed.

(** The packet with number [k] of the packets [ps] a socket was given. *)
Definition nth_packet (ps : list omp) (k : Z) : option omp := omp_set_seq_nr k <$> ps !! Z.to_nat k.
Definition enc_nth (ps : list omp) (k : Z) : bytes :=
  from_option (λ o, enc_message (packet_message o)) [] (nth_packet ps k).

(** The bytes of the packets [lo .. hi - 1]. *)
Definition enc_packets (ps : list omp) (lo hi : Z) : bytes := concat (enc_nth ps <$> seqZ lo (hi - lo)).

(** The numbers fit the protocol, with room for a window. *)
Definition packets_ok (sid : Z) (ps : list omp) : Prop :=
  zlen ps + 2 * max_pending_sends < 2 ^ 32 ∧
  ∀ k o, nth_packet ps k = Some o → 0 <= k → rep_message (packet_message o) ∧ omp_sck_id o = sid.

(** The buffer holds the packets that are not acknowledged. *)
Definition buffers (ps : list omp) (acked : Z) (b : gmap Z omp) : Prop :=
  ∀ k, b !! k = if acked <=? k then nth_packet ps k else None.

Lemma nth_packet_some ps k : 0 <= k → is_Some (nth_packet ps k) ↔ k < zlen ps.
Proof. intros Hk. rewrite /nth_packet fmap_is_Some lookup_lt_is_Some /zlen. lia. Qed.

Lemma buffers_interval ps acked b k :
  0 <= acked → buffers ps acked b → is_Some (b !! k) ↔ acked <= k < zlen ps.
Proof.
  intros Ha Hb. rewrite Hb. destruct (Z.leb_spec acked k) as [Hle|Hn].
  - rewrite nth_packet_some; lia.
  - split; [by intros [? ?]|lia].
Qed.

Lemma enc_packets_app ps lo mid hi :
  lo <= mid <= hi → enc_packets ps lo hi = enc_packets ps lo mid ++ enc_packets ps mid hi.
Proof.
  intros Hm. rewrite /enc_packets -concat_app -fmap_app. do 2 f_equal.
  replace (hi - lo) with ((mid - lo) + (hi - mid)) by lia.
  rewrite seqZ_app; [lia|lia|]. f_equal; f_equal; lia.
Qed.

(** [do_send] writes the packets of the range that exist, in order. *)
Lemma do_send_ok sid ps acked sd from to out :
  packets_ok sid ps → 0 <= acked <= from → buffers ps acked (sd_buffer sd) → from <= to → sink_ok out →
  let hi := Z.max from (Z.min (to + 1) (zlen ps)) in
  ∃ out', do_send sd from to out =
      (Ok (if hi =? from then sd else
           sd_set_sends (sd_pending_sends sd + (hi - from)) (u32 (sd_last_sent sd + (hi - from))) sd), out') ∧
    sink_ok out' ∧ sink_accepted out' = sink_accepted out ++ enc_packets ps from hi.
Proof.
  intros [_ Hps] Ha Hb Hft Hs hi. rewrite /do_send.
  pose proof (buffers_interval ps acked _ from ltac:(lia) Hb) as Hi.
  destruct (sd_buffer sd !! from) as [o|] eqn:Ef.
  - assert (from < zlen ps) by (apply Hi; eauto).
    assert (hi = Z.min (to + 1) (zlen ps)) as Ehi by lia.
    rewrite (proj2 (Z.ltb_ge _ _)); [lia|]. simpl.
    rewrite (keys_between_interval _ acked (zlen ps)); [|lia|].
    { intros k. apply buffers_interval; [lia|done]. }
    rewrite -Ehi (proj2 (Z.eqb_neq _ _)); [lia|].
    assert (emits (S := S) (for_each (seqZ from (hi - from)) (λ k,
      match sd_buffer sd !! k with Some o => send_packet o | None => mret tt end)) (enc_packets ps from hi)) as He.
    { apply emits_for_each. intros k Hk%elem_of_seqZ. rewrite Hb (proj2 (Z.leb_le _ _)); [lia|]. rewrite /enc_nth.
      destruct (nth_packet ps k) as [p|] eqn:Ep; [|apply emits_nil].
      apply send_packet_emits. eapply Hps; [done|lia]. }
    destruct (emits_total _ _ out He Hs) as (o1 & E1 & Hs1 & Ha1). step_ok E1.
    destruct (flush_total o1 Hs1) as (o2 & E2 & Hs2 & Ha2). step_ok E2.
    exists o2. rewrite Ha2 Ha1. split_and!; [|done..].
    rewrite /zlen length_seqZ Z2Nat.id; [lia|]. done.
  - assert (hi = from) as ->.
    { destruct (decide (from < zlen ps)); [|lia]. destruct (proj2 Hi) as [? ?]; [lia|done]. }
    rewrite Z.eqb_refl. exists out. split_and!; try done.
    by rewrite /enc_packets Z.sub_diag app_nil_r.
Qed.

(** Acknowledging [seq_nr] drops the packets up to it. *)
Lemma drop_ok ps acked sd seq_nr :
  0 <= acked → buffers ps acked (sd_buffer sd) →
  let acked' := Z.max acked (Z.min (seq_nr + 1) (zlen ps)) in
  ∃ n b, drop_smaller_or_equal_seq_nrs sd seq_nr =
      (n, sd_set_sends (sd_pending_sends sd - (acked' - acked)) (sd_last_sent sd) (sd_set_buffer b sd)) ∧
    buffers ps acked' b.
Proof.
  intros Ha Hb acked'. pose proof (λ k, buffers_interval ps acked _ k Ha Hb) as Hi.
  set (dropped := filter (λ kv : Z * omp, kv.1 <= seq_nr) (sd_buffer sd)).
  assert (Z.of_nat (size dropped) = acked' - acked) as Hsize.
  { apply interval_size; [lia|]. intros k. rewrite /dropped map_lookup_filter.
    specialize (Hi k). destruct (sd_buffer sd !! k) as [o|]; simpl.
    - assert (acked <= k < zlen ps) by (apply Hi; eauto). case_guard; simpl in *.
      + split; [lia|eauto].
      + split; [by intros [? ?]|lia].
    - split; [by intros [? ?]|]. intros Hk. destruct (proj2 Hi) as [? ?]; [lia|done]. }
  do 2 eexists. split; [rewrite /drop_smaller_or_equal_seq_nrs -/dropped Hsize; done|].
  intros k. rewrite map_lookup_filter. specialize (Hi k). specialize (Hb k).
  destruct (sd_buffer sd !! k) as [o|]; simpl.
  - assert (acked <= k < zlen ps) by (apply Hi; eauto). rewrite (proj2 (Z.leb_le _ _)) in Hb; [lia|].
    case_guard; simpl in *.
    + by rewrite (proj2 (Z.leb_le _ _)); [lia|].
    + by rewrite (proj2 (Z.leb_gt _ _)); [lia|].
  - destruct (Z.leb_spec acked' k); [|done]. by rewrite (proj2 (Z.leb_le _ _)) in Hb; [lia|].
Qed.

(** The specification of a sending socket: the packets it was given, how
    many of them are acknowledged, how many were sent. *)
Record window := {
  w_packets : list omp;
  w_acked : Z;
  w_sent : Z
}.

Inductive send_event :=
  | give (o : omp)
  | acknowledge (stm_id seq_nr : Z).

Definition window_step (w : window) (e : send_event) : window :=
  match e with
  | give o =>
      {| w_packets := w_packets w ++ [o]; w_acked := w_acked w;
         w_sent := if (w_sent w =? zlen (w_packets w)) && (w_sent w - w_acked w <? max_pending_sends)
                   then w_sent w + 1 else w_sent w |}
  | acknowledge _ n =>
      let acked := Z.max (w_acked w) (n + 1) in
      {| w_packets := w_packets w; w_acked := acked;
         w_sent := if w_sent w - acked <? max_pending_sends
                   then Z.min (zlen (w_packets w)) (acked + max_pending_sends + 1) else w_sent w |}
  end.

(** Only sent packets are acknowledged. *)
Definition event_ok (w : window) (e : send_event) : Prop :=
  match e with give _ => True | acknowledge _ n => 0 <= n < w_sent w end.

Fixpoint events_ok (w : window) (es : list send_event) : Prop :=
  match es with [] => True | e :: es' => event_ok w e ∧ events_ok (window_step w e) es' end.

Definition window_ok (w : window) : Prop :=
  0 <= w_acked w <= w_sent w ∧ w_sent w <= zlen (w_packets w) ∧ (w_sent w = 0 → w_packets w = []) ∧
  w_sent w - w_acked w <= max_pending_sends + 1 ∧
  (w_sent w < zlen (w_packets w) → max_pending_sends <= w_sent w - w_acked w).

Lemma window_step_ok w e : event_ok w e → window_ok w → window_ok (window_step w e).
Proof.
  destruct w as [ps ac se]. intros He (Hw1 & Hw2 & Hw3 & Hw4 & Hw5). rewrite /window_ok.
  destruct e as [o|stm n]; simpl in *; rewrite /max_pending_sends in Hw4 Hw5 |- *.
  - rewrite zlen_app zlen_cons zlen_nil. 
    destruct (Z.eqb_spec se (zlen ps)) as [Hs|Hs], (Z.ltb_spec (se - ac) 256); simpl;
      split_and!; try lia; intros Hz; try lia; by rewrite (Hw3 Hz) in Hs.
  - destruct (Z.ltb_spec (se - Z.max ac (n + 1)) 256); split_and!; try lia; intros; apply Hw3; lia.
Qed.

(** What the client does on such an event, for socket [sid]. *)
Definition ack_message (sid stm_id seq_nr : Z) : message :=
  {| m_type := message_type.cumulative_ack; m_field1 := stm_id; m_field2 := sid; m_field3 := seq_nr;
     m_content_size := 0; m_content := None |}.
Definition on_event (sid : Z) (e : send_event) : M (app S) unit :=
  match e with
  | give o => handle_cc_msg junk (omp_t o)
  | acknowledge stm_id n => deliver junk (ack_message sid stm_id n) ;; mret tt
  end.

(** The client implements the specification: the socket's data and the
    stream it has sent. *)
Definition implements (sid : Z) (out0 : bytes) (w : window) (a : app S) : Prop :=
  sink_ok (cc_out a) ∧ sink_accepted (cc_out a) = out0 ++ enc_packets (w_packets w) 0 (w_sent w) ∧
  ∃ sd, cc_sockets a !! sid = Some sd ∧ is_Some (sd_mcast_obj sd) ∧
    sd_seq_nrs sd = zlen (w_packets w) ∧ buffers (w_packets w) (w_acked w) (sd_buffer sd) ∧
    sd_pending_sends sd = w_sent w - w_acked w ∧ (0 < w_sent w → sd_last_sent sd = w_sent w - 1).

Lemma nth_packet_snoc ps o k :
  0 <= k → nth_packet (ps ++ [o]) k = if k =? zlen ps then Some (omp_set_seq_nr k o) else nth_packet ps k.
Proof.
  intros Hk. rewrite /nth_packet /zlen. destruct (Z.eqb_spec k (Z.of_nat (length ps))) as [->|Hne].
  - by rewrite Nat2Z.id list_lookup_middle.
  - destruct (decide (k < Z.of_nat (length ps))).
    + rewrite lookup_app_l; [lia|]. done.
    + rewrite !lookup_ge_None_2 //; rewrite ?length_app /=; lia.
Qed.

Lemma enc_packets_snoc ps o hi : hi <= zlen ps → enc_packets (ps ++ [o]) 0 hi = enc_packets ps 0 hi.
Proof.
  intros Hh. rewrite /enc_packets. f_equal. apply list_fmap_ext. intros i k Hk.
  apply list_elem_of_lookup_2, elem_of_seqZ in Hk.
  rewrite /enc_nth nth_packet_snoc; [lia|]. by rewrite (proj2 (Z.eqb_neq _ _)); [lia|].
Qed.

Lemma packets_ok_snoc sid ps o :
  packets_ok sid (ps ++ [o]) →
  packets_ok sid ps ∧ rep_message (packet_message (omp_set_seq_nr (zlen ps) o)) ∧ omp_sck_id o = sid.
Proof.
  intros [Hl Hps]. rewrite zlen_app zlen_cons zlen_nil in Hl. split; [split; [lia|]|].
  - intros k p Hp Hk. apply (Hps k p); [|done]. rewrite nth_packet_snoc; [done|].
    assert (k < zlen ps) by (apply nth_packet_some; [done|eauto]).
    by rewrite (proj2 (Z.eqb_neq _ _)); [lia|].
  - pose proof (zlen_nonneg ps).
    destruct (Hps (zlen ps) (omp_set_seq_nr (zlen ps) o)) as [? ?]; [|lia|done].
    rewrite nth_packet_snoc; [done|]. by rewrite Z.eqb_refl.
Qed.

Lemma buffers_snoc ps o acked b :
  0 <= acked <= zlen ps → buffers ps acked b →
  b !! zlen ps = None ∧ buffers (ps ++ [o]) acked (<[zlen ps := omp_set_seq_nr (zlen ps) o]> b).
Proof.
  intros Ha Hb. assert (b !! zlen ps = None) as Hn.
  { apply eq_None_not_Some. rewrite (buffers_interval ps acked) //; lia. }
  split; [done|]. intros k. rewrite lookup_insert. case_decide as Hk.
  - subst k. rewrite (proj2 (Z.leb_le _ _)); [lia|]. rewrite nth_packet_snoc; [lia|]. by rewrite Z.eqb_refl.
  - rewrite Hb. destruct (Z.leb_spec acked k); [|done]. rewrite nth_packet_snoc; [lia|].
    by rewrite (proj2 (Z.eqb_neq _ _)); [lia|].
Qed.

(** A packet is handed over. *)
Lemma give_ok sid out0 w o a :
  window_ok w → packets_ok sid (w_packets w ++ [o]) → implements sid out0 w a →
  ∃ a', on_event sid (give o) a = (Ok tt, a') ∧ implements sid out0 (window_step w (give o)) a'.
Proof.
  destruct w as [ps ac se]. intros (Hw1 & Hw2 & Hw3 & _) Hps (Hs & Hacc & sd & Hsd & Hobj & Hnr & Hb & Hpe & Hla).
  simpl in *. pose proof Hps as [Hlen _]. rewrite zlen_app zlen_cons zlen_nil /max_pending_sends in Hlen.
  apply packets_ok_snoc in Hps as (Hps & Hrep & Hsid).
  destruct (buffers_snoc ps o ac _ ltac:(lia) Hb) as [Hn Hb'].
  rewrite /send_mcast Hsid. erewrite bind_ok; [|done]. rewrite Hsd.
  cbn [omp_seq_nr omp_set_seq_nr sd_last_sent sd_set_seq_nrs sd_pending_sends]. rewrite Hnr.
  rewrite /u32 (uwrap_small 32 (zlen ps + 1)); [rewrite /fits; pose proof (zlen_nonneg ps); lia|].
  assert ((zlen ps =? 0) || (zlen ps =? uwrap 32 (sd_last_sent sd + 1)) = (se =? zlen ps)) as ->.
  { destruct (Z.eqb_spec (zlen ps) 0) as [Hz|Hz]; simpl.
    - symmetry. apply Z.eqb_eq. lia.
    - assert (0 < se). { destruct (decide (se = 0)) as [E|]; [|lia]. by rewrite (Hw3 E) in Hz. }
      rewrite (Hla ltac:(lia)) uwrap_small; [rewrite /fits; lia|].
      destruct (Z.eqb_spec se (zlen ps)); [apply Z.eqb_eq|apply Z.eqb_neq]; lia. }
  rewrite Hpe. set (go := _ && _).
  assert (go = true → se = zlen ps) as Hgo by (intros [?%Z.eqb_eq _]%andb_true_iff; done).
  destruct go.
  - specialize (Hgo eq_refl). subst se.
    destruct (emits_total _ _ (cc_out a) (send_packet_emits _ Hrep) Hs) as (o1 & E1 & Hs1 & Ha1).
    destruct (flush_total o1 Hs1) as (o2 & E2 & Hs2 & Ha2).
    eexists. split.
    + rewrite /mbind /M_bind {1}/a_out /zoom E1 /a_out /zoom. cbn [cc_out cc_set_out]. rewrite E2.
      cbn. rewrite Hn Hsid. done.
    + split_and!; [done| |].
      * cbn. rewrite Ha2 Ha1 Hacc (enc_packets_app (ps ++ [o]) 0 (zlen ps)); [lia|].
        rewrite enc_packets_snoc; [lia|].
        rewrite -app_assoc. do 2 f_equal. rewrite /enc_packets.
        replace (zlen ps + 1 - zlen ps) with 1 by lia.
        rewrite /= Z.add_0_l /enc_nth nth_packet_snoc; [lia|]. by rewrite Z.eqb_refl /= app_nil_r.
      * eexists. split; [apply lookup_insert_eq|]. cbn. split_and!; try done; try lia.
        rewrite zlen_app. done.
  - eexists. split.
    + rewrite /mbind /M_bind. cbn. rewrite Hn Hsid. done.
    + split_and!; [done| |].
      * cbn. rewrite Hacc enc_packets_snoc; [lia|done].
      * eexists. split; [apply lookup_insert_eq|]. cbn. split_and!; try done; try lia.
        rewrite zlen_app. done.
Qed.

(** The end of an acknowledgement: a delayed close is queued, the output is
    flushed. *)
Lemma ack_tail_ok sid sd a :
  sink_ok (cc_out a) → cc_sockets a !! sid = Some sd →
  ∃ a' sd', ((if bool_decide (sd_state sd = socket_about_to_close_state) && negb (has_pending_sends sd) then
         match sd_delayed_close sd with
         | Some d =>
             cc_push (osm_t d) ;;
             set_socket sid (sd_set_state (sd_state sd) None sd)
         | None => mret tt
         end
       else mret tt) ;; a_out sink_flush ;; mret true) a = (Ok true, a') ∧
    sink_ok (cc_out a') ∧ sink_accepted (cc_out a') = sink_accepted (cc_out a) ∧
    cc_sockets a' !! sid = Some sd' ∧ sd' = sd_set_state (sd_state sd') (sd_delayed_close sd') sd.
Proof.
  intros Hs Hsd. destruct (flush_total (cc_out a) Hs) as (o & E & Hso & Hao).
  destruct (bool_decide _ && _).
  - destruct (sd_delayed_close sd) as [d|] eqn:Ed.
    + do 2 eexists. rewrite /mbind /M_bind /cc_push /set_socket /modify /a_out /zoom. cbn. rewrite E.
      split_and!; try done; apply lookup_insert_eq || done.
    + do 2 eexists. rewrite /mbind /M_bind /a_out /zoom. cbn. rewrite E.
      split_and!; try done. by destruct sd.
  - do 2 eexists. rewrite /mbind /M_bind /a_out /zoom. cbn. rewrite E.
    split_and!; try done. by destruct sd.
Qed.

(** What an acknowledgement sends. *)
Definition refill (sd : socket_data) : M S socket_data :=
  if sd_pending_sends sd <? max_pending_sends then
    let from := u32 (sd_last_sent sd + 1) in
    let to := u32 (from + (max_pending_sends - sd_pending_sends sd)) in
    do_send sd from to
  else mret sd.

Lemma refill_ok sid ps ac se sd out :
  packets_ok sid ps → 0 <= ac <= se → 0 < se <= zlen ps → buffers ps ac (sd_buffer sd) →
  sd_pending_sends sd = se - ac → sd_last_sent sd = se - 1 → sink_ok out →
  let se' := if se - ac <? max_pending_sends then Z.min (zlen ps) (ac + max_pending_sends + 1) else se in
  ∃ out', refill sd out = (Ok (sd_set_sends (se' - ac) (se' - 1) sd), out') ∧
    sink_ok out' ∧ sink_accepted out' = sink_accepted out ++ enc_packets ps se se'.
Proof.
  intros Hps Ha Hse Hb Hpe Hla Hs se'. rewrite /refill Hpe Hla. pose proof Hps as [Hlen _].
  assert ((se - ac < 256 → se' = Z.min (zlen ps) (ac + 257)) ∧ (256 <= se - ac → se' = se)) as [G1 G2].
  { rewrite /se' /max_pending_sends. destruct (Z.ltb_spec (se - ac) 256); lia. }
  clearbody se'. rewrite /max_pending_sends in Hlen |- *.
  destruct (Z.ltb_spec (se - ac) 256) as [Hlt|Hge]; [specialize (G1 Hlt)|rewrite (G2 Hge)].
  - rewrite /u32 (uwrap_small 32 (se - 1 + 1)); [rewrite /fits; lia|].
    rewrite uwrap_small; [rewrite /fits; lia|].
    destruct (do_send_ok sid ps ac sd (se - 1 + 1) (se - 1 + 1 + (256 - (se - ac))) out)
      as (out' & E & Hso & Hao); [done|lia|done|lia|done|].
    replace (Z.max _ _) with se' in E, Hao by lia. replace (se - 1 + 1) with se in E, Hao |- * by lia.
    exists out'. split_and!; [|done|done]. rewrite E. f_equal. f_equal.
    destruct (Z.eqb_spec se' se) as [->|]; [by destruct sd; simpl in *; subst|].
    rewrite /u32 uwrap_small; [rewrite /fits; lia|]. f_equal; lia.
  - exists out. split_and!; [by destruct sd; simpl in *; subst|done|].
    by rewrite /enc_packets Z.sub_diag app_nil_r.
Qed.

(** An acknowledgement drops, releases storage, and sends. *)
Lemma ack_runs sid stm n a sd d rel sd1 sd2 out' :
  cc_sockets a !! sid = Some sd → drop_smaller_or_equal_seq_nrs sd n = (rel, sd1) →
  sd_mcast_obj sd1 = Some d → refill sd1 (cc_out a) = (Ok sd2, out') → sink_ok out' →
  ∃ a' sd', on_event sid (acknowledge stm n) a = (Ok tt, a') ∧ sink_ok (cc_out a') ∧
    sink_accepted (cc_out a') = sink_accepted out' ∧ cc_sockets a' !! sid = Some sd' ∧
    sd' = sd_set_state (sd_state sd') (sd_delayed_close sd') sd2.
Proof.
  intros Hsd Hdrop Hobj Hre Hso.
  set (log := cc_log a ++ [fx_release d (Z.max (i32 rel) min_buffer_chunk)]).
  set (a2 := cc_set_sockets (<[sid := sd2]> (<[sid := sd1]> (cc_sockets a))) (cc_set_out out' (cc_set_log log a))).
  destruct (ack_tail_ok sid sd2 a2) as (a3 & sd3 & Ht & Hs3 & Ha3 & Hsd3 & Esd3); [done|apply lookup_insert_eq|].
  assert (deliver_ack (ack_message sid stm n) a = (Ok true, a3)) as Hd.
  { rewrite /deliver_ack.
    erewrite bind_ok; [|done]. erewrite bind_ok; [|done]. cbn [m_field2 m_field3 ack_message]. rewrite Hsd Hdrop.
    erewrite bind_ok; [|done]. erewrite (bind_ok _ _ _ tt); [|by rewrite Hobj].
    erewrite (bind_ok _ _ _ sd2
      (cc_set_out out' (cc_set_log log (cc_set_sockets (<[sid := sd1]> (cc_sockets a)) a)))).
    2: { revert Hre. rewrite /refill. destruct (sd_pending_sends sd1 <? _); cbn zeta.
         - intros Hre. rewrite /a_out /zoom. cbn [cc_out cc_set_log cc_set_sockets]. by rewrite Hre.
         - intros Hre. by injection Hre as -> <-. }
    erewrite bind_ok; [|done]. exact Ht. }
  exists a3, sd3. split_and!; try done. rewrite /on_event.
  change (deliver junk (ack_message sid stm n)) with (deliver_ack (S := S) (ack_message sid stm n)).
  by step_ok Hd.
Qed.

Lemma ack_ok sid out0 w stm n a :
  window_ok w → packets_ok sid (w_packets w) → event_ok w (acknowledge stm n) → implements sid out0 w a →
  ∃ a', on_event sid (acknowledge stm n) a = (Ok tt, a') ∧
    implements sid out0 (window_step w (acknowledge stm n)) a'.
Proof.
  destruct w as [ps ac se]. intros (Hw1 & Hw2 & _) Hps Hn (Hs & Hacc & sd & Hsd & [d Hobj] & Hnr & Hb & Hpe & Hla).
  cbn [w_packets w_acked w_sent event_ok] in *. set (ac' := Z.max ac (n + 1)).
  destruct (drop_ok ps ac sd n ltac:(lia) Hb) as (rel & b & Hdrop & Hb').
  replace (Z.max ac _) with ac' in Hdrop, Hb' by lia.
  set (sd1 := sd_set_sends _ _ _) in Hdrop.
  destruct (refill_ok sid ps ac' se sd1 (cc_out a)) as (out' & Hre & Hso & Hao);
    [done|lia|lia|done|simpl; lia|simpl; apply Hla; lia|done|].
  set (se' := if se - ac' <? _ then _ else _) in Hre, Hao |- *.
  assert (se <= se') by (rewrite /se' /max_pending_sends; destruct (Z.ltb_spec (se - ac') 256); lia).
  destruct (ack_runs sid stm n a sd d rel sd1 _ out' Hsd Hdrop Hobj Hre Hso)
    as (a3 & sd3 & Hd & Hs3 & Ha3 & Hsd3 & Esd3).
  exists a3. split; [exact Hd|]. split_and!; [done| |].
  - cbn. rewrite Ha3 Hao Hacc -app_assoc. f_equal. rewrite -enc_packets_app; [lia|done].
  - exists sd3. rewrite Esd3. split_and!; try done. by rewrite -Esd3.
Qed.

Lemma window_packets es w : ∃ l, w_packets (foldl window_step w es) = w_packets w ++ l.
Proof.
  revert w. induction es as [|e es IH]; intros w; simpl; [exists []; by rewrite app_nil_r|].
  destruct (IH (window_step w e)) as [l ->]. destruct e as [o|stm n]; simpl; [|by eexists].
  exists (o :: l). by rewrite -app_assoc.
Qed.

Lemma packets_ok_app sid ps l : packets_ok sid (ps ++ l) → packets_ok sid ps.
Proof.
  induction l as [|o l IH] using rev_ind; [by rewrite app_nil_r|].
  rewrite app_assoc. intros [Hps _]%packets_ok_snoc. by apply IH.
Qed.

Lemma events_run sid out0 es w a :
  window_ok w → implements sid out0 w a → events_ok w es →
  packets_ok sid (w_packets (foldl window_step w es)) →
  ∃ a', for_each es (on_event sid) a = (Ok tt, a') ∧
    implements sid out0 (foldl window_step w es) a' ∧ window_ok (foldl window_step w es).
Proof.
  revert w a. induction es as [|e es IH]; intros w a Hw Hi; simpl; [by eexists|].
  intros [He Hes] Hps.
  assert (packets_ok sid (w_packets (window_step w e))) as Hps1.
  { destruct (window_packets es (window_step w e)) as [l El]. rewrite El in Hps. by eapply packets_ok_app. }
  assert (∃ a1, on_event sid e a = (Ok tt, a1) ∧ implements sid out0 (window_step w e) a1) as (a1 & E1 & Hi1).
  { destruct e as [o|stm n]; [by apply give_ok|by apply ack_ok]. }
  step_ok E1. apply IH; try done. by apply window_step_ok.
Qed.

(** A retransmission that repeats the packets from [r] on. *)
Definition retransmit_message (sid stm_id seq_nr : Z) : message :=
  {| m_type := message_type.retransmit; m_field1 := stm_id; m_field2 := sid; m_field3 := seq_nr;
     m_content_size := 0; m_content := None |}.

Lemma retransmit_runs sid out0 w stm r a :
  w_sent w = zlen (w_packets w) → window_ok w → packets_ok sid (w_packets w) → w_acked w <= r < w_sent w →
  implements sid out0 w a →
  ∃ a' sd, deliver junk (retransmit_message sid stm r) a = (Ok true, a') ∧ sink_ok (cc_out a') ∧
    sink_accepted (cc_out a') = sink_accepted (cc_out a) ++ enc_packets (w_packets w) r (w_sent w) ∧
    cc_sockets a' !! sid = Some (sd_set_sends (w_sent w - w_acked w + (w_sent w - r))
      (u32 (w_sent w - 1 + (w_sent w - r))) sd) ∧ cc_sockets a !! sid = Some sd.
Proof.
  destruct w as [ps ac se]. intros Hall (Hw1 & Hw2 & _) Hps Hr (Hs & Hacc & sd & Hsd & [d Hobj] & Hnr & Hb & Hpe & Hla).
  cbn [w_packets w_acked w_sent] in *. specialize (Hla ltac:(lia)).
  destruct (do_send_ok sid ps ac sd r (sd_last_sent sd) (cc_out a) Hps) as (o1 & E1 & Hs1 & Ha1);
    [lia|done|lia|done|].
  replace (Z.max r _) with se in E1, Ha1 by lia. rewrite (proj2 (Z.eqb_neq se r)) in E1; [lia|].
  destruct (flush_total o1 Hs1) as (o2 & E2 & Hs2 & Ha2).
  assert (deliver_retransmit (retransmit_message sid stm r) a = (Ok true,
    cc_set_out o2 (cc_set_sockets (<[sid := sd_set_sends (sd_pending_sends sd + (se - r))
      (u32 (sd_last_sent sd + (se - r))) sd]> (cc_sockets a)) (cc_set_out o1 a)))) as Hd.
  { rewrite /deliver_retransmit. erewrite bind_ok; [|done]. erewrite bind_ok; [|done].
    cbn [m_field2 m_field3 retransmit_message]. rewrite Hsd.
    erewrite (bind_ok _ _ _ _ (cc_set_out o1 a)); [|by rewrite /a_out /zoom E1].
    erewrite bind_ok; [|done]. erewrite (bind_ok _ _ _ tt); [|rewrite /a_out /zoom /= E2; done]. done. }
  do 2 eexists. split; [exact Hd|]. cbn. rewrite Ha2 Ha1 Hpe Hla.
  split_and!; [done|done|apply lookup_insert_eq|done].
Qed.

(** A packet whose number is not the next one is kept, not sent. *)
Lemma give_waits sid ps ac sd o a :
  packets_ok sid (ps ++ [o]) → 0 <= ac <= zlen ps → ps ≠ [] → cc_sockets a !! sid = Some sd →
  sd_seq_nrs sd = zlen ps → buffers ps ac (sd_buffer sd) → u32 (sd_last_sent sd + 1) ≠ zlen ps →
  ∃ b, on_event sid (give o) a = (Ok tt, cc_set_sockets (<[sid :=
      sd_set_buffer b (sd_set_seq_nrs (zlen ps + 1) sd)]> (cc_sockets a)) a) ∧ buffers (ps ++ [o]) ac b.
Proof.
  intros Hps Ha Hne Hsd Hnr Hb Hla. pose proof Hps as [Hlen _].
  rewrite zlen_app zlen_cons zlen_nil /max_pending_sends in Hlen.
  apply packets_ok_snoc in Hps as (Hps & Hrep & Hsid).
  destruct (buffers_snoc ps o ac _ ltac:(lia) Hb) as [Hn Hb'].
  eexists. split; [|exact Hb'].
  cbn. rewrite /send_mcast Hsid. erewrite bind_ok; [|done]. rewrite Hsd.
  cbn [omp_seq_nr omp_set_seq_nr sd_last_sent sd_set_seq_nrs sd_pending_sends]. rewrite Hnr.
  assert (0 < zlen ps). { destruct ps; [done|]. rewrite zlen_cons. pose proof (zlen_nonneg ps). lia. }
  rewrite (proj2 (Z.eqb_neq (zlen ps) 0)); [lia|]. rewrite (proj2 (Z.eqb_neq (zlen ps) (u32 _)) (not_eq_sym Hla)).
  rewrite /mbind /M_bind. cbn. rewrite Hn Hsid /u32 uwrap_small; [rewrite /fits; lia|done].
Qed.
End sending.

Lemma packets_ok_forall sid ps :
  zlen ps + 2 * max_pending_sends < 2 ^ 32 →
  Forall (λ p, rep_message (packet_message (omp_set_seq_nr 0 p)) ∧ omp_sck_id p = sid) ps → packets_ok sid ps.
Proof.
  intros Hl Hps. split; [done|]. intros k o Hk Hk0.
  assert (k < zlen ps) as Hlt by (apply nth_packet_some; [done|eauto]).
  rewrite /nth_packet in Hk. apply fmap_Some in Hk as (p & Hp & ->).
  destruct (Forall_lookup_1 _ _ _ _ Hps Hp) as [((B1 & B2 & B3 & _ & B5) & Hc & Hz) Hs].
  rewrite /max_pending_sends in Hl. split; [|done]. split; [|done]. simpl in *. split_and!; lia.
Qed.

(** ** Samples *)

(** A new channel whose source delivers the given chunks. *)
Definition sample_client (chunks : list bytes) : @client log_sink (list bytes) :=
  (new_client_channel 7 chunks empty_log).2.

Lemma sample_client_holds chunks : holds [] (cl_rd (sample_client chunks)).
Proof.
  exists []. split_and!; [|reflexivity|].
  - split; [reflexivity|]. rewrite /fields_of zlen_nil. split_and!; lia.
  - vm_compute. split_and!; (reflexivity || discriminate).
Qed.

Definition sample_packet : omp :=
  {| omp_seq_nr := 0; omp_stm_id := 4; omp_sck_id := 1; omp_content_size := 2; omp_content := Some (str "hi") |}.

(** An application with a new sending socket. *)
Definition sample_app : app log_sink :=
  cc_set_sockets {[1 := sd_set_mcast_obj (Some 5) (new_socket_data 7)]} (new_app empty_log).

Lemma sample_app_implements : implements 1 [] (Build_window [] 0 0) sample_app.
Proof.
  split_and!; [exact I|reflexivity|]. eexists. split; [apply lookup_singleton_eq|].
  split_and!; try done. intros k. rewrite lookup_empty. by destruct (_ <=? k).
Qed.

Lemma sample_packets_ok n : (n <= 10)%nat → packets_ok 1 (replicate n sample_packet).
Proof.
  intros Hn. apply packets_ok_forall.
  - rewrite /zlen length_replicate /max_pending_sends. lia.
  - apply Forall_replicate. split; [|done]. vm_compute. split_and!; (reflexivity || discriminate).
Qed.

Lemma empty_window_ok : window_ok (Build_window [] 0 0).
Proof. vm_compute. split_and!; (reflexivity || discriminate). Qed.

(** ** Theorems *)

(** C8: the client's reader cuts the stream into messages, wherever it is
    split.  Whatever part [d] of a message it holds (in its fields and in its
    buffer), the next call of [ipc_read] takes what the source has, [bs],
    and ends as [streams] says of [d ++ bs]: message after message is
    delivered; behind a message whose content is skipped the next one
    starts after the content, behind an event and a packet for a socket
    without receiver it starts with the content; the first exception or
    undefined delivery ends the call with the messages before it delivered;
    otherwise the reader holds exactly the incomplete rest and its buffer
    keeps its size.  In particular, [d ++ bs] is a list [ms] of whole
    messages and a rest, and if the contents are skipped, exactly [ms] are
    delivered, in order, and the rest is kept. *)
Theorem client_reads_messages {S R : Type} `{Sink S} `{ReadSomeSpec R} (junk : Z) (c : @client S R) (d : bytes) :
  holds d (cl_rd c) → source_ok (cl_src c) → source_rest (cl_src c) ≠ [] →
  0 < wb_remaining (rd_wb (cl_rd c)) →
  ∃ bs src' o app', source_ok src' ∧ 0 < zlen bs ∧ source_rest (cl_src c) = bs ++ source_rest src' ∧
    streams junk (d ++ bs) (cl_app c) o app' ∧ reading_ends c src' app' o (cc_ipc_read junk c) ∧
    ∃ ms rest, cut (d ++ bs) ms rest ∧
      (all_skipped junk ms (cl_app c) = true →
       reading_ends c src' (deliver_all junk ms (cl_app c)).2
         (outcome_map (λ _, rest) (deliver_all junk ms (cl_app c)).1) (cc_ipc_read junk c)).
Proof.
  intros Hd Hs Hne Hrem.
  destruct (source_read_some_spec _ _ _ Hs eq_refl Hrem Hne) as (bs & src' & E & Hs' & Hr & Hlen).
  destruct (stream_cut (d ++ bs)) as (ms & rest & Hcut).
  destruct (streams_total junk (d ++ bs) (cl_app c)) as (o & app' & Hst).
  exists bs, src', o, app'. split_and!; [done|lia|done|done| |].
  - apply (read_round junk c d bs src'); [done|done|lia|done].
  - exists ms, rest. split; [done|]. intros Hsk. apply (read_round junk c d bs src'); [done|done|lia|].
    by apply cut_streams.
Qed.

Lemma client_reads_messages_witness :
  let msgs := enc_message (ack_message 1 0 7) ++ enc_message (ack_message 2 0 9) in
  let c := sample_client [ztake 20 msgs; zdrop 20 msgs] in
  ∃ bs src' o app', source_ok src' ∧ 0 < zlen bs ∧ source_rest (cl_src c) = bs ++ source_rest src' ∧
    streams 7 ([] ++ bs) (cl_app c) o app' ∧ reading_ends c src' app' o (cc_ipc_read 7 c) ∧
    ∃ ms rest, cut ([] ++ bs) ms rest ∧
      (all_skipped 7 ms (cl_app c) = true →
       reading_ends c src' (deliver_all 7 ms (cl_app c)).2
         (outcome_map (λ _, rest) (deliver_all 7 ms (cl_app c)).1) (cc_ipc_read 7 c)).
Proof.
  intros msgs c. apply (client_reads_messages 7 c []).
  - apply sample_client_holds.
  - repeat constructor; discriminate.
  - vm_compute. discriminate.
  - vm_compute. reflexivity.
Defined.



(** A retransmission stalls the socket.  Let all packets of a socket be
    sent, and let the middleware ask for the packets from [r] on: they are
    sent again, but they are also counted again in [last_sent] and
    [pending_sends].  The next packet handed over is not sent although the
    window is open, and not even when everything else is acknowledged: it
    stays in the buffer, and [pending_sends] counts packets nobody waits
    for. *)
Theorem retransmit_stalls {S : Type} `{TotalSink S} (junk sid : Z) (out0 : bytes) (w : window) (a : app S)
    (stm r : Z) (o : omp) :
  w_sent w = zlen (w_packets w) → window_ok w → packets_ok sid (w_packets w ++ [o]) →
  2 * w_sent w < 2 ^ 32 → w_acked w <= r < w_sent w → implements sid out0 w a →
  ∃ a' sd,
    (deliver junk (retransmit_message sid stm r) ;; on_event junk sid (give o) ;;
     on_event junk sid (acknowledge stm (w_sent w - 1))) a = (Ok tt, a') ∧
    sink_accepted (cc_out a') =
      out0 ++ enc_packets (w_packets w) 0 (w_sent w) ++ enc_packets (w_packets w) r (w_sent w) ∧
    cc_sockets a' !! sid = Some sd ∧ sd_buffer sd !! w_sent w = Some (omp_set_seq_nr (w_sent w) o) ∧
    sd_pending_sends sd = w_sent w - r.
Proof.
  destruct w as [ps ac se]. cbn [w_packets w_acked w_sent]. intros Hall Hw Hps Hbig Hr Hi.
  pose proof (packets_ok_app _ _ _ Hps) as Hps0. pose proof Hps as [Hlen _].
  rewrite zlen_app zlen_cons zlen_nil in Hlen. assert (0 <= ac <= se) as Hac by apply Hw.
  destruct (retransmit_runs junk sid out0 (Build_window ps ac se) stm r a Hall Hw Hps0 Hr Hi) as (a1 & sd & E1 & Hs1 & Ha1 & Hsd1 & Hsd).
  destruct Hi as (Hs & Hacc & sd' & Hsd' & [d Hobj] & Hnr & Hb & _).
  rewrite Hsd in Hsd'. injection Hsd' as <-.
  cbn [w_packets w_acked w_sent] in *.
  assert (u32 (se - 1 + (se - r)) = 2 * se - r - 1) as El by (rewrite /u32 uwrap_small; [rewrite /fits|]; lia).
  assert (u32 (2 * se - r - 1 + 1) = 2 * se - r) as Ef by (rewrite /u32 uwrap_small; [rewrite /fits|]; lia).
  rewrite El in Hsd1.
  destruct (give_waits junk sid ps ac _ o a1 Hps ltac:(lia) ltac:(intros ->; rewrite zlen_nil in Hall; lia) Hsd1 Hnr Hb)
    as (b & E2 & Hb2); [simpl; rewrite Ef; lia|].
  set (sd2 := sd_set_buffer b _) in E2.
  destruct (drop_ok (ps ++ [o]) ac sd2 (se - 1) ltac:(lia) Hb2) as (rel & b3 & Hdrop & Hb3).
  rewrite zlen_app zlen_cons zlen_nil in Hdrop, Hb3. replace (Z.max ac _) with se in Hdrop, Hb3 by lia.
  set (sd3 := sd_set_sends _ _ _) in Hdrop.
  set (a2 := cc_set_sockets _ a1) in E2.
  assert (refill sd3 (cc_out a2) = (Ok sd3, cc_out a2)) as Hre.
  { rewrite /refill. destruct (_ <? _); [|done]. cbn zeta. change (sd_last_sent sd3) with (2 * se - r - 1).
    rewrite Ef /do_send. change (sd_buffer sd3) with b3.
    assert (b3 !! (2 * se - r) = None) as ->; [|done]. apply eq_None_not_Some.
    rewrite (buffers_interval (ps ++ [o]) se) // ?zlen_app ?zlen_cons ?zlen_nil; lia. }
  destruct (ack_runs junk sid stm (se - 1) a2 sd2 d rel sd3 sd3 (cc_out a2)) as (a3 & sd4 & E3 & _ & Ha3 & Hsd4 & E4);
    [apply lookup_insert_eq|done|done|done|done|].
  exists a3, sd4. split_and!; [by step_ok E1; step_ok E2| |done| |].
  - rewrite Ha3. change (cc_out a2) with (cc_out a1). by rewrite Ha1 Hacc -app_assoc.
  - rewrite E4. change (b3 !! se = Some (omp_set_seq_nr se o)). rewrite Hb3 Z.leb_refl Hall nth_packet_snoc.
    + lia.
    + by rewrite Z.eqb_refl.
  - rewrite E4. change (se - ac + (se - r) - (se - ac) = se - r). lia.
Qed.

Lemma retransmit_stalls_witness :
  ∃ a a' sd, for_each [give sample_packet; give sample_packet] (on_event 7 1) sample_app = (Ok tt, a) ∧
    (deliver 7 (retransmit_message 1 4 0) ;; on_event 7 1 (give sample_packet) ;;
     on_event 7 1 (acknowledge 4 1)) a = (Ok tt, a') ∧
    cc_sockets a' !! 1 = Some sd ∧ sd_buffer sd !! 2 = Some (omp_set_seq_nr 2 sample_packet) ∧
    sd_pending_sends sd = 2.
Proof.
  destruct (events_run 7 1 [] [give sample_packet; give sample_packet] (Build_window [] 0 0) sample_app
    empty_window_ok sample_app_implements (conj I (conj I I)) (sample_packets_ok 2 ltac:(lia)))
    as (a & E & Hi & Hw).
  destruct (retransmit_stalls 7 1 [] (Build_window (replicate 2 sample_packet) 0 2) a 4 0 sample_packet)
    as (a' & sd & E' & _ & Hs & Hb & Hp).
  - reflexivity.
  - exact Hw.
  - apply (sample_packets_ok 3). lia.
  - simpl. lia.
  - simpl. lia.
  - exact Hi.
  - by exists a, a', sd.
Defined.

(** C36: an event blocks the channel.  The content of an [async_event]
    message is read but not skipped, so it is read again as the header of
    the next message.  When the group's name has at least twelve bytes, its
    bytes 8 to 11 become the content size; that is more than the buffer can
    ever hold, so after reporting the event the reader waits for ever: no
    amount of further data makes it deliver another message. *)
Theorem event_blocks_channel {S R : Type} `{Sink S} `{Source R} (junk : Z) (c : @client S R)
    (ev : membership_event) (rest : bytes) (src' : R) :
  holds [] (cl_rd c) →
  source_read_some (wb_remaining (rd_wb (cl_rd c))) (cl_src c) = (Ok (enc_message (event_message ev) ++ rest), src') →
  zlen (enc_message (event_message ev) ++ rest) <= wb_remaining (rd_wb (cl_rd c)) →
  ev_type ev ≠ invalid_event → 0 <= ev_iid ev < 2 ^ 32 → rep_uri (ev_group ev) →
  uri_empty (ev_group ev) = false → cache_ok (cc_cache (cl_app c)) →
  header_size <= zlen (enc_uri (ev_group ev)) →
  default_max_write_buffer_size < slice 12 4 (enc_uri (ev_group ev)) →
  let d := enc_uri (ev_group ev) ++ rest in
  ∃ r cache', cc_ipc_read junk c = (Ok tt, Build_client
      (cc_set_log (cc_log (cl_app c) ++ ((λ cb, fx_event cb ev) <$> cc_cbs (cl_app c)))
        (cc_set_cache cache' (cl_app c))) r src') ∧ holds d r ∧
    ∀ more, zlen (d ++ more) <= header_size + default_max_write_buffer_size → incomplete (d ++ more).
Proof.
  intros Hh Hsrc Hlen Ht Hi Hu He Hc Hmin Hbig d.
  assert (wb_remaining (rd_wb (cl_rd c)) <= default_max_write_buffer_size) as Hrem.
  { destruct Hh as (? & _ & _ & Hwb). destruct Hwb. rewrite /wb_remaining. lia. }
  assert (zlen (enc_uri (ev_group ev)) <= default_max_write_buffer_size) as Hl.
  { rewrite zlen_app /enc_message zlen_app enc_header_size /= in Hlen.
    pose proof (zlen_nonneg rest). rewrite /header_size in Hlen. lia. }
  assert (rep_message (event_message ev)) as Hrep.
  { rewrite /rep_message. cbn [m_type m_field1 m_field2 m_field3 m_content_size m_content event_message].
    rewrite /default_max_write_buffer_size in Hl. rewrite /header_size in Hmin.
    split_and!; try lia; try done; by destruct (ev_type ev). }
  assert (∀ more, zlen (d ++ more) <= header_size + default_max_write_buffer_size → incomplete (d ++ more)) as Hinc.
  { intros more Hm. right. rewrite /d -app_assoc slice_app; [lia|lia|exact Hmin|].
    rewrite /d -app_assoc in Hm. lia. }
  destruct (event_delivered junk ev (cl_app c) Ht Hu He Hl Hc) as (cache' & Hdel).
  assert (streams junk ([] ++ enc_message (event_message ev) ++ rest) (cl_app c) (Ok d)
    (cc_set_log (cc_log (cl_app c) ++ ((λ cb, fx_event cb ev) <$> cc_cbs (cl_app c)))
      (cc_set_cache cache' (cl_app c)))) as Hst.
  { eapply streams_message; [done|exact Hdel|]. rewrite -(deliver_skips junk _ _ _ _ Hdel). apply streams_stop. rewrite -(app_nil_r d). apply Hinc. rewrite app_nil_r.
    rewrite zlen_app /enc_message zlen_app enc_header_size /= in Hlen.
    rewrite /d zlen_app. rewrite /header_size in Hlen |- *. lia. }
  destruct (read_round junk c [] _ src' _ _ Hh Hsrc Hlen Hst) as (r & E & Hr & _).
  by exists r, cache'.
Qed.

Lemma event_blocks_channel_witness :
  let ev := sample_event in
  let c := sample_client [enc_message (event_message ev) ++ enc_message (ack_message 1 0 7)] in
  ∃ r cache', cc_ipc_read 7 c = (Ok tt, Build_client (cc_set_cache cache' (cl_app c)) r []) ∧
    holds (enc_uri (ev_group ev) ++ enc_message (ack_message 1 0 7)) r.
Proof.
  intros ev c.
  destruct (event_blocks_channel 7 c ev (enc_message (ack_message 1 0 7)) []) as (r & cache' & E & Hr & _).
  - apply sample_client_holds.
  - vm_compute. reflexivity.
  - vm_compute. discriminate.
  - discriminate.
  - vm_compute. split; [discriminate|reflexivity].
  - split; [vm_compute; reflexivity|]. apply (bool_decide_unpack _). vm_compute. exact I.
  - vm_compute. reflexivity.
  - split; [done|]. vm_compute. lia.
  - vm_compute. discriminate.
  - vm_compute. reflexivity.
  - exists r, cache'. split; [exact E|exact Hr].
Defined.
