(* ===== verification/MulticastSocket.v ===== *)
(** * The client's socket

    [multicast_socket] and its private part ([multicast_socket.cpp]): the
    object an application sends and receives with.  Sending takes storage
    from a blocking semaphore and hands a copy of the data to the channel;
    the channel releases the storage when the packet is acknowledged.
    Receiving takes packets from a queue the channel fills within the limits
    of a second semaphore.

    The socket and the channel ([ClientChannel]) run interleaved; the
    theorems account for every byte of both semaphores. *)

From S2P Require Import Prelude Config Uri Streams Serialization Message StorageSemaphore SyncFunction ClientChannel.

(** ** Data *)

(** [out_stream]; the id of an invalid stream is indeterminate. *)
Record out_stream := { os_valid : bool; os_id : Z }.
Definition new_out_stream (junk : Z) : out_stream := {| os_valid := false; os_id := junk |}.
Definition set_id (new_id : Z) (o : out_stream) : out_stream := {| os_valid := true; os_id := new_id |}.

(** [multicast_socket_private]; [std::map<uri, out_stream>] compares the
    strings of the URIs. *)
Record sock := {
  ms_id : Z;
  ms_max_msg_size : Z;
  ms_in_stream : list multicast_packet;
  ms_out_streams : gmap bytes out_stream;
  ms_in_buffer : Z;
  ms_out_buffer : Z
}.

Definition ms_set_in q n s := {| ms_id := ms_id s; ms_max_msg_size := ms_max_msg_size s; ms_in_stream := q;
  ms_out_streams := ms_out_streams s; ms_in_buffer := n; ms_out_buffer := ms_out_buffer s |}.
Definition ms_set_out_streams m s := {| ms_id := ms_id s; ms_max_msg_size := ms_max_msg_size s;
  ms_in_stream := ms_in_stream s; ms_out_streams := m; ms_in_buffer := ms_in_buffer s;
  ms_out_buffer := ms_out_buffer s |}.
Definition ms_set_out_buffer n s := {| ms_id := ms_id s; ms_max_msg_size := ms_max_msg_size s;
  ms_in_stream := ms_in_stream s; ms_out_streams := ms_out_streams s; ms_in_buffer := ms_in_buffer s;
  ms_out_buffer := n |}.

Definition multicast_socket_private (sid max_msg_size : Z) : sock :=
  {| ms_id := sid; ms_max_msg_size := max_msg_size; ms_in_stream := []; ms_out_streams := ∅;
     ms_in_buffer := default_max_buffer_size; ms_out_buffer := default_max_buffer_size |}.

(** ** Operations *)

Section ops.
Context (junk : Z).

(** The stream id of a group: the first packet to a group creates its
    stream; [answer] is what the middleware answers. *)
Definition stream_of (answer : outcome Z) (u : uri) : M sock Z :=
  m ← gets ms_out_streams;
  let ostm := default (new_out_stream junk) (m !! uri_str u) in
  modify (ms_set_out_streams (<[uri_str u := ostm]> m)) ;;
  if os_valid ostm then mret (os_id ostm)
  else
    new_id ← (λ s, (answer, s));
    modify (ms_set_out_streams (<[uri_str u := set_id new_id ostm]> m)) ;;
    mret new_id.

(** [multicast_socket_private::send] up to the moment [acquire] has taken
    its bytes; the result is the packet that goes to the channel once
    [acquire] returns. *)
Definition private_send (answer : outcome Z) (u : uri) (msg_len : Z) (buf : bytes) : M sock (option omp) :=
  max ← gets ms_max_msg_size;
  require (msg_len <=? max) "message too big" ;;
  let buf_len := u32 msg_len in
  if uri_empty u then mret None
  else
    stm_id ← stream_of answer u;
    (if zlen buf <? buf_len then ub "memcpy past the end of the buffer" else mret tt) ;;
    let buf_copy := ztake buf_len buf in
    modify (λ s, ms_set_out_buffer (i32 (ms_out_buffer s - i32 (Z.max buf_len min_buffer_chunk))) s) ;;
    sid ← gets ms_id;
    mret (Some {| omp_seq_nr := junk; omp_stm_id := stm_id; omp_sck_id := sid;
                  omp_content_size := buf_len; omp_content := Some buf_copy |}).

(** [multicast_socket::send]. *)
Definition send (answer : outcome Z) (u : uri) (msg_len : Z) (buf : option bytes) : M sock (option omp) :=
  match buf with
  | Some b =>
      require (0 <? msg_len) "buf != 0 && msg_len > 0" ;;
      require (negb (uri_empty u)) "!u.empty()" ;;
      private_send answer u msg_len b
  | None => throw (requirement_failed "buf != 0 && msg_len > 0")
  end.

(** [async_recv]: a packet that does not fit is dropped. *)
Definition async_recv (mp : multicast_packet) (s : sock) : sock :=
  match semaphore.try_acquire (i32 (mp_size mp)) (ms_in_buffer s) with
  | Some av => ms_set_in (ms_in_stream s ++ [mp]) av s
  | None => s
  end.

(** [release_storage] of the socket: what the channel's call of
    [multicast_socket::release_storage] adds to the semaphore. *)
Definition release_out (n : Z) (s : sock) : sock :=
  ms_set_out_buffer (semaphore.release_bytes n (ms_out_buffer s)) s.

(** [try_receive] and [receive], which blocks while the queue is empty. *)
Definition try_receive (s : sock) : option multicast_packet * sock :=
  match ms_in_stream s with
  | mp :: q => (Some mp, ms_set_in q (semaphore.release_bytes (i32 (mp_size mp)) (ms_in_buffer s)) s)
  | [] => (None, s)
  end.
Definition receive (s : sock) : option (multicast_packet * sock) :=
  match try_receive s with (Some mp, s') => Some (mp, s') | (None, _) => None end.

(** What the channel did for the socket with pointer [d]. *)
Definition apply_effect (d : Z) (s : sock) (e : cc_effect) : sock :=
  match e with
  | fx_release d' n => if d' =? d then release_out n s else s
  | fx_recv d' mp => if d' =? d then async_recv mp s else s
  | _ => s
  end.
End ops.

(** ** The socket and the channel together *)

Section system.
Context {S : Type} `{Sink S} (junk sid d : Z).

(** A socket [sid] with pointer [d], the channel, and the packet of a [send]
    that has not returned from [acquire].  Two counters observe the run: the
    packets sent, and the acknowledgements that acknowledge nothing new. *)
Record world := {
  w_sock : sock;
  w_app : app S;
  w_waiting : option omp;
  w_sends : Z;
  w_idle_acks : Z
}.

(** An acknowledgement of the socket that drops no packet. *)
Definition idle_ack (m : message) (a : app S) : bool :=
  (m_type m =? message_type.cumulative_ack) && (m_field2 m =? sid) &&
  match cc_sockets a !! sid with
  | Some sd => bool_decide (filter (λ kv, kv.1 <= m_field3 m) (sd_buffer sd) = ∅)
  | None => false
  end.

(** The effects of an operation of the channel on the socket. *)
Definition run_effects (a a' : app S) (s : sock) : sock :=
  foldl (apply_effect d) s (drop (length (cc_log a)) (cc_log a')).

(** Messages other parts of the application hand to the channel. *)
Definition foreign (e : cc_msg) : Prop :=
  match e with
  | omp_t o => omp_sck_id o ≠ sid ∧ 0 <= omp_content_size o
  | reg_d_ptr_t s p => s ≠ sid ∧ p ≠ d
  | _ => True
  end.

Inductive step : world → world → Prop :=
  | step_send answer u msg_len buf r s' w :
      w_waiting w = None → send junk answer u msg_len buf (w_sock w) = (r, s') →
      step w {| w_sock := s'; w_app := w_app w;
                w_waiting := match r with Ok (Some o) => Some o | _ => None end;
                w_sends := match r with Ok (Some o) => w_sends w + 1 | _ => w_sends w end;
                w_idle_acks := w_idle_acks w |}
  | step_return o w :
      w_waiting w = Some o → 0 <= ms_out_buffer (w_sock w) →
      step w {| w_sock := w_sock w; w_app := (cc_push (omp_t o) (w_app w)).2; w_waiting := None;
                w_sends := w_sends w; w_idle_acks := w_idle_acks w |}
  | step_other e w :
      foreign e →
      step w {| w_sock := w_sock w; w_app := (cc_push e (w_app w)).2; w_waiting := w_waiting w;
                w_sends := w_sends w; w_idle_acks := w_idle_acks w |}
  | step_poll e q a' w :
      cc_queue (w_app w) = e :: q → handle_cc_msg junk e (cc_set_queue q (w_app w)) = (Ok tt, a') →
      step w {| w_sock := run_effects (w_app w) a' (w_sock w); w_app := a'; w_waiting := w_waiting w;
                w_sends := w_sends w; w_idle_acks := w_idle_acks w |}
  | step_deliver m b a' w :
      deliver junk m (w_app w) = (Ok b, a') →
      step w {| w_sock := run_effects (w_app w) a' (w_sock w); w_app := a'; w_waiting := w_waiting w;
                w_sends := w_sends w;
                w_idle_acks := w_idle_acks w + (if idle_ack m (w_app w) then 1 else 0) |}
  | step_receive w :
      step w {| w_sock := (try_receive (w_sock w)).2; w_app := w_app w; w_waiting := w_waiting w;
                w_sends := w_sends w; w_idle_acks := w_idle_acks w |}.

(** ** Accounting *)

Definition buffered (b : gmap Z omp) : Z := map_fold (λ _ o n, chunk_size o + n) 0 b.

(** Weight of the messages in the queue of the channel. *)
Definition queued (f : omp → Z) (q : list cc_msg) : Z :=
  zsum (λ e, match e with omp_t o => if omp_sck_id o =? sid then f o else 0 | _ => 0 end) q.

(** The bytes of the packets the channel has not dropped yet. *)
Definition outstanding (a : app S) : Z :=
  queued chunk_size (cc_queue a) + from_option (λ sd, buffered (sd_buffer sd)) 0 (cc_sockets a !! sid).

Definition released (log : list cc_effect) : Z :=
  zsum (λ e, match e with fx_release d' n => if d' =? d then n else 0 | _ => 0 end) log.

Lemma chunk_pos o : 0 < chunk_size o.
Proof. rewrite /chunk_size. change min_buffer_chunk with 32768. lia. Qed.

Lemma buffered_insert b k o : b !! k = None → buffered (<[k := o]> b) = chunk_size o + buffered b.
Proof. intros Hk. rewrite /buffered map_fold_insert_L //; intros; lia. Qed.

Lemma buffered_nonneg b : 0 <= buffered b.
Proof.
  induction b as [|k o b Hk IH] using map_ind; [by rewrite /buffered map_fold_empty|].
  rewrite buffered_insert //. pose proof (chunk_pos o). lia.
Qed.

Lemma buffered_empty : buffered ∅ = 0.
Proof. by rewrite /buffered map_fold_empty. Qed.

(** The sum [drop_smaller_or_equal_seq_nrs] computes in 32 bits. *)
Lemma buffered_u32 b : map_fold (λ _ o n, u32 (n + chunk_size o)) 0 b = u32 (buffered b).
Proof.
  induction b as [|k o b Hk IH] using map_ind; [by rewrite buffered_empty map_fold_empty|].
  rewrite buffered_insert // map_fold_insert_L //.
  - intros k1 k2 o1 o2 n _ _ _. rewrite /u32 /uwrap !Zplus_mod_idemp_l. f_equal. lia.
  - rewrite IH /u32 /uwrap Zplus_mod_idemp_l. f_equal. lia.
Qed.

Lemma buffered_filter b n :
  buffered b = buffered (filter (λ kv, kv.1 <= n) b) + buffered (filter (λ kv, ¬ kv.1 <= n) b).
Proof.
  induction b as [|k o b Hk IH] using map_ind; [by rewrite !map_filter_empty buffered_empty|].
  rewrite buffered_insert // IH. destruct (decide (k <= n)) as [Hle|Hgt].
  - rewrite map_filter_insert_True // (map_filter_insert_not' _ _ k); [simpl; tauto|intros ? E; by rewrite E in Hk|].
    rewrite buffered_insert; [by apply map_lookup_filter_None_2; left|]. lia.
  - rewrite (map_filter_insert_True (λ kv : Z * omp, ¬ kv.1 <= n)) //.
    rewrite (map_filter_insert_not' (λ kv : Z * omp, kv.1 <= n) _ k); [done|intros ? E; by rewrite E in Hk|].
    rewrite (buffered_insert (filter (λ kv : Z * omp, ¬ kv.1 <= n) b)); [by apply map_lookup_filter_None_2; left|]. lia.
Qed.

Lemma buffered_pos b : b ≠ ∅ → min_buffer_chunk <= buffered b.
Proof.
  destruct b as [|k o b Hk _] using map_ind; [done|]. intros _. rewrite buffered_insert //.
  pose proof (buffered_nonneg b). rewrite /chunk_size. lia.
Qed.

(** The messages the queue may hold besides packets. *)
Definition queue_ok (e : cc_msg) : Prop :=
  match e with reg_d_ptr_t s p => s ≠ sid ∧ p ≠ d | _ => True end.

(** The channel's part of the books: [t] packets came in, [c] bytes are
    outstanding or released. *)
Record books (t c : Z) (a : app S) : Prop := {
  b_sock : ∃ sd, cc_sockets a !! sid = Some sd ∧ sd_mcast_obj sd = Some d ∧
    (∀ k, is_Some (sd_buffer sd !! k) → k < sd_seq_nrs sd) ∧
    0 <= sd_seq_nrs sd ∧ sd_seq_nrs sd + queued (λ _, 1) (cc_queue a) = t;
  b_ptr k sd : cc_sockets a !! k = Some sd → sd_mcast_obj sd = Some d → k = sid;
  b_queue : Forall queue_ok (cc_queue a);
  b_sum : outstanding a + released (cc_log a) = c
}.

(** What leaves the books alone. *)
Definition keeps {A} (m : M (app S) A) : Prop :=
  ∀ a r a', m a = (Ok r, a') →
    cc_sockets a' = cc_sockets a ∧ cc_queue a' = cc_queue a ∧ released (cc_log a') = released (cc_log a).

Lemma kept_books {A} (m : M (app S) A) a r a' t c : keeps m → m a = (Ok r, a') → books t c a → books t c a'.
Proof.
  intros Hk (E1 & E2 & E3)%Hk [H1 H2 H3 H4].
  split; rewrite /outstanding ?E1 ?E2 ?E3; done.
Qed.

Lemma kept_ret {A} (x : A) : keeps (mret x).
Proof. intros a r a' E. by injection E as <- <-. Qed.
Lemma kept_throw {A} e : keeps (throw e : M (app S) A).
Proof. by intros a r a'. Qed.
Lemma kept_bind {A B} (m : M (app S) A) (k : A → M (app S) B) : keeps m → (∀ x, keeps (k x)) → keeps (m ≫= k).
Proof.
  intros Hm Hk a r a' E. inv_bind E as x a1 E1. apply Hm in E1 as (<- & <- & <-). by apply Hk in E.
Qed.
Lemma kept_gets {A} (f : app S → A) : keeps (gets f).
Proof. intros a r a' E. by injection E as <- <-. Qed.
Lemma kept_require b what : keeps (require b what).
Proof. rewrite /require. destruct b; [apply kept_ret|apply kept_throw]. Qed.
Lemma kept_out {A} (m : M S A) : keeps (a_out m).
Proof. intros a r a'. rewrite /a_out /zoom. destruct (m (cc_out a)). intros. by simplify_eq/=. Qed.
Lemma kept_cache {A} (m : M (gmap bytes uri) A) : keeps (a_cache m).
Proof. intros a r a'. rewrite /a_cache /zoom. destruct (m (cc_cache a)). intros. by simplify_eq/=. Qed.
Lemma kept_effect e : (∀ n, e ≠ fx_release d n) → keeps (effect e).
Proof.
  intros He a r a' E. rewrite /effect /modify in E. simplify_eq/=. split_and!; [done..|]. rewrite /released zsum_app /=.
  destruct e as [| |d' n| |]; try lia. destruct (Z.eqb_spec d' d) as [->|]; [by destruct (He n)|lia].
Qed.
Lemma kept_requests f g : keeps (modify (λ a, cc_set_requests (f a) (g a) a) : M (app S) unit).
Proof. intros a r a' E. rewrite /modify in E. by simplify_eq/=. Qed.
Lemma kept_for_each {A} (l : list A) (body : A → M (app S) unit) :
  (∀ x, keeps (body x)) → keeps (for_each l body).
Proof. intros Hb. induction l; simpl; [apply kept_ret|by apply kept_bind]. Qed.
Lemma kept_first_value co n data : keeps (first_value co n data).
Proof. apply kept_cache. Qed.
Lemma kept_find_socket k : keeps (find_socket k).
Proof. apply kept_gets. Qed.

(** Peels a program of such steps. *)
Ltac keeps :=
  repeat first
    [ apply kept_bind; [|intros ?] | apply kept_ret | apply kept_throw | apply kept_require
    | apply kept_out | apply kept_cache | apply kept_first_value | apply kept_find_socket | apply kept_gets
    | apply kept_effect; [by intros ?] | apply kept_for_each; intros ? | case_match ].

(** Carries the books [Hb] over the step [E]. *)
Ltac kept Hb E :=
  match type of E with
  | ?m ?a = (Ok ?r, ?a') =>
      let K := fresh in
      assert (keeps m) as K by keeps; apply (kept_books m a r a' _ _ K E) in Hb; clear K
  end.

Lemma kept_deliver_recv m : keeps (deliver_recv m).
Proof. rewrite /deliver_recv. keeps. Qed.
Lemma kept_deliver_event m : keeps (deliver_event_msg m).
Proof. rewrite /deliver_event_msg. keeps. Qed.

(** A socket changes, but not its packets, numbers and pointer. *)
Definition same_packets (sd sd' : socket_data) : Prop :=
  sd_buffer sd' = sd_buffer sd ∧ sd_mcast_obj sd' = sd_mcast_obj sd ∧ sd_seq_nrs sd' = sd_seq_nrs sd.

Lemma books_set_socket t c a k sd sd' :
  books t c a → cc_sockets a !! k = Some sd → same_packets sd sd' →
  books t c (cc_set_sockets (<[k := sd']> (cc_sockets a)) a).
Proof.
  intros [(sd0 & H1 & H2 & H3 & H4) Hp Hq Hs] Hk (E1 & E2 & E3). split; simpl.
  - destruct (decide (k = sid)) as [->|Hne].
    + simplify_eq. exists sd'. rewrite lookup_insert_eq E1 E2 E3. done.
    + exists sd0. rewrite lookup_insert_ne; done.
  - intros j sdj Hj Hd. apply lookup_insert_Some in Hj as [(<- & <-)|(Hne & Hj)]; [|by eapply Hp].
    rewrite E2 in Hd. by eapply Hp.
  - done.
  - rewrite -Hs /outstanding /=. do 2 f_equal. destruct (decide (k = sid)) as [->|Hne].
    + by rewrite lookup_insert_eq Hk /= E1.
    + by rewrite lookup_insert_ne.
Qed.

(** Another socket changes. *)
Lemma books_set_other t c a k sd' :
  books t c a → k ≠ sid → sd_mcast_obj sd' ≠ Some d → books t c (cc_set_sockets (<[k := sd']> (cc_sockets a)) a).
Proof.
  intros [(sd0 & H1 & H2 & H3 & H4) Hp Hq Hs] Hne Hd'. split; simpl.
  - exists sd0. by rewrite lookup_insert_ne.
  - intros j sdj Hj Hd. apply lookup_insert_Some in Hj as [(<- & <-)|(_ & Hj)]; [done|by eapply Hp].
  - done.
  - by rewrite -Hs /outstanding /= lookup_insert_ne.
Qed.

Lemma books_sid t c a : books t c a → is_Some (cc_sockets a !! sid).
Proof. intros [(sd & H1 & _) _ _ _]. eauto. Qed.

Lemma books_new_socket t c a k :
  books t c a → cc_sockets a !! k = None →
  books t c (cc_set_sockets (<[k := new_socket_data junk]> (cc_sockets a)) a).
Proof.
  intros Hb Hk. apply books_set_other; [done| |done]. intros ->. destruct (books_sid _ _ _ Hb). congruence.
Qed.

Lemma books_wiretap t c request resp a r a' :
  books t c a → wiretap junk request resp a = (Ok r, a') → books t c a'.
Proof.
  intros Hb. rewrite /wiretap. destruct (negb _); [intros E; by kept Hb E|].
  destruct (function_id_of (osm_fid request)) as [[]|]; try (intros E; by kept Hb E); intros E.
  - inv_bind E as u a1 E1. kept Hb E1. inv_bind E as k a2 E2. kept Hb E2.
    inv_bind E as o a3 E3. rewrite /find_socket /gets in E3. simplify_eq.
    inv_bind E as u4 a4 E4. rewrite /require in E4. case_bool_decide as Hn; [|done]. injection E4 as _ <-.
    rewrite /set_socket /modify in E. simplify_eq. by apply books_new_socket.
  - inv_bind E as u a1 E1. kept Hb E1. inv_bind E as k a2 E2. kept Hb E2.
    inv_bind E as o a3 E3. rewrite /find_socket /gets in E3. simplify_eq.
    destruct (cc_sockets a3 !! k) as [sd|] eqn:Hk; [|done]. rewrite /set_socket /modify in E. simplify_eq.
    by eapply books_set_socket.
Qed.

Lemma books_response t c m a b a' :
  books t c a → deliver_response junk m a = (Ok b, a') → books t c a'.
Proof.
  intros Hb E. rewrite /deliver_response /message_create in E. inv_bind E as msg a1 E1. kept Hb E1.
  inv_bind E as a2 a3 E2. rewrite /get in E2. simplify_eq.
  destruct (cc_requests _ !! _) as [o|]; [|by kept Hb E].
  inv_bind E as u a4 E4. apply (kept_books _ _ _ _ _ _ (kept_requests (λ _, _) (λ _, _)) E4) in Hb.
  inv_bind E as u1 a5 E5. apply (books_wiretap _ _ _ _ _ _ _ Hb) in E5. by kept E5 E.
Qed.

Lemma do_send_same sd from to (o : S) sd' o' : do_send sd from to o = (Ok sd', o') → same_packets sd sd'.
Proof.
  rewrite /do_send. intros E. destruct (sd_buffer sd !! from); [|by injection E as <- <-].
  destruct (_ && _); [done|]. inv_bind E as u s1 E1. inv_bind E as u2 s2 E2. by injection E as <- <-.
Qed.

Lemma books_retransmit t c m a b a' : books t c a → deliver_retransmit m a = (Ok b, a') → books t c a'.
Proof.
  intros Hb E. inv_bind E as u a1 E1. kept Hb E1.
  inv_bind E as o a2 E2. rewrite /find_socket /gets in E2. simplify_eq.
  destruct (cc_sockets a2 !! m_field2 m) as [sd|] eqn:Hk; [|by kept Hb E].
  inv_bind E as sd' a3 E3. kept Hb E3. rewrite /a_out /zoom in E3.
  destruct (do_send _ _ _ _) as [r o] eqn:Ed. simplify_eq. apply do_send_same in Ed.
  inv_bind E as u4 a4 E4. rewrite /set_socket /modify in E4. simplify_eq.
  eapply (books_set_socket _ _ _ (m_field2 m)) in Hb; [|exact Hk|exact Ed]. by kept Hb E.
Qed.

(** Dropping acknowledged packets of a socket and releasing their storage:
    the books stay as they are, but for an acknowledgement that drops
    nothing. *)
Lemma books_drop t c a k n sd d' :
  books t c a → outstanding a < 2 ^ 31 → cc_sockets a !! k = Some sd → sd_mcast_obj sd = Some d' →
  let '(rel, sd1) := drop_smaller_or_equal_seq_nrs sd n in
  books t (c + if (k =? sid) && bool_decide (filter (λ kv, kv.1 <= n) (sd_buffer sd) = ∅) then min_buffer_chunk else 0)
    (cc_set_log (cc_log a ++ [fx_release d' (Z.max (i32 rel) min_buffer_chunk)])
      (cc_set_sockets (<[k := sd1]> (cc_sockets a)) a)).
Proof.
  intros [(sd0 & H1 & H2 & H3 & H4 & H5) Hp Hq Hs] Hout Hk Hd. rewrite /drop_smaller_or_equal_seq_nrs buffered_u32.
  set (low := filter (λ kv, kv.1 <= n) (sd_buffer sd)).
  pose proof (buffered_filter (sd_buffer sd) n) as Ef. fold low in Ef.
  pose proof (buffered_nonneg (filter (λ kv, ¬ kv.1 <= n) (sd_buffer sd))) as Hn.
  pose proof (buffered_nonneg low) as Hn1. split.
  - simpl. destruct (decide (k = sid)) as [->|Hne].
    + simplify_eq. eexists. rewrite lookup_insert_eq. split_and!; simpl; try done.
      intros j [o Ho]. apply H3. apply map_lookup_filter_Some in Ho as [Ho _]. eauto.
    + exists sd0. by rewrite lookup_insert_ne.
  - simpl. intros j sdj Hj Hdj. apply lookup_insert_Some in Hj as [(<- & <-)|(Hne & Hj)]; by eapply Hp.
  - done.
  - rewrite /released zsum_app /=. rewrite -/(released _) -Hs /outstanding /=.
    destruct (Z.eqb_spec k sid) as [->|Hne]; simpl.
    + rewrite lookup_insert_eq Hk /=. assert (d' = d) as -> by congruence. rewrite Z.eqb_refl.
      rewrite /outstanding Hk /= in Hout.
      assert (0 <= queued chunk_size (cc_queue a)).
      { apply zsum_nonneg, Forall_forall. intros [] _; try lia. case_match; [|lia]. pose proof (chunk_pos o). lia. }
      rewrite /u32 uwrap_small; [rewrite /fits; lia|]. rewrite i32_small; [lia|].
      case_bool_decide as He.
      * rewrite He buffered_empty in Ef |- *. change min_buffer_chunk with 32768. lia.
      * apply buffered_pos in He. lia.
    + rewrite lookup_insert_ne //. destruct (Z.eqb_spec d' d) as [->|]; [by destruct Hne; eapply Hp|lia].
Qed.

(** A message comes to the end of the queue. *)
Lemma books_push t c a e :
  books t c a → queue_ok e →
  books (t + queued (λ _, 1) [e]) (c + queued chunk_size [e]) (cc_set_queue (cc_queue a ++ [e]) a).
Proof.
  intros [(sd & H1 & H2 & H3 & H4 & H5) Hp Hq Hs] He.
  split; [exists sd; split_and!; try done; simpl; rewrite /queued zsum_app -/(queued _ _); rewrite /queued in H5 |- *; lia
    |done|by apply Forall_app; split; [|constructor]|].
  rewrite /outstanding /= /queued zsum_app. rewrite /outstanding /queued in Hs. lia.
Qed.

Lemma books_push_foreign t c a e : books t c a → foreign e → books t c (cc_set_queue (cc_queue a ++ [e]) a).
Proof.
  intros Hb He. assert (∀ f, queued f [e] = 0) as Hz.
  { intros f. rewrite /queued /=. destruct e; try lia. destruct He as [He _]. by rewrite (proj2 (Z.eqb_neq _ _) He). }
  apply (books_push _ _ _ e) in Hb; [|by destruct e]. by rewrite !Hz !Z.add_0_r in Hb.
Qed.

Lemma books_ack_tail t c a k sd b a' :
  books t c a → cc_sockets a !! k = Some sd →
  ((if bool_decide (sd_state sd = socket_about_to_close_state) && negb (has_pending_sends sd) then
      match sd_delayed_close sd with
      | Some o => cc_push (osm_t o) ;; set_socket k (sd_set_state (sd_state sd) None sd)
      | None => mret tt
      end
    else mret tt) ;; a_out sink_flush ;; mret true) a = (Ok b, a') →
  books t c a'.
Proof.
  intros Hb Hk E. inv_bind E as u a1 E1. cut (books t c a1); [intros Hb1; by kept Hb1 E|].
  destruct (_ && _); [|by kept Hb E1]. destruct (sd_delayed_close sd) as [o|]; [|by kept Hb E1].
  inv_bind E1 as u2 a2 E2. rewrite /cc_push /modify in E2. rewrite /set_socket /modify in E1. simplify_eq.
  eapply books_set_socket; [by apply books_push_foreign|exact Hk|done].
Qed.

Lemma books_ack t c m a b a' :
  books t c a → outstanding a < 2 ^ 31 → m_type m = message_type.cumulative_ack → deliver_ack m a = (Ok b, a') →
  books t (c + if idle_ack m a then min_buffer_chunk else 0) a'.
Proof.
  intros Hb Hout Ht E. rewrite /idle_ack Ht Z.eqb_refl /=. inv_bind E as u a1 E1.
  rewrite /require in E1. destruct (m_content_size m =? 0); [|done]. injection E1 as _ <-.
  inv_bind E as o a2 E2. rewrite /find_socket /gets in E2. simplify_eq.
  pose proof (b_sock _ _ _ Hb) as (sd0 & H0 & Hd0 & _). rewrite H0.
  destruct (cc_sockets a2 !! m_field2 m) as [sd|] eqn:Hk.
  2: { kept Hb E. destruct (Z.eqb_spec (m_field2 m) sid) as [Hs|_]; [congruence|]. by rewrite /= Z.add_0_r. }
  pose proof (books_drop t c a2 (m_field2 m) (m_field3 m) sd) as Hdr.
  destruct (drop_smaller_or_equal_seq_nrs sd (m_field3 m)) as [rel sd1] eqn:Edr.
  assert (sd_mcast_obj sd1 = sd_mcast_obj sd) as Eo.
  { rewrite /drop_smaller_or_equal_seq_nrs in Edr. by simplify_eq. }
  inv_bind E as u3 a3 E3. rewrite /set_socket /modify in E3. simplify_eq.
  inv_bind E as u4 a4 E4. rewrite /release_storage Eo in E4.
  destruct (sd_mcast_obj sd) as [d'|]; [|done]. rewrite /effect /modify in E4. simplify_eq.
  specialize (Hdr d' Hb Hout Hk eq_refl). clear Hb.
  assert ((m_field2 m =? sid) && bool_decide (filter (λ kv, kv.1 <= m_field3 m) (sd_buffer sd) = ∅) =
    (m_field2 m =? sid) && bool_decide (filter (λ kv, kv.1 <= m_field3 m) (sd_buffer sd0) = ∅)) as Ei.
  { destruct (Z.eqb_spec (m_field2 m) sid) as [Hs|_]; [|done]. rewrite Hs in Hk. by simplify_eq. }
  rewrite Ei in Hdr. clear Ei.
  inv_bind E as sd2 a5 E5.
  assert (books t (c + (if (m_field2 m =? sid) && bool_decide (filter (λ kv, kv.1 <= m_field3 m) (sd_buffer sd0) = ∅)
      then min_buffer_chunk else 0)) a5 ∧ cc_sockets a5 !! m_field2 m = Some sd1 ∧ same_packets sd1 sd2)
    as (Hb & Hk5 & Hsame).
  { destruct (_ <? max_pending_sends); [|injection E5 as <- <-; split_and!; [done|apply lookup_insert_eq|done]].
    cbn zeta in E5. kept Hdr E5. split; [done|]. rewrite /a_out /zoom in E5.
    destruct (do_send _ _ _ _) as [r out] eqn:Ed. simplify_eq. split; [apply lookup_insert_eq|by eapply do_send_same]. }
  inv_bind E as u6 a6 E6. rewrite /set_socket /modify in E6. simplify_eq.
  eapply books_ack_tail; [by eapply books_set_socket|apply lookup_insert_eq|exact E].
Qed.

(** The channel takes a message from its queue. *)
Lemma books_pop t c a e q :
  books t c a → cc_queue a = e :: q →
  books (t - queued (λ _, 1) [e]) (c - queued chunk_size [e]) (cc_set_queue q a) ∧ queue_ok e.
Proof.
  intros [(sd & H1 & H2 & H3 & H4 & H5) Hp Hq Hs] Eq. rewrite Eq in H5, Hq. rewrite /outstanding Eq in Hs.
  apply Forall_cons in Hq as [He Hq]. split; [|done].
  split; [|done|done|rewrite /outstanding /=; rewrite /queued /= in Hs |- *; lia].
  exists sd. split_and!; try done. rewrite /queued /= in H5 |- *. lia.
Qed.

Lemma queued_nonneg f q : (∀ o, 0 <= f o) → 0 <= queued f q.
Proof. intros Hf. apply zsum_nonneg, Forall_forall. intros [] _; try lia. case_match; [done|lia]. Qed.

(** A packet of the socket gets a number and is kept. *)
Lemma books_keep_packet t c a sd o sd' :
  books t c a → t + 1 < 2 ^ 32 → cc_sockets a !! sid = Some sd →
  sd_buffer sd' = (match sd_buffer sd !! sd_seq_nrs sd with
                   | Some _ => sd_buffer sd | None => <[sd_seq_nrs sd := o]> (sd_buffer sd) end) →
  sd_mcast_obj sd' = sd_mcast_obj sd → sd_seq_nrs sd' = u32 (sd_seq_nrs sd + 1) →
  books (t + 1) (c + chunk_size o) (cc_set_sockets (<[sid := sd']> (cc_sockets a)) a).
Proof.
  intros [(sd0 & H1 & H2 & H3 & H4 & H5) Hp Hq Hs] Ht Hk Eb Eo En.
  assert (sd0 = sd) as -> by congruence.
  pose proof (queued_nonneg (λ _, 1) (cc_queue a) ltac:(lia)) as Hqn.
  assert (sd_buffer sd !! sd_seq_nrs sd = None) as Hnone.
  { apply eq_None_not_Some. intros Hx%H3. lia. }
  rewrite Hnone in Eb. rewrite /u32 uwrap_small in En; [rewrite /fits; lia|]. split.
  - exists sd'. simpl. rewrite lookup_insert_eq Eo Eb En. split_and!; try done; try lia.
    intros k [x Hx]. apply lookup_insert_Some in Hx as [(<- & _)|(_ & Hx)]; [lia|].
    assert (k < sd_seq_nrs sd); [|lia]. apply H3. eauto.
  - simpl. intros j sdj Hj Hdj. apply lookup_insert_Some in Hj as [(<- & <-)|(_ & Hj)]; [done|by eapply Hp].
  - done.
  - rewrite /outstanding /= lookup_insert_eq /= Eb buffered_insert //. rewrite /outstanding Hk /= in Hs. lia.
Qed.

Lemma books_send_mcast t c a o a' :
  books t c a → t + queued (λ _, 1) [omp_t o] < 2 ^ 32 → is_Some (cc_sockets a !! sid) → send_mcast o a = (Ok tt, a') →
  books (t + queued (λ _, 1) [omp_t o]) (c + queued chunk_size [omp_t o]) a'.
Proof.
  intros Hb Ht Hsid E. inv_bind E as sd a1 E1. rewrite /find_socket /gets in E1. simplify_eq.
  rewrite /queued /= !Z.add_0_r in Ht |- *. destruct (cc_sockets a1 !! omp_sck_id o) as [sd|] eqn:Hk.
  2: { kept Hb E. destruct (Z.eqb_spec (omp_sck_id o) sid) as [Hs|_]; [rewrite Hs in Hk; by destruct Hsid; congruence|].
       by rewrite !Z.add_0_r. }
  inv_bind E as sd1 a2 E2.
  set (sd2 := sd_set_seq_nrs (u32 (sd_seq_nrs sd + 1)) sd) in E2.
  assert (books t c a2 ∧ cc_sockets a2 !! omp_sck_id o = Some sd ∧ same_packets sd2 sd1) as (Hb2 & Hk2 & (G1 & G2 & G3)).
  { destruct (_ && _); [|injection E2 as <- <-; done].
    inv_bind E2 as u3 a3 E3. pose proof (kept_out _ _ _ _ E3) as (K1 & _ & _). kept Hb E3.
    inv_bind E2 as u4 a4 E4. pose proof (kept_out _ _ _ _ E4) as (K2 & _ & _). kept Hb E4.
    injection E2 as <- <-. split_and!; try done. congruence. }
  rewrite /set_socket /modify in E. simplify_eq. cbn [omp_sck_id omp_set_seq_nr].
  destruct (Z.eqb_spec (omp_sck_id o) sid) as [Hs|Hs].
  - rewrite Hs in Hk2 |- *. eapply (books_keep_packet t c a2 sd (omp_set_seq_nr (sd_seq_nrs sd) o)); try done.
    cbn [sd_buffer sd_set_buffer omp_seq_nr omp_set_seq_nr]. by rewrite G1.
  - rewrite !Z.add_0_r. apply books_set_other; [done..|]. cbn. rewrite G2. cbn. intros Hd.
    apply Hs. by eapply (b_ptr _ _ _ Hb2).
Qed.

Lemma books_cbs t c a x : books t c a → books t c (cc_set_cbs x a).
Proof. by intros [H1 H2 H3 H4]. Qed.

Lemma books_request t c a o a' : books t c a → send_request o a = (Ok tt, a') → books t c a'.
Proof.
  intros Hb E. inv_bind E as b a1 E1. assert (books t c a1) as Hb1.
  { destruct (_ =? _); [|by kept Hb E1]. inv_bind E1 as k a2 E2. kept Hb E2.
    inv_bind E1 as sd a3 E3. rewrite /find_socket /gets in E3. simplify_eq.
    destruct (cc_sockets a3 !! k) as [sd|] eqn:Hk; [|done]. destruct (has_pending_sends sd); [|by kept Hb E1].
    inv_bind E1 as u a4 E4. rewrite /set_socket /modify in E4. simplify_eq.
    eapply books_set_socket in Hb; [by kept Hb E1|exact Hk|done]. }
  destruct b; [by kept Hb1 E|]. inv_bind E as a2 a3 E2. rewrite /get in E2. simplify_eq.
  inv_bind E as u4 a4 E4. apply (kept_books _ _ _ _ _ _ (kept_requests (λ _, _) (λ _, _)) E4) in Hb1.
  inv_bind E as u5 a5 E5. kept Hb1 E5. inv_bind E as u6 a6 E6. kept Hb1 E6.
  exact (kept_books _ _ _ _ _ _ (kept_requests _ _) E Hb1).
Qed.

(** The channel handles a message of its queue. *)
Lemma books_handle t c a e q a' :
  books t c a → t < 2 ^ 32 → cc_queue a = e :: q → handle_cc_msg junk e (cc_set_queue q a) = (Ok tt, a') →
  books t c a'.
Proof.
  intros Hb Ht Eq E. destruct (books_pop _ _ _ _ _ Hb Eq) as [Hp He]. pose proof (books_sid _ _ _ Hp) as Hsid.
  destruct e as [o|o|k p|fn|k fn]; simpl in E.
  - pose proof (books_send_mcast _ _ _ o a' Hp) as G. rewrite !Z.sub_add in G. by apply G.
  - apply (books_request _ _ _ o a') in Hp; [|done]. by rewrite /queued /= !Z.sub_0_r in Hp.
  - inv_bind E as sd a1 E1. rewrite /socket_at /gets in E1. simplify_eq. rewrite /set_socket /modify in E. simplify_eq.
    rewrite /queued /= !Z.sub_0_r in Hp. destruct He. apply books_set_other; [done..|]. simpl. congruence.
  - rewrite /modify in E. simplify_eq. rewrite /queued /= !Z.sub_0_r in Hp. by apply books_cbs.
  - inv_bind E as sd a1 E1. rewrite /socket_at /gets in E1. simplify_eq. rewrite /set_socket /modify in E. simplify_eq.
    rewrite /queued /= !Z.sub_0_r in Hp. destruct (cc_sockets a !! k) as [sd|] eqn:Hk.
    + eapply books_set_socket; [done|exact Hk|done].
    + apply books_set_other; [done| |done]. intros ->. destruct Hsid as [x Hx]. simpl in Hx. congruence.
Qed.

(** The channel handles a message of the middleware. *)
Lemma books_deliver t c m a b a' :
  books t c a → outstanding a < 2 ^ 31 → deliver junk m a = (Ok b, a') →
  books t (c + if idle_ack m a then min_buffer_chunk else 0) a'.
Proof.
  intros Hb Hout E. rewrite /deliver in E.
  destruct (Z.eqb_spec (m_type m) message_type.cumulative_ack) as [Ht|Hn].
  { rewrite Ht in E. by apply (books_ack t c m a b a'). }
  rewrite /idle_ack (proj2 (Z.eqb_neq _ _) Hn) /= Z.add_0_r.
  destruct (_ =? message_type.async_recv); [exact (kept_books _ _ _ _ _ _ (kept_deliver_recv m) E Hb)|].
  destruct (_ =? message_type.sync_response); [by eapply books_response|].
  destruct (_ =? message_type.retransmit); [by eapply books_retransmit|].
  destruct (_ =? message_type.async_event); [exact (kept_books _ _ _ _ _ _ (kept_deliver_event m) E Hb)|done].
Qed.

(** ** What the channel does for the socket *)

(** Bytes are only given back. *)
Definition gives_back (e : cc_effect) : Prop := match e with fx_release _ n => 0 <= n | _ => True end.

(** The log only grows. *)
Definition grows {A} (m : M (app S) A) : Prop :=
  ∀ a r a', m a = (r, a') → ∃ l, cc_log a' = cc_log a ++ l ∧ Forall gives_back l.

Lemma grows_same {A} (m : M (app S) A) : (∀ a, cc_log (m a).2 = cc_log a) → grows m.
Proof. intros Hm a r a' E. exists []. specialize (Hm a). rewrite E in Hm. by rewrite Hm app_nil_r. Qed.
Lemma grows_bind {A B} (m : M (app S) A) (k : A → M (app S) B) : grows m → (∀ x, grows (k x)) → grows (m ≫= k).
Proof.
  intros Hm Hk a r a' E. rewrite /mbind /M_bind in E. destruct (m a) as [r1 a1] eqn:E1.
  destruct (Hm _ _ _ E1) as (l1 & Hl1 & G1). destruct r1 as [x|e|why]; [|simplify_eq; eauto..].
  destruct (Hk _ _ _ _ E) as (l2 & Hl2 & G2). exists (l1 ++ l2). rewrite Hl2 Hl1 app_assoc Forall_app. done.
Qed.
Lemma grows_effect e : gives_back e → grows (effect e).
Proof. intros He a r a' E. rewrite /effect /modify in E. simplify_eq. exists [e]. eauto using Forall_cons. Qed.
Lemma grows_out {A} (m : M S A) : grows (a_out m).
Proof. apply grows_same. intros a. rewrite /a_out /zoom. by destruct (m (cc_out a)). Qed.
Lemma grows_cache {A} (m : M (gmap bytes uri) A) : grows (a_cache m).
Proof. apply grows_same. intros a. rewrite /a_cache /zoom. by destruct (m (cc_cache a)). Qed.
Lemma grows_require b what : grows (require b what).
Proof. apply grows_same. by destruct b. Qed.
Lemma grows_for_each {A} (l : list A) (body : A → M (app S) unit) :
  (∀ x, grows (body x)) → grows (for_each l body).
Proof. intros Hb. induction l; simpl; [by apply grows_same|by apply grows_bind]. Qed.

Ltac grows :=
  repeat first
    [ apply grows_bind; [|intros ?] | apply grows_require | apply grows_out | apply grows_cache
    | apply grows_effect; done | apply grows_for_each; intros ? | case_match | by apply grows_same ].

Lemma grows_release d' n : grows (release_storage d' n).
Proof.
  rewrite /release_storage. destruct d'; [|by apply grows_same]. apply grows_effect. simpl.
  change min_buffer_chunk with 32768. lia.
Qed.

Lemma grows_wiretap o m : grows (wiretap junk o m).
Proof. rewrite /wiretap /first_value. grows. Qed.

Lemma grows_deliver m : grows (deliver junk m).
Proof.
  rewrite /deliver /deliver_recv /deliver_response /deliver_retransmit /deliver_ack /deliver_event_msg /message_create
    /first_value.
  grows; try apply grows_wiretap; try apply grows_release; grows.
Qed.

Lemma grows_handle e : grows (handle_cc_msg junk e).
Proof. rewrite /handle_cc_msg /send_mcast /send_request /first_value. grows. Qed.

(** The socket's storage after the effects. *)
Lemma apply_effects l s :
  Forall gives_back l → - 2 ^ 31 <= ms_out_buffer s → ms_out_buffer s + released l < 2 ^ 31 →
  let s' := foldl (apply_effect d) s l in
  ms_out_buffer s' = ms_out_buffer s + released l ∧ ms_id s' = ms_id s ∧ ms_max_msg_size s' = ms_max_msg_size s.
Proof.
  revert s. induction l as [|e l IH]; intros s Hl Hlo Hhi; [rewrite /released /=; split_and!; lia|].
  apply Forall_cons in Hl as [He Hl]. rewrite /released /= -/(released l) in Hhi |- *.
  assert (0 <= released l).
  { clear -Hl. apply zsum_nonneg. eapply Forall_impl; [exact Hl|]. intros [| |d' n| |] Hn; simpl in *; try case_match; lia. }
  set (w := match e with fx_release d' n => if d' =? d then n else 0 | _ => 0 end) in Hhi |- *.
  assert (0 <= w). { rewrite /w. destruct e; simpl in *; try case_match; lia. }
  assert (ms_out_buffer (apply_effect d s e) = ms_out_buffer s + w ∧ ms_id (apply_effect d s e) = ms_id s ∧
    ms_max_msg_size (apply_effect d s e) = ms_max_msg_size s) as (E1 & E2 & E3).
  { rewrite /w /apply_effect /async_recv in Hhi |- *. destruct e as [d' mp| |d' n| |]; try (split_and!; lia).
    - case_match; [|split_and!; lia]. case_match; simpl; split_and!; lia.
    - case_match; simpl; [|split_and!; lia]. rewrite /semaphore.release_bytes i32_small; [lia|].
      split_and!; lia. }
  destruct (IH (apply_effect d s e)) as (F1 & F2 & F3); [done|lia|lia|]. simpl. split_and!; lia.
Qed.

(** ** The invariant *)

Lemma stream_of_frame answer u s r s' :
  stream_of junk answer u s = (r, s') →
  ms_out_buffer s' = ms_out_buffer s ∧ ms_id s' = ms_id s ∧ ms_max_msg_size s' = ms_max_msg_size s.
Proof.
  rewrite /stream_of /mbind /M_bind /gets /modify /mret /M_ret. cbn.
  destruct (os_valid _); [|destruct answer]; cbn; intros E; by injection E as <- <-.
Qed.

(** [send] either takes the storage of a packet or fails and takes none. *)
Lemma send_storage answer u n buf s r s' :
  send junk answer u n buf s = (r, s') → ms_max_msg_size s <= default_max_buffer_size →
  ms_id s' = ms_id s ∧ ms_max_msg_size s' = ms_max_msg_size s ∧
  match r with
  | Ok (Some o) => omp_sck_id o = ms_id s ∧ chunk_size o <= default_max_buffer_size ∧
      ms_out_buffer s' = i32 (ms_out_buffer s - chunk_size o)
  | Ok None => False
  | _ => ms_out_buffer s' = ms_out_buffer s
  end.
Proof.
  intros E Hmax. rewrite /send in E. destruct buf as [b|]; [|by injection E as <- <-].
  rewrite /require /mbind /M_bind in E. destruct (Z.ltb_spec 0 n); [|by injection E as <- <-]. cbn in E.
  destruct (uri_empty u) eqn:Hu; [by injection E as <- <-|]. rewrite /private_send /mbind /M_bind /require in E. cbn in E.
  destruct (Z.leb_spec n (ms_max_msg_size s)); [|by injection E as <- <-]. cbn in E. rewrite Hu in E.
  destruct (stream_of junk answer u s) as [r1 s1] eqn:E1. apply stream_of_frame in E1 as (F1 & F2 & F3).
  destruct r1 as [stm|e|why]; [|by injection E as <- <-..].
  rewrite /default_max_buffer_size in Hmax.
  rewrite /u32 uwrap_small in E; [rewrite /fits; lia|].
  destruct (zlen b <? n); [by injection E as <- <-|]. cbn in E. injection E as <- <-. cbn. split_and!; try done.
  - rewrite /chunk_size /=. change min_buffer_chunk with 32768. rewrite /default_max_buffer_size. lia.
  - rewrite F1 /chunk_size /=. change min_buffer_chunk with 32768. rewrite (i32_small (Z.max _ _)) //. lia.
Qed.

Definition waits (f : omp → Z) (w : world) : Z := from_option f 0 (w_waiting w).

(** Within these numbers no machine integer wraps around. *)
Definition bounded (w : world) : Prop :=
  w_sends w < 2 ^ 32 ∧ w_idle_acks w * min_buffer_chunk + 2 * default_max_buffer_size < 2 ^ 31.

(** The storage of the socket, with what idle acknowledgements added. *)
Definition storage (w : world) : Z := default_max_buffer_size + w_idle_acks w * min_buffer_chunk.

Record sound (w : world) : Prop := {
  v_books : ∃ c, books (w_sends w - waits (λ _, 1) w) c (w_app w);
  v_out : ms_out_buffer (w_sock w) = storage w - waits chunk_size w - outstanding (w_app w);
  v_cap : outstanding (w_app w) <= storage w;
  v_sock : ms_id (w_sock w) = sid ∧ ms_max_msg_size (w_sock w) <= default_max_buffer_size;
  v_wait : from_option (λ o, omp_sck_id o = sid ∧ chunk_size o <= default_max_buffer_size) True (w_waiting w);
  v_idle : 0 <= w_idle_acks w
}.

Lemma outstanding_nonneg a : 0 <= outstanding a.
Proof.
  rewrite /outstanding. pose proof (queued_nonneg chunk_size (cc_queue a)) as Hq.
  assert (0 <= queued chunk_size (cc_queue a)) by (apply Hq; intros o; pose proof (chunk_pos o); lia).
  destruct (cc_sockets a !! sid) as [sd|]; simpl; [|lia]. pose proof (buffered_nonneg (sd_buffer sd)). lia.
Qed.

Lemma waits_bounds w : sound w → 0 <= waits chunk_size w <= default_max_buffer_size ∧ 0 <= waits (λ _, 1) w <= 1.
Proof.
  intros Hw. pose proof (v_wait w Hw) as G. rewrite /waits. destruct (w_waiting w) as [o|]; simpl in *.
  - pose proof (chunk_pos o). lia.
  - rewrite /default_max_buffer_size. lia.
Qed.

(** The channel runs and the socket sees the effects. *)
Lemma sound_channel w a' k :
  sound w → bounded w → 0 <= k → (k + w_idle_acks w) * min_buffer_chunk + 2 * default_max_buffer_size < 2 ^ 31 →
  (∃ l, cc_log a' = cc_log (w_app w) ++ l ∧ Forall gives_back l) →
  (∀ t c, t <= w_sends w → books t c (w_app w) → books t (c + k * min_buffer_chunk) a') →
  sound {| w_sock := run_effects (w_app w) a' (w_sock w); w_app := a'; w_waiting := w_waiting w;
           w_sends := w_sends w; w_idle_acks := w_idle_acks w + k |}.
Proof.
  intros Hw Hb Hk Hbk (l & El & Hl) Hbooks. pose proof (waits_bounds w Hw) as [Hwb Hwb1].
  destruct (v_books w Hw) as [c Hc]. pose proof (b_sum _ _ _ Hc) as Hsum.
  apply Hbooks in Hc; [|lia]. pose proof (b_sum _ _ _ Hc) as Hsum'.
  rewrite El /released zsum_app -!/(released _) in Hsum'.
  pose proof (v_out w Hw) as Hout. pose proof (v_cap w Hw) as Hcap. pose proof (v_idle w Hw) as Hidle.
  pose proof (outstanding_nonneg a') as Hn. rewrite /storage in Hout Hcap. change min_buffer_chunk with 32768 in *.
  assert (0 <= released l).
  { clear -Hl. apply zsum_nonneg. eapply Forall_impl; [exact Hl|]. intros [] Hx; simpl in *; try case_match; lia. }
  assert (run_effects (w_app w) a' (w_sock w) = foldl (apply_effect d) (w_sock w) l) as Er.
  { by rewrite /run_effects El drop_app_length. }
  rewrite /default_max_buffer_size in Hbk, Hout, Hcap, Hwb.
  destruct (apply_effects l (w_sock w)) as (F1 & F2 & F3); [done|lia|lia|]. rewrite -Er in F1, F2, F3.
  split; simpl.
  - eauto.
  - rewrite F1 Hout /storage /waits /=. change min_buffer_chunk with 32768. rewrite /default_max_buffer_size.
    rewrite /waits. lia.
  - rewrite /storage /=. change min_buffer_chunk with 32768. rewrite /default_max_buffer_size. lia.
  - rewrite F2 F3. apply (v_sock w Hw).
  - apply (v_wait w Hw).
  - lia.
Qed.

Lemma sound_send w answer u n buf r s' :
  sound w → bounded w → w_waiting w = None → send junk answer u n buf (w_sock w) = (r, s') →
  sound {| w_sock := s'; w_app := w_app w; w_waiting := match r with Ok (Some o) => Some o | _ => None end;
           w_sends := match r with Ok (Some o) => w_sends w + 1 | _ => w_sends w end; w_idle_acks := w_idle_acks w |}.
Proof.
  intros [[c Hc] Hout Hcap [Hid Hmax] Hwait Hidle] [_ Hb] Hnone E. pose proof (outstanding_nonneg (w_app w)) as Hn.
  apply send_storage in E as (F1 & F2 & E); [|done].
  rewrite /waits Hnone /= Z.sub_0_r in Hc. rewrite /waits Hnone /= Z.sub_0_r in Hout.
  destruct r as [[o|]|e|why]; [|done|split; simpl; rewrite ?F1 ?F2 ?E /waits /= ?Z.sub_0_r; eauto; exact Hout..].
  destruct E as (E1 & E2 & E3). pose proof (chunk_pos o) as Hpos. rewrite /default_max_buffer_size in E2.
  split; rewrite ?F1 ?F2 /waits /storage /=; try done.
  - exists c. by rewrite Z.add_simpl_r.
  - rewrite /storage in Hout, Hcap. change min_buffer_chunk with 32768 in *.
    rewrite /default_max_buffer_size in Hb, Hout, Hcap |- *. rewrite E3 Hout i32_small; lia.
  - by rewrite E1.
Qed.

Lemma sound_return w o :
  sound w → w_waiting w = Some o → 0 <= ms_out_buffer (w_sock w) →
  sound {| w_sock := w_sock w; w_app := cc_set_queue (cc_queue (w_app w) ++ [omp_t o]) (w_app w); w_waiting := None;
           w_sends := w_sends w; w_idle_acks := w_idle_acks w |}.
Proof.
  intros [[c Hc] Hout Hcap Hs Hwait Hidle] Ho Hav. rewrite /waits Ho /= in Hc, Hout, Hwait. destruct Hwait as [Hsid _].
  pose proof (b_sum _ _ _ Hc) as Hsum.
  apply (books_push _ _ _ (omp_t o)) in Hc; [|done]. rewrite /queued /= Hsid Z.eqb_refl in Hc.
  pose proof (b_sum _ _ _ Hc) as Hsum'. cbn [cc_log cc_set_queue] in Hsum'.
  split; rewrite /waits /storage /= in Hout Hcap |- *; try done; try lia.
  exists (c + (chunk_size o + 0)). replace (w_sends w - 0) with (w_sends w - 1 + (1 + 0)) by lia. done.
Qed.

Lemma sound_other w e :
  sound w → foreign e →
  sound {| w_sock := w_sock w; w_app := cc_set_queue (cc_queue (w_app w) ++ [e]) (w_app w); w_waiting := w_waiting w;
           w_sends := w_sends w; w_idle_acks := w_idle_acks w |}.
Proof.
  intros [[c Hc] Hout Hcap Hs Hwait Hidle] He. pose proof (b_sum _ _ _ Hc) as Hsum.
  apply (books_push_foreign _ _ _ e) in Hc; [|done]. pose proof (b_sum _ _ _ Hc) as Hsum'.
  cbn [cc_log cc_set_queue] in Hsum'.
  split; rewrite /waits /storage /= in Hout Hcap |- *; try done; try lia. by exists c.
Qed.

Lemma step_counts w w' : step w w' → w_sends w <= w_sends w' ∧ w_idle_acks w <= w_idle_acks w'.
Proof. destruct 1; simpl; repeat case_match; lia. Qed.

Lemma bounded_mono w w' : step w w' → bounded w' → bounded w.
Proof. intros Hst%step_counts [Hb1 Hb2]. split; [lia|]. change min_buffer_chunk with 32768 in *. lia. Qed.

Lemma sound_step w w' : step w w' → bounded w' → sound w → sound w'.
Proof.
  intros Hst Hb' Hw. pose proof (bounded_mono _ _ Hst Hb') as Hb. destruct Hb' as [_ Hb'].
  pose proof (v_cap w Hw) as Hcap.
  destruct Hst as [answer u n buf r s' w Hn E|o w Ho Hav|e w He|e q a' w Eq E|m b a' w E|w].
  - by eapply sound_send.
  - by apply sound_return.
  - by apply sound_other.
  - rewrite -(Z.add_0_r (w_idle_acks w)). apply sound_channel; [done|done|lia|done|exact (grows_handle e _ _ _ E)|].
    intros t c Ht Hc. rewrite Z.add_0_r. eapply books_handle; [done| |done..]. destruct Hb. lia.
  - set (k := if idle_ack m (w_app w) then 1 else 0) in Hb' |- *.
    assert (0 <= k) by (rewrite /k; destruct (idle_ack _ _); lia).
    apply sound_channel; [done|done|done|by rewrite (Z.add_comm k)|by eapply grows_deliver|].
    intros t c Ht Hc. apply (books_deliver t c m _ _ _ Hc) in E; [rewrite /k; by destruct (idle_ack m (w_app w))|].
    destruct Hb as [_ Hb]. rewrite /storage in Hcap. change min_buffer_chunk with 32768 in *.
    rewrite /default_max_buffer_size in Hb, Hcap. lia.
  - destruct Hw as [H1 H2 H3 H4 H5 H6]. split; simpl; try done; rewrite /try_receive; by destruct (ms_in_stream _).
Qed.

Lemma sound_steps w w' : rtc step w w' → bounded w' → sound w → sound w'.
Proof.
  intros Hst Hb Hw. revert w' Hst Hb. apply (rtc_ind_r (λ w', bounded w' → sound w')); [done|].
  intros w1 w2 _ Hst IH Hb. eapply sound_step; [done..|]. apply IH. by eapply bounded_mono.
Qed.

(** A new socket the channel knows. *)
Definition fresh (a : app S) : Prop :=
  (∃ sd, cc_sockets a !! sid = Some sd ∧ sd_mcast_obj sd = Some d ∧ sd_buffer sd = ∅ ∧ sd_seq_nrs sd = 0) ∧
  (∀ k sd, cc_sockets a !! k = Some sd → sd_mcast_obj sd = Some d → k = sid) ∧
  Forall (λ e, queue_ok e ∧ foreign e) (cc_queue a).
Definition new_world (max_msg_size : Z) (a : app S) : world :=
  {| w_sock := multicast_socket_private sid max_msg_size; w_app := a; w_waiting := None; w_sends := 0;
     w_idle_acks := 0 |}.

Lemma fresh_sound n a : fresh a → n <= default_max_buffer_size → sound (new_world n a).
Proof.
  intros ((sd & H1 & H2 & H3 & H4) & Hp & Hq) Hn.
  assert (∀ f, queued f (cc_queue a) = 0) as Hz.
  { intros f. apply zsum_zero. eapply Forall_impl; [exact Hq|]. intros [o| | | |] [_ Hf]; try done.
    simpl in Hf. by rewrite (proj2 (Z.eqb_neq _ _) (proj1 Hf)). }
  assert (outstanding a = 0) as Ho by (by rewrite /outstanding Hz H1 /= H3 buffered_empty).
  split; rewrite /waits /storage /= ?Ho; try done; try (rewrite /default_max_buffer_size; lia).
  exists (released (cc_log a)). split; [|done|by eapply Forall_impl; [exact Hq|intros e [? _]]|by rewrite Ho].
  exists sd. rewrite Hz H3 H4. split_and!; try done. intros k. rewrite lookup_empty. by intros [? ?].
Qed.

(** Executable schedules. *)
Inductive act :=
  | do_send_to (answer : outcome Z) (u : uri) (msg_len : Z) (buf : option bytes)
  | do_return | do_poll | do_deliver (m : message) | do_receive.

Definition perform (x : act) (w : world) : option world :=
  match x with
  | do_send_to answer u n buf =>
      match w_waiting w with
      | None =>
          let '(r, s') := send junk answer u n buf (w_sock w) in
          Some {| w_sock := s'; w_app := w_app w;
                  w_waiting := match r with Ok (Some o) => Some o | _ => None end;
                  w_sends := match r with Ok (Some o) => w_sends w + 1 | _ => w_sends w end;
                  w_idle_acks := w_idle_acks w |}
      | Some _ => None
      end
  | do_return =>
      match w_waiting w with
      | Some o =>
          if 0 <=? ms_out_buffer (w_sock w) then
            Some {| w_sock := w_sock w; w_app := (cc_push (omp_t o) (w_app w)).2; w_waiting := None;
                    w_sends := w_sends w; w_idle_acks := w_idle_acks w |}
          else None
      | None => None
      end
  | do_poll =>
      match cc_queue (w_app w) with
      | e :: q =>
          match handle_cc_msg junk e (cc_set_queue q (w_app w)) with
          | (Ok _, a') =>
              Some {| w_sock := run_effects (w_app w) a' (w_sock w); w_app := a'; w_waiting := w_waiting w;
                      w_sends := w_sends w; w_idle_acks := w_idle_acks w |}
          | _ => None
          end
      | [] => None
      end
  | do_deliver m =>
      match deliver junk m (w_app w) with
      | (Ok _, a') =>
          Some {| w_sock := run_effects (w_app w) a' (w_sock w); w_app := a'; w_waiting := w_waiting w;
                  w_sends := w_sends w;
                  w_idle_acks := w_idle_acks w + (if idle_ack m (w_app w) then 1 else 0) |}
      | _ => None
      end
  | do_receive =>
      Some {| w_sock := (try_receive (w_sock w)).2; w_app := w_app w; w_waiting := w_waiting w;
              w_sends := w_sends w; w_idle_acks := w_idle_acks w |}
  end.
Fixpoint schedule (l : list act) (w : world) : option world :=
  match l with [] => Some w | x :: l' => perform x w ≫= schedule l' end.

Lemma perform_step x w w' : perform x w = Some w' → step w w'.
Proof.
  destruct x as [answer u n buf| | |m|]; simpl; intros E.
  - destruct (w_waiting w) eqn:Hw; [done|]. destruct (send _ _ _ _ _ _) as [r s'] eqn:Es. injection E as <-.
    by econstructor.
  - destruct (w_waiting w) as [o|] eqn:Hw; [|done]. destruct (Z.leb_spec 0 (ms_out_buffer (w_sock w))); [|done].
    injection E as <-. by apply step_return.
  - destruct (cc_queue (w_app w)) as [|e q] eqn:Hq; [done|].
    destruct (handle_cc_msg _ _ _) as [[[]| |] a'] eqn:Eh; try done. injection E as <-. by eapply step_poll.
  - destruct (deliver _ _ _) as [[b| |] a'] eqn:Ed; try done. injection E as <-. by eapply step_deliver.
  - injection E as <-. apply step_receive.
Qed.
Lemma schedule_steps l w w' : schedule l w = Some w' → rtc step w w'.
Proof.
  revert w. induction l as [|x l IH]; simpl; intros w; [intros [= <-]; constructor|].
  intros (w1 & H1%perform_step & H2)%bind_Some. eapply rtc_l; [done|by apply IH].
Qed.
End system.

(** ** Receiving *)

(** The specification of the receiving side: a queue of packets with a
    limit on their bytes. *)
Inductive rx_event := arrives (mp : multicast_packet) | takes.

Definition rx_bytes (q : list multicast_packet) : Z := zsum mp_size q.

Definition fifo_step (e : rx_event) (q : list multicast_packet) : option multicast_packet * list multicast_packet :=
  match e with
  | arrives mp => (None, if rx_bytes q + mp_size mp <=? default_max_buffer_size then q ++ [mp] else q)
  | takes => (head q, tail q)
  end.
Definition rx_step (e : rx_event) (s : sock) : option multicast_packet * sock :=
  match e with arrives mp => (None, async_recv mp s) | takes => try_receive s end.

(** What a sequence of events returns. *)
Fixpoint outputs {A} (step : rx_event → A → option multicast_packet * A) (es : list rx_event) (x : A) :
    list (option multicast_packet) * A :=
  match es with
  | [] => ([], x)
  | e :: es' => let '(o, x') := step e x in let '(os, x'') := outputs step es' x' in (o :: os, x'')
  end.

(** The sizes of packets fit into the semaphore's type. *)
Definition rx_ok (e : rx_event) : Prop := match e with arrives mp => 0 <= mp_size mp < 2 ^ 31 | takes => True end.

Definition rx_implements (q : list multicast_packet) (s : sock) : Prop :=
  ms_in_stream s = q ∧ Forall (λ mp, 0 <= mp_size mp) q ∧ rx_bytes q <= default_max_buffer_size ∧
  ms_in_buffer s = default_max_buffer_size - rx_bytes q.

Lemma rx_step_ok e q s :
  rx_ok e → rx_implements q s →
  (rx_step e s).1 = (fifo_step e q).1 ∧ rx_implements (fifo_step e q).2 (rx_step e s).2.
Proof.
  intros He (Hq & Hall & Hcap & Hav). pose proof (zsum_nonneg _ _ Hall) as Hn. rewrite -/(rx_bytes q) in Hn.
  assert (default_max_buffer_size = 16777216) as Hmax by done.
  destruct e as [mp|]; simpl in *.
  - split; [done|]. rewrite /async_recv /semaphore.try_acquire Hav.
    rewrite (i32_small (mp_size mp)); [lia|]. rewrite i32_small; [lia|].
    destruct (Z.ltb_spec (default_max_buffer_size - rx_bytes q - mp_size mp) 0),
      (Z.leb_spec (rx_bytes q + mp_size mp) default_max_buffer_size); try lia; [by split_and!|].
    split_and!; simpl; [by rewrite Hq|apply Forall_app; split; [done|repeat constructor; lia]|..];
      rewrite /rx_bytes zsum_app /= -/(rx_bytes q); lia.
  - rewrite /try_receive Hq. destruct q as [|mp q]; [by split|]. split; [done|]. simpl.
    apply Forall_cons in Hall as [H1 Hall]. pose proof (zsum_nonneg _ _ Hall) as Hn2. rewrite /rx_bytes /= in Hcap Hav.
    split_and!; simpl; try done; rewrite /rx_bytes; [lia|]. rewrite /semaphore.release_bytes Hav.
    rewrite (i32_small (mp_size mp)); [lia|]. rewrite i32_small; lia.
Qed.

(** ** Theorems *)

(** C10: The output storage of a socket is accounted for exactly.  Let a new
    socket and its channel run in any order: [send] calls, packets going
    through the channel, messages of the middleware, requests and other
    sockets.  Then the semaphore shows [default_max_buffer_size] less the
    bytes of the packets that were handed over and not yet acknowledged
    (at least [min_buffer_chunk] each), plus [min_buffer_chunk] for every
    acknowledgement that acknowledged nothing new: such an acknowledgement
    releases storage nobody took. *)
Theorem out_buffer_exact {S : Type} `{Sink S} (junk sid d max_msg_size : Z) (a : app S) (w : world) :
  fresh sid d a → max_msg_size <= default_max_buffer_size →
  rtc (step junk sid d) (new_world sid max_msg_size a) w → bounded w →
  ms_out_buffer (w_sock w) =
    default_max_buffer_size + w_idle_acks w * min_buffer_chunk - waits chunk_size w - outstanding sid (w_app w) ∧
  outstanding sid (w_app w) <= default_max_buffer_size + w_idle_acks w * min_buffer_chunk ∧
  (w_idle_acks w = 0 → w_waiting w = None → 0 <= ms_out_buffer (w_sock w) <= default_max_buffer_size).
Proof.
  intros Ha Hn Hst Hb. apply sound_steps in Hst; [|done|by apply fresh_sound].
  pose proof (v_out _ _ _ Hst) as Hout. pose proof (v_cap _ _ _ Hst) as Hcap. split_and!; [done|done|].
  intros Hi Hw. rewrite /waits Hw /= in Hout. rewrite /storage Hi in Hout, Hcap.
  pose proof (outstanding_nonneg sid (w_app w)). lia.
Qed.

(** A packet is sent and acknowledged twice; then another one is sent. *)
Definition sample_group : uri := uri_of (str "ham:ip:224.1.2.3").
Definition sample_acts : list act :=
  [do_send_to (Ok 4) sample_group 2 (Some (str "hi")); do_return; do_poll;
   do_deliver (ack_message 1 4 0); do_deliver (ack_message 1 4 0);
   do_send_to (Ok 9) sample_group 2 (Some (str "ho")); do_return].
Definition sample_world : world := new_world 1 8192 sample_app.
Definition sample_end : world := default sample_world (schedule 7 1 5 sample_acts sample_world).

Lemma sample_end_steps : rtc (step 7 1 5) sample_world sample_end.
Proof.
  assert (is_Some (schedule 7 1 5 sample_acts sample_world)) as [w Hw].
  { apply (bool_decide_unpack _). by vm_compute. }
  rewrite /sample_end Hw. by apply (schedule_steps _ _ _ sample_acts).
Qed.

Lemma sample_app_fresh : fresh 1 5 sample_app.
Proof.
  split_and!; [by eexists|..|constructor]. intros k sd. rewrite lookup_singleton_Some. by intros [<- _].
Qed.

Lemma out_buffer_exact_witness :
  ms_out_buffer (w_sock sample_end) =
    default_max_buffer_size + 1 * min_buffer_chunk - 0 - outstanding 1 (w_app sample_end).
Proof.
  refine (proj1 (out_buffer_exact 7 1 5 8192 sample_app sample_end sample_app_fresh _ sample_end_steps _)).
  - vm_compute. discriminate.
  - split; by vm_compute.
Defined.

(** C33: The receiving side of a socket is a first-in-first-out queue with a
    limit on its bytes: for every sequence of arriving packets and
    [try_receive] calls the socket returns what the specification returns.
    A packet is dropped exactly when it does not fit, packets are received
    in order, each once, and the semaphore shows the free bytes. *)
Theorem receive_refines_fifo (es : list rx_event) (sid max_msg_size : Z) :
  Forall rx_ok es →
  let '(os, s) := outputs rx_step es (multicast_socket_private sid max_msg_size) in
  let '(os', q) := outputs fifo_step es [] in
  os = os' ∧ rx_implements q s.
Proof.
  assert (rx_implements [] (multicast_socket_private sid max_msg_size)) as Hi by done. revert Hi.
  generalize (@nil multicast_packet) as q, (multicast_socket_private sid max_msg_size) as s.
  induction es as [|e es IH]; intros q s Hi Hes; [done|]. apply Forall_cons in Hes as [He Hes]. simpl.
  destruct (rx_step_ok e q s He Hi) as [E1 H1]. destruct (rx_step e s) as [o s1], (fifo_step e q) as [o' q1].
  simpl in E1, H1. specialize (IH q1 s1 H1 Hes).
  destruct (outputs rx_step es s1), (outputs fifo_step es q1). destruct IH as [-> ?]. by subst o'.
Qed.

Definition sample_mp (n : Z) : multicast_packet := {| mp_from := uri_default; mp_size := n; mp_data := None |}.
Lemma receive_refines_fifo_witness :
  ∃ s, outputs rx_step [arrives (sample_mp 9); arrives (sample_mp 16777216); takes; takes]
         (multicast_socket_private 1 8192) = ([None; None; Some (sample_mp 9); None], s) ∧ rx_implements [] s.
Proof.
  set (es := [arrives (sample_mp 9); arrives (sample_mp 16777216); takes; takes]).
  assert (Forall rx_ok es) as Hok by (repeat constructor; by vm_compute).
  pose proof (receive_refines_fifo es 1 8192 Hok) as G.
  assert (outputs fifo_step es [] = ([None; None; Some (sample_mp 9); None], [])) as E by (by vm_compute).
  rewrite E in G. destruct (outputs rx_step es _) as [os s]. exists s. by destruct G as [-> G].
Defined.
