(* ===== verification/FakeChannel.v ===== *)
(** * The channel with the middleware built in

    [fake_client_channel.cpp]: on systems without a middleware process the
    client's channel contains one.  It answers the same requests
    ([Dispatcher.v]), but with sockets and interfaces of its own: sockets
    share the interfaces, and an interface counts the sockets that joined a
    group and tells the technology only of the first join and the last leave.
    Received packets pass through the channel's queue, bounded by a
    semaphore. *)

From S2P Require Import Prelude Config Uri Streams WriteBuffer ReadBuffer Serialization Message.
From S2P Require Import SyncFunction Dispatcher StorageSemaphore ConfigMap ClientChannel.

(** ** Interfaces *)

Inductive tech := tech_scribe | tech_tunnel | tech_void | tech_ip.

(** What an interface asked of its [m_impl]. *)
Inductive impl_call :=
  | impl_join (what : bytes)
  | impl_leave (what : bytes)
  | impl_send (whom : uri) (data : option bytes) (len ttl : Z).

(** [network_interface_mixin]; groups are compared by their strings. *)
Record network_interface := {
  ni_id : Z;
  ni_tech : tech;
  ni_joined_groups : gmap bytes Z;
  ni_calls : list impl_call
}.
Definition ni_set_groups g (i : network_interface) : network_interface :=
  {| ni_id := ni_id i; ni_tech := ni_tech i; ni_joined_groups := g; ni_calls := ni_calls i |}.
Definition ni_call c (i : network_interface) : network_interface :=
  {| ni_id := ni_id i; ni_tech := ni_tech i; ni_joined_groups := ni_joined_groups i; ni_calls := ni_calls i ++ [c] |}.

Definition new_interface (iid : Z) (t : tech) : network_interface :=
  {| ni_id := iid; ni_tech := t; ni_joined_groups := ∅; ni_calls := [] |}.

Definition ni_join (what : bytes) (i : network_interface) : network_interface :=
  match ni_joined_groups i !! what with
  | None => ni_call (impl_join what) (ni_set_groups (<[what := 1]> (ni_joined_groups i)) i)
  | Some n => ni_set_groups (<[what := uwrap 64 (n + 1)]> (ni_joined_groups i)) i
  end.
Definition ni_leave (what : bytes) (i : network_interface) : network_interface :=
  match ni_joined_groups i !! what with
  | None => i
  | Some n =>
      let n' := uwrap 64 (n - 1) in
      if n' =? 0 then ni_set_groups (delete what (ni_joined_groups i)) (ni_call (impl_leave what) i)
      else ni_set_groups (<[what := n']> (ni_joined_groups i)) i
  end.
Definition ni_send (whom : uri) (data : option bytes) (len ttl : Z) : network_interface → network_interface :=
  ni_call (impl_send whom data len ttl).

(** The queries of an [m_impl], answered directly. *)
Record impl_queries := {
  iq_neighbor_set : list uri;
  iq_group_set : list (uri * Z);
  iq_children_set : uri → list uri;
  iq_parent_set : uri → list uri;
  iq_designated_host : uri → bool;
  iq_name : bytes;
  iq_address : bytes
}.

Definition discovery (name addr tech_ : bytes) : gmap bytes bytes :=
  <[str "if_tech" := tech_]> (<[str "if_addr" := addr]> {[str "if_name" := name]}).
Definition ip_discovery (q : impl_queries) : gmap bytes bytes :=
  discovery (iq_name q) (str "ip://" ++ iq_address q) (str "IP").
Definition tunnel_discovery (q : impl_queries) : gmap bytes bytes :=
  discovery (iq_name q) (str "tun://192.168.1.20:1607") (str "tunnel").
Definition scribe_discovery (q : impl_queries) : gmap bytes bytes :=
  discovery (iq_name q) (str "scribe://" ++ iq_address q) (str "ALM").
Definition void_discovery : gmap bytes bytes := discovery (str "void") (str "void://") (str "void").
Definition service_discovery_results (q : impl_queries) (t : tech) : gmap bytes bytes :=
  match t with
  | tech_ip => ip_discovery q
  | tech_tunnel => tunnel_discovery q
  | tech_scribe => scribe_discovery q
  | tech_void => void_discovery
  end.

(** ** Sockets and the channel *)

(** [fake_socket_data]; the interfaces are shared, so a socket holds their
    ids. *)
Record fake_socket_data := {
  fs_ttl : Z;
  fs_obj : option Z;
  fs_ifs : gset Z;
  fs_streams : gmap Z uri;
  fs_joined_groups : gset bytes;
  fs_stream_ids : Z;
  fs_recv_cb : option Z
}.
Definition new_fake_socket_data : fake_socket_data :=
  {| fs_ttl := 1; fs_obj := None; fs_ifs := ∅; fs_streams := ∅; fs_joined_groups := ∅; fs_stream_ids := 0;
     fs_recv_cb := None |}.
Definition fs_set_ttl x s := {| fs_ttl := x; fs_obj := fs_obj s; fs_ifs := fs_ifs s; fs_streams := fs_streams s;
  fs_joined_groups := fs_joined_groups s; fs_stream_ids := fs_stream_ids s; fs_recv_cb := fs_recv_cb s |}.
Definition fs_set_obj x s := {| fs_ttl := fs_ttl s; fs_obj := x; fs_ifs := fs_ifs s; fs_streams := fs_streams s;
  fs_joined_groups := fs_joined_groups s; fs_stream_ids := fs_stream_ids s; fs_recv_cb := fs_recv_cb s |}.
Definition fs_set_ifs x s := {| fs_ttl := fs_ttl s; fs_obj := fs_obj s; fs_ifs := x; fs_streams := fs_streams s;
  fs_joined_groups := fs_joined_groups s; fs_stream_ids := fs_stream_ids s; fs_recv_cb := fs_recv_cb s |}.
Definition fs_set_streams x i s := {| fs_ttl := fs_ttl s; fs_obj := fs_obj s; fs_ifs := fs_ifs s; fs_streams := x;
  fs_joined_groups := fs_joined_groups s; fs_stream_ids := i; fs_recv_cb := fs_recv_cb s |}.
Definition fs_set_groups x s := {| fs_ttl := fs_ttl s; fs_obj := fs_obj s; fs_ifs := fs_ifs s;
  fs_streams := fs_streams s; fs_joined_groups := x; fs_stream_ids := fs_stream_ids s; fs_recv_cb := fs_recv_cb s |}.
Definition fs_set_recv_cb x s := {| fs_ttl := fs_ttl s; fs_obj := fs_obj s; fs_ifs := fs_ifs s;
  fs_streams := fs_streams s; fs_joined_groups := fs_joined_groups s; fs_stream_ids := fs_stream_ids s;
  fs_recv_cb := x |}.

(** The messages of the client, and received packets. *)
Inductive fc_msg :=
  | fc_client (m : cc_msg)
  | imp_t (mcast_packet : multicast_packet).

(** The interfaces, the sockets with their id generator, the semaphore, the
    queue, the URI cache of the channel's thread, and what the channel did for
    the application. *)
Record fake_client_channel := {
  fc_ifs : gmap Z network_interface;
  fc_sockets : gmap Z fake_socket_data;
  fc_socket_ids : Z;
  fc_ssem : Z;
  fc_queue : list fc_msg;
  fc_cache : gmap bytes uri;
  fc_log : list cc_effect
}.
Definition fc_set_ifs x s := {| fc_ifs := x; fc_sockets := fc_sockets s; fc_socket_ids := fc_socket_ids s;
  fc_ssem := fc_ssem s; fc_queue := fc_queue s; fc_cache := fc_cache s; fc_log := fc_log s |}.
Definition fc_set_sockets x i s := {| fc_ifs := fc_ifs s; fc_sockets := x; fc_socket_ids := i;
  fc_ssem := fc_ssem s; fc_queue := fc_queue s; fc_cache := fc_cache s; fc_log := fc_log s |}.
Definition fc_set_ssem x s := {| fc_ifs := fc_ifs s; fc_sockets := fc_sockets s; fc_socket_ids := fc_socket_ids s;
  fc_ssem := x; fc_queue := fc_queue s; fc_cache := fc_cache s; fc_log := fc_log s |}.
Definition fc_set_queue x s := {| fc_ifs := fc_ifs s; fc_sockets := fc_sockets s; fc_socket_ids := fc_socket_ids s;
  fc_ssem := fc_ssem s; fc_queue := x; fc_cache := fc_cache s; fc_log := fc_log s |}.
Definition fc_set_cache x s := {| fc_ifs := fc_ifs s; fc_sockets := fc_sockets s; fc_socket_ids := fc_socket_ids s;
  fc_ssem := fc_ssem s; fc_queue := fc_queue s; fc_cache := x; fc_log := fc_log s |}.
Definition fc_set_log x s := {| fc_ifs := fc_ifs s; fc_sockets := fc_sockets s; fc_socket_ids := fc_socket_ids s;
  fc_ssem := fc_ssem s; fc_queue := fc_queue s; fc_cache := fc_cache s; fc_log := x |}.

Abbreviation F := (M fake_client_channel).

Definition set_sock (sid : Z) (sd : fake_socket_data) : F unit :=
  modify (λ s, fc_set_sockets (<[sid := sd]> (fc_sockets s)) (fc_socket_ids s) s).
Definition fc_effect (e : cc_effect) : F unit := modify (λ s, fc_set_log (fc_log s ++ [e]) s).

(** An operation on the interface with an id, through its shared pointer. *)
Definition on_iface (f : network_interface → network_interface) (iid : Z) : F unit :=
  modify (λ s, fc_set_ifs (alter f iid (fc_ifs s)) s).

(** [fake_client_channel::socket], [interface]. *)
Definition socket (sid : Z) : F fake_socket_data :=
  o ← gets (λ s, fc_sockets s !! sid);
  match o with
  | Some sd => mret sd
  | None => throw (requirement_failed "i != m_sockets.end()")
  end.
Definition interface (iid : Z) : F network_interface :=
  o ← gets (λ s, fc_ifs s !! iid);
  match o with
  | Some i => mret i
  | None => throw (requirement_failed "i != m_ifs.end()")
  end.

(** [add_new_socket]: [insert] keeps a socket that has the id. *)
Definition add_new_socket : F Z :=
  s ← get;
  let result := fc_socket_ids s in
  put (fc_set_sockets (match fc_sockets s !! result with
                       | Some _ => fc_sockets s
                       | None => <[result := new_fake_socket_data]> (fc_sockets s)
                       end) (u32 (result + 1)) s) ;;
  mret result.
Definition remove_socket (sid : Z) : F unit :=
  modify (λ s, fc_set_sockets (delete sid (fc_sockets s)) (fc_socket_ids s) s).

(** [fake_socket_data::join], [leave] and [add_stream] of socket [sid]. *)
Definition sock_join (sid : Z) (group : uri) : F unit :=
  sd ← socket sid;
  if bool_decide (uri_str group ∈ fs_joined_groups sd) then mret tt
  else
    set_sock sid (fs_set_groups ({[uri_str group]} ∪ fs_joined_groups sd) sd) ;;
    for_each (in_order (fs_ifs sd)) (on_iface (ni_join (uri_str group))).
Definition sock_leave (sid : Z) (group : uri) : F unit :=
  sd ← socket sid;
  if bool_decide (uri_str group ∈ fs_joined_groups sd) then
    set_sock sid (fs_set_groups (fs_joined_groups sd ∖ {[uri_str group]}) sd) ;;
    for_each (in_order (fs_ifs sd)) (on_iface (ni_leave (uri_str group)))
  else mret tt.
Definition sock_add_stream (sid : Z) (group : uri) : F Z :=
  sd ← socket sid;
  let result := fs_stream_ids sd in
  set_sock sid (fs_set_streams (match fs_streams sd !! result with
                                | Some _ => fs_streams sd
                                | None => <[result := group]> (fs_streams sd)
                                end) (u16 (result + 1)) sd) ;;
  mret result.

(** ** The callbacks *)

Section callbacks.
Context (qs : tech → impl_queries).

Definition cb_set_is_img (value : bool) : F unit := mret tt.
Definition cb_get_is_img : F bool := mret false.

Definition cb_cr_sock_stream (sid : Z) (group : uri) : F Z :=
  require (negb (uri_empty group)) "!group.empty()" ;; sock_add_stream sid group.

Definition cb_get_sock_ifs (sid : Z) : F (list Z) :=
  sd ← socket sid; mret (in_order (fs_ifs sd)).

Definition cb_designated_host (iid : Z) (group : uri) : F bool :=
  i ← interface iid; mret (iq_designated_host (qs (ni_tech i)) group).

(** The intersection of the known interfaces and the given ones. *)
Definition cb_set_sock_ifs (sid : Z) (ifs : list Z) : F unit :=
  require (bool_decide (ifs ≠ [])) "!ifs.empty()" ;;
  sd ← socket sid;
  s ← get;
  set_sock sid (fs_set_ifs (dom (fc_ifs s) ∩ list_to_set ifs) sd).

Definition cb_add_sock_if (sid iid : Z) : F unit :=
  sd ← socket sid;
  i ← interface iid;
  set_sock sid (fs_set_ifs ({[ni_id i]} ∪ fs_ifs sd) sd).

Definition cb_rm_sock_if (sid iid : Z) : F unit :=
  sd ← socket sid; set_sock sid (fs_set_ifs (fs_ifs sd ∖ {[iid]}) sd).

Definition cb_neighbor_set (iid : Z) : F (list uri) :=
  i ← interface iid; mret (iq_neighbor_set (qs (ni_tech i))).
Definition cb_children_set (iid : Z) (group : uri) : F (list uri) :=
  require (negb (uri_empty group)) "!group.empty()" ;;
  i ← interface iid; mret (iq_children_set (qs (ni_tech i)) group).
Definition cb_parent_set (iid : Z) (group : uri) : F (list uri) :=
  require (negb (uri_empty group)) "!group.empty()" ;;
  i ← interface iid; mret (iq_parent_set (qs (ni_tech i)) group).

(** The conversion of the pairs turns an [int] into an [uint32_t]. *)
Definition cb_group_set (iid : Z) : F (list (uri * Z)) :=
  i ← interface iid; mret (prod_map id u32 <$> iq_group_set (qs (ni_tech i))).

Definition set_from_map (container : gmap bytes bytes) (key storage : bytes) : bytes :=
  default storage (container !! key).
Definition property_of (i : network_interface) : interface_property :=
  let sd := service_discovery_results (qs (ni_tech i)) (ni_tech i) in
  {| ip_id := ni_id i; ip_name := set_from_map sd (str "if_name") [];
     ip_address := set_from_map sd (str "if_addr") []; ip_technology := set_from_map sd (str "if_tech") [] |}.
Definition cb_get_ifs : F (list interface_property) :=
  s ← get; mret (property_of <$> omap (λ iid, fc_ifs s !! iid) (in_order (dom (fc_ifs s)))).

(** A new socket uses every interface. *)
Definition cb_cr_sock : F Z :=
  result ← add_new_socket;
  sd ← socket result;
  s ← get;
  set_sock result (fs_set_ifs (dom (fc_ifs s)) sd) ;;
  mret result.

Definition cb_rm_sock (sid : Z) : F unit := remove_socket sid.

Definition cb_set_ttl (sid ttl_value : Z) : F unit :=
  sd ← socket sid; set_sock sid (fs_set_ttl ttl_value sd).

Definition cb_leave (sid : Z) (group : uri) : F unit :=
  require (negb (uri_empty group)) "!group.empty()" ;; sock_leave sid group.
Definition cb_join (sid : Z) (group : uri) : F unit :=
  require (negb (uri_empty group)) "!group.empty()" ;; sock_join sid group.

Definition cb_enable_events : F unit := mret tt.
Definition cb_disable_events : F unit := mret tt.
Definition cb_get_atomic_msg_size (iid : Z) : F Z := mret default_max_msg_size.

(** The constructor's [m_dispatcher.init]. *)
Definition fake_callbacks : callbacks fake_client_channel := {|
  m_cr_sock_stream := cb_cr_sock_stream; m_get_sock_ifs := cb_get_sock_ifs;
  m_designated_host := cb_designated_host; m_add_sock_if := cb_add_sock_if;
  m_set_sock_ifs := cb_set_sock_ifs; m_rm_sock_if := cb_rm_sock_if;
  m_neighbor_set := cb_neighbor_set; m_children_set := cb_children_set; m_get_ifs := cb_get_ifs;
  m_cr_sock := cb_cr_sock; m_rm_sock := cb_rm_sock; m_parent_set := cb_parent_set;
  m_group_set := cb_group_set; m_set_ttl := cb_set_ttl; m_leave := cb_leave; m_join := cb_join;
  m_enable_events := cb_enable_events; m_disable_events := cb_disable_events;
  m_get_atomic_msg_size := cb_get_atomic_msg_size; m_set_is_img_flag := cb_set_is_img;
  m_get_is_img_flag := cb_get_is_img
|}.

(** ** Messages *)

(** [m_sockets[...]] creates a socket that is not there. *)
Definition socket_at (sid : Z) : F fake_socket_data :=
  s ← get; mret (default new_fake_socket_data (fc_sockets s !! sid)).

(** The [omp_t] case. *)
Definition send_mcast (o : omp) : F unit :=
  s ← get;
  match fc_sockets s !! omp_sck_id o with
  | None => mret tt
  | Some sdata =>
      match fs_streams sdata !! omp_stm_id o with
      | None => mret tt
      | Some group =>
          for_each (in_order (fs_ifs sdata))
            (on_iface (ni_send group (omp_content o) (i32 (omp_content_size o)) (fs_ttl sdata))) ;;
          match fs_obj sdata with
          | Some d => fc_effect (fx_release d (Z.max (i32 (omp_content_size o)) min_buffer_chunk))
          | None => ub "release_storage through a null pointer"
          end
      end
  end.

(** The [osm_t] case: the request is answered into a buffer, and the response
    read from it. *)
Definition call_request (o : osm) : F message :=
  λ s,
  let '(r, sv) := dispatch_to fake_callbacks (osm_fid o) 0 (osm_data o) (osm_size o)
                    (Build_server s (fc_cache s) new_write_buffer) in
  let s' := fc_set_cache (sv_cache sv) (sv_world sv) in
  match r with
  | Ok _ =>
      match wb_take (sv_out sv) with
      | (Ok (n, d), _) =>
          zoom fc_cache fc_set_cache (from_content c_message n ((λ b, ztake n (b_init b)) <$> d)) s'
      | (Throw e, _) => (Throw e, s')
      | (UB y, _) => (UB y, s')
      end
  | Throw e => (Throw e, s')
  | UB y => (UB y, s')
  end.
Definition answer_request (o : osm) : F unit :=
  result ← call_request o; fc_effect (fx_response o result).

(** The [imp_t] case for one socket. *)
Definition deliver_to (mp : multicast_packet) (sid : Z) : F unit :=
  s ← get;
  match fc_sockets s !! sid with
  | None => mret tt
  | Some sdata =>
      if bool_decide (uri_str (mp_from mp) ∈ fs_joined_groups sdata) then
        match fs_obj sdata, fs_recv_cb sdata with
        | Some d, _ => fc_effect (fx_recv d mp)
        | None, Some cb => fc_effect (fx_recv_cb cb (mp_from mp) (mp_size mp) (mp_data mp))
        | None, None => mret tt
        end
      else mret tt
  end.
Definition deliver_packet (mp : multicast_packet) : F unit :=
  modify (λ s, fc_set_ssem (semaphore.release_bytes (i32 (mp_size mp)) (fc_ssem s)) s) ;;
  s ← get;
  for_each (in_order (dom (fc_sockets s))) (deliver_to mp).

Definition handle_fc_msg (e : fc_msg) : F unit :=
  match e with
  | fc_client (reg_d_ptr_t sid ptr) =>
      sd ← socket_at sid; set_sock sid (fs_set_obj (Some ptr) sd)
  | fc_client (reg_recv_cb_t sid fun_) =>
      sd ← socket_at sid; set_sock sid (fs_set_recv_cb (Some fun_) sd)
  | fc_client (omp_t o) => send_mcast o
  | fc_client (osm_t o) => answer_request o
  | fc_client (reg_cb_t _) => mret tt
  | imp_t mp => deliver_packet mp
  end.

Fixpoint fc_poll_messages (num : nat) : F unit :=
  match num with
  | O => mret tt
  | S num =>
      s ← get;
      match fc_queue s with
      | [] => throw (requirement_failed "e != 0")
      | e :: q => put (fc_set_queue q s) ;; handle_fc_msg e ;; fc_poll_messages num
      end
  end.

(** ** The callbacks of the technologies *)

(** [recv_cb], called by the threads of the interfaces. *)
Definition recv_cb (data : option bytes) (data_len : Z) (uri_obj : option uri) (uri_string : option bytes) : F unit :=
  require ((bool_decide (is_Some uri_obj) || bool_decide (is_Some uri_string)) && bool_decide (is_Some data)
           && (0 <? data_len)) "(uri_obj || uri_str) && data && data_len > 0" ;;
  s ← get;
  match semaphore.try_acquire (i32 data_len) (fc_ssem s) with
  | None => mret tt
  | Some av =>
      put (fc_set_ssem av s) ;;
      if zlen (default [] data) <? data_len then ub "memcpy from beyond the end of the data"
      else
        let sender := match uri_obj with Some u => u | None => uri_of (default [] uri_string) end in
        modify (λ s, fc_set_queue (fc_queue s ++ [imp_t {| mp_from := sender; mp_size := u32 data_len;
                                     mp_data := ztake data_len <$> data |}]) s)
  end.

Definition event_callback (handle : bool) (etype : Z) (uri_obj : option uri) (uri_cstr : option bytes) : F unit :=
  require ((1 <=? etype) && (etype <=? 3) && (bool_decide (is_Some uri_obj) || bool_decide (is_Some uri_cstr))
           && handle) "etype >= 1 && etype <= 3 && (uri_obj || uri_cstr) && handle".
End callbacks.

(** ** Construction *)

(** An entry of [getifaddrs]: a name and, when it has an address, whether it
    is an IPv4 address and its text. *)
Record ifaddr := { ifa_name : bytes; ifa_addr : option (bool * bytes) }.

(** The loop of [get_ip_interface]: the first configured IPv4 interface that is not the
    loopback; [None] is INADDR_ANY.  An interface without an address is
    dereferenced. *)
Fixpoint find_ip_interface {S : Type} (config_iface : bytes) (ifaddrs : list ifaddr) : M S (option (bytes * bytes)) :=
  match ifaddrs with
  | [] => mret None
  | ifa :: rest =>
      match ifa_addr ifa with
      | None => ub "ifa_addr is a null pointer"
      | Some (v4, iface_ip) =>
          if v4 && (bool_decide (config_iface = []) || bool_decide (config_iface = ifa_name ifa))
             && negb (contains (str "127.0.0.1") iface_ip) && negb (contains (str "127.0.1.1") iface_ip)
          then mret (Some (ifa_name ifa, iface_ip))
          else find_ip_interface config_iface rest
      end
  end.
(** After a failed [getifaddrs] the uninitialized list is freed; the address of
    the chosen interface is copied after the list it lies in was freed. *)
Definition get_ip_interface {S : Type} (conf : container_type) (ifaddrs : option (list ifaddr)) :
    M S (option (bytes * bytes)) :=
  match ifaddrs with
  | None => ub "freeifaddrs of an uninitialized pointer"
  | Some l =>
      found ← find_ip_interface (cm_get conf (str "ip") (str "if")) l;
      match found with
      | Some _ => ub "*iface_addr is read after freeifaddrs"
      | None => mret None
      end
  end.

(** The chosen interface is an eligible one, the first. *)
Lemma find_ip_interface_first {S : Type} config_iface l (s : S) name ip s' :
  find_ip_interface config_iface l s = (Ok (Some (name, ip)), s') →
  ∃ l1 l2, l = l1 ++ {| ifa_name := name; ifa_addr := Some (true, ip) |} :: l2 ∧
    (config_iface = [] ∨ config_iface = name) ∧ contains (str "127.0.0.1") ip = false ∧
    Forall (λ a, find_ip_interface config_iface [a] s = (Ok None, s)) l1.
Proof.
  induction l as [|[n a] l IH]; [done|]. cbn [find_ip_interface ifa_addr ifa_name]. destruct a as [[v4 addr]|]; [|done].
  destruct (v4 && _ && _ && _) eqn:E.
  - intros [= <- <- <-]. apply andb_prop in E as [E _]. apply andb_prop in E as [E Ec]. apply andb_prop in E as [-> Eo].
    exists [], l. split_and!; [done| |by apply negb_true_iff|constructor].
    apply orb_prop in Eo as [?%bool_decide_eq_true|?%bool_decide_eq_true]; auto.
  - intros H. destruct (IH H) as (l1 & l2 & -> & Ho & Hc & Hl).
    exists ({| ifa_name := n; ifa_addr := Some (v4, addr) |} :: l1), l2. split_and!; [done..|].
    constructor; [|done]. cbn [find_ip_interface ifa_addr ifa_name]. by rewrite E.
Qed.

(** The technologies the configuration enables, and ip when there is none;
    [scribe_up] tells whether the overlay could be initialized. *)
Definition enabled (conf : container_type) : list tech :=
  let others := (if has_group conf (str "scribe") then [tech_scribe] else []) ++
                (if has_group conf (str "tunnel") then [tech_tunnel] else []) ++
                (if has_group conf (str "void") then [tech_void] else []) in
  others ++ (if has_group conf (str "ip") || (zlen others <? 1) then [tech_ip] else []).

Definition add_interface (scribe_up : bool) (p : nat * tech) (ifs : gmap Z network_interface) :
    gmap Z network_interface :=
  match p.2, scribe_up with
  | tech_scribe, false => ifs
  | t, _ => <[Z.of_nat p.1 := new_interface (Z.of_nat p.1) t]> ifs
  end.

(** A configuration file that cannot be read leaves what was read so far. *)
Definition new_fake_client_channel (scribe_up : bool) (files : gmap bytes bytes) : fake_client_channel :=
  let conf := ini_map (read_ini files (str "hamcast.ini") new_config_map).2 in
  {| fc_ifs := foldr (add_interface scribe_up) ∅ (imap pair (enabled conf)); fc_sockets := ∅; fc_socket_ids := 0;
     fc_ssem := max_channel_queue_size; fc_queue := []; fc_cache := ∅; fc_log := [] |}.

(** ** Requests *)

(** The request a functor of the API posts. *)
Definition request_osm {A R} (f : api_fn A R) (args : A) (fmsg : Z) : osm :=
  {| osm_fid := function_id_value (functor_fid (fn_id f));
     osm_size := zlen (tc_enc (args_of f) args); osm_data := content_of (tc_enc (args_of f) args);
     osm_fmsg := fmsg |}.

Lemma dispatch_functor {W S A R : Type} `{Sink S} (cbs : callbacks W) (f : api_fn A R) rid content size :
  fn_id f ≠ fid_disable_events →
  dispatch_to (S:=S) cbs (function_id_value (functor_fid (fn_id f))) rid content size =
  reply (tc_codec (args_of f)) (tc_codec (result_of f)) rid content size (callback cbs f).
Proof.
  intros Hf. rewrite -dispatch_fn. by assert (functor_fid (fn_id f) = fn_id f) as -> by (by destruct (fn_id f)).
Qed.

Section requests.
Context (qs : tech → impl_queries).

(** The response comes back as it was written. *)
Lemma call_request_ok {A R} (f : api_fn A R) args fmsg o s s' :
  fn_id f ≠ fid_disable_events → tc_rep (args_of f) args →
  zlen (tc_enc (args_of f) args) <= default_max_write_buffer_size → cache_ok (fc_cache s) →
  callback (fake_callbacks qs) f args s = (o, s') → portable (tc_enc (result_of f)) (tc_rep (result_of f)) o →
  message_size (response (tc_enc (result_of f)) 0 o) <= default_max_write_buffer_size →
  ∃ c, cache_ok c ∧ call_request qs (request_osm f args fmsg) s =
    (Ok (response (tc_enc (result_of f)) 0 o), fc_set_cache c s').
Proof.
  intros Hf Ha Hl Hc Hcb Hp Hsz. rewrite /call_request /request_osm. cbn [osm_fid osm_size osm_data].
  rewrite dispatch_functor //.
  destruct (reply_ok (S:=write_buffer) (tc_codec (args_of f)) (tc_codec (result_of f)) _ _ _ _
    args (callback (fake_callbacks qs) f) 0 o s s' new_write_buffer (fc_cache s) Ha Hl Hc Hcb Hp)
    as (c' & Hc' & ->).
  set (resp := response _ 0 o) in *.
  assert (rep_message resp) as Hrep by (eapply response_rep; [exact Hp|lia]).
  pose proof (fill_emits _ _ (ser_spec write_buffer (c := c_message) resp Hrep)) as Hfill.
  rewrite enc_message_size // in Hfill. specialize (Hfill Hsz). rewrite /fill_write_buffer in Hfill.
  change (c_ser c_message resp new_write_buffer) with (message_serialize resp new_write_buffer) in Hfill.
  destruct (message_serialize resp new_write_buffer) as [[[]|?|?] wb]; try done. cbn [fst snd sv_out].
  destruct (wb_take wb) as [[[n d]|?|?] ?]; try done. injection Hfill as -> ->.
  destruct (from_content_ok c_message _ _ resp c' Hrep) as (c'' & E & Hc''); [by rewrite enc_message_size|done|].
  exists c''. split; [done|]. rewrite enc_message_size // in E. rewrite /zoom. cbn [fc_cache fc_set_cache sv_cache sv_world].
  by rewrite E.
Qed.

(** Reading a message does not use the cache. *)
Definition keeps_cache {A} (m : M (dstate read_buffer) A) : Prop := ∀ d, d_cache (m d).2 = d_cache d.

Lemma keeps_cache_bind {A B} (m : M (dstate read_buffer) A) (k : A → M (dstate read_buffer) B) :
  keeps_cache m → (∀ a, keeps_cache (k a)) → keeps_cache (m ≫= k).
Proof.
  intros Hm Hk d. rewrite /mbind /M_bind. specialize (Hm d). destruct (m d) as [[a|e|y] d']; [|done..].
  by rewrite Hk.
Qed.

Lemma keeps_cache_read n : keeps_cache (d_read n).
Proof. intros d. rewrite /d_read /zoom. by destruct (source_read n (d_src d)). Qed.

Lemma keeps_cache_int n : keeps_cache (c_des (c_int n)).
Proof. apply keeps_cache_bind; [apply keeps_cache_read|done]. Qed.

Lemma message_deserialize_cache : keeps_cache message_deserialize.
Proof.
  rewrite /message_deserialize.
  do 5 (apply keeps_cache_bind; [apply keeps_cache_int|intros ?]).
  apply keeps_cache_bind; [case_match; [apply keeps_cache_bind; [apply keeps_cache_read|done]|done]|].
  intros ct d. rewrite /message_create /mbind /M_bind /require. by destruct (_ || _).
Qed.

(** Whatever the response, the callback has run once, and nothing but the
    cache is different. *)
Lemma call_request_state {A R} (f : api_fn A R) args fmsg s :
  fn_id f ≠ fid_disable_events → tc_rep (args_of f) args →
  zlen (tc_enc (args_of f) args) <= default_max_write_buffer_size → cache_ok (fc_cache s) →
  ∃ c, cache_ok c ∧ (call_request qs (request_osm f args fmsg) s).2 =
    fc_set_cache c (callback (fake_callbacks qs) f args s).2.
Proof.
  intros Hf Ha Hl Hc. rewrite /call_request /request_osm. cbn [osm_fid osm_size osm_data].
  rewrite dispatch_functor //.
  destruct (reply_world (S:=write_buffer) (tc_codec (args_of f)) (tc_codec (result_of f)) _ _
    args (callback (fake_callbacks qs) f) 0 s new_write_buffer (fc_cache s) Ha Hl Hc) as [Hw Hcc].
  destruct (reply _ _ _ _ _ _ _) as [r sv]. cbn [snd] in Hw, Hcc. rewrite -Hw.
  destruct r as [[]|e|y]; [|by exists (sv_cache sv)..].
  destruct (wb_take (sv_out sv)) as [[[n d]|?|?] ?]; [|by exists (sv_cache sv)..].
  exists (sv_cache sv). split; [done|]. rewrite /zoom /from_content. cbn [fc_cache fc_set_cache].
  set (st := Build_dstate _ _). pose proof (message_deserialize_cache st) as E.
  cbn [c_des c_message]. destruct (message_deserialize st) as [r d']. cbn in E. by rewrite E.
Qed.
End requests.

(** ** The memberships of the interfaces *)

(** What the technology of an interface has joined. *)
Definition impl_step (c : impl_call) (groups : gset bytes) : gset bytes :=
  match c with
  | impl_join g => {[g]} ∪ groups
  | impl_leave g => groups ∖ {[g]}
  | impl_send _ _ _ _ => groups
  end.
Definition impl_groups (calls : list impl_call) : gset bytes := foldl (flip impl_step) ∅ calls.

(** How many values of a map satisfy a test. *)
Definition map_count {A} (P : A → bool) (m : gmap Z A) : Z :=
  map_fold (λ _ x n, (if P x then 1 else 0) + n) 0 m.

Lemma map_count_insert {A} (P : A → bool) (m : gmap Z A) k x :
  m !! k = None → map_count P (<[k := x]> m) = (if P x then 1 else 0) + map_count P m.
Proof. intros Hk. rewrite /map_count map_fold_insert_L //. intros. lia. Qed.

Lemma map_count_delete {A} (P : A → bool) (m : gmap Z A) k :
  map_count P m = from_option (λ x, if P x then 1 else 0) 0 (m !! k) + map_count P (delete k m).
Proof.
  destruct (m !! k) as [x|] eqn:E; cbn; [|by rewrite delete_id].
  rewrite -{1}(insert_delete_id m k x E) map_count_insert //. apply lookup_delete_eq.
Qed.

Lemma map_count_update {A} (P : A → bool) (m : gmap Z A) k x y :
  m !! k = Some x → map_count P (<[k := y]> m) = map_count P m + (if P y then 1 else 0) - (if P x then 1 else 0).
Proof.
  intros E. rewrite (map_count_delete P (<[k := y]> m) k) (map_count_delete P m k) lookup_insert_eq E delete_insert_eq.
  cbn. lia.
Qed.

Lemma map_count_bounds {A} (P : A → bool) (m : gmap Z A) : 0 <= map_count P m <= Z.of_nat (size m).
Proof.
  induction m as [|k x m Hk IH] using map_ind; [done|]. rewrite map_count_insert // map_size_insert Hk /=.
  destruct (P x); lia.
Qed.

(** The sockets that use interface [i] and joined group [g]. *)
Definition uses (i : Z) (g : bytes) (sd : fake_socket_data) : bool :=
  bool_decide (i ∈ fs_ifs sd) && bool_decide (g ∈ fs_joined_groups sd).
Definition users (s : fake_client_channel) (i : Z) (g : bytes) : Z := map_count (uses i g) (fc_sockets s).

(** The count of an interface is [n], and its technology has joined the group
    if it is not zero. *)
Definition counts (iface : network_interface) (g : bytes) (n : Z) : Prop :=
  0 <= n ∧ ni_joined_groups iface !! g = (if n =? 0 then None else Some n) ∧
  (g ∈ impl_groups (ni_calls iface) ↔ 0 < n).

Lemma impl_groups_snoc calls c : impl_groups (calls ++ [c]) = impl_step c (impl_groups calls).
Proof. by rewrite /impl_groups foldl_snoc. Qed.

Lemma counts_join iface g n :
  counts iface g n → n < 2 ^ 63 →
  counts (ni_join g iface) g (n + 1) ∧ ∀ g' n', g' ≠ g → counts iface g' n' → counts (ni_join g iface) g' n'.
Proof.
  intros (Hn & Hg & Hc) Hb. rewrite /ni_join Hg. destruct (Z.eqb_spec n 0) as [->|Hz]; rewrite /counts;
    cbn [ni_call ni_set_groups ni_joined_groups ni_calls];
    rewrite ?impl_groups_snoc; cbn [impl_step]; rewrite lookup_insert_eq.
  - split; [split_and!; [lia|done|set_solver by lia]|]. intros g' n' Hne (? & ? & ?).
    rewrite lookup_insert_ne; [done|]. set_solver.
  - split; [split_and!; [lia| |rewrite Hc; lia]|].
    + rewrite /uwrap Z.mod_small; [lia|]. by destruct (Z.eqb_spec (n + 1) 0); [lia|].
    + intros g' n' Hne (? & ? & ?). by rewrite lookup_insert_ne.
Qed.

Lemma counts_leave iface g n :
  counts iface g n → 0 < n < 2 ^ 63 →
  counts (ni_leave g iface) g (n - 1) ∧ ∀ g' n', g' ≠ g → counts iface g' n' → counts (ni_leave g iface) g' n'.
Proof.
  intros (Hn & Hg & Hc) Hb. rewrite /ni_leave Hg. destruct (Z.eqb_spec n 0) as [?|Hz]; [lia|].
  cbn zeta. rewrite /uwrap Z.mod_small; [lia|]. destruct (Z.eqb_spec (n - 1) 0) as [E|E]; rewrite /counts;
    cbn [ni_call ni_set_groups ni_joined_groups ni_calls];
    rewrite ?impl_groups_snoc; cbn [impl_step]; rewrite ?lookup_delete_eq ?lookup_insert_eq.
  - split; [split_and!; [lia|by rewrite E|set_solver by lia]|]. intros g' n' Hne (? & ? & ?).
    rewrite lookup_delete_ne; [done|]. set_solver.
  - split; [split_and!; [lia| |rewrite Hc; lia]|].
    + by destruct (Z.eqb_spec (n - 1) 0).
    + intros g' n' Hne (? & ? & ?). by rewrite lookup_insert_ne.
Qed.

(** ** The invariant *)

Definition books (s : fake_client_channel) : Prop :=
  (∀ i iface, fc_ifs s !! i = Some iface → ni_id iface = i ∧ ∀ g, counts iface g (users s i g)) ∧
  (∀ sid sd, fc_sockets s !! sid = Some sd → 0 <= sid < 2 ^ 32 ∧ fs_ifs sd ⊆ dom (fc_ifs s)) ∧
  0 <= fc_socket_ids s < 2 ^ 32.

Lemma users_bound s i g : books s → 0 <= users s i g < 2 ^ 63.
Proof.
  intros (_ & Hs & _). pose proof (map_count_bounds (uses i g) (fc_sockets s)) as Hc. rewrite -/(users s i g) in Hc.
  assert (Z.of_nat (size (fc_sockets s)) <= 2 ^ 32); [|lia].
  rewrite -(size_dom (D:=gset Z)). transitivity (Z.of_nat (size (list_to_set (seqZ 0 (2 ^ 32)) : gset Z))).
  - apply inj_le, subseteq_size. intros sid [sd Hsd]%elem_of_dom. apply elem_of_list_to_set, elem_of_seqZ.
    destruct (Hs sid sd Hsd). lia.
  - rewrite size_list_to_set; [apply NoDup_seqZ|]. rewrite length_seqZ Z2Nat.id; lia.
Qed.

(** A loop over interfaces. *)
Lemma each_iface f (ids : gset Z) s :
  ∃ m, for_each (in_order ids) (on_iface f) s = (Ok tt, fc_set_ifs m s) ∧
    ∀ i, m !! i = if bool_decide (i ∈ ids) then f <$> fc_ifs s !! i else fc_ifs s !! i.
Proof.
  destruct (in_order_spec ids) as [Hnd Hin].
  enough (∃ m, for_each (in_order ids) (on_iface f) s = (Ok tt, fc_set_ifs m s) ∧
    ∀ i, m !! i = if bool_decide (i ∈ in_order ids) then f <$> fc_ifs s !! i else fc_ifs s !! i) as (m & E & Hm).
  { exists m. split; [done|]. intros i. rewrite Hm. by rewrite (bool_decide_ext _ _ (Hin i)). }
  clear Hin. revert s. induction Hnd as [|i l Hi _ IH]; intros s.
  { exists (fc_ifs s). split; [by destruct s|done]. }
  destruct (IH (fc_set_ifs (alter f i (fc_ifs s)) s)) as (m & E & Hm). exists m. split; [exact E|].
  intros j. rewrite Hm. cbn [fc_ifs fc_set_ifs]. destruct (decide (j = i)) as [->|Hne].
  - rewrite bool_decide_false // bool_decide_true; [left|]. by rewrite lookup_alter_eq.
  - rewrite lookup_alter_ne //. rewrite (bool_decide_ext (j ∈ i :: l) (j ∈ l)) //. set_solver.
Qed.

(** A change of a socket that joins and leaves nothing. *)
Lemma books_same s s' sid sd' :
  books s → fc_ifs s' = fc_ifs s → fc_sockets s' = <[sid := sd']> (fc_sockets s) →
  (∀ i g, uses i g sd' = from_option (uses i g) false (fc_sockets s !! sid)) →
  0 <= sid < 2 ^ 32 → fs_ifs sd' ⊆ dom (fc_ifs s) → 0 <= fc_socket_ids s' < 2 ^ 32 → books s'.
Proof.
  intros (Hi & Hs & Hn) Ei Es Hu Hsid Hifs Hn'. split_and!; [| |lia|lia].
  - intros i iface. rewrite Ei. intros Hif. destruct (Hi i iface Hif) as [Hid Hc]. split; [done|]. intros g.
    assert (users s' i g = users s i g) as ->; [|done]. rewrite /users Es. specialize (Hu i g).
    destruct (fc_sockets s !! sid) as [sd|] eqn:E; cbn in Hu.
    + rewrite (map_count_update _ _ _ _ _ E) Hu. lia.
    + by rewrite map_count_insert // Hu.
  - intros sid2 sd2. rewrite Es Ei. intros [[<- <-]|[? ?]]%lookup_insert_Some; [done|by apply Hs].
Qed.

Lemma books_delete s s' sid :
  books s → fc_ifs s' = fc_ifs s → fc_sockets s' = delete sid (fc_sockets s) → fc_socket_ids s' = fc_socket_ids s →
  (∀ i g, from_option (uses i g) false (fc_sockets s !! sid) = false) → books s'.
Proof.
  intros (Hi & Hs & Hn) Ei Es En Hu. rewrite /books En. split_and!; [| |lia|lia].
  - intros i iface. rewrite Ei. intros Hif. destruct (Hi i iface Hif) as [Hid Hc]. split; [done|]. intros g.
    assert (users s' i g = users s i g) as ->; [|done]. rewrite /users Es (map_count_delete _ (fc_sockets s) sid).
    specialize (Hu i g). destruct (fc_sockets s !! sid); cbn in *; [by rewrite Hu|done].
  - intros sid2 sd2. rewrite Es Ei. intros [? ?]%lookup_delete_Some. by apply Hs.
Qed.

(** A socket joins or leaves a group on its interfaces. *)
Lemma books_change s s' sid sd sd' f g d :
  books s → fc_sockets s !! sid = Some sd → fc_sockets s' = <[sid := sd']> (fc_sockets s) →
  fs_ifs sd' = fs_ifs sd → fc_socket_ids s' = fc_socket_ids s →
  (∀ i, fc_ifs s' !! i = if bool_decide (i ∈ fs_ifs sd) then f <$> fc_ifs s !! i else fc_ifs s !! i) →
  (∀ i g', i ∈ fs_ifs sd → (if uses i g' sd' then 1 else 0) - (if uses i g' sd then 1 else 0) =
     if bool_decide (g' = g) then d else 0) →
  (∀ iface, ni_id (f iface) = ni_id iface) →
  (∀ i iface, i ∈ fs_ifs sd → fc_ifs s !! i = Some iface → (∀ g', counts iface g' (users s i g')) →
     ∀ g', counts (f iface) g' (users s i g' + if bool_decide (g' = g) then d else 0)) →
  books s'.
Proof.
  intros Hb Esd Es Eifs En Ei Hd Hid Hf. pose proof Hb as (Hi & Hs & Hn). rewrite /books En. split_and!; [| |lia|lia].
  - intros i iface'. rewrite Ei. case_bool_decide as Hin.
    + intros (iface & Hif & ->)%fmap_Some. destruct (Hi i iface Hif) as [Hidi Hc].
      split; [by rewrite Hid|]. intros g'. rewrite /users Es (map_count_update _ _ _ _ _ Esd).
      specialize (Hf i iface Hin Hif Hc g'). specialize (Hd i g' Hin). rewrite /users in Hf.
      replace (_ + _ - _) with (map_count (uses i g') (fc_sockets s) + (if bool_decide (g' = g) then d else 0)) by lia.
      done.
    + intros Hif. destruct (Hi i iface' Hif) as [Hidi Hc]. split; [done|]. intros g'.
      assert (∀ x, fs_ifs x = fs_ifs sd → uses i g' x = false) as Hu
        by (intros x Hx; by rewrite /uses Hx bool_decide_false).
      rewrite /users Es (map_count_update _ _ _ _ _ Esd) !Hu //.
      replace (_ + _ - _) with (users s i g') by (rewrite /users; lia). done.
  - assert (dom (fc_ifs s') = dom (fc_ifs s)) as ->.
    { apply set_eq. intros i. rewrite !elem_of_dom Ei. case_bool_decide; [|done]. by rewrite fmap_is_Some. }
    intros sid2 sd2. rewrite Es. intros [[<- <-]|[? ?]]%lookup_insert_Some; [|by apply Hs].
    rewrite Eifs. by apply Hs.
Qed.

(** The checked lookups. *)
Lemma socket_bind {A} sid (k : fake_socket_data → F A) s :
  (socket sid ≫= k) s = match fc_sockets s !! sid with
                        | Some sd => k sd s
                        | None => (Throw (requirement_failed "i != m_sockets.end()"), s)
                        end.
Proof. rewrite /socket /mbind /M_bind /gets. by destruct (fc_sockets s !! sid). Qed.

Lemma interface_bind {A} iid (k : network_interface → F A) s :
  (interface iid ≫= k) s = match fc_ifs s !! iid with
                           | Some i => k i s
                           | None => (Throw (requirement_failed "i != m_ifs.end()"), s)
                           end.
Proof. rewrite /interface /mbind /M_bind /gets. by destruct (fc_ifs s !! iid). Qed.

(** The operations that call the interfaces. *)
Lemma sock_join_books sid group s : books s → books (sock_join sid group s).2.
Proof.
  intros Hb. rewrite /sock_join socket_bind. destruct (fc_sockets s !! sid) as [sd|] eqn:E; [|done].
  case_bool_decide as Hg; [done|]. rewrite /set_sock {1}/mbind /M_bind {1}/modify. set (s1 := fc_set_sockets _ _ _).
  destruct (each_iface (ni_join (uri_str group)) (fs_ifs sd) s1) as (m & -> & Hm). cbn [snd].
  eapply (books_change s _ sid sd _ (ni_join (uri_str group)) (uri_str group) 1); try done.
  - intros i g' Hi. rewrite /uses /= bool_decide_true //=. destruct (decide (g' = uri_str group)) as [->|Hne].
    + rewrite bool_decide_true; [set_solver|]. rewrite bool_decide_false //. by rewrite bool_decide_true.
    + rewrite (bool_decide_ext (g' ∈ _ ∪ _) (g' ∈ fs_joined_groups sd)); [set_solver|]. rewrite (bool_decide_false (g' = _)) //. lia.
  - intros iface. rewrite /ni_join. by case_match.
  - intros i iface Hi Hif Hc g'. pose proof (users_bound s i (uri_str group) Hb).
    destruct (counts_join iface (uri_str group) _ (Hc _)) as [H1 H2]; [lia|].
    case_bool_decide as Hg'; [by subst|]. rewrite Z.add_0_r. by apply H2.
Qed.

Lemma sock_leave_books sid group s : books s → books (sock_leave sid group s).2.
Proof.
  intros Hb. rewrite /sock_leave socket_bind. destruct (fc_sockets s !! sid) as [sd|] eqn:E; [|done].
  case_bool_decide as Hg; [|done]. rewrite /set_sock {1}/mbind /M_bind {1}/modify. set (s1 := fc_set_sockets _ _ _).
  destruct (each_iface (ni_leave (uri_str group)) (fs_ifs sd) s1) as (m & -> & Hm). cbn [snd].
  assert (∀ i, i ∈ fs_ifs sd → 0 < users s i (uri_str group)) as Hpos.
  { intros i Hi. rewrite /users (map_count_delete _ _ sid) E /= /uses !bool_decide_true //.
    pose proof (map_count_bounds (uses i (uri_str group)) (delete sid (fc_sockets s))). rewrite /uses in H. cbn. lia. }
  eapply (books_change s _ sid sd _ (ni_leave (uri_str group)) (uri_str group) (-1)); try done.
  - intros i g' Hi. rewrite /uses /= bool_decide_true //=. destruct (decide (g' = uri_str group)) as [->|Hne].
    + rewrite bool_decide_false; [set_solver|]. rewrite bool_decide_true //. by rewrite bool_decide_true.
    + rewrite (bool_decide_ext (g' ∈ _ ∖ _) (g' ∈ fs_joined_groups sd)); [set_solver|]. rewrite (bool_decide_false (g' = _)) //. lia.
  - intros iface. rewrite /ni_leave. repeat case_match; done.
  - intros i iface Hi Hif Hc g'. pose proof (users_bound s i (uri_str group) Hb). specialize (Hpos i Hi).
    destruct (counts_leave iface (uri_str group) _ (Hc _)) as [H1 H2]; [lia|].
    case_bool_decide as Hg'; [by subst|]. rewrite Z.add_0_r. by apply H2.
Qed.

(** A client takes care when it changes the interfaces of a socket, or deletes
    it, only after it left the groups.  (The generator of socket ids wraps: it
    must not return to a socket that is still in use.) *)
Definition no_groups (s : fake_client_channel) (sid : Z) : Prop :=
  ∀ sd, fc_sockets s !! sid = Some sd → fs_joined_groups sd = ∅.
Definition careful {A R} (f : api_fn A R) : A → fake_client_channel → Prop :=
  match f with
  | create_socket => λ _ s, no_groups s (fc_socket_ids s)
  | delete_socket => λ sid s, no_groups s sid
  | add_sock_interface | del_sock_interface => λ a s, no_groups s a.1
  | set_sock_interfaces => λ a s, no_groups s a.1
  | _ => λ _ _, True
  end.

(** The parts of the channel that no callback touches. *)
Definition same_rest (s s' : fake_client_channel) : Prop :=
  fc_ssem s' = fc_ssem s ∧ fc_queue s' = fc_queue s ∧ fc_cache s' = fc_cache s ∧ fc_log s' = fc_log s.

Lemma uses_no_groups i g sd : fs_joined_groups sd = ∅ → uses i g sd = false.
Proof. intros E. rewrite /uses E (bool_decide_false (g ∈ ∅)); [set_solver|]. apply andb_false_r. Qed.

(** Replacing a socket by one that joined the same groups, or none. *)
Lemma set_sock_books s sid sd sd' :
  books s → fc_sockets s !! sid = Some sd →
  fs_joined_groups sd' = fs_joined_groups sd → fs_ifs sd' ⊆ dom (fc_ifs s) →
  (fs_ifs sd' = fs_ifs sd ∨ fs_joined_groups sd = ∅) → books (set_sock sid sd' s).2.
Proof.
  intros Hb E Hg Hifs Hor. pose proof Hb as (_ & Hs & Hn). destruct (Hs _ _ E) as [Hr _].
  eapply (books_same s _ sid sd'); try done.
  intros i g. rewrite E /=. destruct Hor as [Hi|He]; [by rewrite /uses Hi Hg|].
  rewrite !uses_no_groups //. by rewrite Hg.
Qed.

Lemma cr_sock_books s : books s → no_groups s (fc_socket_ids s) → books (cb_cr_sock s).2.
Proof.
  intros Hb Hno. pose proof Hb as (_ & Hs & Hn).
  rewrite /cb_cr_sock /add_new_socket {1}/mbind /M_bind {1}/mbind /M_bind /get {1}/mbind /M_bind /put. cbn [mret M_ret].
  rewrite socket_bind. set (s1 := fc_set_sockets _ _ s).
  set (sd := default new_fake_socket_data (fc_sockets s !! fc_socket_ids s)).
  assert (fc_sockets s1 = <[fc_socket_ids s := sd]> (fc_sockets s)) as E1.
  { rewrite /s1 /sd. cbn. destruct (fc_sockets s !! fc_socket_ids s) eqn:E; [by rewrite /= insert_id|done]. }
  rewrite E1 lookup_insert_eq.
  eapply (books_same s _ (fc_socket_ids s) (fs_set_ifs (dom (fc_ifs s)) sd)); try done.
  - rewrite /mbind /M_bind /set_sock /modify. cbn [snd mret M_ret fc_set_sockets fc_sockets]. by rewrite E1 insert_insert_eq.
  - intros i g. rewrite uses_no_groups.
    { rewrite /sd. specialize (Hno sd). rewrite /sd in Hno. cbn. destruct (fc_sockets s !! fc_socket_ids s); [by apply Hno|done]. }
    destruct (fc_sockets s !! fc_socket_ids s) eqn:E; [|done]. cbn. symmetry. apply uses_no_groups. by apply Hno.
  - pose proof (uwrap_fits 32 (fc_socket_ids s + 1)). rewrite /fits in H. apply H. lia.
Qed.

Lemma require_bind {S A} (b : bool) what (k : M S A) s :
  (require b what ;; k) s = if b then k s else (Throw (requirement_failed what), s).
Proof. by destruct b. Qed.

(** The callback of a given function. *)
Ltac pick_callback :=
  cbn [callback fake_callbacks m_set_is_img_flag m_get_is_img_flag m_cr_sock m_rm_sock
    m_cr_sock_stream m_join m_leave m_set_ttl m_get_sock_ifs m_add_sock_if m_rm_sock_if m_get_ifs m_group_set
    m_neighbor_set m_children_set m_parent_set m_designated_host m_set_sock_ifs m_enable_events m_disable_events
    m_get_atomic_msg_size].

Section invariant.
Context (qs : tech → impl_queries).

Lemma callback_books {A R} (f : api_fn A R) (args : A) s :
  books s → careful f args s → books (callback (fake_callbacks qs) f args s).2.
Proof.
  intros Hb. pose proof Hb as (Hi & Hs & Hn). revert args.
  destruct f; intros args Hcare; pick_callback; try done.
  - by apply cr_sock_books.
  - eapply (books_delete s _ args); try done. intros i g. destruct (fc_sockets s !! args) eqn:E; [|done].
    apply uses_no_groups. by apply Hcare.
  - rewrite /cb_cr_sock_stream require_bind. case_match; [|done]. rewrite /sock_add_stream socket_bind.
    case_match eqn:E; [|done]. destruct (Hs _ _ E). by eapply (set_sock_books s _ _ _ Hb E); [..|left].
  - rewrite /cb_join require_bind. case_match; [|done]. by apply sock_join_books.
  - rewrite /cb_leave require_bind. case_match; [|done]. by apply sock_leave_books.
  - rewrite /cb_set_ttl socket_bind. case_match eqn:E; [|done]. destruct (Hs _ _ E).
    by eapply (set_sock_books s _ _ _ Hb E); [..|left].
  - rewrite /cb_get_sock_ifs socket_bind. by case_match.
  - rewrite /cb_add_sock_if socket_bind. case_match eqn:E; [|done]. rewrite interface_bind. case_match eqn:Ei; [|done].
    destruct (Hs _ _ E). eapply (set_sock_books s _ _ _ Hb E); [done| |right; by apply Hcare].
    cbn. destruct (Hi _ _ Ei) as [-> _]. apply elem_of_dom_2 in Ei. set_solver.
  - rewrite /cb_rm_sock_if socket_bind. case_match eqn:E; [|done].
    destruct (Hs _ _ E). eapply (set_sock_books s _ _ _ Hb E); [done| |right; by apply Hcare]. cbn. set_solver.
  - rewrite /cb_group_set interface_bind. by case_match.
  - rewrite /cb_neighbor_set interface_bind. by case_match.
  - rewrite /cb_children_set require_bind. case_match; [|done]. rewrite interface_bind. by case_match.
  - rewrite /cb_parent_set require_bind. case_match; [|done]. rewrite interface_bind. by case_match.
  - rewrite /cb_designated_host interface_bind. by case_match.
  - rewrite /cb_set_sock_ifs require_bind. case_match; [|done]. rewrite socket_bind. case_match eqn:E; [|done].
    eapply (set_sock_books s _ _ _ Hb E); [done| |right; by apply Hcare]. cbn. set_solver.
Qed.

Lemma each_iface_rest f ids s : same_rest s (for_each (in_order ids) (on_iface f) s).2.
Proof. by destruct (each_iface f ids s) as (m & -> & _). Qed.

Lemma callback_rest {A R} (f : api_fn A R) (args : A) s : same_rest s (callback (fake_callbacks qs) f args s).2.
Proof.
  assert (same_rest s s) as Hrefl by done. revert args.
  destruct f; intros args; pick_callback; try done.
  - rewrite /cb_cr_sock /add_new_socket {1}/mbind /M_bind {1}/mbind /M_bind /get {1}/mbind /M_bind /put. cbn [mret M_ret].
    rewrite socket_bind. by case_match.
  - rewrite /cb_cr_sock_stream require_bind. case_match; [|done]. rewrite /sock_add_stream socket_bind. by case_match.
  - rewrite /cb_join require_bind. case_match; [|done]. rewrite /sock_join socket_bind. case_match; [|done].
    case_match; [done|]. rewrite /set_sock {1}/mbind /M_bind {1}/modify. exact (each_iface_rest _ _ _).
  - rewrite /cb_leave require_bind. case_match; [|done]. rewrite /sock_leave socket_bind. case_match; [|done].
    case_match; [|done]. rewrite /set_sock {1}/mbind /M_bind {1}/modify. exact (each_iface_rest _ _ _).
  - rewrite /cb_set_ttl socket_bind. by case_match.
  - rewrite /cb_get_sock_ifs socket_bind. by case_match.
  - rewrite /cb_add_sock_if socket_bind. case_match; [|done]. rewrite interface_bind. by case_match.
  - rewrite /cb_rm_sock_if socket_bind. by case_match.
  - rewrite /cb_group_set interface_bind. by case_match.
  - rewrite /cb_neighbor_set interface_bind. by case_match.
  - rewrite /cb_children_set require_bind. case_match; [|done]. rewrite interface_bind. by case_match.
  - rewrite /cb_parent_set require_bind. case_match; [|done]. rewrite interface_bind. by case_match.
  - rewrite /cb_designated_host interface_bind. by case_match.
  - rewrite /cb_set_sock_ifs require_bind. case_match; [|done]. rewrite socket_bind. by case_match.
Qed.

(** ** The channel and its clients *)

Definition imp_size (e : fc_msg) : Z := match e with imp_t mp => mp_size mp | _ => 0 end.

(** What applications and technologies put into the queue. *)
Definition queued_ok (e : fc_msg) : Prop :=
  match e with
  | fc_client (osm_t o) => ∃ A R (f : api_fn A R) (args : A) fmsg,
      fn_id f ≠ fid_disable_events ∧ tc_rep (args_of f) args ∧
      zlen (tc_enc (args_of f) args) <= default_max_write_buffer_size ∧ o = request_osm f args fmsg
  | fc_client (reg_d_ptr_t sid _) | fc_client (reg_recv_cb_t sid _) => 0 <= sid < 2 ^ 32
  | fc_client _ => True
  | imp_t mp => 0 <= mp_size mp < 2 ^ 31
  end.
Definition careful_head (s : fake_client_channel) : Prop :=
  match fc_queue s with
  | fc_client (osm_t o) :: _ => ∀ A R (f : api_fn A R) (args : A) fmsg,
      tc_rep (args_of f) args → o = request_osm f args fmsg → careful f args s
  | _ => True
  end.

(** A thread of the application posts a request or another message (a call of
    [disable_events] posts the request of [enable_events]); a technology hands
    over data; the channel's thread handles one message. *)
Inductive fstep : fake_client_channel → fake_client_channel → Prop :=
  | f_post e s : queued_ok e → imp_size e = 0 → fstep s (fc_set_queue (fc_queue s ++ [e]) s)
  | f_recv data data_len uri_obj uri_string s r s' :
      - 2 ^ 31 <= data_len < 2 ^ 31 → (∀ d, data = Some d → data_len <= zlen d) →
      recv_cb data data_len uri_obj uri_string s = (r, s') → fstep s s'
  | f_poll s r s' : careful_head s → fc_poll_messages qs 1 s = (r, s') → fstep s s'.

Definition stored (s : fake_client_channel) : Prop :=
  0 <= fc_ssem s ∧ fc_ssem s + zsum imp_size (fc_queue s) = max_channel_queue_size.
Definition finv (s : fake_client_channel) : Prop :=
  books s ∧ cache_ok (fc_cache s) ∧ Forall queued_ok (fc_queue s) ∧ stored s.

Lemma books_ext s s' :
  fc_ifs s' = fc_ifs s → fc_sockets s' = fc_sockets s → fc_socket_ids s' = fc_socket_ids s → books s → books s'.
Proof. intros E1 E2 E3. by rewrite /books /users E1 E2 E3. Qed.

Lemma counts_send whom data len ttl iface g n :
  counts iface g n → counts (ni_send whom data len ttl iface) g n.
Proof. rewrite /counts /ni_send /ni_call /=. by rewrite impl_groups_snoc. Qed.

(** A message other than a request or a packet. *)
Lemma each_send_books whom data len ttl ids s :
  books s → books (for_each (in_order ids) (on_iface (ni_send whom data len ttl)) s).2.
Proof.
  intros (Hi & Hs & Hn). destruct (each_iface (ni_send whom data len ttl) ids s) as (m & -> & Hm). cbn [snd].
  split_and!; [| |cbn; lia..].
  - intros i iface. cbn. rewrite Hm. case_bool_decide; [|by apply Hi].
    intros (iface' & Hif & ->)%fmap_Some. destruct (Hi i iface' Hif) as [Hid Hc]. split; [done|].
    intros g. by apply counts_send.
  - assert (dom m = dom (fc_ifs s)) as Hd.
    { apply set_eq. intros i. rewrite !elem_of_dom Hm. case_bool_decide; [|done]. by rewrite fmap_is_Some. }
    intros sid sd Hsd. cbn in Hsd |- *. rewrite Hd. by apply Hs.
Qed.

Lemma register_books sid sd' s :
  books s → 0 <= sid < 2 ^ 32 →
  fs_ifs sd' = from_option fs_ifs ∅ (fc_sockets s !! sid) →
  fs_joined_groups sd' = from_option fs_joined_groups ∅ (fc_sockets s !! sid) → books (set_sock sid sd' s).2.
Proof.
  intros Hb Hr Ei Eg. pose proof Hb as (_ & Hs & Hn).
  eapply (books_same s _ sid sd'); try done.
  - intros i g. rewrite /uses Ei Eg. destruct (fc_sockets s !! sid); [done|]. cbn. by rewrite bool_decide_false.
  - rewrite Ei. destruct (fc_sockets s !! sid) eqn:E; cbn; [by apply (Hs _ _ E)|set_solver].
Qed.

Lemma deliver_loop mp sids s : ∃ l, for_each sids (deliver_to mp) s = (Ok tt, fc_set_log l s).
Proof.
  revert s. induction sids as [|sid sids IH]; intros s; [exists (fc_log s); by destruct s|].
  assert (∃ l, deliver_to mp sid s = (Ok tt, fc_set_log l s)) as (l & E).
  { rewrite /deliver_to {1}/mbind /M_bind /get /fc_effect /modify.
    destruct (fc_sockets s !! sid) as [sd|]; [|exists (fc_log s); by destruct s].
    case_bool_decide; [|exists (fc_log s); by destruct s].
    destruct (fs_obj sd); [by eexists|]. destruct (fs_recv_cb sd); [by eexists|]. exists (fc_log s). by destruct s. }
  cbn [for_each]. step_ok E. destruct (IH (fc_set_log l s)) as (l' & E'). exists l'. rewrite E'. done.
Qed.

Definition handled (s s' : fake_client_channel) (ssem : Z) : Prop :=
  books s' ∧ cache_ok (fc_cache s') ∧ fc_queue s' = fc_queue s ∧ fc_ssem s' = ssem.

Lemma send_mcast_inv o s : books s → cache_ok (fc_cache s) → handled s (send_mcast o s).2 (fc_ssem s).
Proof.
  intros Hb Hc. rewrite /send_mcast {1}/mbind /M_bind /get.
  destruct (fc_sockets s !! omp_sck_id o) as [sd|]; [|done]. destruct (fs_streams sd !! omp_stm_id o) as [u|]; [|done].
  set (f := ni_send _ _ _ _). pose proof (each_send_books u (omp_content o) (i32 (omp_content_size o)) (fs_ttl sd) (fs_ifs sd) s Hb) as Hb'.
  pose proof (each_iface_rest f (fs_ifs sd) s) as (E1 & E2 & E3 & _). rewrite -/f in Hb'.
  rewrite {1}/mbind /M_bind. destruct (for_each _ _ s) as [[[]|e|y] s']; cbn in Hb', E1, E2, E3.
  - destruct (fs_obj sd); cbn; rewrite /handled; cbn; by rewrite E1 E2 E3.
  - rewrite /handled /= E1 E2 E3. done.
  - rewrite /handled /= E1 E2 E3. done.
Qed.

Lemma answer_request_inv {A R} (f : api_fn A R) args fmsg s :
  fn_id f ≠ fid_disable_events → tc_rep (args_of f) args →
  zlen (tc_enc (args_of f) args) <= default_max_write_buffer_size → careful f args s →
  books s → cache_ok (fc_cache s) → handled s (answer_request qs (request_osm f args fmsg) s).2 (fc_ssem s).
Proof.
  intros Hf Ha Hl Hcare Hb Hc. destruct (call_request_state qs f args fmsg s Hf Ha Hl Hc) as (c & Hc' & E).
  pose proof (callback_books f args s Hb Hcare) as Hb'. destruct (callback_rest f args s) as (E1 & E2 & _ & _).
  rewrite /answer_request {1}/mbind /M_bind. destruct (call_request _ _ s) as [[m|e|y] s']; cbn in E; subst s';
    split_and!; done.
Qed.

Lemma deliver_packet_inv mp s :
  books s → cache_ok (fc_cache s) → 0 <= fc_ssem s → 0 <= mp_size mp → fc_ssem s + mp_size mp < 2 ^ 31 →
  handled s (deliver_packet mp s).2 (fc_ssem s + mp_size mp).
Proof.
  intros Hb Hc H0 H1 H2. rewrite /deliver_packet {1}/mbind /M_bind /modify {1}/mbind /M_bind /get.
  set (s1 := fc_set_ssem _ s). destruct (deliver_loop mp (in_order (dom (fc_sockets s1))) s1) as (l & ->). cbn [snd].
  split_and!; [done..|]. cbn. rewrite /semaphore.release_bytes !i32_small; lia.
Qed.

Lemma handle_inv e s :
  books s → cache_ok (fc_cache s) → queued_ok e →
  (∀ A R (f : api_fn A R) (args : A) fmsg, tc_rep (args_of f) args →
     e = fc_client (osm_t (request_osm f args fmsg)) → careful f args s) →
  0 <= fc_ssem s → fc_ssem s + imp_size e < 2 ^ 31 →
  handled s (handle_fc_msg qs e s).2 (fc_ssem s + imp_size e).
Proof.
  intros Hb Hc Hq Hcare H0 H1. destruct e as [[o|o|sid ptr|fn|sid fn]|mp]; cbn [imp_size] in *; rewrite ?Z.add_0_r.
  - by apply send_mcast_inv.
  - destruct Hq as (A & R & f & args & fmsg & Hf & Ha & Hl & ->). apply answer_request_inv; try done. by eapply Hcare.
  - split_and!; try done. apply (register_books sid); [done..| |]; cbn; by destruct (fc_sockets s !! sid).
  - done.
  - split_and!; try done. apply (register_books sid); [done..| |]; cbn; by destruct (fc_sockets s !! sid).
  - apply deliver_packet_inv; try done. cbn in Hq. lia.
Qed.

Lemma careful_queue {A R} (f : api_fn A R) args q s : careful f args s → careful f args (fc_set_queue q s).
Proof. revert args. by destruct f. Qed.

Lemma zsum_imp_nonneg q : Forall queued_ok q → 0 <= zsum imp_size q.
Proof.
  intros Hq. apply zsum_nonneg. eapply Forall_impl; [exact Hq|]. intros [|mp]; cbn; lia.
Qed.

Lemma finv_poll s r s' : finv s → careful_head s → fc_poll_messages qs 1 s = (r, s') → finv s'.
Proof.
  intros Hs Hcare. pose proof Hs as (Hb & Hc & Hq & H0 & Hsum). cbn [fc_poll_messages]. rewrite {1}/mbind /M_bind /get.
  rewrite /careful_head in Hcare. destruct (fc_queue s) as [|e q] eqn:Eq; [by intros [= <- <-]|].
  apply Forall_cons in Hq as [He Hq]. cbn in Hsum. pose proof (zsum_imp_nonneg q Hq).
  rewrite {1}/mbind /M_bind /put {1}/mbind /M_bind. set (s1 := fc_set_queue q s).
  assert (0 <= imp_size e) by (destruct e; cbn in *; lia).
  destruct (handle_inv e s1) as (Hb' & Hc' & Eq' & Es'); try done.
  { intros A R f args fmsg Ha ->. apply careful_queue. exact (Hcare A R f args fmsg Ha eq_refl). }
  { cbn. rewrite /max_channel_queue_size in Hsum. lia. }
  assert (finv (handle_fc_msg qs e s1).2) as Hfin.
  { split; [done|]. split; [done|]. split; [by rewrite Eq'|]. rewrite /stored Es' Eq'. cbn. lia. }
  destruct (handle_fc_msg qs e s1) as [[[]|?|?] s2]; by intros [= <- <-].
Qed.

Lemma finv_recv data data_len uri_obj uri_string s r s' :
  - 2 ^ 31 <= data_len < 2 ^ 31 → (∀ d, data = Some d → data_len <= zlen d) →
  finv s → recv_cb data data_len uri_obj uri_string s = (r, s') → finv s'.
Proof.
  intros Hl Hd Hs. pose proof Hs as (Hb & Hc & Hq & H0 & Hsum). rewrite /recv_cb require_bind.
  destruct (_ && _) eqn:E; [|by intros [= <- <-]]. apply andb_prop in E as [E El]. apply andb_prop in E as [_ Ed].
  apply bool_decide_eq_true in Ed as [d ->]. specialize (Hd d eq_refl). rewrite {1}/mbind /M_bind /get.
  rewrite /semaphore.try_acquire. pose proof (zsum_imp_nonneg (fc_queue s) Hq).
  rewrite /max_channel_queue_size in Hsum. rewrite !i32_small; [lia..|].
  destruct (Z.ltb_spec (fc_ssem s - data_len) 0); [by intros [= <- <-]|].
  rewrite {1}/mbind /M_bind /put /=. destruct (Z.ltb_spec (zlen d) data_len); [lia|]. intros [= <- <-].
  rewrite /u32 uwrap_small; [rewrite /fits; lia|].
  split; [done|]. split; [done|]. split; [|split; [cbn; lia|]].
  - cbn. apply Forall_app. split; [done|]. repeat constructor; cbn; lia.
  - cbn [fc_queue fc_set_queue fc_set_ssem fc_ssem]. rewrite zsum_app. cbn. rewrite /max_channel_queue_size. lia.
Qed.

Lemma finv_step s s' : finv s → fstep s s' → finv s'.
Proof.
  intros Hs. destruct 1 as [e s He Hz|data data_len obj string s r s' Hl Hd E|s r s' Hcare E].
  - destruct Hs as (Hb & Hc & Hq & H0 & Hsum). split; [done|]. split; [done|]. split; [|split; [done|]].
    + cbn. apply Forall_app. by repeat constructor.
    + cbn [fc_queue fc_set_queue fc_ssem]. rewrite zsum_app. cbn. lia.
  - by eapply finv_recv.
  - by eapply finv_poll.
Qed.
End invariant.

Lemma new_interfaces scribe_up l k i iface :
  foldr (add_interface scribe_up) ∅ (imap (λ n t, ((k + n)%nat, t)) l) !! i = Some iface →
  ∃ t, iface = new_interface i t.
Proof.
  revert k iface. induction l as [|t l IH]; intros k iface; [done|]. cbn [imap foldr].
  assert (∀ m, (∀ iface, m !! i = Some iface → ∃ t, iface = new_interface i t) →
    add_interface scribe_up ((k + 0)%nat, t) m !! i = Some iface → ∃ t, iface = new_interface i t) as Hadd.
  { intros m Hm. rewrite /add_interface.
    destruct t, scribe_up; cbn; try (intros [[<- <-]|[_ ?]]%lookup_insert_Some; [by eexists|by apply Hm]); apply Hm. }
  apply Hadd. intros iface' H. apply (IH (S k)). rewrite -H. f_equal. f_equal. apply imap_ext.
  intros n x _. cbn. f_equal. lia.
Qed.

Lemma finv_init scribe_up files : finv (new_fake_client_channel scribe_up files).
Proof.
  split; [|split; [split; [done|vm_compute; lia]|split; [constructor|done]]].
  split; [|split; [done|done]]. intros i iface Hif. cbn in Hif.
  destruct (new_interfaces scribe_up _ 0 i iface Hif) as [t ->]. split; [done|]. intros g.
  change (users _ i g) with 0. split; [done|]. split; [done|]. split; [intros H; by apply not_elem_of_empty in H|lia].
Qed.

Lemma finv_reachable qs scribe_up files s : rtc (fstep qs) (new_fake_client_channel scribe_up files) s → finv s.
Proof.
  intros Hs. assert (finv (new_fake_client_channel scribe_up files)) as Hi by apply finv_init.
  induction Hs as [|s1 s2 s3 H12 _ IH]; [done|]. by eapply IH, finv_step.
Qed.

Lemma map_count_pos {A} (P : A → bool) (m : gmap Z A) : 0 < map_count P m ↔ ∃ k x, m !! k = Some x ∧ P x = true.
Proof.
  split.
  - induction m as [|k x m Hk IH] using map_ind; [done|]. rewrite map_count_insert //. destruct (P x) eqn:E.
    + intros _. exists k, x. by rewrite lookup_insert_eq.
    + intros H. destruct IH as (k' & x' & Hx & HP); [lia|]. exists k', x'. rewrite lookup_insert_ne //. congruence.
  - intros (k & x & Hx & HP). rewrite (map_count_delete P m k) Hx /= HP. pose proof (map_count_bounds P (delete k m)). lia.
Qed.

(** C12: The channel keeps the memberships of its interfaces exactly. In every
    interleaving of the application's threads, the technologies' threads and
    the channel's thread, as long as clients change the interfaces of a socket
    or delete it only when it has left its groups: the technology of an
    interface is a member of exactly the groups that some socket that uses the
    interface has joined, and the free storage together with the packets in
    the queue makes exactly the limit of the queue. *)
Theorem fake_memberships_exact (qs : tech → impl_queries) (scribe_up : bool) (files : gmap bytes bytes)
    (s : fake_client_channel) :
  rtc (fstep qs) (new_fake_client_channel scribe_up files) s →
  (∀ i iface g, fc_ifs s !! i = Some iface →
     g ∈ impl_groups (ni_calls iface) ↔
     ∃ sid sd, fc_sockets s !! sid = Some sd ∧ i ∈ fs_ifs sd ∧ g ∈ fs_joined_groups sd) ∧
  0 <= fc_ssem s ∧ fc_ssem s + zsum imp_size (fc_queue s) = max_channel_queue_size.
Proof.
  intros ((Hi & _) & _ & _ & Hst)%finv_reachable. split; [|done]. intros i iface g Hif.
  destruct (Hi i iface Hif) as [_ Hc]. destruct (Hc g) as (_ & _ & ->). rewrite /users map_count_pos.
  split; intros (sid & sd & Hsd & Hu); exists sid, sd.
  - apply andb_prop in Hu as [?%bool_decide_eq_true ?%bool_decide_eq_true]. done.
  - split; [done|]. rewrite /uses !bool_decide_true //; naive_solver.
Qed.

Definition no_answers (t : tech) : impl_queries :=
  {| iq_neighbor_set := []; iq_group_set := []; iq_children_set _ := []; iq_parent_set _ := [];
     iq_designated_host _ := false; iq_name := str "eth0"; iq_address := str "10.0.0.1" |}.

(** A call: posted, then handled. *)
Definition posted {A R} (f : api_fn A R) (args : A) (s : fake_client_channel) : fake_client_channel :=
  fc_set_queue (fc_queue s ++ [fc_client (osm_t (request_osm f args 0))]) s.
Definition called {A R} (f : api_fn A R) (args : A) (s : fake_client_channel) : fake_client_channel :=
  (fc_poll_messages no_answers 1 (posted f args s)).2.

Lemma call_steps {A R} (f : api_fn A R) (args : A) s :
  fn_id f ≠ fid_disable_events → tc_rep (args_of f) args →
  zlen (tc_enc (args_of f) args) <= default_max_write_buffer_size →
  fc_queue s = [] →
  (∀ A' R' (f' : api_fn A' R') args' fmsg, request_osm f args 0 = request_osm f' args' fmsg → careful f' args' s) →
  rtc (fstep no_answers) s (called f args s).
Proof.
  intros Hf Ha Hl Hq Hcare. eapply rtc_l; [|eapply rtc_l; [|apply rtc_refl]].
  - apply (f_post _ (fc_client (osm_t (request_osm f args 0)))); [|done]. by exists A, R, f, args, 0.
  - destruct (fc_poll_messages no_answers 1 (posted f args s)) as [r s'] eqn:E.
    rewrite /called E. eapply f_poll; [|exact E]. rewrite /careful_head /posted. cbn [fc_queue fc_set_queue]. rewrite Hq.
    intros A' R' f' args' fmsg _ Eo. by eapply careful_queue, Hcare.
Qed.

(** Calls of the other functions need no care. *)
Lemma careful_by_id {A R} (f : api_fn A R) (args : A) s :
  fn_id f ∈ [fid_create_send_stream; fid_join; fid_leave; fid_set_ttl] →
  ∀ A' R' (f' : api_fn A' R') args' fmsg, request_osm f args 0 = request_osm f' args' fmsg → careful f' args' s.
Proof.
  intros Hf A' R' f' args' fmsg E%(f_equal osm_fid). cbn in E. revert args' E.
  destruct f'; intros args' E; try exact I; exfalso; destruct f; cbn in E; try discriminate; set_solver.
Qed.

Lemma careful_no_groups s :
  map_Forall (λ _ sd, fs_joined_groups sd = ∅) (fc_sockets s) →
  ∀ A R (f : api_fn A R) args, careful f args s.
Proof. intros Hs A R f args. revert args. destruct f; intros args; try exact I; intros sd; apply Hs. Qed.

Definition sample_group : uri := uri_of (str "ham:ip:239.0.0.1").
Definition sample_start : fake_client_channel := new_fake_client_channel true ∅.
Definition sample_created : fake_client_channel := called create_socket tt sample_start.
Definition sample_joined : fake_client_channel := called api_join (0, sample_group) sample_created.

Lemma sample_args_rep sid : 0 <= sid < 2 ^ 32 → tc_rep (args_of api_join) (sid, sample_group).
Proof.
  intros Hsid. split; [exact Hsid|]. split; [by vm_compute|].
  apply (bool_decide_unpack _). by vm_compute.
Qed.

Lemma fake_memberships_exact_witness :
  ∃ iface, fc_ifs sample_joined !! 0 = Some iface ∧ uri_str sample_group ∈ impl_groups (ni_calls iface).
Proof.
  assert (rtc (fstep no_answers) sample_start sample_created) as H1.
  { apply call_steps; [done|exact I|vm_compute; discriminate|done|].
    intros. by apply careful_no_groups. }
  assert (rtc (fstep no_answers) sample_created sample_joined) as H2.
  { apply call_steps; [done|apply sample_args_rep; lia|vm_compute; discriminate|by vm_compute|].
    apply careful_by_id. cbn. set_solver. }
  assert (∃ iface, fc_ifs sample_joined !! 0 = Some iface) as [iface Hif] by (eexists; vm_compute; reflexivity).
  exists iface. split; [exact Hif|].
  destruct (fake_memberships_exact no_answers true ∅ sample_joined (transitivity H1 H2)) as [H _].
  apply (H 0 iface _ Hif).
  eexists 0, _. split; [vm_compute; reflexivity|]. split; apply (bool_decide_unpack _); vm_compute; exact I.
Defined.

(** The channel answers like a middleware.  Let the callback of a function
    (not [disable_events]), run on the arguments in the channel's state, end in
    [o].  Then handling the request of the function's functor leaves exactly
    the state the callback left (and the thread's cache), sets the future of the
    caller to one response, and the functor makes [o] of it. *)
Theorem fake_channel_answers {A R : Type} (qs : tech → impl_queries) (f : api_fn A R) (args : A) (fmsg : Z)
    (o : outcome R) (s s' : fake_client_channel) (client_cache : gmap bytes uri) :
  fn_id f ≠ fid_disable_events → tc_rep (args_of f) args →
  zlen (tc_enc (args_of f) args) <= default_max_write_buffer_size →
  cache_ok (fc_cache s) → cache_ok client_cache →
  callback (fake_callbacks qs) f args s = (o, s') →
  portable (tc_enc (result_of f)) (tc_rep (result_of f)) o →
  message_size (response (tc_enc (result_of f)) 0 o) <= default_max_write_buffer_size →
  ∃ resp c cc,
    handle_fc_msg qs (fc_client (osm_t (request_osm f args fmsg))) s =
      (Ok tt, fc_set_log (fc_log s' ++ [fx_response (request_osm f args fmsg) resp]) (fc_set_cache c s')) ∧
    invoke_result (tc_codec (result_of f)) resp client_cache = (o, cc).
Proof.
  intros Hf Ha Hl Hc Hcc Hcb Hp Hsz.
  destruct (call_request_ok qs f args fmsg o s s' Hf Ha Hl Hc Hcb Hp Hsz) as (c & _ & E).
  destruct (invoke_result_ok (tc_codec (result_of f)) _ _ 0 o client_cache Hp Hcc) as (cc & Hinv).
  exists (response (tc_enc (result_of f)) 0 o), c, cc. split; [|done].
  cbn [handle_fc_msg]. rewrite /answer_request. by step_ok E.
Qed.

Lemma fake_channel_answers_witness :
  ∃ resp s' cc,
    handle_fc_msg no_answers (fc_client (osm_t (request_osm api_join (7, sample_group) 3))) sample_start = (Ok tt, s') ∧
    invoke_result c_unit resp ∅ = (Throw (requirement_failed "i != m_sockets.end()"), cc).
Proof.
  destruct (fake_channel_answers no_answers api_join (7, sample_group) 3
    (Throw (requirement_failed "i != m_sockets.end()")) sample_start sample_start ∅) as (resp & c & cc & H1 & H2).
  - discriminate.
  - apply sample_args_rep. lia.
  - vm_compute. discriminate.
  - split; [done|vm_compute; lia].
  - split; [done|vm_compute; lia].
  - vm_compute. reflexivity.
  - split; [|vm_compute; discriminate]. split; [|vm_compute; reflexivity].
    apply (bool_decide_unpack _). vm_compute. exact I.
  - vm_compute. discriminate.
  - exists resp. eexists. exists cc. split; [exact H1|exact H2].
Defined.

(** ** What a careless client causes *)

(** Changing the interfaces of a socket takes memberships away from others.
    Let socket [a] be the only one that joined group [g] through interface
    [i], and socket [b] have joined [g] but not use [i].  Then adding [i] to
    [b] does not join, but leaving [g] on [b] makes the interface leave the
    group, although [a] still has joined it there. *)
Theorem added_interface_loses_group (s : fake_client_channel) (a b i : Z) (sda sdb : fake_socket_data)
    (iface : network_interface) (group : uri) :
  books s → a ≠ b → fc_sockets s !! a = Some sda → fc_sockets s !! b = Some sdb → fc_ifs s !! i = Some iface →
  users s i (uri_str group) = 1 → i ∈ fs_ifs sda → uri_str group ∈ fs_joined_groups sda →
  i ∉ fs_ifs sdb → uri_str group ∈ fs_joined_groups sdb → uri_empty group = false →
  ∃ s' iface', (cb_add_sock_if b i ;; cb_leave b group) s = (Ok tt, s') ∧
    fc_sockets s' !! a = Some sda ∧ fc_ifs s' !! i = Some iface' ∧
    uri_str group ∉ impl_groups (ni_calls iface').
Proof.
  intros (Hi & _) Hab Ha Hb Hif Hu _ _ _ Hgb He. destruct (Hi i iface Hif) as [Hid Hc].
  specialize (Hc (uri_str group)). rewrite Hu in Hc. destruct Hc as (Hn & Hg & Hm).
  rewrite /cb_add_sock_if {1}/mbind /M_bind socket_bind Hb interface_bind Hif.
  rewrite /set_sock /modify. set (s1 := fc_set_sockets _ _ s). rewrite /cb_leave require_bind He /sock_leave socket_bind.
  cbn [negb]. cbn [fc_sockets fc_set_sockets s1]. rewrite lookup_insert_eq. cbn [fs_joined_groups fs_set_ifs].
  rewrite bool_decide_true // /set_sock {1}/mbind /M_bind {1}/modify. set (s2 := fc_set_sockets _ _ s1).
  destruct (each_iface (ni_leave (uri_str group)) ({[ni_id iface]} ∪ fs_ifs sdb) s2) as (m & E & Hm2).
  exists (fc_set_ifs m s2), (ni_leave (uri_str group) iface). split; [exact E|]. split_and!.
  - cbn. rewrite insert_insert_eq lookup_insert_ne //.
  - cbn. rewrite Hm2 bool_decide_true; [set_solver|]. cbn. by rewrite Hif.
  - destruct (counts_leave iface (uri_str group) 1) as [(_ & _ & ->) _]; [done|lia|lia].
Qed.

(** Two interfaces and two sockets; the second socket uses only the first
    interface. *)
Definition two_files : gmap bytes bytes :=
  {[str "hamcast.ini" := str "[void]" ++ [newline] ++ str "[ip]" ++ [newline]]}.
Definition two_start : fake_client_channel := new_fake_client_channel true two_files.
Definition two_created : fake_client_channel := called create_socket tt (called create_socket tt two_start).
Definition two_set : fake_client_channel := called set_sock_interfaces (1, [0]) two_created.
Definition two_joined : fake_client_channel :=
  called api_join (1, sample_group) (called api_join (0, sample_group) two_set).

Ltac no_groups_yet := intros; apply careful_no_groups; apply (bool_decide_unpack _); vm_compute; exact I.

Lemma two_joined_books : books two_joined.
Proof.
  apply (finv_reachable no_answers true two_files).
  assert (∀ s s1 s2 : fake_client_channel, rtc (fstep no_answers) s s1 → rtc (fstep no_answers) s1 s2 →
    rtc (fstep no_answers) s s2) as T by (intros s s1 s2; apply transitivity).
  apply (T _ (called create_socket tt two_start));
    [apply call_steps; [done|exact I|vm_compute; discriminate|by vm_compute|no_groups_yet]|].
  apply (T _ two_created);
    [apply call_steps; [done|exact I|vm_compute; discriminate|by vm_compute|no_groups_yet]|].
  apply (T _ two_set).
  { apply call_steps; [done| |vm_compute; discriminate|by vm_compute|no_groups_yet].
    split; [vm_compute; split; [discriminate|reflexivity]|]. split; [|vm_compute; reflexivity].
    repeat constructor; vm_compute; try discriminate; reflexivity. }
  apply (T _ (called api_join (0, sample_group) two_set)); apply call_steps;
    [discriminate|apply sample_args_rep; lia|vm_compute; discriminate|vm_compute; reflexivity
    |apply careful_by_id; right; left
    |discriminate|apply sample_args_rep; lia|vm_compute; discriminate|vm_compute; reflexivity
    |apply careful_by_id; right; left].
Qed.

Lemma added_interface_loses_group_witness :
  ∃ s' iface', (cb_add_sock_if 1 1 ;; cb_leave 1 sample_group) two_joined = (Ok tt, s') ∧
    fc_ifs s' !! 1 = Some iface' ∧ uri_str sample_group ∉ impl_groups (ni_calls iface').
Proof.
  assert (∃ sda sdb iface, fc_sockets two_joined !! 0 = Some sda ∧ fc_sockets two_joined !! 1 = Some sdb ∧
    fc_ifs two_joined !! 1 = Some iface ∧ 1 ∈ fs_ifs sda ∧ uri_str sample_group ∈ fs_joined_groups sda ∧
    1 ∉ fs_ifs sdb ∧ uri_str sample_group ∈ fs_joined_groups sdb) as (sda & sdb & iface & H1 & H2 & H3 & H4 & H5 & H6 & H7).
  { eexists _, _, _. split; [vm_compute; reflexivity|]. split; [vm_compute; reflexivity|].
    split; [vm_compute; reflexivity|]. split_and!; apply (bool_decide_unpack _); vm_compute; exact I. }
  destruct (added_interface_loses_group two_joined 0 1 1 sda sdb iface sample_group) as (s' & iface' & E & _ & Hif & Hg);
    [exact two_joined_books|discriminate|exact H1|exact H2|exact H3|vm_compute; reflexivity|exact H4|exact H5|exact H6|exact H7
    |vm_compute; reflexivity|].
  exists s', iface'. split; [exact E|]. split; [exact Hif|exact Hg].
Defined.
