(* ===== verification/Startup.v ===== *)
(** * Starting the middleware

    [middleware/main.cpp]: the handshake with a client (with its other side,
    the constructor of [client_channel]), the loop that accepts clients, the
    use of the configuration file, and the directory and files at the meeting
    point that are created at the start and removed at the end. *)

From stdpp Require Import sorting.
From S2P Require Import Prelude Config Uri Streams WriteBuffer ReadBuffer Serialization TechModule.
From S2P Require Import ConfigMap MiddlewareConfig Logging MeetingPoint ClientChannel.

(** ** The handshake *)

Definition in_range (x min_value max_value : Z) : bool := (min_value <=? x) && (x <=? max_value).

(** The scope of a [serializer]: its destructor flushes the sink, also when an
    exception passes; a second exception then ends the program. *)
Definition serializer_scope {S A : Type} `{Sink S} (m : M S A) : M S A := λ s,
  match m s with
  | (Ok a, s') => (sink_flush ;; mret a) s'
  | (Throw e, s') =>
      match sink_flush s' with
      | (Ok _, s'') => (Throw e, s'')
      | (Throw _, s'') => (Throw (terminated "exception during unwinding"), s'')
      | (UB w, s'') => (UB w, s'')
      end
  | (UB w, s') => (UB w, s')
  end.

Section handshake.
Context {R S : Type} `{Source R} `{Sink S}.

Definition verify_client : M (dstate R) bool :=
  value ← c_des c_u32;
  if negb (value =? magic_number) then mret false else
  value ← c_des c_u32;
  if negb (in_range value min_compatile_major_version major_version) then mret false else
  value ← c_des c_u32;
  if negb (in_range value min_compatile_minor_version minor_version) then mret false else
  mret true.

(** The two ends of a connection: what is read from and written to the
    peer. *)
Record conn := { io_in : dstate R; io_out : S }.
Definition c_in {A} (m : M (dstate R) A) : M conn A :=
  zoom io_in (λ i c, {| io_in := i; io_out := io_out c |}) m.
Definition c_out {A} (m : M S A) : M conn A :=
  zoom io_out (λ o c, {| io_in := io_in c; io_out := o |}) m.

Definition client_compatible (max_msg_size : Z) : M conn bool :=
  ok ← c_in verify_client;
  let result := if ok : bool then 1 else 0 in
  c_out (serializer_scope (c_ser c_u8 result ;; c_ser c_u32 max_msg_size)) ;;
  mret (result =? 1).

(** The client's side: [new_client_socket_io] from the point where it is
    connected, and the constructor of [client_channel], which reads the
    maximal message size.  The version is a parameter, so that other releases
    can be considered. *)
Definition new_client_socket_io (magic major minor : Z) : M conn unit :=
  c_out (serializer_scope (c_ser c_u32 magic ;; c_ser c_u32 major ;; c_ser c_u32 minor)) ;;
  answer ← c_in (c_des c_u8);
  if negb (answer =? 1) then throw (connection_to_middleware_failed "incompatible_middleware_found") else mret tt.

Definition client_channel_ctor (magic major minor : Z) : M conn Z :=
  new_client_socket_io magic major minor ;;
  c_in (c_des c_u32).

(** The body of the loop in [wait4clients_loop] for one connection: the
    accepted ones become sessions. *)
Definition accept_client (max_msg_size : Z) (c : conn) : M (list conn) unit := λ sessions,
  match client_compatible max_msg_size c with
  | (Ok true, c') => (Ok tt, sessions ++ [c'])
  | (Ok false, _) => (Ok tt, sessions)
  | (Throw e, _) => (Throw e, sessions)
  | (UB w, _) => (UB w, sessions)
  end.

(** The loop, over the connections [accept] delivers one after the other;
    [None] is a failing [accept]. *)
Definition wait4clients_loop (max_msg_size : Z) (conns : list (option conn)) : M (list conn) unit :=
  for_each conns (λ c,
    match c with
    | Some c => accept_client max_msg_size c
    | None => throw (requirement_failed "(csock = accept(ssock, &cl_addr, &cl_len)) > 0")
    end).
End handshake.
Arguments conn : clear implicits.

(** *** Who is accepted *)

Definition compatible (magic major minor : Z) : bool :=
  (magic =? magic_number) && in_range major min_compatile_major_version major_version &&
  in_range minor min_compatile_minor_version minor_version.

Definition hello (magic major minor : Z) : bytes := le_bytes 4 magic ++ le_bytes 4 major ++ le_bytes 4 minor.

(** What the middleware answers. *)
Definition reply (accepted : bool) (max_msg_size : Z) : bytes :=
  le_bytes 1 (if accepted then 1 else 0) ++ le_bytes 4 max_msg_size.

Section reading_greetings.
Context {R : Type} `{ReadSpec R}.

Lemma read_u32 v rest (s : dstate R) :
  fits 32 v → d_ok s → source_rest (d_src s) = le_bytes 4 v ++ rest → 4 <= source_limit →
  ∃ s', c_des c_u32 s = (Ok v, s') ∧ d_ok s' ∧ source_rest (d_src s') = rest.
Proof.
  intros Hv Hok Hr Hl. apply (des_spec (CodecSpec := c_int_spec 4) R v Hv rest s Hok Hr).
  by rewrite zlen_le_bytes.
Qed.

(** A complete greeting is decided by its version.  The middleware reads on
    only as long as the greeting is acceptable. *)
Lemma verify_client_spec magic major minor rest s :
  fits 32 magic → fits 32 major → fits 32 minor →
  d_ok s → source_rest (d_src s) = hello magic major minor ++ rest → 4 <= source_limit →
  ∃ s', verify_client s = (Ok (compatible magic major minor), s') ∧ d_ok s' ∧
    (compatible magic major minor = true → source_rest (d_src s') = rest).
Proof.
  intros F1 F2 F3 Hok Hr Hl. rewrite /hello -!app_assoc in Hr. rewrite /verify_client /compatible.
  destruct (read_u32 _ _ s F1 Hok Hr Hl) as (s1 & E1 & Hok1 & Hr1). step_ok E1.
  destruct (magic =? magic_number); [|by exists s1]. cbn [negb andb].
  destruct (read_u32 _ _ s1 F2 Hok1 Hr1 Hl) as (s2 & E2 & Hok2 & Hr2). step_ok E2.
  destruct (in_range major _ _); [|by exists s2]. cbn [negb andb].
  destruct (read_u32 _ _ s2 F3 Hok2 Hr2 Hl) as (s3 & E3 & Hok3 & Hr3). step_ok E3.
  destruct (in_range minor _ _); by exists s3.
Qed.

End reading_greetings.

(** On a sink that accepts everything, the scope of a serializer writes what
    it serializes. *)
Lemma serializer_scope_total {S} `{TotalSink S} (m : M S unit) e s :
  emits m e → sink_ok s →
  ∃ s', serializer_scope m s = (Ok tt, s') ∧ sink_ok s' ∧ sink_accepted s' = sink_accepted s ++ e.
Proof.
  intros Hm Hs. destruct (emits_total m e s Hm Hs) as (s1 & E1 & Hs1 & Ha1).
  destruct (flush_total s1 Hs1) as (s2 & E2 & Hs2 & Ha2). exists s2.
  rewrite /serializer_scope E1. step_ok E2. split_and!; [done..|]. by rewrite Ha2 Ha1.
Qed.

Lemma emits_int {S : Type} `{Sink S} n v : emits (S := S) (c_ser (c_int n) v) (le_bytes n v).
Proof. apply emits_write. Qed.

Section handshake_proofs.
Context {R S : Type} `{ReadSpec R} `{TotalSink S}.

Lemma client_compatible_spec magic major minor max_msg_size rest (c : conn R S) :
  fits 32 magic → fits 32 major → fits 32 minor →
  d_ok (io_in c) → sink_ok (io_out c) → 4 <= source_limit →
  source_rest (d_src (io_in c)) = hello magic major minor ++ rest →
  ∃ c', client_compatible max_msg_size c = (Ok (compatible magic major minor), c') ∧
    sink_ok (io_out c') ∧
    sink_accepted (io_out c') =
      sink_accepted (io_out c) ++ reply (compatible magic major minor) max_msg_size ∧
    (compatible magic major minor = true → source_rest (d_src (io_in c')) = rest).
Proof.
  intros F1 F2 F3 Hi Ho Hl Hr. rewrite /client_compatible.
  destruct (verify_client_spec _ _ _ _ _ F1 F2 F3 Hi Hr Hl) as (i & E & Hi' & Hr').
  set (b := compatible magic major minor) in *.
  destruct (serializer_scope_total (c_ser c_u8 (if b then 1 else 0) ;; c_ser c_u32 max_msg_size)
    (reply b max_msg_size) (io_out c)) as (o & E' & Ho' & Ha'); [|done|].
  { apply emits_seq; apply emits_int. }
  exists {| io_in := i; io_out := o |}. split_and!; [|done..].
  rewrite /mbind /M_bind /c_in /c_out /zoom E. cbn [io_in io_out].
  rewrite /mbind /M_bind in E'. rewrite E'. by destruct b.
Qed.

Lemma client_channel_ctor_spec magic major minor accepted max_msg_size rest (c : conn R S) :
  d_ok (io_in c) → sink_ok (io_out c) → 4 <= source_limit → fits 32 max_msg_size →
  source_rest (d_src (io_in c)) = reply accepted max_msg_size ++ rest →
  ∃ c', client_channel_ctor magic major minor c =
      (if accepted then Ok max_msg_size else Throw (connection_to_middleware_failed "incompatible_middleware_found"), c') ∧
    sink_accepted (io_out c') = sink_accepted (io_out c) ++ hello magic major minor ∧
    (accepted = true → source_rest (d_src (io_in c')) = rest).
Proof.
  intros Hi Ho Hl F Hr. rewrite /client_channel_ctor /new_client_socket_io.
  destruct (serializer_scope_total (c_ser c_u32 magic ;; c_ser c_u32 major ;; c_ser c_u32 minor)
    (hello magic major minor) (io_out c)) as (o & E & Ho' & Ha'); [|done|].
  { repeat apply emits_seq; apply emits_int. }
  rewrite /reply -app_assoc in Hr.
  destruct (des_spec (CodecSpec := c_int_spec 1) R (if accepted then 1 else 0)
    ltac:(destruct accepted; lia) _ (io_in c) Hi Hr) as (i1 & E1 & Hi1 & Hr1).
  { rewrite zlen_le_bytes. lia. }
  destruct (read_u32 _ _ i1 F Hi1 Hr1 Hl) as (i2 & E2 & Hi2 & Hr2).
  exists {| io_in := if accepted then i2 else i1; io_out := o |}.
  split_and!; [|done|by intros ->].
  rewrite /mbind /M_bind in E. rewrite /mbind /M_bind /c_in /c_out /zoom E. cbn [io_in io_out].
  rewrite E1. destruct accepted; [|done]. cbn [negb Z.eqb Pos.eqb mret M_ret io_in io_out]. by rewrite E2.
Qed.
End handshake_proofs.

(** C19: The two sides of the handshake agree.  Whatever version a client
    announces, the middleware accepts it exactly when the version is in the
    compatible range, and the client learns the answer: if it was accepted,
    the constructor of its channel returns with the maximal message size of
    the middleware, and both sides have consumed the handshake and nothing
    else; otherwise the constructor throws. *)
Theorem handshake_agreement {R S R' S'} `{ReadSpec R, TotalSink S, ReadSpec R', TotalSink S'}
    magic major minor max_msg_size rest (server : conn R S) :
  fits 32 magic → fits 32 major → fits 32 minor → fits 32 max_msg_size →
  d_ok (io_in server) → sink_ok (io_out server) → 4 <= source_limit (R := R) → 4 <= source_limit (R := R') →
  source_rest (d_src (io_in server)) = hello magic major minor ++ rest →
  ∃ accepted server' answer,
    client_compatible max_msg_size server = (Ok accepted, server') ∧
    sink_accepted (io_out server') = sink_accepted (io_out server) ++ answer ∧
    (accepted = true ↔ magic = magic_number ∧
       min_compatile_major_version <= major <= major_version ∧
       min_compatile_minor_version <= minor <= minor_version) ∧
    (accepted = true → source_rest (d_src (io_in server')) = rest) ∧
    ∀ (client : conn R' S') rest',
      d_ok (io_in client) → sink_ok (io_out client) →
      source_rest (d_src (io_in client)) = answer ++ rest' →
      ∃ client', client_channel_ctor magic major minor client =
          (if accepted then Ok max_msg_size
           else Throw (connection_to_middleware_failed "incompatible_middleware_found"), client') ∧
        sink_accepted (io_out client') = sink_accepted (io_out client) ++ hello magic major minor ∧
        (accepted = true → source_rest (d_src (io_in client')) = rest').
Proof.
  intros F1 F2 F3 F4 Hi Ho Hl Hl' Hr.
  destruct (client_compatible_spec _ _ _ max_msg_size _ _ F1 F2 F3 Hi Ho Hl Hr) as (server' & E & _ & Ha & Hr').
  exists (compatible magic major minor), server', (reply (compatible magic major minor) max_msg_size).
  split_and!; [done..| |done|].
  - rewrite /compatible /in_range !andb_true_iff !Z.leb_le Z.eqb_eq. lia.
  - intros client rest' Hi' Ho' Hr''. by apply client_channel_ctor_spec.
Qed.


(** *** Clients that do not complete the handshake *)

(** A socket whose peer closes the connection before [n] bytes were sent. *)
Lemma chunk_read_short fuel n (cs : list bytes) :
  chunks_ok cs → zlen (concat cs) < n <= Z.of_nat fuel →
  chunk_read (S fuel) n cs = (Throw (ios_failure "lost connection!"), []).
Proof.
  revert n cs. induction fuel as [|fuel IH]; intros n cs Hok Hn.
  { pose proof (zlen_nonneg (concat cs)). lia. }
  pose proof (zlen_nonneg (concat cs)).
  change (chunk_read (S (S fuel)) n cs) with
    ((if n <=? 0 then mret [] else
      bs ← chunk_read_some n; rest ← chunk_read (S fuel) (n - zlen bs); mret (bs ++ rest)) cs).
  destruct (Z.leb_spec n 0); [lia|]. destruct cs as [|c cs].
  { rewrite /mbind /M_bind /chunk_read_some. destruct (Z.eqb_spec n 0); [lia|done]. }
  inversion Hok as [|? ? Hc Hok']; subst. rewrite concat_cons zlen_app in Hn.
  pose proof (zlen_nonneg (concat cs)). pose proof (zlen_nonneg c).
  assert (0 < zlen c). { destruct c; [done|]. rewrite zlen_cons. pose proof (zlen_nonneg c). lia. }
  rewrite /mbind /M_bind /chunk_read_some. destruct (Z.eqb_spec n 0); [lia|].
  destruct (Z.leb_spec (zlen c) n); [|lia]. rewrite IH; [done|lia|done].
Qed.

Lemma source_read_short n (cs : list bytes) :
  chunks_ok cs → zlen (concat cs) < n →
  source_read n cs = (Throw (ios_failure "lost connection!"), []).
Proof.
  intros Hok Hn. pose proof (zlen_nonneg (concat cs)). apply chunk_read_short; [done|]. lia.
Qed.

(** A client that closes its connection before it sent its greeting ends the
    loop: the exception of the socket is not handled there. *)
Lemma lost_client_ends_loop max_msg_size before (c : conn (list bytes) log_sink) after sessions sessions' :
  wait4clients_loop max_msg_size before sessions = (Ok tt, sessions') →
  chunks_ok (d_src (io_in c)) → zlen (concat (d_src (io_in c))) < 4 →
  wait4clients_loop max_msg_size (before ++ Some c :: after) sessions =
    (Throw (ios_failure "lost connection!"), sessions').
Proof.
  intros Hb Hok Hs. rewrite /wait4clients_loop for_each_app. step_ok Hb. cbn [for_each].
  assert (accept_client max_msg_size c sessions' = (Throw (ios_failure "lost connection!"), sessions')) as E.
  { rewrite /accept_client /client_compatible /verify_client /mbind /M_bind /c_in /zoom /=.
    rewrite /mbind /M_bind /d_read /zoom source_read_short //. }
  by rewrite (bind_throw _ _ _ _ _ E).
Qed.

(** ** Using the configuration file *)

(** What [run_middleware] says on the standard error stream. *)
Inductive complaint :=
  | illegal_log_level
  | unknown_key (k : bytes)
  | no_global_section
  | no_max_msg_size
  | no_file_name (section : bytes)
  | log_level_ignored.

(** The state of the program during the start: the logging globals, the
    complaints, and the modules that were loaded with their arguments. *)
Record startup := {
  st_logging : logging;
  st_complaints : list complaint;
  st_loaded : list (bytes * mapped_type * Z)
}.
Definition st_set_logging l (s : startup) : startup :=
  {| st_logging := l; st_complaints := st_complaints s; st_loaded := st_loaded s |}.
Definition complain (c : complaint) : M startup unit :=
  modify (λ s, {| st_logging := st_logging s; st_complaints := st_complaints s ++ [c]; st_loaded := st_loaded s |}).
Definition s_log (m : M logging unit) : M startup unit := zoom st_logging st_set_logging m.

Section run_middleware.
(** Whether the library was compiled with logging, what [dlopen] and the
    module's [hc_init] do ([None]: loaded, otherwise the reason), and the
    files of the system. *)
Context (logging_enabled : bool) (load_error : bytes → option string) (fs : gmap bytes bytes).

Definition set_log_level (lvl : Z) : M startup unit :=
  if logging_enabled then s_log (hc_set_default_log_fun lvl) else complain log_level_ignored.

Definition handle_log_level (lvl : bytes) : M startup unit :=
  if bool_decide (lvl = str "trace") then set_log_level HC_LOG_TRACE_LVL
  else if bool_decide (lvl = str "debug") then set_log_level HC_LOG_DEBUG_LVL
  else if bool_decide (lvl = str "info") then set_log_level HC_LOG_INFO_LVL
  else if bool_decide (lvl = str "warn") then set_log_level HC_LOG_WARN_LVL
  else if bool_decide (lvl = str "error") then set_log_level HC_LOG_ERROR_LVL
  else if bool_decide (lvl = str "fatal") then set_log_level HC_LOG_FATAL_LVL
  else if bool_decide (lvl = str "none") then s_log (hc_set_log_fun None)
  else complain illegal_log_level.

(** The entries of a [std::map] in the order of its iterators. *)
Definition entries {A} (m : gmap bytes A) : list (bytes * A) :=
  omap (λ k, (λ v, (k, v)) <$> m !! k) (sorted_keys m).

Definition handle_global (kv : bytes * bytes) : M startup unit :=
  if bool_decide (kv.1 = str "log_level") then handle_log_level kv.2 else complain (unknown_key kv.1).

Definition tech_module_load (fname : bytes) (args : mapped_type) (max_msg_size : Z) : M startup unit :=
  match load_error fname with
  | Some reason => throw (runtime_error reason)
  | None => modify (λ s, {| st_logging := st_logging s; st_complaints := st_complaints s;
                            st_loaded := st_loaded s ++ [(fname, args, max_msg_size)] |})
  end.

Definition handle_module (max_msg_size : Z) (sec : bytes * mapped_type) : M startup unit :=
  if bool_decide (sec.1 = str "global") then mret tt
  else
    let fname := get_in sec.2 (str "file") in
    if bool_decide (fname = []) then complain (no_file_name sec.1)
    else tech_module_load fname sec.2 max_msg_size.

(** The maximal message size: the default when the key is missing or is not
    a number. *)
Definition max_msg_size_of (ini : container_type) : M startup Z :=
  let mmsize := cm_get ini (str "global") (str "max_msg_size") in
  if bool_decide (mmsize = []) then complain no_max_msg_size ;; mret default_max_msg_size
  else mret (default default_max_msg_size (lexical_cast_unsigned 32 mmsize)).

(** [run_middleware] up to the loop; returns the maximal message size the
    loop is started with. *)
Definition read_configuration (ini_file : bytes) : M startup Z :=
  let '(r, ini) := read_ini fs ini_file new_config_map in
  match r with Throw e => throw e | UB w => ub w | Ok _ => mret tt end ;;
  global ← cm_at (ini_map ini) (str "global");
  for_each (entries global) handle_global ;;
  (if has_group (ini_map ini) (str "global") then mret tt else complain no_global_section) ;;
  max_msg_size ← max_msg_size_of (ini_map ini);
  for_each (entries (ini_map ini)) (handle_module max_msg_size) ;;
  mret max_msg_size.
End run_middleware.

Definition new_startup : startup :=
  {| st_logging := new_logging; st_complaints := []; st_loaded := [] |}.

(** The configuration of the example: the module is loaded with its section
    as arguments, and a key that the code reads is called unknown. *)
Example example_startup :
  let ini := print_file [str "[global]"; str "log_level=warn"; str "max_msg_size=-1";
                         str "[ipm]"; str "file=libipm.so"; str "[void]"] in
  read_configuration true (λ _, None) {[str "m.ini" := ini]} (str "m.ini") new_startup =
    (Ok (2 ^ 32 - 1),
     {| st_logging := lg_set_fun (Some log_warn_fun) new_logging;
        st_complaints := [unknown_key (str "max_msg_size"); no_file_name (str "void")];
        st_loaded := [(str "libipm.so", {[str "file" := str "libipm.so"]}, 2 ^ 32 - 1)] |}).
Proof. vm_compute. reflexivity. Qed.

Lemma elem_of_entries {A} (m : gmap bytes A) k v : (k, v) ∈ entries m ↔ m !! k = Some v.
Proof.
  rewrite /entries list_elem_of_omap /sorted_keys. split.
  - intros (k' & _ & E). destruct (m !! k') as [v'|] eqn:Ek; by simplify_eq/=.
  - intros Hk. exists k. rewrite Hk. split; [|done].
    rewrite merge_sort_Permutation elem_of_elements elem_of_dom. eauto.
Qed.

(** Only [tech_module::load] adds to the loaded modules. *)
Definition keeps_loaded {A} (m : M startup A) : Prop :=
  ∀ s, ∃ a s', m s = (Ok a, s') ∧ st_loaded s' = st_loaded s.

Lemma keeps_loaded_complain c : keeps_loaded (complain c).
Proof. intros s. by eexists _, _. Qed.

Lemma keeps_loaded_global b kv : keeps_loaded (handle_global b kv).
Proof.
  intros s. rewrite /handle_global /handle_log_level /set_log_level.
  repeat case_match; by eexists _, _.
Qed.

Lemma keeps_loaded_for_each {A} (l : list A) (body : A → M startup unit) :
  (∀ x, keeps_loaded (body x)) → keeps_loaded (for_each l body).
Proof.
  intros Hb. induction l as [|x l IH]; intros s; [by eexists _, _|]. cbn [for_each].
  destruct (Hb x s) as ([] & s1 & E1 & H1), (IH s1) as ([] & s2 & E2 & H2).
  exists tt, s2. step_ok E1. by rewrite E2 H2 H1.
Qed.

(** The module of a section. *)
Definition module_of (max_msg_size : Z) (sec : bytes * mapped_type) : option (bytes * mapped_type * Z) :=
  if bool_decide (sec.1 = str "global") then None
  else if bool_decide (get_in sec.2 (str "file") = []) then None
  else Some (get_in sec.2 (str "file"), sec.2, max_msg_size).

Lemma handle_modules_spec load_error mm l s :
  (∀ f, load_error f = None) →
  ∃ s', for_each l (handle_module load_error mm) s = (Ok tt, s') ∧
    st_loaded s' = st_loaded s ++ omap (module_of mm) l.
Proof.
  intros Hl. revert s. induction l as [|sec l IH]; intros s.
  { exists s. by rewrite /= app_nil_r. }
  assert (∃ s1, handle_module load_error mm sec s = (Ok tt, s1) ∧
    st_loaded s1 = st_loaded s ++ from_option (λ x, [x]) [] (module_of mm sec)) as (s1 & E1 & H1).
  { rewrite /handle_module /module_of /tech_module_load.
    case_bool_decide; [eexists; by rewrite /= app_nil_r|].
    case_bool_decide; [eexists; by rewrite /= app_nil_r|]. rewrite Hl. by eexists. }
  destruct (IH s1) as (s2 & E2 & H2). exists s2. cbn [for_each]. step_ok E1. split; [done|].
  rewrite H2 H1 -app_assoc. f_equal. cbn [omap list_omap]. by destruct (module_of mm sec).
Qed.

(** The maximal message size of a configuration. *)
Definition chosen_max_msg_size (global : mapped_type) : Z :=
  match global !! str "max_msg_size" with
  | Some v => default default_max_msg_size (lexical_cast_unsigned 32 v)
  | None => default_max_msg_size
  end.

Lemma max_msg_size_spec ini global s :
  ini !! str "global" = Some global →
  ∃ s', max_msg_size_of ini s = (Ok (chosen_max_msg_size global), s') ∧ st_loaded s' = st_loaded s.
Proof.
  intros Hg. rewrite /max_msg_size_of /chosen_max_msg_size /cm_get Hg /get_in.
  destruct (global !! str "max_msg_size") as [v|]; simpl; [|by eexists].
  case_bool_decide as Hv; [rewrite Hv|]; by eexists.
Qed.

Lemma read_configuration_run logging_enabled load_error fs ini_file ini global s :
  read_ini fs ini_file new_config_map = (Ok tt, ini) → ini_map ini !! str "global" = Some global →
  (∀ f, load_error f = None) →
  ∃ s', read_configuration logging_enabled load_error fs ini_file s = (Ok (chosen_max_msg_size global), s') ∧
    st_loaded s' = st_loaded s ++ omap (module_of (chosen_max_msg_size global)) (entries (ini_map ini)).
Proof.
  intros E Hg Hl. rewrite /read_configuration E.
  destruct (keeps_loaded_for_each (entries global) (handle_global logging_enabled)
    (keeps_loaded_global logging_enabled) s) as ([] & s1 & E1 & H1).
  destruct (max_msg_size_spec (ini_map ini) global s1 Hg) as (s2 & E2 & H2).
  destruct (handle_modules_spec load_error (chosen_max_msg_size global) (entries (ini_map ini)) s2 Hl)
    as (s3 & E3 & H3).
  exists s3. split; [|by rewrite H3 H2 H1].
  rewrite (bind_ok _ _ s tt s) // (bind_ok _ _ s global s); [by rewrite /cm_at Hg|]. step_ok E1.
  rewrite /has_group bool_decide_eq_true_2; [eauto|]. rewrite (bind_ok _ _ s1 tt s1) //.
  step_ok E2. by step_ok E3.
Qed.

(** What a configuration file makes the middleware do.  Without a
    [global] section the start ends with a range_error.  With one, and if the
    modules can be loaded, the message size is the number given there or the
    default, and the modules are exactly the files named in the other
    sections, each loaded with its section as arguments and that message
    size. *)
Theorem configuration_used logging_enabled load_error fs ini_file ini s :
  read_ini fs ini_file new_config_map = (Ok tt, ini) →
  (ini_map ini !! str "global" = None →
     read_configuration logging_enabled load_error fs ini_file s =
       (Throw (range_error "unknown group: global"), s)) ∧
  (∀ global, ini_map ini !! str "global" = Some global → (∀ f, load_error f = None) →
     ∃ s' loaded, read_configuration logging_enabled load_error fs ini_file s =
         (Ok (chosen_max_msg_size global), s') ∧
       st_loaded s' = st_loaded s ++ loaded ∧
       ∀ f args n, (f, args, n) ∈ loaded ↔
         n = chosen_max_msg_size global ∧ f ≠ [] ∧
         ∃ sec, sec ≠ str "global" ∧ ini_map ini !! sec = Some args ∧ args !! str "file" = Some f).
Proof.
  intros E. split.
  { intros Hg. by rewrite /read_configuration E /mbind /M_bind /cm_at /= Hg. }
  intros global Hg Hl.
  destruct (read_configuration_run logging_enabled load_error fs ini_file ini global s E Hg Hl) as (s' & E' & H').
  eexists s', _. split_and!; [done|done|].
  - intros f args n. rewrite list_elem_of_omap. split.
    + intros ([sec m] & Hin%elem_of_entries & Hm). revert Hm. rewrite /module_of /=.
      case_bool_decide as Hs; [done|]. case_bool_decide as Hf; [done|]. intros [= <- <- <-].
      split_and!; [done..|]. exists sec. split_and!; [done..|]. revert Hf. rewrite /get_in.
      destruct (m !! _) as [v|]; [done|naive_solver].
    + intros (-> & Hne & sec & Hs & Hin & Hf). exists (sec, args). rewrite elem_of_entries.
      split; [done|]. rewrite /module_of /= bool_decide_eq_false_2 //.
      rewrite /get_in Hf /= bool_decide_eq_false_2 //.
Qed.

(** ** The program *)

(** The random port of the server socket: [rand()] is not negative. *)
Definition random_port (r : Z) : Z := u16 (r mod (0xFFFF - 1025) + 1025).

Section main.
Context (denied : bytes → bool) (self : Z).
Context (logging_enabled : bool) (load_error : bytes → option string).

(** The results of [rand()], and the ports to which the socket can be bound. *)
Context (binds : Z → bool).

(** The first random port that could be bound, and the published
    configuration; the loop goes on when there is none. *)
Fixpoint bind_loop (rands : list Z) : option Z :=
  match rands with
  | [] => None
  | r :: rands' => if binds (random_port r) then Some (random_port r) else bind_loop rands'
  end.

(** The process, the state of the start and the running sessions. *)
Record program := {
  pg_process : process;
  pg_startup : startup;
  pg_sessions : list (conn (list bytes) log_sink)
}.
Definition p_process {A} (m : M process A) : M program A :=
  zoom pg_process (λ p s, {| pg_process := p; pg_startup := pg_startup s; pg_sessions := pg_sessions s |}) m.
Definition p_startup {A} (m : M startup A) : M program A :=
  zoom pg_startup (λ p s, {| pg_process := pg_process s; pg_startup := p; pg_sessions := pg_sessions s |}) m.
Definition p_sessions {A} (m : M (list (conn (list bytes) log_sink)) A) : M program A :=
  zoom pg_sessions (λ p s, {| pg_process := pg_process s; pg_startup := pg_startup s; pg_sessions := p |}) m.

Definition p_files {A} (m : M (gmap bytes bytes) A) : M program A :=
  p_process (sys (zoom fs_files fs_set_files m)).

(** [wait4clients_loop] with its socket: bind, publish, accept. *)
Definition server (rands : list Z) (conns : list (option (conn (list bytes) log_sink))) (max_msg_size : Z) :
    M program unit :=
  match bind_loop rands with
  | None => ub "still binding"
  | Some port =>
      written ← p_files (mc_write (λ _, true) (configuration_at self port));
      p_sessions (wait4clients_loop max_msg_size conns)
  end.

Definition run_middleware (rands : list Z) (conns : list (option (conn (list bytes) log_sink))) (ini_file : bytes) :
    M program Z :=
  files ← gets (λ s, fs_files (pr_fs (pg_process s)));
  max_msg_size ← p_startup (read_configuration logging_enabled load_error files ini_file);
  server rands conns max_msg_size ;;
  mret 0.

(** The options [getopt_long] delivers. *)
Inductive cmd_option := opt_ini_file (arg : bytes) | opt_help | opt_unknown.

(** The loop over the options: the name of the configuration file, or the
    exit status. *)
Fixpoint parse_options (ini_file : bytes) (opts : list cmd_option) : bytes + Z :=
  match opts with
  | [] => inl ini_file
  | opt_ini_file arg :: opts' => if zlen arg <? 5 then inr 1 else parse_options arg opts'
  | opt_help :: _ => inr 0
  | opt_unknown :: _ => inr 1
  end.

(** [main]: an exception of [initialize] is not caught; the one that ends
    [run_middleware] is, and the meeting point is cleaned up. *)
Definition main (opts : list cmd_option) (rands : list Z) (conns : list (option (conn (list bytes) log_sink))) :
    M program Z :=
  match parse_options (str "middleware.ini") opts with
  | inr status => mret status
  | inl ini_file =>
      p_process (initialize denied self meeting_point meeting_point_root) ;;
      exit_reason ← try_catch (run_middleware rands conns ini_file)
        (λ e, match e with terminated _ => throw e | _ => mret 2 end);
      p_process (cleanup denied self meeting_point meeting_point_root) ;;
      mret exit_reason
  end.
End main.

Lemma random_port_range r : 1025 <= random_port r <= 65534.
Proof.
  rewrite /random_port /u16. pose proof (Z.mod_pos_bound r (0xFFFF - 1025) ltac:(lia)).
  rewrite uwrap_small; [|lia]. split; lia.
Qed.

Lemma bind_loop_random binds rands port : bind_loop binds rands = Some port → binds port = true ∧ 1025 <= port <= 65534.
Proof.
  induction rands as [|r rands IH]; [done|]. simpl. destruct (binds (random_port r)) eqn:E; [|done].
  intros [= <-]. split; [done|]. apply random_port_range.
Qed.

(** The state in which the configuration is published. *)
Definition published (self port : Z) (s : program) : program :=
  {| pg_process := write_config (string_config (configuration_at self port)) (pg_process s);
     pg_startup := pg_startup s; pg_sessions := pg_sessions s |}.

Lemma server_run self binds rands conns max_msg_size port s :
  bind_loop binds rands = Some port →
  server self binds rands conns max_msg_size s =
    p_sessions (wait4clients_loop max_msg_size conns) (published self port s).
Proof.
  intros Hb. rewrite /server Hb.
  assert (p_files (mc_write (λ _, true) (configuration_at self port)) s = (Ok true, published self port s))
    as E by reflexivity.
  by step_ok E.
Qed.

(** Clients find the middleware: whatever random ports were tried, the
    port at which the server socket was bound is the one that a client reads
    from the configuration file while the middleware serves. *)
Theorem port_published self binds rands conns max_msg_size port s :
  1 <= self < 2 ^ 31 → bind_loop binds rands = Some port →
  binds port = true ∧
  ∃ r s', server self binds rands conns max_msg_size s = (r, s') ∧
    ∀ mc, mc_read (fs_files (pr_fs (pg_process s'))) mc =
      (Ok true, {| mc_port := port; mc_str_port := str "0"; mc_pid := self |}).
Proof.
  intros Hs Hb. destruct (bind_loop_random _ _ _ Hb) as [Hbp Hr]. split; [done|].
  rewrite (server_run _ _ _ _ _ _ _ Hb) /p_sessions /zoom.
  destruct (wait4clients_loop _ _ _) as [r ss]. eexists _, _. split; [reflexivity|].
  intros mc. apply written_config_read; [lia|lia|]. apply lookup_insert_eq.
Qed.

(** C37: A client that connects and closes its connection without a greeting
    stops the middleware, although it serves other clients: the exception
    that reading from the socket raises ends the loop that accepts clients,
    the program removes its files and directories from the meeting point and
    exits with status 2. *)
Theorem lost_client_stops_middleware denied self logging_enabled binds rands port before
    (c : conn (list bytes) log_sink) after ini global fs st sessions :
  writable_dirs denied → clean (fs_dirs fs) (fs_files fs) →
  map_Forall (λ _ holder, holder ≠ self) (fs_locks fs) → fs_locks fs !! lock_path = None →
  read_ini (fs_files fs) (str "middleware.ini") new_config_map = (Ok tt, ini) →
  ini_map ini !! str "global" = Some global →
  bind_loop binds rands = Some port →
  wait4clients_loop (chosen_max_msg_size global) before [] = (Ok tt, sessions) →
  chunks_ok (d_src (io_in c)) → zlen (concat (d_src (io_in c))) < 4 →
  ∃ s', main denied self logging_enabled (λ _, None) binds [] rands (before ++ Some c :: after)
      {| pg_process := new_process fs; pg_startup := st; pg_sessions := [] |} = (Ok 2, s') ∧
    pr_fs (pg_process s') = fs ∧ pg_sessions s' = sessions.
Proof.
  intros Hw Hc Hlk Hl Hr Hg Hb Hbefore Hok Hshort.
  destruct (initialize_clean denied self (new_process fs) Hw Hc Hl) as (p1 & E1 & G1 & G2 & G3 & G4).
  destruct (read_configuration_run logging_enabled (λ _, None) (fs_files (pr_fs p1)) (str "middleware.ini")
    ini global st) as (st' & E2 & _); [|done|done|].
  { rewrite -Hr /read_ini G3 /=. rewrite !lookup_insert_ne; [by vm_compute..|done]. }
  set (s1 := {| pg_process := p1; pg_startup := st'; pg_sessions := [] |}).
  assert (run_middleware self logging_enabled (λ _, None) binds rands (before ++ Some c :: after)
    (str "middleware.ini") {| pg_process := p1; pg_startup := st; pg_sessions := [] |} =
    (Throw (ios_failure "lost connection!"),
     {| pg_process := pg_process (published self port s1); pg_startup := st'; pg_sessions := sessions |})) as E3.
  { rewrite /run_middleware. rewrite (bind_ok _ _ _ (fs_files (pr_fs p1)) {| pg_process := p1; pg_startup := st; pg_sessions := [] |}); [done|].
    rewrite (bind_ok _ _ _ (chosen_max_msg_size global) s1); [by rewrite /p_startup /zoom E2|].
    apply bind_throw. rewrite (server_run _ _ _ _ _ _ _ Hb) /p_sessions /zoom.
    by rewrite (lost_client_ends_loop _ _ _ _ _ _ Hbefore Hok Hshort). }
  destruct (cleanup_created denied self (fs_dirs fs) (fs_files fs) (string_config (configuration_at self port)) []
    (write_config (string_config (configuration_at self port)) p1)) as (p2 & E4 & G5 & _); [done..| |].
  { cbn -[config_path lock_path string_config]. rewrite G3 insert_insert_ne; [by vm_compute|]. by rewrite insert_insert_eq. }
  exists {| pg_process := p2; pg_startup := st'; pg_sessions := sessions |}. split_and!; [|cbn|done].
  - rewrite /main /=. rewrite (bind_ok _ _ _ tt {| pg_process := p1; pg_startup := st; pg_sessions := [] |});
      [by rewrite /p_process /zoom E1|].
    erewrite bind_ok; [|by rewrite /try_catch E3].
    rewrite (bind_ok _ _ _ tt {| pg_process := p2; pg_startup := st'; pg_sessions := sessions |}); [|done].
    by rewrite /p_process /zoom /= E4.
  - rewrite G5. cbn -[config_path lock_path]. rewrite G4. destruct fs as [D F L]. cbn in *. f_equal.
    by apply locks_restored.
Qed.

(** ** Concrete runs *)

Definition silent_conn (chunks : list bytes) : conn (list bytes) log_sink :=
  {| io_in := Build_dstate chunks ∅; io_out := {| log_chunks := []; log_hint := 0 |} |}.

Lemma d_ok_chunks chunks : chunks_ok chunks → d_ok (io_in (silent_conn chunks)).
Proof. intros H. split; [done|]. split; [by intros k u ?|]. rewrite map_size_empty. lia. Qed.

Lemma handshake_agreement_witness :
  ∃ server', client_compatible 8192
      (silent_conn [hello magic_number major_version minor_version]) = (Ok true, server') ∧
    sink_accepted (io_out server') = reply true 8192.
Proof.
  destruct (handshake_agreement (R' := list bytes) (S' := log_sink) magic_number major_version minor_version
    8192 [] (silent_conn [hello magic_number major_version minor_version]))
    as (b & server' & answer & E & Ha & Hb & _); [by (split; vm_compute)..|apply d_ok_chunks; by repeat constructor|done| | | |].
  - by vm_compute.
  - by vm_compute.
  - vm_compute. reflexivity.
  - destruct b; [|exfalso; by assert (false = true) by (apply Hb; by vm_compute)].
    exists server'. split; [exact E|].
    vm_compute in E. injection E as <-. vm_compute. reflexivity.
Defined.

Definition small_ini : bytes := print_file [str "[global]"; str "max_msg_size=4096"].

Lemma configuration_used_witness :
  ∃ s', read_configuration true (λ _, None) {[str "middleware.ini" := small_ini]} (str "middleware.ini") new_startup =
    (Ok 4096, s').
Proof.
  destruct (configuration_used true (λ _, None) {[str "middleware.ini" := small_ini]} (str "middleware.ini")
    {| ini_map := {[str "global" := {[str "max_msg_size" := str "4096"]}]}; ini_section := str "global"; ini_skipped := [] |}
    new_startup) as [_ H]; [vm_compute; reflexivity|].
  destruct (H {[str "max_msg_size" := str "4096"]} eq_refl (λ _, eq_refl)) as (s' & _ & E & _).
  exists s'. exact E.
Defined.

Lemma port_published_witness :
  ∃ r s', server 4711 (λ p, p =? 1035) [5; 10] [] 8192
      {| pg_process := new_process empty_fs; pg_startup := new_startup; pg_sessions := [] |} = (r, s') ∧
    mc_read (fs_files (pr_fs (pg_process s'))) new_configuration =
      (Ok true, {| mc_port := 1035; mc_str_port := str "0"; mc_pid := 4711 |}).
Proof.
  destruct (port_published 4711 (λ p, p =? 1035) [5; 10] [] 8192 1035
    {| pg_process := new_process empty_fs; pg_startup := new_startup; pg_sessions := [] |})
    as (_ & r & s' & E & H); [lia|reflexivity|]. exists r, s'. exact (conj E (H new_configuration)).
Defined.

Definition ini_fs : fsys :=
  {| fs_dirs := {[ []; str "/tmp" ]}; fs_files := {[str "middleware.ini" := small_ini]}; fs_locks := ∅ |}.

Lemma lost_client_stops_middleware_witness :
  ∃ s', main (λ _, false) 4711 true (λ _, None) (λ _, true) [] [0]
      [Some (silent_conn [hello magic_number major_version minor_version]); Some (silent_conn [])]
      {| pg_process := new_process ini_fs; pg_startup := new_startup; pg_sessions := [] |} = (Ok 2, s') ∧
    pr_fs (pg_process s') = ini_fs.
Proof.
  destruct (lost_client_stops_middleware (λ _, false) 4711 true (λ _, true) [0] 1025
    [Some (silent_conn [hello magic_number major_version minor_version])] (silent_conn []) []
    {| ini_map := {[str "global" := {[str "max_msg_size" := str "4096"]}]}; ini_section := str "global"; ini_skipped := [] |}
    {[str "max_msg_size" := str "4096"]} ini_fs new_startup
    (wait4clients_loop 4096 [Some (silent_conn [hello magic_number major_version minor_version])] []).2)
    as (s' & E & H & _).
  - by repeat constructor.
  - split; [set_solver|]. intros p Hp. split.
    + cbn. rewrite not_elem_of_union !not_elem_of_singleton.
      split; intros ->; revert Hp; by apply (bool_decide_unpack _).
    + apply lookup_singleton_ne. intros <-. revert Hp. by apply (bool_decide_unpack _).
  - apply map_Forall_empty.
  - reflexivity.
  - vm_compute. reflexivity.
  - reflexivity.
  - reflexivity.
  - vm_compute. reflexivity.
  - constructor.
  - reflexivity.
  - exists s'. exact (conj E H).
Defined.
