(* ===== verification/Overlay.v ===== *)
(** * The overlay below the modules

    What the overlay modules use of Chimera besides its keys: the order of a
    [std::map] of keys, the messages with their header
    ([utils/chimera/src/message.c]), and the hosts with their encoding and
    their cache ([utils/chimera/src/host.c]).  Both modules, [Bidirsam] and
    [Scribe], are built on it. *)

From stdpp Require Import sorting.
From S2P Require Import Prelude ChimeraKey.

(** ** Maps of keys *)

(** [operator<] of keys, and the order in which a [std::map] of keys is
    traversed. *)
Definition key_le (k1 k2 : Key) : Prop := key_comp k1 k2 <= 0.
#[export] Instance key_le_dec : RelDecision key_le.
Proof. intros k1 k2. rewrite /key_le. apply _. Defined.
Definition keys_in_order {A} (m : gmap Key A) : list Key := merge_sort key_le (elements (dom m)).

Definition zero_key : Key := replicate KEY_ARRAY_SIZE 0.

(** [std::map::insert] keeps an element that is there. *)
Definition map_insert {K A} `{Countable K} (k : K) (x : A) (m : gmap K A) : gmap K A :=
  match m !! k with Some _ => m | None => <[k := x]> m end.

(** The states of a group a module reports. *)
Definition HC_LISTENER_STATE : Z := 0.
Definition HC_SENDER_STATE : Z := 1.
Definition HC_SENDER_AND_LISTENER_STATE : Z := 2.

(** ** Messages *)

(** A message of the overlay. *)
Record bmsg := {
  bm_dst : Key;
  bm_src : Key;
  bm_port : Z;
  bm_type : Z;
  bm_payload : bytes
}.

(** [message_create]: the size is a 16-bit number. *)
Definition message_create (dst src : Key) (port type size : Z) (payload : bytes) : bmsg :=
  {| bm_dst := dst; bm_src := src; bm_port := u16 port; bm_type := u16 type;
     bm_payload := ztake (u16 size) payload |}.

Definition write_u16_to_buffer (v : Z) : bytes := rev (le_bytes 2 v).
Definition read_u16_from_buffer (b : bytes) : Z := le_value (rev (take 2 b)).

Definition KEY_BYTES : nat := 4 * KEY_ARRAY_SIZE.
Definition CHIMERA_HEADER_SIZE : nat := KEY_BYTES + KEY_BYTES + 2 + 2 + 2.

Definition write_header_to_buffer (msg : bmsg) : bytes :=
  write_key_to_buffer (bm_dst msg) ++ write_key_to_buffer (bm_src msg) ++
  write_u16_to_buffer (bm_port msg) ++ write_u16_to_buffer (bm_type msg) ++
  write_u16_to_buffer (u16 (zlen (bm_payload msg))).

(** The buffer of a message, as it goes over the network: the header and the
    payload. *)
Definition message_buffer (msg : bmsg) : bytes := write_header_to_buffer msg ++ bm_payload msg.

(** [read_buffer]: the size of the payload is the one the header states.  A
    header that states more bytes than there are makes the users of the
    payload read behind the end of the packet; the model stops here. *)
Definition read_buffer (buf : bytes) : outcome bmsg :=
  if zlen buf <? Z.of_nat CHIMERA_HEADER_SIZE then UB "header behind the end of a packet"
  else
    let read1 := drop KEY_BYTES buf in
    let read2 := drop KEY_BYTES read1 in
    let read3 := drop 2 read2 in
    let read4 := drop 2 read3 in
    let size := read_u16_from_buffer read4 in
    let payload := drop CHIMERA_HEADER_SIZE buf in
    if zlen payload <? size then UB "payload behind the end of a packet"
    else
      Ok {| bm_dst := read_key_from_buffer buf; bm_src := read_key_from_buffer read1;
            bm_port := read_u16_from_buffer read2; bm_type := read_u16_from_buffer read3;
            bm_payload := ztake size payload |}.

(** ** Hosts *)

(** A [ChimeraHost*]: a host of the cache, which is identified by its address
    (in the byte order of the host) and its port. *)
Definition host_id := (Z * Z)%type.

Definition HOST_CODED_SIZE : Z := Z.of_nat (KEY_BYTES + 4 + 2).

(** [host_encode] into a buffer that is large enough. *)
Definition host_encode (k : Key) (h : host_id) : bytes :=
  write_key_to_buffer k ++ write_u32_to_buffer h.1 ++ write_u16_to_buffer h.2.

(** An entry of the cache: the key of the host, zero while it is unknown,
    and how often the host is referred to. *)
Record CacheEntry := { ce_key : Key; ce_reference : Z }.
Record HostGlobal := {
  hg_hosts : gmap host_id CacheEntry;
  hg_free : list host_id;
  hg_size : Z;
  hg_max : Z
}.
Definition host_init (size : Z) : HostGlobal := {| hg_hosts := ∅; hg_free := []; hg_size := 0; hg_max := size |}.

(** [cacheentry_free] of the first free entries while the cache is overfull. *)
Fixpoint empty_cache (hosts : gmap host_id CacheEntry) (free : list host_id) (size max : Z) : HostGlobal :=
  match free with
  | tmp :: free' =>
      if max <? size then empty_cache (delete tmp hosts) free' (size - 1) max
      else {| hg_hosts := hosts; hg_free := free; hg_size := size; hg_max := max |}
  | [] => {| hg_hosts := hosts; hg_free := []; hg_size := size; hg_max := max |}
  end.

(** [dll_delete_node]. *)
Definition unlink (h : host_id) (l : list host_id) : list host_id := filter (λ x, x ≠ h) l.

Definition host_get (h : host_id) (hg : HostGlobal) : HostGlobal :=
  match hg_hosts hg !! h with
  | None =>
      empty_cache (<[h := {| ce_key := zero_key; ce_reference := 1 |}]> (hg_hosts hg)) (hg_free hg)
        (hg_size hg + 1) (hg_max hg)
  | Some entry =>
      let free := if ce_reference entry =? 0 then unlink h (hg_free hg) else hg_free hg in
      empty_cache (<[h := {| ce_key := ce_key entry; ce_reference := ce_reference entry + 1 |}]> (hg_hosts hg)) free
        (hg_size hg) (hg_max hg)
  end.

Definition host_release (h : host_id) (hg : HostGlobal) : HostGlobal :=
  match hg_hosts hg !! h with
  | None => hg
  | Some entry =>
      let reference := ce_reference entry - 1 in
      let free := if reference =? 0 then hg_free hg ++ [h] else hg_free hg in
      empty_cache (<[h := {| ce_key := ce_key entry; ce_reference := reference |}]> (hg_hosts hg)) free
        (hg_size hg) (hg_max hg)
  end.

(** [host->key]; a pointer to a host that was freed is not read. *)
Definition host_key (hg : HostGlobal) (h : host_id) : option Key := ce_key <$> hg_hosts hg !! h.

Definition set_host_key (h : host_id) (k : Key) (hg : HostGlobal) : HostGlobal :=
  {| hg_hosts := alter (λ e, {| ce_key := k; ce_reference := ce_reference e |}) h (hg_hosts hg);
     hg_free := hg_free hg; hg_size := hg_size hg; hg_max := hg_max hg |}.

Section hosts.
(** The address the name service has for a loopback address. *)
Context (gethostbyaddr : Z → Z).

(** [network_address] of the text of an address: 127.0.0.1 and 127.0.1.1 are
    replaced by what the name service says. *)
Definition network_address (addr : Z) : Z :=
  if negb (addr =? 2130706433) && negb (addr =? 2130706689) then addr else gethostbyaddr addr.

(** [host_decode] of at least [HOST_CODED_SIZE] bytes.  The text of an IPv4
    address always fits its buffer, so the result is never [NULL]. *)
Definition host_decode (b : bytes) (hg : HostGlobal) : host_id * HostGlobal :=
  let k := read_key_from_buffer b in
  let read1 := drop KEY_BYTES b in
  let addr := read_u32_from_buffer read1 in
  let port := read_u16_from_buffer (drop 4 read1) in
  let host := (network_address addr, port) in
  let hg := host_get host hg in
  (host, if bool_decide (host_key hg host = Some zero_key) then set_host_key host k hg else hg).
End hosts.

(** ** Lemmas on maps of keys *)

Lemma elem_of_keys {A} (m : gmap Key A) k : k ∈ keys_in_order m ↔ is_Some (m !! k).
Proof. by rewrite /keys_in_order merge_sort_Permutation elem_of_elements elem_of_dom. Qed.

Lemma NoDup_keys {A} (m : gmap Key A) : NoDup (keys_in_order m).
Proof. rewrite /keys_in_order merge_sort_Permutation. apply NoDup_elements. Qed.

Lemma map_insert_Some {K A} `{Countable K} (m : gmap K A) k x k' y :
  map_insert k x m !! k' = Some y → (k' = k ∧ y = x) ∨ m !! k' = Some y.
Proof.
  rewrite /map_insert. destruct (m !! k); [by right|]. intros [(<- & <-)|(_ & E)]%lookup_insert_Some; auto.
Qed.

Lemma existsb_key_equal g l : existsb (key_equal g) l = false → g ∉ l.
Proof.
  intros He Hg. apply not_true_iff_false in He. apply He, existsb_exists. exists g. split; [by apply list_elem_of_In|].
  apply forallb_forall. intros i _. apply Z.eqb_refl.
Qed.


(** ** The network encoding *)

Lemma length_write_u16 v : length (write_u16_to_buffer v) = 2%nat.
Proof. by rewrite /write_u16_to_buffer length_rev length_le_bytes. Qed.

Lemma read_write_u16 v rest : 0 <= v < 2 ^ 16 → read_u16_from_buffer (write_u16_to_buffer v ++ rest) = v.
Proof.
  intros Hv. rewrite /read_u16_from_buffer. rewrite take_app_length'; [by rewrite length_write_u16|].
  rewrite /write_u16_to_buffer rev_involutive. by apply le_value_le_bytes.
Qed.

Lemma length_write_key k : key_ok k → length (write_key_to_buffer k) = KEY_BYTES.
Proof. intros [Hl _]. by destruct k as [|a [|b [|c [|]]]]. Qed.

Lemma read_write_key k rest : key_ok k → read_key_from_buffer (write_key_to_buffer k ++ rest) = k.
Proof.
  intros [Hl Hk]. rewrite /write_key_to_buffer -Hl firstn_all /read_key_from_buffer -Hl. by apply read_words_write.
Qed.

Lemma read_u32_bound b : 0 <= read_u32_from_buffer b < 2 ^ 32.
Proof.
  rewrite /read_u32_from_buffer. pose proof (le_value_bound (rev (take 4 b))) as [H1 H2]. split; [done|].
  eapply Z.lt_le_trans; [exact H2|]. change (2 ^ 32) with (256 ^ 4). apply Z.pow_le_mono_r; [lia|].
  rewrite /zlen length_rev length_take. lia.
Qed.
Lemma read_key_ok b : key_ok (read_key_from_buffer b).
Proof. split; [done|]. repeat constructor; apply read_u32_bound. Qed.

(** Messages the overlay can carry. *)
Definition bmsg_ok (msg : bmsg) : Prop :=
  key_ok (bm_dst msg) ∧ key_ok (bm_src msg) ∧ fits 16 (bm_port msg) ∧ fits 16 (bm_type msg) ∧
  zlen (bm_payload msg) < 2 ^ 16.

Lemma message_create_ok dst src port type size payload :
  key_ok dst → key_ok src → bmsg_ok (message_create dst src port type size payload).
Proof.
  intros Hd Hs. split_and!; try done; try (apply uwrap_fits; lia). simpl.
  pose proof (uwrap_fits 16 size ltac:(lia)) as [H1 H2]. rewrite /u16 /zlen /ztake length_take. lia.
Qed.

Definition host_ok (h : host_id) : Prop := fits 32 h.1 ∧ fits 16 h.2.

Lemma length_host_encode k h : key_ok k → length (host_encode k h) = Z.to_nat HOST_CODED_SIZE.
Proof. intros Hk. by rewrite /host_encode !length_app length_write_key // length_write_u32 length_write_u16. Qed.

(** ** The cache of hosts *)

Inductive host_op :=
  | HGet (h : host_id)
  | HRelease (h : host_id)
  | HDecode (b : bytes).

Section cache.
Context (gethostbyaddr : Z → Z).

Definition host_step (hg : HostGlobal) (op : host_op) : HostGlobal :=
  match op with
  | HGet h => host_get h hg
  | HRelease h => host_release h hg
  | HDecode b => (host_decode gethostbyaddr b hg).2
  end.

(** The host [host_decode] returns. *)
Definition decoded (b : bytes) : host_id :=
  (network_address gethostbyaddr (read_u32_from_buffer (drop KEY_BYTES b)),
   read_u16_from_buffer (drop 4 (drop KEY_BYTES b))).

(** How many references to a host its users hold. *)
Definition held_step (f : host_id → Z) (op : host_op) : host_id → Z :=
  match op with
  | HGet h => λ x, if bool_decide (x = h) then f x + 1 else f x
  | HRelease h => λ x, if bool_decide (x = h) then f x - 1 else f x
  | HDecode b => λ x, if bool_decide (x = decoded b) then f x + 1 else f x
  end.
Definition held (ops : list host_op) : host_id → Z := foldl held_step (λ _, 0) ops.

(** Only references that are held are released. *)
Definition balanced (ops : list host_op) : Prop :=
  ∀ ops1 h ops2, ops = ops1 ++ HRelease h :: ops2 → 0 < held ops1 h.

Record cache_ok (f : host_id → Z) (hg : HostGlobal) : Prop := {
  co_nonneg h : 0 <= f h;
  co_reference h e : hg_hosts hg !! h = Some e → ce_reference e = f h;
  co_present h : 0 < f h → is_Some (hg_hosts hg !! h);
  co_nodup : NoDup (hg_free hg);
  co_free h : h ∈ hg_free hg ↔ is_Some (hg_hosts hg !! h) ∧ f h = 0;
  co_size : hg_size hg = Z.of_nat (size (hg_hosts hg))
}.

Lemma empty_cache_ok f hosts free sz mx :
  cache_ok f {| hg_hosts := hosts; hg_free := free; hg_size := sz; hg_max := mx |} →
  let hg := empty_cache hosts free sz mx in
  cache_ok f hg ∧ hg_max hg = mx ∧ (hg_size hg <= mx ∨ hg_free hg = []) ∧
  (∀ h, 0 < f h → hg_hosts hg !! h = hosts !! h).
Proof.
  revert hosts sz. induction free as [|tmp free IH]; intros hosts sz Hok; simpl; [by auto|].
  destruct (Z.ltb_spec mx sz); [|split_and!; auto; by left].
  destruct Hok as [H0 H1 H2 H3 H4 H5]; simpl in *. apply NoDup_cons in H3 as [Hni Hnd].
  destruct (proj1 (H4 tmp) ltac:(by left)) as [Htmp Hzero].
  destruct (IH (delete tmp hosts) (sz - 1)) as (G1 & G2 & G3 & G4); [split; simpl; try done|].
  - intros h e [_ He]%lookup_delete_Some. by apply H1.
  - intros h Hh. rewrite lookup_delete_ne; [by intros ->; lia|by apply H2].
  - intros h. split.
    + intros Hh. rewrite lookup_delete_ne; [by intros ->|]. apply H4. by right.
    + intros [[e [Hne He]%lookup_delete_Some] Hf].
      assert (h ∈ tmp :: free) as Hin by (apply H4; eauto). by apply elem_of_cons in Hin as [->|].
  - rewrite map_size_delete. destruct Htmp as [e He]. rewrite He H5.
    assert (size hosts ≠ 0%nat); [|lia]. intros Hs%map_size_empty_iff. subst hosts. by rewrite lookup_empty in He.
  - split_and!; try done. intros h Hh. rewrite G4 // lookup_delete_ne //. by intros ->; lia.
Qed.

Definition bounded (hg : HostGlobal) : Prop := hg_size hg <= hg_max hg ∨ hg_free hg = [].

(** The entry of one host is written: the references of the others stay, the
    list of free entries changes for this host at most, and then the cache
    is emptied. *)
Lemma write_entry_ok f f' hg h e free sz :
  cache_ok f hg → (∀ x, x ≠ h → f' x = f x) → 0 <= f' h → ce_reference e = f' h →
  NoDup free → (∀ x, x ≠ h → x ∈ free ↔ x ∈ hg_free hg) → (h ∈ free ↔ f' h = 0) →
  sz = Z.of_nat (size (<[h := e]> (hg_hosts hg))) →
  let hg' := empty_cache (<[h := e]> (hg_hosts hg)) free sz (hg_max hg) in
  cache_ok f' hg' ∧ hg_max hg' = hg_max hg ∧ bounded hg' ∧
  (∀ x, x ≠ h → 0 < f x → host_key hg' x = host_key hg x) ∧
  (0 < f' h → host_key hg' h = Some (ce_key e)).
Proof.
  intros [H0 H1 H2 H3 H4 H5] Fx Fh He Hnd Hfree Hh Hsz.
  destruct (empty_cache_ok f' (<[h := e]> (hg_hosts hg)) free sz (hg_max hg)) as (G1 & G2 & G3 & G4).
  { split; simpl; try done.
    - intros x. destruct (decide (x = h)) as [->|Hn]; [done|by rewrite Fx].
    - intros x y [(<- & <-)|(Hn & Hx)]%lookup_insert_Some; [done|]. rewrite Fx //. by apply H1.
    - intros x Hx. destruct (decide (x = h)) as [->|Hn]; [by rewrite lookup_insert_eq|].
      rewrite lookup_insert_ne //. apply H2. by rewrite -Fx.
    - intros x. destruct (decide (x = h)) as [->|Hn].
      + rewrite Hh lookup_insert_eq. split; [|tauto]. by intros ->.
      + by rewrite Hfree // H4 lookup_insert_ne // Fx. }
  rewrite /bounded /host_key G2. split_and!; [done..| |].
  - intros x Hx Hp. rewrite G4; [by rewrite Fx|]. by rewrite lookup_insert_ne.
  - intros Hp. rewrite G4 //. by rewrite lookup_insert_eq.
Qed.

Lemma held_get f h : held_step f (HGet h) h = f h + 1 ∧ ∀ x, x ≠ h → held_step f (HGet h) x = f x.
Proof. simpl. rewrite bool_decide_true //. split; [done|]. intros x Hx. by rewrite bool_decide_false. Qed.
Lemma held_release f h : held_step f (HRelease h) h = f h - 1 ∧ ∀ x, x ≠ h → held_step f (HRelease h) x = f x.
Proof. simpl. rewrite bool_decide_true //. split; [done|]. intros x Hx. by rewrite bool_decide_false. Qed.

Lemma host_get_ok f h hg :
  cache_ok f hg →
  cache_ok (held_step f (HGet h)) (host_get h hg) ∧ hg_max (host_get h hg) = hg_max hg ∧ bounded (host_get h hg) ∧
  (∀ x, x ≠ h → 0 < f x → host_key (host_get h hg) x = host_key hg x) ∧
  host_key (host_get h hg) h = Some (default zero_key (host_key hg h)).
Proof.
  intros Hok. pose proof Hok as [H0 H1 H2 H3 H4 H5]. destruct (held_get f h) as [Fh Fx]. pose proof (H0 h) as Hp.
  rewrite /host_get {4}/host_key. destruct (hg_hosts hg !! h) as [e|] eqn:He.
  - pose proof (H1 h e He) as Hr. set (free := if ce_reference e =? 0 then _ else _).
    assert (NoDup free ∧ (∀ x, x ≠ h → x ∈ free ↔ x ∈ hg_free hg) ∧ h ∉ free) as (Hnd & Hfree & Hh).
    { rewrite /free /unlink. destruct (Z.eqb_spec (ce_reference e) 0).
      - split_and!; [by apply NoDup_filter| |]; intros; rewrite list_elem_of_filter; tauto.
      - split_and!; [done..|]. rewrite H4. lia. }
    edestruct (write_entry_ok f (held_step f (HGet h)) hg h
      {| ce_key := ce_key e; ce_reference := ce_reference e + 1 |} free (hg_size hg)) as (G1 & G2 & G3 & G4 & G5);
      try done; try (simpl ce_reference; lia).
    { split; [done|lia]. } { by rewrite map_size_insert He. }
    split_and!; try done. apply G5. lia.
  - assert (f h = 0) as Hz.
    { destruct (decide (0 < f h)) as [Hlt|]; [apply H2 in Hlt; rewrite He in Hlt; by destruct Hlt|lia]. }
    edestruct (write_entry_ok f (held_step f (HGet h)) hg h {| ce_key := zero_key; ce_reference := 1 |} (hg_free hg)
      (hg_size hg + 1)) as (G1 & G2 & G3 & G4 & G5); try done; try (simpl ce_reference; lia).
    { rewrite H4 He. split; [by intros [[] _]|lia]. } { rewrite map_size_insert He. lia. }
    split_and!; try done. apply G5. lia.
Qed.

Lemma host_release_ok f h hg :
  cache_ok f hg → 0 < f h →
  cache_ok (held_step f (HRelease h)) (host_release h hg) ∧ hg_max (host_release h hg) = hg_max hg ∧
  bounded (host_release h hg).
Proof.
  intros Hok Hlt. pose proof Hok as [H0 H1 H2 H3 H4 H5]. destruct (held_release f h) as [Fh Fx].
  rewrite /host_release. destruct (H2 h Hlt) as [e He]. pose proof (H1 h e He) as Hr. rewrite He.
  assert (h ∉ hg_free hg) as Hni by (rewrite H4; lia).
  set (free := if _ =? 0 then _ else _).
  assert (NoDup free ∧ (∀ x, x ≠ h → x ∈ free ↔ x ∈ hg_free hg) ∧ (h ∈ free ↔ f h = 1)) as (Hnd & Hfree & Hh).
  { rewrite /free. destruct (Z.eqb_spec (ce_reference e - 1) 0).
    - split_and!; [|intros x Hx; rewrite elem_of_app list_elem_of_singleton; tauto|
        rewrite elem_of_app list_elem_of_singleton; split; [lia|tauto]].
      apply NoDup_app. split_and!; [done| |apply NoDup_singleton]. by intros x Hx ->%list_elem_of_singleton.
    - split_and!; [done..|]. split; [done|lia]. }
  edestruct (write_entry_ok f (held_step f (HRelease h)) hg h
    {| ce_key := ce_key e; ce_reference := ce_reference e - 1 |} free (hg_size hg)) as (G1 & G2 & G3 & _);
    try done; try (simpl ce_reference; lia).
  { rewrite Hh. lia. } { by rewrite map_size_insert He. }
Qed.

Lemma set_host_key_ok f h k hg :
  cache_ok f hg → cache_ok f (set_host_key h k hg).
Proof.
  intros [H0 H1 H2 H3 H4 H5]. split; simpl; try done.
  - intros x e. rewrite lookup_alter_Some. intros [(-> & e0 & He & ->)|(_ & He)]; simpl; by apply H1.
  - intros x Hx. destruct (H2 x Hx) as [e He]. destruct (decide (x = h)) as [->|Hn].
    + by rewrite lookup_alter_eq He.
    + by rewrite lookup_alter_ne // He.
  - intros x. rewrite H4. destruct (decide (x = h)) as [->|Hn]; [|by rewrite lookup_alter_ne].
    rewrite lookup_alter_eq fmap_is_Some //.
  - by rewrite -size_dom dom_alter_L size_dom.
Qed.

Lemma host_decode_decoded b hg : (host_decode gethostbyaddr b hg).1 = decoded b.
Proof. done. Qed.

(** [host_decode] is a [host_get] that fills in the key of a host whose key is
    unknown. *)
Lemma host_decode_ok f b hg :
  cache_ok f hg →
  let hg' := (host_decode gethostbyaddr b hg).2 in
  cache_ok (held_step f (HDecode b)) hg' ∧ hg_max hg' = hg_max hg ∧ bounded hg' ∧
  (∀ x, x ≠ decoded b → 0 < f x → host_key hg' x = host_key hg x) ∧
  host_key hg' (decoded b) =
    Some (if bool_decide (default zero_key (host_key hg (decoded b)) = zero_key) then read_key_from_buffer b
          else default zero_key (host_key hg (decoded b))).
Proof.
  intros Hok. destruct (host_get_ok f (decoded b) hg Hok) as (G1 & G2 & G3 & G4 & G5).
  rewrite /host_decode. change (network_address _ _, _) with (decoded b). cbn [snd].
  rewrite G5. rewrite (bool_decide_ext (Some _ = Some zero_key) (default zero_key (host_key hg (decoded b)) = zero_key)).
  { split; [by intros [=]|by intros ->]. }
  case_bool_decide as Hk; [|done].
  split_and!; [by apply set_host_key_ok|done|done| |].
  - intros x Hx Hp. rewrite -G4 // /host_key /= lookup_alter_ne //.
  - move: G5. rewrite /host_key /= lookup_alter_eq. by destruct (hg_hosts _ !! _).
Qed.

Lemma held_snoc ops op : held (ops ++ [op]) = held_step (held ops) op.
Proof. by rewrite /held foldl_app. Qed.

Lemma balanced_snoc ops op : balanced (ops ++ [op]) → balanced ops ∧ ∀ h, op = HRelease h → 0 < held ops h.
Proof.
  intros Hb. split.
  - intros ops1 h ops2 ->. apply (Hb ops1 h (ops2 ++ [op])). by rewrite -app_assoc.
  - intros h ->. by apply (Hb ops h []).
Qed.

Lemma cache_run_ok ops mx :
  balanced ops →
  let hg := foldl host_step (host_init mx) ops in
  cache_ok (held ops) hg ∧ hg_max hg = mx ∧ bounded hg.
Proof.
  induction ops as [|op ops IH] using rev_ind; intros Hb; simpl.
  { split_and!; [|done|by right]. split; simpl; try done; [constructor|].
    intros h. rewrite lookup_empty. split; [by intros H%not_elem_of_nil|by intros [[] _]]. }
  apply balanced_snoc in Hb as [Hb Hop]. destruct (IH Hb) as (H1 & H2 & H3). rewrite held_snoc foldl_app.
  cbn [foldl]. set (hg := foldl host_step (host_init mx) ops) in *. destruct op as [h|h|b]; cbn [host_step].
  - destruct (host_get_ok _ h _ H1) as (G1 & G2 & G3 & _). by rewrite G2.
  - destruct (host_release_ok _ h _ H1 ltac:(by apply Hop)) as (G1 & G2 & G3). by rewrite G2.
  - destruct (host_decode_ok _ b _ H1) as (G1 & G2 & G3 & _). by rewrite G2.
Qed.
End cache.

(** A user that never releases a host keeps all its hosts in the cache. *)
Definition no_free (hg : HostGlobal) : Prop :=
  hg_free hg = [] ∧ map_Forall (λ _ e, 0 < ce_reference e) (hg_hosts hg).

Lemma host_decode_no_free gethostbyaddr b hg :
  no_free hg →
  let h := decoded gethostbyaddr b in
  let hg' := (host_decode gethostbyaddr b hg).2 in
  no_free hg' ∧ (∀ x, x ≠ h → hg_hosts hg' !! x = hg_hosts hg !! x) ∧
  host_key hg' h = Some (if bool_decide (default zero_key (host_key hg h) = zero_key) then read_key_from_buffer b
                         else default zero_key (host_key hg h)).
Proof.
  intros [Hf Hr]. rewrite /host_decode. change (network_address _ _, _) with (decoded gethostbyaddr b).
  set (h := decoded gethostbyaddr b). cbn [snd].
  assert (∃ e, host_get h hg = {| hg_hosts := <[h := e]> (hg_hosts hg); hg_free := []; hg_size := hg_size (host_get h hg);
    hg_max := hg_max hg |} ∧ 0 < ce_reference e ∧ ce_key e = default zero_key (host_key hg h)) as (e & -> & He & Hk).
  { rewrite /host_get /host_key Hf. destruct (hg_hosts hg !! h) as [e|] eqn:E; simpl.
    - assert (0 < ce_reference e) as Hpos by by apply (Hr h e). rewrite (proj2 (Z.eqb_neq _ 0)); [lia|]. simpl.
      eexists. split; [done|]. simpl. split; [lia|done].
    - eexists. split; [done|]. done. }
  set (hg1 := {| hg_hosts := <[h := e]> (hg_hosts hg) |}).
  rewrite (bool_decide_ext (host_key hg1 h = Some zero_key) (default zero_key (host_key hg h) = zero_key)).
  { rewrite {1}/host_key /= lookup_insert_eq /= Hk. split; [by intros [=]|by intros ->]. }
  case_bool_decide; rewrite /no_free /host_key /=.
  - split_and!; [done| |intros x Hx; by rewrite lookup_alter_ne // lookup_insert_ne|].
    + intros x e' [(<- & e0 & E & ->)|(Hne & E)]%lookup_alter_Some.
      * rewrite lookup_insert_eq in E. by simplify_eq.
      * rewrite lookup_insert_ne // in E. by apply (Hr x).
    + by rewrite lookup_alter_eq lookup_insert_eq.
  - split_and!; [done| |intros x Hx; by rewrite lookup_insert_ne|].
    + intros x e' [(<- & <-)|(Hne & E)]%lookup_insert_Some; [done|by apply (Hr x)].
    + by rewrite lookup_insert_eq /= Hk.
Qed.

Lemma decoded_encode gethostbyaddr k h rest :
  key_ok k → host_ok h → h.1 ≠ 2130706433 → h.1 ≠ 2130706689 →
  decoded gethostbyaddr (host_encode k h ++ rest) = h ∧ read_key_from_buffer (host_encode k h ++ rest) = k.
Proof.
  intros Hk [Ha Hp] Hl1 Hl2. split; [|by rewrite /host_encode -app_assoc read_write_key].
  rewrite /decoded /host_encode -!app_assoc !(drop_app_length' (write_key_to_buffer k)) ?length_write_key //.
  rewrite read_write_u32 // (drop_app_length' (write_u32_to_buffer _)) ?length_write_u32 // read_write_u16 //.
  rewrite /network_address (proj2 (Z.eqb_neq _ _) Hl1) (proj2 (Z.eqb_neq _ _) Hl2) /=. by destruct h.
Qed.

(** ** Theorems *)

(** Messages survive the network: what [read_buffer] makes of
    the buffer of a message is the message, for every message the overlay can
    carry, and [message_create] makes only such messages. *)
Theorem message_buffer_roundtrip (msg : bmsg) :
  bmsg_ok msg → read_buffer (message_buffer msg) = Ok msg.
Proof.
  intros (Hd & Hs & Hp & Ht & Hl). destruct msg as [dst src port type payload]; simpl in *.
  assert (length (write_header_to_buffer (Build_bmsg dst src port type payload)) = CHIMERA_HEADER_SIZE) as Hh.
  { by rewrite /write_header_to_buffer /= !length_app !length_write_key // !length_write_u16. }
  rewrite /read_buffer /message_buffer. rewrite (drop_app_length' (write_header_to_buffer _)) //.
  rewrite (proj2 (Z.ltb_ge _ _)); [rewrite zlen_app /zlen Hh; lia|].
  rewrite /write_header_to_buffer /= -!app_assoc.
  rewrite !(drop_app_length' (write_key_to_buffer dst)) ?length_write_key //.
  rewrite !(drop_app_length' (write_key_to_buffer src)) ?length_write_key //.
  rewrite !(drop_app_length' (write_u16_to_buffer port)) ?length_write_u16 //.
  rewrite !(drop_app_length' (write_u16_to_buffer type)) ?length_write_u16 //.
  pose proof (zlen_nonneg payload).
  rewrite !read_write_key // !read_write_u16 // /u16 ?uwrap_small //.
  by rewrite Z.ltb_irrefl ztake_all.
Qed.

Lemma message_buffer_roundtrip_witness :
  read_buffer (message_buffer (message_create (sample_key 1 2 3) (sample_key 4 5 6) 5000 54 3 (str "abc"))) =
    Ok (message_create (sample_key 1 2 3) (sample_key 4 5 6) 5000 54 3 (str "abc")).
Proof.
  apply (message_buffer_roundtrip (message_create (sample_key 1 2 3) (sample_key 4 5 6) 5000 54 3 (str "abc"))).
  apply message_create_ok; apply sample_key_ok; lia.
Defined.

(** A host survives the network too: what was encoded of a host
    whose address is not one of the two loopback addresses decodes, at any
    node, to the host with the same address and port, and that node then
    knows its key unless it has already another one for it. *)
Theorem host_roundtrip gethostbyaddr (k : Key) (h : host_id) f hg rest :
  key_ok k → host_ok h → h.1 ≠ 2130706433 → h.1 ≠ 2130706689 → cache_ok f hg →
  let '(h', hg') := host_decode gethostbyaddr (host_encode k h ++ rest) hg in
  h' = h ∧
  (default zero_key (host_key hg h) = zero_key → host_key hg' h = Some k) ∧
  (∀ k', host_key hg h = Some k' → k' ≠ zero_key → host_key hg' h = Some k') ∧
  (∀ x, x ≠ h → 0 < f x → host_key hg' x = host_key hg x).
Proof.
  intros Hk Hh Hl1 Hl2 Hok. destruct (decoded_encode gethostbyaddr k h rest Hk Hh Hl1 Hl2) as [Hdec Hkey].
  destruct (host_decode_ok gethostbyaddr f (host_encode k h ++ rest) hg Hok) as (_ & _ & _ & G4 & G5).
  pose proof (host_decode_decoded gethostbyaddr (host_encode k h ++ rest) hg) as G6.
  rewrite Hkey in G5. rewrite Hdec in G4, G5, G6. destruct (host_decode _ _ _) as [h' hg']. simpl in *. subst h'.
  split_and!; [done| | |done].
  - intros Hz. by rewrite G5 bool_decide_true.
  - intros k' Hk' Hne. rewrite G5 Hk' /=. by rewrite bool_decide_false.
Qed.

(** The cache of hosts counts exactly: after any balanced sequence
    of [host_get], [host_decode] and [host_release] every host that is
    referred to is in the cache, its count is the number of references held,
    the list of free entries holds exactly the cached hosts nobody refers to,
    the size is the number of entries, and it is beyond the maximum only if
    no entry is free; so no host is freed while it is in use. *)
Theorem host_cache_exact gethostbyaddr ops mx :
  balanced gethostbyaddr ops →
  let hg := foldl (host_step gethostbyaddr) (host_init mx) ops in
  (∀ h, 0 < held gethostbyaddr ops h → ∃ e, hg_hosts hg !! h = Some e ∧ ce_reference e = held gethostbyaddr ops h) ∧
  (∀ h, h ∈ hg_free hg ↔ is_Some (hg_hosts hg !! h) ∧ held gethostbyaddr ops h = 0) ∧
  NoDup (hg_free hg) ∧ hg_size hg = Z.of_nat (size (hg_hosts hg)) ∧ (mx < hg_size hg → hg_free hg = []).
Proof.
  intros Hb. destruct (cache_run_ok gethostbyaddr ops mx Hb) as ([H0 H1 H2 H3 H4 H5] & Hm & Hc).
  split_and!; try done.
  - intros h Hh. destruct (H2 h Hh) as [e He]. exists e. split; [done|by apply H1].
  - intros Hlt. destruct Hc as [Hc|Hc]; [lia|done].
Qed.

Lemma host_cache_exact_witness :
  hg_hosts (foldl (host_step id) (host_init 1) [HGet (10, 1); HGet (11, 1); HRelease (10, 1)]) !! (10, 1) = None ∧
  is_Some (hg_hosts (foldl (host_step id) (host_init 1) [HGet (10, 1); HGet (11, 1); HRelease (10, 1)]) !! (11, 1)).
Proof.
  split; [by vm_compute|].
  destruct (host_cache_exact id [HGet (10, 1); HGet (11, 1); HRelease (10, 1)] 1) as (H & _).
  - intros ops1 h ops2. do 3 (destruct ops1 as [|? ops1]; [by intros [= <- <-]; vm_compute|intros [= <- E]; revert E]).
    by destruct ops1.
  - destruct (H (11, 1)) as (e & He & _); [by vm_compute|]. exists e. exact He.
Defined.
