(* ===== verification/Bidirsam.v ===== *)
(** * The BIDIR-SAM module

    [modules/bidirsam]: an overlay multicast module.  Every node keeps, per
    group, a multicast forwarding table (MFT) of key prefixes behind which
    there are receivers; joins and leaves are flooded along the overlay's
    routing table, data is forwarded once to each host the prefixes lead to.
    [bidirsam_mft.cpp], [bidirsam_instance.cpp] and the handler of
    [bidirsam_module.cpp] are modelled; the overlay (routing table, lookup,
    hash) is a parameter, its keys are those of [ChimeraKey]. *)

From stdpp Require Import sorting.
From S2P Require Import Prelude Uri Serialization ChimeraKey Overlay.

Definition BIDIRSAM_JOIN_MESSAGE : Z := 71.
Definition BIDIRSAM_LEAVE_MESSAGE : Z := 72.
Definition BIDIRSAM_MULTICAST_MESSAGE : Z := 73.
Definition c_default_count : Z := 2.

(** ** Forwarding tables *)

Definition bidirsam_mft := gmap Key Z.

Definition insert_entry (entry : Key) (m : bidirsam_mft) : bidirsam_mft :=
  match m !! entry with
  | Some n => if n <? c_default_count then <[entry := n + 1]> m else m
  | None => <[entry := c_default_count]> m
  end.
Definition delete_entry (k : Key) (m : bidirsam_mft) : bidirsam_mft := delete k m.
Definition decrement_entry (k : Key) (m : bidirsam_mft) : bidirsam_mft :=
  match m !! k with
  | Some n => if n - 1 <=? 0 then delete k m else <[k := n - 1]> m
  | None => m
  end.

Definition lcp_step (k : Key) (acc : Z * Key) (g : Key) : Z * Key :=
  let tmp := key_index_int k g in if acc.1 <=? tmp then (tmp, g) else acc.
Definition get_lcp (k : Key) (m : bidirsam_mft) : Key :=
  (foldl (lcp_step k) (0, zero_key) (keys_in_order m)).2.

(** ** Prefixes *)

(** [p.t[i] = v]. *)
Definition set_word (i : Z) (v : Z) (p : Key) : outcome Key :=
  if (0 <=? i) && (i <? Z.of_nat KEY_ARRAY_SIZE) then Ok (<[Z.to_nat i := v]> p)
  else UB "index out of the words of a key".
Definition clear_below (jump : Z) (p : Key) : Key :=
  (replicate (Z.to_nat jump) 0 ++ drop (Z.to_nat jump) p).

Definition create_prefix_int (k : Key) (len col : Z) : outcome Key :=
  let can_jump := len / m_number_of_digits in
  let jump := Z.of_nat KEY_ARRAY_SIZE - 1 - can_jump in
  let to_move_now := len - can_jump * m_number_of_digits in
  let right_shift := (m_number_of_digits - to_move_now) * BASE_B in
  let w := word k (Z.to_nat jump) in
  match
    (if right_shift =? 32 then
       if (jump <? Z.of_nat KEY_ARRAY_SIZE) && (0 <=? jump) then set_word jump 0 k else Ok k
     else set_word jump (u32 (Z.shiftl (Z.shiftr w right_shift) right_shift)) k)
  with
  | Ok p =>
      let p := clear_below jump p in
      if col =? 0 then Ok p
      else
        let tmp := u32 (Z.shiftl (u32 col) (right_shift - BASE_B)) in
        set_word jump (Z.lor (word p (Z.to_nat jump)) tmp) p
  | r => r
  end.

(** ** The instance *)

(** [m_sent] and [m_received] record what goes to the overlay and to the
    middleware. *)
Record bidirsam := {
  m_mykey : Key;
  m_joined_groups : list Key;
  m_mfts : gmap Key bidirsam_mft;
  m_ref_count : gmap Key Z;
  m_key_cache : gmap bytes Key;
  m_uri_cache : gmap (list Z) uri;
  m_host_cache : gmap Key (Key * Z);
  m_sent : list bmsg;
  m_received : list (bytes * uri)
}.

Definition new_bidirsam (me : Key) : bidirsam :=
  {| m_mykey := me; m_joined_groups := []; m_mfts := ∅; m_ref_count := ∅; m_key_cache := ∅; m_uri_cache := ∅;
     m_host_cache := ∅; m_sent := []; m_received := [] |}.

Definition b_set_groups x b := {| m_mykey := m_mykey b; m_joined_groups := x; m_mfts := m_mfts b;
  m_ref_count := m_ref_count b; m_key_cache := m_key_cache b; m_uri_cache := m_uri_cache b;
  m_host_cache := m_host_cache b; m_sent := m_sent b; m_received := m_received b |}.
Definition b_set_mfts x b := {| m_mykey := m_mykey b; m_joined_groups := m_joined_groups b; m_mfts := x;
  m_ref_count := m_ref_count b; m_key_cache := m_key_cache b; m_uri_cache := m_uri_cache b;
  m_host_cache := m_host_cache b; m_sent := m_sent b; m_received := m_received b |}.
Definition b_set_ref_count x b := {| m_mykey := m_mykey b; m_joined_groups := m_joined_groups b; m_mfts := m_mfts b;
  m_ref_count := x; m_key_cache := m_key_cache b; m_uri_cache := m_uri_cache b;
  m_host_cache := m_host_cache b; m_sent := m_sent b; m_received := m_received b |}.
Definition b_set_caches x y b := {| m_mykey := m_mykey b; m_joined_groups := m_joined_groups b; m_mfts := m_mfts b;
  m_ref_count := m_ref_count b; m_key_cache := x; m_uri_cache := y;
  m_host_cache := m_host_cache b; m_sent := m_sent b; m_received := m_received b |}.
Definition b_set_host_cache x b := {| m_mykey := m_mykey b; m_joined_groups := m_joined_groups b; m_mfts := m_mfts b;
  m_ref_count := m_ref_count b; m_key_cache := m_key_cache b; m_uri_cache := m_uri_cache b;
  m_host_cache := x; m_sent := m_sent b; m_received := m_received b |}.
Definition b_send x b := {| m_mykey := m_mykey b; m_joined_groups := m_joined_groups b; m_mfts := m_mfts b;
  m_ref_count := m_ref_count b; m_key_cache := m_key_cache b; m_uri_cache := m_uri_cache b;
  m_host_cache := m_host_cache b; m_sent := m_sent b ++ [x]; m_received := m_received b |}.
Definition b_receive x b := {| m_mykey := m_mykey b; m_joined_groups := m_joined_groups b; m_mfts := m_mfts b;
  m_ref_count := m_ref_count b; m_key_cache := m_key_cache b; m_uri_cache := m_uri_cache b;
  m_host_cache := m_host_cache b; m_sent := m_sent b; m_received := m_received b ++ [x] |}.

Definition plain_uri_str (u : uri) : bytes :=
  if bool_decide (m_instantiation u = []) then
    m_ham_scheme u ++ m_ham_namespace u ++ str ":" ++ m_group u
  else m_ham_scheme u ++ m_ham_namespace u ++ str ":" ++ m_group u ++ str "@" ++ m_instantiation u.

Section instance.
(** The overlay: its routing table, the host a key is routed to, the hash of
    a name; and the port of the empty URI, which is indeterminate. *)
Context (route_table : list Key) (route_lookup : Key → Key) (key_makehash : bytes → Key) (junk : Z).

Definition port_of (u : uri) : Z := default junk (port_as_int u).

Definition uri_mapping (u : uri) : M bidirsam Key :=
  b ← get;
  let tmp := plain_uri_str u in
  let prt := m_port u in
  let it := if bool_decide (prt = []) then m_key_cache b !! tmp else m_key_cache b !! (tmp ++ str ":" ++ prt) in
  let prti := if bool_decide (prt = []) then 0 else port_of u in
  match it with
  | Some k => mret k
  | None =>
      let k := key_makehash (c_str tmp) in
      modify (λ b, b_set_caches (map_insert tmp k (m_key_cache b)) (map_insert k (uri_of tmp) (m_uri_cache b)) b) ;;
      (if prti =? 0 then mret tt
       else modify (λ b, b_set_caches (map_insert (tmp ++ str ":" ++ prt) k (m_key_cache b))
              (map_insert (k ++ [prti]) (uri_of (tmp ++ str ":" ++ prt)) (m_uri_cache b)) b)) ;;
      mret k
  end.

(** [key_mapping] locks [m_map_mutex], which [uri_mapping] locks again. *)
Definition key_mapping (k : Key) (port : Z) : M bidirsam uri :=
  b ← get;
  match m_uri_cache b !! (if 0 <? port then k ++ [port] else k) with
  | Some u => mret u
  | None =>
      if 0 <? port then
        match m_uri_cache b !! k with
        | Some u => ub "m_map_mutex is locked twice"
        | None => mret uri_default
        end
      else mret uri_default
  end.

Definition create_join_leave_message (me : Key) (u : uri) (destination : Key) (type : Z) (src : Key) : bmsg :=
  let payload := write_key_to_buffer me ++ uri_str u ++ [NUL] in
  message_create destination src (port_of u) type (zlen payload) payload.

Definition prefix_flooding (row : Z) (u : uri) (type : Z) (src : Key) : M bidirsam unit :=
  for_each route_table (λ h,
    b ← get;
    if row <=? key_index_int (m_mykey b) h then
      modify (b_send (create_join_leave_message (m_mykey b) u h type src))
    else mret tt).

Definition join_leave_injection (type : Z) (u : uri) : M bidirsam Z :=
  group_key ← uri_mapping u;
  b ← get;
  (if existsb (key_equal group_key) (m_joined_groups b) then
     if type =? BIDIRSAM_LEAVE_MESSAGE then
       modify (b_set_groups (match list_find (λ g, key_equal g group_key = true) (m_joined_groups b) with
                             | Some (i, _) => delete i (m_joined_groups b)
                             | None => m_joined_groups b
                             end))
     else mret tt
   else if type =? BIDIRSAM_JOIN_MESSAGE then modify (b_set_groups (m_joined_groups b ++ [group_key]))
   else mret tt) ;;
  match m_mfts b !! group_key with
  | None =>
      modify (b_set_mfts (<[group_key := ∅]> (m_mfts b))) ;;
      prefix_flooding 0 u type (m_mykey b) ;;
      mret 0
  | Some mft =>
      let k := get_lcp (m_mykey b) mft in
      if key_equal (m_mykey b) k then mret (-1)
      else
        prefix_flooding (key_index_int (m_mykey b) k) u type (m_mykey b) ;;
        mret 0
  end.

Definition join (u : uri) : M bidirsam Z := join_leave_injection BIDIRSAM_JOIN_MESSAGE u.
Definition leave (u : uri) : M bidirsam Z := join_leave_injection BIDIRSAM_LEAVE_MESSAGE u.

Definition add_prefix_ref_to_cache (prefix : Key) : M bidirsam unit :=
  modify (λ b, b_set_ref_count (match m_ref_count b !! prefix with
    | Some n => <[prefix := n + 1]> (m_ref_count b)
    | None => <[prefix := 0]> (m_ref_count b)
    end) b).
Definition remove_prefix_ref_to_cache (prefix : Key) : M bidirsam unit :=
  modify (λ b, b_set_ref_count (match m_ref_count b !! prefix with
    | Some n => if n - 1 <? 1 then delete prefix (m_ref_count b) else <[prefix := n - 1]> (m_ref_count b)
    | None => m_ref_count b
    end) b).

Definition lift {A} (r : outcome A) : M bidirsam A := λ b, (r, b).

Definition join_leave_processing (msg : bmsg) : M bidirsam unit :=
  b ← get;
  let lcp := key_index (m_mykey b) (bm_src msg) in
  prefix ← lift (create_prefix_int (bm_src msg) (lcp + 1) 0);
  (if zlen (bm_payload msg) <? 12 then ub "key behind the end of a message" else mret tt) ;;
  let msg_source := read_key_from_buffer (bm_payload msg) in
  let u := uri_of (c_str (zdrop 12 (bm_payload msg))) in
  group_key ← uri_mapping u;
  b ← get;
  (if bm_type msg =? BIDIRSAM_LEAVE_MESSAGE then
     match m_mfts b !! group_key with
     | Some mft =>
         modify (b_set_mfts (<[group_key := delete_entry prefix mft]> (m_mfts b))) ;;
         remove_prefix_ref_to_cache prefix
     | None => mret tt
     end
   else if bm_type msg =? BIDIRSAM_JOIN_MESSAGE then
     modify (b_set_mfts (<[group_key := insert_entry prefix (default ∅ (m_mfts b !! group_key))]> (m_mfts b))) ;;
     add_prefix_ref_to_cache prefix
   else mret tt) ;;
  prefix_flooding (key_index_int (m_mykey b) msg_source + 1) u (bm_type msg) (bm_src msg).

(** ** Data *)

Definition create_multicast_message (payload : bytes) (lcp : Z) (group_key destination : Key) (u : uri) : bmsg :=
  let send_data := le_bytes 4 lcp ++ payload in
  message_create destination group_key (port_of u) BIDIRSAM_MULTICAST_MESSAGE (zlen send_data) send_data.

(** One prefix of the table: [index] and the hosts that got a copy are kept
    from prefix to prefix.  Hosts are identified by their keys. *)
Definition forward_one (lcp : Z) (payload : bytes) (u : uri) (group_key : Key)
    (acc : Z * list Key) (entry : Key) : M bidirsam (Z * list Key) :=
  b ← get;
  let '(index, used_hosts) := acc in
  p ← (match m_host_cache b !! entry with
       | Some (host, index) => mret (host, index)
       | None =>
           let host := route_lookup entry in
           if key_equal (m_mykey b) host then mret (host, index)
           else
             let index := key_index_int (m_mykey b) host in
             modify (b_set_host_cache (<[entry := (host, index)]> (m_host_cache b))) ;;
             mret (host, index)
       end);
  let '(host, index) := p in
  if (lcp <=? index) && negb (existsb (key_equal host) used_hosts) then
    modify (b_send (create_multicast_message payload (u32 (index + 1)) group_key host u)) ;;
    mret (index, used_hosts ++ [host])
  else mret (index, used_hosts).

Fixpoint forward_all (lcp : Z) (payload : bytes) (u : uri) (group_key : Key) (acc : Z * list Key)
    (entries : list Key) : M bidirsam unit :=
  match entries with
  | [] => mret tt
  | e :: es => acc' ← forward_one lcp payload u group_key acc e; forward_all lcp payload u group_key acc' es
  end.

Definition forward_multicast_data (lcp : Z) (payload : bytes) (u : uri) (group_key : Key) : M bidirsam Z :=
  b ← get;
  match m_mfts b !! group_key with
  | Some mft => forward_all lcp payload u group_key (0, []) (keys_in_order mft) ;; mret 0
  | None => mret 0
  end.

Definition send (u : uri) (payload : bytes) : M bidirsam Z :=
  group_key ← uri_mapping u;
  forward_multicast_data 0 payload u group_key.

Definition deliver_multicast_data (msg : bmsg) : M bidirsam unit :=
  (if zlen (bm_payload msg) <? 4 then ub "row behind the end of a message" else mret tt) ;;
  let row := le_value (ztake 4 (bm_payload msg)) in
  b ← get;
  match m_uri_cache b !! (bm_src msg ++ [bm_port msg]) with
  | None => mret tt
  | Some group_uri =>
      (if existsb (key_equal (bm_src msg)) (m_joined_groups b) then
         modify (b_receive (zdrop 4 (bm_payload msg), group_uri))
       else mret tt) ;;
      forward_multicast_data row (zdrop 4 (bm_payload msg)) group_uri (bm_src msg) ;;
      mret tt
  end.

(** [bidirsam_deliver_handler]. *)
Definition bidirsam_deliver_handler (msg : bmsg) : M bidirsam unit :=
  if (bm_type msg =? BIDIRSAM_LEAVE_MESSAGE) || (bm_type msg =? BIDIRSAM_JOIN_MESSAGE) then join_leave_processing msg
  else if bm_type msg =? BIDIRSAM_MULTICAST_MESSAGE then deliver_multicast_data msg
  else mret tt.

(** ** Queries *)

Definition neighbor_set (leafset : list Key) : list uri :=
  (λ k, uri_of (str "bidir://" ++ key_to_string k)) <$> leafset.

(** The module maps a name to itself and knows no parents. *)
Definition map_uri (u : uri) : uri := u.
Definition parent_set (u : uri) : list uri := [].

Definition designated_host (u : uri) : M bidirsam Z :=
  group_key ← uri_mapping u;
  b ← get;
  mret (if bool_decide (is_Some (m_mfts b !! group_key)) then 1 else 0).

Definition children_set (u : uri) : M bidirsam (list uri) :=
  group_key ← uri_mapping u;
  b ← get;
  mret (match m_mfts b !! group_key with
        | Some mft => (λ k, uri_of (str "bidir://" ++ key_to_string k)) <$> keys_in_order mft
        | None => []
        end).

Fixpoint group_set_loop (groups : list Key) : M bidirsam (list (uri * Z)) :=
  match groups with
  | [] => mret []
  | g :: gs =>
      b ← get;
      group_uri ← key_mapping g 0;
      rest ← group_set_loop gs;
      mret (if uri_empty group_uri then rest
            else
              (group_uri,
               if existsb (key_equal g) (m_joined_groups b) then
                 if bool_decide (m_mfts b !! g = Some ∅) then HC_LISTENER_STATE else HC_SENDER_AND_LISTENER_STATE
               else HC_SENDER_STATE) :: rest)
  end.
Definition group_set : M bidirsam (list (uri * Z)) := b ← get; group_set_loop (keys_in_order (m_mfts b)).

(** ** Maintenance *)

Definition send_rejoin : M bidirsam unit :=
  b ← get;
  for_each (m_joined_groups b) (λ g,
    target_group_uri ← key_mapping g 0;
    prefix_flooding 0 target_group_uri BIDIRSAM_JOIN_MESSAGE (m_mykey b)).

(** The loop over a table increments its iterator after [decrement_entry],
    which may have erased the element the iterator points to. *)
Fixpoint decrement_all (entries : list Key) (mft : bidirsam_mft) : outcome bidirsam_mft :=
  match entries with
  | [] => Ok mft
  | k :: ks =>
      let mft' := decrement_entry k mft in
      match mft' !! k with
      | Some _ => decrement_all ks mft'
      | None => UB "increment of an iterator to an erased element"
      end
  end.
Definition mft_maintenance : M bidirsam unit :=
  b ← get;
  for_each (keys_in_order (m_mfts b)) (λ g,
    b ← get;
    match m_mfts b !! g with
    | Some mft =>
        mft' ← lift (decrement_all (keys_in_order mft) mft);
        modify (b_set_mfts (<[g := mft']> (m_mfts b)))
    | None => mret tt
    end).

(** One round of [maintenance]. *)
Definition maintenance : M bidirsam unit := send_rejoin ;; mft_maintenance.
End instance.

(** ** Prefixes of keys *)

Lemma value3 a b c : key_value [a; b; c] = a + 2 ^ 32 * b + 2 ^ 64 * c.
Proof. rewrite /key_value /KEY_ARRAY_SIZE /value /word. cbn [lookup list_lookup from_option]. change (2 ^ (32 * Z.of_nat 0)) with 1.
  change (32 * Z.of_nat 1) with 32. change (32 * Z.of_nat 2) with 64. simpl. lia. Qed.

Lemma truncate_word w r :
  0 <= w < 2 ^ 32 → 0 < r <= 16 →
  u32 (Z.shiftl (Z.shiftr w ((16 - r) * 2)) ((16 - r) * 2)) = w / 4 ^ (16 - r) * 4 ^ (16 - r).
Proof.
  intros Hw Hr. rewrite Z.shiftr_div_pow2; [lia|]. rewrite Z.shiftl_mul_pow2; [lia|].
  rewrite (pow4 (16 - r)); [lia|]. rewrite (Z.mul_comm 2).
  set (e := (16 - r) * 2). assert (0 < 2 ^ e) by (apply Z.pow_pos_nonneg; lia).
  pose proof (Z.mul_div_le w (2 ^ e) ltac:(lia)). pose proof (Z.div_pos w (2 ^ e) ltac:(lia) ltac:(lia)).
  rewrite /u32 uwrap_small //. rewrite /fits. nia.
Qed.

Lemma create_prefix_eq k q r :
  key_ok k → 0 <= q <= 2 → 0 <= r < 16 →
  create_prefix_int k (16 * q + r) 0 =
    Ok (clear_below (2 - q)
      (<[Z.to_nat (2 - q) := word k (Z.to_nat (2 - q)) / 4 ^ (16 - r) * 4 ^ (16 - r)]> k)).
Proof.
  intros Hk Hq Hr. rewrite /create_prefix_int. change m_number_of_digits with 16. change BASE_B with 2.
  change (Z.of_nat KEY_ARRAY_SIZE) with 3.
  assert ((16 * q + r) / 16 = q) as -> by (symmetry; apply (Z.div_unique _ _ _ r); lia).
  replace (16 * q + r - q * 16) with r by lia. replace (3 - 1 - q) with (2 - q) by lia.
  pose proof (key_ok_word k (Z.to_nat (2 - q)) Hk) as Hw. rewrite /set_word.
  rewrite (proj2 (Z.leb_le 0 (2 - q))); [lia|]. change (Z.of_nat KEY_ARRAY_SIZE) with 3.
  rewrite (proj2 (Z.ltb_lt (2 - q) 3)); [lia|]. cbn [andb].
  destruct (Z.eqb_spec ((16 - r) * 2) 32) as [E|E].
  - assert (r = 0) as -> by lia. rewrite Z.sub_0_r. change (4 ^ 16) with (2 ^ 32). by rewrite Z.div_small.
  - rewrite truncate_word; [done|lia|done].
Qed.

Lemma truncated_bound w r : 0 <= w < 2 ^ 32 → 0 <= r < 16 → 0 <= w / 4 ^ (16 - r) * 4 ^ (16 - r) < 2 ^ 32.
Proof.
  intros Hw Hr. assert (0 < 4 ^ (16 - r)) by (apply Z.pow_pos_nonneg; lia).
  pose proof (Z.mul_div_le w (4 ^ (16 - r)) ltac:(lia)). pose proof (Z.div_pos w (4 ^ (16 - r)) ltac:(lia) ltac:(lia)). nia.
Qed.

(** The first [len] digits stay, the others become zero. *)
Lemma create_prefix_spec k len :
  key_ok k → 0 <= len <= 48 →
  ∃ p, create_prefix_int k len 0 = Ok p ∧ key_ok p ∧
    key_value p = key_value k / 4 ^ (48 - len) * 4 ^ (48 - len).
Proof.
  intros Hk Hlen. destruct (decide (len = 48)) as [->|Hne].
  { exists k. split; [|split; [done|by rewrite Z.sub_diag Z.pow_0_r Z.div_1_r Z.mul_1_r]]. done. }
  assert (len = 16 * (len / 16) + len mod 16) as Hdiv by (apply Z.div_mod; lia).
  pose proof (Z.mod_pos_bound len 16 ltac:(lia)) as Hm.
  set (q := len / 16) in *. set (r := len mod 16) in *. clearbody q r. subst len.
  rewrite create_prefix_eq; [done|lia|lia|]. eexists. split; [done|].
  pose proof Hk as [Hl Hw]. destruct k as [|a [|b [|c [|]]]]; try done. clear Hl.
  rewrite !Forall_cons in Hw. destruct Hw as (Ha & Hb & Hc & _).
  pose proof (truncated_bound a r Ha Hm) as Ta. pose proof (truncated_bound b r Hb Hm) as Tb.
  pose proof (truncated_bound c r Hc Hm) as Tc.
  assert (∀ n, key_value [a; b; c] / 4 ^ (48 - n) = prefix 3 n [a; b; c]) as Hp by done. rewrite Hp.
  assert (q = 0 ∨ q = 1 ∨ q = 2) as [->|[->| ->]] by lia.
  - rewrite prefix_high; [done|lia|]. rewrite (_ : 4 ^ (48 - (16 * 0 + r)) = 4 ^ (16 - r) * 2 ^ 64).
    { change (2 ^ 64) with (4 ^ 32). rewrite -Z.pow_add_r; [lia..|]. f_equal. lia. }
    split; [split; [done|]; by repeat (constructor; [done || exact Tc|])|].
    change (clear_below _ _) with [0; 0; c / 4 ^ (16 - r) * 4 ^ (16 - r)]. rewrite value3. change (word _ 2) with c. 
    replace (16 * 0 + r) with r by lia. lia.
  - rewrite prefix_low; [lia|]. replace (16 * 1 + r - 16) with r by lia.
    rewrite prefix_high; [done|lia|]. rewrite (_ : 4 ^ (48 - (16 * 1 + r)) = 4 ^ (16 - r) * 2 ^ 32).
    { change (2 ^ 32) with (4 ^ 16). rewrite -Z.pow_add_r; [lia..|]. f_equal. lia. }
    split; [split; [done|]; by repeat (constructor; [done || exact Tb|])|].
    change (clear_below _ _) with [0; b / 4 ^ (16 - r) * 4 ^ (16 - r); c]. rewrite value3.
    change (word _ 2) with c. change (word _ 1) with b.
    assert (4 ^ r * 4 ^ (16 - r) = 2 ^ 32) as E.
    { change (2 ^ 32) with (4 ^ 16). rewrite -Z.pow_add_r; [lia..|]. f_equal. lia. }
    change (2 ^ 64) with (2 ^ 32 * 2 ^ 32). rewrite -{2}E. lia.
  - rewrite prefix_low; [lia|]. rewrite prefix_low; [lia|]. replace (16 * 2 + r - 16 - 16) with r by lia.
    rewrite prefix_high; [done|lia|]. replace (48 - (16 * 2 + r)) with (16 - r) by lia.
    split; [split; [done|]; by repeat (constructor; [done || exact Ta|])|].
    change (clear_below _ _) with [a / 4 ^ (16 - r) * 4 ^ (16 - r); b; c]. rewrite value3.
    change (word _ 2) with c. change (word _ 1) with b. change (word _ 0) with a.
    assert (4 ^ r * 4 ^ (16 - r) = 2 ^ 32) as E.
    { change (2 ^ 32) with (4 ^ 16). rewrite -Z.pow_add_r; [lia..|]. f_equal. lia. }
    assert (4 ^ (16 * 2 + r - 16) * 4 ^ (16 - r) = 2 ^ 64) as E2.
    { change (2 ^ 64) with (4 ^ 32). rewrite -Z.pow_add_r; [lia..|]. f_equal. lia. }
    rewrite -E -E2. lia.
Qed.

(** ** The longest prefix *)

Lemma lcp_fold k l acc :
  let r := foldl (lcp_step k) acc l in
  acc.1 <= r.1 ∧ (∀ g, g ∈ l → key_index_int k g <= r.1) ∧
  (r = acc ∨ r.2 ∈ l ∧ r.1 = key_index_int k r.2).
Proof.
  revert acc. induction l as [|g l IH]; intros acc; simpl; [split_and!; [lia|by intros ? ?%not_elem_of_nil|by left]|].
  destruct (IH (lcp_step k acc g)) as (H1 & H2 & H3). set (r := foldl _ _ _) in *.
  assert (acc.1 <= (lcp_step k acc g).1 ∧ key_index_int k g <= (lcp_step k acc g).1 ∧
    (lcp_step k acc g = acc ∨ lcp_step k acc g = (key_index_int k g, g))) as (G1 & G2 & G3).
  { rewrite /lcp_step. destruct (Z.leb_spec acc.1 (key_index_int k g)); simpl; split_and!; try lia; auto. }
  split_and!; [lia| |].
  - intros h [->|Hh]%elem_of_cons; [lia|by apply H2].
  - destruct H3 as [->|[H3 H4]]; [|right; split; [by right|done]].
    destruct G3 as [->| ->]; [by left|]. right. split; [by left|done].
Qed.

(** ** The invariant of an instance *)

Section invariant.
Context (route_table : list Key) (route_lookup : Key → Key) (key_makehash : bytes → Key) (junk : Z).
Context (hash_ok : ∀ s, length (key_makehash s) = KEY_ARRAY_SIZE).

(** What the vectors of the URI cache look like: a key, or a key and a port
    that is not zero. *)
Definition cache_key_ok (v : list Z) : Prop :=
  length v = KEY_ARRAY_SIZE ∨ ∃ k p, v = k ++ [p] ∧ length k = KEY_ARRAY_SIZE ∧ p ≠ 0.

Record binv (b : bidirsam) : Prop := {
  bi_counts g mft k n : m_mfts b !! g = Some mft → mft !! k = Some n → 1 <= n <= c_default_count;
  bi_groups : NoDup (m_joined_groups b);
  bi_uris v u : m_uri_cache b !! v = Some u → u = uri_default ∧ cache_key_ok v;
  bi_received : Forall (λ r, r.2 = uri_default) (m_received b)
}.

Definition pres {A} (m : M bidirsam A) : Prop := ∀ b, binv b → binv (m b).2.

Lemma pres_ret {A} (x : A) : pres (mret x).
Proof. by intros b Hb. Qed.
Lemma pres_bind {A B} (m : M bidirsam A) (k : A → M bidirsam B) : pres m → (∀ x, pres (k x)) → pres (m ≫= k).
Proof.
  intros Hm Hk b Hb. rewrite /mbind /M_bind. pose proof (Hm b Hb) as G. destruct (m b) as [[x|e|w] b1]; [|done..].
  by apply Hk.
Qed.
Lemma pres_get {A} (k : bidirsam → M bidirsam A) : (∀ b, binv b → pres (k b)) → pres (get ≫= k).
Proof. intros Hk b Hb. apply Hk; done. Qed.
Lemma pres_modify f : (∀ b, binv b → binv (f b)) → pres (modify f).
Proof. intros Hf b Hb. by apply Hf. Qed.
Lemma pres_lift {A B} (r : outcome A) (k : A → M bidirsam B) :
  (∀ x, r = Ok x → pres (k x)) → pres (lift r ≫= k).
Proof. intros Hk b Hb. rewrite /mbind /M_bind /lift. destruct r as [x|e|w]; [by apply Hk|done..]. Qed.
Lemma pres_ub {A} w : pres (ub w : M bidirsam A).
Proof. by intros b Hb. Qed.
Lemma pres_for_each {A} (l : list A) body : (∀ x, pres (body x)) → pres (for_each l body).
Proof. intros Hb. induction l; simpl; [apply pres_ret|by apply pres_bind]. Qed.

Lemma binv_frame b b' :
  binv b → m_mfts b' = m_mfts b → m_joined_groups b' = m_joined_groups b → m_uri_cache b' = m_uri_cache b →
  m_received b' = m_received b → binv b'.
Proof. intros [H1 H2 H3 H4] E1 E2 E3 E4. split; rewrite ?E1 ?E2 ?E3 ?E4; done. Qed.

Lemma binv_mft b g mft :
  binv b → (∀ k n, mft !! k = Some n → 1 <= n <= c_default_count) → binv (b_set_mfts (<[g := mft]> (m_mfts b)) b).
Proof.
  intros [H1 H2 H3 H4] Hm. split; simpl; try done.
  intros g' mft' k n [(<- & <-)|(_ & Hg)]%lookup_insert_Some Hn; [by eapply Hm|by eapply H1].
Qed.

(** No name the module builds is a URI: the separator behind the scheme is
    missing. *)
Lemma plain_uri_str_empty s rest : uri_of (plain_uri_str (uri_of s) ++ rest) = uri_default.
Proof.
  assert (∃ tail, plain_uri_str (uri_of s) ++ rest =
    (m_ham_scheme (uri_of s) ++ m_ham_namespace (uri_of s)) ++ ":"%char :: tail) as [tail ->].
  { rewrite /plain_uri_str. case_bool_decide; eexists; rewrite -!app_assoc /=; done. }
  apply uri_of_other_scheme; destruct (uri_of_scheme s) as [->|(-> & Hn & Hf)]; try done.
  - constructor.
  - apply Forall_app. split; [|done]. apply (bool_decide_unpack _). by vm_compute.
  - rewrite fmap_app. intros E. apply (f_equal length) in E. rewrite length_app !length_fmap /= in E.
    destruct (m_ham_namespace (uri_of s)); [done|]. simpl in E. lia.
Qed.

Lemma binv_cache b x v u :
  binv b → u = uri_default → cache_key_ok v → binv (b_set_caches x (map_insert v u (m_uri_cache b)) b).
Proof.
  intros [H1 H2 H3 H4] Hu Hv. split; simpl; try done.
  intros v' u' [(-> & ->)|E]%map_insert_Some; [done|by apply H3].
Qed.

Lemma pres_uri_mapping s : pres (uri_mapping key_makehash junk (uri_of s)).
Proof.
  rewrite /uri_mapping. apply pres_get. intros b0 Hb0.
  destruct (if bool_decide _ then _ else _) as [k|]; [apply pres_ret|].
  apply pres_bind; [|intros _; apply pres_bind; [|intros _; apply pres_ret]].
  - apply pres_modify. intros b Hb. apply binv_cache; [done| |by left].
    rewrite -(app_nil_r (plain_uri_str _)). apply plain_uri_str_empty.
  - destruct (Z.eqb_spec (if bool_decide (m_port (uri_of s) = []) then 0 else port_of junk (uri_of s)) 0) as [|Hp];
      [apply pres_ret|].
    apply pres_modify. intros b Hb. apply binv_cache; [done| |].
    + apply plain_uri_str_empty.
    + right. eauto.
Qed.

Lemma pres_key_mapping k port : pres (key_mapping k port).
Proof. rewrite /key_mapping. apply pres_get. intros b Hb. repeat case_match; apply pres_ret || apply pres_ub. Qed.

Lemma pres_flooding row u type src : pres (prefix_flooding route_table junk row u type src).
Proof.
  apply pres_for_each. intros h. apply pres_get. intros b0 Hb0. case_match; [|apply pres_ret].
  apply pres_modify. intros b Hb. by eapply binv_frame.
Qed.

Lemma binv_groups b x : binv b → NoDup x → binv (b_set_groups x b).
Proof. by intros [H1 H2 H3 H4] Hx. Qed.

Lemma pres_injection type s : pres (join_leave_injection route_table key_makehash junk type (uri_of s)).
Proof.
  apply pres_bind; [apply pres_uri_mapping|]. intros g. apply pres_get. intros b0 Hb0. apply pres_bind.
  - destruct (existsb _ _) eqn:He; (case_match; [|apply pres_ret]); apply pres_modify; intros b Hb; apply binv_groups;
      try done.
    + destruct (list_find _ _) as [[i x]|]; [|apply (bi_groups b0 Hb0)].
      eapply sublist_NoDup; [apply (bi_groups b0 Hb0)|apply sublist_delete].
    + apply NoDup_app. split_and!; [apply (bi_groups b0 Hb0)| |apply NoDup_singleton].
      intros x Hx ->%list_elem_of_singleton. by apply existsb_key_equal in He.
  - intros _. case_match.
    + cbn zeta. case_match; [apply pres_ret|]. apply pres_bind; [apply pres_flooding|]. intros _. apply pres_ret.
    + apply pres_bind; [|intros _; apply pres_bind; [apply pres_flooding|intros _; apply pres_ret]].
      apply pres_modify. intros b Hb. split; simpl; try apply Hb.
      intros g' mft' k n [(<- & <-)|(_ & Hg)]%lookup_insert_Some Hn; [by rewrite lookup_empty in Hn|by eapply (bi_counts b0)].
Qed.

Lemma insert_entry_count k mft :
  (∀ j n, mft !! j = Some n → 1 <= n <= c_default_count) →
  ∀ j n, insert_entry k mft !! j = Some n → 1 <= n <= c_default_count.
Proof.
  intros Hm j n. rewrite /insert_entry. change c_default_count with 2 in *.
  destruct (mft !! k) as [m|] eqn:E; [destruct (Z.ltb_spec m 2)|].
  - intros [(<- & <-)|(_ & Hj)]%lookup_insert_Some; [|by eapply Hm]. specialize (Hm k m E). lia.
  - apply Hm.
  - intros [(<- & <-)|(_ & Hj)]%lookup_insert_Some; [lia|by eapply Hm].
Qed.

Lemma pres_set_mft b0 g mft :
  binv b0 → (∀ k n, mft !! k = Some n → 1 <= n <= c_default_count) →
  pres (modify (b_set_mfts (<[g := mft]> (m_mfts b0)))).
Proof.
  intros Hb0 Hm. apply pres_modify. intros b Hb. split; simpl; try apply Hb.
  intros g' mft' k n [(<- & <-)|(_ & Hg)]%lookup_insert_Some Hn; [by eapply Hm|by eapply (bi_counts b0)].
Qed.

Lemma pres_processing msg : pres (join_leave_processing route_table key_makehash junk msg).
Proof.
  apply pres_get. intros b0 Hb0. apply pres_lift. intros p _.
  apply pres_bind; [case_match; apply pres_ub || apply pres_ret|]. intros _.
  apply pres_bind; [apply pres_uri_mapping|]. intros g. apply pres_get. intros b1 Hb1.
  apply pres_bind; [|intros _; apply pres_flooding].
  case_match; [case_match; [|apply pres_ret]|case_match; [|apply pres_ret]];
    (apply pres_bind; [apply pres_set_mft; [done|]|intros _; apply pres_modify; intros b2 Hb2; by eapply binv_frame]).
  - rewrite /delete_entry. intros k n [_ Hk]%lookup_delete_Some. by eapply (bi_counts b1).
  - apply insert_entry_count. destruct (m_mfts b1 !! g) eqn:Hg; [by intros; eapply (bi_counts b1)|done].
Qed.

Lemma pres_forward_one lcp payload u gk acc e : pres (forward_one route_lookup junk lcp payload u gk acc e).
Proof.
  apply pres_get. intros b0 Hb0. destruct acc as [index used]. apply pres_bind.
  - destruct (m_host_cache b0 !! e) as [[h i]|]; [apply pres_ret|]. cbn zeta. case_match; [apply pres_ret|].
    apply pres_bind; [|intros; apply pres_ret]. apply pres_modify. intros b Hb. by eapply binv_frame.
  - intros [host index']. case_match; [|apply pres_ret].
    apply pres_bind; [|intros; apply pres_ret]. apply pres_modify. intros b Hb. by eapply binv_frame.
Qed.

Lemma pres_forward lcp payload u gk : pres (forward_multicast_data route_lookup junk lcp payload u gk).
Proof.
  apply pres_get. intros b0 Hb0. case_match; [|apply pres_ret]. apply pres_bind; [|intros; apply pres_ret].
  generalize (0, @nil Key) as acc. induction (keys_in_order _) as [|e es IH]; intros acc; simpl; [apply pres_ret|].
  apply pres_bind; [apply pres_forward_one|]. intros acc'. apply IH.
Qed.

Lemma pres_deliver msg : pres (deliver_multicast_data route_lookup junk msg).
Proof.
  apply pres_bind; [case_match; apply pres_ub || apply pres_ret|]. intros _. apply pres_get. intros b0 Hb0.
  case_match eqn:Hu; [|apply pres_ret]. apply (bi_uris b0 Hb0) in Hu as [-> _].
  apply pres_bind; [|intros _; apply pres_bind; [apply pres_forward|intros; apply pres_ret]].
  case_match; [|apply pres_ret]. apply pres_modify. intros b [H1 H2 H3 H4]. split; simpl; try done.
  apply Forall_app. split; [done|]. by constructor.
Qed.

Lemma pres_handler msg : pres (bidirsam_deliver_handler route_table route_lookup key_makehash junk msg).
Proof.
  rewrite /bidirsam_deliver_handler. case_match; [apply pres_processing|].
  case_match; [apply pres_deliver|apply pres_ret].
Qed.

Lemma decrement_entry_count k mft :
  (∀ j n, mft !! j = Some n → 1 <= n <= c_default_count) →
  ∀ j n, decrement_entry k mft !! j = Some n → 1 <= n <= c_default_count.
Proof.
  intros Hm j n. rewrite /decrement_entry. change c_default_count with 2 in *.
  destruct (mft !! k) as [m|] eqn:E; [destruct (Z.leb_spec (m - 1) 0)|by apply Hm].
  - intros [_ Hj]%lookup_delete_Some. by eapply Hm.
  - intros [(<- & <-)|(_ & Hj)]%lookup_insert_Some; [|by eapply Hm]. specialize (Hm k m E). lia.
Qed.

Lemma decrement_all_count l mft mft' :
  (∀ j n, mft !! j = Some n → 1 <= n <= c_default_count) → decrement_all l mft = Ok mft' →
  ∀ j n, mft' !! j = Some n → 1 <= n <= c_default_count.
Proof.
  revert mft. induction l as [|k l IH]; intros mft Hm; simpl; [by intros [= <-]|].
  destruct (decrement_entry k mft !! k) eqn:E; [|done]. apply IH. by apply decrement_entry_count.
Qed.

Lemma pres_maintenance : pres (maintenance route_table junk).
Proof.
  apply pres_bind; [|intros _].
  - apply pres_get. intros b0 Hb0. apply pres_for_each. intros g. apply pres_bind; [apply pres_key_mapping|].
    intros u. apply pres_flooding.
  - apply pres_get. intros b0 Hb0. apply pres_for_each. intros g. apply pres_get. intros b1 Hb1.
    destruct (m_mfts b1 !! g) as [mft|] eqn:Hg; [|apply pres_ret].
    apply pres_lift. intros mft' Hd. apply pres_set_mft; [done|].
    eapply decrement_all_count; [|exact Hd]. intros. by eapply (bi_counts b1).
Qed.

(** ** Runs *)

Inductive bop :=
  | op_join (s : bytes) | op_leave (s : bytes) | op_send (s payload : bytes) | op_message (msg : bmsg)
  | op_designated (s : bytes) | op_children (s : bytes) | op_maintenance.

Definition run_bop (op : bop) : M bidirsam unit :=
  match op with
  | op_join s => join route_table key_makehash junk (uri_of s) ;; mret tt
  | op_leave s => leave route_table key_makehash junk (uri_of s) ;; mret tt
  | op_send s payload => send route_lookup key_makehash junk (uri_of s) payload ;; mret tt
  | op_message msg => bidirsam_deliver_handler route_table route_lookup key_makehash junk msg
  | op_designated s => designated_host key_makehash junk (uri_of s) ;; mret tt
  | op_children s => children_set key_makehash junk (uri_of s) ;; mret tt
  | op_maintenance => maintenance route_table junk
  end.

(** A history; it ends at the first operation that does not complete. *)
Definition bruns (ops : list bop) : M bidirsam unit := for_each ops run_bop.

Lemma pres_run_bop op : pres (run_bop op).
Proof.
  destruct op; simpl; try (apply pres_bind; [|intros; apply pres_ret]).
  - apply pres_injection.
  - apply pres_injection.
  - apply pres_bind; [apply pres_uri_mapping|]. intros g. apply pres_forward.
  - apply pres_handler.
  - apply pres_bind; [apply pres_uri_mapping|]. intros g. apply pres_get. intros b Hb. apply pres_ret.
  - apply pres_bind; [apply pres_uri_mapping|]. intros g. apply pres_get. intros b Hb. apply pres_ret.
  - apply pres_maintenance.
Qed.

Lemma binv_new me : binv (new_bidirsam me).
Proof. split; simpl; try done; constructor. Qed.

Lemma binv_runs ops me b : bruns ops (new_bidirsam me) = (Ok tt, b) → binv b.
Proof.
  intros E. pose proof (pres_for_each ops run_bop pres_run_bop _ (binv_new me)) as Hb.
  rewrite -/(bruns ops) E in Hb. exact Hb.
Qed.

(** ** Maintenance *)

Lemma decrement_all_ok l (mft : bidirsam_mft) :
  NoDup l → (∀ k, k ∈ l → mft !! k = Some 2) →
  ∃ mft', decrement_all l mft = Ok mft' ∧ ∀ k, mft' !! k = if bool_decide (k ∈ l) then Some 1 else mft !! k.
Proof.
  clear route_table route_lookup key_makehash junk hash_ok.
  revert mft. induction l as [|k l IH]; intros mft Hnd Hl.
  { exists mft. split; [done|]. intros k. case_bool_decide as Hk; [by apply not_elem_of_nil in Hk|done]. }
  apply NoDup_cons in Hnd as [Hk Hnd]. simpl. rewrite /decrement_entry (Hl k ltac:(by left)). simpl.
  rewrite lookup_insert_eq. destruct (IH (<[k := 2 - 1]> mft)) as (mft' & E & Hmft'); [done| |].
  { intros j Hj. rewrite lookup_insert_ne; [by intros ->|]. apply Hl. by right. }
  exists mft'. split; [done|]. intros j. rewrite Hmft'. destruct (decide (j = k)) as [->|Hne].
  - rewrite bool_decide_false // lookup_insert_eq bool_decide_true //. by left.
  - rewrite lookup_insert_ne //. rewrite (bool_decide_ext (j ∈ k :: l) (j ∈ l)) //. rewrite elem_of_cons. naive_solver.
Qed.

Lemma decrement_all_ub l (mft : bidirsam_mft) k :
  NoDup l → (∀ j, j ∈ l → mft !! j = Some 1 ∨ mft !! j = Some 2) → k ∈ l → mft !! k = Some 1 →
  ∃ w, decrement_all l mft = UB w.
Proof.
  revert mft. induction l as [|g l IH]; intros mft Hnd Hl Hk Hone; simpl; [by apply not_elem_of_nil in Hk|].
  apply NoDup_cons in Hnd as [Hg Hnd]. rewrite /decrement_entry.
  destruct (Hl g ltac:(by left)) as [E|E]; rewrite E; simpl.
  - rewrite lookup_delete_eq. eauto.
  - rewrite lookup_insert_eq. assert (k ≠ g) as Hne by congruence.
    apply elem_of_cons in Hk as [->|Hk]; [done|]. apply IH; [done| |done|by rewrite lookup_insert_ne].
    intros j Hj. rewrite lookup_insert_ne; [by intros ->|]. apply Hl. by right.
Qed.

Definition expiring (mft : bidirsam_mft) : Prop := ∃ k, mft !! k = Some 1.

Definition maintain_group (g : Key) : M bidirsam unit :=
  b ← get;
  match m_mfts b !! g with
  | Some mft =>
      mft' ← lift (decrement_all (keys_in_order mft) mft);
      modify (b_set_mfts (<[g := mft']> (m_mfts b)))
  | None => mret tt
  end.

Lemma count_cases b g mft k :
  binv b → m_mfts b !! g = Some mft → k ∈ keys_in_order mft → mft !! k = Some 1 ∨ mft !! k = Some 2.
Proof.
  intros Hb Hg [n Hn]%elem_of_keys. pose proof (bi_counts b Hb g mft k n Hg Hn) as B.
  change c_default_count with 2 in B. assert (n = 1 ∨ n = 2) as [->| ->] by lia; auto.
Qed.

(** A group without expiring entries loses one count everywhere. *)
Lemma maintain_group_ok b g mft :
  binv b → m_mfts b !! g = Some mft → ¬ expiring mft →
  ∃ b', maintain_group g b = (Ok tt, b') ∧ binv b' ∧
    m_mfts b' = <[g := (λ n, n - 1) <$> mft]> (m_mfts b).
Proof.
  intros Hb Hg Hne. destruct (decrement_all_ok (keys_in_order mft) mft (NoDup_keys mft)) as (mft' & Ed & Hm).
  { intros k Hk. destruct (count_cases b g mft k Hb Hg Hk) as [E|E]; [|done]. destruct Hne. by exists k. }
  assert (mft' = (λ n, n - 1) <$> mft) as ->.
  { apply map_eq. intros k. rewrite Hm lookup_fmap. case_bool_decide as Hk.
    - destruct (count_cases b g mft k Hb Hg Hk) as [E|E]; [by destruct Hne; exists k|]. by rewrite E.
    - assert (mft !! k = None) as E by (apply eq_None_not_Some; by rewrite -elem_of_keys). by rewrite E. }
  exists (b_set_mfts (<[g := (λ n, n - 1) <$> mft]> (m_mfts b)) b). split_and!; [| |done].
  - rewrite /maintain_group /mbind /M_bind /get /lift Hg Ed. done.
  - apply (pres_set_mft b g ((λ n, n - 1) <$> mft) Hb); [|done]. intros k n Hk. eapply decrement_all_count; [|exact Ed|exact Hk]. intros. by eapply (bi_counts b).
Qed.

Lemma maintain_group_ub b g mft :
  binv b → m_mfts b !! g = Some mft → expiring mft → ∃ w, (maintain_group g b).1 = UB w.
Proof.
  intros Hb Hg [k Hk]. destruct (decrement_all_ub (keys_in_order mft) mft k (NoDup_keys mft)) as [w Ew]; [| |done|].
  - intros j Hj. by eapply count_cases.
  - apply elem_of_keys. by rewrite Hk.
  - exists w. by rewrite /maintain_group /mbind /M_bind /get /lift Hg Ew.
Qed.

#[local] Instance expiring_dec mft : Decision (expiring mft).
Proof.
  destruct (decide (map_Exists (λ _ n, n = 1) mft)) as [He|He]; [left|right].
  - destruct He as (k & n & Hk & ->). by exists k.
  - intros [k Hk]. apply He. by exists k, 1.
Defined.

Lemma maintain_loop l b :
  binv b → NoDup l → (∀ g, g ∈ l → is_Some (m_mfts b !! g)) →
  ((∃ g mft, g ∈ l ∧ m_mfts b !! g = Some mft ∧ expiring mft) → ∃ w, (for_each l maintain_group b).1 = UB w) ∧
  ((∀ g mft, g ∈ l → m_mfts b !! g = Some mft → ¬ expiring mft) →
    ∃ b', for_each l maintain_group b = (Ok tt, b') ∧
      ∀ g, m_mfts b' !! g = if bool_decide (g ∈ l) then fmap (λ n, n - 1) <$> m_mfts b !! g else m_mfts b !! g).
Proof.
  clear route_table route_lookup key_makehash junk hash_ok.
  revert b. induction l as [|g l IH]; intros b Hb Hnd Hl.
  { split; [by intros (g & mft & []%not_elem_of_nil & _)|]. intros _. exists b. split; [done|].
    intros g. rewrite bool_decide_false //. apply not_elem_of_nil. }
  apply NoDup_cons in Hnd as [Hg Hnd]. destruct (Hl g ltac:(by left)) as [mft Hmft].
  destruct (decide (expiring mft)) as [He|He].
  { split; [|intros Hne; by destruct (Hne g mft ltac:(by left) Hmft)]. intros _.
    destruct (maintain_group_ub b g mft Hb Hmft He) as [w Hw]. exists w. simpl. rewrite /mbind /M_bind.
    destruct (maintain_group g b) as [r b1]. simpl in Hw. by subst r. }
  destruct (maintain_group_ok b g mft Hb Hmft He) as (b1 & E1 & Hb1 & Em1).
  assert (∀ h, h ∈ l → m_mfts b1 !! h = m_mfts b !! h) as Hsame.
  { intros h Hh. rewrite Em1 lookup_insert_ne //. by intros ->. }
  destruct (IH b1 Hb1 Hnd) as [IH1 IH2]; [intros h Hh; rewrite Hsame //; apply Hl; by right|].
  simpl. rewrite (bind_ok _ _ _ _ _ E1). split.
  - intros (h & m & [->|Hh]%elem_of_cons & Hm & Hx); [by simplify_eq|]. apply IH1. exists h, m. by rewrite Hsame.
  - intros Hne. destruct IH2 as (b2 & E2 & Hb2).
    { intros h m Hh. rewrite Hsame //. apply Hne. by right. }
    exists b2. split; [done|]. intros h. rewrite Hb2 Em1. destruct (decide (h = g)) as [->|Hhg].
    + rewrite bool_decide_false // lookup_insert_eq bool_decide_true; [by left|]. by rewrite Hmft.
    + rewrite lookup_insert_ne // (bool_decide_ext (h ∈ g :: l) (h ∈ l)) // elem_of_cons. naive_solver.
Qed.

(** ** Forwarding *)

#[local] Arguments key_equal : simpl never.
#[local] Arguments key_index_int : simpl never.

(** What is sent for one prefix once its host is known. *)
Lemma forward_host_sends lcp payload u gk (h : Key) i used b b' :
  m_sent b' = m_sent b →
  let r := (if (lcp <=? i) && negb (existsb (key_equal h) used) then
      modify (b_send (create_multicast_message junk payload (u32 (i + 1)) gk h u)) ;; mret (i, used ++ [h])
    else mret (i, used)) b' in
  ∃ l, r.1 = Ok (i, used ++ (bm_dst <$> l)) ∧ m_sent r.2 = m_sent b ++ l ∧
    (l = [] ∨ l = [create_multicast_message junk payload (u32 (i + 1)) gk h u] ∧ lcp <= i ∧
       existsb (key_equal h) used = false).
Proof.
  intros Hs. destruct (Z.leb_spec lcp i), (existsb (key_equal h) used) eqn:Hu; cbn;
    try (exists []; rewrite /= !app_nil_r; by auto).
  exists [create_multicast_message junk payload (u32 (i + 1)) gk h u]. rewrite -Hs. split_and!; [done..|]. by right.
Qed.

Lemma forward_one_sends lcp payload u gk index used e b :
  let r := forward_one route_lookup junk lcp payload u gk (index, used) e b in
  ∃ i h l, r.1 = Ok (i, used ++ (bm_dst <$> l)) ∧ m_sent r.2 = m_sent b ++ l ∧
    (h = route_lookup e ∨ ∃ j, m_host_cache b !! e = Some (h, j)) ∧
    (l = [] ∨ l = [create_multicast_message junk payload (u32 (i + 1)) gk h u] ∧ lcp <= i ∧
       existsb (key_equal h) used = false).
Proof.
  rewrite /forward_one /mbind /M_bind /get. destruct (m_host_cache b !! e) as [[h i]|] eqn:Hc; cbn.
  - destruct (forward_host_sends lcp payload u gk h i used b b eq_refl) as (l & H1 & H2 & H3). exists i, h, l. eauto 6.
  - destruct (key_equal (m_mykey b) (route_lookup e)); cbn.
    + destruct (forward_host_sends lcp payload u gk (route_lookup e) index used b b eq_refl) as (l & H1 & H2 & H3).
      exists index, (route_lookup e), l. eauto 6.
    + set (i := key_index_int (m_mykey b) (route_lookup e)). set (b' := b_set_host_cache _ b).
      destruct (forward_host_sends lcp payload u gk (route_lookup e) i used b b' eq_refl) as (l & H1 & H2 & H3).
      exists i, (route_lookup e), l. eauto 6.
Qed.

Lemma bind_ret_state {A B} (m : M bidirsam A) (x : B) b : ((m ;; mret x) b).2 = (m b).2.
Proof. rewrite /mbind /M_bind. by destruct (m b) as [[]]. Qed.

Lemma forward_all_sends lcp payload u gk es index used b :
  NoDup used →
  ∃ l, (forward_all route_lookup junk lcp payload u gk (index, used) es b).1 = Ok tt ∧
    m_sent (forward_all route_lookup junk lcp payload u gk (index, used) es b).2 = m_sent b ++ l ∧
    NoDup (used ++ (bm_dst <$> l)).
Proof.
  revert index used b. induction es as [|e es IH]; intros index used b Hu; simpl.
  { exists []. rewrite /= !app_nil_r. done. }
  destruct (forward_one_sends lcp payload u gk index used e b) as (i1 & h & l1 & E1 & E2 & _ & Hl1).
  rewrite /mbind /M_bind. destruct (forward_one _ _ _ _ _ _ _ _ _) as [r b1]. simpl in E1, E2. subst r.
  assert (NoDup (used ++ (bm_dst <$> l1))) as Hnd.
  { destruct Hl1 as [->|(-> & _ & Hh)]; [by rewrite app_nil_r|]. apply NoDup_app.
    split_and!; [done| |apply NoDup_singleton]. intros x Hx ->%list_elem_of_singleton. by apply existsb_key_equal in Hh. }
  destruct (IH i1 _ b1 Hnd) as (l2 & F1 & F2 & F3). exists (l1 ++ l2). split_and!; [done| |].
  - by rewrite F2 E2 app_assoc.
  - by rewrite fmap_app app_assoc.
Qed.
End invariant.

(** ** Names *)

Lemma bidir_uri_empty (rest : bytes) : uri_of (str "bidir://" ++ rest) = uri_default.
Proof.
  apply (uri_of_other_scheme (str "bidir") (str "//" ++ rest)); apply (bool_decide_unpack _); by vm_compute.
Qed.

Lemma binv_key_mapping b k : binv b → key_mapping k 0 b = (Ok uri_default, b).
Proof.
  intros Hb. rewrite /key_mapping /mbind /M_bind /get /=. case_match eqn:E; [|done].
  by apply (bi_uris b Hb) in E as [-> _].
Qed.

Lemma binv_group_set b : binv b → group_set b = (Ok [], b).
Proof.
  intros Hb. rewrite /group_set /mbind {1}/M_bind /get. induction (keys_in_order (m_mfts b)) as [|g gs IH]; [done|].
  simpl. rewrite /mbind /M_bind /get. by rewrite binv_key_mapping // IH.
Qed.

(** Data for a group without a port finds no name. *)
Lemma binv_port_zero b (k : Key) : binv b → length k = KEY_ARRAY_SIZE → m_uri_cache b !! (k ++ [0]) = None.
Proof.
  intros Hb Hk. apply eq_None_not_Some. intros [u E].
  apply (bi_uris b Hb) in E as [_ [Hl|(k' & p & E & Hl & Hp)]].
  - rewrite length_app Hk /= in Hl. rewrite /KEY_ARRAY_SIZE in Hl. lia.
  - apply app_inj_tail in E as [_ <-]. done.
Qed.

(** ** Which operations complete *)







Section outcomes.
Context (route_table : list Key) (route_lookup : Key → Key) (key_makehash : bytes → Key) (junk : Z).
Context (hash_ok : ∀ s, length (key_makehash s) = KEY_ARRAY_SIZE).










End outcomes.

(** ** Theorems *)

(** [create_prefix_int] is correct for every length up to 48, although
    its comments doubt it: the prefix of length [len] of a key is the key
    with all digits behind the first [len] set to zero, no access leaves the
    words of the key, and the prefix has at least [len] digits in common
    with the key. *)
Theorem create_prefix_truncates k len :
  key_ok k → 0 <= len <= 48 →
  ∃ p, create_prefix_int k len 0 = Ok p ∧ key_ok p ∧
    key_value p = key_value k / 4 ^ (48 - len) * 4 ^ (48 - len) ∧
    Z.min len 47 <= key_index_int k p.
Proof.
  intros Hk Hlen. destruct (create_prefix_spec k len Hk Hlen) as (p & E & Hp & Ev). exists p. split_and!; [done..|].
  rewrite key_index_int_raw //. destruct (raw_index_spec KEY_ARRAY_SIZE k p Hk Hp) as [B G].
  change (16 * Z.of_nat KEY_ARRAY_SIZE) with 48 in *. enough (len <= raw_index KEY_ARRAY_SIZE k p) by lia.
  apply G; [lia|]. rewrite /prefix -!/(key_value _) Ev. change (16 * Z.of_nat KEY_ARRAY_SIZE) with 48.
  rewrite Z.div_mul //. apply Z.pow_nonzero; lia.
Qed.

Lemma create_prefix_truncates_witness :
  ∃ p, create_prefix_int (sample_key 1 2 4294967295) 3 0 = Ok p ∧ key_ok p ∧
    key_value p = key_value (sample_key 1 2 4294967295) / 4 ^ (48 - 3) * 4 ^ (48 - 3) ∧
    Z.min 3 47 <= key_index_int (sample_key 1 2 4294967295) p.
Proof. apply (create_prefix_truncates (sample_key 1 2 4294967295) 3); [apply sample_key_ok; lia|lia]. Defined.

(** [get_lcp] finds the longest match: for a table that is not empty it
    returns an entry, and no other entry has a longer common prefix with the
    key; for an empty table it returns the zero key. *)
Theorem get_lcp_longest k (mft : bidirsam_mft) :
  key_ok k → map_Forall (λ g _, key_ok g) mft →
  (mft = ∅ → get_lcp k mft = zero_key) ∧
  (mft ≠ ∅ → is_Some (mft !! get_lcp k mft) ∧
    ∀ g, is_Some (mft !! g) → key_index_int k g <= key_index_int k (get_lcp k mft)).
Proof.
  intros Hk Hm. rewrite /get_lcp. split; [by intros ->|]. intros Hne.
  assert (∀ g, is_Some (mft !! g) ↔ g ∈ keys_in_order mft) as Hel by (intros; by rewrite elem_of_keys).
  setoid_rewrite Hel. destruct (keys_in_order mft) as [|g l] eqn:El.
  { destruct (map_choose _ Hne) as (g & n & Hg). exfalso. by apply (not_elem_of_nil g), Hel; exists n. }
  assert (key_ok g) as Hg.
  { destruct (proj2 (Hel g) ltac:(by left)) as [n Hn]. by apply (Hm g n). }
  pose proof (key_index_int_bounds k g Hk Hg) as B.
  assert (lcp_step k (0, zero_key) g = (key_index_int k g, g)) as E0.
  { rewrite /lcp_step /=. by rewrite (proj2 (Z.leb_le _ _)); [lia|]. }
  cbn [foldl]. rewrite E0.
  destruct (lcp_fold k l (key_index_int k g, g)) as (H1 & H2 & H3). set (r := foldl _ _ _) in *. cbn [fst] in H1.
  assert (r.2 ∈ g :: l ∧ r.1 = key_index_int k r.2) as [Hr1 Hr2].
  { destruct H3 as [->|[H3 H4]]; [split; [by left|done]|]. split; [by right|done]. }
  split; [done|]. intros h [->|Hh]%elem_of_cons; rewrite -Hr2; [done|by apply H2].
Qed.

Lemma get_lcp_longest_witness :
  let mft := {[ sample_key 0 0 (2 ^ 31) := 2; sample_key 0 0 (2 ^ 30) := 1 ]} : bidirsam_mft in
  is_Some (mft !! get_lcp (sample_key 7 7 (2 ^ 30 + 5)) mft).
Proof.
  intros mft. refine (proj1 (proj2 (get_lcp_longest (sample_key 7 7 (2 ^ 30 + 5)) mft _ _) _)).
  - apply sample_key_ok; lia.
  - apply map_Forall_insert_2; [apply sample_key_ok; lia|]. apply map_Forall_singleton. apply sample_key_ok; lia.
  - apply insert_non_empty.
Defined.

Section theorems.
Context (route_table : list Key) (route_lookup : Key → Key) (key_makehash : bytes → Key) (junk : Z).
Context (hash_ok : ∀ s, length (key_makehash s) = KEY_ARRAY_SIZE).
Abbreviation bruns := (bruns route_table route_lookup key_makehash junk).
Abbreviation run_bop := (run_bop route_table route_lookup key_makehash junk).


(** The maintenance uses an iterator after it has erased its element.
    If some entry of some table has the count 1, the round of maintenance
    has undefined behaviour; otherwise it takes one from every count.  So
    an entry that is not refreshed between two rounds is never removed
    properly. *)
Theorem bidirsam_maintenance_erases (ops : list bop) (me : Key) (b : bidirsam) :
  bruns ops (new_bidirsam me) = (Ok tt, b) →
  ((∃ g mft k, m_mfts b !! g = Some mft ∧ mft !! k = Some 1) → ∃ w, (mft_maintenance b).1 = UB w) ∧
  ((∀ g mft k, m_mfts b !! g = Some mft → mft !! k ≠ Some 1) →
    ∃ b', mft_maintenance b = (Ok tt, b') ∧ m_mfts b' = (λ mft : bidirsam_mft, (λ n, n - 1) <$> mft) <$> m_mfts b).
Proof.
  intros Hrun. pose proof (binv_runs route_table route_lookup key_makehash junk hash_ok ops me b Hrun) as Hb.
  destruct (maintain_loop (keys_in_order (m_mfts b)) b Hb (NoDup_keys _)) as [H1 H2].
  { intros g Hg. by apply elem_of_keys. }
  change (mft_maintenance b) with (for_each (keys_in_order (m_mfts b)) maintain_group b). split.
  - intros (g & mft & k & Hg & Hk). apply H1. exists g, mft. split_and!; [|done|by exists k]. apply elem_of_keys. eauto.
  - intros Hne. destruct H2 as (b' & E & Hb'); [intros g mft _ Hg [k Hk]; by apply (Hne g mft k)|].
    exists b'. split; [done|]. apply map_eq. intros g. rewrite Hb' lookup_fmap. case_bool_decide as Hg; [done|].
    rewrite elem_of_keys in Hg. by rewrite (proj2 (eq_None_not_Some _) Hg).
Qed.

(** The module loses the names of its groups.  [plain_uri_str] leaves
    out the separator behind the scheme, so the string is no URI: after any
    history [key_mapping] returns the empty URI for every key, [group_set]
    reports no group, every packet handed to the middleware carries the
    empty group; and data for a group without a port is neither delivered
    nor forwarded by any receiving node. *)
Theorem bidirsam_names_lost (ops : list bop) (me : Key) (msg : bmsg) (b : bidirsam) :
  length (bm_src msg) = KEY_ARRAY_SIZE → bm_port msg = 0 → bm_type msg = BIDIRSAM_MULTICAST_MESSAGE →
  4 <= zlen (bm_payload msg) → bruns ops (new_bidirsam me) = (Ok tt, b) →
  (∀ k, key_mapping k 0 b = (Ok uri_default, b)) ∧ group_set b = (Ok [], b) ∧
  Forall (λ r, r.2 = uri_default) (m_received b) ∧
  bidirsam_deliver_handler route_table route_lookup key_makehash junk msg b = (Ok tt, b).
Proof.
  intros Hsrc Hport Htype Hlen Hrun.
  pose proof (binv_runs route_table route_lookup key_makehash junk hash_ok ops me b Hrun) as Hb.
  split_and!; [intros k; by apply binv_key_mapping|by apply binv_group_set|apply Hb|].
  rewrite /bidirsam_deliver_handler Htype /= /deliver_multicast_data Hport.
  rewrite (proj2 (Z.ltb_ge _ _)); [lia|]. rewrite /mbind /M_bind /= /get. by rewrite binv_port_zero.
Qed.

(** Forwarding data succeeds and sends at most one copy to each host,
    however many prefixes of the table lead to it. *)
Theorem bidirsam_one_copy (lcp : Z) (payload : bytes) (u : uri) (group_key : Key) (b : bidirsam) :
  let '(r, b') := forward_multicast_data route_lookup junk lcp payload u group_key b in
  r = Ok 0 ∧ ∃ l, m_sent b' = m_sent b ++ l ∧ NoDup (bm_dst <$> l).
Proof.
  rewrite /forward_multicast_data /mbind /M_bind /get. destruct (m_mfts b !! group_key) as [mft|].
  - destruct (forward_all_sends route_lookup junk lcp payload u group_key (keys_in_order mft) 0 [] b) as (l & E1 & E2 & E3);
      [constructor|]. destruct (forward_all _ _ _ _ _ _ _ _ _) as [r b1]. simpl in E1, E2, E3. subst r.
    split; [done|]. by exists l.
  - split; [done|]. exists []. rewrite app_nil_r. split; [done|constructor].
Qed.

(** A node can send data to itself: when a prefix of the table is routed
    to the node's own key, the index keeps its old value, and data sent by
    the application ([lcp] 0) goes out with the node itself as receiver,
    although the comment in the loop wants to exclude that. *)
Theorem bidirsam_sends_to_itself (payload : bytes) (u : uri) (g e : Key) (es : list Key) (mft : bidirsam_mft)
    (b : bidirsam) :
  m_mfts b !! g = Some mft → keys_in_order mft = e :: es → m_host_cache b !! e = None →
  route_lookup e = m_mykey b →
  ∃ l, m_sent (forward_multicast_data route_lookup junk 0 payload u g b).2 =
    m_sent b ++ create_multicast_message junk payload 1 g (m_mykey b) u :: l.
Proof.
  intros Hg Hk Hc Hr. rewrite /forward_multicast_data. erewrite bind_ok; [|done]. rewrite Hg Hk.
  set (msg := create_multicast_message junk payload 1 g (m_mykey b) u).
  assert (forward_one route_lookup junk 0 payload u g (0, []) e b = (Ok (0, [m_mykey b]), b_send msg b)) as E1.
  { rewrite /forward_one /mbind /M_bind /get Hc Hr (_ : key_equal (m_mykey b) (m_mykey b) = true) //.
    apply forallb_forall. intros i _. apply Z.eqb_refl. }
  assert (forward_all route_lookup junk 0 payload u g (0, []) (e :: es) b =
    forward_all route_lookup junk 0 payload u g (0, [m_mykey b]) es (b_send msg b)) as E3.
  { cbn [forward_all]. by rewrite (bind_ok _ _ _ _ _ E1). }
  destruct (forward_all_sends route_lookup junk 0 payload u g es 0 [m_mykey b] (b_send msg b)) as (l & _ & E2 & _);
    [apply NoDup_singleton|]. exists l.
  rewrite bind_ret_state E3. etrans; [exact E2|]. by rewrite /= -app_assoc.
Qed.
End theorems.

(** ** Witnesses *)

Definition sample_hash (s : bytes) : Key := [zlen s; 0; 1].
Definition sample_me : Key := sample_key 0 0 0.
Definition sample_join : bmsg :=
  {| bm_dst := sample_me; bm_src := sample_key 0 0 (2 ^ 31); bm_port := 0; bm_type := BIDIRSAM_JOIN_MESSAGE;
     bm_payload := write_key_to_buffer (sample_key 0 0 (2 ^ 31)) ++ str "ham:ip:239.0.0.1" ++ [NUL] |}.
Definition sample_ops : list bop :=
  [op_join (str "ham:ip:239.0.0.1"); op_message sample_join; op_maintenance].
Lemma sample_hash_ok s : length (sample_hash s) = KEY_ARRAY_SIZE.
Proof. done. Qed.

Definition sample_node : bidirsam := (bruns [sample_key 1 1 1] (λ _, sample_me) sample_hash 0 sample_ops (new_bidirsam sample_me)).2.
Lemma sample_run :
  bruns [sample_key 1 1 1] (λ _, sample_me) sample_hash 0 sample_ops (new_bidirsam sample_me) = (Ok tt, sample_node).
Proof. by vm_compute. Qed.


Lemma bidirsam_maintenance_erases_witness : ∃ w, (mft_maintenance sample_node).1 = UB w.
Proof.
  apply (proj1 (bidirsam_maintenance_erases [sample_key 1 1 1] (λ _, sample_me) sample_hash 0 sample_hash_ok sample_ops sample_me
    sample_node sample_run)).
  exists (sample_hash (str "hamip:239.0.0.1")), {[ sample_key 0 0 (2 ^ 31) := 1 ]}, (sample_key 0 0 (2 ^ 31)).
  split; by vm_compute.
Defined.

Definition sample_data : bmsg :=
  {| bm_dst := sample_me; bm_src := sample_hash (str "hamip:239.0.0.1"); bm_port := 0;
     bm_type := BIDIRSAM_MULTICAST_MESSAGE; bm_payload := le_bytes 4 0 ++ str "hello" |}.
Lemma bidirsam_names_lost_witness :
  bidirsam_deliver_handler [sample_key 1 1 1] (λ _, sample_me) sample_hash 0 sample_data sample_node = (Ok tt, sample_node).
Proof.
  refine (proj2 (proj2 (proj2 (bidirsam_names_lost [sample_key 1 1 1] (λ _, sample_me) sample_hash 0 sample_hash_ok
    sample_ops sample_me sample_data sample_node _ _ _ _ sample_run)))); first [done | by vm_compute].
Defined.

Lemma bidirsam_sends_to_itself_witness :
  ∃ l, m_sent (forward_multicast_data (λ _, sample_me) 0 0 (str "hello") uri_default
           (sample_hash (str "hamip:239.0.0.1")) sample_node).2 =
    m_sent sample_node ++ create_multicast_message 0 (str "hello") 1 (sample_hash (str "hamip:239.0.0.1")) sample_me uri_default :: l.
Proof.
  apply (bidirsam_sends_to_itself (λ _, sample_me) 0 (str "hello") uri_default (sample_hash (str "hamip:239.0.0.1"))
    (sample_key 0 0 (2 ^ 31)) [] {[ sample_key 0 0 (2 ^ 31) := 1 ]} sample_node); by vm_compute.
Defined.
