(* ===== verification/Scribe.v ===== *)
(** * The Scribe module

    [modules/scribe]: an overlay multicast module that builds one tree per
    group.  A node that joins routes a JOIN message towards the key of the
    group; every node the message passes, and the one it ends at, takes the
    sender as a child and answers with a PARENT message.  Data goes to the
    node the key of the group leads to, its rendezvous point, and down the
    tree.  Children are soft state: a maintenance round counts them down, a
    repeated JOIN counts them up.
    [scribe_node.hpp], [scribe_group.hpp], [scribe_group.cpp],
    [scribe_instance.cpp] and the handlers of [scribe_module.cpp] are
    modelled; keys, messages and hosts are those of [ChimeraKey] and
    [Overlay].  Routing is not: what is handed to the overlay is recorded,
    what the overlay delivers is an argument of the handlers. *)

From S2P Require Import Prelude Uri Serialization Message ChimeraKey Overlay.

Definition SCRIBE_MSG_CREATE : Z := 51.
Definition SCRIBE_MSG_JOIN : Z := 52.
Definition SCRIBE_MSG_LEAVE : Z := 53.
Definition SCRIBE_MSG_MULTICAST : Z := 54.
Definition SCRIBE_MSG_RP_REQUEST : Z := 62.
Definition SCRIBE_MSG_RP_REPLY : Z := 63.
Definition SCRIBE_MSG_PARENT : Z := 65.
Definition c_default_count : Z := 2.
Definition HC_SUCCESS : Z := 0.

(** ** Nodes and groups *)

Record scribe_node := { n_host : host_id; n_count : Z }.
Definition new_node (h : host_id) : scribe_node := {| n_host := h; n_count := c_default_count |}.
Definition node_incr (n : scribe_node) : scribe_node :=
  if n_count n <? c_default_count then {| n_host := n_host n; n_count := n_count n + 1 |} else n.
Definition node_decr (n : scribe_node) : scribe_node :=
  if 0 <? n_count n then {| n_host := n_host n; n_count := n_count n - 1 |} else n.

(** The counter of a group is set by [heartbeat], which nothing calls, and
    never read; it is left out. *)
Record scribe_group := {
  g_gid : Key;
  g_uri : uri;
  g_parent : option host_id;
  g_rp : option host_id;
  g_children : gmap Key scribe_node
}.

Definition set_uri (u : uri) (g : scribe_group) : scribe_group :=
  if uri_empty u then g
  else {| g_gid := g_gid g; g_uri := u; g_parent := g_parent g; g_rp := g_rp g; g_children := g_children g |}.
Definition set_parent (p : host_id) (g : scribe_group) : scribe_group :=
  {| g_gid := g_gid g; g_uri := g_uri g; g_parent := Some p; g_rp := g_rp g; g_children := g_children g |}.
Definition set_rp (rp : host_id) (g : scribe_group) : scribe_group :=
  {| g_gid := g_gid g; g_uri := g_uri g; g_parent := g_parent g; g_rp := Some rp; g_children := g_children g |}.
Definition set_children (cs : gmap Key scribe_node) (g : scribe_group) : scribe_group :=
  {| g_gid := g_gid g; g_uri := g_uri g; g_parent := g_parent g; g_rp := g_rp g; g_children := cs |}.

(** [add_child] of the host [c], whose key is [ckey]. *)
Definition add_child (c : host_id) (ckey : Key) (g : scribe_group) : scribe_group :=
  set_children (<[ckey := match g_children g !! ckey with Some n => node_incr n | None => new_node c end]> (g_children g)) g.
Definition del_child (k : Key) (g : scribe_group) : scribe_group := set_children (delete k (g_children g)) g.
Definition has_child (k : Key) (g : scribe_group) : bool := bool_decide (is_Some (g_children g !! k)).
Definition children (g : scribe_group) : nat := size (g_children g).

(** ** The instance *)

(** What is handed to the overlay: a message to a host ([message_send]) or
    one that is routed to its destination ([chimera_send],
    [chimera_message]). *)
Inductive sending :=
  | Direct (h : host_id) (msg : bmsg)
  | Routed (msg : bmsg).

Record scribe := {
  s_hosts : HostGlobal;
  m_groups : gmap Key scribe_group;
  m_grp_mutex : bool;
  m_key_cache : gmap bytes Key;
  m_uri_cache : gmap (list Z) uri;
  m_sent : list sending;
  m_received : list (bytes * uri);
  m_events : list (membership_event_type * uri)
}.

Definition s_set_hosts x s := {| s_hosts := x; m_groups := m_groups s; m_grp_mutex := m_grp_mutex s;
  m_key_cache := m_key_cache s; m_uri_cache := m_uri_cache s; m_sent := m_sent s; m_received := m_received s;
  m_events := m_events s |}.
Definition s_set_groups x s := {| s_hosts := s_hosts s; m_groups := x; m_grp_mutex := m_grp_mutex s;
  m_key_cache := m_key_cache s; m_uri_cache := m_uri_cache s; m_sent := m_sent s; m_received := m_received s;
  m_events := m_events s |}.
Definition s_set_mutex x s := {| s_hosts := s_hosts s; m_groups := m_groups s; m_grp_mutex := x;
  m_key_cache := m_key_cache s; m_uri_cache := m_uri_cache s; m_sent := m_sent s; m_received := m_received s;
  m_events := m_events s |}.
Definition s_set_caches x y s := {| s_hosts := s_hosts s; m_groups := m_groups s; m_grp_mutex := m_grp_mutex s;
  m_key_cache := x; m_uri_cache := y; m_sent := m_sent s; m_received := m_received s; m_events := m_events s |}.
Definition s_send x s := {| s_hosts := s_hosts s; m_groups := m_groups s; m_grp_mutex := m_grp_mutex s;
  m_key_cache := m_key_cache s; m_uri_cache := m_uri_cache s; m_sent := m_sent s ++ [x]; m_received := m_received s;
  m_events := m_events s |}.
Definition s_receive x s := {| s_hosts := s_hosts s; m_groups := m_groups s; m_grp_mutex := m_grp_mutex s;
  m_key_cache := m_key_cache s; m_uri_cache := m_uri_cache s; m_sent := m_sent s; m_received := m_received s ++ [x];
  m_events := m_events s |}.
Definition s_event x s := {| s_hosts := s_hosts s; m_groups := m_groups s; m_grp_mutex := m_grp_mutex s;
  m_key_cache := m_key_cache s; m_uri_cache := m_uri_cache s; m_sent := m_sent s; m_received := m_received s;
  m_events := m_events s ++ [x] |}.

(** [m_grp_mutex].  A thread that locks a mutex nobody will unlock waits for
    ever (or, if it is the one that locked it, is undefined); like undefined
    behaviour this ends the run of the model. *)
Definition lock_groups : M scribe unit :=
  s ← get; if m_grp_mutex s then ub "m_grp_mutex was left locked" else modify (s_set_mutex true).
Definition unlock_groups : M scribe unit := modify (s_set_mutex false).

(** [host->key]. *)
Definition key_of (h : host_id) : M scribe Key :=
  s ← get; match host_key (s_hosts s) h with Some k => mret k | None => ub "host was freed" end.

(** [std::set<uri>::insert]: ordered by [str()]. *)
Fixpoint bytes_ltb (a b : bytes) : bool :=
  match a, b with
  | _, [] => false
  | [], _ :: _ => true
  | x :: a', y :: b' => if b2z x <? b2z y then true else if b2z y <? b2z x then false else bytes_ltb a' b'
  end.
Fixpoint uri_set_insert (u : uri) (l : list uri) : list uri :=
  match l with
  | [] => [u]
  | v :: l' =>
      if bytes_ltb (uri_str u) (uri_str v) then u :: l
      else if bytes_ltb (uri_str v) (uri_str u) then v :: uri_set_insert u l'
      else l
  end.

Section instance.
(** The name service for loopback addresses, the hash of a name, the port of
    the empty URI and the key of a group that was made from a URI, which are
    indeterminate, and this node: its host and its key. *)
Context (gethostbyaddr : Z → Z) (key_makehash : bytes → Key) (junk : Z) (junk_key : Key) (me : host_id) (m_mykey : Key).

(** The state behind [chimera_init] and the constructor. *)
Definition new_scribe : scribe :=
  {| s_hosts := {| hg_hosts := {[me := {| ce_key := m_mykey; ce_reference := 1 |}]}; hg_free := []; hg_size := 1;
       hg_max := 64 |};
     m_groups := ∅; m_grp_mutex := false; m_key_cache := ∅; m_uri_cache := ∅; m_sent := []; m_received := [];
     m_events := [] |}.

(** The constructor from a URI leaves [m_gid] as it is. *)
Definition new_group (u : uri) : scribe_group :=
  set_uri u {| g_gid := junk_key; g_uri := uri_default; g_parent := None; g_rp := None; g_children := ∅ |}.

Definition port_of (u : uri) : Z := default junk (port_as_int u).

Definition uri_mapping (u : uri) : M scribe Key :=
  s ← get;
  let sch := m_ham_namespace u in
  let grp := if bool_decide (m_instantiation u = []) then m_group u else m_group u ++ str "@" ++ m_instantiation u in
  let prt := m_port u in
  let it := if bool_decide (prt = []) then m_key_cache s !! grp
            else m_key_cache s !! (sch ++ str "://" ++ grp ++ str ":" ++ prt) in
  let prti := if bool_decide (prt = []) then 0 else port_of u in
  match it with
  | Some k => mret k
  | None =>
      let k := key_makehash (c_str grp) in
      modify (λ s, s_set_caches (map_insert (sch ++ str "://" ++ grp) k (m_key_cache s))
        (map_insert k (uri_of (sch ++ str "://" ++ grp)) (m_uri_cache s)) s) ;;
      (if prti =? 0 then mret tt
       else modify (λ s, s_set_caches (map_insert (sch ++ str "://" ++ grp ++ str ":" ++ prt) k (m_key_cache s))
              (map_insert (k ++ [prti]) (uri_of (sch ++ str "://" ++ grp ++ str ":" ++ prt)) (m_uri_cache s)) s)) ;;
      mret k
  end.

Definition key_mapping (k : Key) (port : Z) : M scribe uri :=
  s ← get;
  match m_uri_cache s !! (if 0 <? port then k ++ [port] else k) with
  | Some u => mret u
  | None =>
      if 0 <? port then
        let tmp_str := match m_uri_cache s !! k with
                       | Some u => uri_str u ++ str ":" ++ str (pretty port)
                       | None => []
                       end in
        let tmp_uri := uri_of tmp_str in
        uri_mapping tmp_uri ;;
        mret tmp_uri
      else mret uri_default
  end.

(** [host_decode] of the payload of a message. *)
Definition decode_host (payload : bytes) : M scribe host_id :=
  if zlen payload <? HOST_CODED_SIZE then ub "host behind the end of a message"
  else
    s ← get;
    let '(h, hg) := host_decode gethostbyaddr payload (s_hosts s) in
    modify (s_set_hosts hg) ;;
    mret h.

(** The name of the group of a CREATE or JOIN message: from the caches, or
    behind the host in the payload; [None] when the message is too short. *)
Definition message_group_uri (msg : bmsg) : M scribe (option uri) :=
  key_mapping (bm_src msg) (bm_port msg) ;;
  group_uri ← key_mapping (bm_src msg) 0;
  if uri_empty group_uri then
    if HOST_CODED_SIZE <=? zlen (bm_payload msg) then
      let group_str := zdrop (HOST_CODED_SIZE + 1) (bm_payload msg) in
      if bool_decide (NUL ∈ group_str) then
        let tmp_uri := uri_of (c_str group_str) in
        if uri_empty tmp_uri then mret (Some group_uri)
        else
          group_key ← uri_mapping tmp_uri;
          u ← key_mapping group_key 0;
          mret (Some u)
      else ub "group name behind the end of a message"
    else mret None
  else mret (Some group_uri).

Definition notify (e : membership_event_type) (u : uri) : M scribe unit := modify (s_event (e, u)).

(** A message to [h] that carries this node's host. *)
Definition send_me (h : host_id) (hkey src : Key) (port type : Z) : M scribe unit :=
  modify (s_send (Direct h (message_create hkey src port type HOST_CODED_SIZE (host_encode m_mykey me)))).

(** ** Handlers of delivered messages *)

Definition deliver_create (msg : bmsg) : M scribe unit :=
  o ← message_group_uri msg;
  match o with
  | None => mret tt
  | Some group_uri =>
      if uri_empty group_uri then mret tt
      else
        lock_groups ;;
        modify (λ s, s_set_groups (map_insert (bm_src msg) (new_group group_uri) (m_groups s)) s) ;;
        notify new_source_event group_uri ;;
        unlock_groups
  end.

(** What [deliver_join] and [forward_join] do with the host of a JOIN: it
    becomes a child of the group, which is made if it is unknown, and is
    told its parent. *)
Definition adopt (msg : bmsg) (group_uri : uri) (host : host_id) : M scribe unit :=
  lock_groups ;;
  hkey ← key_of host;
  modify (λ s, s_set_groups
    (<[bm_src msg := add_child host hkey (default (new_group group_uri) (m_groups s !! bm_src msg))]> (m_groups s)) s) ;;
  unlock_groups ;;
  (if key_equal m_mykey hkey then mret tt
   else send_me host hkey (bm_src msg) (bm_port msg) SCRIBE_MSG_PARENT) ;;
  if uri_empty group_uri then mret tt else notify join_event group_uri.

Definition deliver_join (msg : bmsg) : M scribe unit :=
  o ← message_group_uri msg;
  match o with
  | None => mret tt
  | Some group_uri =>
      host ← decode_host (bm_payload msg);
      adopt msg group_uri host
  end.

(** The message that is forwarded carries this node instead of the sender. *)
Definition forward_join (msg : bmsg) : M scribe bmsg :=
  o ← message_group_uri msg;
  match o with
  | None => mret msg
  | Some group_uri =>
      host ← decode_host (bm_payload msg);
      let msg' := {| bm_dst := bm_dst msg; bm_src := bm_src msg; bm_port := bm_port msg; bm_type := bm_type msg;
                     bm_payload := host_encode m_mykey me ++ zdrop HOST_CODED_SIZE (bm_payload msg) |} in
      adopt msg' group_uri host ;;
      mret msg'
  end.

Definition deliver_leave (msg : bmsg) : M scribe unit :=
  lock_groups ;;
  s ← get;
  match m_groups s !! bm_src msg with
  | None => unlock_groups
  | Some group =>
      host ← decode_host (bm_payload msg);
      hkey ← key_of host;
      let group := del_child hkey group in
      modify (λ s, s_set_groups (<[bm_src msg := group]> (m_groups s)) s) ;;
      unlock_groups ;;
      if (children group =? 0)%nat then
        match g_parent group with
        | Some parent =>
            pkey ← key_of parent;
            if key_equal m_mykey pkey then mret tt
            else send_me parent pkey (bm_src msg) (bm_port msg) SCRIBE_MSG_LEAVE
        | None => mret tt
        end
      else mret tt
  end.

(** The early return for an unknown group does not unlock the mutex. *)
Definition deliver_multicast (msg : bmsg) : M scribe unit :=
  lock_groups ;;
  s ← get;
  match m_groups s !! bm_src msg with
  | None => mret tt
  | Some group =>
      unlock_groups ;;
      group_uri ← key_mapping (bm_src msg) (bm_port msg);
      if zlen (bm_payload msg) =? 0 then mret tt
      else
        for_each (keys_in_order (g_children group)) (λ k,
          if key_equal k m_mykey then modify (s_receive (bm_payload msg, group_uri))
          else
            match g_children group !! k with
            | Some n =>
                modify (s_send (Direct (n_host n)
                  (message_create k (bm_src msg) (bm_port msg) (bm_type msg) (zlen (bm_payload msg)) (bm_payload msg))))
            | None => mret tt
            end)
  end.

Definition deliver_rp_request (msg : bmsg) : M scribe unit :=
  if zlen (bm_payload msg) <? HOST_CODED_SIZE then mret tt
  else
    host ← decode_host (bm_payload msg);
    hkey ← key_of host;
    send_me host hkey (bm_src msg) (bm_port msg) SCRIBE_MSG_RP_REPLY.

Definition deliver_rp_reply (msg : bmsg) : M scribe unit :=
  if zlen (bm_payload msg) <? HOST_CODED_SIZE then mret tt
  else
    host ← decode_host (bm_payload msg);
    lock_groups ;;
    modify (λ s, s_set_groups (alter (set_rp host) (bm_src msg) (m_groups s)) s) ;;
    unlock_groups.

Definition deliver_parent (msg : bmsg) : M scribe unit :=
  if zlen (bm_payload msg) <? HOST_CODED_SIZE then mret tt
  else
    host ← decode_host (bm_payload msg);
    lock_groups ;;
    s ← get;
    (match m_groups s !! bm_src msg with
     | Some _ =>
         hkey ← key_of host;
         if key_equal m_mykey hkey then mret tt
         else modify (λ s, s_set_groups (alter (set_parent host) (bm_src msg) (m_groups s)) s)
     | None => mret tt
     end) ;;
    unlock_groups.

(** [scribe_deliver_handler] and [scribe_forward_handler]. *)
Definition scribe_deliver_handler (msg : bmsg) : M scribe unit :=
  if bm_type msg =? SCRIBE_MSG_CREATE then deliver_create msg
  else if bm_type msg =? SCRIBE_MSG_JOIN then deliver_join msg
  else if bm_type msg =? SCRIBE_MSG_LEAVE then deliver_leave msg
  else if bm_type msg =? SCRIBE_MSG_MULTICAST then deliver_multicast msg
  else if bm_type msg =? SCRIBE_MSG_RP_REQUEST then deliver_rp_request msg
  else if bm_type msg =? SCRIBE_MSG_RP_REPLY then deliver_rp_reply msg
  else if bm_type msg =? SCRIBE_MSG_PARENT then deliver_parent msg
  else mret tt.
Definition scribe_forward_handler (msg : bmsg) : M scribe bmsg :=
  if bm_type msg =? SCRIBE_MSG_JOIN then forward_join msg else mret msg.

(** ** Calls of the middleware *)

(** The module maps a name to itself. *)
Definition map_uri (u : uri) : uri := u.

(** This node and the name of the group: a host, a separator, a C string. *)
Definition announcement (u : uri) : bytes := host_encode m_mykey me ++ str ":" ++ uri_str u ++ [NUL].

Definition create (u : uri) : M scribe Z :=
  group_key ← uri_mapping u;
  tmp_uri ← key_mapping group_key 0;
  modify (s_send (Routed (message_create group_key group_key (port_of u) SCRIBE_MSG_CREATE
    (HOST_CODED_SIZE + 1 + zlen (uri_str tmp_uri) + 1) (announcement tmp_uri)))) ;;
  notify new_source_event tmp_uri ;;
  mret HC_SUCCESS.

Definition join (u : uri) : M scribe Z :=
  group_key ← uri_mapping u;
  tmp_uri ← key_mapping group_key 0;
  lock_groups ;;
  s ← get;
  let group := match m_groups s !! group_key with
               | Some group => if uri_empty (g_uri group) then set_uri tmp_uri group else group
               | None => new_group tmp_uri
               end in
  mykey ← key_of me;
  modify (λ s, s_set_groups (<[group_key := add_child me mykey group]> (m_groups s)) s) ;;
  unlock_groups ;;
  modify (s_send (Routed (message_create group_key group_key (port_of u) SCRIBE_MSG_JOIN
    (HOST_CODED_SIZE + 1 + zlen (uri_str tmp_uri) + 1) (announcement tmp_uri)))) ;;
  notify join_event (g_uri group) ;;
  mret HC_SUCCESS.

Definition leave (u : uri) : M scribe Z :=
  group_key ← uri_mapping u;
  s ← get;
  (match m_groups s !! group_key with
   | Some group =>
       let group := del_child m_mykey group in
       lock_groups ;;
       modify (λ s, s_set_groups (<[group_key := group]> (m_groups s)) s) ;;
       unlock_groups ;;
       if (children group =? 0)%nat then
         match g_parent group with
         | Some parent =>
             pkey ← key_of parent;
             if key_equal m_mykey pkey then mret tt
             else send_me parent pkey group_key (port_of u) SCRIBE_MSG_LEAVE
         | None =>
             modify (s_send (Routed (message_create group_key group_key (port_of u) SCRIBE_MSG_LEAVE HOST_CODED_SIZE
               (host_encode m_mykey me))))
         end
       else mret tt
   | None => mret tt
   end) ;;
  notify join_event u ;;
  mret HC_SUCCESS.

Definition send_rp_request (u : uri) : M scribe unit :=
  group_key ← uri_mapping u;
  modify (s_send (Routed (message_create group_key group_key (port_of u) SCRIBE_MSG_RP_REQUEST HOST_CODED_SIZE
    (host_encode m_mykey me)))).

Definition send (u : uri) (payload : bytes) : M scribe Z :=
  group_key ← uri_mapping u;
  tmp_uri ← key_mapping group_key 0;
  lock_groups ;;
  s ← get;
  let rp := m_groups s !! group_key ≫= g_rp in
  modify (λ s, s_set_groups (map_insert group_key (new_group tmp_uri) (m_groups s)) s) ;;
  unlock_groups ;;
  (match rp with
   | Some rp =>
       rkey ← key_of rp;
       let msg := message_create rkey group_key (port_of u) SCRIBE_MSG_MULTICAST (zlen payload) payload in
       if key_equal rkey m_mykey then deliver_multicast msg else modify (s_send (Direct rp msg))
   | None =>
       send_rp_request u ;;
       modify (s_send (Routed (message_create group_key group_key (port_of u) SCRIBE_MSG_MULTICAST (zlen payload)
         payload)))
   end) ;;
  mret (i32 (zlen payload)).

(** ** Queries *)

Definition scribe_uri (k : Key) : uri := uri_of (str "scribe://" ++ key_to_string k).
Definition neighbor_set (leafset : list Key) : list uri := scribe_uri <$> leafset.

Fixpoint group_set_loop (groups : gmap Key scribe_group) (ks : list Key) : M scribe (list (uri * Z)) :=
  match ks with
  | [] => mret []
  | k :: ks =>
      match groups !! k with
      | None => group_set_loop groups ks
      | Some g =>
          group_uri ← (if uri_empty (g_uri g) then key_mapping (g_gid g) 0 else mret (g_uri g));
          rest ← group_set_loop groups ks;
          mret (if uri_empty group_uri then rest
                else
                  (group_uri,
                   if has_child m_mykey g then
                     if (1 <? children g)%nat then HC_SENDER_AND_LISTENER_STATE else HC_LISTENER_STATE
                   else HC_SENDER_STATE) :: rest)
      end
  end.
Definition group_set : M scribe (list (uri * Z)) :=
  lock_groups ;;
  s ← get;
  unlock_groups ;;
  group_set_loop (m_groups s) (keys_in_order (m_groups s)).

Definition parent_set (u : uri) : M scribe (list uri) :=
  group_key ← uri_mapping u;
  lock_groups ;;
  s ← get;
  r ← (match m_groups s !! group_key ≫= g_parent with
       | Some parent => pkey ← key_of parent; mret [scribe_uri pkey]
       | None => mret []
       end);
  unlock_groups ;;
  mret r.

Fixpoint children_set_loop (cs : gmap Key scribe_node) (ks : list Key) : M scribe (list uri) :=
  match ks with
  | [] => mret []
  | k :: ks =>
      match cs !! k with
      | None => children_set_loop cs ks
      | Some n =>
          ckey ← key_of (n_host n);
          rest ← children_set_loop cs ks;
          mret (if key_equal m_mykey ckey then rest else scribe_uri ckey :: rest)
      end
  end.
Definition children_set (u : uri) : M scribe (list uri) :=
  group_key ← uri_mapping u;
  lock_groups ;;
  s ← get;
  r ← (match m_groups s !! group_key with
       | Some g => children_set_loop (g_children g) (keys_in_order (g_children g))
       | None => mret []
       end);
  unlock_groups ;;
  mret r.

Definition designated_host (u : uri) : M scribe Z :=
  group_key ← uri_mapping u;
  lock_groups ;;
  s ← get;
  let ret := match m_groups s !! group_key with
             | Some g => if (1 <? children g)%nat || ((children g =? 1)%nat && negb (has_child m_mykey g)) then 1 else 0
             | None => 0
             end in
  unlock_groups ;;
  mret ret.

(** ** Maintenance *)

(** The loop over the children of a group: all but this node are counted
    down, and those that reached zero are deleted. *)
Definition age_child (k : Key) (n : scribe_node) : option scribe_node :=
  let n := if key_equal m_mykey k then n else node_decr n in
  if n_count n =? 0 then None else Some n.
Definition age_children (g : scribe_group) : scribe_group := set_children (map_imap age_child (g_children g)) g.

(** [j_groups]: the names of the groups this node is a member of. *)
Definition rejoin_uris (groups : gmap Key scribe_group) : list uri :=
  foldl (λ acc k,
    match groups !! k with
    | Some g => if has_child m_mykey g && negb (uri_empty (g_uri g)) then uri_set_insert (g_uri g) acc else acc
    | None => acc
    end) [] (keys_in_order groups).

(** One round of [maintenance]. *)
Definition maintenance : M scribe unit :=
  lock_groups ;;
  s ← get;
  modify (s_set_groups (age_children <$> m_groups s)) ;;
  unlock_groups ;;
  for_each (rejoin_uris (m_groups s)) (λ u, join u ;; mret tt).
End instance.

(** ** What the operations do to the state *)

Section effects.
Context (gethostbyaddr : Z → Z) (key_makehash : bytes → Key) (junk : Z) (junk_key : Key) (me : host_id) (m_mykey : Key).

Lemma caches_id s : s_set_caches (m_key_cache s) (m_uri_cache s) s = s.
Proof. by destruct s. Qed.

(** Names whose URIs the caches can hold are those of the namespace [ham]. *)
Definition name_lost (u : uri) : Prop := m_ham_namespace u ≠ str "ham".
Definition caches_lost (s : scribe) : Prop := map_Forall (λ _ u, u = uri_default) (m_uri_cache s).

Lemma namespace_lower t : tolower <$> m_ham_namespace (uri_of t) = m_ham_namespace (uri_of t).
Proof.
  destruct (uri_empty (uri_of t)) eqn:E.
  { apply bool_decide_eq_true in E. by rewrite /uri_of (from_empty_default t E). }
  destruct (uri_of_reassembles t E) as (graw & oi & op & os & _ & H & _).
  pose proof (tolower_all_idemp t) as Hid.
  rewrite H fmap_app (fmap_app tolower (m_ham_namespace (uri_of t))) in Hid. apply app_inj_1 in Hid as [_ Hid]; [|done].
  apply app_inj_1 in Hid as [Hid _]; [done|by rewrite length_fmap].
Qed.

Lemma lost_name_empty t rest :
  name_lost (uri_of t) → uri_of (m_ham_namespace (uri_of t) ++ str "://" ++ rest) = uri_default.
Proof.
  intros Hn. apply (uri_of_other_scheme (m_ham_namespace (uri_of t)) (str "//" ++ rest)).
  - destruct (uri_of_scheme t) as [->|(_ & _ & H)]; [constructor|done].
  - by rewrite namespace_lower.
Qed.

(** [uri_mapping] always has a key and changes only the caches. *)
Lemma uri_mapping_eq u s :
  ∃ k x y, uri_mapping key_makehash junk u s = (Ok k, s_set_caches x y s) ∧
    (caches_lost s → (∃ t, u = uri_of t) → name_lost u → caches_lost (s_set_caches x y s)).
Proof.
  rewrite /uri_mapping /mbind /M_bind /get. destruct (if bool_decide _ then _ else _) as [k|].
  { exists k, (m_key_cache s), (m_uri_cache s). by rewrite caches_id. }
  cbn [modify]. set (grp := if bool_decide (m_instantiation u = []) then _ else _).
  assert (∀ v rest (m : gmap (list Z) uri), map_Forall (λ _ u, u = uri_default) m → (∃ t, u = uri_of t) → name_lost u →
    map_Forall (λ _ u, u = uri_default) (map_insert v (uri_of (m_ham_namespace u ++ str "://" ++ rest)) m)) as Hins.
  { intros v rest m Hm [t ->] Hn v' u' [(-> & ->)|E]%map_insert_Some; [|by apply (Hm v')]. by apply lost_name_empty. }
  destruct (_ =? 0).
  - eexists _, _, _. split; [done|]. intros Hs Ht Hn. exact (Hins _ _ _ Hs Ht Hn).
  - eexists _, _, _. split; [done|]. intros Hs Ht Hn. exact (Hins _ _ _ (Hins _ _ _ Hs Ht Hn) Ht Hn).
Qed.

Lemma key_mapping_0 k s : key_mapping key_makehash junk k 0 s = (Ok (default uri_default (m_uri_cache s !! k)), s).
Proof. rewrite /key_mapping /mbind /M_bind /get. change (0 <? 0) with false. cbv iota. unfold Key in *. by destruct (m_uri_cache s !! k). Qed.

Lemma name_lost_default : name_lost uri_default.
Proof. done. Qed.

Lemma key_mapping_eq k port s :
  ∃ u x y, key_mapping key_makehash junk k port s = (Ok u, s_set_caches x y s) ∧
    (caches_lost s → u = uri_default ∧ caches_lost (s_set_caches x y s)).
Proof.
  rewrite /key_mapping /mbind /M_bind /get. destruct (m_uri_cache s !! _) as [u|] eqn:E.
  { exists u, (m_key_cache s), (m_uri_cache s). rewrite caches_id. split; [done|]. intros Hs. split; [by apply (Hs _ _ E)|done]. }
  destruct (0 <? port); cbn zeta.
  - set (t := match m_uri_cache s !! k with Some _ => _ | None => _ end).
    destruct (uri_mapping_eq (uri_of t) s) as (k' & x & y & -> & H). exists (uri_of t), x, y. split; [done|].
    intros Hs. assert (uri_of t = uri_default) as Ht.
    { rewrite /t. destruct (m_uri_cache s !! k) as [v|] eqn:Ev; [|by vm_compute]. rewrite (Hs _ _ Ev).
      change (uri_str uri_default ++ str ":" ++ ?r) with ([] ++ ":"%char :: r). apply uri_of_other_scheme; [constructor|done]. }
    split; [done|]. apply H; [done|by eexists|]. rewrite Ht. apply name_lost_default.
  - exists uri_default, (m_key_cache s), (m_uri_cache s). by rewrite caches_id.
Qed.

(** A message that states its host and the name of its group. *)
Definition announces (msg : bmsg) : Prop :=
  HOST_CODED_SIZE <= zlen (bm_payload msg) ∧ NUL ∈ zdrop (HOST_CODED_SIZE + 1) (bm_payload msg).
Definition announced_uri (msg : bmsg) : uri := uri_of (c_str (zdrop (HOST_CODED_SIZE + 1) (bm_payload msg))).

Lemma message_group_uri_eq msg s :
  announces msg →
  ∃ u x y, message_group_uri key_makehash junk msg s = (Ok (Some u), s_set_caches x y s) ∧
    (caches_lost s → name_lost (announced_uri msg) → u = uri_default ∧ caches_lost (s_set_caches x y s)).
Proof.
  clear gethostbyaddr junk_key me m_mykey. intros [Hl Hn]. rewrite /message_group_uri.
  destruct (key_mapping_eq (bm_src msg) (bm_port msg) s) as (u1 & x1 & y1 & E1 & H1). step_ok E1.
  rewrite (bind_ok _ _ _ _ _ (key_mapping_0 _ _)). set (u2 := default _ _).
  assert (caches_lost s → u2 = uri_default) as Hu2.
  { intros Hs. rewrite /u2. destruct (m_uri_cache _ !! _) eqn:E; [|done]. by apply (proj2 (H1 Hs) _ _ E). }
  destruct (uri_empty u2); [|exists u2, x1, y1; naive_solver].
  rewrite (proj2 (Z.leb_le _ _) Hl). cbn zeta. rewrite bool_decide_true // -/(announced_uri msg).
  destruct (uri_empty (announced_uri msg)); [exists u2, x1, y1; naive_solver|].
  destruct (uri_mapping_eq (announced_uri msg) (s_set_caches x1 y1 s)) as (k & x2 & y2 & E2 & H2). step_ok E2.
  rewrite (bind_ok _ _ _ _ _ (key_mapping_0 _ _)). eexists _, x2, y2. split; [done|]. intros Hs Hm.
  destruct (H1 Hs) as [_ Hs1]. specialize (H2 Hs1 ltac:(by eexists) Hm). split; [|done].
  destruct (m_uri_cache _ !! k) eqn:E; [|done]. by apply (H2 _ _ E).
Qed.

(** Any message: only a name without end goes wrong. *)
Lemma message_group_uri_any msg s :
  ∃ x y, (∃ o, message_group_uri key_makehash junk msg s = (Ok o, s_set_caches x y s)) ∨
    message_group_uri key_makehash junk msg s = (UB "group name behind the end of a message", s_set_caches x y s).
Proof.
  clear gethostbyaddr junk_key me m_mykey. rewrite /message_group_uri.
  destruct (key_mapping_eq (bm_src msg) (bm_port msg) s) as (u1 & x1 & y1 & E1 & _). step_ok E1.
  rewrite (bind_ok _ _ _ _ _ (key_mapping_0 _ _)). set (u2 := default _ _).
  destruct (uri_empty u2); [|exists x1, y1; left; by eexists].
  destruct (_ <=? _); [|exists x1, y1; left; by eexists]. cbn zeta.
  destruct (bool_decide _); [|exists x1, y1; by right]. rewrite -/(announced_uri msg).
  destruct (uri_empty (announced_uri msg)); [exists x1, y1; left; by eexists|].
  destruct (uri_mapping_eq (announced_uri msg) (s_set_caches x1 y1 s)) as (k & x2 & y2 & E2 & _). step_ok E2.
  rewrite (bind_ok _ _ _ _ _ (key_mapping_0 _ _)). exists x2, y2. left. by eexists.
Qed.

Lemma decode_host_short payload s :
  zlen payload < HOST_CODED_SIZE →
  decode_host gethostbyaddr payload s = (UB "host behind the end of a message", s).
Proof. intros Hl. by rewrite /decode_host (proj2 (Z.ltb_lt _ _) Hl). Qed.

Lemma decode_host_eq payload s :
  HOST_CODED_SIZE <= zlen payload →
  decode_host gethostbyaddr payload s =
    (Ok (decoded gethostbyaddr payload), s_set_hosts (host_decode gethostbyaddr payload (s_hosts s)).2 s).
Proof. intros Hl. rewrite /decode_host (proj2 (Z.ltb_ge _ _) Hl). done. Qed.

Lemma key_of_eq h k s : host_key (s_hosts s) h = Some k → key_of h s = (Ok k, s).
Proof. intros H. rewrite /key_of /mbind /M_bind /get. by rewrite H. Qed.

Lemma lock_eq s : m_grp_mutex s = false → lock_groups s = (Ok tt, s_set_mutex true s).
Proof. intros H. rewrite /lock_groups /mbind /M_bind /get. by rewrite H. Qed.

Lemma unlock_lock s : m_grp_mutex s = false → s_set_mutex false (s_set_mutex true s) = s.
Proof. destruct s. simpl. by intros ->. Qed.

(** The state behind [adopt]. *)
Definition adopted (msg : bmsg) (u : uri) (host : host_id) (hkey : Key) (s : scribe) : scribe :=
  let s := s_set_groups
    (<[bm_src msg := add_child host hkey (default (new_group junk_key u) (m_groups s !! bm_src msg))]> (m_groups s)) s in
  let s := if key_equal m_mykey hkey then s
           else s_send (Direct host (message_create hkey (bm_src msg) (bm_port msg) SCRIBE_MSG_PARENT HOST_CODED_SIZE
                  (host_encode m_mykey me))) s in
  if uri_empty u then s else s_event (join_event, u) s.

Lemma adopt_eq msg u host hkey s :
  m_grp_mutex s = false → host_key (s_hosts s) host = Some hkey →
  adopt junk_key me m_mykey msg u host s = (Ok tt, adopted msg u host hkey s).
Proof.
  intros Hm Hk. rewrite /adopt (bind_ok _ _ _ _ _ (lock_eq s Hm)) (bind_ok _ _ _ _ _ (key_of_eq host hkey (s_set_mutex true s) Hk)).
  rewrite /mbind /M_bind /modify /unlock_groups /send_me /notify /adopted.
  destruct s as [hg gs mtx kc uc sent rcv evs]. simpl in *. subst mtx.
  destruct (key_equal m_mykey hkey), (uri_empty u); done.
Qed.

(** One message of the loop of [deliver_multicast]. *)
Definition copy_to_child (msg : bmsg) (u : uri) (G : scribe_group) (s : scribe) (k : Key) : scribe :=
  if key_equal k m_mykey then s_receive (bm_payload msg, u) s
  else match g_children G !! k with
       | Some n =>
           s_send (Direct (n_host n) (message_create k (bm_src msg) (bm_port msg) (bm_type msg) (zlen (bm_payload msg))
             (bm_payload msg))) s
       | None => s
       end.

Lemma deliver_multicast_eq msg G s :
  m_grp_mutex s = false → m_groups s !! bm_src msg = Some G →
  ∃ u x y, deliver_multicast key_makehash junk m_mykey msg s =
    (Ok tt, if zlen (bm_payload msg) =? 0 then s_set_caches x y s
            else foldl (copy_to_child msg u G) (s_set_caches x y s) (keys_in_order (g_children G))) ∧
    (caches_lost s → u = uri_default ∧ caches_lost (s_set_caches x y s)).
Proof.
  intros Hm HG. rewrite /deliver_multicast (bind_ok _ _ _ _ _ (lock_eq s Hm)).
  destruct (key_mapping_eq (bm_src msg) (bm_port msg) s) as (u & x & y & E & H). exists u, x, y. split; [|done].
  assert ((get : M scribe scribe) (s_set_mutex true s) = (Ok (s_set_mutex true s), s_set_mutex true s)) as E1 by done.
  step_ok E1. cbn [m_groups s_set_mutex]. rewrite HG.
  assert (unlock_groups (s_set_mutex true s) = (Ok tt, s)) as E2.
  { rewrite /unlock_groups /modify. by destruct s; simpl in *; subst. }
  step_ok E2. step_ok E. destruct (_ =? 0); [done|].
  generalize (s_set_caches x y s) as s'. induction (keys_in_order (g_children G)) as [|k ks IH]; intros s'; [done|].
  simpl. rewrite /mbind /M_bind -IH /copy_to_child. destruct (key_equal k m_mykey); [done|].
  by destruct (g_children G !! k).
Qed.

Lemma deliver_multicast_unknown msg s :
  m_grp_mutex s = false → m_groups s !! bm_src msg = None →
  deliver_multicast key_makehash junk m_mykey msg s = (Ok tt, s_set_mutex true s).
Proof.
  intros Hm HG. rewrite /deliver_multicast (bind_ok _ _ _ _ _ (lock_eq s Hm)) /mbind /M_bind /get.
  cbn [m_groups s_set_mutex]. by rewrite HG.
Qed.
End effects.

(** ** The invariant *)

Section invariant.
Context (gethostbyaddr : Z → Z) (key_makehash : bytes → Key) (junk : Z) (junk_key : Key) (me : host_id) (m_mykey : Key).
Context (mykey_nonzero : m_mykey ≠ zero_key).

(** A child counts 1 or 2, this node itself always 2, the hosts a group
    refers to are in the cache, and keys have three words. *)
Record group_ok (hg : HostGlobal) (G : scribe_group) : Prop := {
  go_count k n : g_children G !! k = Some n → 1 <= n_count n <= c_default_count ∧ is_Some (hg_hosts hg !! n_host n);
  go_self n : g_children G !! m_mykey = Some n → n_count n = c_default_count;
  go_parent h : g_parent G = Some h → is_Some (hg_hosts hg !! h);
  go_rp h : g_rp G = Some h → is_Some (hg_hosts hg !! h);
  go_key k n : g_children G !! k = Some n → key_ok k
}.
Record sinv (hg : HostGlobal) (groups : gmap Key scribe_group) : Prop := {
  si_free : no_free hg;
  si_me : host_key hg me = Some m_mykey;
  si_keys h k : host_key hg h = Some k → key_ok k;
  si_groups : map_Forall (λ _ G, group_ok hg G) groups
}.
Definition inv (s : scribe) : Prop := sinv (s_hosts s) (m_groups s) ∧ m_grp_mutex s = false.

(** No name of a group is left. *)
Definition names_lost (s : scribe) : Prop :=
  caches_lost s ∧ map_Forall (λ _ G, g_uri G = uri_default) (m_groups s) ∧
  Forall (λ r, r.2 = uri_default) (m_received s).

Lemma present_key hg h : is_Some (hg_hosts hg !! h) ↔ is_Some (host_key hg h).
Proof. by rewrite /host_key fmap_is_Some. Qed.

Lemma group_ok_mono hg hg' G :
  (∀ h, is_Some (hg_hosts hg !! h) → is_Some (hg_hosts hg' !! h)) → group_ok hg G → group_ok hg' G.
Proof.
  clear gethostbyaddr key_makehash junk junk_key mykey_nonzero. intros Hp [H1 H2 H3 H4 H5]. split; naive_solver.
Qed.

Lemma group_ok_new hg u : group_ok hg (new_group junk_key u).
Proof. rewrite /new_group /set_uri. destruct (uri_empty u); split; simpl; done. Qed.

Lemma group_ok_uri hg u G : group_ok hg G → group_ok hg (set_uri u G).
Proof. intros [H1 H2 H3 H4 H5]. rewrite /set_uri. destruct (uri_empty u); by split. Qed.

Lemma node_incr_count n : 1 <= n_count n <= c_default_count → n_count (node_incr n) = c_default_count ∧ n_host (node_incr n) = n_host n.
Proof. rewrite /node_incr. change c_default_count with 2. destruct (Z.ltb_spec (n_count n) 2); simpl; split; done || lia. Qed.

Lemma group_ok_add hg h k G : is_Some (hg_hosts hg !! h) → key_ok k → group_ok hg G → group_ok hg (add_child h k G).
Proof.
  intros Hh Hk [H1 H2 H3 H4 H5]. split; simpl; [| |done..|].
  - intros k' n [(<- & <-)|(_ & Hn)]%lookup_insert_Some; [|by eapply H1].
    destruct (g_children G !! k) as [n|] eqn:E; [|done].
    destruct (H1 k n E) as [Hc Hp]. destruct (node_incr_count n Hc) as [-> ->]. done.
  - intros n [(-> & <-)|(_ & Hn)]%lookup_insert_Some; [|by apply H2].
    case_match eqn:E; [|done]. apply node_incr_count. by apply (H1 _ _ E).
  - intros k' n [(<- & _)|(_ & Hn)]%lookup_insert_Some; [done|by eapply H5].
Qed.

Lemma group_ok_children hg f G :
  group_ok hg G →
  (∀ k n, f k = Some n → ∃ n0, g_children G !! k = Some n0 ∧ n_host n = n_host n0 ∧ 1 <= n_count n <= n_count n0 ∧
    (k = m_mykey → n = n0)) →
  ∀ cs, (∀ k, cs !! k = f k) → group_ok hg (set_children cs G).
Proof.
  intros [H1 H2 H3 H4 H5] Hf cs Hcs. split; simpl; [| |done..|].
  - intros k n Hn. rewrite Hcs in Hn. destruct (Hf k n Hn) as (n0 & Hn0 & -> & Hc & _).
    destruct (H1 k n0 Hn0) as [? ?]. split; [lia|done].
  - intros n Hn. rewrite Hcs in Hn. destruct (Hf _ n Hn) as (n0 & Hn0 & _ & _ & Heq). rewrite (Heq eq_refl). by apply H2.
  - intros k n Hn. rewrite Hcs in Hn. destruct (Hf k n Hn) as (n0 & Hn0 & _). by eapply H5.
Qed.

Lemma group_ok_del hg k G : group_ok hg G → group_ok hg (del_child k G).
Proof.
  intros HG. eapply (group_ok_children hg (λ k', delete k (g_children G) !! k')); [done| |done].
  intros k' n [_ Hn]%lookup_delete_Some. exists n. split_and!; try done; apply (go_count hg G HG k' n Hn).
Qed.

(** What a maintenance round makes of a child. *)
Lemma age_children_lookup hg k G :
  group_ok hg G →
  g_children (age_children m_mykey G) !! k =
    match g_children G !! k with
    | Some n => if key_equal m_mykey k then Some n
                else if n_count n =? 1 then None else Some {| n_host := n_host n; n_count := n_count n - 1 |}
    | None => None
    end.
Proof.
  intros HG. rewrite /age_children /= map_lookup_imap. destruct (g_children G !! k) as [n|] eqn:E; [|done].
  destruct (go_count hg G HG k n E) as [Hc _]. rewrite /= /age_child /node_decr. destruct (key_equal m_mykey k).
  - by rewrite (proj2 (Z.eqb_neq (n_count n) 0)); [lia|].
  - rewrite (proj2 (Z.ltb_lt 0 (n_count n))); [lia|]. simpl.
    destruct (Z.eqb_spec (n_count n - 1) 0), (Z.eqb_spec (n_count n) 1); done || lia.
Qed.

Lemma key_equal_refl k : key_equal k k = true.
Proof. apply forallb_forall. intros i _. apply Z.eqb_refl. Qed.

Lemma group_ok_age hg G : group_ok hg G → group_ok hg (age_children m_mykey G).
Proof.
  intros HG. rewrite /age_children. eapply (group_ok_children hg (λ k, g_children (age_children m_mykey G) !! k)); [done| |done].
  intros k n. rewrite (age_children_lookup hg) //. destruct (g_children G !! k) as [n0|] eqn:E; [|done].
  destruct (go_count hg G HG k n0 E) as [Hc _]. destruct (key_equal m_mykey k) eqn:Ek; [intros [= <-]; exists n0; split_and!; try done; lia|].
  destruct (Z.eqb_spec (n_count n0) 1); [done|]. intros [= <-]. exists n0. split_and!; simpl; try done; try lia.
  intros ->. by rewrite key_equal_refl in Ek.
Qed.

Lemma sinv_insert hg gs g G : sinv hg gs → group_ok hg G → sinv hg (<[g := G]> gs).
Proof. intros [H1 H2 Hky H3] HG. split; [done..|]. by apply map_Forall_insert_2. Qed.

Lemma sinv_lookup hg gs g G : sinv hg gs → gs !! g = Some G → group_ok hg G.
Proof. intros Hs HG. by apply (si_groups hg gs Hs g G). Qed.

Lemma sinv_decode b hg gs :
  sinv hg gs →
  let hg' := (host_decode gethostbyaddr b hg).2 in
  sinv hg' gs ∧ is_Some (host_key hg' (decoded gethostbyaddr b)).
Proof.
  intros [H1 H2 Hky H3]. destruct (host_decode_no_free gethostbyaddr b hg H1) as (G1 & G2 & G3).
  set (hg' := (host_decode gethostbyaddr b hg).2) in *. cbn zeta. split; [|by rewrite G3]. split; [done| | |].
  - destruct (decide (me = decoded gethostbyaddr b)) as [E|E].
    + rewrite E G3 -E H2 /=. by rewrite bool_decide_false.
    + by rewrite -H2 /host_key G2.
  - intros h k. destruct (decide (h = decoded gethostbyaddr b)) as [->|E]; [|rewrite /host_key G2 //; apply Hky].
    rewrite G3. intros [= <-]. case_bool_decide as Hz; [apply read_key_ok|].
    destruct (host_key hg (decoded gethostbyaddr b)) as [k|] eqn:Ek; [by apply (Hky _ _ Ek)|done].
  - eapply map_Forall_impl; [exact H3|]. intros g G. apply group_ok_mono. intros h Hh.
    destruct (decide (h = decoded gethostbyaddr b)) as [->|E]; [|by rewrite G2].
    apply present_key. by rewrite G3.
Qed.

(** *** Frames *)

Lemma inv_decode b s : inv s → inv (s_set_hosts (host_decode gethostbyaddr b (s_hosts s)).2 s) ∧
  is_Some (host_key (host_decode gethostbyaddr b (s_hosts s)).2 (decoded gethostbyaddr b)).
Proof. intros [Hs Hm]. by destruct (sinv_decode b _ _ Hs) as [H1 H2]. Qed.

Lemma inv_group s g G : inv s → group_ok (s_hosts s) G → inv (s_set_groups (<[g := G]> (m_groups s)) s).
Proof. intros [Hs Hm] HG. split; [|done]. by apply sinv_insert. Qed.

Lemma inv_default_group s g u : inv s → group_ok (s_hosts s) (default (new_group junk_key u) (m_groups s !! g)).
Proof.
  intros [Hs Hm]. destruct (m_groups s !! g) as [G|] eqn:E; [by eapply sinv_lookup|apply group_ok_new].
Qed.

Lemma names_caches x y s : names_lost s → caches_lost (s_set_caches x y s) → names_lost (s_set_caches x y s).
Proof. by intros (_ & H2 & H3) H1. Qed.
Lemma names_group s g G : names_lost s → g_uri G = uri_default → names_lost (s_set_groups (<[g := G]> (m_groups s)) s).
Proof. intros (H1 & H2 & H3) HG. split_and!; [done| |done]. by apply map_Forall_insert_2. Qed.
Lemma new_group_default : g_uri (new_group junk_key uri_default) = uri_default.
Proof. done. Qed.
Lemma names_default_group s g : names_lost s → g_uri (default (new_group junk_key uri_default) (m_groups s !! g)) = uri_default.
Proof. intros (_ & H2 & _). destruct (m_groups s !! g) as [G|] eqn:E; [by apply (H2 g)|done]. Qed.

Lemma inv_adopted msg u host hkey s :
  inv s → host_key (s_hosts s) host = Some hkey → inv (adopted junk_key me m_mykey msg u host hkey s).
Proof.
  intros Hs Hk. assert (is_Some (hg_hosts (s_hosts s) !! host)) as Hp by (apply present_key; by rewrite Hk).
  pose proof (inv_group s (bm_src msg) (add_child host hkey _) Hs
    (group_ok_add _ host hkey _ Hp (si_keys _ _ (proj1 Hs) _ _ Hk) (inv_default_group s (bm_src msg) u Hs))) as H.
  rewrite /adopted. destruct (key_equal m_mykey hkey), (uri_empty u); exact H.
Qed.
Lemma names_adopted msg host hkey s :
  names_lost s → names_lost (adopted junk_key me m_mykey msg uri_default host hkey s).
Proof.
  intros Hs. pose proof (names_group s (bm_src msg) (add_child host hkey _) Hs (names_default_group s (bm_src msg) Hs)) as H.
  rewrite /adopted. destruct (key_equal m_mykey hkey); exact H.
Qed.

(** *** The handlers *)

Lemma message_adopted msg s :
  announces msg → inv s →
  let host := decoded gethostbyaddr (bm_payload msg) in
  let hg := (host_decode gethostbyaddr (bm_payload msg) (s_hosts s)).2 in
  ∃ u x y hkey, host_key hg host = Some hkey ∧
    message_group_uri key_makehash junk msg s = (Ok (Some u), s_set_caches x y s) ∧
    decode_host gethostbyaddr (bm_payload msg) (s_set_caches x y s) = (Ok host, s_set_hosts hg (s_set_caches x y s)) ∧
    inv (s_set_hosts hg (s_set_caches x y s)) ∧
    (names_lost s → name_lost (announced_uri msg) → u = uri_default ∧ names_lost (s_set_hosts hg (s_set_caches x y s))).
Proof.
  intros Ha Hs host hg. destruct (message_group_uri_eq key_makehash junk msg s Ha) as (u & x & y & E & Hn).
  assert (inv (s_set_caches x y s)) as Hs1 by exact Hs.
  destruct (inv_decode (bm_payload msg) _ Hs1) as [Hs2 [hkey Hk]]. exists u, x, y, hkey. split_and!; [done|done| |done|].
  - rewrite decode_host_eq; [apply Ha|done].
  - intros Hl Hm. destruct (Hn (proj1 Hl) Hm) as [-> Hc]. split; [done|]. exact (names_caches x y s Hl Hc).
Qed.

Lemma deliver_join_runs msg s :
  announces msg → inv s →
  let host := decoded gethostbyaddr (bm_payload msg) in
  let hg := (host_decode gethostbyaddr (bm_payload msg) (s_hosts s)).2 in
  ∃ u x y hkey, host_key hg host = Some hkey ∧
    let s' := adopted junk_key me m_mykey msg u host hkey (s_set_hosts hg (s_set_caches x y s)) in
    deliver_join gethostbyaddr key_makehash junk junk_key me m_mykey msg s = (Ok tt, s') ∧ inv s' ∧
    (names_lost s → name_lost (announced_uri msg) → u = uri_default ∧ names_lost s').
Proof.
  intros Ha Hs host hg. destruct (message_adopted msg s Ha Hs) as (u & x & y & hkey & Hk & E1 & E2 & Hs2 & Hn).
  exists u, x, y, hkey. split; [done|]. rewrite /deliver_join. step_ok E1. step_ok E2. split_and!.
  - apply adopt_eq; [apply Hs2|done].
  - by apply inv_adopted.
  - intros Hl Hm. destruct (Hn Hl Hm) as [-> Hl2]. split; [done|]. by apply names_adopted.
Qed.

Lemma forward_join_runs msg s :
  announces msg → inv s →
  let host := decoded gethostbyaddr (bm_payload msg) in
  let hg := (host_decode gethostbyaddr (bm_payload msg) (s_hosts s)).2 in
  let msg' := {| bm_dst := bm_dst msg; bm_src := bm_src msg; bm_port := bm_port msg; bm_type := bm_type msg;
                 bm_payload := host_encode m_mykey me ++ zdrop HOST_CODED_SIZE (bm_payload msg) |} in
  ∃ u x y hkey, host_key hg host = Some hkey ∧
    let s' := adopted junk_key me m_mykey msg' u host hkey (s_set_hosts hg (s_set_caches x y s)) in
    forward_join gethostbyaddr key_makehash junk junk_key me m_mykey msg s = (Ok msg', s') ∧ inv s' ∧
    (names_lost s → name_lost (announced_uri msg) → u = uri_default ∧ names_lost s').
Proof.
  intros Ha Hs host hg msg'. destruct (message_adopted msg s Ha Hs) as (u & x & y & hkey & Hk & E1 & E2 & Hs2 & Hn).
  exists u, x, y, hkey. split; [done|]. rewrite /forward_join. step_ok E1. step_ok E2. split_and!.
  - assert (adopt junk_key me m_mykey msg' u host (s_set_hosts hg (s_set_caches x y s)) =
      (Ok tt, adopted junk_key me m_mykey msg' u host hkey (s_set_hosts hg (s_set_caches x y s)))) as E3.
    { apply adopt_eq; [apply Hs2|done]. }
    by step_ok E3.
  - by apply inv_adopted.
  - intros Hl Hm. destruct (Hn Hl Hm) as [-> Hl2]. split; [done|]. by apply names_adopted.
Qed.

(** The outcome of an operation that neither fails nor breaks the invariant;
    [N] is what it takes to lose the names. *)
Definition runs {A} (N : Prop) (m : M scribe A) (s : scribe) : Prop :=
  ∃ a s', m s = (Ok a, s') ∧ inv s' ∧ (N → names_lost s → names_lost s').

Lemma runs_bind {A B} N (m : M scribe A) (k : A → M scribe B) s :
  runs N m s → (∀ a s', m s = (Ok a, s') → inv s' → runs N (k a) s') → runs N (m ≫= k) s.
Proof.
  intros (a & s1 & E & Hs1 & Hn1) Hk. destruct (Hk a s1 E Hs1) as (b & s2 & E2 & Hs2 & Hn2).
  exists b, s2. rewrite (bind_ok _ _ _ _ _ E). split_and!; [done..|]. auto.
Qed.

Lemma runs_state {A} N (m : M scribe A) (a : A) s s' :
  m s = (Ok a, s') → inv s' → (N → names_lost s → names_lost s') → runs N m s.
Proof. intros H1 H2 H3. by exists a, s'. Qed.

Lemma runs_ret {A} N (a : A) s : inv s → runs N (mret a) s.
Proof. intros Hs. by exists a, s. Qed.

(** Steps that only report. *)
Lemma runs_report N f s :
  inv s → (∀ s, s_hosts (f s) = s_hosts s ∧ m_groups (f s) = m_groups s ∧ m_grp_mutex (f s) = m_grp_mutex s ∧
    m_uri_cache (f s) = m_uri_cache s ∧ m_received (f s) = m_received s) → runs N (modify f) s.
Proof.
  intros Hs Hf. destruct (Hf s) as (E1 & E2 & E3 & E4 & E5). apply (runs_state N _ tt s (f s)); [done| |].
  - by rewrite /inv E1 E2 E3.
  - intros _. by rewrite /names_lost /caches_lost E2 E4 E5.
Qed.

Lemma runs_uri_mapping N t s : inv s → (N → name_lost (uri_of t)) → runs N (uri_mapping key_makehash junk (uri_of t)) s.
Proof.
  intros Hs Hn. destruct (uri_mapping_eq key_makehash junk (uri_of t) s) as (k & x & y & E & H).
  apply (runs_state _ _ _ _ _ E); [exact Hs|]. intros HN Hl. apply names_caches; [done|]. apply H; [apply Hl|by eexists|by apply Hn].
Qed.

Lemma runs_decode N payload s :
  inv s → HOST_CODED_SIZE <= zlen payload → runs N (decode_host gethostbyaddr payload) s.
Proof.
  intros Hs Hl. eapply runs_state; [by apply decode_host_eq|by apply inv_decode|]. by intros _ Hn.
Qed.

Lemma runs_key_of N h s : inv s → is_Some (hg_hosts (s_hosts s) !! h) → runs N (key_of h) s.
Proof. intros Hs [k Hk]%present_key. by eapply runs_state; [apply (key_of_eq h k)| |]. Qed.

(** A change of the groups under the lock. *)
Lemma runs_locked (N : Prop) (f : gmap Key scribe_group → gmap Key scribe_group) s :
  inv s → sinv (s_hosts s) (f (m_groups s)) →
  (N → names_lost s → map_Forall (λ _ G, g_uri G = uri_default) (f (m_groups s))) →
  runs N (lock_groups ;; modify (λ s, s_set_groups (f (m_groups s)) s) ;; unlock_groups) s.
Proof.
  intros [Hs Hm] Hf Hn. apply (runs_state N _ tt s (s_set_groups (f (m_groups s)) s)).
  - rewrite (bind_ok _ _ _ _ _ (lock_eq s Hm)). rewrite /mbind /M_bind /modify /unlock_groups.
    by destruct s; simpl in *; subst.
  - done.
  - intros HN Hl. pose proof (Hn HN Hl). by destruct Hl as (H1 & _ & H3).
Qed.

Lemma runs_deliver_create msg s :
  announces msg → inv s →
  runs (name_lost (announced_uri msg)) (deliver_create key_makehash junk junk_key msg) s.
Proof.
  intros Ha Hs. destruct (message_group_uri_eq key_makehash junk msg s Ha) as (u & x & y & E & Hn).
  assert (inv (s_set_caches x y s)) as Hs1 by exact Hs.
  rewrite /deliver_create. rewrite /runs. step_ok E. destruct (uri_empty u) eqn:Eu.
  { eexists _, _. split; [done|]. split; [done|]. intros Hm Hl. apply names_caches; [done|]. by apply Hn; [apply Hl|]. }
  rewrite (bind_ok _ _ _ _ _ (lock_eq (s_set_caches x y s) (proj2 Hs))).
  eexists _, _. split; [done|]. split.
  - split; [|done]. simpl. rewrite /map_insert. destruct (m_groups s !! bm_src msg); [apply Hs|].
    apply sinv_insert; [apply Hs|apply group_ok_new].
  - intros Hm Hl. by destruct (Hn (proj1 Hl) Hm) as [-> _].
Qed.

(** The last child has left: what the parent is told, and what is sent when
    the parent is not known. *)
Definition told_parent (G : scribe_group) (unknown : list sending) (src : Key) (port : Z) (hg : HostGlobal) : list sending :=
  if (children G =? 0)%nat then
    match g_parent G with
    | Some p =>
        match host_key hg p with
        | Some pkey =>
            if key_equal m_mykey pkey then []
            else [Direct p (message_create pkey src port SCRIBE_MSG_LEAVE HOST_CODED_SIZE (host_encode m_mykey me))]
        | None => []
        end
    | None => unknown
    end
  else [].
Definition s_sends (l : list sending) (s : scribe) : scribe := foldl (λ s x, s_send x s) s l.

Lemma sends_frame l s : s_hosts (s_sends l s) = s_hosts s ∧ m_groups (s_sends l s) = m_groups s ∧
  m_grp_mutex (s_sends l s) = m_grp_mutex s ∧ m_uri_cache (s_sends l s) = m_uri_cache s ∧
  m_received (s_sends l s) = m_received s ∧ m_sent (s_sends l s) = m_sent s ++ l.
Proof.
  revert s. induction l as [|x l IH]; intros s; [by rewrite app_nil_r|].
  destruct (IH (s_send x s)) as (H1 & H2 & H3 & H4 & H5 & H6). rewrite /s_sends /= -/(s_sends _ _).
  rewrite H1 H2 H3 H4 H5 H6 /=. split_and!; try done. by rewrite -app_assoc.
Qed.
Lemma inv_sends l s : inv s → inv (s_sends l s).
Proof. destruct (sends_frame l s) as (H1 & H2 & H3 & _). by rewrite /inv H1 H2 H3. Qed.
Lemma names_sends l s : names_lost s → names_lost (s_sends l s).
Proof. destruct (sends_frame l s) as (_ & H2 & _ & H4 & H5 & _). by rewrite /names_lost /caches_lost H2 H4 H5. Qed.

Lemma tell_parent_eq G unknown src port s :
  group_ok (s_hosts s) G →
  (if (children G =? 0)%nat then
     match g_parent G with
     | Some p => pkey ← key_of p;
         if key_equal m_mykey pkey then mret tt else send_me me m_mykey p pkey src port SCRIBE_MSG_LEAVE
     | None => modify (s_sends unknown)
     end
   else mret tt) s = (Ok tt, s_sends (told_parent G unknown src port (s_hosts s)) s).
Proof.
  intros HG. rewrite /told_parent. destruct (children G =? 0)%nat; [|done]. destruct (g_parent G) as [p|] eqn:Ep; [|done].
  destruct (proj1 (present_key _ _) (go_parent _ G HG p Ep)) as [pk Hk]. rewrite (bind_ok _ _ _ _ _ (key_of_eq p pk s Hk)) Hk.
  by destruct (key_equal m_mykey pk).
Qed.

(** The effect of a LEAVE message. *)
Lemma deliver_leave_runs msg s :
  HOST_CODED_SIZE <= zlen (bm_payload msg) → inv s →
  match m_groups s !! bm_src msg with
  | None => deliver_leave gethostbyaddr me m_mykey msg s = (Ok tt, s)
  | Some G =>
      let hg := (host_decode gethostbyaddr (bm_payload msg) (s_hosts s)).2 in
      ∃ hkey, host_key hg (decoded gethostbyaddr (bm_payload msg)) = Some hkey ∧
      let G' := del_child hkey G in
      let s1 := s_set_groups (<[bm_src msg := G']> (m_groups s)) (s_set_hosts hg s) in
      deliver_leave gethostbyaddr me m_mykey msg s =
        (Ok tt, s_sends (told_parent G' [] (bm_src msg) (bm_port msg) hg) s1) ∧ inv s1
  end.
Proof.
  intros Hl Hs. destruct (m_groups s !! bm_src msg) as [G|] eqn:EG; cycle 1.
  { rewrite /deliver_leave (bind_ok _ _ _ _ _ (lock_eq s (proj2 Hs))) /mbind /M_bind /get. cbn [m_groups s_set_mutex].
    rewrite EG /unlock_groups /modify unlock_lock //. apply Hs. }
  destruct (inv_decode (bm_payload msg) s Hs) as [Hs1 [hkey Hk]]. exists hkey. split; [done|].
  set (hg := (host_decode gethostbyaddr (bm_payload msg) (s_hosts s)).2) in *. set (G' := del_child hkey G).
  assert (group_ok hg G') as HG' by (apply group_ok_del; by eapply (sinv_lookup hg); [apply Hs1|]).
  split; [|by apply (inv_group (s_set_hosts hg s))].
  rewrite /deliver_leave (bind_ok _ _ _ _ _ (lock_eq s (proj2 Hs))) {1}/mbind {1}/M_bind /get. cbn [m_groups s_set_mutex].
  rewrite EG (bind_ok _ _ _ _ _ (decode_host_eq gethostbyaddr (bm_payload msg) (s_set_mutex true s) Hl)).
  set (s1 := s_set_hosts hg (s_set_mutex true s)).
  assert (key_of (decoded gethostbyaddr (bm_payload msg)) s1 = (Ok hkey, s1)) as E2 by by apply key_of_eq.
  step_ok E2. set (s2 := s_set_groups _ (s_set_hosts hg s)).
  assert (∀ (B : Type) (m : M scribe B),
    (modify (λ s, s_set_groups (<[bm_src msg := G']> (m_groups s)) s) ;; unlock_groups ;; m) s1 = m s2) as E3.
  { intros B m. rewrite /mbind /M_bind /modify /unlock_groups /s2 /s1. destruct Hs as [_ Hm]. by destruct s; simpl in *; subst. }
  rewrite E3. exact (tell_parent_eq G' [] (bm_src msg) (bm_port msg) s2 HG').
Qed.

Lemma runs_deliver_leave msg s :
  HOST_CODED_SIZE <= zlen (bm_payload msg) → inv s →
  runs True (deliver_leave gethostbyaddr me m_mykey msg) s.
Proof.
  intros Hl Hs. pose proof (deliver_leave_runs msg s Hl Hs) as H. destruct (m_groups s !! bm_src msg) as [G|] eqn:EG.
  - destruct H as (hkey & _ & E & Hs1). apply (runs_state _ _ _ _ _ E); [by apply inv_sends|].
    intros _ Hn. apply names_sends, (names_group (s_set_hosts _ s)); [exact Hn|]. exact (proj1 (proj2 Hn) _ _ EG).
  - by apply (runs_state _ _ _ _ _ H).
Qed.

(** Copies to children change neither hosts nor groups. *)
Lemma copies_frame msg u G ks s :
  let s' := foldl (copy_to_child m_mykey msg u G) s ks in
  s_hosts s' = s_hosts s ∧ m_groups s' = m_groups s ∧ m_grp_mutex s' = m_grp_mutex s ∧ m_uri_cache s' = m_uri_cache s ∧
  (u = uri_default → Forall (λ r, r.2 = uri_default) (m_received s) → Forall (λ r, r.2 = uri_default) (m_received s')).
Proof.
  revert s. induction ks as [|k ks IH]; intros s; [done|]. cbn [foldl].
  destruct (IH (copy_to_child m_mykey msg u G s k)) as (H1 & H2 & H3 & H4 & H5).
  assert (let s1 := copy_to_child m_mykey msg u G s k in
    s_hosts s1 = s_hosts s ∧ m_groups s1 = m_groups s ∧ m_grp_mutex s1 = m_grp_mutex s ∧ m_uri_cache s1 = m_uri_cache s ∧
    (u = uri_default → Forall (λ r, r.2 = uri_default) (m_received s) → Forall (λ r, r.2 = uri_default) (m_received s1)))
    as (G1 & G2 & G3 & G4 & G5).
  { rewrite /copy_to_child. destruct (key_equal k m_mykey); [|by destruct (g_children G !! k)].
    split_and!; [done..|]. intros -> Hr. apply Forall_app. by repeat constructor. }
  cbn zeta. rewrite H1 H2 H3 H4. split_and!; auto.
Qed.

Lemma runs_deliver_multicast msg s :
  is_Some (m_groups s !! bm_src msg) → inv s → runs True (deliver_multicast key_makehash junk m_mykey msg) s.
Proof.
  intros [G HG] Hs. destruct (deliver_multicast_eq key_makehash junk m_mykey msg G s (proj2 Hs) HG) as (u & x & y & E & Hn).
  apply (runs_state _ _ _ _ _ E); destruct (_ =? 0).
  - exact Hs.
  - destruct (copies_frame msg u G (keys_in_order (g_children G)) (s_set_caches x y s)) as (E1 & E2 & E3 & _).
    by rewrite /inv E1 E2 E3.
  - intros _ Hl. apply names_caches; [done|]. by apply Hn, Hl.
  - intros _ Hl. destruct (Hn (proj1 Hl)) as [-> Hc].
    destruct (copies_frame msg uri_default G (keys_in_order (g_children G)) (s_set_caches x y s)) as (_ & E2 & _ & E4 & E5).
    rewrite /names_lost /caches_lost E2 E4. split_and!; [done|apply Hl|]. apply E5; [done|apply Hl].
Qed.

Lemma runs_deliver_rp_request msg s : inv s → runs True (deliver_rp_request gethostbyaddr me m_mykey msg) s.
Proof.
  intros Hs. rewrite /deliver_rp_request. destruct (Z.ltb_spec (zlen (bm_payload msg)) HOST_CODED_SIZE); [by apply runs_ret|].
  apply runs_bind; [by apply runs_decode|]. intros h s1 E Hs1.
  apply runs_bind; [apply runs_key_of; [done|]|intros hkey s2 _ Hs2; by apply runs_report].
  rewrite decode_host_eq // in E. simplify_eq. apply present_key. by apply inv_decode.
Qed.

Lemma sinv_alter hg gs f g :
  sinv hg gs → (∀ G, group_ok hg G → group_ok hg (f G)) → sinv hg (alter f g gs).
Proof.
  intros [H1 H2 Hky H3] Hf. split; [done..|]. intros k G [(-> & G0 & E & ->)|(_ & E)]%lookup_alter_Some; [apply Hf|]; by apply (H3 k).
Qed.
Lemma alter_uri (gs : gmap Key scribe_group) (f : scribe_group → scribe_group) (g : Key) :
  map_Forall (λ _ G, g_uri G = uri_default) gs → (∀ G, g_uri (f G) = g_uri G) →
  map_Forall (λ _ G, g_uri G = uri_default) (alter f g gs).
Proof.
  intros H Hf k G [(-> & G0 & E & ->)|(_ & E)]%lookup_alter_Some; [rewrite Hf|]; by apply (H k).
Qed.

Lemma group_ok_rp hg h G : is_Some (hg_hosts hg !! h) → group_ok hg G → group_ok hg (set_rp h G).
Proof. intros Hh [H1 H2 H3 H4 H5]. split; try done. by intros ? [= <-]. Qed.
Lemma group_ok_parent hg h G : is_Some (hg_hosts hg !! h) → group_ok hg G → group_ok hg (set_parent h G).
Proof. intros Hh [H1 H2 H3 H4 H5]. split; try done. by intros ? [= <-]. Qed.

Lemma runs_deliver_rp_reply msg s : inv s → runs True (deliver_rp_reply gethostbyaddr msg) s.
Proof.
  intros Hs. rewrite /deliver_rp_reply. destruct (Z.ltb_spec (zlen (bm_payload msg)) HOST_CODED_SIZE); [by apply runs_ret|].
  apply runs_bind; [by apply runs_decode|]. intros h s1 E Hs1. rewrite decode_host_eq // in E. simplify_eq.
  destruct (inv_decode (bm_payload msg) s Hs) as [_ Hp%present_key].
  apply (runs_locked True (alter (set_rp (decoded gethostbyaddr (bm_payload msg))) (bm_src msg))); [done| |].
  - apply sinv_alter; [apply Hs1|]. intros G HG. by apply group_ok_rp.
  - intros _ Hl. apply alter_uri; [apply Hl|done].
Qed.

(** The effect of a PARENT message. *)
Lemma deliver_parent_runs msg s :
  HOST_CODED_SIZE <= zlen (bm_payload msg) → inv s →
  let h := decoded gethostbyaddr (bm_payload msg) in
  let hg := (host_decode gethostbyaddr (bm_payload msg) (s_hosts s)).2 in
  ∃ hkey, host_key hg h = Some hkey ∧
  let s' := s_set_groups (if key_equal m_mykey hkey then m_groups s else alter (set_parent h) (bm_src msg) (m_groups s))
    (s_set_hosts hg s) in
  deliver_parent gethostbyaddr m_mykey msg s = (Ok tt, s') ∧ inv s'.
Proof.
  intros Hl Hs h hg. destruct (inv_decode (bm_payload msg) s Hs) as [Hs1 [hkey Hk]]. exists hkey. split; [done|].
  assert (is_Some (hg_hosts hg !! h)) as Hp by (apply present_key; by rewrite Hk). split.
  - rewrite /deliver_parent (proj2 (Z.ltb_ge _ _) Hl) (bind_ok _ _ _ _ _ (decode_host_eq _ _ s Hl)) -/hg.
    rewrite (bind_ok _ _ _ _ _ (lock_eq (s_set_hosts hg s) (proj2 Hs))).
    rewrite {1}/mbind {1}/M_bind /get. cbn [m_groups s_set_mutex s_set_hosts].
    assert (key_of h (s_set_mutex true (s_set_hosts hg s)) = (Ok hkey, s_set_mutex true (s_set_hosts hg s))) as E
      by by apply key_of_eq.
    destruct (m_groups s !! bm_src msg) as [G|] eqn:EG.
    + rewrite /mbind /M_bind E. destruct Hs as [_ Hm].
      destruct (key_equal m_mykey hkey); destruct s; simpl in *; by subst.
    + assert (alter (set_parent h) (bm_src msg) (m_groups s) = m_groups s) as ->.
      { apply map_eq. intros g. destruct (decide (g = bm_src msg)) as [->|Hg].
        - by rewrite lookup_alter_eq EG.
        - by rewrite lookup_alter_ne. }
      rewrite /mbind /M_bind. destruct Hs as [_ Hm]. destruct (key_equal m_mykey hkey); destruct s; simpl in *; by subst.
  - destruct (key_equal m_mykey hkey); [exact Hs1|]. split; [|apply Hs]. apply sinv_alter; [apply Hs1|].
    intros G HG. by apply group_ok_parent.
Qed.

Lemma runs_deliver_parent msg s : inv s → runs True (deliver_parent gethostbyaddr m_mykey msg) s.
Proof.
  intros Hs. destruct (decide (HOST_CODED_SIZE <= zlen (bm_payload msg))) as [Hl|Hl].
  - destruct (deliver_parent_runs msg s Hl Hs) as (hkey & _ & E & Hs'). apply (runs_state _ _ _ _ _ E); [done|].
    intros _ (H1 & H2 & H3). destruct (key_equal m_mykey hkey); split_and!; try done. by apply alter_uri.
  - rewrite /deliver_parent (proj2 (Z.ltb_lt _ _)); [lia|]. by apply runs_ret.
Qed.

(** *** The calls *)

(** The state behind [join]. *)
Definition joined (u : uri) (k : Key) (tmp : uri) (s : scribe) : scribe :=
  let group := match m_groups s !! k with
               | Some group => if uri_empty (g_uri group) then set_uri tmp group else group
               | None => new_group junk_key tmp
               end in
  s_event (join_event, g_uri group)
    (s_send (Routed (message_create k k (port_of junk u) SCRIBE_MSG_JOIN (HOST_CODED_SIZE + 1 + zlen (uri_str tmp) + 1)
       (announcement me m_mykey tmp)))
    (s_set_groups (<[k := add_child me m_mykey group]> (m_groups s)) s)).

Lemma join_runs u s :
  inv s →
  ∃ k tmp x y, uri_mapping key_makehash junk u s = (Ok k, s_set_caches x y s) ∧
    let s' := joined u k tmp (s_set_caches x y s) in
    join key_makehash junk junk_key me m_mykey u s = (Ok HC_SUCCESS, s') ∧ inv s' ∧
    (names_lost s → (∃ t, u = uri_of t) → name_lost u → tmp = uri_default ∧ names_lost s').
Proof.
  intros Hs. destruct (uri_mapping_eq key_makehash junk u s) as (k & x & y & E & Hn).
  set (s1 := s_set_caches x y s) in *. assert (inv s1) as Hs1 by exact Hs.
  exists k, (default uri_default (m_uri_cache s1 !! k)), x, y. set (tmp := default uri_default _). split; [done|].
  set (group := match m_groups s1 !! k with
                | Some group => if uri_empty (g_uri group) then set_uri tmp group else group
                | None => new_group junk_key tmp
                end).
  assert (group_ok (s_hosts s1) group) as HG.
  { rewrite /group. destruct (m_groups s1 !! k) as [G|] eqn:EG; [|apply group_ok_new].
    assert (group_ok (s_hosts s1) G) by by eapply sinv_lookup; [apply Hs1|].
    destruct (uri_empty (g_uri G)); [by apply group_ok_uri|done]. }
  assert (inv (joined u k tmp s1)) as Hs2.
  { refine (inv_group s1 k _ Hs1 (group_ok_add _ me m_mykey group _ _ HG)).
    - apply present_key. by rewrite (si_me _ _ (proj1 Hs1)).
    - exact (si_keys _ _ (proj1 Hs1) _ _ (si_me _ _ (proj1 Hs1))). }
  split_and!; [|done|].
  - rewrite /join. step_ok E. rewrite (bind_ok _ _ _ _ _ (key_mapping_0 key_makehash junk k s1)).
    rewrite (bind_ok _ _ _ _ _ (lock_eq s1 (proj2 Hs1))). rewrite {1}/mbind {1}/M_bind /get.
    cbn [m_groups s_set_mutex]. rewrite -/tmp -/group.
    assert (key_of me (s_set_mutex true s1) = (Ok m_mykey, s_set_mutex true s1)) as E2 by (apply key_of_eq, (proj1 Hs1)).
    step_ok E2. rewrite /mbind /M_bind /modify /unlock_groups /notify /joined -/s1 -/group.
    destruct Hs1 as [_ Hm]. clear -Hm. clearbody s1 group tmp. by destruct s1; simpl in *; subst.
  - intros Hl Ht Hu. pose proof (Hn (proj1 Hl) Ht Hu) as Hc.
    assert (tmp = uri_default) as Htmp.
    { rewrite /tmp. destruct (m_uri_cache s1 !! k) eqn:Ek; [|done]. by apply (Hc _ _ Ek). }
    split; [done|]. refine (names_group s1 k (add_child me m_mykey group) (names_caches x y s Hl Hc) _).
    rewrite /= /group Htmp. destruct (m_groups s1 !! k) as [G|] eqn:EG; [|done].
    pose proof (proj1 (proj2 Hl) k G EG) as HGu. by rewrite HGu /=.
Qed.

(** The effect of [leave]. *)
Lemma leave_runs u s :
  inv s →
  ∃ k x y, uri_mapping key_makehash junk u s = (Ok k, s_set_caches x y s) ∧
    let s1 := s_set_caches x y s in
    let s2 := match m_groups s !! k with
              | Some G => s_set_groups (<[k := del_child m_mykey G]> (m_groups s)) s1
              | None => s1
              end in
    leave key_makehash junk me m_mykey u s = (Ok HC_SUCCESS, s_event (join_event, u)
      (match m_groups s !! k with
       | Some G => s_sends (told_parent (del_child m_mykey G)
           [Routed (message_create k k (port_of junk u) SCRIBE_MSG_LEAVE HOST_CODED_SIZE (host_encode m_mykey me))]
           k (port_of junk u) (s_hosts s)) s2
       | None => s2
       end)) ∧ inv s2 ∧
    (names_lost s → (∃ t, u = uri_of t) → name_lost u → names_lost s2).
Proof.
  intros Hs. destruct (uri_mapping_eq key_makehash junk u s) as (k & x & y & E & Hn). exists k, x, y. split; [done|].
  set (s1 := s_set_caches x y s) in *. assert (inv s1) as Hs1 by exact Hs. cbn zeta.
  assert (names_lost s → (∃ t, u = uri_of t) → name_lost u → names_lost s1) as Hn1.
  { intros Hl Ht Hu. apply names_caches; [done|]. apply Hn; [apply Hl|done..]. }
  rewrite /leave (bind_ok _ _ _ _ _ E) {1}/mbind {1}/M_bind /get. change (m_groups s1) with (m_groups s).
  destruct (m_groups s !! k) as [G|] eqn:EG; [|done]. set (G' := del_child m_mykey G).
  assert (group_ok (s_hosts s1) G') as HG' by (apply group_ok_del; eapply sinv_lookup; [apply Hs1|done]).
  set (s2 := s_set_groups (<[k := G']> (m_groups s)) s1).
  split_and!.
  - assert (∀ m : M scribe unit, (lock_groups ;; modify (λ s, s_set_groups (<[k := G']> (m_groups s)) s) ;; unlock_groups ;; m) s1 = m s2)
      as E3.
    { intros m. rewrite (bind_ok _ _ _ _ _ (lock_eq s1 (proj2 Hs1))) /mbind /M_bind /modify /unlock_groups /s2 /s1.
      destruct Hs as [_ Hm]. clear -Hm. by destruct s; simpl in *; subst. }
    rewrite {1}/mbind {1}/M_bind. cbn zeta. rewrite E3.
    rewrite (tell_parent_eq G' [Routed (message_create k k (port_of junk u) SCRIBE_MSG_LEAVE HOST_CODED_SIZE
      (host_encode m_mykey me))] k (port_of junk u) s2 HG'). done.
  - by apply (inv_group s1).
  - intros Hl Ht Hu. apply (names_group s1); [auto|]. exact (proj1 (proj2 Hl) _ _ EG).
Qed.

Lemma runs_leave t s : inv s → runs (name_lost (uri_of t)) (leave key_makehash junk me m_mykey (uri_of t)) s.
Proof.
  intros Hs. destruct (leave_runs (uri_of t) s Hs) as (k & x & y & _ & E & Hs2 & Hn2).
  apply (runs_state _ _ _ _ _ E); destruct (m_groups s !! k) as [G|].
  - exact (inv_sends _ _ Hs2).
  - done.
  - intros HN Hl. exact (names_sends _ _ (Hn2 Hl (ex_intro _ t eq_refl) HN)).
  - intros HN Hl. exact (Hn2 Hl (ex_intro _ t eq_refl) HN).
Qed.

Lemma runs_create t s : inv s → runs (name_lost (uri_of t)) (create key_makehash junk me m_mykey (uri_of t)) s.
Proof.
  intros Hs. apply runs_bind; [by apply runs_uri_mapping|]. intros k s1 _ Hs1.
  rewrite /runs (bind_ok _ _ _ _ _ (key_mapping_0 key_makehash junk k s1)).
  do 2 (apply runs_bind; [by apply runs_report|]; intros [] ? _ ?). by apply runs_ret.
Qed.

Lemma runs_send t payload s :
  inv s → runs (name_lost (uri_of t)) (send key_makehash junk junk_key me m_mykey (uri_of t) payload) s.
Proof.
  intros Hs. destruct (uri_mapping_eq key_makehash junk (uri_of t) s) as (k & x & y & E & Hn).
  set (s1 := s_set_caches x y s) in *. assert (inv s1) as Hs1 by exact Hs.
  rewrite /send /runs. step_ok E. rewrite (bind_ok _ _ _ _ _ (key_mapping_0 key_makehash junk k s1)).
  set (tmp := default uri_default _). rewrite (bind_ok _ _ _ _ _ (lock_eq s1 (proj2 Hs1))) {1}/mbind {1}/M_bind /get.
  cbn [m_groups s_set_mutex]. set (rp := m_groups s1 !! k ≫= g_rp).
  set (s2 := s_set_groups (map_insert k (new_group junk_key tmp) (m_groups s1)) s1).
  assert (inv s2) as Hs2.
  { split; [|apply Hs1]. simpl. rewrite /map_insert. destruct (m_groups s !! k); [apply Hs1|].
    apply sinv_insert; [apply Hs1|apply group_ok_new]. }
  assert (∀ (B : Type) (m : M scribe B), (modify (λ s, s_set_groups (map_insert k (new_group junk_key tmp) (m_groups s)) s) ;;
    unlock_groups ;; m) (s_set_mutex true s1) = m s2) as E3.
  { intros B m. rewrite /mbind /M_bind /modify /unlock_groups /s2. destruct Hs1 as [_ Hm]. clearbody s1 tmp rp.
    by destruct s1; simpl in *; subst. }
  rewrite E3.
  match goal with |- ∃ a s', ?m s2 = _ ∧ _ => enough (runs (name_lost (uri_of t)) m s2) as (a & s3 & E4 & Hs3 & Hn3) end.
  { exists a, s3. split_and!; [done..|]. intros HN Hl. apply Hn3; [done|].
    pose proof (Hn (proj1 Hl) ltac:(by eexists) HN) as Hc. split_and!; [exact Hc| |apply Hl].
    intros g G [(-> & ->)|EG]%map_insert_Some; [|exact (proj1 (proj2 Hl) g G EG)].
    rewrite /tmp. destruct (m_uri_cache s1 !! k) eqn:Ek; [|done]. by rewrite (Hc _ _ Ek). }
  apply runs_bind; [|intros; by apply runs_ret]. destruct rp as [h|] eqn:Erp.
  - assert (is_Some (hg_hosts (s_hosts s2) !! h) ∧ is_Some (m_groups s2 !! k)) as [Hh Hk].
    { rewrite /rp in Erp. destruct (m_groups s1 !! k) as [G|] eqn:EG; [|done]. simpl in Erp. split.
      - apply (go_rp (s_hosts s1) G); [|done]. by eapply sinv_lookup; [apply Hs1|].
      - rewrite /= /map_insert. change (m_groups s) with (m_groups s1). by rewrite EG. }
    apply present_key in Hh as [hk Hhk]. rewrite /runs (bind_ok _ _ _ _ _ (key_of_eq h hk s2 Hhk)). cbn zeta.
    destruct (key_equal hk m_mykey); [|by apply runs_report].
    destruct (runs_deliver_multicast (message_create hk k (port_of junk (uri_of t)) SCRIBE_MSG_MULTICAST (zlen payload) payload)
      s2 Hk Hs2) as (a & s3 & E4 & Hs3 & Hn3). exists a, s3. split_and!; auto.
  - apply runs_bind; [|intros; by apply runs_report]. apply runs_bind; [by apply runs_uri_mapping|].
    intros; by apply runs_report.
Qed.

Lemma runs_unlocked {A} N (m : scribe → M scribe A) s :
  inv s → (∃ a, m (s_set_mutex true s) (s_set_mutex true s) = (Ok a, s_set_mutex true s)) →
  runs N (lock_groups ;; s ← get; r ← m s; unlock_groups ;; mret r) s.
Proof.
  intros Hs [a E]. exists a, s. split; [|done].
  rewrite (bind_ok _ _ _ _ _ (lock_eq s (proj2 Hs))). rewrite /mbind /M_bind /get E /unlock_groups /modify.
  destruct Hs as [_ Hx]. by destruct s; simpl in *; subst.
Qed.

Lemma children_set_loop_ok G ks s :
  group_ok (s_hosts s) G → ∃ r, children_set_loop m_mykey (g_children G) ks s = (Ok r, s).
Proof.
  intros HG. induction ks as [|k ks [r IH]]; [by eexists|]. simpl. destruct (g_children G !! k) as [n|] eqn:E; [|by eexists].
  destruct (go_count _ G HG k n E) as [_ [hk Hk]%present_key].
  rewrite (bind_ok _ _ _ _ _ (key_of_eq _ hk s Hk)) (bind_ok _ _ _ _ _ IH). by eexists.
Qed.

Lemma runs_children_set t s : inv s → runs (name_lost (uri_of t)) (children_set key_makehash junk m_mykey (uri_of t)) s.
Proof.
  intros Hs. apply runs_bind; [by apply runs_uri_mapping|]. intros k s1 _ Hs1. apply runs_unlocked; [done|].
  cbn [m_groups s_set_mutex]. destruct (m_groups s1 !! k) as [G|] eqn:E; [|by eexists].
  apply children_set_loop_ok. by eapply (sinv_lookup _ (m_groups s1)); [apply Hs1|].
Qed.

Lemma runs_parent_set t s : inv s → runs (name_lost (uri_of t)) (parent_set key_makehash junk (uri_of t)) s.
Proof.
  intros Hs. apply runs_bind; [by apply runs_uri_mapping|]. intros k s1 _ Hs1. apply runs_unlocked; [done|].
  cbn [m_groups s_set_mutex]. destruct (m_groups s1 !! k ≫= g_parent) as [p|] eqn:E; [|by eexists].
  apply bind_Some in E as (G & EG & Ep). pose proof (sinv_lookup _ _ _ _ (proj1 Hs1) EG) as HG.
  destruct (go_parent _ G HG p Ep) as [e He].
  assert (key_of p (s_set_mutex true s1) = (Ok (ce_key e), s_set_mutex true s1)) as E2.
  { apply key_of_eq. by rewrite /host_key /= He. }
  step_ok E2. by eexists.
Qed.

Lemma runs_designated_host t s : inv s → runs (name_lost (uri_of t)) (designated_host key_makehash junk m_mykey (uri_of t)) s.
Proof.
  intros Hs. apply runs_bind; [by apply runs_uri_mapping|]. intros k s1 _ Hs1.
  eapply runs_state; [|exact Hs1|done]. rewrite (bind_ok _ _ _ _ _ (lock_eq s1 (proj2 Hs1))).
  rewrite /mbind /M_bind /get /unlock_groups /modify unlock_lock; [apply Hs1|done].
Qed.

Lemma group_set_loop_ok groups ks s : ∃ r, group_set_loop key_makehash junk m_mykey groups ks s = (Ok r, s) ∧
  (names_lost s → map_Forall (λ _ G, g_uri G = uri_default) groups → r = []).
Proof.
  induction ks as [|k ks (r & IH & Hr)]; [by eexists|]. simpl. destruct (groups !! k) as [G|] eqn:E; [|by eexists].
  assert (∃ u, (if uri_empty (g_uri G) then key_mapping key_makehash junk (g_gid G) 0 else mret (g_uri G)) s = (Ok u, s) ∧
    (names_lost s → g_uri G = uri_default → u = uri_default)) as (u & Eu & Hu).
  { destruct (uri_empty (g_uri G)); [|by eexists]. rewrite key_mapping_0. eexists. split; [done|]. intros (Hc & _) _.
    destruct (m_uri_cache s !! g_gid G) eqn:Ek; [|done]. by apply (Hc _ _ Ek). }
  step_ok Eu. step_ok IH. eexists. split; [done|]. intros Hl HG. rewrite Hu //; [by apply (HG k)|]. simpl. by apply Hr.
Qed.

Lemma group_set_eq s : inv s → ∃ r, group_set key_makehash junk m_mykey s = (Ok r, s) ∧ (names_lost s → r = []).
Proof.
  intros [Hs Hm]. destruct (group_set_loop_ok (m_groups s) (keys_in_order (m_groups s)) s) as (r & E & Hr).
  exists r. split; [|intros Hl; apply Hr; [done|apply Hl]].
  rewrite /group_set (bind_ok _ _ _ _ _ (lock_eq s Hm)) /mbind /M_bind /get /unlock_groups /modify -E.
  f_equal. by destruct s; simpl in *; subst.
Qed.

(** *** Maintenance *)

(** The child with key [k] of the group [g]. *)
Definition child (s : scribe) (g k : Key) : option scribe_node := m_groups s !! g ≫= λ G, g_children G !! k.

Lemma child_add s g g' h k k' G :
  child (s_set_groups (<[g' := add_child h k' G]> (m_groups s)) s) g k =
    if bool_decide (g = g') then
      if bool_decide (k = k') then Some (match g_children G !! k with Some n => node_incr n | None => new_node h end)
      else g_children G !! k
    else child s g k.
Proof.
  rewrite /child /=. case_bool_decide as Hg; [|by rewrite lookup_insert_ne].
  subst g'. rewrite lookup_insert_eq /=. case_bool_decide; [|by rewrite lookup_insert_ne]. subst k'. by rewrite lookup_insert_eq.
Qed.

Lemma child_joined u g' tmp s g k : k ≠ m_mykey → child (joined u g' tmp s) g k = child s g k.
Proof.
  intros Hk. rewrite /joined. change (child (s_event _ (s_send _ ?s')) g k) with (child s' g k). rewrite child_add.
  case_bool_decide; [|done]. subst g'. rewrite bool_decide_false // /child. destruct (m_groups s !! g) as [G|]; simpl.
  - destruct (uri_empty (g_uri G)); [|done]. rewrite /set_uri. by destruct (uri_empty tmp).
  - rewrite /new_group /set_uri. by destruct (uri_empty tmp).
Qed.

Lemma child_joined_own u g' tmp s g :
  is_Some (child s g m_mykey) → is_Some (child (joined u g' tmp s) g m_mykey).
Proof.
  intros H. rewrite /joined. change (child (s_event _ (s_send _ ?s')) g ?k) with (child s' g k). rewrite child_add.
  case_bool_decide; [|done]. by rewrite bool_decide_true.
Qed.

Lemma rejoins_ok us s :
  inv s →
  ∃ s', for_each us (λ u, join key_makehash junk junk_key me m_mykey u ;; mret tt) s = (Ok tt, s') ∧ inv s' ∧
    (∀ g k, k ≠ m_mykey → child s' g k = child s g k) ∧
    ∀ g, is_Some (child s g m_mykey) → is_Some (child s' g m_mykey).
Proof.
  revert s. induction us as [|u us IH]; intros s Hs; [by exists s|]. simpl.
  destruct (join_runs u s Hs) as (k & tmp & x & y & _ & E & Hs1 & _). set (s1 := joined u k tmp _) in *.
  destruct (IH s1 Hs1) as (s2 & E2 & Hs2 & Hc & Ho). exists s2.
  assert ((join key_makehash junk junk_key me m_mykey u ;; mret tt) s = (Ok tt, s1)) as E1 by by rewrite (bind_ok _ _ _ _ _ E).
  step_ok E1. split_and!; [done..| |].
  - intros g k' Hk'. rewrite Hc //. by etrans; [apply child_joined|].
  - intros g Hg. apply Ho. by apply child_joined_own.
Qed.

Lemma rejoin_lost s : names_lost s → rejoin_uris m_mykey (m_groups s) = [].
Proof.
  intros (_ & Hl & _). rewrite /rejoin_uris. induction (keys_in_order (m_groups s)) as [|k ks IH]; [done|]. simpl.
  destruct (m_groups s !! k) as [G|] eqn:E; [|done]. pose proof (Hl k G E) as HG. cbn beta in HG. rewrite HG /= andb_false_r. done.
Qed.

Lemma maintenance_runs s :
  inv s →
  ∃ s', maintenance key_makehash junk junk_key me m_mykey s = (Ok tt, s') ∧ inv s' ∧
    (∀ g k, k ≠ m_mykey → child s' g k = m_groups s !! g ≫= λ G, g_children (age_children m_mykey G) !! k) ∧
    (∀ g, is_Some (child s g m_mykey) → is_Some (child s' g m_mykey)) ∧
    (names_lost s → s' = s_set_groups (age_children m_mykey <$> m_groups s) s ∧ names_lost s').
Proof.
  intros Hs. set (s1 := s_set_groups (age_children m_mykey <$> m_groups s) s).
  assert (inv s1) as Hs1.
  { split; [|apply Hs]. destruct Hs as [[H1 H2 Hky H3] _]. split; [done..|]. simpl. apply map_Forall_fmap.
    eapply map_Forall_impl; [exact H3|]. intros g G HG. by apply group_ok_age. }
  destruct (rejoins_ok (rejoin_uris m_mykey (m_groups s)) s1 Hs1) as (s2 & E & Hs2 & Hc & Ho).
  exists s2. split_and!; [|done| | |].
  - rewrite /maintenance (bind_ok _ _ _ _ _ (lock_eq s (proj2 Hs))) -E. rewrite /mbind /M_bind /get /modify /unlock_groups.
    cbn [m_groups s_set_mutex]. f_equal. rewrite /s1. destruct Hs as [_ Hm]. clear -Hm. by destruct s; simpl in *; subst.
  - intros g k Hk. rewrite Hc // /child /= lookup_fmap. by destruct (m_groups s !! g).
  - intros g [n Hn]. apply Ho. apply bind_Some in Hn as (G & EG & En). rewrite /s1 /child /= lookup_fmap EG /=.
    rewrite (age_children_lookup (s_hosts s)); [by eapply sinv_lookup; [apply Hs|]|]. rewrite En key_equal_refl. by eexists.
  - intros Hl. rewrite rejoin_lost // in E. injection E as <-. split; [done|]. destruct Hl as (H1 & H2 & H3). split_and!; [done| |done].
    simpl. apply map_Forall_fmap. eapply map_Forall_impl; [exact H2|]. done.
Qed.

(** *** Histories *)

(** What happens to a node: calls of the middleware with the text of a URI,
    messages the overlay delivers or forwards, and rounds of maintenance. *)
Inductive scribe_ev :=
  | SCreate (t : bytes)
  | SJoin (t : bytes)
  | SLeave (t : bytes)
  | SSend (t : bytes) (payload : bytes)
  | SParents (t : bytes)
  | SChildren (t : bytes)
  | SDesignated (t : bytes)
  | SGroups
  | SDeliver (msg : bmsg)
  | SForward (msg : bmsg)
  | SRound.

Definition discard {A} (m : M scribe A) : M scribe unit := m ;; mret tt.
Definition scribe_step (e : scribe_ev) : M scribe unit :=
  match e with
  | SCreate t => discard (create key_makehash junk me m_mykey (uri_of t))
  | SJoin t => discard (join key_makehash junk junk_key me m_mykey (uri_of t))
  | SLeave t => discard (leave key_makehash junk me m_mykey (uri_of t))
  | SSend t payload => discard (send key_makehash junk junk_key me m_mykey (uri_of t) payload)
  | SParents t => discard (parent_set key_makehash junk (uri_of t))
  | SChildren t => discard (children_set key_makehash junk m_mykey (uri_of t))
  | SDesignated t => discard (designated_host key_makehash junk m_mykey (uri_of t))
  | SGroups => discard (group_set key_makehash junk m_mykey)
  | SDeliver msg => scribe_deliver_handler gethostbyaddr key_makehash junk junk_key me m_mykey msg
  | SForward msg => discard (scribe_forward_handler gethostbyaddr key_makehash junk junk_key me m_mykey msg)
  | SRound => maintenance key_makehash junk junk_key me m_mykey
  end.
Definition run (es : list scribe_ev) (s : scribe) : scribe := (for_each es scribe_step s).2.

(** Messages are as long as their type asks for, and data is for a group this
    node knows. *)
Definition ev_ok (s : scribe) (e : scribe_ev) : Prop :=
  match e with
  | SDeliver msg =>
      ((bm_type msg = SCRIBE_MSG_CREATE ∨ bm_type msg = SCRIBE_MSG_JOIN) → announces msg) ∧
      (bm_type msg = SCRIBE_MSG_LEAVE → HOST_CODED_SIZE <= zlen (bm_payload msg)) ∧
      (bm_type msg = SCRIBE_MSG_MULTICAST → is_Some (m_groups s !! bm_src msg))
  | SForward msg => bm_type msg = SCRIBE_MSG_JOIN → announces msg
  | _ => True
  end.
(** The names in an event are not of the namespace [ham]. *)
Definition ev_lost (e : scribe_ev) : Prop :=
  match e with
  | SCreate t | SJoin t | SLeave t | SSend t _ | SParents t | SChildren t | SDesignated t => name_lost (uri_of t)
  | SDeliver msg | SForward msg => name_lost (announced_uri msg)
  | SGroups | SRound => True
  end.

(** A property of every event of a history, at the state it meets. *)
Fixpoint along (P : scribe → scribe_ev → Prop) (es : list scribe_ev) (s : scribe) : Prop :=
  match es with
  | [] => True
  | e :: es => P s e ∧ along P es (scribe_step e s).2
  end.
(** And of some event. *)
Fixpoint somewhere (P : scribe → scribe_ev → Prop) (es : list scribe_ev) (s : scribe) : Prop :=
  match es with
  | [] => False
  | e :: es => P s e ∨ somewhere P es (scribe_step e s).2
  end.

Lemma runs_weaken {A} (N N' : Prop) (m : M scribe A) s : (N' → N) → runs N m s → runs N' m s.
Proof. intros HN (a & s' & E & Hs & Hn). exists a, s'. auto. Qed.
Lemma runs_discard {A} N (m : M scribe A) s : runs N m s → runs N (discard m) s.
Proof. intros Hm. apply runs_bind; [done|]. intros; by apply runs_ret. Qed.

Lemma runs_deliver_handler msg s :
  inv s → ev_ok s (SDeliver msg) →
  runs (name_lost (announced_uri msg)) (scribe_deliver_handler gethostbyaddr key_makehash junk junk_key me m_mykey msg) s.
Proof.
  intros Hs (H1 & H2 & H3). rewrite /scribe_deliver_handler.
  destruct (Z.eqb_spec (bm_type msg) SCRIBE_MSG_CREATE) as [E|_]; [apply runs_deliver_create; auto|].
  destruct (Z.eqb_spec (bm_type msg) SCRIBE_MSG_JOIN) as [E|_].
  { destruct (deliver_join_runs msg s (H1 (or_intror E)) Hs) as (u & x & y & hkey & _ & E1 & Hs' & Hn).
    apply (runs_state _ _ _ _ _ E1); [done|]. intros HN Hl. by apply Hn. }
  destruct (Z.eqb_spec (bm_type msg) SCRIBE_MSG_LEAVE) as [E|_]; [apply (runs_weaken True); [done|apply runs_deliver_leave; auto]|].
  destruct (Z.eqb_spec (bm_type msg) SCRIBE_MSG_MULTICAST) as [E|_];
    [apply (runs_weaken True); [done|apply runs_deliver_multicast; auto]|].
  destruct (bm_type msg =? SCRIBE_MSG_RP_REQUEST); [apply (runs_weaken True); [done|by apply runs_deliver_rp_request]|].
  destruct (bm_type msg =? SCRIBE_MSG_RP_REPLY); [apply (runs_weaken True); [done|by apply runs_deliver_rp_reply]|].
  destruct (bm_type msg =? SCRIBE_MSG_PARENT); [apply (runs_weaken True); [done|by apply runs_deliver_parent]|].
  by apply runs_ret.
Qed.

Lemma step_runs e s : inv s → ev_ok s e → runs (ev_lost e) (scribe_step e) s.
Proof.
  intros Hs He. destruct e as [t|t|t|t payload|t|t|t| |msg|msg|]; simpl in He |- *; try apply runs_discard.
  - by apply runs_create.
  - destruct (join_runs (uri_of t) s Hs) as (k & tmp & x & y & _ & E & Hs' & Hn).
    apply (runs_state _ _ _ _ _ E); [done|]. intros HN Hl. apply Hn; [done|by eexists|done].
  - by apply runs_leave.
  - by apply runs_send.
  - by apply runs_parent_set.
  - by apply runs_children_set.
  - by apply runs_designated_host.
  - destruct (group_set_eq s Hs) as (r & E & _). by apply (runs_state _ _ _ _ _ E).
  - by apply runs_deliver_handler.
  - rewrite /scribe_forward_handler. destruct (Z.eqb_spec (bm_type msg) SCRIBE_MSG_JOIN) as [E|_]; [|by apply runs_ret].
    destruct (forward_join_runs msg s (He E) Hs) as (u & x & y & hkey & _ & E1 & Hs' & Hn).
    apply (runs_state _ _ _ _ _ E1); [done|]. intros HN Hl. by apply Hn.
  - destruct (maintenance_runs s Hs) as (s' & E & Hs' & _ & _ & Hn). apply (runs_state _ _ _ _ _ E); [done|]. intros _ Hl. by apply Hn.
Qed.

Lemma history_ok es s :
  inv s → along ev_ok es s →
  for_each es scribe_step s = (Ok tt, run es s) ∧ inv (run es s) ∧ (Forall ev_lost es → names_lost s → names_lost (run es s)).
Proof.
  revert s. induction es as [|e es IH]; intros s Hs Hok; [done|]. destruct Hok as [He Hok].
  destruct (step_runs e s Hs He) as ([] & s1 & E & Hs1 & Hn1). rewrite E in Hok. destruct (IH s1 Hs1 Hok) as (E2 & Hs2 & Hn2).
  rewrite /run /= (bind_ok _ _ _ _ _ E). split_and!; [exact E2|exact Hs2|]. intros [H1 H2]%Forall_cons Hl. apply Hn2; [done|]. by apply Hn1.
Qed.

(** *** Messages that are too short, and data for an unknown group *)

#[local] Instance ev_ok_dec s e : Decision (ev_ok s e).
Proof. destruct e; rewrite /ev_ok /announces; apply _. Defined.

(** The handler reads behind the end of its message. *)
Definition reads_behind {A} (r : outcome A * scribe) : Prop :=
  ∃ s', r = (UB "host behind the end of a message", s') ∨ r = (UB "group name behind the end of a message", s').

Lemma reads_behind_bind {A B} (m : M scribe A) (k : A → M scribe B) s : reads_behind (m s) → reads_behind ((m ≫= k) s).
Proof. intros (s' & [E|E]); exists s'; [left|right]; by apply (bind_ub m). Qed.

Definition completes {A} (r : outcome A * scribe) : Prop := ∃ a s', r = (Ok a, s') ∧ inv s'.

(** What follows the name of the group in [deliver_join] and [forward_join]. *)
Lemma join_any {A} (msg msg' : bmsg) (a0 a1 : A) s :
  inv s →
  let r := (o ← message_group_uri key_makehash junk msg;
            match o with
            | None => mret a0
            | Some group_uri =>
                host ← decode_host gethostbyaddr (bm_payload msg);
                adopt junk_key me m_mykey msg' group_uri host ;; mret a1
            end) s in
  completes r ∨ reads_behind r.
Proof.
  intros Hs r. destruct (message_group_uri_any key_makehash junk msg s) as (x & y & [([u|] & E)|E]).
  - rewrite /r (bind_ok _ _ _ _ _ E). assert (inv (s_set_caches x y s)) as Hs1 by exact Hs.
    destruct (Z.lt_ge_cases (zlen (bm_payload msg)) HOST_CODED_SIZE) as [Hl|Hl].
    { right. apply reads_behind_bind. exists (s_set_caches x y s). left. by apply decode_host_short. }
    left. rewrite (bind_ok _ _ _ _ _ (decode_host_eq gethostbyaddr _ _ Hl)).
    destruct (inv_decode (bm_payload msg) _ Hs1) as [Hs2 [hkey Hk]].
    rewrite (bind_ok _ _ _ _ _ (adopt_eq junk_key me m_mykey msg' u _ hkey _ (proj2 Hs2) Hk)).
    eexists _, _. split; [done|]. by apply inv_adopted.
  - left. rewrite /r (bind_ok _ _ _ _ _ E). by eexists _, _.
  - right. apply reads_behind_bind. eexists. by right.
Qed.

Lemma create_any msg s :
  inv s → let r := deliver_create key_makehash junk junk_key msg s in completes r ∨ reads_behind r.
Proof.
  intros Hs r. destruct (message_group_uri_any key_makehash junk msg s) as (x & y & [([u|] & E)|E]).
  - left. rewrite /r /deliver_create (bind_ok _ _ _ _ _ E). destruct (uri_empty u); [by eexists _, _|].
    rewrite (bind_ok _ _ _ _ _ (lock_eq (s_set_caches x y s) (proj2 Hs))). eexists _, _. split; [done|].
    split; [|done]. simpl. rewrite /map_insert. destruct (m_groups s !! bm_src msg); [apply Hs|].
    apply sinv_insert; [apply Hs|apply group_ok_new].
  - left. rewrite /r /deliver_create (bind_ok _ _ _ _ _ E). by eexists _, _.
  - right. apply reads_behind_bind. eexists. by right.
Qed.

Lemma leave_any msg s :
  inv s → let r := deliver_leave gethostbyaddr me m_mykey msg s in completes r ∨ reads_behind r.
Proof.
  intros Hs r. destruct (Z.lt_ge_cases (zlen (bm_payload msg)) HOST_CODED_SIZE) as [Hl|Hl].
  - assert (r = match m_groups s !! bm_src msg with
                | Some _ => (UB "host behind the end of a message", s_set_mutex true s)
                | None => (Ok tt, s)
                end) as ->.
    { rewrite /r /deliver_leave (bind_ok _ _ _ _ _ (lock_eq s (proj2 Hs))) {1}/mbind {1}/M_bind /get. cbn [m_groups s_set_mutex].
      destruct (m_groups s !! bm_src msg) as [G|]; [by apply (bind_ub (decode_host _ _)), decode_host_short|].
      rewrite /unlock_groups /modify unlock_lock //. apply Hs. }
    destruct (m_groups s !! bm_src msg) as [G|]; [right; eexists; by left|left; by eexists _, _].
  - left. destruct (runs_deliver_leave msg s Hl Hs) as (a & s' & E & Hs' & _). by exists a, s'.
Qed.

(** Data for a group this node does not know. *)
Definition unknown_data (s : scribe) (e : scribe_ev) : Prop :=
  match e with
  | SDeliver msg => bm_type msg = SCRIBE_MSG_MULTICAST ∧ m_groups s !! bm_src msg = None
  | _ => False
  end.

(** Every event, with no assumption on its message. *)
Lemma step_outcome e s :
  inv s →
  completes (scribe_step e s) ∨
  ¬ ev_ok s e ∧ (unknown_data s e ∧ scribe_step e s = (Ok tt, s_set_mutex true s) ∨ reads_behind (scribe_step e s)).
Proof.
  intros Hs. destruct (decide (ev_ok s e)) as [He|He].
  { left. destruct (step_runs e s Hs He) as (a & s' & E & Hs' & _). by exists a, s'. }
  assert (completes (scribe_step e s) ∨ reads_behind (scribe_step e s) ∨
    unknown_data s e ∧ scribe_step e s = (Ok tt, s_set_mutex true s)) as [H|[H|H]]; [|by left|by right; auto..].
  destruct e as [t|t|t|t payload|t|t|t| |msg|msg|]; try (exfalso; by apply He).
  - cbn [scribe_step]. rewrite /scribe_deliver_handler.
    destruct (Z.eqb_spec (bm_type msg) SCRIBE_MSG_CREATE) as [_|N1]; [destruct (create_any msg s Hs); auto|].
    destruct (Z.eqb_spec (bm_type msg) SCRIBE_MSG_JOIN) as [_|N2].
    { assert (deliver_join gethostbyaddr key_makehash junk junk_key me m_mykey msg s =
        (o ← message_group_uri key_makehash junk msg;
         match o with
         | None => mret tt
         | Some group_uri =>
             host ← decode_host gethostbyaddr (bm_payload msg);
             adopt junk_key me m_mykey msg group_uri host ;; mret tt
         end) s) as ->; [|destruct (join_any msg msg tt tt s Hs); auto].
      rewrite /deliver_join /mbind /M_bind. destruct (message_group_uri _ _ msg s) as [[[u|]| |] s1]; try done.
      destruct (decode_host _ _ s1) as [[h| |] s2]; try done. by destruct (adopt _ _ _ _ _ _ s2) as [[[]| |] s3]. }
    destruct (Z.eqb_spec (bm_type msg) SCRIBE_MSG_LEAVE) as [_|N3]; [destruct (leave_any msg s Hs); auto|].
    destruct (Z.eqb_spec (bm_type msg) SCRIBE_MSG_MULTICAST) as [E|N4].
    + right. right. assert (m_groups s !! bm_src msg = None) as HG.
      { destruct (m_groups s !! bm_src msg) as [G|] eqn:EG; [|done]. destruct He. split_and!; [|done|by rewrite EG].
        intros [H|H]; rewrite H in E; done. }
      split; [done|]. apply deliver_multicast_unknown; [apply Hs|done].
    + destruct He. split_and!; [intros [?|?]; done|done|done].
  - cbn [scribe_step]. rewrite /scribe_forward_handler.
    destruct (Z.eqb_spec (bm_type msg) SCRIBE_MSG_JOIN) as [_|N]; [|by destruct He].
    set (msg' := {| bm_dst := bm_dst msg; bm_src := bm_src msg; bm_port := bm_port msg; bm_type := bm_type msg;
      bm_payload := host_encode m_mykey me ++ zdrop HOST_CODED_SIZE (bm_payload msg) |}).
    destruct (join_any msg msg' msg msg' s Hs) as [(a & s' & E & Hs')|H].
    + left. exists tt, s'. split; [|done]. by rewrite /discard (bind_ok _ _ _ _ _ E).
    + right. left. by apply reads_behind_bind.
Qed.

(** A history runs until one of these events. *)
Lemma history_outcome es s :
  inv s →
  ∃ es1 es2 s1, es = es1 ++ es2 ∧ for_each es1 scribe_step s = (Ok tt, s1) ∧ inv s1 ∧
    (es2 = [] ∨ ∃ e es3, es2 = e :: es3 ∧ ¬ ev_ok s1 e ∧
      (unknown_data s1 e ∧ scribe_step e s1 = (Ok tt, s_set_mutex true s1) ∨ reads_behind (scribe_step e s1))).
Proof.
  revert s. induction es as [|e es IH]; intros s Hs; [exists [], [], s; by auto|].
  destruct (step_outcome e s Hs) as [([] & s1 & E & Hs1)|[He Ho]].
  - destruct (IH s1 Hs1) as (es1 & es2 & s2 & -> & E2 & Hs2 & Hrest). exists (e :: es1), es2, s2.
    split; [done|]. split; [|done]. cbn [for_each]. by rewrite (bind_ok _ _ _ _ _ E).
  - exists [], (e :: es), s. split_and!; [done..|]. right. by exists e, es.
Qed.

Lemma inv_new : key_ok m_mykey → inv (new_scribe me m_mykey).
Proof.
  intros Hk. split; [|done]. split; [split; [done|]| | |done].
  - apply map_Forall_singleton. simpl. lia.
  - by rewrite /host_key /= lookup_singleton_eq.
  - intros h k Hh. rewrite /host_key /= in Hh. apply fmap_Some in Hh as (e & He & ->).
    by apply lookup_singleton_Some in He as [_ <-].
Qed.
Lemma names_new : names_lost (new_scribe me m_mykey).
Proof. by split_and!; try apply map_Forall_empty. Qed.

(** *** Children along a history *)

(** Operations that leave all children as they are. *)
Definition keeps {A} (m : M scribe A) : Prop := ∀ s g k, child (m s).2 g k = child s g k.

Lemma keeps_children_bind {A B} (m : M scribe A) (f : A → M scribe B) : keeps m → (∀ a, keeps (f a)) → keeps (m ≫= f).
Proof.
  intros Hm Hf s g k. rewrite -(Hm s) /mbind /M_bind. destruct (m s) as [[a|e|w] s1]; [|done..]. apply Hf.
Qed.
Lemma keeps_same {A} (m : M scribe A) : (∀ s, m_groups (m s).2 = m_groups s) → keeps m.
Proof. intros H s g k. by rewrite /child H. Qed.
Lemma keeps_groups f :
  (∀ gs g k, (f gs !! g : option scribe_group) ≫= (λ G, g_children G !! k) = gs !! g ≫= λ G, g_children G !! k) →
  keeps (modify (λ s, s_set_groups (f (m_groups s)) s)).
Proof. intros H s g k. apply H. Qed.
Lemma keeps_lock : keeps lock_groups.
Proof. apply keeps_same. intros s. rewrite /lock_groups /mbind /M_bind /get. by destruct (m_grp_mutex s). Qed.
Lemma keeps_key_of h : keeps (key_of h).
Proof. apply keeps_same. intros s. rewrite /key_of /mbind /M_bind /get. by destruct (host_key (s_hosts s) h). Qed.
Lemma keeps_uri_mapping u : keeps (uri_mapping key_makehash junk u).
Proof. apply keeps_same. intros s. by destruct (uri_mapping_eq key_makehash junk u s) as (k & x & y & -> & _). Qed.
Lemma keeps_key_mapping k port : keeps (key_mapping key_makehash junk k port).
Proof. apply keeps_same. intros s. by destruct (key_mapping_eq key_makehash junk k port s) as (u & x & y & -> & _). Qed.
Lemma keeps_decode b : keeps (decode_host gethostbyaddr b).
Proof. apply keeps_same. intros s. rewrite /decode_host. by destruct (_ <? _). Qed.
Lemma keeps_children_for_each {A} (l : list A) body : (∀ x, keeps (body x)) → keeps (for_each l body).
Proof. intros Hb. induction l as [|x l IH]; [by apply keeps_same|]. by apply keeps_children_bind. Qed.

(** Applies these rules; what remains are the changes of the groups. *)
Ltac keep := repeat first
  [ done | apply keeps_lock | apply keeps_key_of | apply keeps_uri_mapping | apply keeps_key_mapping | apply keeps_decode
  | apply keeps_children_for_each; intros ? | apply keeps_children_bind; [|intros ?] | case_match | (apply keeps_same; done) ].

Lemma children_new_group u : g_children (new_group junk_key u) = ∅.
Proof. rewrite /new_group /set_uri. by destruct (uri_empty u). Qed.
Lemma keeps_new_group (g : Key) u :
  keeps (modify (λ s, s_set_groups (map_insert g (new_group junk_key u) (m_groups s)) s)).
Proof.
  apply (keeps_groups (map_insert g (new_group junk_key u))). intros gs g' k. rewrite /map_insert.
  destruct (gs !! g) eqn:E; [done|]. destruct (decide (g' = g)) as [->|Hg]; [|by rewrite lookup_insert_ne].
  by rewrite lookup_insert_eq E /= children_new_group lookup_empty.
Qed.
Lemma keeps_alter (g : Key) f :
  (∀ G, g_children (f G) = g_children G) → keeps (modify (λ s, s_set_groups (alter f g (m_groups s)) s)).
Proof.
  intros Hf. apply (keeps_groups (alter f g)). intros gs g' k.
  destruct (decide (g' = g)) as [->|Hg]; [|by rewrite lookup_alter_ne].
  rewrite lookup_alter_eq. destruct (gs !! g); simpl; [by rewrite Hf|done].
Qed.

Lemma keeps_message_group_uri msg : keeps (message_group_uri key_makehash junk msg).
Proof. rewrite /message_group_uri. keep. Qed.
Lemma keeps_deliver_create msg : keeps (deliver_create key_makehash junk junk_key msg).
Proof. rewrite /deliver_create. apply keeps_children_bind; [apply keeps_message_group_uri|]. intros o. keep. apply keeps_new_group. Qed.
Lemma keeps_multicast msg : keeps (deliver_multicast key_makehash junk m_mykey msg).
Proof. rewrite /deliver_multicast. keep. Qed.
Lemma keeps_rp_request msg : keeps (deliver_rp_request gethostbyaddr me m_mykey msg).
Proof. rewrite /deliver_rp_request. keep. Qed.
Lemma keeps_rp_reply msg : keeps (deliver_rp_reply gethostbyaddr msg).
Proof. rewrite /deliver_rp_reply. keep. by apply keeps_alter. Qed.
Lemma keeps_parent msg : keeps (deliver_parent gethostbyaddr m_mykey msg).
Proof. rewrite /deliver_parent. keep. by apply keeps_alter. Qed.
Lemma keeps_create u : keeps (create key_makehash junk me m_mykey u).
Proof. rewrite /create. keep. Qed.
Lemma keeps_send u payload : keeps (send key_makehash junk junk_key me m_mykey u payload).
Proof.
  rewrite /send. do 4 (apply keeps_children_bind; [by keep|]; intros ?).
  apply keeps_children_bind; [apply keeps_new_group|]. intros _. keep; apply keeps_multicast.
Qed.
Lemma keeps_parent_set u : keeps (parent_set key_makehash junk u).
Proof. rewrite /parent_set. keep. Qed.
Lemma keeps_children_set u : keeps (children_set key_makehash junk m_mykey u).
Proof.
  rewrite /children_set. keep. clear. generalize (keys_in_order (g_children s)) as ks. intros ks.
  induction ks as [|k ks IH]; simpl; keep.
Qed.
Lemma keeps_designated u : keeps (designated_host key_makehash junk m_mykey u).
Proof. rewrite /designated_host. keep. Qed.
Lemma keeps_group_set : keeps (group_set key_makehash junk m_mykey).
Proof.
  rewrite /group_set. keep. clear. generalize (keys_in_order (m_groups a0)) as ks. intros ks.
  induction ks as [|k ks IH]; simpl; keep.
Qed.

(** The key of the host in a message, as this node knows it afterwards. *)
Definition sender_key (s : scribe) (msg : bmsg) : option Key :=
  host_key (host_decode gethostbyaddr (bm_payload msg) (s_hosts s)).2 (decoded gethostbyaddr (bm_payload msg)).
(** A JOIN of the host with key [k] for the group [g] comes by, and a LEAVE. *)
Definition joins (g k : Key) (s : scribe) (e : scribe_ev) : Prop :=
  match e with
  | SDeliver msg | SForward msg => bm_type msg = SCRIBE_MSG_JOIN ∧ bm_src msg = g ∧ sender_key s msg = Some k
  | _ => False
  end.
Definition leaves (g k : Key) (s : scribe) (e : scribe_ev) : Prop :=
  match e with
  | SDeliver msg => bm_type msg = SCRIBE_MSG_LEAVE ∧ bm_src msg = g ∧ sender_key s msg = Some k
  | _ => False
  end.

#[local] Instance joins_dec g k s e : Decision (joins g k s e).
Proof. destruct e; simpl; apply _. Defined.

Lemma child_default_group s g u k :
  g_children (default (new_group junk_key u) (m_groups s !! g)) !! k = child s g k.
Proof. rewrite /child. destruct (m_groups s !! g); simpl; [done|]. by rewrite children_new_group lookup_empty. Qed.

Lemma child_adopted msg u host hkey s g k :
  inv s →
  (bm_src msg = g → hkey = k → ∃ n, child (adopted junk_key me m_mykey msg u host hkey s) g k = Some n ∧
    n_count n = c_default_count) ∧
  (¬ (bm_src msg = g ∧ hkey = k) → child (adopted junk_key me m_mykey msg u host hkey s) g k = child s g k).
Proof.
  intros Hs. set (G := default (new_group junk_key u) (m_groups s !! bm_src msg)).
  assert (child (adopted junk_key me m_mykey msg u host hkey s) g k =
    child (s_set_groups (<[bm_src msg := add_child host hkey G]> (m_groups s)) s) g k) as ->.
  { rewrite /adopted. by destruct (key_equal m_mykey hkey), (uri_empty u). }
  rewrite child_add /G child_default_group. split.
  - intros <- ->. rewrite !bool_decide_true //. eexists. split; [done|].
    destruct (child s (bm_src msg) k) as [n|] eqn:E; [|done]. apply bind_Some in E as (G0 & E0 & En).
    apply node_incr_count, (go_count (s_hosts s) G0 (sinv_lookup _ _ _ _ (proj1 Hs) E0) k n En).
  - intros Hn. case_bool_decide as Hg; [|done]. subst g. case_bool_decide as Hk; [|done]. by destruct Hn.
Qed.

Lemma child_deleted s g g' k k' G :
  m_groups s !! g' = Some G →
  child (s_set_groups (<[g' := del_child k' G]> (m_groups s)) s) g k =
    if bool_decide (g = g' ∧ k = k') then None else child s g k.
Proof.
  intros HG. rewrite /child /=. destruct (decide (g = g')) as [->|Hg].
  - rewrite lookup_insert_eq HG /=. case_bool_decide as Hk; [destruct Hk as [_ ->]; by rewrite lookup_delete_eq|].
    rewrite lookup_delete_ne //. intros ->. by destruct Hk.
  - rewrite lookup_insert_ne // bool_decide_false //. by intros [].
Qed.

Lemma keeps_deliver_other msg :
  bm_type msg ≠ SCRIBE_MSG_JOIN → bm_type msg ≠ SCRIBE_MSG_LEAVE →
  keeps (scribe_deliver_handler gethostbyaddr key_makehash junk junk_key me m_mykey msg).
Proof.
  intros H1 H2. rewrite /scribe_deliver_handler (proj2 (Z.eqb_neq _ _) H1) (proj2 (Z.eqb_neq _ _) H2).
  repeat (destruct (_ =? _)).
  all: first [ apply keeps_deliver_create | apply keeps_multicast | apply keeps_rp_request | apply keeps_rp_reply
             | apply keeps_parent | by apply keeps_same ].
Qed.

Lemma child_sends l s g k : child (s_sends l s) g k = child s g k.
Proof. rewrite /child. by destruct (sends_frame l s) as (_ & -> & _). Qed.

(** What one event does to a child: a JOIN sets its count to the maximum, a
    LEAVE may delete it, everything else but maintenance leaves it. *)
Definition child_effect (g k : Key) (s : scribe) (e : scribe_ev) (s' : scribe) : Prop :=
  (joins g k s e → ∃ n, child s' g k = Some n ∧ n_count n = c_default_count) ∧
  (¬ joins g k s e → ¬ leaves g k s e → child s' g k = child s g k) ∧
  (¬ joins g k s e → child s' g k = child s g k ∨ child s' g k = None).

Lemma effect_same g k s e s' : child s' g k = child s g k → ¬ joins g k s e → child_effect g k s e s'.
Proof. intros E Hj. split_and!; auto; by intros. Qed.

Lemma effect_keeps {A} g k s e (m : M scribe A) :
  keeps m → scribe_step e = discard m → ¬ joins g k s e → child_effect g k s e (scribe_step e s).2.
Proof.
  intros Hm -> Hj. apply effect_same; [|done].
  exact (keeps_children_bind m (λ _, mret tt) Hm (λ _, keeps_same (mret tt) (λ _, eq_refl)) s g k).
Qed.

Lemma effect_adopted g k s e msg u host hkey s1 s' :
  (joins g k s e ↔ bm_src msg = g ∧ hkey = k) → inv s1 → (∀ g k, child s1 g k = child s g k) →
  s' = adopted junk_key me m_mykey msg u host hkey s1 → child_effect g k s e s'.
Proof.
  intros Hj Hs1 Hc ->. destruct (child_adopted msg u host hkey s1 g k Hs1) as [A1 A2].
  rewrite Hc in A2. split_and!; rewrite Hj; [by intros []; apply A1|by intros; apply A2|by intros; left; apply A2].
Qed.

Lemma effect_deliver_join msg s g k :
  inv s → ev_ok s (SDeliver msg) → bm_type msg = SCRIBE_MSG_JOIN →
  child_effect g k s (SDeliver msg) (scribe_step (SDeliver msg) s).2.
Proof.
  intros Hs He Ht. destruct (deliver_join_runs msg s (proj1 He (or_intror Ht)) Hs) as (u & x & y & hkey & Hhk & E & _).
  destruct (inv_decode (bm_payload msg) s Hs) as [Hs1 _].
  eapply (effect_adopted _ _ _ _ msg u _ hkey); cycle 3;
    [rewrite /= /scribe_deliver_handler Ht; exact (f_equal snd E)| |exact Hs1|done].
  rewrite /= /sender_key Hhk. naive_solver.
Qed.

Lemma effect_forward msg s g k :
  inv s → ev_ok s (SForward msg) → child_effect g k s (SForward msg) (scribe_step (SForward msg) s).2.
Proof.
  intros Hs He. destruct (decide (bm_type msg = SCRIBE_MSG_JOIN)) as [Ht|Ht].
  - destruct (forward_join_runs msg s (He Ht) Hs) as (u & x & y & hkey & Hhk & E & _).
    destruct (inv_decode (bm_payload msg) s Hs) as [Hs1 _].
    eapply (effect_adopted _ _ _ _ _ u _ hkey); cycle 3;
      [rewrite /= /discard /scribe_forward_handler Ht (bind_ok _ _ _ _ _ E); reflexivity| |exact Hs1|done].
    rewrite /= /sender_key Hhk. naive_solver.
  - apply effect_same; [|by intros [? _]]. by rewrite /= /scribe_forward_handler (proj2 (Z.eqb_neq _ _) Ht).
Qed.

Lemma effect_deliver_leave msg s g k :
  inv s → ev_ok s (SDeliver msg) → bm_type msg = SCRIBE_MSG_LEAVE →
  child_effect g k s (SDeliver msg) (scribe_step (SDeliver msg) s).2.
Proof.
  intros Hs He Hl. pose proof (deliver_leave_runs msg s (proj1 (proj2 He) Hl) Hs) as E.
  assert (¬ joins g k s (SDeliver msg)) as Hj by (rewrite /= Hl; by intros [? _]).
  rewrite (_ : scribe_step (SDeliver msg) s = deliver_leave gethostbyaddr me m_mykey msg s);
    [by rewrite /= /scribe_deliver_handler Hl|].
  destruct (m_groups s !! bm_src msg) as [G|] eqn:EG; [|apply effect_same; [by rewrite E|done]].
  destruct E as (hkey & Hhk & E & _). rewrite E. set (s' := s_sends _ _).
  assert (child s' g k = if bool_decide (g = bm_src msg ∧ k = hkey) then None else child s g k) as Ec.
  { rewrite /s' child_sends. by apply (child_deleted (s_set_hosts _ s)). }
  clearbody s'. cbn [snd]. case_bool_decide as Hgk; [|by apply effect_same]. split_and!; [done| |by right].
  intros _ Hle. destruct Hle. destruct Hgk as [-> ->]. done.
Qed.

Lemma child_step e s g k :
  inv s → ev_ok s e → e ≠ SRound → k ≠ m_mykey → child_effect g k s e (scribe_step e s).2.
Proof.
  intros Hs He Hr Hk. destruct e as [t|t|t|t payload|t|t|t| |msg|msg|]; try done.
  - by apply (effect_keeps _ _ _ _ _ (keeps_create (uri_of t))); [|intros []].
  - destruct (join_runs (uri_of t) s Hs) as (g' & tmp & x & y & _ & E & _). apply effect_same; [|by intros []].
    rewrite /= /discard (bind_ok _ _ _ _ _ E). by etrans; [apply child_joined|].
  - destruct (leave_runs (uri_of t) s Hs) as (g' & x & y & _ & E & _). apply effect_same; [|by intros []].
    rewrite /= /discard (bind_ok _ _ _ _ _ E). cbn [mret M_ret snd]. destruct (m_groups s !! g') as [G|] eqn:EG; [|done].
    match goal with |- child (s_event _ (s_sends ?l ?s1)) g k = _ => etrans; [exact (child_sends l s1 g k)|] end.
    etrans; [by apply (child_deleted (s_set_caches x y s))|]. rewrite bool_decide_false //. by intros [_ ->].
  - by apply (effect_keeps _ _ _ _ _ (keeps_send (uri_of t) payload)); [|intros []].
  - by apply (effect_keeps _ _ _ _ _ (keeps_parent_set (uri_of t))); [|intros []].
  - by apply (effect_keeps _ _ _ _ _ (keeps_children_set (uri_of t))); [|intros []].
  - by apply (effect_keeps _ _ _ _ _ (keeps_designated (uri_of t))); [|intros []].
  - by apply (effect_keeps _ _ _ _ _ keeps_group_set); [|intros []].
  - destruct (decide (bm_type msg = SCRIBE_MSG_JOIN)) as [Ht|Ht]; [by apply effect_deliver_join|].
    destruct (decide (bm_type msg = SCRIBE_MSG_LEAVE)) as [Hl|Hl]; [by apply effect_deliver_leave|].
    apply effect_same; [by apply keeps_deliver_other|]. by intros [? _].
  - by apply effect_forward.
Qed.

(** Histories without maintenance. *)
Definition full_child (g k : Key) (s : scribe) : Prop := ∃ n, child s g k = Some n ∧ n_count n = c_default_count.

Lemma history_cons e es s : inv s → ev_ok s e → run (e :: es) s = run es (scribe_step e s).2 ∧ inv (scribe_step e s).2.
Proof.
  intros Hs He. destruct (step_runs e s Hs He) as ([] & s1 & E & Hs1 & _). rewrite E. split; [|done].
  by rewrite /run /= (bind_ok _ _ _ _ _ E).
Qed.

Lemma child_run_full es s g k :
  inv s → along ev_ok es s → SRound ∉ es → k ≠ m_mykey → along (λ s e, ¬ leaves g k s e) es s →
  full_child g k s ∨ somewhere (joins g k) es s → full_child g k (run es s).
Proof.
  intros Hs Hok Hr Hk. revert s Hs Hok. induction es as [|e es IH]; intros s Hs Hok Hl Hc; [by destruct Hc|].
  apply not_elem_of_cons in Hr as [Hr1 Hr2]. destruct Hok as [He Hok], Hl as [Hl1 Hl].
  destruct (history_cons e es s Hs He) as [-> Hs1]. destruct (child_step e s g k Hs He) as (C1 & C2 & _); [by intros ->|done|].
  apply IH; [done..|]. destruct (decide (joins g k s e)) as [Hj|Hj]; [left; by apply C1|].
  destruct Hc as [Hc|[Hc|Hc]]; [left|done|by right]. by rewrite /full_child C2.
Qed.

Lemma child_run_fades es s g k :
  inv s → along ev_ok es s → SRound ∉ es → k ≠ m_mykey → along (λ s e, ¬ joins g k s e) es s →
  child (run es s) g k = child s g k ∨ child (run es s) g k = None.
Proof.
  intros Hs Hok Hr Hk. revert s Hs Hok. induction es as [|e es IH]; intros s Hs Hok Hj; [by left|].
  apply not_elem_of_cons in Hr as [Hr1 Hr2]. destruct Hok as [He Hok], Hj as [Hj1 Hj].
  destruct (history_cons e es s Hs He) as [-> Hs1]. destruct (child_step e s g k Hs He) as (_ & _ & C3); [by intros ->|done|].
  destruct (IH Hr2 _ Hs1 Hok Hj) as [->|]; [by apply C3|by right].
Qed.

(** One round of maintenance. *)
Lemma age_other hg G k :
  group_ok hg G → key_equal m_mykey k = false →
  (∀ n, g_children G !! k = Some n → n_count n = c_default_count →
    ∃ n', g_children (age_children m_mykey G) !! k = Some n' ∧ n_count n' = 1) ∧
  (∀ n, g_children (age_children m_mykey G) !! k = Some n → n_count n = 1) ∧
  ((∀ n, g_children G !! k = Some n → n_count n = 1) → g_children (age_children m_mykey G) !! k = None).
Proof.
  clear gethostbyaddr key_makehash junk junk_key me mykey_nonzero. intros HG Hk. rewrite (age_children_lookup hg) // Hk. destruct (g_children G !! k) as [n|] eqn:E; [|done].
  destruct (go_count hg G HG k n E) as [Hc _]. change c_default_count with 2 in *.
  destruct (Z.eqb_spec (n_count n) 1) as [H1|H1]; split_and!; try naive_solver lia.
Qed.

Lemma child_round s g k :
  inv s → key_equal m_mykey k = false →
  let s' := run [SRound] s in
  for_each [SRound] scribe_step s = (Ok tt, s') ∧ inv s' ∧
  (full_child g k s → ∃ n, child s' g k = Some n ∧ n_count n = 1) ∧
  (∀ n, child s' g k = Some n → n_count n = 1) ∧
  ((∀ n, child s g k = Some n → n_count n = 1) → child s' g k = None).
Proof.
  intros Hs Hk. assert (k ≠ m_mykey) as Hne by (intros ->; by rewrite key_equal_refl in Hk).
  destruct (history_ok [SRound] s Hs ltac:(done)) as (E & Hs' & _). cbn zeta. split; [done|]. split; [done|].
  destruct (maintenance_runs s Hs) as (s1 & E1 & _ & Hc & _).
  assert (run [SRound] s = s1) as -> by (rewrite /run /= /mbind /M_bind E1; done).
  rewrite Hc // /full_child /child. destruct (m_groups s !! g) as [G|] eqn:EG; [|by split_and!; [intros (? & ? & _)| |]].
  destruct (age_other (s_hosts s) G k) as (A1 & A2 & A3); [by eapply sinv_lookup; [apply Hs|]|done|].
  split_and!; [|exact A2|exact A3]. intros (n & Hn & H2). by eapply A1.
Qed.

Lemma history_app es1 es2 s :
  inv s → along ev_ok (es1 ++ es2) s →
  run (es1 ++ es2) s = run es2 (run es1 s) ∧ along ev_ok es1 s ∧ along ev_ok es2 (run es1 s).
Proof.
  revert s. induction es1 as [|e es1 IH]; intros s Hs Hok; [done|]. destruct Hok as [He Hok].
  destruct (history_cons e (es1 ++ es2) s Hs He) as [E Hs1]. destruct (history_cons e es1 s Hs He) as [E1 _].
  destruct (IH _ Hs1 Hok) as (H1 & H2 & H3). by rewrite -app_comm_cons E E1.
Qed.
End invariant.

(** ** Copies *)

Section copies.
Context (m_mykey : Key).

(** The copy of a message for the child with key [k]. *)
Definition copy_for (msg : bmsg) (k : Key) : bmsg :=
  {| bm_dst := k; bm_src := bm_src msg; bm_port := bm_port msg; bm_type := bm_type msg; bm_payload := bm_payload msg |}.
Definition copy_sent (msg : bmsg) (G : scribe_group) (k : Key) : option sending :=
  if bool_decide (k = m_mykey) then None else (λ n, Direct (n_host n) (copy_for msg k)) <$> g_children G !! k.

Lemma key_equal_eq k1 k2 : key_ok k1 → key_ok k2 → key_equal k1 k2 = bool_decide (k1 = k2).
Proof.
  intros H1 H2. apply eq_true_iff_eq. by rewrite key_equal_spec // bool_decide_eq_true.
Qed.

Lemma message_create_copy msg k :
  bmsg_ok msg →
  message_create k (bm_src msg) (bm_port msg) (bm_type msg) (zlen (bm_payload msg)) (bm_payload msg) = copy_for msg k.
Proof.
  intros (_ & _ & Hp & Ht & Hl). pose proof (zlen_nonneg (bm_payload msg)).
  rewrite /message_create /copy_for /u16 !uwrap_small //. by rewrite ztake_all.
Qed.

Lemma copies_effect msg u G ks s :
  bmsg_ok msg → key_ok m_mykey → Forall key_ok ks → NoDup ks →
  let s' := foldl (copy_to_child m_mykey msg u G) s ks in
  m_sent s' = m_sent s ++ omap (copy_sent msg G) ks ∧
  m_received s' = m_received s ++ (if bool_decide (m_mykey ∈ ks) then [(bm_payload msg, u)] else []).
Proof.
  intros Hmsg Hk. revert s. induction ks as [|k ks IH]; intros s Hks Hnd; [by rewrite /= !app_nil_r|].
  apply Forall_cons in Hks as [Hk1 Hks]. apply NoDup_cons in Hnd as [Hni Hnd]. cbn [foldl]. cbn zeta.
  destruct (IH (copy_to_child m_mykey msg u G s k) Hks Hnd) as [-> ->]. cbn [omap list_omap].
  rewrite /copy_to_child /copy_sent key_equal_eq // message_create_copy //.
  rewrite (bool_decide_ext (m_mykey ∈ k :: ks) (k = m_mykey ∨ m_mykey ∈ ks)); [rewrite elem_of_cons; naive_solver|].
  destruct (decide (k = m_mykey)) as [->|Ek].
  - rewrite (bool_decide_false (m_mykey ∈ ks)) // !bool_decide_true; [done|by left|]. by rewrite /= app_nil_r.
  - rewrite (bool_decide_false (k = m_mykey)) //. rewrite (bool_decide_ext (k = m_mykey ∨ m_mykey ∈ ks) (m_mykey ∈ ks)); [tauto|].
    destruct (g_children G !! k); [|done]. simpl. by rewrite -app_assoc.
Qed.

(** The effect of data for a known group. *)
Lemma multicast_effect key_makehash junk me s msg G :
  inv me m_mykey s → m_groups s !! bm_src msg = Some G → bmsg_ok msg → bm_payload msg ≠ [] →
  ∃ u s', deliver_multicast key_makehash junk m_mykey msg s = (Ok tt, s') ∧
    m_groups s' = m_groups s ∧ s_hosts s' = s_hosts s ∧ m_grp_mutex s' = false ∧
    m_sent s' = m_sent s ++ omap (copy_sent msg G) (keys_in_order (g_children G)) ∧
    m_received s' = m_received s ++ (if has_child m_mykey G then [(bm_payload msg, u)] else []) ∧
    (caches_lost s → u = uri_default).
Proof.
  intros [Hs Hm] HG Hmsg Hp.
  destruct (deliver_multicast_eq key_makehash junk m_mykey msg G s Hm HG) as (u & x & y & E & Hu).
  rewrite (proj2 (Z.eqb_neq _ _)) in E; [by intros H%zlen_zero_nil|].
  destruct (copies_frame m_mykey msg u G (keys_in_order (g_children G)) (s_set_caches x y s)) as (E1 & E2 & E3 & _).
  destruct (copies_effect msg u G (keys_in_order (g_children G)) (s_set_caches x y s)) as [E4 E5]; [done| | | |].
  { exact (si_keys _ _ _ _ Hs _ _ (si_me _ _ _ _ Hs)). }
  { apply Forall_forall. intros k [n Hn]%elem_of_keys. exact (go_key _ _ _ (sinv_lookup _ _ _ _ _ _ Hs HG) k n Hn). }
  { apply NoDup_keys. }
  eexists u, _. split; [exact E|]. split_and!; [by rewrite E2|by rewrite E1|by rewrite E3|done| |intros Hl; by apply Hu].
  rewrite E5 /has_child. by rewrite (bool_decide_ext (m_mykey ∈ keys_in_order (g_children G)) (is_Some (g_children G !! m_mykey)));
    [apply elem_of_keys|].
Qed.
End copies.

(** ** Theorems *)

Section theorems.
Context (gethostbyaddr : Z → Z) (key_makehash : bytes → Key) (junk : Z) (junk_key : Key) (me : host_id) (m_mykey : Key).

#[local] Notation handler := (scribe_deliver_handler gethostbyaddr key_makehash junk junk_key me m_mykey).
#[local] Notation step := (scribe_step gethostbyaddr key_makehash junk junk_key me m_mykey).
#[local] Notation after := (run gethostbyaddr key_makehash junk junk_key me m_mykey).
#[local] Notation all_along := (along gethostbyaddr key_makehash junk junk_key me m_mykey).
#[local] Notation some_time := (somewhere gethostbyaddr key_makehash junk junk_key me m_mykey).
#[local] Notation start := (new_scribe me m_mykey).

(** Data for a group the node does not know disables it: the
    handler returns with the lock of the groups taken, and from then on every
    [join], every [send], every further data message, every JOIN for it and
    every round of maintenance waits for ever for that lock. *)
Lemma data_locks (s : scribe) (msg : bmsg) :
  bm_type msg = SCRIBE_MSG_MULTICAST → m_grp_mutex s = false → m_groups s !! bm_src msg = None →
  let s' := s_set_mutex true s in
  handler msg s = (Ok tt, s') ∧
  (∀ u, (join key_makehash junk junk_key me m_mykey u s').1 = UB "m_grp_mutex was left locked") ∧
  (∀ u p, (send key_makehash junk junk_key me m_mykey u p s').1 = UB "m_grp_mutex was left locked") ∧
  (∀ m, (deliver_multicast key_makehash junk m_mykey m s').1 = UB "m_grp_mutex was left locked") ∧
  (∀ m, announces m →
    (deliver_join gethostbyaddr key_makehash junk junk_key me m_mykey m s').1 = UB "m_grp_mutex was left locked") ∧
  (maintenance key_makehash junk junk_key me m_mykey s').1 = UB "m_grp_mutex was left locked".
Proof.
  intros Ht Hm HG s'.
  assert (∀ s, m_grp_mutex s = true → lock_groups s = (UB "m_grp_mutex was left locked", s)) as Hlock.
  { intros s0 H0. rewrite /lock_groups /mbind /M_bind /get. by rewrite H0. }
  split_and!.
  - rewrite /scribe_deliver_handler Ht. by apply deliver_multicast_unknown.
  - intros u. rewrite /join. destruct (uri_mapping_eq key_makehash junk u s') as (k & x & y & E & _). step_ok E.
    rewrite (bind_ok _ _ _ _ _ (key_mapping_0 _ _ _ _)). by rewrite (bind_ub _ _ _ _ _ (Hlock (s_set_caches x y s') eq_refl)).
  - intros u p. rewrite /send. destruct (uri_mapping_eq key_makehash junk u s') as (k & x & y & E & _). step_ok E.
    rewrite (bind_ok _ _ _ _ _ (key_mapping_0 _ _ _ _)). by rewrite (bind_ub _ _ _ _ _ (Hlock (s_set_caches x y s') eq_refl)).
  - intros m. by rewrite /deliver_multicast (bind_ub _ _ _ _ _ (Hlock s' eq_refl)).
  - intros m Ha. rewrite /deliver_join. destruct (message_group_uri_eq key_makehash junk m s' Ha) as (u & x & y & E & _). step_ok E.
    rewrite (bind_ok _ _ _ _ _ (decode_host_eq gethostbyaddr _ _ (proj1 Ha))). rewrite /adopt.
    match goal with |- ((lock_groups ≫= _) ?s1).1 = _ => by rewrite (bind_ub _ _ _ _ _ (Hlock s1 eq_refl)) end.
  - by rewrite /maintenance (bind_ub _ _ _ _ _ (Hlock s' eq_refl)).
Qed.

Lemma bind_ub_1 {A B : Type} (m : M scribe A) (f : A → M scribe B) s w : (m s).1 = UB w → ((m ≫= f) s).1 = UB w.
Proof. rewrite /mbind /M_bind. by destruct (m s) as [[a|e|v] s1]; intros H; simplify_eq/=. Qed.

(** A node in order: the lock of the groups is free, the node is in the cache
    with its key, every child counts 1 or 2 and its host is in the cache, and
    the node itself counts 2 in the groups it is a member of. *)
Definition in_order (s : scribe) : Prop :=
  m_grp_mutex s = false ∧ host_key (s_hosts s) me = Some m_mykey ∧
  ∀ g k n, child s g k = Some n →
    1 <= n_count n <= c_default_count ∧ (k = m_mykey → n_count n = c_default_count) ∧
    is_Some (host_key (s_hosts s) (n_host n)).

Lemma inv_in_order s : inv me m_mykey s → in_order s.
Proof.
  intros [Hs Hm]. split_and!; [done|apply Hs|]. intros g k n Hc. apply bind_Some in Hc as (G & EG & En).
  pose proof (sinv_lookup _ _ _ _ _ _ Hs EG) as HG. destruct (go_count _ _ _ HG k n En) as [Hc Hp].
  split_and!; [lia..| |by apply present_key]. intros ->. by apply (go_self _ _ _ HG).
Qed.

(** C23: whatever calls, messages and maintenance rounds a node sees: every
    step completes and leaves the node [in_order] - in particular no host is
    used after it was freed and nothing throws - up to the first event, if
    there is one, that is not [ev_ok]: a message shorter than its type asks
    for, or data for a group the node does not know.  Such an event is
    harmless, or it reads behind the end of the message, or it is data for an
    unknown group, which returns with the lock of the groups taken; then the
    next join, send or round waits for ever. *)
Theorem scribe_safe (es : list scribe_ev) :
  key_ok m_mykey → m_mykey ≠ zero_key →
  ∃ es1 es2 s, es = es1 ++ es2 ∧ for_each es1 step start = (Ok tt, s) ∧ in_order s ∧
    (es2 = [] ∨ ∃ e es3, es2 = e :: es3 ∧ ¬ ev_ok s e ∧
      (reads_behind (for_each es step start) ∨
       unknown_data s e ∧ step e s = (Ok tt, s_set_mutex true s) ∧
       ∀ e', match e' with SJoin _ | SSend _ _ | SRound => True | _ => False end →
         (step e' (s_set_mutex true s)).1 = UB "m_grp_mutex was left locked")).
Proof.
  intros Hmk Hk.
  destruct (history_outcome gethostbyaddr key_makehash junk junk_key me m_mykey Hk es start (inv_new me m_mykey Hmk))
    as (es1 & es2 & s & Ees & E & Hs & Hrest).
  exists es1, es2, s. split_and!; [done|done|by apply inv_in_order|].
  destruct Hrest as [->|(e & es3 & -> & He & Ho)]; [by left|right]. exists e, es3. split; [done|]. split; [done|].
  destruct Ho as [[Hu E2]|Hb]; [right|left].
  - split; [done|]. split; [done|]. destruct e as [| | | | | | | |msg| |]; try done. destruct Hu as [Ht HG].
    destruct (data_locks s msg Ht (proj2 Hs) HG) as (_ & L1 & L2 & _ & _ & L3).
    intros [t|t|t|t p|t|t|t| |m|m|] He'; try done; cbn [scribe_step]; rewrite /discard.
    + by apply bind_ub_1.
    + by apply bind_ub_1.
  - rewrite Ees for_each_app (bind_ok _ _ _ _ _ E). cbn [for_each]. by apply reads_behind_bind.
Qed.

(** C32: children are soft state.  In a history whose messages are as long as
    their types ask for and whose data is for known groups ([ev_ok]): from one
    maintenance round to the next, a child other than the node itself that
    sends a JOIN and no LEAVE stays a child of the group through the second
    round, and one that sends no JOIN is gone after it, whatever else
    happens between the rounds; the node's own membership outlives the
    round.  But data for an unknown group stops all this: the next round
    waits for ever for the lock, and the children stay as they are. *)
Theorem scribe_soft_state (es0 es : list scribe_ev) (g k : Key) :
  key_ok m_mykey → m_mykey ≠ zero_key →
  let s := after (es0 ++ [SRound]) start in
  let s1 := after es s in
  all_along ev_ok (es0 ++ [SRound]) start → all_along ev_ok es s → SRound ∉ es →
  (key_equal m_mykey k = false →
    (some_time (joins gethostbyaddr g k) es s → all_along (λ s e, ¬ leaves gethostbyaddr g k s e) es s →
      is_Some (child (after [SRound] s1) g k)) ∧
    (all_along (λ s e, ¬ joins gethostbyaddr g k s e) es s → child (after [SRound] s1) g k = None)) ∧
  (is_Some (child s1 g m_mykey) → is_Some (child (after [SRound] s1) g m_mykey)) ∧
  (∀ msg, unknown_data s1 (SDeliver msg) →
    ∃ s2, step (SDeliver msg) s1 = (Ok tt, s2) ∧ (step SRound s2).1 = UB "m_grp_mutex was left locked" ∧
      child s2 g k = child s1 g k).
Proof.
  intros Hmk Hz s s1 Hok0 Hok Hr.
  destruct (history_app _ _ _ _ _ _ Hz es0 [SRound] start (inv_new me m_mykey Hmk) Hok0) as (E & Hok1 & Hok2).
  destruct (history_ok _ _ _ _ _ _ Hz (es0 ++ [SRound]) start (inv_new me m_mykey Hmk) Hok0) as (_ & Hs2 & _).
  destruct (history_ok _ _ _ _ _ _ Hz es0 start (inv_new me m_mykey Hmk) Hok1) as (_ & Hs1 & _).
  rewrite -/s in Hs2. destruct (history_ok _ _ _ _ _ _ Hz es s Hs2 Hok) as (_ & Hs3 & _). rewrite -/s1 in Hs3.
  split_and!.
  - intros Hk. assert (k ≠ m_mykey) as Hne by (intros ->; by rewrite key_equal_refl in Hk).
    destruct (child_round gethostbyaddr key_makehash junk junk_key me m_mykey Hz (after es0 start) g k Hs1 Hk)
      as (_ & _ & _ & Hc2 & _). rewrite -E -/s in Hc2.
    destruct (child_round gethostbyaddr key_makehash junk junk_key me m_mykey Hz s1 g k Hs3 Hk) as (_ & _ & C1 & _ & C3).
    split.
    + intros Hj Hl. destruct C1 as (n & Hn & _); [|by exists n].
      apply child_run_full; [done..|by right].
    + intros Hj. apply C3. intros n Hn.
      destruct (child_run_fades gethostbyaddr key_makehash junk junk_key me m_mykey Hz es s g k Hs2 Hok Hr Hne Hj) as [E2|E2];
        rewrite /s1 E2 in Hn; [by apply Hc2|done].
  - intros Ho. destruct (maintenance_runs key_makehash junk junk_key me m_mykey s1 Hs3) as (s2 & E2 & _ & _ & H2 & _).
    assert (after [SRound] s1 = s2) as -> by (rewrite /run /= /mbind /M_bind E2; done). by apply H2.
  - intros msg [Ht HG]. destruct (data_locks s1 msg Ht (proj2 Hs3) HG) as (L0 & _ & _ & _ & _ & L). by exists (s_set_mutex true s1).
Qed.

(** The names of groups are lost.  In a history in which no name is
    of the namespace [ham], whatever else happens, the caches know no name,
    [group_set] lists no group, every received packet is reported for the
    empty URI; and two rounds of maintenance send no JOIN at all, after which
    no group has a child but the node itself: with maintenance switched on
    the trees of all groups fall apart. *)
Theorem scribe_names_lost (es : list scribe_ev) :
  key_ok m_mykey → m_mykey ≠ zero_key → all_along ev_ok es start → Forall ev_lost es →
  let s := after es start in
  (∀ k, key_mapping key_makehash junk k 0 s = (Ok uri_default, s)) ∧
  group_set key_makehash junk m_mykey s = (Ok [], s) ∧
  Forall (λ r, r.2 = uri_default) (m_received s) ∧
  ∃ s1 s2, step SRound s = (Ok tt, s1) ∧ step SRound s1 = (Ok tt, s2) ∧ m_sent s2 = m_sent s ∧
    ∀ g k, key_equal m_mykey k = false → child s2 g k = None.
Proof.
  intros Hmk Hz Hok Hlost s.
  destruct (history_ok _ _ _ _ _ _ Hz es start (inv_new me m_mykey Hmk) Hok) as (_ & Hs & Hn).
  specialize (Hn Hlost (names_new me m_mykey)). rewrite -/s in Hs, Hn. split_and!.
  - intros k. rewrite key_mapping_0. destruct (m_uri_cache s !! k) eqn:E; [|done]. by rewrite (proj1 Hn _ _ E).
  - destruct (group_set_eq key_makehash junk me m_mykey s Hs) as (r & E & Hr). by rewrite E Hr.
  - apply Hn.
  - destruct (maintenance_runs key_makehash junk junk_key me m_mykey s Hs) as (s1 & E1 & Hs1 & Hc1 & _ & Hn1).
    destruct (Hn1 Hn) as [Eq1 Hl1].
    destruct (maintenance_runs key_makehash junk junk_key me m_mykey s1 Hs1) as (s2 & E2 & Hs2 & Hc2 & _ & Hn2).
    destruct (Hn2 Hl1) as [Eq2 _]. exists s1, s2. split_and!; [done..|by rewrite Eq2 Eq1|]. intros g k Hk.
    assert (k ≠ m_mykey) as Hne by (intros ->; by rewrite key_equal_refl in Hk).
    rewrite Hc2 //. destruct (m_groups s1 !! g) as [G1|] eqn:EG1; [|done]. simpl.
    destruct (age_other m_mykey (s_hosts s1) G1 k) as (_ & _ & A3); [by eapply sinv_lookup; [apply Hs1|]|done|].
    apply A3. rewrite Eq1 /= lookup_fmap in EG1. destruct (m_groups s !! g) as [G|] eqn:EG; [|done]. simplify_eq/=.
    by apply (age_other m_mykey (s_hosts s) G k); [eapply sinv_lookup; [apply Hs|]|].
Qed.

(** Data for a group the node does not know disables it: the
    handler returns with the lock of the groups taken, and from then on every
    [join], every [send], every further data message, every JOIN for it and
    every round of maintenance waits for ever for that lock. *)
Theorem scribe_unknown_group_locks (s : scribe) (msg : bmsg) :
  bm_type msg = SCRIBE_MSG_MULTICAST → m_grp_mutex s = false → m_groups s !! bm_src msg = None →
  let s' := s_set_mutex true s in
  handler msg s = (Ok tt, s') ∧
  (∀ u, (join key_makehash junk junk_key me m_mykey u s').1 = UB "m_grp_mutex was left locked") ∧
  (∀ u p, (send key_makehash junk junk_key me m_mykey u p s').1 = UB "m_grp_mutex was left locked") ∧
  (∀ m, (deliver_multicast key_makehash junk m_mykey m s').1 = UB "m_grp_mutex was left locked") ∧
  (∀ m, announces m →
    (deliver_join gethostbyaddr key_makehash junk junk_key me m_mykey m s').1 = UB "m_grp_mutex was left locked") ∧
  (maintenance key_makehash junk junk_key me m_mykey s').1 = UB "m_grp_mutex was left locked".
Proof. intros H1 H2 H3. by apply data_locks. Qed.

(** Data goes down the tree.  A message for a known group is
    handed to the middleware exactly once if the node is a member of the
    group, and one unchanged copy is sent to every other child, in the order
    of the keys; nothing else is sent, and the groups stay as they are. *)
Theorem scribe_forwards_once (es : list scribe_ev) (msg : bmsg) (G : scribe_group) :
  key_ok m_mykey → m_mykey ≠ zero_key → all_along ev_ok es start →
  let s := after es start in
  m_groups s !! bm_src msg = Some G → bm_type msg = SCRIBE_MSG_MULTICAST → bmsg_ok msg → bm_payload msg ≠ [] →
  ∃ u s', handler msg s = (Ok tt, s') ∧ m_groups s' = m_groups s ∧ m_grp_mutex s' = false ∧
    m_sent s' = m_sent s ++ omap (copy_sent m_mykey msg G) (keys_in_order (g_children G)) ∧
    NoDup (keys_in_order (g_children G)) ∧
    m_received s' = m_received s ++ (if has_child m_mykey G then [(bm_payload msg, u)] else []).
Proof.
  intros Hmk Hz Hok s HG Ht Hmsg Hp. destruct (history_ok _ _ _ _ _ _ Hz es start (inv_new me m_mykey Hmk) Hok) as (_ & Hs & _).
  destruct (multicast_effect m_mykey key_makehash junk me s msg G Hs HG Hmsg Hp) as (u & s' & E & E1 & _ & E2 & E3 & E4 & _).
  exists u, s'. split_and!; [by rewrite /scribe_deliver_handler Ht|done..|apply NoDup_keys|done].
Qed.

(** Leaving goes up the tree.  A LEAVE for a known group removes its
    sender from the children and nothing else; this node leaves too, with one
    LEAVE to its parent, exactly if no child is left and the parent is known
    and another node. *)
Theorem scribe_leave_propagates (es : list scribe_ev) (msg : bmsg) (G : scribe_group) :
  key_ok m_mykey → m_mykey ≠ zero_key → all_along ev_ok es start →
  let s := after es start in
  bm_type msg = SCRIBE_MSG_LEAVE → HOST_CODED_SIZE <= zlen (bm_payload msg) → m_groups s !! bm_src msg = Some G →
  ∃ hkey s', sender_key gethostbyaddr s msg = Some hkey ∧ handler msg s = (Ok tt, s') ∧
    m_groups s' = <[bm_src msg := set_children (delete hkey (g_children G)) G]> (m_groups s) ∧
    m_received s' = m_received s ∧
    ∃ l, m_sent s' = m_sent s ++ l ∧
    ((delete hkey (g_children G) ≠ ∅ ∨ g_parent G = None) → l = []) ∧
    (∀ p, delete hkey (g_children G) = ∅ → g_parent G = Some p →
      ∃ pkey, host_key (s_hosts s') p = Some pkey ∧
        l = if key_equal m_mykey pkey then []
            else [Direct p (message_create pkey (bm_src msg) (bm_port msg) SCRIBE_MSG_LEAVE HOST_CODED_SIZE
                    (host_encode m_mykey me))]).
Proof.
  intros Hmk Hz Hok s Ht Hl HG. destruct (history_ok _ _ _ _ _ _ Hz es start (inv_new me m_mykey Hmk) Hok) as (_ & Hs & _).
  rewrite -/s in Hs. pose proof (deliver_leave_runs gethostbyaddr me m_mykey Hz msg s Hl Hs) as E. rewrite HG in E.
  destruct E as (hkey & Hk & E & Hs1). exists hkey. eexists. split; [done|].
  split; [rewrite /scribe_deliver_handler Ht; exact E|].
  match goal with |- context [s_sends ?l ?s1] => destruct (sends_frame l s1) as (F1 & F2 & _ & _ & F5 & F6) end.
  rewrite F1 F2 F5 F6. split_and!; [done..|]. eexists. split; [done|]. rewrite /told_parent /children. cbn [g_children del_child set_children g_parent].
  split.
  - intros [Hne| ->]; [|by destruct (_ =? _)%nat]. rewrite (proj2 (Nat.eqb_neq _ _)) //. by rewrite map_size_empty_iff.
  - intros p -> Hp. rewrite map_size_empty /= Hp.
    destruct (proj1 (present_key _ _) (go_parent _ _ _ (sinv_lookup _ _ _ _ _ _ (proj1 Hs1) (lookup_insert_eq _ _ _)) p Hp)) as [pk Hpk].
    exists pk. split; [done|]. change (host_key _ p) with (host_key (host_decode gethostbyaddr (bm_payload msg) (s_hosts s)).2 p) in Hpk.
    by rewrite Hpk.
Qed.
End theorems.

(** ** Two nodes *)

Section two_nodes.
Context (key_makehash : bytes → Key).
(** A node [A] and a node [B], each with its name service, its indeterminate
    values, its host and its key. *)
Context (ghA : Z → Z) (junkA : Z) (jkA : Key) (meA : host_id) (keyA : Key).
Context (ghB : Z → Z) (junkB : Z) (jkB : Key) (meB : host_id) (keyB : Key).
#[local] Notation startA := (new_scribe meA keyA).
#[local] Notation startB := (new_scribe meB keyB).
#[local] Notation afterA := (run ghA key_makehash junkA jkA meA keyA).
#[local] Notation afterB := (run ghB key_makehash junkB jkB meB keyB).
#[local] Notation alongA := (along ghA key_makehash junkA jkA meA keyA).
#[local] Notation alongB := (along ghB key_makehash junkB jkB meB keyB).
#[local] Notation handlerA := (scribe_deliver_handler ghA key_makehash junkA jkA meA keyA).
#[local] Notation handlerB := (scribe_deliver_handler ghB key_makehash junkB jkB meB keyB).

Definition node_ok (me : host_id) (k : Key) : Prop :=
  key_ok k ∧ k ≠ zero_key ∧ host_ok me ∧ me.1 ≠ 2130706433 ∧ me.1 ≠ 2130706689.

(** The key a node has for a host is unknown or the right one. *)
Definition knows (s : scribe) (h : host_id) (k : Key) : Prop :=
  default zero_key (host_key (s_hosts s) h) = zero_key ∨ default zero_key (host_key (s_hosts s) h) = k.

Lemma decode_node gh s me k rest :
  node_ok me k → no_free (s_hosts s) → knows s me k →
  decoded gh (host_encode k me ++ rest) = me ∧
  host_key (host_decode gh (host_encode k me ++ rest) (s_hosts s)).2 me = Some k.
Proof.
  intros (Hk & Hz & Hh & Hl1 & Hl2) Hf Hkn. destruct (decoded_encode gh k me rest Hk Hh Hl1 Hl2) as [E1 E2].
  destruct (host_decode_no_free gh (host_encode k me ++ rest) (s_hosts s) Hf) as (_ & _ & G). rewrite E1 E2 in G. split; [done|].
  rewrite G. f_equal. destruct Hkn as [-> | ->]; [by rewrite bool_decide_true|]. by rewrite bool_decide_false.
Qed.

(** The JOIN a node sends when names are lost. *)
Definition join_message (k : Key) (port : Z) : bmsg :=
  {| bm_dst := k; bm_src := k; bm_port := u16 port; bm_type := SCRIBE_MSG_JOIN;
     bm_payload := host_encode keyA meA ++ [":"%char; NUL] |}.

Lemma join_message_eq k port :
  key_ok keyA →
  message_create k k port SCRIBE_MSG_JOIN (HOST_CODED_SIZE + 1 + zlen (uri_str uri_default) + 1)
    (announcement meA keyA uri_default) = join_message k port ∧
  announces (join_message k port).
Proof.
  intros Hk. assert (zlen (host_encode keyA meA) = HOST_CODED_SIZE) as Hl by by rewrite /zlen length_host_encode.
  rewrite /announcement /announces /message_create /join_message. cbn [bm_payload].
  change (str ":" ++ uri_str uri_default ++ [NUL]) with [":"%char; NUL].
  change (HOST_CODED_SIZE + 1 + zlen (uri_str uri_default) + 1) with (HOST_CODED_SIZE + 2).
  split; [|split].
  - f_equal. change (u16 (HOST_CODED_SIZE + 2)) with (HOST_CODED_SIZE + 2). rewrite -Hl. apply ztake_all. rewrite zlen_app. done.
  - rewrite zlen_app Hl. done.
  - rewrite -zdrop_zdrop; [done..|]. rewrite -Hl zdrop_app. by left.
Qed.

Lemma parent_message_eq k port :
  key_ok keyB →
  message_create keyA k port SCRIBE_MSG_PARENT HOST_CODED_SIZE (host_encode keyB meB) =
    {| bm_dst := keyA; bm_src := k; bm_port := u16 port; bm_type := SCRIBE_MSG_PARENT;
       bm_payload := host_encode keyB meB |}.
Proof.
  intros Hk. rewrite /message_create. f_equal. change (u16 HOST_CODED_SIZE) with HOST_CODED_SIZE. apply ztake_all.
  by rewrite /zlen length_host_encode.
Qed.

(** [B] takes [A] as a child and tells it so. *)
Lemma join_adopted (k : Key) port sB :
  node_ok meA keyA → node_ok meB keyB → keyA ≠ keyB → inv meB keyB sB → knows sB meA keyA →
  (∀ n, child sB k keyA = Some n → n_host n = meA) →
  ∃ sB1 n, handlerB (join_message k port) sB = (Ok tt, sB1) ∧ inv meB keyB sB1 ∧
    m_sent sB1 = m_sent sB ++ [Direct meA {| bm_dst := keyA; bm_src := k; bm_port := u16 port;
      bm_type := SCRIBE_MSG_PARENT; bm_payload := host_encode keyB meB |}] ∧
    child sB1 k keyA = Some n ∧ n_host n = meA.
Proof.
  intros HA HB Hne Hs Hkn Hc. destruct (join_message_eq k port (proj1 HA)) as [_ Ha].
  destruct (deliver_join_runs ghB key_makehash junkB jkB meB keyB (proj1 (proj2 HB)) (join_message k port) sB Ha Hs)
    as (u & x & y & hkey & Hk & E & Hs1 & _).
  destruct (decode_node ghB sB meA keyA [":"%char; NUL] HA (si_free _ _ _ _ (proj1 Hs)) Hkn) as [D1 D2].
  cbn [bm_payload join_message] in Hk, E, Hs1. rewrite D1 in Hk, E, Hs1. rewrite D2 in Hk. injection Hk as <-.
  set (s1 := s_set_hosts _ (s_set_caches x y sB)) in *.
  eexists _, _. split; [exact E|]. split; [exact Hs1|].
  assert (key_equal keyB keyA = false) as Hke by (rewrite key_equal_eq; [apply HB|apply HA|]; by rewrite bool_decide_false).
  split.
  - rewrite /adopted Hke. cbn [bm_src bm_port join_message].
    rewrite parent_message_eq; [apply HB|]. replace (u16 (u16 port)) with (u16 port); [by destruct (uri_empty u)|].
    symmetry. apply uwrap_small, uwrap_fits. lia.
  - assert (∀ s', child (adopted jkB meB keyB (join_message k port) u meA keyA s') k keyA =
      Some (match child s' k keyA with Some n => node_incr n | None => new_node meA end)) as Hch.
    { intros s'. rewrite /adopted.
      etrans; [|etrans; [apply (child_add s' k k meA keyA keyA (default (new_group jkB u) (m_groups s' !! k)))|]].
      - by destruct (key_equal keyB keyA), (uri_empty u).
      - rewrite !bool_decide_true // child_default_group. done. }
    rewrite Hch. split; [done|]. change (child s1 k keyA) with (child sB k keyA).
    destruct (child sB k keyA) as [n|] eqn:En; [|done]. rewrite -(Hc n eq_refl) /node_incr. by destruct (_ <? _).
Qed.

(** [A] takes [B] as its parent. *)
Lemma parent_adopted (k : Key) port sA :
  node_ok meA keyA → node_ok meB keyB → keyA ≠ keyB → inv meA keyA sA → knows sA meB keyB →
  is_Some (child sA k keyA) →
  ∃ sA1, handlerA {| bm_dst := keyA; bm_src := k; bm_port := u16 port; bm_type := SCRIBE_MSG_PARENT;
      bm_payload := host_encode keyB meB |} sA = (Ok tt, sA1) ∧ inv meA keyA sA1 ∧
    m_groups sA1 !! k ≫= g_parent = Some meB ∧ is_Some (child sA1 k keyA).
Proof.
  intros HA HB Hne Hs Hkn [n Hc]. apply bind_Some in Hc as (G & EG & En).
  destruct (deliver_parent_runs ghA meA keyA (proj1 (proj2 HA)) {| bm_dst := keyA; bm_src := k; bm_port := u16 port;
    bm_type := SCRIBE_MSG_PARENT; bm_payload := host_encode keyB meB |} sA) as (hkey & Hk & E & Hs1); [|done|].
  { by rewrite /zlen length_host_encode; [apply HB|]. }
  destruct (decode_node ghA sA meB keyB [] HB (si_free _ _ _ _ (proj1 Hs)) Hkn) as [D1 D2]. rewrite app_nil_r in D1, D2.
  cbn [bm_payload bm_src] in Hk, E, Hs1. rewrite D1 in Hk, E, Hs1. rewrite D2 in Hk. injection Hk as <-.
  assert (key_equal keyA keyB = false) as Hke by (rewrite key_equal_eq; [apply HA|apply HB|]; by rewrite bool_decide_false).
  rewrite Hke in E, Hs1. eexists. split; [exact E|]. split; [exact Hs1|].
  rewrite /child. cbn [m_groups s_set_groups]. rewrite lookup_alter_eq EG /= En. done.
Qed.

Lemma child_joined_self u k tmp s : is_Some (child (joined junkA jkA meA keyA u k tmp s) k keyA).
Proof. rewrite /joined. change (child (s_event _ (s_send _ ?s')) k keyA) with (child s' k keyA). rewrite child_add !bool_decide_true //. Qed.

(** C13: a subscription reaches the next node of the tree and data comes back.
    Let [A] and [B] be two nodes with different proper keys and addresses that
    are not loopback addresses, each after a history of well-formed messages
    ([ev_ok]); let neither have a wrong key for the other's host, and let [B]
    have no other host as a child under the key of [A].  In the histories of
    [A] no name may be of the namespace [ham]; this is the rule, since the
    namespace is what follows "ham:" in a URI.  Then the JOIN that [join] at
    [A] sends makes [A] a child at the node [B] it is delivered to, whose
    PARENT answer makes [B] the parent of [A]; and the next message with data
    for the group that reaches [B] is copied to [A], where the copy is handed
    to the middleware once and unchanged - but for the empty group name, since
    the names are lost. *)
Theorem scribe_tree_delivers (esA esB : list scribe_ev) (t : bytes) :
  node_ok meA keyA → node_ok meB keyB → keyA ≠ keyB →
  alongA ev_ok esA startA → Forall ev_lost esA → name_lost (uri_of t) → alongB ev_ok esB startB →
  let sA := afterA esA startA in
  let sB := afterB esB startB in
  knows sA meB keyB → knows sB meA keyA → (∀ g n, child sB g keyA = Some n → n_host n = meA) →
  ∃ sA1 m sB1 pm sA2,
    join key_makehash junkA jkA meA keyA (uri_of t) sA = (Ok HC_SUCCESS, sA1) ∧ m_sent sA1 = m_sent sA ++ [Routed m] ∧
    handlerB m sB = (Ok tt, sB1) ∧ m_sent sB1 = m_sent sB ++ [Direct meA pm] ∧
    handlerA pm sA1 = (Ok tt, sA2) ∧ m_groups sA2 !! bm_src m ≫= g_parent = Some meB ∧
    ∀ d, bmsg_ok d → bm_type d = SCRIBE_MSG_MULTICAST → bm_src d = bm_src m → bm_payload d ≠ [] →
      ∃ sB2 copies sA3,
        handlerB d sB1 = (Ok tt, sB2) ∧ m_sent sB2 = m_sent sB1 ++ copies ∧ Direct meA (copy_for d keyA) ∈ copies ∧
        handlerA (copy_for d keyA) sA2 = (Ok tt, sA3) ∧ m_received sA3 = m_received sA2 ++ [(bm_payload d, uri_default)].
Proof.
  intros HA HB Hne HokA HlA Ht HokB sA sB HkA HkB Hch.
  destruct (history_ok _ _ _ _ _ _ (proj1 (proj2 HA)) esA startA (inv_new meA keyA (proj1 HA)) HokA) as (_ & IA & NA).
  destruct (history_ok _ _ _ _ _ _ (proj1 (proj2 HB)) esB startB (inv_new meB keyB (proj1 HB)) HokB) as (_ & IB & _).
  specialize (NA HlA (names_new meA keyA)). fold sA in IA, NA. fold sB in IB.
  destruct (join_runs key_makehash junkA jkA meA keyA (uri_of t) sA IA) as (k & tmp & x & y & _ & EJ & IA1 & NJ).
  destruct (NJ NA (ex_intro _ t eq_refl) Ht) as [-> NA1]. set (sA1 := joined _ _ _ _ _ _ _ _) in *.
  destruct (join_message_eq k (port_of junkA (uri_of t)) (proj1 HA)) as [EM _].
  destruct (join_adopted k (port_of junkA (uri_of t)) sB HA HB Hne IB HkB (Hch k)) as (sB1 & n & EB & IB1 & SB & CB & HnB).
  destruct (parent_adopted k (port_of junkA (uri_of t)) sA1 HA HB Hne IA1 HkA (child_joined_self _ _ _ _))
    as (sA2 & EP & IA2 & PA & CA).
  assert (names_lost sA2) as NA2.
  { destruct (runs_deliver_parent ghA meA keyA (proj1 (proj2 HA)) {| bm_dst := keyA; bm_src := k;
      bm_port := u16 (port_of junkA (uri_of t)); bm_type := SCRIBE_MSG_PARENT; bm_payload := host_encode keyB meB |} sA1 IA1)
      as (a & s' & E & _ & Hn).
    assert (s' = sA2) as <-; [|by apply Hn]. exact (f_equal snd (eq_trans (eq_sym E) EP)). }
  eexists sA1, (join_message k (port_of junkA (uri_of t))), sB1, _, sA2.
  split_and!; [exact EJ|by rewrite /sA1 /= EM|exact EB|exact SB|exact EP|exact PA|].
  intros d Hd Htd Hsd Hp. apply bind_Some in CB as (GB & EGB & EnB). destruct CA as [nA CA].
  apply bind_Some in CA as (GA & EGA & EnA). cbn [bm_src join_message] in Hsd.
  destruct (multicast_effect keyB key_makehash junkB meB sB1 d GB IB1) as (u1 & sB2 & E1 & _ & _ & _ & S1 & _);
    [by rewrite Hsd|done..|].
  destruct (multicast_effect keyA key_makehash junkA meA sA2 (copy_for d keyA) GA IA2) as (u2 & sA3 & E2 & _ & _ & _ & _ & R2 & U2);
    [by rewrite /= Hsd|destruct Hd as (_ & Hd); split; [apply HA|exact Hd]|done|].
  exists sB2, (omap (copy_sent keyB d GB) (keys_in_order (g_children GB))), sA3.
  split_and!; [by rewrite /scribe_deliver_handler Htd|done| |by rewrite /scribe_deliver_handler /= Htd|].
  - apply list_elem_of_omap. exists keyA. split; [apply elem_of_keys; by exists n|].
    by rewrite /copy_sent bool_decide_false // EnB /= HnB.
  - rewrite R2 /has_child bool_decide_true; [by exists nA|]. rewrite U2 //. apply NA2.
Qed.
End two_nodes.

(** ** Witnesses *)

Definition sample_hash (_ : bytes) : Key := sample_key 7 7 7.
Definition node_a : host_id := (167772161, 16783).
Definition node_b : host_id := (167772162, 16783).
Definition key_a : Key := sample_key 1 2 3.
Definition key_b : Key := sample_key 4 5 6.
Definition sample_group : bytes := str "ham:ip:239.0.0.1:5000".
(** A JOIN of [node_a], data, and a LEAVE of [node_a]. *)
Definition sample_join : bmsg := join_message node_a key_a (sample_key 7 7 7) 5000.
Definition sample_data : bmsg :=
  {| bm_dst := key_b; bm_src := sample_key 7 7 7; bm_port := 5000; bm_type := SCRIBE_MSG_MULTICAST; bm_payload := str "hello" |}.
Definition sample_leave : bmsg :=
  {| bm_dst := key_b; bm_src := sample_key 7 7 7; bm_port := 5000; bm_type := SCRIBE_MSG_LEAVE;
     bm_payload := host_encode key_a node_a |}.

(** Data for another group. *)
Definition other_data : bmsg :=
  {| bm_dst := key_b; bm_src := sample_key 8 8 8; bm_port := 5000; bm_type := SCRIBE_MSG_MULTICAST; bm_payload := str "hello" |}.

Lemma sample_join_announces : announces sample_join.
Proof. split; [by vm_compute|]. apply (bool_decide_unpack _). by vm_compute. Qed.
Lemma sample_join_ok s : ev_ok s (SDeliver sample_join).
Proof. split_and!; [intros _; apply sample_join_announces|done..]. Qed.
Lemma node_a_ok : node_ok node_a key_a.
Proof. split_and!; [apply sample_key_ok; lia|done|split; by vm_compute|done..]. Qed.
Lemma node_b_ok : node_ok node_b key_b.
Proof. split_and!; [apply sample_key_ok; lia|done|split; by vm_compute|done..]. Qed.
Lemma sample_group_lost : name_lost (uri_of sample_group).
Proof. apply (bool_decide_unpack _). by vm_compute. Qed.

Definition steps_b : scribe_ev → M scribe unit := scribe_step id sample_hash 0 zero_key node_b key_b.
Definition run_b : list scribe_ev → scribe → scribe := run id sample_hash 0 zero_key node_b key_b.
Definition start_b : scribe := new_scribe node_b key_b.

Lemma scribe_safe_witness :
  (∃ es1 es2 s, [SJoin sample_group; SDeliver sample_join; SRound; SGroups] = es1 ++ es2 ∧
     for_each es1 steps_b start_b = (Ok tt, s) ∧ m_grp_mutex s = false) ∧
  (∃ es1 es2 s, [SDeliver sample_data; SRound] = es1 ++ es2 ∧ for_each es1 steps_b start_b = (Ok tt, s)).
Proof.
  split.
  - destruct (scribe_safe id sample_hash 0 zero_key node_b key_b [SJoin sample_group; SDeliver sample_join; SRound; SGroups])
      as (es1 & es2 & s & E1 & E2 & (Hm & _) & _).
    + apply node_b_ok.
    + apply node_b_ok.
    + exists es1, es2, s. split; [exact E1|]. split; [exact E2|exact Hm].
  - destruct (scribe_safe id sample_hash 0 zero_key node_b key_b [SDeliver sample_data; SRound])
      as (es1 & es2 & s & E1 & E2 & _).
    + apply node_b_ok.
    + apply node_b_ok.
    + exists es1, es2, s. split; [exact E1|exact E2].
Defined.

Lemma scribe_soft_state_witness :
  is_Some (child (run_b [SRound] (run_b [SDeliver sample_join] (run_b [SRound] start_b))) (sample_key 7 7 7) key_a) ∧
  ∃ s2, steps_b (SDeliver other_data) (run_b [SDeliver sample_join] (run_b [SRound] start_b)) = (Ok tt, s2) ∧
    (steps_b SRound s2).1 = UB "m_grp_mutex was left locked".
Proof.
  destruct (scribe_soft_state id sample_hash 0 zero_key node_b key_b [] [SDeliver sample_join] (sample_key 7 7 7) key_a)
    as (H1 & _ & H2).
  - apply node_b_ok.
  - apply node_b_ok.
  - done.
  - split; [apply sample_join_ok|done].
  - by intros H%list_elem_of_singleton.
  - split.
    + apply H1.
      * by vm_compute.
      * left. split_and!; by vm_compute.
      * split; [|done]. by intros [? _].
    + destruct (H2 other_data) as (s2 & E1 & E2 & _); [split; by vm_compute|]. exists s2. split; [exact E1|exact E2].
Defined.

Lemma scribe_names_lost_witness :
  group_set sample_hash 0 key_b (run_b [SJoin sample_group; SDeliver sample_join] start_b) =
    (Ok [], run_b [SJoin sample_group; SDeliver sample_join] start_b).
Proof.
  destruct (scribe_names_lost id sample_hash 0 zero_key node_b key_b [SJoin sample_group; SDeliver sample_join])
    as (_ & H & _).
  - apply node_b_ok.
  - apply node_b_ok.
  - split; [done|]. split; [apply sample_join_ok|done].
  - repeat constructor; [apply sample_group_lost|]. apply (bool_decide_unpack _). by vm_compute.
  - exact H.
Defined.

Lemma scribe_unknown_group_locks_witness :
  (join sample_hash 0 zero_key node_b key_b (uri_of sample_group) (steps_b (SDeliver sample_data) start_b).2).1 =
    UB "m_grp_mutex was left locked".
Proof.
  destruct (scribe_unknown_group_locks id sample_hash 0 zero_key node_b key_b start_b sample_data) as (E & H & _);
    [done..|]. rewrite (f_equal snd E : (steps_b (SDeliver sample_data) start_b).2 = _). exact (H (uri_of sample_group)).
Defined.

Lemma scribe_forwards_once_witness :
  ∃ u s', steps_b (SDeliver sample_data) (run_b [SJoin sample_group; SDeliver sample_join] start_b) = (Ok tt, s') ∧
    m_received s' = [(str "hello", u)] ∧ last (m_sent s') = Some (Direct node_a (copy_for sample_data key_a)).
Proof.
  set (s := run_b [SJoin sample_group; SDeliver sample_join] start_b).
  destruct (scribe_forwards_once id sample_hash 0 zero_key node_b key_b [SJoin sample_group; SDeliver sample_join] sample_data
    (default (new_group zero_key uri_default) (m_groups s !! sample_key 7 7 7))) as (u & s' & E & _ & _ & Hs & _ & Hr).
  - apply node_b_ok.
  - apply node_b_ok.
  - split; [done|]. split; [apply sample_join_ok|done].
  - by vm_compute.
  - done.
  - split_and!; [apply sample_key_ok; lia|apply sample_key_ok; lia|by vm_compute|by vm_compute|by vm_compute].
  - done.
  - exists u, s'. split; [exact E|]. rewrite Hr Hs. by split; vm_compute.
Defined.

Lemma scribe_leave_propagates_witness :
  ∃ s', steps_b (SDeliver sample_leave) (run_b [SDeliver sample_join] start_b) = (Ok tt, s') ∧
    child s' (sample_key 7 7 7) key_a = None.
Proof.
  set (s := run_b [SDeliver sample_join] start_b).
  destruct (scribe_leave_propagates id sample_hash 0 zero_key node_b key_b [SDeliver sample_join] sample_leave
    (default (new_group zero_key uri_default) (m_groups s !! sample_key 7 7 7))) as (hk & s' & Hk & E & Hg & _).
  - apply node_b_ok.
  - apply node_b_ok.
  - split; [apply sample_join_ok|done].
  - done.
  - by vm_compute.
  - by vm_compute.
  - exists s'. split; [exact E|]. rewrite /child Hg lookup_insert_eq /=. rewrite (_ : key_a = hk); [|apply lookup_delete_eq].
    assert (Some hk = Some key_a) as [= ->]; [|done]. rewrite -Hk. by vm_compute.
Defined.

Lemma scribe_tree_delivers_witness :
  ∃ sA m sB pm sA2, join sample_hash 0 zero_key node_a key_a (uri_of sample_group) (new_scribe node_a key_a) = (Ok HC_SUCCESS, sA) ∧
    steps_b (SDeliver m) start_b = (Ok tt, sB) ∧ m_sent sB = [Direct node_a pm] ∧
    scribe_step id sample_hash 0 zero_key node_a key_a (SDeliver pm) sA = (Ok tt, sA2) ∧
    m_groups sA2 !! bm_src m ≫= g_parent = Some node_b.
Proof.
  destruct (scribe_tree_delivers sample_hash id 0 zero_key node_a key_a id 0 zero_key node_b key_b [] [] sample_group)
    as (sA & m & sB & pm & sA2 & E1 & _ & E2 & E3 & E4 & E5 & _).
  - apply node_a_ok.
  - apply node_b_ok.
  - done.
  - done.
  - constructor.
  - apply sample_group_lost.
  - done.
  - left. by vm_compute.
  - left. by vm_compute.
  - intros g n H. by rewrite /child /= lookup_empty in H.
  - exists sA, m, sB, pm, sA2. split_and!; [exact E1|exact E2|exact E3|exact E4|exact E5].
Defined.
