(* ===== verification/IntrusivePtr.v ===== *)
(** * Reference counting

    [intrusive_ptr.hpp] and [ref_counted.hpp]: objects that count the smart
    pointers to them, and the pointer class with every constructor,
    assignment and accessor.  The counters of [tech_module] and of a module
    handle work through the same class with functors of their own, so the
    pointer is written against the interface [Counting].  The main theorem is
    that every operation keeps the counters exact and that an object dies
    with its last pointer, neither earlier nor later, except for a pointer
    that is reset to the object it owns alone. *)

From Stdlib Require Import ZArith Lia.
From stdpp Require Import fin_maps fin_map_dom gmultiset.
From S2P Require Import Prelude.
Open Scope Z_scope.

(** ** The functors [AddRef] and [Release]

    [dies c] is the test of [Release] on the decremented counter. *)
Class Counting := {
  inc : Z → Z;
  dec : Z → Z;
  dies : Z → bool
}.

(** What the pointer relies on: between zero and [2^31 - 1] the counter counts,
    and it ends exactly at zero. *)
Class CountingSpec (C : Counting) : Prop := {
  inc_ok c : 0 <= c < 2 ^ 31 - 1 → inc c = c + 1;
  dec_ok c : 0 < c < 2 ^ 31 → dec c = c - 1;
  dies_ok c : 0 <= c < 2 ^ 31 → dies c = true ↔ c = 0
}.

(** [ref_counted]: the functors [default_add_ref] and [default_release] call
    [ref] and [deref], which returns [0 < --m_count]. *)
Definition ref (c : Z) : Z := i32 (c + 1).
Definition deref (c : Z) : bool * Z := let c' := i32 (c - 1) in (bool_decide (0 < c'), c').

#[export] Instance ref_counted : Counting :=
  {| inc := ref; dec c := (deref c).2; dies c := negb (bool_decide (0 < c)) |}.

(** [add_and_fetch] on a 32-bit counter: [mh_add_ref], [mh_release],
    [tm_add_ref] and [tm_release], which compare with zero. *)
Definition add_and_fetch (c v : Z) : Z := i32 (c + v).

Definition handle_counted : Counting :=
  {| inc c := add_and_fetch c 1; dec c := add_and_fetch c (-1); dies c := bool_decide (c = 0) |}.

#[export] Instance ref_counted_spec : CountingSpec ref_counted.
Proof.
  split; intros c Hc; simpl; rewrite /ref /=; [apply i32_small; lia|apply i32_small; lia|].
  case_bool_decide; simpl; split; intros; (done || lia).
Qed.

#[export] Instance handle_counted_spec : CountingSpec handle_counted.
Proof.
  split; intros c Hc; simpl; rewrite /add_and_fetch /=; [apply i32_small; lia|rewrite i32_small; lia|].
  by rewrite bool_decide_eq_true.
Qed.

(** ** Memory

    [objects]: the live objects with their counters; [vars]: the live
    [intrusive_ptr] objects with their [m_ptr]; [taken]: the raw pointers
    [take] returned, which still count. *)
Record memory := {
  objects : gmap Z Z;
  vars : gmap Z (option Z);
  taken : gmultiset Z
}.

Definition set_objects (o : gmap Z Z) (s : memory) : memory :=
  {| objects := o; vars := vars s; taken := taken s |}.
Definition set_vars (p : gmap Z (option Z)) (s : memory) : memory :=
  {| objects := objects s; vars := p; taken := taken s |}.
Definition set_taken (t : gmultiset Z) (s : memory) : memory :=
  {| objects := objects s; vars := vars s; taken := t |}.

(** [new T]: the counter starts at zero. *)
Definition new_object (a : Z) : M memory unit :=
  modify (λ s, set_objects (<[a := 0]> (objects s)) s).

Section operations.
Context {C : Counting}.

(** [m_add_ref(p)] and [m_release(p)]: nothing for a null pointer; using an
    object that was deleted is undefined. *)
Definition add_ref (p : option Z) : M memory unit :=
  match p with
  | None => mret tt
  | Some a =>
      s ← get;
      match objects s !! a with
      | None => ub "add_ref of a deleted object"
      | Some c => put (set_objects (<[a := inc c]> (objects s)) s)
      end
  end.

Definition release (p : option Z) : M memory unit :=
  match p with
  | None => mret tt
  | Some a =>
      s ← get;
      match objects s !! a with
      | None => ub "release of a deleted object"
      | Some c =>
          let c' := dec c in
          if dies c' then put (set_objects (delete a (objects s)) s)
          else put (set_objects (<[a := c']> (objects s)) s)
      end
  end.

(** [m_ptr] of a pointer object. *)
Definition ptr_get (v : Z) : M memory (option Z) :=
  s ← get;
  match vars s !! v with
  | None => ub "no such pointer object"
  | Some p => mret p
  end.

Definition write_ptr (v : Z) (p : option Z) : M memory unit :=
  modify (λ s, set_vars (<[v := p]> (vars s)) s).

Definition set_ptr (v : Z) (raw_ptr : option Z) : M memory unit :=
  write_ptr v raw_ptr ;; add_ref raw_ptr.

(** The constructors and the destructor. *)
Definition ptr_default (v : Z) : M memory unit := write_ptr v None.
Definition ptr_raw (v : Z) (raw_ptr : option Z) : M memory unit := set_ptr v raw_ptr.
Definition ptr_copy (v other : Z) : M memory unit := p ← ptr_get other; set_ptr v p.
Definition ptr_destroy (v : Z) : M memory unit :=
  p ← ptr_get v;
  release p ;;
  modify (λ s, set_vars (delete v (vars s)) s).

Definition take (v : Z) : M memory (option Z) :=
  result ← ptr_get v;
  write_ptr v None ;;
  modify (λ s, set_taken (from_option (λ a, {[+ a +]}) ∅ result ⊎ taken s) s) ;;
  mret result.

Definition swap (v other : Z) : M memory unit :=
  p ← ptr_get v;
  q ← ptr_get other;
  write_ptr v q ;; write_ptr other p.

(** [reset], and [operator=] of a raw pointer. *)
Definition reset (v : Z) (new_value : option Z) : M memory unit :=
  p ← ptr_get v;
  release p ;;
  set_ptr v new_value.

Definition assign_raw (v : Z) (p : option Z) : M memory unit := reset v p.

(** [operator=(const intrusive_ptr&)]: copy into a temporary and swap. *)
Definition assign (v other : Z) : M memory unit :=
  s ← get;
  let tmp := fresh (dom (vars s)) in
  ptr_copy tmp other ;;
  swap v tmp ;;
  ptr_destroy tmp.

(** [ref_counted::release] on a pointer that came from [take]. *)
Definition release_raw (a : Z) : M memory unit :=
  release (Some a) ;;
  modify (λ s, set_taken (taken s ∖ {[+ a +]}) s).

(** ** Programs

    The operations an application can run, and when it may: constructors
    work on unused storage, everything else on live pointers, and raw
    pointers point to live objects. *)
Inductive op :=
  | New (a : Z)
  | Default (v : Z)
  | Raw (v : Z) (p : option Z)
  | Copy (v w : Z)
  | Destroy (v : Z)
  | Take (v : Z)
  | Swap (v w : Z)
  | Reset (v : Z) (p : option Z)
  | AssignRaw (v : Z) (p : option Z)
  | Assign (v w : Z)
  | ReleaseRaw (a : Z).

Definition run_op (o : op) : M memory unit :=
  match o with
  | New a => new_object a
  | Default v => ptr_default v
  | Raw v p => ptr_raw v p
  | Copy v w => ptr_copy v w
  | Destroy v => ptr_destroy v
  | Take v => take v ;; mret tt
  | Swap v w => swap v w
  | Reset v p => reset v p
  | AssignRaw v p => assign_raw v p
  | Assign v w => assign v w
  | ReleaseRaw a => release_raw a
  end.

Definition live (s : memory) (p : option Z) : bool :=
  match p with None => true | Some a => bool_decide (is_Some (objects s !! a)) end.
Definition var (s : memory) (v : Z) : bool := bool_decide (is_Some (vars s !! v)).

(** Resetting a pointer to the object it points to needs another pointer that
    keeps the object alive meanwhile; nothing in the interface asks for it. *)
Definition reset_allowed (s : memory) (v : Z) (p : option Z) : bool :=
  match p with
  | None => true
  | Some a =>
      bool_decide (vars s !! v ≠ Some (Some a)) ||
      match objects s !! a with Some c => bool_decide (1 < c) | None => false end
  end.

(** A [reset] of the only pointer to an object to that object. *)
Definition resets_sole_owner (s : memory) (o : op) : bool :=
  match o with
  | Reset v p | AssignRaw v p => negb (reset_allowed s v p)
  | _ => false
  end.

Definition allowed (s : memory) (o : op) : bool :=
  match o with
  | New a => negb (live s (Some a))
  | Default v => negb (var s v)
  | Raw v p => negb (var s v) && live s p
  | Copy v w => negb (var s v) && var s w
  | Destroy v | Take v => var s v
  | Swap v w | Assign v w => var s v && var s w
  | Reset v p | AssignRaw v p => var s v && live s p
  | ReleaseRaw a => bool_decide (a ∈ taken s)
  end.

Fixpoint run_ops (l : list op) : M memory unit :=
  match l with
  | [] => mret tt
  | o :: l => run_op o ;; run_ops l
  end.
End operations.

Definition empty_memory : memory := {| objects := ∅; vars := ∅; taken := ∅ |}.

(** ** References and the invariant *)

Definition pt (p : option Z) (a : Z) : Z := if bool_decide (p = Some a) then 1 else 0.

(** The pointers to [a], and the references to it. *)
Definition pointers (a : Z) (m : gmap Z (option Z)) : Z :=
  Z.of_nat (size (filter (λ kv : Z * option Z, kv.2 = Some a) m)).
Definition refs (s : memory) (a : Z) : Z :=
  pointers a (vars s) + Z.of_nat (multiplicity a (taken s)).

Definition counted (s : memory) : Prop :=
  ∀ a, match objects s !! a with Some c => c = refs s a | None => refs s a = 0 end.

(** Fewer than [2^31 - 1] references in all. *)
Definition bounded (s : memory) : Prop :=
  Z.of_nat (size (vars s)) + Z.of_nat (size (taken s)) < 2 ^ 31 - 1.

(** What one operation does to the live objects: those that lost their last
    reference are gone, all others are there. *)
Definition dies_with_last (s s' : memory) : Prop :=
  ∀ a, is_Some (objects s !! a) →
    is_Some (objects s' !! a) ↔ 0 < refs s' a ∨ refs s a = 0.

Lemma pointers_insert a v p m :
  m !! v = None → pointers a (<[v := p]> m) = pointers a m + pt p a.
Proof.
  intros Hv. rewrite /pointers /pt. case_bool_decide as Hp.
  - rewrite -> map_filter_insert_True by done. rewrite -> map_size_insert_None; [lia|].
    apply map_lookup_filter_None. by left.
  - rewrite -> map_filter_insert_not' by (try done; rewrite Hv; done). lia.
Qed.

Lemma pointers_delete a v p m :
  m !! v = Some p → pointers a (delete v m) = pointers a m - pt p a.
Proof.
  intros Hv. rewrite -{2}(insert_delete_id m v p Hv) pointers_insert; [lia|apply lookup_delete_eq].
Qed.

Lemma pointers_update a v p q m :
  m !! v = Some p → pointers a (<[v := q]> m) = pointers a m - pt p a + pt q a.
Proof.
  intros Hv. rewrite -insert_delete_eq pointers_insert; [|apply lookup_delete_eq].
  rewrite (pointers_delete _ _ p) //.
Qed.

Lemma multiplicity_size (a : Z) (X : gmultiset Z) : (multiplicity a X <= size X)%nat.
Proof.
  destruct (decide (multiplicity a X = 0%nat)) as [->|]; [lia|].
  assert (scalar_mul_subset : multiplicity a X *: {[+ a +]} ⊆ X).
  { intros b. rewrite multiplicity_scalar_mul. destruct (decide (b = a)) as [->|Hb].
    - by rewrite multiplicity_singleton_eq Nat.mul_1_r.
    - rewrite -> multiplicity_singleton_ne by done. rewrite Nat.mul_0_r. apply Nat.le_0_l. }
  apply gmultiset_subseteq_size in scalar_mul_subset.
  rewrite gmultiset_size_scalar_mul gmultiset_size_singleton in scalar_mul_subset. lia.
Qed.

Lemma refs_bound s a : bounded s → 0 <= refs s a < 2 ^ 31 - 1.
Proof.
  rewrite /bounded /refs /pointers. intros Hb.
  pose proof (map_size_filter (λ kv : Z * option Z, kv.2 = Some a) (vars s)).
  pose proof (multiplicity_size a (taken s)). lia.
Qed.

Lemma refs_nonneg s a : 0 <= refs s a.
Proof. rewrite /refs /pointers. lia. Qed.

(** ** What operations do to the counters

    [adjusted d o o']: the counters changed by [d], and the objects whose
    counter went down to zero are gone. *)
Definition adjusted (d : Z → Z) (o o' : gmap Z Z) : Prop :=
  ∀ a, o' !! a = match o !! a with
                 | Some c => if bool_decide (c ≠ 0 ∧ c + d a = 0) then None else Some (c + d a)
                 | None => None
                 end.

Lemma adjusted_refl d o : (∀ a, d a = 0) → adjusted d o o.
Proof.
  intros Hd a. rewrite Hd. destruct (o !! a) as [c|]; [|done].
  rewrite Z.add_0_r. by case_bool_decide; [lia|].
Qed.

(** Two changes in a row are their sum, unless an object dies in between. *)
Lemma adjusted_trans d1 d2 o o1 o2 :
  adjusted d1 o o1 → adjusted d2 o1 o2 →
  (∀ a c, o !! a = Some c → c ≠ 0 → c + d1 a = 0 → d2 a = 0) →
  (∀ a, o !! a = Some 0 → d1 a ≠ 0 → d1 a + d2 a ≠ 0) →
  adjusted (λ a, d1 a + d2 a) o o2.
Proof.
  intros H1 H2 Hn Hz a. rewrite (H2 a) (H1 a). specialize (Hn a). specialize (Hz a).
  destruct (o !! a) as [c|]; [|done]. specialize (Hn c eq_refl).
  destruct (decide (c = 0)) as [->|Hc].
  - rewrite (bool_decide_false (0 ≠ 0 ∧ _)); [|tauto]. rewrite (bool_decide_false (0 ≠ 0 ∧ _)); [|tauto].
    specialize (Hz eq_refl). rewrite bool_decide_false; [f_equal; lia|lia].
  - destruct (decide (c + d1 a = 0)) as [E|E].
    + rewrite bool_decide_true; [|tauto]. rewrite bool_decide_true; [done|]. rewrite Hn //. lia.
    + rewrite (bool_decide_false (c ≠ 0 ∧ c + d1 a = 0)); [|tauto].
      destruct (decide (c + d1 a + d2 a = 0)).
      * rewrite !bool_decide_true //; lia.
      * rewrite !bool_decide_false; [f_equal; lia|lia|lia].
Qed.

Lemma adjusted_ext d d' o o' : (∀ a, d a = d' a) → adjusted d o o' → adjusted d' o o'.
Proof. intros Hd Ha a. by rewrite (Ha a) Hd. Qed.

Lemma pt_range p a : 0 <= pt p a <= 1.
Proof. rewrite /pt. case_bool_decide; lia. Qed.

(** Where the counters follow the references, the invariant holds again and
    objects die with their last reference. *)
Lemma adjusted_counted d s s' :
  counted s → adjusted d (objects s) (objects s') → (∀ a, refs s' a = refs s a + d a) →
  (∀ a, objects s !! a = None → d a = 0) →
  counted s' ∧ dies_with_last s s'.
Proof.
  intros Hs Ha Hr Hd. split.
  - intros a. rewrite (Ha a). specialize (Hs a). specialize (Hr a). specialize (Hd a).
    destruct (objects s !! a) as [c|]; [|specialize (Hd eq_refl); lia].
    case_bool_decide; lia.
  - intros a [c Hc]. rewrite (Ha a) Hc. specialize (Hs a). specialize (Hr a). rewrite Hc in Hs.
    pose proof (refs_nonneg s' a). pose proof (refs_nonneg s a). case_bool_decide.
    + split; [by intros [? ?]|lia].
    + split; [|eauto]. destruct (decide (c = 0)); [right; lia|left; lia].
Qed.

Section specs.
Context {C : Counting} {HC : CountingSpec C}.

(** The functors on counters in range. *)
Lemma add_ref_spec p s :
  (∀ a c, p = Some a → objects s !! a = Some c → 0 <= c < 2 ^ 31 - 1) → live s p = true →
  ∃ o, add_ref p s = (Ok tt, set_objects o s) ∧ adjusted (pt p) (objects s) o.
Proof.
  intros Hb Hl. destruct p as [a|]; simpl.
  - simpl in Hl. apply bool_decide_eq_true in Hl as [c Hc]. rewrite /mbind /M_bind /= Hc.
    eexists. split; [done|]. specialize (Hb a c eq_refl Hc).
    rewrite -> inc_ok by lia. intros b. rewrite /pt. case_bool_decide as Hp.
    + simplify_eq. rewrite lookup_insert_eq Hc. case_bool_decide; [lia|done].
    + rewrite lookup_insert_ne; [|congruence]. destruct (objects s !! b); [|done].
      case_bool_decide; [lia|]. f_equal. lia.
  - exists (objects s). split; [by destruct s|]. by apply adjusted_refl.
Qed.

Lemma release_spec p s :
  (∀ a, p = Some a → ∃ c, objects s !! a = Some c ∧ 0 < c < 2 ^ 31) →
  ∃ o, release p s = (Ok tt, set_objects o s) ∧ adjusted (λ a, - pt p a) (objects s) o.
Proof.
  intros Hb. destruct p as [a|]; simpl.
  - destruct (Hb a eq_refl) as (c & Hc & Hr). rewrite /mbind /M_bind /= Hc.
    rewrite -> dec_ok by lia. destruct (dies (c - 1)) eqn:Ed.
    + apply dies_ok in Ed; [|lia]. eexists. split; [done|]. intros b. rewrite /pt.
      case_bool_decide as Hp; simplify_eq.
      * rewrite lookup_delete_eq Hc. case_bool_decide; [done|lia].
      * rewrite lookup_delete_ne; [|congruence]. destruct (objects s !! b); [|done].
        case_bool_decide; [lia|]. f_equal. lia.
    + assert (c - 1 ≠ 0). { intros E. apply (dies_ok (c - 1)) in E; [congruence|lia]. }
      eexists. split; [done|]. intros b. rewrite /pt. case_bool_decide as Hp; simplify_eq.
      * rewrite lookup_insert_eq Hc. case_bool_decide; [lia|done].
      * rewrite lookup_insert_ne; [|congruence]. destruct (objects s !! b); [|done].
        case_bool_decide; [lia|]. f_equal. lia.
  - exists (objects s). split; [by destruct s|]. by apply adjusted_refl.
Qed.

(** The object a live pointer points to has a positive counter. *)
Lemma pointee s v a :
  counted s → bounded s → vars s !! v = Some (Some a) →
  ∃ c, objects s !! a = Some c ∧ 0 < c < 2 ^ 31 - 1.
Proof.
  intros Hs Hb Hv. pose proof (refs_bound s a Hb). specialize (Hs a).
  assert (0 < pointers a (vars s)) as Hp.
  { pose proof (pointers_delete a v (Some a) (vars s) Hv) as Hd.
    rewrite /pt bool_decide_true // in Hd.
    assert (0 <= pointers a (delete v (vars s))) by (rewrite /pointers; lia). lia. }
  assert (0 < refs s a) by (rewrite /refs; lia).
  destruct (objects s !! a) as [c|]; [|lia]. exists c. split; [done|lia].
Qed.

Lemma counters_in_range s a c :
  counted s → bounded s → objects s !! a = Some c → 0 <= c < 2 ^ 31 - 1.
Proof. intros Hs Hb Ha. specialize (Hs a). rewrite Ha in Hs. subst. by apply refs_bound. Qed.

Lemma live_pointee s v p : counted s → bounded s → vars s !! v = Some p → live s p = true.
Proof.
  intros Hs Hb Hv. destruct p as [a|]; [|done]. apply bool_decide_true.
  destruct (pointee s v a Hs Hb Hv) as (c & -> & _). eauto.
Qed.

Lemma pt_dead s p a : live s p = true → objects s !! a = None → pt p a = 0.
Proof.
  intros Hl Ha. rewrite /pt. case_bool_decide; [|done]. subst. simpl in Hl.
  apply bool_decide_eq_true in Hl as [? ?]. congruence.
Qed.

(** An operation ends normally, with exact counters. *)
Definition exact (s : memory) (m : M memory unit) : Prop :=
  ∃ s', m s = (Ok tt, s') ∧ counted s' ∧ dies_with_last s s'.

Lemma exact_intro d s m s' :
  counted s → m s = (Ok tt, s') → adjusted d (objects s) (objects s') →
  (∀ a, refs s' a = refs s a + d a) → (∀ a, objects s !! a = None → d a = 0) → exact s m.
Proof.
  intros Hs Hm Ha Hr Hd. exists s'. split; [done|]. by eapply adjusted_counted.
Qed.

Lemma new_object_exact a s : counted s → objects s !! a = None → exact s (new_object a).
Proof.
  intros Hs Ha. eexists. split; [done|].
  assert (∀ b, refs (set_objects (<[a := 0]> (objects s)) s) b = refs s b) as Hr by done.
  split; intros b; rewrite Hr /=; specialize (Hs b).
  - destruct (decide (a = b)) as [<-|]; [rewrite lookup_insert_eq; by rewrite Ha in Hs|].
    by rewrite lookup_insert_ne.
  - intros [c Hc]. rewrite lookup_insert_ne; [|congruence]. rewrite Hc in Hs |- *.
    split; [|eauto]. intros _. pose proof (refs_nonneg s b). lia.
Qed.

Lemma set_ptr_exact v p s :
  counted s → bounded s → vars s !! v = None → live s p = true → exact s (set_ptr v p).
Proof.
  intros Hs Hb Hv Hl.
  destruct (add_ref_spec p (set_vars (<[v := p]> (vars s)) s)) as (o & Ho & Ha); [|done|].
  { intros a c _ Hac. by apply (counters_in_range s a c). }
  eapply (exact_intro (pt p)); [done|exact Ho|exact Ha| |by intros; eapply pt_dead].
  intros a. rewrite /refs /= pointers_insert //. lia.
Qed.

Lemma ptr_get_ok v p s : vars s !! v = Some p → ptr_get v s = (Ok p, s).
Proof. intros Hv. by rewrite /ptr_get /mbind /M_bind /= Hv. Qed.

Lemma ptr_default_exact v s : counted s → vars s !! v = None → exact s (ptr_default v).
Proof.
  intros Hs Hv. eapply (exact_intro (λ _, 0)); [done|done|by apply adjusted_refl| |done].
  intros a. rewrite /refs /= pointers_insert //. rewrite /pt /=. lia.
Qed.

Lemma ptr_copy_exact v w s p :
  counted s → bounded s → vars s !! v = None → vars s !! w = Some p → exact s (ptr_copy v w).
Proof.
  intros Hs Hb Hv Hw.
  destruct (set_ptr_exact v p s) as (s' & Hr & Hok); [done|done|done|by eapply live_pointee|].
  exists s'. split; [|done]. rewrite /ptr_copy. by step_ok (ptr_get_ok _ _ _ Hw).
Qed.

Lemma release_pointee v p s :
  counted s → bounded s → vars s !! v = Some p →
  ∃ o, release p s = (Ok tt, set_objects o s) ∧ adjusted (λ a, - pt p a) (objects s) o.
Proof.
  intros Hs Hb Hv. apply release_spec. intros a ->.
  destruct (pointee s v a Hs Hb Hv) as (c & Hc & Hr). exists c. split; [done|lia].
Qed.

Lemma ptr_destroy_exact v p s :
  counted s → bounded s → vars s !! v = Some p → exact s (ptr_destroy v).
Proof.
  intros Hs Hb Hv. destruct (release_pointee v p s Hs Hb Hv) as (o & Ho & Ha).
  apply (exact_intro (λ a, - pt p a) _ _
    (set_vars (delete v (vars s)) (set_objects o s))); [done| |exact Ha| |].
  - rewrite /ptr_destroy. step_ok (ptr_get_ok _ _ _ Hv). by step_ok Ho.
  - intros a. rewrite /refs /= (pointers_delete _ _ p) //. lia.
  - intros a Hn. rewrite (pt_dead s) //. by eapply live_pointee.
Qed.

Lemma take_exact v p s :
  counted s → vars s !! v = Some p → exact s (take v ;; mret tt).
Proof.
  intros Hs Hv.
  apply (exact_intro (λ _, 0) _ _ (set_taken (from_option (λ a, {[+ a +]}) ∅ p ⊎ taken s)
    (set_vars (<[v := None]> (vars s)) s))); [done| |by apply adjusted_refl| |done].
  - rewrite /take {1}/mbind /M_bind. by step_ok (ptr_get_ok _ _ _ Hv).
  - intros a. rewrite /refs /= (pointers_update _ _ p) // multiplicity_disj_union.
    destruct p as [b|]; simpl; rewrite /pt; [rewrite multiplicity_singleton|rewrite multiplicity_empty].
    + case_bool_decide; case_decide; simplify_eq; case_bool_decide; simplify_eq; lia.
    + repeat case_bool_decide; simplify_eq; lia.
Qed.

Lemma swap_ok v w p q s :
  vars s !! v = Some p → vars s !! w = Some q →
  swap v w s = (Ok tt, set_vars (<[w := p]> (<[v := q]> (vars s))) s).
Proof. intros Hv Hw. rewrite /swap. step_ok (ptr_get_ok _ _ _ Hv). by step_ok (ptr_get_ok _ _ _ Hw). Qed.

Lemma swap_refs v w p q s a :
  vars s !! v = Some p → vars s !! w = Some q →
  pointers a (<[w := p]> (<[v := q]> (vars s))) = pointers a (vars s).
Proof.
  intros Hv Hw. destruct (decide (v = w)) as [->|].
  - simplify_eq. by rewrite insert_insert_eq insert_id.
  - rewrite (pointers_update _ _ q); [|by rewrite lookup_insert_ne].
    rewrite (pointers_update _ _ p) //. lia.
Qed.

Lemma swap_exact v w p q s :
  counted s → vars s !! v = Some p → vars s !! w = Some q → exact s (swap v w).
Proof.
  intros Hs Hv Hw. eapply (exact_intro (λ _, 0)); [done|by apply swap_ok|by apply adjusted_refl| |done].
  intros a. rewrite /refs /= (swap_refs v w p q) //. lia.
Qed.

Lemma reset_exact v p q s :
  counted s → bounded s → vars s !! v = Some p → live s q = true →
  reset_allowed s v q = true → exact s (reset v q).
Proof.
  intros Hs Hb Hv Hl Hal. destruct (release_pointee v p s Hs Hb Hv) as (o & Ho & Ha).
  set (s1 := set_vars (<[v := q]> (vars s)) (set_objects o s)).
  assert (∀ a, q = Some a → ∃ c, objects s !! a = Some c ∧ 0 <= c < 2 ^ 31 - 1 ∧
    o !! a = Some (c - pt p a)) as Hq.
  { intros a ->. simpl in Hl, Hal. apply bool_decide_eq_true in Hl as [c Hc]. rewrite Hc in Hal.
    exists c. split; [done|]. split; [by eapply counters_in_range|]. rewrite (Ha a) Hc. cbv beta.
    destruct (bool_decide (c ≠ 0 ∧ c + - pt p a = 0)) eqn:Hz; [|f_equal; lia].
    apply bool_decide_eq_true in Hz. exfalso. rewrite /pt in Hz.
    case_bool_decide as Hp; [|lia]. subst p.
    apply orb_true_iff in Hal as [Hal|Hal]; apply bool_decide_eq_true in Hal; [by rewrite Hv in Hal|lia]. }
  destruct (add_ref_spec q s1) as (o' & Ho' & Ha').
  { intros a c -> Hc. destruct (Hq a eq_refl) as (c' & Hc' & Hr & Ho1). simpl in Hc. simplify_eq.
    rewrite /pt. case_bool_decide as Hp; [|lia]. subst p.
    destruct (pointee s v a Hs Hb Hv) as (c'' & ? & ?). simplify_eq. lia. }
  { destruct q as [a|]; [|done]. apply bool_decide_true. destruct (Hq a eq_refl) as (c & _ & _ & Ho1).
    simpl. by rewrite Ho1. }
  apply (exact_intro (λ a, pt q a - pt p a) _ _ (set_objects o' s1)); [done| | | |].
  - rewrite /reset. step_ok (ptr_get_ok _ _ _ Hv). step_ok Ho. done.
  - eapply adjusted_ext, adjusted_trans; [|exact Ha|exact Ha'| |].
    + intros a. cbv beta. lia.
    + intros a c Hc Hne Hz. rewrite /pt. case_bool_decide as Hqa; [|done]. subst q.
      destruct (Hq a eq_refl) as (c' & ? & _ & Ho1). simplify_eq.
      rewrite (Ha a) Hc bool_decide_true // in Ho1.
    + intros a Hc Hp. rewrite /pt in Hp. case_bool_decide; [|lia]. subst p.
      destruct (pointee s v a Hs Hb Hv) as (c & ? & ?). simplify_eq. lia.
  - intros a. rewrite /refs /= (pointers_update _ _ p) //. lia.
  - intros a Hn. rewrite (pt_dead s q) // (pt_dead s p) //. by eapply live_pointee.
Qed.

Lemma assign_exact v w p q s :
  counted s → bounded s → vars s !! v = Some p → vars s !! w = Some q → exact s (assign v w).
Proof.
  intros Hs Hb Hv Hw. set (tmp := fresh (dom (vars s))).
  assert (vars s !! tmp = None) as Ht by apply not_elem_of_dom, is_fresh.
  assert (live s q = true) as Hl by by eapply live_pointee.
  set (s1 := set_vars (<[tmp := q]> (vars s)) s).
  destruct (add_ref_spec q s1) as (o & Ho & Ha); [|done|].
  { intros a c _ Hac. by apply (counters_in_range s a c). }
  set (s2 := set_vars (<[tmp := p]> (<[v := q]> (vars s1))) (set_objects o s1)).
  assert (∀ a, p = Some a → ∃ c, objects s !! a = Some c ∧ 0 < c < 2 ^ 31 - 1 ∧
    o !! a = Some (c + pt q a)) as Hp.
  { intros a ->. destruct (pointee s v a Hs Hb Hv) as (c & Hc & Hr). exists c.
    split; [done|]. split; [done|]. rewrite (Ha a) /= Hc. pose proof (pt_range q a).
    by rewrite bool_decide_false; [|lia]. }
  destruct (release_spec p s2) as (o' & Ho' & Ha').
  { intros a Hpa. destruct (Hp a Hpa) as (c & _ & Hr & Hoa). eexists. split; [exact Hoa|].
    pose proof (pt_range q a). lia. }
  apply (exact_intro (λ a, pt q a - pt p a) _ _
    (set_vars (delete tmp (vars s2)) (set_objects o' s2))); [done| | | |].
  - rewrite /assign {1}/mbind /M_bind /=. rewrite /ptr_copy -/tmp.
    assert ((ptr_get w ≫= set_ptr tmp) s = (Ok tt, set_objects o s1)) as Hcp
      by (by step_ok (ptr_get_ok _ _ _ Hw)).
    assert (vars s1 !! v = Some p) as Hv1.
    { simpl. rewrite lookup_insert_ne //. intros E. congruence. }
    assert (vars s1 !! tmp = Some q) as Ht1 by (simpl; by rewrite lookup_insert_eq).
    assert (vars s2 !! tmp = Some p) as Ht2 by (simpl; by rewrite lookup_insert_eq).
    step_ok Hcp. step_ok (swap_ok v tmp p q (set_objects o s1) Hv1 Ht1).
    rewrite /ptr_destroy. step_ok (ptr_get_ok tmp p s2 Ht2). by step_ok Ho'.
  - eapply adjusted_ext, adjusted_trans; [|exact Ha|exact Ha'| |].
    + intros a. cbv beta. lia.
    + intros a c Hc Hne Hz. pose proof (pt_range q a).
      specialize (Hs a). rewrite Hc in Hs. pose proof (refs_nonneg s a). lia.
    + intros a Hc Hq. assert (pt p a = 0); [|lia]. rewrite /pt. case_bool_decide as Hpa; [|done].
      destruct (Hp a Hpa) as (c & ? & ? & _). simpl in Hc. simplify_eq. lia.
  - intros a. assert (v ≠ tmp) by congruence. rewrite /refs /s2 /s1 /=.
    rewrite delete_insert_eq. rewrite -> delete_insert_ne by done.
    rewrite -> delete_insert_id by done. rewrite (pointers_update _ _ p) //. lia.
  - intros a Hn. rewrite (pt_dead s q) // (pt_dead s p) //. by eapply live_pointee.
Qed.

Lemma release_raw_exact a s :
  counted s → bounded s → a ∈ taken s → exact s (release_raw a).
Proof.
  intros Hs Hb Ht. pose proof (refs_bound s a Hb) as Hr.
  assert (0 < multiplicity a (taken s))%nat as Hm by (by apply elem_of_multiplicity).
  assert (∃ c, objects s !! a = Some c ∧ 0 < c < 2 ^ 31) as (c & Hc & Hcr).
  { pose proof (Hs a) as Ha. rewrite /refs /pointers in Ha, Hr.
    destruct (objects s !! a) as [c|]; [|lia]. exists c. split; [done|lia]. }
  destruct (release_spec (Some a) s) as (o & Ho & Ha); [intros b [= <-]; eauto|].
  apply (exact_intro (λ b, - pt (Some a) b) _ _
    (set_taken (taken s ∖ {[+ a +]}) (set_objects o s))); [done|by rewrite /release_raw; step_ok Ho|done| |].
  - intros b. rewrite /refs /= multiplicity_difference multiplicity_singleton /pt.
    case_decide; case_bool_decide; simplify_eq; lia.
  - intros b Hn. rewrite (pt_dead s) //. simpl. by rewrite Hc.
Qed.

(** ** Programs *)

Lemma run_op_exact o s :
  counted s → bounded s → allowed s o = true → resets_sole_owner s o = false → exact s (run_op o).
Proof.
  intros Hs Hb Ho Hr. unfold allowed, var in Ho.
  destruct o as [a|v|v p|v w|v|v|v w|v p|v p|v w|a]; simpl in Ho, Hr |- *; rewrite ?negb_false_iff in Hr; rewrite ?andb_true_iff ?negb_true_iff
    ?bool_decide_eq_true ?bool_decide_eq_false -?eq_None_not_Some in Ho; destruct_and?;
    repeat match goal with H : is_Some (vars s !! _) |- _ => destruct H as [? H] end.
  - by apply new_object_exact.
  - by apply ptr_default_exact.
  - by apply set_ptr_exact.
  - by eapply ptr_copy_exact.
  - by eapply ptr_destroy_exact.
  - by eapply take_exact.
  - by eapply swap_exact.
  - by eapply reset_exact.
  - by eapply reset_exact.
  - by eapply assign_exact.
  - by apply release_raw_exact.
Qed.

(** The object is deleted before the new pointer to it is counted. *)
Lemma reset_sole_owner v p q s :
  counted s → bounded s → vars s !! v = Some p → reset_allowed s v q = false →
  ∃ s', reset v q s = (UB "add_ref of a deleted object", s').
Proof.
  intros Hs Hb Hv Hr. destruct q as [a|]; [|done]. apply orb_false_iff in Hr as [Hp Hc].
  apply bool_decide_eq_false in Hp. rewrite Hv in Hp.
  assert (p = Some a) as -> by (destruct (decide (p = Some a)); [done|destruct Hp; congruence]).
  destruct (pointee s v a Hs Hb Hv) as (c & Ec & Hcr). rewrite Ec in Hc. apply bool_decide_eq_false in Hc.
  destruct (release_pointee v (Some a) s Hs Hb Hv) as (o & Ho & Ha). specialize (Ha a).
  rewrite Ec /pt !bool_decide_true // in Ha; [|lia].
  rewrite /reset (bind_ok _ _ _ _ _ (ptr_get_ok _ _ _ Hv)) (bind_ok _ _ _ _ _ Ho).
  rewrite /set_ptr /add_ref /write_ptr /mbind /M_bind /= Ha. by eexists.
Qed.

Lemma run_op_sole_owner o s :
  counted s → bounded s → allowed s o = true → resets_sole_owner s o = true →
  ∃ s', run_op o s = (UB "add_ref of a deleted object", s').
Proof.
  intros Hs Hb Ho Hr. destruct o; try done; simpl in Ho, Hr |- *; apply negb_true_iff in Hr;
    apply andb_true_iff in Ho as [Ho _]; apply bool_decide_eq_true in Ho as [? Hp]; by eapply reset_sole_owner.
Qed.

(** The states a program reaches. *)
Inductive reachable : memory → Prop :=
  | reach_start : reachable empty_memory
  | reach_step s o s' :
      reachable s → bounded s → allowed s o = true → run_op o s = (Ok tt, s') → reachable s'.

Lemma reachable_counted s : reachable s → counted s.
Proof.
  induction 1 as [|s o s' _ IH Hb Ho Hr]; [done|]. destruct (resets_sole_owner s o) eqn:E.
  - destruct (run_op_sole_owner o s IH Hb Ho E) as (s2 & Hr2). by rewrite Hr in Hr2.
  - destruct (run_op_exact o s IH Hb Ho E) as (s2 & Hr2 & Hok & _).
    rewrite Hr in Hr2. by injection Hr2 as <-.
Qed.
End specs.

(** C29: for both kinds of counters, in every state a program with fewer than
    [2^31 - 1] pointers reaches by operations on live variables and live raw
    pointers, every counter is the number of pointers to its object.  The next
    such operation either is a [reset] (or an assignment of a raw pointer) of
    the only pointer to an object to that same object, which always uses the
    object after it was deleted; or it touches no deleted object, and
    afterwards an object that was alive is deleted exactly if it just lost its
    last pointer. *)
Theorem refcounts_exact (C : Counting) (s : memory) (o : op) :
  CountingSpec C → reachable s → bounded s → allowed s o = true →
  counted s ∧
  if resets_sole_owner s o then ∃ s', run_op o s = (UB "add_ref of a deleted object", s')
  else exact s (run_op o).
Proof.
  intros HC Hs Hb Ho. pose proof (reachable_counted s Hs) as Hc. split; [done|].
  destruct (resets_sole_owner s o) eqn:E; [by apply run_op_sole_owner|by apply run_op_exact].
Qed.

(** Two pointers to one object; the second assigns itself and the first goes. *)
Definition two_pointers : list op :=
  [New 100; Raw 1 (Some 100); Copy 2 1; Assign 2 2; Destroy 1].

Lemma reachable_run_ops (C : Counting) l s s' :
  reachable s →
  (fix ok l s := match l with
     | [] => s' = s
     | o :: l => bounded s ∧ allowed s o = true ∧ (run_op o s).1 = Ok tt ∧ ok l (run_op o s).2
     end) l s → reachable s'.
Proof.
  revert s. induction l as [|o l IH]; intros s Hs; [by intros ->|].
  intros (Hb & Ho & Hr & Hl). apply (IH _) in Hl; [done|].
  eapply reach_step; [done|done|done|]. by rewrite -Hr -surjective_pairing.
Qed.

Lemma refcounts_exact_witness :
  ∃ s, run_ops two_pointers empty_memory = (Ok tt, s) ∧ objects s !! 100 = Some 1 ∧
    (counted s ∧ exact s (run_op (Destroy 2))) ∧
    (counted s ∧ ∃ s', run_op (Reset 2 (Some 100)) s = (UB "add_ref of a deleted object", s')).
Proof.
  eexists. split; [vm_compute; reflexivity|].
  match goal with |- context [counted ?m] => assert (reachable m) as Hreach end.
  { apply (reachable_run_ops ref_counted two_pointers empty_memory); [apply reach_start|].
    repeat (split; [reflexivity|]). reflexivity. }
  split; [reflexivity|]. split.
  - exact (refcounts_exact ref_counted _ (Destroy 2) _ Hreach eq_refl eq_refl).
  - exact (refcounts_exact ref_counted _ (Reset 2 (Some 100)) _ Hreach eq_refl eq_refl).
Defined.

(** [reset] to a live object is safe exactly if the pointer does not
    already hold the only reference to it: it releases the old object before
    it counts the new one. *)
Theorem reset_safe_iff (C : Counting) (s : memory) (v : Z) (p q : option Z) :
  CountingSpec C → counted s → bounded s → vars s !! v = Some p → live s q = true →
  (∃ s', reset v q s = (Ok tt, s')) ↔ reset_allowed s v q = true.
Proof.
  intros HC Hs Hb Hv Hl. split.
  - intros [s' Hr]. destruct (reset_allowed s v q) eqn:E; [done|].
    destruct (reset_sole_owner v p q s Hs Hb Hv E) as (s2 & Hr2). congruence.
  - intros Hal. destruct (reset_exact v p q s Hs Hb Hv Hl Hal) as (s' & Hr & _). eauto.
Qed.

Lemma reset_safe_iff_witness :
  let s := {| objects := {[100 := 1]}; vars := {[1 := Some 100]}; taken := ∅ |} in
  (∃ s', reset 1 None s = (Ok tt, s')) ↔ true = true.
Proof.
  apply (reset_safe_iff ref_counted _ 1 (Some 100) None); [apply _| |reflexivity|reflexivity|reflexivity].
  intros a. simpl. destruct (decide (a = 100)) as [->|Hne]; [reflexivity|].
  rewrite lookup_singleton_ne //. rewrite /refs /= /pointers multiplicity_empty.
  rewrite -> map_filter_singleton_False by (simpl; congruence). reflexivity.
Defined.
