(* ===== verification/ModuleLoader.v ===== *)
(** * Loading and unloading of modules

    The static half of [tech_module.cpp]: [load] opens a shared library,
    looks up its functions and calls [hc_init], which creates instances
    through [new_instance]; instances and the handle of the library are
    reference counted ([mh_add_ref], [mh_release], [tm_add_ref],
    [tm_release]), and [unload_all] empties the table of instances.

    The dynamic linker and the modules are parameters: which library a file
    holds, its symbols, and the instances its [hc_init] creates for given
    arguments.  [dlerror] behaves as documented: it returns the most recent
    error since its last call. *)

From Stdlib Require Import ZArith Lia.
From stdpp Require Import list gmultiset.
From S2P Require Import Prelude Uri UriMappings TechModule IntrusivePtr.
Open Scope Z_scope.

(** ** State *)

(** What [hc_init] passes to [new_instance]. *)
Record instance_args := {
  ia_instance : Z;
  ia_kvps : list (option bytes * option bytes);
  ia_atomic_size : Z
}.

Record library := {
  lib_symbols : list string;
  lib_init : list (bytes * bytes) → Z → list instance_args
}.

(** Calls of the dynamic linker and into modules, in order. *)
Inductive loader_call :=
  | Dlopen (file : bytes)
  | Dlclose (file : bytes)
  | Hc_init (file : bytes) (list_args : list (bytes * bytes)) (max_msg_size : Z)
  | Hc_shutdown (file : bytes)
  | Hc_delete_instance (instance : Z).

(** [hc_module_handle]. *)
Record hc_module_handle := {
  mh_ref_count : Z;
  mh_library_handle : bytes
}.

(** A [tech_module] on the heap: its counter, [m_handle], [m_instance] and the
    object of the worker. *)
Record tm_object := {
  tm_ref_count : Z;
  tm_handle : option Z;
  tm_instance : Z;
  tm_object_state : tech_module
}.

(** [p_held]: the pointers to instances that sessions, sockets and vectors of
    the rest of the middleware hold. *)
Record process := {
  p_tms : gmap Z tm_object;
  p_handles : gmap Z hc_module_handle;
  p_by_id : gmap Z (option Z);
  p_next_id : Z;
  p_next_addr : Z;
  p_dlerror : option string;
  p_calls : list loader_call;
  p_held : gmultiset Z
}.

Definition p_set_tms x s := {| p_tms := x; p_handles := p_handles s; p_by_id := p_by_id s;
  p_next_id := p_next_id s; p_next_addr := p_next_addr s; p_dlerror := p_dlerror s;
  p_calls := p_calls s; p_held := p_held s |}.
Definition p_set_handles x s := {| p_tms := p_tms s; p_handles := x; p_by_id := p_by_id s;
  p_next_id := p_next_id s; p_next_addr := p_next_addr s; p_dlerror := p_dlerror s;
  p_calls := p_calls s; p_held := p_held s |}.
Definition p_set_by_id x s := {| p_tms := p_tms s; p_handles := p_handles s; p_by_id := x;
  p_next_id := p_next_id s; p_next_addr := p_next_addr s; p_dlerror := p_dlerror s;
  p_calls := p_calls s; p_held := p_held s |}.
Definition p_set_next_id x s := {| p_tms := p_tms s; p_handles := p_handles s; p_by_id := p_by_id s;
  p_next_id := x; p_next_addr := p_next_addr s; p_dlerror := p_dlerror s;
  p_calls := p_calls s; p_held := p_held s |}.
Definition p_set_next_addr x s := {| p_tms := p_tms s; p_handles := p_handles s; p_by_id := p_by_id s;
  p_next_id := p_next_id s; p_next_addr := x; p_dlerror := p_dlerror s;
  p_calls := p_calls s; p_held := p_held s |}.
Definition p_set_dlerror x s := {| p_tms := p_tms s; p_handles := p_handles s; p_by_id := p_by_id s;
  p_next_id := p_next_id s; p_next_addr := p_next_addr s; p_dlerror := x;
  p_calls := p_calls s; p_held := p_held s |}.
Definition p_log c s := {| p_tms := p_tms s; p_handles := p_handles s; p_by_id := p_by_id s;
  p_next_id := p_next_id s; p_next_addr := p_next_addr s; p_dlerror := p_dlerror s;
  p_calls := p_calls s ++ [c]; p_held := p_held s |}.
Definition p_set_held x s := {| p_tms := p_tms s; p_handles := p_handles s; p_by_id := p_by_id s;
  p_next_id := p_next_id s; p_next_addr := p_next_addr s; p_dlerror := p_dlerror s;
  p_calls := p_calls s; p_held := x |}.

Definition new_process : process :=
  {| p_tms := ∅; p_handles := ∅; p_by_id := ∅; p_next_id := 0; p_next_addr := 1;
     p_dlerror := None; p_calls := []; p_held := ∅ |}.

Definition mh_set_count c h := {| mh_ref_count := c; mh_library_handle := mh_library_handle h |}.
Definition tmo_set_count c t := {| tm_ref_count := c; tm_handle := tm_handle t;
  tm_instance := tm_instance t; tm_object_state := tm_object_state t |}.
Definition tmo_set_state x t := {| tm_ref_count := tm_ref_count t; tm_handle := tm_handle t;
  tm_instance := tm_instance t; tm_object_state := x |}.

(** Fresh storage. *)
Definition malloc : M process Z :=
  s ← get; put (p_set_next_addr (p_next_addr s + 1) s) ;; mret (p_next_addr s).

(** ** Reference counts of handles *)

Definition mh_add_ref (mh : option Z) : M process unit :=
  match mh with
  | None => mret tt
  | Some h =>
      s ← get;
      match p_handles s !! h with
      | None => ub "mh_add_ref of a freed handle"
      | Some hd =>
          put (p_set_handles (<[h := mh_set_count (add_and_fetch (mh_ref_count hd) 1) hd]> (p_handles s)) s)
      end
  end.

Definition mh_release (mh : option Z) : M process unit :=
  match mh with
  | None => mret tt
  | Some h =>
      s ← get;
      match p_handles s !! h with
      | None => ub "mh_release of a freed handle"
      | Some hd =>
          let rc := add_and_fetch (mh_ref_count hd) (-1) in
          if bool_decide (rc = 0) then
            modify (p_log (Hc_shutdown (mh_library_handle hd))) ;;
            modify (p_log (Dlclose (mh_library_handle hd))) ;;
            modify (λ s, p_set_handles (delete h (p_handles s)) s)
          else put (p_set_handles (<[h := mh_set_count rc hd]> (p_handles s)) s)
      end
  end.

(** ** Reference counts of instances *)

Definition tm_add_ref (tm : option Z) : M process unit :=
  match tm with
  | None => mret tt
  | Some a =>
      s ← get;
      match p_tms s !! a with
      | None => ub "tm_add_ref of a deleted instance"
      | Some t => put (p_set_tms (<[a := tmo_set_count (add_and_fetch (tm_ref_count t) 1) t]> (p_tms s)) s)
      end
  end.

(** [unload]: the worker gets a [kill_t], deletes the instance of the module
    and ends; a worker that already ended answers nothing. *)
Definition unload (a : Z) : M process unit :=
  s ← get;
  match p_tms s !! a with
  | None => ub "unload of a deleted instance"
  | Some t =>
      if tm_running (tm_object_state t) then
        modify (p_log (Hc_delete_instance (tm_instance t))) ;;
        modify (λ s, p_set_tms (<[a := tmo_set_state (tm_set_running false (tm_object_state t)) t]> (p_tms s)) s)
      else ub "unload waits for a worker that has ended"
  end.

Definition tm_release (tm : option Z) : M process unit :=
  match tm with
  | None => mret tt
  | Some a =>
      s ← get;
      match p_tms s !! a with
      | None => ub "tm_release of a deleted instance"
      | Some t =>
          let rc := add_and_fetch (tm_ref_count t) (-1) in
          put (p_set_tms (<[a := tmo_set_count rc t]> (p_tms s)) s) ;;
          if bool_decide (rc = 0) then
            unload a ;;
            modify (λ s, p_set_tms (delete a (p_tms s)) s) ;;
            mh_release (tm_handle t)
          else mret tt
      end
  end.

(** ** Instances *)

Definition next_iid : M process Z :=
  s ← get;
  let iid := u32 (p_next_id s + 1) in
  put (p_set_next_id iid s) ;;
  mret iid.

(** [s_by_id.insert]: the copy in the table counts, unless the id is taken. *)
Definition add_instance (id a : Z) : M process unit :=
  s ← get;
  if bool_decide (is_Some (p_by_id s !! id)) then mret tt
  else
    put (p_set_by_id (<[id := Some a]> (p_by_id s)) s) ;;
    tm_add_ref (Some a).

(** The constructor, which copies the handle. *)
Definition new_tm (ia : instance_args) (mod_handle : option Z) : M process Z :=
  mh_add_ref mod_handle ;;
  id ← next_iid;
  a ← malloc;
  modify (λ s, p_set_tms (<[a := {| tm_ref_count := 0; tm_handle := mod_handle;
    tm_instance := ia_instance ia;
    tm_object_state := new_tech_module id (u32 (ia_atomic_size ia)) (ia_kvps ia) |}]> (p_tms s)) s) ;;
  mret a.

(** [new_instance]: the local pointer, the copy in the table, the copy the
    worker thread runs with, and the end of the local pointer. *)
Definition new_instance (mod_handle : option Z) (ia : instance_args) : M process unit :=
  a ← new_tm ia mod_handle;
  tm_add_ref (Some a) ;;
  s ← get;
  match p_tms s !! a with
  | None => ub "new_instance"
  | Some t =>
      add_instance (tm_id (tm_object_state t)) a ;;
      tm_add_ref (Some a) ;;
      tm_release (Some a)
  end.

(** The pointers of the table in the order of the ids. *)
Definition table (s : process) : list (option Z) :=
  omap (λ i, p_by_id s !! i) (in_order (dom (p_by_id s))).

Definition hold (p : option Z) : M process unit :=
  tm_add_ref p ;;
  match p with
  | Some a => modify (λ s, p_set_held ({[+ a +]} ⊎ p_held s) s)
  | None => mret tt
  end.

(** [instances] and [instance_by_iid], whose results the caller holds. *)
Definition instances : M process unit := s ← get; for_each (table s) hold.
Definition instance_by_iid (iid : Z) : M process unit :=
  s ← get;
  match p_by_id s !! iid with
  | Some p => hold p
  | None => mret tt
  end.

(** The end of a pointer that the caller of one of them held. *)
Definition drop_held (a : Z) : M process unit :=
  modify (λ s, p_set_held (p_held s ∖ {[+ a +]}) s) ;;
  tm_release (Some a).

(** [unload_all]: copies of all pointers, the table cleared, the copies gone. *)
Definition unload_all : M process unit :=
  s ← get;
  let instances := table s in
  for_each instances tm_add_ref ;;
  modify (p_set_by_id ∅) ;;
  for_each instances tm_release ;;
  for_each instances tm_release.

(** ** Loading *)

(** The chain of [hc_kvp_list_t] in the vector: key, value and the index of the
    next node. *)
Definition key_value_pairs (ini_args : gmap bytes bytes) : list (bytes * bytes * option nat) :=
  let l := omap (λ k, v ← ini_args !! k; Some (k, v)) (sorted_keys ini_args) in
  imap (λ j kv, (kv, if bool_decide (j + 1 < length l)%nat then Some (j + 1)%nat else None)) l.

(** What a module sees that follows [next] from a node. *)
Fixpoint follow (fuel : nat) (v : list (bytes * bytes * option nat)) (i : option nat) : list (bytes * bytes) :=
  match fuel, i with
  | S n, Some i => match v !! i with Some (kv, next) => kv :: follow n v next | None => [] end
  | _, _ => []
  end.

Section loading.
Context (dlopen_file : bytes → option library).
Context (dlopen_error : bytes → string) (dlsym_error : string → string).

Definition dlopen (file : bytes) : M process (option library) :=
  match dlopen_file file with
  | None => modify (p_set_dlerror (Some (dlopen_error file))) ;; mret None
  | Some lib => modify (p_log (Dlopen file)) ;; mret (Some lib)
  end.

Definition dlerror : M process (option string) :=
  s ← get; put (p_set_dlerror None s) ;; mret (p_dlerror s).

Definition dlsym (lib : library) (name : string) : M process unit :=
  if bool_decide (name ∈ lib_symbols lib) then mret tt
  else modify (p_set_dlerror (Some (dlsym_error name))).

Definition check4error (file : bytes) (error_string : option string) (close_on_error : bool) :
    M process unit :=
  match error_string with
  | Some errstr =>
      (if close_on_error then modify (p_log (Dlclose file)) else mret tt) ;;
      throw (runtime_error errstr)
  | None => mret tt
  end.

(** The functions looked up with a check after each one. *)
Definition checked_symbols : list string :=
  ["hc_map"; "hc_sendto"; "hc_leave"; "hc_join"; "hc_group_set"; "hc_neighbor_set";
   "hc_children_set"; "hc_parent_set"; "hc_designated_host"; "hc_shutdown"].

Definition could_not_load (file : bytes) (reason : string) : string :=
  let quote := String "034"%char EmptyString in
  ("Could not load " +:+ quote +:+ string_of_list_ascii file +:+ quote +:+
   " (dlopen returned NULL, dlerror() = " +:+ quote +:+ reason +:+ quote +:+ ")")%string.

Definition load (module_filename : bytes) (ini_args : gmap bytes bytes) (max_msg_size : Z) :
    M process unit :=
  let v := key_value_pairs ini_args in
  handle ← dlopen module_filename;
  match handle with
  | None =>
      e ← dlerror;
      throw (runtime_error (could_not_load module_filename (default "" e)))
  | Some lib =>
      e ← dlerror;
      check4error module_filename e false ;;
      result ← malloc;
      modify (λ s, p_set_handles (<[result := {| mh_ref_count := 1;
        mh_library_handle := module_filename |}]> (p_handles s)) s) ;;
      for_each checked_symbols (λ name,
        dlsym lib name ;; e ← dlerror; check4error module_filename e true) ;;
      dlsym lib "hc_delete_instance" ;;
      dlsym lib "hc_init" ;;
      e ← dlerror;
      check4error module_filename e true ;;
      let args := follow (length v) v (if bool_decide (v = []) then None else Some O) in
      modify (p_log (Hc_init module_filename args max_msg_size)) ;;
      for_each (lib_init lib args max_msg_size) (new_instance (Some result)) ;;
      mh_release (Some result)
  end.
End loading.

(** ** Ownership

    The references to an instance: that of its worker, those of the table and
    those held elsewhere.  [kept d s]: every instance is alive with a running
    worker, and its counter is the number of references plus [d] (the
    references of the function that is running). *)

Definition owners (s : process) (a : Z) : Z :=
  1 + pointers a (p_by_id s) + Z.of_nat (multiplicity a (p_held s)).

Definition users (s : process) (h : Z) : Z := pointers h (tm_handle <$> p_tms s).

Record kept (d : Z → Z) (s : process) : Prop := {
  kept_tms a : match p_tms s !! a with
               | Some t => tm_running (tm_object_state t) = true ∧ tm_ref_count t = owners s a + d a
               | None => owners s a = 1 ∧ d a = 0
               end;
  kept_handles h : match p_handles s !! h with
                   | Some hd => users s h <= mh_ref_count hd <= users s h + 1
                   | None => users s h = 0
                   end;
  kept_fresh a : p_next_addr s <= a → p_tms s !! a = None ∧ p_handles s !! a = None;
  kept_calls i : Hc_delete_instance i ∉ p_calls s;
  kept_dlerror : p_dlerror s = None
}.

(** Everything but the counters of the instances. *)
Definition erase (s : process) : process := p_set_tms (tmo_set_count 0 <$> p_tms s) s.

Lemma erase_users s s' h : erase s' = erase s → users s' h = users s h.
Proof.
  intros He. assert (∀ x, tm_handle <$> (tmo_set_count 0 <$> p_tms x) = tm_handle <$> p_tms x) as Hx.
  { intros x. rewrite -map_fmap_compose. by apply map_fmap_ext. }
  rewrite /users -(Hx s) -(Hx s'). apply (f_equal p_tms) in He. simpl in He. by rewrite He.
Qed.

Lemma erase_fields s s' :
  erase s' = erase s →
  p_by_id s' = p_by_id s ∧ p_held s' = p_held s ∧ p_handles s' = p_handles s ∧
  p_calls s' = p_calls s ∧ p_dlerror s' = p_dlerror s ∧ p_next_addr s' = p_next_addr s ∧
  dom (p_tms s') = dom (p_tms s).
Proof.
  intros He. repeat split.
  - apply (f_equal p_by_id) in He. done.
  - apply (f_equal p_held) in He. done.
  - apply (f_equal p_handles) in He. done.
  - apply (f_equal p_calls) in He. done.
  - apply (f_equal p_dlerror) in He. done.
  - apply (f_equal p_next_addr) in He. done.
  - apply (f_equal (λ s, dom (p_tms s))) in He. by rewrite /= !dom_fmap_L in He.
Qed.

Lemma kept_ext d d' s : (∀ a, d a = d' a) → kept d s → kept d' s.
Proof.
  intros Hd [H1 H2 H3 H4 H5]. split; [|done..]. intros a. specialize (H1 a).
  by rewrite -Hd.
Qed.

Lemma owners_pos s a : 1 <= owners s a.
Proof. rewrite /owners /pointers. lia. Qed.

(** Changing the counter of one live instance. *)
Lemma kept_set_count d d' s a t c :
  kept d s → p_tms s !! a = Some t → c = owners s a + d' a → (∀ b, b ≠ a → d' b = d b) →
  let s' := p_set_tms (<[a := tmo_set_count c t]> (p_tms s)) s in
  kept d' s' ∧ erase s' = erase s.
Proof.
  intros [H1 H2 H3 H4 H5] Ha Hc Hd s'.
  assert (erase s' = erase s) as He.
  { assert (tmo_set_count 0 <$> <[a := tmo_set_count c t]> (p_tms s) = tmo_set_count 0 <$> p_tms s) as E.
    { rewrite fmap_insert. apply map_eq. intros b.
      destruct (decide (b = a)) as [->|]; [|by rewrite lookup_insert_ne].
      by rewrite lookup_insert_eq lookup_fmap Ha. }
    by rewrite /erase /s' /= E. }
  split; [|done]. split.
  - intros b. specialize (H1 b). rewrite /s' /= /owners /= -/(owners s b).
    destruct (decide (b = a)) as [->|Hb].
    + rewrite lookup_insert_eq. rewrite Ha in H1. simpl. by destruct H1.
    + rewrite -> lookup_insert_ne by done. by rewrite -> Hd by done.
  - intros h. rewrite (erase_users s s' h He). apply H2.
  - intros b Hb. destruct (H3 b Hb) as [Ht Hh]. split; [|done]. simpl.
    rewrite lookup_insert_ne //. congruence.
  - apply H4.
  - apply H5.
Qed.

Lemma tm_add_ref_kept d s a :
  kept d s → is_Some (p_tms s !! a) → owners s a + d a < 2 ^ 31 - 1 → 0 <= owners s a + d a →
  ∃ s', tm_add_ref (Some a) s = (Ok tt, s') ∧ kept (λ b, d b + pt (Some a) b) s' ∧ erase s' = erase s.
Proof.
  intros Hk [t Ha] Hb Hn. rewrite /tm_add_ref /mbind /M_bind /= Ha. eexists. split; [done|].
  pose proof (kept_tms _ _ Hk a) as Hc. rewrite Ha in Hc. destruct Hc as [_ Hc].
  apply (kept_set_count d); [done|done| |].
  - rewrite /add_and_fetch Hc /pt bool_decide_true //. rewrite i32_small; lia.
  - intros b Hne. rewrite /pt bool_decide_false; [lia|congruence].
Qed.

Lemma tm_release_kept d s a :
  kept d s → is_Some (p_tms s !! a) → 2 <= owners s a + d a < 2 ^ 31 - 1 →
  ∃ s', tm_release (Some a) s = (Ok tt, s') ∧ kept (λ b, d b - pt (Some a) b) s' ∧ erase s' = erase s.
Proof.
  intros Hk [t Ha] Hb.
  pose proof (kept_tms _ _ Hk a) as Hc. rewrite Ha in Hc. destruct Hc as [_ Hc].
  assert (add_and_fetch (tm_ref_count t) (-1) = owners s a + d a - 1) as Hrc.
  { rewrite /add_and_fetch Hc. rewrite i32_small; lia. }
  rewrite /tm_release /mbind /M_bind /= Ha. rewrite bool_decide_false; [|lia]. eexists. split; [done|].
  rewrite Hrc. apply (kept_set_count d); [done|done| |].
  - rewrite /pt bool_decide_true //. lia.
  - intros b Hne. rewrite /pt bool_decide_false; [lia|congruence].
Qed.

(** ** Lists of pointers *)

Definition occ (a : Z) (l : list (option Z)) : Z := zsum (λ p, pt p a) l.

Lemma occ_nonneg a l : 0 <= occ a l.
Proof. apply zsum_nonneg, Forall_forall. intros p _. apply pt_range. Qed.

Lemma occ_bound a l : occ a l <= zlen l.
Proof.
  rewrite /occ -(Z.mul_1_r (zlen l)). apply zsum_bound, Forall_forall. intros p _. apply pt_range.
Qed.

Lemma zsum_perm {A} (f : A → Z) l k : l ≡ₚ k → zsum f l = zsum f k.
Proof. induction 1; simpl; lia. Qed.

(** The table read in order holds every pointer once. *)
Lemma occ_values a m l :
  NoDup l → (∀ i, i ∈ l ↔ i ∈ dom m) → occ a (omap (λ i, m !! i) l) = pointers a m.
Proof.
  revert l. induction m as [|i x m Hi IH] using map_ind; intros l Hnd Hl.
  - destruct l as [|i l]; [done|]. exfalso. assert (i ∈ dom (∅ : gmap Z (option Z))) as Hin.
    { apply Hl. by left. }
    by rewrite dom_empty_L in Hin.
  - assert (i ∈ l) as Hil by (apply Hl; rewrite dom_insert_L; set_solver).
    apply elem_of_Permutation in Hil as [k Hk]. rewrite Hk in Hnd. inversion_clear Hnd as [|? ? Hik Hnd'].
    rewrite pointers_insert // -(IH k Hnd').
    + assert (omap (λ j, <[i := x]> m !! j) k = omap (λ j, m !! j) k) as Ek.
      { apply list_omap_ext, Forall_Forall2_diag, Forall_forall. intros j Hj.
        apply lookup_insert_ne. by intros ->. }
      assert (occ a (omap (λ j, <[i := x]> m !! j) l) = occ a (omap (λ j, <[i := x]> m !! j) (i :: k)))
        as -> by (apply zsum_perm; by rewrite Hk).
      csimpl. rewrite lookup_insert_eq Ek. rewrite /occ /=. lia.
    + intros j. split.
      * intros Hj. assert (j ∈ dom (<[i := x]> m)) as Hd by (apply Hl; rewrite Hk; by right).
        rewrite dom_insert_L in Hd. set_solver.
      * intros Hj. assert (j ∈ i :: k) as Hc; [rewrite -Hk; apply Hl; rewrite dom_insert_L; set_solver|].
        apply elem_of_cons in Hc as [->|Hc]; [|done]. apply elem_of_dom in Hj. rewrite Hi in Hj. by destruct Hj.
Qed.

Lemma table_occ s a : occ a (table s) = pointers a (p_by_id s).
Proof. apply occ_values; apply in_order_spec. Qed.

Lemma owners_erase s s' a : erase s' = erase s → owners s' a = owners s a.
Proof. intros He. destruct (erase_fields _ _ He) as (Hb & Hh & _). by rewrite /owners Hb Hh. Qed.

Lemma alive_erase s s' a : erase s' = erase s → is_Some (p_tms s' !! a) ↔ is_Some (p_tms s !! a).
Proof.
  intros He. destruct (erase_fields _ _ He) as (_ & _ & _ & _ & _ & _ & Hd).
  by rewrite -!elem_of_dom Hd.
Qed.

Lemma add_refs_kept l d s :
  kept d s → (∀ a, Some a ∈ l → is_Some (p_tms s !! a)) →
  (∀ a, 0 <= d a) → (∀ a, owners s a + d a + zlen l < 2 ^ 31) →
  ∃ s', for_each l tm_add_ref s = (Ok tt, s') ∧ kept (λ b, d b + occ b l) s' ∧ erase s' = erase s.
Proof.
  revert d s. induction l as [|p l IH]; intros d s Hk Hl Hd Hb.
  - exists s. split; [done|]. split; [|done]. eapply kept_ext; [|done]. intros a. rewrite /occ /=. lia.
  - assert (∃ s1, tm_add_ref p s = (Ok tt, s1) ∧ kept (λ b, d b + pt p b) s1 ∧ erase s1 = erase s)
      as (s1 & E1 & Hk1 & He1).
    { destruct p as [a|].
      - apply tm_add_ref_kept; [done|apply Hl; by left| |].
        + specialize (Hb a). rewrite zlen_cons in Hb. pose proof (zlen_nonneg l). lia.
        + specialize (Hd a). pose proof (owners_pos s a). lia.
      - exists s. split; [done|]. split; [|done]. eapply kept_ext; [|done]. intros b. rewrite /pt /=. lia. }
    destruct (IH _ s1 Hk1) as (s' & E & Hk' & He').
    + intros a Ha. rewrite (alive_erase s s1) //. apply Hl. by right.
    + intros a. specialize (Hd a). pose proof (pt_range p a). lia.
    + intros a. specialize (Hb a). rewrite zlen_cons in Hb. rewrite (owners_erase s s1) //.
      pose proof (pt_range p a). lia.
    + exists s'. split; [by simpl; step_ok E1|]. split; [|congruence].
      eapply kept_ext; [|done]. intros a. rewrite /occ /=. lia.
Qed.

Lemma release_refs_kept l d s :
  kept (λ b, d b + occ b l) s → (∀ a, Some a ∈ l → is_Some (p_tms s !! a)) →
  (∀ a, 0 <= d a) → (∀ a, owners s a + d a + zlen l < 2 ^ 31 - 1) →
  ∃ s', for_each l tm_release s = (Ok tt, s') ∧ kept d s' ∧ erase s' = erase s.
Proof.
  revert d s. induction l as [|p l IH]; intros d s Hk Hl Hd Hb.
  - exists s. split; [done|]. split; [|done]. eapply kept_ext; [|done]. intros a. rewrite /occ /=. lia.
  - assert (∃ s1, tm_release p s = (Ok tt, s1) ∧ kept (λ b, d b + occ b l) s1 ∧ erase s1 = erase s)
      as (s1 & E1 & Hk1 & He1).
    { destruct p as [a|].
      - destruct (tm_release_kept _ s a Hk) as (s1 & E1 & Hk1 & He1); [apply Hl; by left| |].
        + specialize (Hb a). rewrite zlen_cons in Hb. pose proof (occ_bound a l).
          pose proof (occ_nonneg a l). specialize (Hd a). pose proof (owners_pos s a).
          rewrite /occ /= -/(occ a l) /pt bool_decide_true //. lia.
        + exists s1. split; [done|]. split; [|done]. eapply kept_ext; [|exact Hk1].
          intros b. rewrite /occ /=. lia.
      - exists s. split; [done|]. split; [|done]. eapply kept_ext; [|done]. intros b. rewrite /occ /= {1}/pt /=. lia. }
    destruct (IH _ s1 Hk1) as (s' & E & Hk' & He').
    + intros a Ha. rewrite (alive_erase s s1) //. apply Hl. by right.
    + done.
    + intros a. specialize (Hb a). rewrite zlen_cons in Hb. rewrite (owners_erase s s1) //. lia.
    + exists s'. split; [by simpl; step_ok E1|]. split; [done|congruence].
Qed.

(** ** Operations on the table *)

(** Space for [n] more references. *)
Definition room (n : Z) (s : process) : Prop :=
  Z.of_nat (size (p_by_id s)) + Z.of_nat (size (p_held s)) + Z.of_nat (size (p_tms s)) + n < 2 ^ 31 - 4.

Abbreviation settled := (kept (λ _, 0)).

Lemma owners_bound s a :
  owners s a <= 1 + Z.of_nat (size (p_by_id s)) + Z.of_nat (size (p_held s)).
Proof.
  rewrite /owners /pointers.
  pose proof (map_size_filter (λ kv : Z * option Z, kv.2 = Some a) (p_by_id s)).
  pose proof (multiplicity_size a (p_held s)). lia.
Qed.

Lemma zlen_table s : zlen (table s) <= Z.of_nat (size (p_by_id s)).
Proof.
  rewrite /zlen /table. assert (∀ l, (length (omap (λ i, p_by_id s !! i) l) <= length l)%nat) as Hl.
  { induction l as [|i l IH]; csimpl; [lia|]. destruct (p_by_id s !! i); simpl; lia. }
  specialize (Hl (in_order (dom (p_by_id s)))).
  assert (length (in_order (dom (p_by_id s))) = size (p_by_id s)) as E; [|lia].
  rewrite /in_order merge_sort_Permutation -size_dom. done.
Qed.

Lemma occ_elem a l : Some a ∈ l → 0 < occ a l.
Proof.
  induction l as [|q l IH]; intros Ha; apply elem_of_cons in Ha || by apply not_elem_of_nil in Ha.
  rewrite /occ /= -/(occ a l). destruct Ha as [<-|Ha].
  - pose proof (occ_nonneg a l). rewrite /pt bool_decide_true //. lia.
  - pose proof (pt_range q a). specialize (IH Ha). lia.
Qed.

Lemma owned_alive d s a : kept d s → 1 < owners s a → is_Some (p_tms s !! a).
Proof. intros Hk Ho. pose proof (kept_tms _ _ Hk a). destruct (p_tms s !! a); [eauto|lia]. Qed.

Lemma table_alive d s a : kept d s → Some a ∈ table s → is_Some (p_tms s !! a).
Proof.
  intros Hk Ha. apply (owned_alive d); [done|]. apply occ_elem in Ha. rewrite table_occ in Ha.
  rewrite /owners. lia.
Qed.

Lemma unload_all_kept s :
  settled s → room (Z.of_nat (size (p_by_id s)) + Z.of_nat (size (p_by_id s))) s →
  ∃ s', unload_all s = (Ok tt, s') ∧ settled s' ∧ p_by_id s' = ∅ ∧ p_held s' = p_held s ∧
    p_calls s' = p_calls s ∧ dom (p_tms s') = dom (p_tms s).
Proof.
  intros Hk Hr. rewrite /room in Hr. pose proof (zlen_table s) as Hz. pose proof (zlen_nonneg (table s)).
  assert (∀ a, owners s a + zlen (table s) + zlen (table s) < 2 ^ 31 - 1) as Hb.
  { intros a. pose proof (owners_bound s a). lia. }
  destruct (add_refs_kept (table s) (λ _, 0) s Hk) as (s1 & E1 & Hk1 & He1).
  { intros a. by apply (table_alive (λ _, 0)). } { done. } { intros a. specialize (Hb a). lia. }
  destruct (erase_fields _ _ He1) as (Hby & Hheld & _ & Hcalls & _ & _ & Hdom).
  set (s2 := p_set_by_id ∅ s1).
  assert (∀ a, owners s2 a = owners s a - occ a (table s)) as Ho2.
  { intros a. rewrite table_occ /owners /= Hheld. assert (pointers a ∅ = 0) as -> by done. lia. }
  assert (kept (λ b, occ b (table s) + occ b (table s)) s2) as Hk2.
  { destruct Hk1 as [H1 H2 H3 H4 H5]. split; [|done..]. intros a. specialize (H1 a). rewrite Ho2.
    rewrite (owners_erase s) // in H1. pose proof (occ_nonneg a (table s)).
    pose proof (owners_pos s a). cbv beta in H1 |- *. simpl.
    destruct (p_tms s1 !! a); [destruct H1; split; [done|lia]|lia]. }
  assert (∀ a, Some a ∈ table s → is_Some (p_tms s2 !! a)) as Hal.
  { intros a Ha. rewrite /= (alive_erase s s1) //. by apply (table_alive (λ _, 0)). }
  destruct (release_refs_kept (table s) (λ b, occ b (table s)) s2 Hk2 Hal) as (s3 & E3 & Hk3 & He3).
  { intros a. apply occ_nonneg. }
  { intros a. rewrite Ho2. specialize (Hb a). pose proof (occ_bound a (table s)). lia. }
  destruct (release_refs_kept (table s) (λ _, 0) s3) as (s' & E4 & Hk4 & He4).
  { by eapply kept_ext; [|exact Hk3]. } { intros a Ha. rewrite (alive_erase s2 s3) //. by apply Hal. } { done. }
  { intros a. rewrite (owners_erase s2 s3) // Ho2. pose proof (occ_nonneg a (table s)). specialize (Hb a). lia. }
  exists s'. split.
  { rewrite /unload_all {1}/mbind /M_bind /=. step_ok E1.
    rewrite /modify {1}/mbind /M_bind -/s2. by step_ok E3. }
  split; [done|].
  destruct (erase_fields _ _ He3) as (Hby3 & Hheld3 & _ & Hcalls3 & _ & _ & Hdom3).
  destruct (erase_fields _ _ He4) as (Hby4 & Hheld4 & _ & Hcalls4 & _ & _ & Hdom4).
  rewrite Hby4 Hby3 Hheld4 Hheld3 Hcalls4 Hcalls3 Hdom4 Hdom3. done.
Qed.

(** A different set of held pointers moves references between [owners] and the
    running function. *)
Lemma kept_set_held d d' s held :
  kept d s →
  (∀ a, Z.of_nat (multiplicity a held) + d' a = Z.of_nat (multiplicity a (p_held s)) + d a) →
  (∀ a, p_tms s !! a = None → multiplicity a held = 0%nat) →
  kept d' (p_set_held held s).
Proof.
  intros [H1 H2 H3 H4 H5] Hd Ha. split; [|done..]. intros a. specialize (H1 a). specialize (Hd a).
  specialize (Ha a). rewrite /owners /= in H1 |- *. destruct (p_tms s !! a); [destruct H1; split; [done|lia]|].
  specialize (Ha eq_refl). rewrite /pointers in H1 |- *. lia.
Qed.

Lemma hold_kept p s :
  settled s → (∀ a, p = Some a → is_Some (p_tms s !! a)) → room 0 s →
  ∃ s', hold p s = (Ok tt, s') ∧ settled s' ∧ p_by_id s' = p_by_id s ∧
    dom (p_tms s') = dom (p_tms s) ∧ (size (p_held s') <= S (size (p_held s)))%nat.
Proof.
  intros Hk Ha Hr. destruct p as [a|]; [|exists s; do 4 (split; [done|]); lia].
  destruct (tm_add_ref_kept _ s a Hk) as (s1 & E1 & Hk1 & He1).
  { by apply Ha. } { pose proof (owners_bound s a). rewrite /room in Hr. lia. } { pose proof (owners_pos s a). lia. }
  destruct (erase_fields _ _ He1) as (Hby & Hheld & _ & _ & _ & _ & Hdom).
  exists (p_set_held ({[+ a +]} ⊎ p_held s1) s1).
  split; [by rewrite /hold; step_ok E1|].
  split.
  - eapply kept_set_held; [exact Hk1| |].
    + intros b. rewrite multiplicity_disj_union multiplicity_singleton /pt.
      case_decide; case_bool_decide; simplify_eq; lia.
    + intros b Hb. rewrite multiplicity_disj_union multiplicity_singleton.
      pose proof (kept_tms _ _ Hk1 b) as Ho. rewrite Hb /owners /pointers in Ho.
      case_decide as Hba; [|lia]. subst.
      assert (is_Some (p_tms s1 !! a)) as [? ?] by (rewrite (alive_erase s s1) //; by apply Ha). congruence.
  - simpl. split; [done|]. split; [done|].
    rewrite gmultiset_size_disj_union gmultiset_size_singleton Hheld. lia.
Qed.

Lemma holds_kept l s :
  settled s → (∀ a, Some a ∈ l → is_Some (p_tms s !! a)) → room (zlen l) s →
  ∃ s', for_each l hold s = (Ok tt, s') ∧ settled s' ∧ p_by_id s' = p_by_id s ∧
    dom (p_tms s') = dom (p_tms s).
Proof.
  revert s. induction l as [|p l IH]; intros s Hk Ha Hr; [by exists s|].
  rewrite /room zlen_cons in Hr. pose proof (zlen_nonneg l).
  destruct (hold_kept p s Hk) as (s1 & E1 & Hk1 & Hby & Hdom & Hsz).
  { intros a ->. apply Ha. by left. } { rewrite /room. lia. }
  destruct (IH s1 Hk1) as (s' & E & Hk' & Hby' & Hdom').
  - intros a Hin. rewrite -elem_of_dom Hdom elem_of_dom. apply Ha. by right.
  - rewrite /room Hby. rewrite -(size_dom (p_tms s1)) Hdom size_dom. lia.
  - exists s'. split; [by simpl; step_ok E1|]. split; [done|]. by rewrite Hby' Hdom' Hby Hdom.
Qed.

Lemma drop_held_kept a s :
  settled s → a ∈ p_held s → room 0 s →
  ∃ s', drop_held a s = (Ok tt, s') ∧ settled s' ∧ dom (p_tms s') = dom (p_tms s).
Proof.
  intros Hk Ha Hr. assert (0 < multiplicity a (p_held s))%nat as Hm by (by apply elem_of_multiplicity).
  assert (is_Some (p_tms s !! a)) as Hal.
  { apply (owned_alive (λ _, 0)); [done|]. rewrite /owners /pointers. lia. }
  set (s1 := p_set_held (p_held s ∖ {[+ a +]}) s).
  assert (kept (pt (Some a)) s1) as Hk1.
  { eapply kept_set_held; [exact Hk| |].
    - intros b. rewrite multiplicity_difference multiplicity_singleton /pt.
      case_decide; case_bool_decide; simplify_eq; lia.
    - intros b Hb. pose proof (kept_tms _ _ Hk b) as Ho. rewrite Hb /owners /pointers in Ho.
      rewrite multiplicity_difference. lia. }
  destruct (tm_release_kept _ s1 a Hk1 Hal) as (s' & E & Hk' & He).
  { rewrite /pt bool_decide_true //. pose proof (owners_pos s1 a). pose proof (owners_bound s1 a).
    assert (size (p_held s1) <= size (p_held s))%nat.
    { apply gmultiset_subseteq_size. intros b. rewrite multiplicity_difference. lia. }
    rewrite /room in Hr. simpl in *. lia. }
  exists s'. split; [done|]. split; [by eapply kept_ext; [|exact Hk']; intros b; simpl; lia|].
  by destruct (erase_fields _ _ He) as (_ & _ & _ & _ & _ & _ & Hdom).
Qed.

(** ** New instances

    While [load] runs it holds a reference to the handle. *)
Definition loading (h : Z) (s : process) : Prop :=
  settled s ∧ ∃ hd, p_handles s !! h = Some hd ∧ mh_ref_count hd = users s h + 1.

Lemma module_users_bound s h : 0 <= users s h <= Z.of_nat (size (p_tms s)).
Proof.
  rewrite /users /pointers.
  pose proof (map_size_filter (λ kv : Z * option Z, kv.2 = Some h) (tm_handle <$> p_tms s)) as H.
  rewrite map_size_fmap in H. lia.
Qed.

Lemma new_tm_kept ia h s :
  loading h s → room 0 s →
  ∃ s', new_tm ia (Some h) s = (Ok (p_next_addr s), s') ∧
    kept (λ b, - pt (Some (p_next_addr s)) b) s' ∧ p_tms s !! p_next_addr s = None ∧
    (∃ t, p_tms s' = <[p_next_addr s := t]> (p_tms s)) ∧
    p_by_id s' = p_by_id s ∧ p_held s' = p_held s ∧
    (∃ hd, p_handles s' !! h = Some hd ∧ mh_ref_count hd = users s' h + 1).
Proof.
  intros ([H1 H2 H3 H4 H5] & hd & Hh & Hc) Hr. set (a := p_next_addr s).
  destruct (H3 a ltac:(lia)) as [Hta Hha].
  set (id := u32 (p_next_id s + 1)).
  set (t := {| tm_ref_count := 0; tm_handle := Some h; tm_instance := ia_instance ia;
    tm_object_state := new_tech_module id (u32 (ia_atomic_size ia)) (ia_kvps ia) |}).
  set (s' := p_set_tms (<[a := t]> (p_tms s)) (p_set_next_addr (a + 1) (p_set_next_id id
    (p_set_handles (<[h := mh_set_count (users s h + 2) hd]> (p_handles s)) s)))).
  pose proof (module_users_bound s h) as Hub. rewrite /room in Hr.
  assert (∀ h', users s' h' = users s h' + pt (Some h) h') as Hu.
  { intros h'. rewrite /users /= fmap_insert pointers_insert //. by rewrite lookup_fmap Hta. }
  exists s'. split.
  { rewrite /new_tm. assert (mh_add_ref (Some h) s = (Ok tt,
      p_set_handles (<[h := mh_set_count (users s h + 2) hd]> (p_handles s)) s)) as E.
    { rewrite /mh_add_ref /mbind /M_bind /= Hh /add_and_fetch Hc. rewrite -> i32_small by lia.
      by replace (users s h + 1 + 1) with (users s h + 2) by lia. }
    by step_ok E. }
  assert (p_handles s' !! h = Some (mh_set_count (users s h + 2) hd)) as Hh' by apply lookup_insert_eq.
  split; [|split; [done|]; split; [by exists t|]; split; [done|]; split; [done|]].
  - split; [| | |done|done].
    + intros b. specialize (H1 b). assert (owners s' b = owners s b) as -> by done. simpl.
      destruct (decide (b = a)) as [->|Hb].
      * rewrite lookup_insert_eq /=. split; [done|]. rewrite Hta in H1. rewrite /pt bool_decide_true //. lia.
      * rewrite -> lookup_insert_ne by done. rewrite /pt. rewrite -> bool_decide_false by congruence. done.
    + intros h'. rewrite Hu. specialize (H2 h'). destruct (decide (h' = h)) as [->|Hne].
      * rewrite Hh' /= /pt bool_decide_true //. lia.
      * assert (p_handles s' !! h' = p_handles s !! h') as -> by (by apply lookup_insert_ne).
        rewrite /pt. rewrite -> bool_decide_false by congruence. by rewrite Z.add_0_r.
    + intros b Hb. simpl in Hb. destruct (H3 b ltac:(lia)) as [Ht Hhb]. split; simpl.
      * rewrite lookup_insert_ne //. lia.
      * rewrite lookup_insert_ne //. congruence.
  - eexists. split; [exact Hh'|]. rewrite Hu /pt bool_decide_true //=. lia.
Qed.

Lemma loading_erase h s s' :
  erase s' = erase s → settled s' →
  (∃ hd, p_handles s !! h = Some hd ∧ mh_ref_count hd = users s h + 1) → loading h s'.
Proof.
  intros He Hk (hd & Hh & Hc). destruct (erase_fields _ _ He) as (_ & _ & Hhs & _).
  split; [done|]. exists hd. by rewrite Hhs (erase_users s s').
Qed.

Lemma add_instance_kept id a s :
  settled s → is_Some (p_tms s !! a) → room 0 s →
  ∃ s', add_instance id a s = (Ok tt, s') ∧ settled s' ∧ p_handles s' = p_handles s ∧
    (∀ h, users s' h = users s h) ∧ dom (p_tms s') = dom (p_tms s) ∧ p_held s' = p_held s ∧
    (size (p_by_id s') <= S (size (p_by_id s)))%nat.
Proof.
  intros Hk Ha Hr. rewrite /add_instance {1}/mbind /M_bind /=.
  case_bool_decide as Hid; [exists s; do 6 (split; [done|]); lia|].
  apply eq_None_not_Some in Hid. set (s1 := p_set_by_id (<[id := Some a]> (p_by_id s)) s).
  assert (∀ b, owners s1 b = owners s b + pt (Some a) b) as Ho.
  { intros b. rewrite /owners /= pointers_insert //. lia. }
  assert (kept (λ b, - pt (Some a) b) s1) as Hk1.
  { destruct Hk as [H1 H2 H3 H4 H5]. split; [|done..]. intros b. specialize (H1 b). rewrite Ho.
    destruct Ha as [t Ht]. simpl. destruct (p_tms s !! b) eqn:Hb; [destruct H1; split; [done|lia]|].
    rewrite /pt. rewrite -> bool_decide_false by congruence. lia. }
  destruct (tm_add_ref_kept _ s1 a Hk1 Ha) as (s' & E & Hk' & He').
  { rewrite Ho. pose proof (owners_bound s a). rewrite /room in Hr. lia. }
  { rewrite Ho. pose proof (owners_pos s a). lia. }
  destruct (erase_fields _ _ He') as (Hby & Hheld & Hhs & _ & _ & _ & Hdom).
  exists s'. split; [done|]. split; [by eapply kept_ext; [|exact Hk']; intros b; simpl; lia|].
  split; [done|]. split; [intros h; by rewrite (erase_users s1 s')|]. split; [done|]. split; [done|].
  rewrite Hby /=. rewrite -> map_size_insert_None by done. lia.
Qed.

Lemma new_instance_kept h ia s :
  loading h s → room 4 s →
  ∃ s', new_instance (Some h) ia s = (Ok tt, s') ∧ loading h s' ∧ dom (p_tms s) ⊆ dom (p_tms s') ∧
    p_held s' = p_held s ∧ (size (p_tms s') <= S (size (p_tms s)))%nat ∧
    (size (p_by_id s') <= S (size (p_by_id s)))%nat.
Proof.
  intros Hl Hr. rewrite /room in Hr. set (a := p_next_addr s).
  destruct (new_tm_kept ia h s Hl) as (s1 & E1 & Hk1 & Hfresh & [t Ht] & Hby1 & Hheld1 & Hh1); [rewrite /room; lia|].
  fold a in E1, Hk1, Hfresh, Ht.
  assert (size (p_tms s1) = S (size (p_tms s))) as Hsz1 by (rewrite Ht; by apply map_size_insert_None).
  assert (is_Some (p_tms s1 !! a)) as Ha1 by (rewrite Ht lookup_insert_eq; eauto).
  pose proof (owners_bound s1 a) as Hob1. rewrite Hby1 Hheld1 in Hob1. pose proof (owners_pos s1 a).
  destruct (tm_add_ref_kept _ s1 a Hk1 Ha1) as (s2 & E2 & Hk2 & He2).
  { rewrite /pt bool_decide_true //. lia. } { rewrite /pt bool_decide_true //. lia. }
  assert (settled s2) as Hk2' by (eapply kept_ext; [|exact Hk2]; intros b; simpl; lia).
  assert (is_Some (p_tms s2 !! a)) as [t2 Ht2] by (by rewrite (alive_erase s1 s2)).
  destruct (loading_erase h s1 s2 He2 Hk2' Hh1) as (_ & hd2 & Hh2 & Hc2).
  destruct (erase_fields _ _ He2) as (Hby2 & Hheld2 & _ & _ & _ & _ & Hdom2).
  destruct (add_instance_kept (tm_id (tm_object_state t2)) a s2 Hk2') as
    (s3 & E3 & Hk3 & Hhs3 & Hu3 & Hdom3 & Hheld3 & Hsz3); [eauto| |].
  { rewrite /room Hby2 Hheld2 Hby1 Hheld1 -(size_dom (p_tms s2)) Hdom2 size_dom. lia. }
  assert (is_Some (p_tms s3 !! a)) as Ha3 by (rewrite -elem_of_dom Hdom3 elem_of_dom; eauto).
  assert (owners s3 a + 2 < 2 ^ 31 - 1) as Hb3.
  { pose proof (owners_bound s3 a) as Hob. rewrite Hheld3 Hheld2 Hheld1 in Hob. rewrite Hby2 Hby1 in Hsz3. lia. }
  pose proof (owners_pos s3 a).
  destruct (tm_add_ref_kept _ s3 a Hk3 Ha3) as (s4 & E4 & Hk4 & He4); [lia|lia|].
  destruct (tm_release_kept _ s4 a Hk4) as (s5 & E5 & Hk5 & He5).
  { by rewrite (alive_erase s3 s4). }
  { rewrite (owners_erase s3 s4) // /pt bool_decide_true //. lia. }
  assert (erase s5 = erase s3) as He by congruence.
  destruct (erase_fields _ _ He) as (Hby5 & Hheld5 & _ & _ & _ & _ & Hdom5).
  exists s5. split.
  { rewrite /new_instance. step_ok E1. step_ok E2. rewrite {1}/mbind /M_bind /= Ht2.
    step_ok E3. by step_ok E4. }
  split.
  { apply (loading_erase h s3 s5 He); [by eapply kept_ext; [|exact Hk5]; intros b; simpl; lia|].
    exists hd2. by rewrite Hhs3 Hu3. }
  assert (dom (p_tms s5) = dom (p_tms s1)) as Hd by congruence.
  split; [rewrite Hd Ht dom_insert; set_solver|]. split; [congruence|].
  split; [rewrite -(size_dom (p_tms s5)) Hd size_dom; lia|]. rewrite Hby5. rewrite Hby2 Hby1 in Hsz3. lia.
Qed.

Lemma new_instances_kept h l s :
  loading h s → room (4 * zlen l) s →
  ∃ s', for_each l (new_instance (Some h)) s = (Ok tt, s') ∧ loading h s' ∧
    dom (p_tms s) ⊆ dom (p_tms s') ∧ Z.of_nat (size (p_tms s')) <= Z.of_nat (size (p_tms s)) + zlen l.
Proof.
  revert s. induction l as [|ia l IH]; intros s Hl Hr.
  - exists s. do 3 (split; [done|]). rewrite zlen_nil. lia.
  - rewrite /room zlen_cons in Hr. pose proof (zlen_nonneg l).
    destruct (new_instance_kept h ia s Hl) as (s1 & E1 & Hl1 & Hd1 & Hh1 & Ht1 & Hb1); [rewrite /room; lia|].
    destruct (IH s1 Hl1) as (s' & E & Hl' & Hd' & Hs'); [rewrite /room Hh1; lia|].
    exists s'. split; [by simpl; step_ok E1|]. split; [done|]. split; [set_solver|]. rewrite zlen_cons. lia.
Qed.

Lemma mh_release_kept h s :
  loading h s → Z.of_nat (size (p_tms s)) < 2 ^ 31 - 4 →
  ∃ s', mh_release (Some h) s = (Ok tt, s') ∧ settled s' ∧ p_tms s' = p_tms s ∧
    p_by_id s' = p_by_id s ∧ p_held s' = p_held s.
Proof.
  intros ([H1 H2 H3 H4 H5] & hd & Hh & Hc) Hr. pose proof (module_users_bound s h).
  rewrite /mh_release {1}/mbind /M_bind /= Hh /add_and_fetch Hc. rewrite -> i32_small by lia.
  case_bool_decide as Hz.
  - eexists. split; [done|]. split; [|done]. split; simpl; [apply H1| | |set_solver|done].
    + intros h'. destruct (decide (h' = h)) as [->|Hne].
      * rewrite lookup_delete_eq. rewrite /users /= -/(users s h). lia.
      * rewrite -> lookup_delete_ne by done. apply H2.
    + intros b Hb. destruct (H3 b Hb) as [Ht Hhb]. split; [done|].
      by rewrite lookup_delete_None; right.
  - eexists. split; [done|]. split; [|done]. split; simpl; [apply H1| | |done|done].
    + intros h'. destruct (decide (h' = h)) as [->|Hne].
      * rewrite lookup_insert_eq /=. rewrite /users /= -/(users s h). lia.
      * rewrite -> lookup_insert_ne by done. apply H2.
    + intros b Hb. destruct (H3 b Hb) as [Ht Hhb]. split; [done|]. rewrite lookup_insert_ne //. congruence.
Qed.

(** ** Loading *)

Lemma follow_all kvs n j v :
  v = imap (λ j kv, (kv, if bool_decide (j + 1 < n)%nat then Some (j + 1)%nat else None)) kvs →
  n = length kvs → (j < n)%nat →
  ∀ fuel, (n - j <= fuel)%nat → follow fuel v (Some j) = drop j kvs.
Proof.
  intros -> Hn Hj fuel. revert j Hj. induction fuel as [|fuel IH]; intros j Hj Hf; [lia|].
  destruct (lookup_lt_is_Some_2 kvs j) as [kv Hkv]; [lia|].
  simpl. rewrite list_lookup_imap Hkv /=. rewrite (drop_S _ kv) //. f_equal.
  case_bool_decide as Hlt.
  - rewrite -> IH by lia. f_equal. lia.
  - rewrite -> drop_ge by lia. by destruct fuel.
Qed.

(** The pairs of the section in the order of their keys. *)
Definition ini_pairs (ini_args : gmap bytes bytes) : list (bytes * bytes) :=
  omap (λ k, v ← ini_args !! k; Some (k, v)) (sorted_keys ini_args).

(** A module that follows the chain sees exactly the pairs of the section. *)
Lemma follow_key_value_pairs ini_args :
  let v := key_value_pairs ini_args in
  follow (length v) v (if bool_decide (v = []) then None else Some O) = ini_pairs ini_args.
Proof.
  rewrite /key_value_pairs -/(ini_pairs ini_args). set (l := ini_pairs ini_args). cbv zeta.
  rewrite length_imap. destruct l as [|kv l'] eqn:El; [done|].
  rewrite -El bool_decide_false; [|by rewrite El].
  rewrite -> (follow_all l (length l) 0) by (done || (rewrite El; simpl; lia)). done.
Qed.

Section load_theorems.
Context (dlopen_file : bytes → option library).
Context (dlopen_error : bytes → string) (dlsym_error : string → string).

Abbreviation load := (load dlopen_file dlopen_error dlsym_error).
Abbreviation dlsym := (dlsym dlsym_error).

Lemma p_set_dlerror_None s : p_dlerror s = None → p_set_dlerror None s = s.
Proof. destruct s. simpl. by intros ->. Qed.

(** One checked lookup. *)
Lemma lookup_symbol lib f name s :
  p_dlerror s = None →
  (dlsym lib name ;; e ← dlerror; check4error f e true) s =
  if bool_decide (name ∈ lib_symbols lib) then (Ok tt, s)
  else (Throw (runtime_error (dlsym_error name)), p_log (Dlclose f) s).
Proof.
  intros He. rewrite /dlsym. case_bool_decide.
  - by rewrite /dlerror /mbind /M_bind /= He p_set_dlerror_None.
  - rewrite /dlerror /modify /mbind /M_bind /=.
    by rewrite -[in X in _ = (_, p_log _ X)](p_set_dlerror_None s He).
Qed.

Lemma lookup_symbols lib f l s :
  p_dlerror s = None →
  for_each l (λ name, dlsym lib name ;; e ← dlerror; check4error f e true) s =
  match list_find (λ name, name ∉ lib_symbols lib) l with
  | None => (Ok tt, s)
  | Some (_, name) => (Throw (runtime_error (dlsym_error name)), p_log (Dlclose f) s)
  end.
Proof.
  intros He. induction l as [|name l IH]; [done|]. simpl.
  rewrite {1}/mbind /M_bind (lookup_symbol lib f name s He).
  case_bool_decide as Hin; case_decide as Hn; [done| |done|done].
  rewrite IH. by destruct (list_find _ l) as [[]|].
Qed.

(** Every function a library must have. *)
Definition required_symbols : list string := checked_symbols ++ ["hc_delete_instance"; "hc_init"].

(** The state after [dlopen] and [malloc]: the handle counts one reference. *)
Definition opened (f : bytes) (s : process) : process :=
  p_set_handles (<[p_next_addr s := {| mh_ref_count := 1; mh_library_handle := f |}]> (p_handles s))
    (p_set_next_addr (p_next_addr s + 1) (p_log (Dlopen f) s)).

Lemma load_no_library f args n s :
  p_dlerror s = None → dlopen_file f = None →
  load f args n s = (Throw (runtime_error (could_not_load f (dlopen_error f))), s).
Proof.
  intros He Hf. rewrite /load /dlopen Hf /dlerror /modify /mbind /M_bind /=.
  by rewrite -[in X in _ = (_, X)](p_set_dlerror_None s He).
Qed.

(** The body of [load] from the first lookup on. *)
Lemma load_opened f lib args n s :
  p_dlerror s = None → dlopen_file f = Some lib →
  load f args n s =
  (for_each checked_symbols (λ name, dlsym lib name ;; e ← dlerror; check4error f e true) ;;
   dlsym lib "hc_delete_instance" ;;
   dlsym lib "hc_init" ;;
   e ← dlerror;
   check4error f e true ;;
   modify (p_log (Hc_init f (ini_pairs args) n)) ;;
   for_each (lib_init lib (ini_pairs args) n) (new_instance (Some (p_next_addr s))) ;;
   mh_release (Some (p_next_addr s))) (opened f s).
Proof.
  intros He Hf. rewrite /load. rewrite (follow_key_value_pairs args).
  assert (dlopen dlopen_file dlopen_error f s = (Ok (Some lib), p_log (Dlopen f) s)) as E1 by by rewrite /dlopen Hf.
  step_ok E1.
  assert (dlerror (p_log (Dlopen f) s) = (Ok None, p_log (Dlopen f) s)) as E2.
  { by rewrite /dlerror /mbind /M_bind /= He p_set_dlerror_None. }
  by step_ok E2.
Qed.

Lemma dlsym_found lib name s : name ∈ lib_symbols lib → dlsym lib name s = (Ok tt, s).
Proof. intros. by rewrite /dlsym bool_decide_true. Qed.

Lemma dlsym_missing lib name s :
  name ∉ lib_symbols lib → dlsym lib name s = (Ok tt, p_set_dlerror (Some (dlsym_error name)) s).
Proof. intros. by rewrite /dlsym bool_decide_false. Qed.

Lemma load_missing_symbol f lib args n s :
  p_dlerror s = None → dlopen_file f = Some lib → ¬ (∀ x, x ∈ required_symbols → x ∈ lib_symbols lib) →
  ∃ name, name ∈ required_symbols ∧ name ∉ lib_symbols lib ∧
    load f args n s = (Throw (runtime_error (dlsym_error name)), p_log (Dlclose f) (opened f s)).
Proof.
  intros He Hf Hmiss. rewrite (load_opened f lib args n s He Hf).
  assert (p_dlerror (opened f s) = None) as Ho by done.
  rewrite {1}/mbind /M_bind (lookup_symbols lib f checked_symbols _ Ho).
  destruct (list_find _ checked_symbols) as [[i name]|] eqn:Ef.
  - apply list_find_Some in Ef as (Hn & Hnot & _). exists name. split; [|done].
    apply elem_of_app. left. by eapply list_elem_of_lookup_2.
  - apply list_find_None in Ef. rewrite Forall_forall in Ef.
    destruct (decide ("hc_init" ∈ lib_symbols lib)) as [Hi|Hi];
      [destruct (decide ("hc_delete_instance" ∈ lib_symbols lib)) as [Hd|Hd]|].
    + destruct Hmiss. intros x Hx. apply elem_of_app in Hx as [Hx|Hx].
      * destruct (decide (x ∈ lib_symbols lib)); [done|]. by destruct (Ef x Hx).
      * by repeat (apply elem_of_cons in Hx as [->|Hx]; [done|]); apply not_elem_of_nil in Hx.
    + exists "hc_delete_instance". split; [by apply elem_of_app; right; left|]. split; [done|].
      set (s1 := p_set_dlerror (Some (dlsym_error "hc_delete_instance")) (opened f s)).
      step_ok (dlsym_missing lib _ (opened f s) Hd). step_ok (dlsym_found lib _ s1 Hi).
      rewrite /dlerror /mbind /M_bind /=. by rewrite -[in X in _ = (_, p_log _ X)](p_set_dlerror_None (opened f s) He).
    + exists "hc_init". split; [by apply elem_of_app; right; right; left|]. split; [done|].
      destruct (decide ("hc_delete_instance" ∈ lib_symbols lib)) as [Hd|Hd];
        [step_ok (dlsym_found lib _ (opened f s) Hd); pose (s1 := opened f s)
        |set (s1 := p_set_dlerror (Some (dlsym_error "hc_delete_instance")) (opened f s));
         step_ok (dlsym_missing lib _ (opened f s) Hd)];
        step_ok (dlsym_missing lib _ s1 Hi); rewrite /dlerror /mbind /M_bind /=;
        by rewrite -[in X in _ = (_, p_log _ X)](p_set_dlerror_None (opened f s) He).
Qed.

Lemma load_complete f lib args n s :
  p_dlerror s = None → dlopen_file f = Some lib → (∀ x, x ∈ required_symbols → x ∈ lib_symbols lib) →
  load f args n s =
  (for_each (lib_init lib (ini_pairs args) n) (new_instance (Some (p_next_addr s))) ;;
   mh_release (Some (p_next_addr s))) (p_log (Hc_init f (ini_pairs args) n) (opened f s)).
Proof.
  intros He Hf Hall. rewrite (load_opened f lib args n s He Hf).
  assert (p_dlerror (opened f s) = None) as Ho by done.
  assert (for_each checked_symbols (λ name, dlsym lib name ;; e ← dlerror; check4error f e true)
    (opened f s) = (Ok tt, opened f s)) as E1.
  { rewrite (lookup_symbols lib f checked_symbols _ Ho).
    destruct (list_find _ checked_symbols) as [[i name]|] eqn:Ef; [|done].
    apply list_find_Some in Ef as (Hn & Hnot & _). destruct Hnot. apply Hall, elem_of_app. left.
    by eapply list_elem_of_lookup_2. }
  step_ok E1.
  assert ("hc_delete_instance" ∈ lib_symbols lib) as Hd by (apply Hall, elem_of_app; right; by left).
  assert ("hc_init" ∈ lib_symbols lib) as Hi by (apply Hall, elem_of_app; right; right; by left).
  step_ok (dlsym_found lib _ (opened f s) Hd). step_ok (dlsym_found lib _ (opened f s) Hi).
  assert (dlerror (opened f s) = (Ok None, opened f s)) as E3.
  { by rewrite /dlerror /mbind /M_bind /= He p_set_dlerror_None. }
  by step_ok E3.
Qed.

Lemma kept_log d c s : (∀ i, c ≠ Hc_delete_instance i) → kept d s → kept d (p_log c s).
Proof.
  intros Hc [H1 H2 H3 H4 H5]. split; [done..| |done]. intros i. simpl.
  rewrite elem_of_app list_elem_of_singleton. intros [?|?]; [by apply (H4 i)|by destruct (Hc i)].
Qed.

Lemma opened_loading f s : settled s → loading (p_next_addr s) (opened f s).
Proof.
  intros Hk. destruct Hk as [H1 H2 H3 H4 H5]. destruct (H3 (p_next_addr s) ltac:(lia)) as [Ht Hh].
  assert (users s (p_next_addr s) = 0) as Hu. { specialize (H2 (p_next_addr s)). by rewrite Hh in H2. }
  split.
  - split; [done| | | |done].
    + intros h. assert (users (opened f s) h = users s h) as -> by done. specialize (H2 h). simpl.
      destruct (decide (h = p_next_addr s)) as [->|Hne]; [rewrite lookup_insert_eq /=; lia|].
      by rewrite -> lookup_insert_ne by done.
    + intros b Hb. simpl in Hb |- *. destruct (H3 b ltac:(lia)). split; [done|].
      rewrite lookup_insert_ne //. lia.
    + intros i. simpl. rewrite elem_of_app list_elem_of_singleton. intros [?|?]; [by apply (H4 i)|done].
  - eexists. split; [apply lookup_insert_eq|]. assert (users (opened f s) (p_next_addr s) = 0) as -> by done. done.
Qed.

(** The instances the file would create. *)
Definition instance_count (f : bytes) (args : gmap bytes bytes) (n : Z) : Z :=
  match dlopen_file f with
  | Some lib => zlen (lib_init lib (ini_pairs args) n)
  | None => 0
  end.

Lemma load_kept f args n s :
  settled s → room (4 * instance_count f args n) s →
  ∃ r s', load f args n s = (r, s') ∧ (∀ w, r ≠ UB w) ∧ settled s' ∧ dom (p_tms s) ⊆ dom (p_tms s').
Proof.
  intros Hk Hr. pose proof (kept_dlerror _ _ Hk) as He. rewrite /instance_count in Hr.
  destruct (dlopen_file f) as [lib|] eqn:Hf.
  - destruct (decide (Forall (λ x, x ∈ lib_symbols lib) required_symbols)) as [Hall|Hmiss];
      rewrite Forall_forall in Hall || rewrite Forall_forall in Hmiss.
    + destruct (opened_loading f s Hk) as (Hko & hd & Hh & Hc).
      assert (loading (p_next_addr s) (p_log (Hc_init f (ini_pairs args) n) (opened f s))) as Hl.
      { split; [by apply kept_log|]. by exists hd. }
      destruct (new_instances_kept _ (lib_init lib (ini_pairs args) n) _ Hl) as (s1 & E1 & Hl1 & Hd1 & Hs1).
      { exact Hr. }
      destruct (mh_release_kept _ s1 Hl1) as (s2 & E2 & Hk2 & Ht2 & _).
      { rewrite /room in Hr. simpl in Hs1. pose proof (zlen_nonneg (lib_init lib (ini_pairs args) n)). lia. }
      eexists _, s2. split.
      { rewrite (load_complete f lib args n s He Hf Hall). step_ok E1. exact E2. }
      split; [done|]. split; [done|]. by rewrite Ht2.
    + destruct (load_missing_symbol f lib args n s He Hf Hmiss) as (name & _ & _ & E).
      eexists _, _. split; [exact E|]. split; [done|].
      split; [apply kept_log; [done|apply (opened_loading f s Hk)]|done].
  - eexists _, s. rewrite load_no_library //.
Qed.

(** ** The life of the process *)

Inductive process_op :=
  | Load (f : bytes) (args : gmap bytes bytes) (max_msg_size : Z)
  | Instances
  | InstanceById (iid : Z)
  | Drop (a : Z)
  | UnloadAll.

Definition run_process_op (o : process_op) : M process unit :=
  match o with
  | Load f args n => load f args n
  | Instances => instances
  | InstanceById iid => instance_by_iid iid
  | Drop a => drop_held a
  | UnloadAll => unload_all
  end.

(** A pointer that is dropped was held; the references stay below [2^31]. *)
Definition may_run (s : process) (o : process_op) : Prop :=
  match o with
  | Load f args n => room (4 * instance_count f args n) s
  | Instances | UnloadAll => room (Z.of_nat (size (p_by_id s)) + Z.of_nat (size (p_by_id s))) s
  | InstanceById _ => room 0 s
  | Drop a => a ∈ p_held s ∧ room 0 s
  end.

Inductive process_reachable : process → Prop :=
  | process_start : process_reachable new_process
  | process_step s o r s' :
      process_reachable s → may_run s o → run_process_op o s = (r, s') → process_reachable s'.

Lemma new_process_settled : settled new_process.
Proof.
  split; [intros a|intros h|intros a _|intros i|done]; simpl; rewrite ?lookup_empty //.
  apply not_elem_of_nil.
Qed.

Lemma run_process_op_settled o s :
  settled s → may_run s o →
  ∃ r s', run_process_op o s = (r, s') ∧ (∀ w, r ≠ UB w) ∧ settled s' ∧
    dom (p_tms s) ⊆ dom (p_tms s') ∧ (o = UnloadAll → p_by_id s' = ∅).
Proof.
  intros Hk Ho. destruct o as [f args n| |iid|a|]; simpl in *.
  - destruct (load_kept f args n s Hk Ho) as (r & s' & E & Hr & Hk' & Hd). by exists r, s'.
  - destruct (holds_kept (table s) s Hk) as (s' & E & Hk' & _ & Hd).
    + intros a. by apply (table_alive (λ _, 0)).
    + rewrite /room in Ho |- *. pose proof (zlen_table s). lia.
    + exists (Ok tt), s'. rewrite Hd. by rewrite /instances /mbind /M_bind /= E.
  - rewrite /instance_by_iid {1}/mbind /M_bind /=.
    destruct (p_by_id s !! iid) as [p|] eqn:Hi; [|by exists (Ok tt), s].
    destruct (hold_kept p s Hk) as (s' & E & Hk' & _ & Hd & _); [|done|].
    + intros a ->. apply (owned_alive (λ _, 0)); [done|]. rewrite /owners.
      pose proof (pointers_delete a iid (Some a) _ Hi) as Hp. rewrite /pt bool_decide_true // /pointers in Hp.
      rewrite /pointers. lia.
    + exists (Ok tt), s'. by rewrite Hd.
  - destruct Ho as [Ha Hr]. destruct (drop_held_kept a s Hk Ha Hr) as (s' & E & Hk' & Hd).
    exists (Ok tt), s'. by rewrite Hd.
  - destruct (unload_all_kept s Hk Ho) as (s' & E & Hk' & Hby & _ & _ & Hd).
    exists (Ok tt), s'. by rewrite Hd.
Qed.

Lemma process_reachable_settled s : process_reachable s → settled s.
Proof.
  induction 1 as [|s o r s' _ IH Ho E]; [apply new_process_settled|].
  destruct (run_process_op_settled o s IH Ho) as (r2 & s2 & E2 & _ & Hk & _).
  rewrite E in E2. by injection E2 as <- <-.
Qed.
End load_theorems.

(** C38: a module that was loaded is never unloaded: whatever is loaded, looked
    up, held, dropped and unloaded, no operation fails on a deleted object, no
    instance goes away, every worker goes on running with a positive reference
    count and [hc_delete_instance] is never called; [unload_all] only empties
    the table.  The thread of a worker holds a pointer to its own instance. *)
Theorem modules_stay_loaded (dlopen_file : bytes → option library) (dlopen_error : bytes → string)
    (dlsym_error : string → string) (s : process) (o : process_op) :
  process_reachable dlopen_file dlopen_error dlsym_error s → may_run dlopen_file s o →
  ∃ r s', run_process_op dlopen_file dlopen_error dlsym_error o s = (r, s') ∧ (∀ w, r ≠ UB w) ∧
    dom (p_tms s) ⊆ dom (p_tms s') ∧ (o = UnloadAll → p_by_id s' = ∅) ∧
    (∀ i, Hc_delete_instance i ∉ p_calls s') ∧
    ∀ a t, p_tms s' !! a = Some t → tm_running (tm_object_state t) = true ∧ 1 <= tm_ref_count t.
Proof.
  intros Hs Ho. pose proof (process_reachable_settled _ _ _ s Hs) as Hk.
  destruct (run_process_op_settled _ dlopen_error dlsym_error o s Hk Ho) as (r & s' & E & Hr & Hk' & Hd & Hu).
  exists r, s'. do 4 (split; [done|]). split; [apply (kept_calls _ _ Hk')|].
  intros a t Ha. pose proof (kept_tms _ _ Hk' a) as Ht. rewrite Ha in Ht. destruct Ht as [Hrun Hc].
  split; [done|]. pose proof (owners_pos s' a). lia.
Qed.

(** A library with every function, whose [hc_init] creates two instances. *)
Definition sample_library : library :=
  {| lib_symbols := required_symbols;
     lib_init _ _ := [{| ia_instance := 70; ia_kvps := []; ia_atomic_size := 1472 |};
                      {| ia_instance := 71; ia_kvps := []; ia_atomic_size := 1472 |}] |}.

(** After loading it the table has two instances; [unload_all] leaves both
    alive, each with the reference of its worker. *)
Lemma modules_stay_loaded_witness :
  ∃ s, run_process_op (λ _, Some sample_library) (λ _, "") (λ _, "") (Load (str "libipm.so") ∅ 65535) new_process = (Ok tt, s) ∧
    size (p_by_id s) = 2%nat ∧
    ∃ r s', run_process_op (λ _, Some sample_library) (λ _, "") (λ _, "") UnloadAll s = (r, s') ∧ (∀ w, r ≠ UB w) ∧
      dom (p_tms s) ⊆ dom (p_tms s') ∧ (UnloadAll = UnloadAll → p_by_id s' = ∅) ∧
      (∀ i, Hc_delete_instance i ∉ p_calls s') ∧
      ∀ a t, p_tms s' !! a = Some t → tm_running (tm_object_state t) = true ∧ 1 <= tm_ref_count t.
Proof.
  eexists. split; [vm_compute; reflexivity|]. split; [vm_compute; reflexivity|].
  apply modules_stay_loaded; [|vm_compute; reflexivity].
  eapply (process_step _ _ _ new_process (Load (str "libipm.so") ∅ 65535)); [apply process_start|vm_compute; reflexivity|].
  vm_compute. reflexivity.
Defined.

(** A file that is no library leaves the process as it was and reports the
    reason; a library that lacks a function is closed again, the error names
    the function, no instance exists — and the handle stays allocated. *)
Theorem load_error_paths (dlopen_file : bytes → option library) (dlopen_error : bytes → string)
    (dlsym_error : string → string) (f : bytes) (args : gmap bytes bytes) (n : Z) (s : process) :
  p_dlerror s = None →
  match dlopen_file f with
  | None => load dlopen_file dlopen_error dlsym_error f args n s =
      (Throw (runtime_error (could_not_load f (dlopen_error f))), s)
  | Some lib => (¬ ∀ x, x ∈ required_symbols → x ∈ lib_symbols lib) →
      ∃ name s', name ∈ required_symbols ∧ name ∉ lib_symbols lib ∧
        load dlopen_file dlopen_error dlsym_error f args n s = (Throw (runtime_error (dlsym_error name)), s') ∧
        p_calls s' = p_calls s ++ [Dlopen f; Dlclose f] ∧ p_tms s' = p_tms s ∧ p_by_id s' = p_by_id s ∧
        p_handles s' = <[p_next_addr s := {| mh_ref_count := 1; mh_library_handle := f |}]> (p_handles s)
  end.
Proof.
  intros He. destruct (dlopen_file f) as [lib|] eqn:Hf; [intros Hmiss|by apply load_no_library].
  destruct (load_missing_symbol _ dlopen_error dlsym_error f lib args n s He Hf Hmiss) as (name & H1 & H2 & E).
  exists name, (p_log (Dlclose f) (opened f s)). do 3 (split; [done|]). simpl. by rewrite -app_assoc.
Qed.

Lemma load_error_paths_witness :
  load (λ _, None) (λ _, "not found") (λ _, "") (str "libipm.so") ∅ 65535 new_process =
  (Throw (runtime_error (could_not_load (str "libipm.so") "not found")), new_process).
Proof.
  apply (load_error_paths (λ _, None) (λ _, "not found") (λ _, "") (str "libipm.so") ∅ 65535 new_process).
  reflexivity.
Defined.
