(* ===== verification/KeyRing.v ===== *)
(** * The ring of overlay keys

    The arithmetic of [utils/chimera/src/key.c]: addition, subtraction,
    distance, midpoint and the test whether a key lies between two others.
    The code computes word by word in [double], which is exact for the sums
    and differences of 32-bit words; the theorems give the results as
    operations on 96-bit numbers and show where they differ from the ring of
    keys. *)

From S2P Require Import Prelude ChimeraKey.

Definition ULONG_MAX : Z := 4294967295.

(** [key_init]. *)
Definition Key_Max : Key := replicate KEY_ARRAY_SIZE ULONG_MAX.
Definition Key_Half : Key := [ULONG_MAX; ULONG_MAX; ULONG_MAX / 2].

(** ** Operations *)

(** The loop of [key_add].  The conversion of a sum that does not fit is
    undefined in C; the compilers keep the low 32 bits. *)
Fixpoint add_words (n i : nat) (tmp : Z) (op1 op2 : Key) : Key :=
  match n with
  | O => []
  | S n' =>
      let tmp := tmp + (word op1 i + word op2 i) in
      if ULONG_MAX <? tmp then u32 tmp :: add_words n' (S i) 1 op1 op2
      else u32 tmp :: add_words n' (S i) 0 op1 op2
  end.
Definition key_add (op1 op2 : Key) : Key := add_words KEY_ARRAY_SIZE 0 0 op1 op2.

(** [key_sub] leaves its result alone when the second operand is larger. *)
Fixpoint sub_words (n i : nat) (carry : Z) (op1 op2 : Key) : Key :=
  match n with
  | O => []
  | S n' =>
      let a := word op1 i - carry in
      let b := word op2 i in
      if b <=? a then u32 (a - b) :: sub_words n' (S i) 0 op1 op2
      else u32 (a + ULONG_MAX + 1 - b) :: sub_words n' (S i) 1 op1 op2
  end.
Definition key_sub (result op1 op2 : Key) : Key :=
  if key_comp op1 op2 <? 0 then result else sub_words KEY_ARRAY_SIZE 0 0 op1 op2.

Definition key_distance (diff k1 k2 : Key) : Key :=
  let diff := if 0 <? key_comp k1 k2 then key_sub diff k1 k2 else key_sub diff k2 k1 in
  if 0 <? key_comp diff Key_Half then key_sub diff Key_Max diff else diff.

Definition key_between (test left right : Key) : bool :=
  let complr := key_comp left right in
  let complt := key_comp left test in
  let comptr := key_comp test right in
  if (complt =? 0) || (comptr =? 0) then true
  else if complr <? 0 then (complt <? 0) && (comptr <? 0)
  else if complr =? 0 then false
  else (complt <? 0) || (comptr <? 0).

Definition key_midpoint (key : Key) : Key :=
  if key_comp key Key_Half <? 0 then key_add key Key_Half else key_sub key key Key_Half.

Definition key_assign_ui (ul : Z) : Key := [ul; 0; 0].
Definition key_equal_ui (k : Key) (ul : Z) : bool :=
  (word k 0 =? ul) && forallb (λ i, word k i =? 0) (seq 1 (KEY_ARRAY_SIZE - 1)).

(** ** Keys of three words *)

Lemma key_words k :
  key_ok k → ∃ a b c, k = [a; b; c] ∧ 0 <= a < 2 ^ 32 ∧ 0 <= b < 2 ^ 32 ∧ 0 <= c < 2 ^ 32.
Proof.
  intros [Hl Hf]. destruct k as [|a [|b [|c [|d k]]]]; try done. exists a, b, c.
  rewrite !Forall_cons in Hf. tauto.
Qed.

Lemma key_value_words a b c : key_value [a; b; c] = a + 2 ^ 32 * b + 2 ^ 64 * c.
Proof. rewrite /key_value /KEY_ARRAY_SIZE /=. rewrite /word /=. lia. Qed.

Lemma words_ok a b c : 0 <= a < 2 ^ 32 → 0 <= b < 2 ^ 32 → 0 <= c < 2 ^ 32 → key_ok [a; b; c].
Proof. intros. split; [done|]. by rewrite !Forall_cons Forall_nil. Qed.

Lemma key_value_range k : key_ok k → 0 <= key_value k < 2 ^ 96.
Proof. intros Hk. apply (value_bound KEY_ARRAY_SIZE k Hk). Qed.

Lemma key_comp_sgn k1 k2 : key_ok k1 → key_ok k2 → key_comp k1 k2 = Z.sgn (key_value k1 - key_value k2).
Proof.
  intros H1 H2. rewrite /key_comp key_comp_words_sign // -!/(key_value _).
  destruct (Z.ltb_spec (key_value k2) (key_value k1)); [lia|].
  destruct (Z.ltb_spec (key_value k1) (key_value k2)); lia.
Qed.

Lemma Key_Max_ok : key_ok Key_Max.
Proof. apply words_ok; rewrite /ULONG_MAX; lia. Qed.
Lemma Key_Half_ok : key_ok Key_Half.
Proof. by apply words_ok. Qed.
Lemma Key_Max_value : key_value Key_Max = 2 ^ 96 - 1.
Proof. done. Qed.
Lemma Key_Half_value : key_value Key_Half = 2 ^ 95 - 1.
Proof. done. Qed.

Lemma u32_small z : 0 <= z < 2 ^ 32 → u32 z = z.
Proof. intros. by apply Z.mod_small. Qed.

Lemma u32_minus z : 2 ^ 32 <= z < 2 ^ 33 → u32 z = z - 2 ^ 32.
Proof. intros. rewrite /u32 /uwrap. symmetry. apply (Z.mod_unique_pos _ _ 1); lia. Qed.

(** Resolves the wrap-around of sums and differences of words. *)
Ltac reduce_u32 :=
  repeat match goal with
  | |- context [u32 ?x] => first [rewrite -> (u32_small x) by lia | rewrite -> (u32_minus x) by lia]
  end.

(** ** The operations as arithmetic *)

Lemma key_sub_spec r k1 k2 :
  key_ok k1 → key_ok k2 → key_value k2 <= key_value k1 →
  key_ok (key_sub r k1 k2) ∧ key_value (key_sub r k1 k2) = key_value k1 - key_value k2.
Proof.
  intros H1 H2 Hle. rewrite /key_sub key_comp_sgn //.
  rewrite (proj2 (Z.ltb_ge _ _)); [lia|].
  destruct (key_words k1 H1) as (a1 & b1 & c1 & -> & ? & ? & ?).
  destruct (key_words k2 H2) as (a2 & b2 & c2 & -> & ? & ? & ?).
  rewrite !key_value_words in Hle. rewrite /KEY_ARRAY_SIZE /= /word /= /ULONG_MAX.
  repeat match goal with |- context [?x <=? ?y] => destruct (Z.leb_spec x y) end;
    reduce_u32; rewrite ?key_value_words; split;
    solve [apply words_ok; lia | lia].
Qed.

Lemma key_add_spec k1 k2 :
  key_ok k1 → key_ok k2 → key_value k1 + key_value k2 < 2 ^ 96 →
  key_ok (key_add k1 k2) ∧ key_value (key_add k1 k2) = key_value k1 + key_value k2.
Proof.
  intros H1 H2 Hs. rewrite /key_add.
  destruct (key_words k1 H1) as (a1 & b1 & c1 & -> & ? & ? & ?).
  destruct (key_words k2 H2) as (a2 & b2 & c2 & -> & ? & ? & ?).
  rewrite !key_value_words in Hs. rewrite /KEY_ARRAY_SIZE /= /word /= /ULONG_MAX.
  repeat match goal with |- context [?x <? ?y] => destruct (Z.ltb_spec x y) end;
    reduce_u32;
    rewrite ?key_value_words; split; solve [apply words_ok; lia | lia].
Qed.

Lemma key_distance_spec d k1 k2 :
  key_ok k1 → key_ok k2 →
  key_ok (key_distance d k1 k2) ∧
  key_value (key_distance d k1 k2) =
    (let n := Z.abs (key_value k1 - key_value k2) in if 2 ^ 95 <=? n then 2 ^ 96 - 1 - n else n).
Proof.
  intros H1 H2. rewrite /key_distance (key_comp_sgn k1 k2 H1 H2). pose proof (key_value_range k1 H1).
  pose proof (key_value_range k2 H2).
  cbv zeta. set (diff := if 0 <? Z.sgn (key_value k1 - key_value k2) then key_sub d k1 k2 else key_sub d k2 k1).
  assert (key_ok diff ∧ key_value diff = Z.abs (key_value k1 - key_value k2)) as [Hd Hv].
  { rewrite /diff. destruct (Z.ltb_spec 0 (Z.sgn (key_value k1 - key_value k2))).
    - destruct (key_sub_spec d k1 k2 H1 H2 ltac:(lia)) as [Ho Hv]. split; [done|lia].
    - destruct (key_sub_spec d k2 k1 H2 H1 ltac:(lia)) as [Ho Hv]. split; [done|lia]. }
  rewrite (key_comp_sgn diff Key_Half Hd Key_Half_ok) Key_Half_value Hv. cbv zeta.
  destruct (Z.leb_spec (2 ^ 95) (Z.abs (key_value k1 - key_value k2))).
  - rewrite (proj2 (Z.ltb_lt _ _)); [lia|].
    assert (key_value diff <= key_value Key_Max) as Hle by (rewrite Key_Max_value Hv; lia).
    destruct (key_sub_spec diff Key_Max diff Key_Max_ok Hd Hle) as [Ho Hs]. rewrite Key_Max_value Hv in Hs.
    split; [done|lia].
  - rewrite (proj2 (Z.ltb_ge _ _)); [lia|]. by rewrite Hv.
Qed.

Lemma key_between_spec t l r :
  key_ok t → key_ok l → key_ok r →
  key_between t l r = true ↔
    key_value t = key_value l ∨ key_value t = key_value r ∨
    key_value l < key_value t < key_value r ∨
    key_value r < key_value l ∧ (key_value l < key_value t ∨ key_value t < key_value r).
Proof.
  intros Ht Hl Hr. rewrite /key_between !key_comp_sgn //.
  repeat match goal with |- context [?x =? ?y] => destruct (Z.eqb_spec x y) end;
  repeat match goal with |- context [?x <? ?y] => destruct (Z.ltb_spec x y) end; simpl;
  split; intros; try done; lia.
Qed.

Lemma key_midpoint_spec k :
  key_ok k →
  key_ok (key_midpoint k) ∧
  key_value (key_midpoint k) =
    (if key_value k <? 2 ^ 95 - 1 then key_value k + (2 ^ 95 - 1) else key_value k - (2 ^ 95 - 1)).
Proof.
  intros Hk. pose proof (key_value_range k Hk). rewrite /key_midpoint (key_comp_sgn k Key_Half Hk Key_Half_ok).
  rewrite Key_Half_value. destruct (Z.ltb_spec (key_value k) (2 ^ 95 - 1)).
  - rewrite (proj2 (Z.ltb_lt _ _)); [lia|].
    assert (key_value k + key_value Key_Half < 2 ^ 96) as Hs by (rewrite Key_Half_value; lia).
    destruct (key_add_spec k Key_Half Hk Key_Half_ok Hs) as [Ho Hv]. by rewrite Key_Half_value in Hv.
  - rewrite (proj2 (Z.ltb_ge _ _)); [lia|].
    assert (key_value Key_Half <= key_value k) as Hs by (rewrite Key_Half_value; lia).
    destruct (key_sub_spec k k Key_Half Hk Key_Half_ok Hs) as [Ho Hv]. by rewrite Key_Half_value in Hv.
Qed.

(** The smaller of the two ways around the ring of [2^96] keys. *)
Definition ring_distance (x y : Z) : Z := Z.min ((x - y) mod 2 ^ 96) ((y - x) mod 2 ^ 96).

Lemma ring_distance_abs x y :
  0 <= x < 2 ^ 96 → 0 <= y < 2 ^ 96 →
  ring_distance x y = (let n := Z.abs (x - y) in if 2 ^ 95 <=? n then 2 ^ 96 - n else n).
Proof.
  intros Hx Hy. rewrite /ring_distance. cbv zeta.
  assert (∀ a b, 0 <= a < 2 ^ 96 → 0 <= b < 2 ^ 96 → a < b → (a - b) mod 2 ^ 96 = 2 ^ 96 - (b - a)) as Hneg.
  { intros a b Ha Hb Hab. symmetry. apply (Z.mod_unique_pos _ _ (-1)); lia. }
  destruct (Z.lt_trichotomy x y) as [Hlt|[->|Hgt]].
  - rewrite (Hneg x y) // (Z.mod_small (y - x)); [lia|]. destruct (Z.leb_spec (2 ^ 95) (Z.abs (x - y))); lia.
  - rewrite Z.sub_diag. done.
  - rewrite (Hneg y x) // (Z.mod_small (x - y)); [lia|]. destruct (Z.leb_spec (2 ^ 95) (Z.abs (x - y))); lia.
Qed.

(** [key_distance] is the distance on the ring of keys when the shorter way
    does not pass zero, and one less when it does; so it is zero for a key and
    itself, and also for the smallest and the largest key. *)
Theorem key_distance_ring d k1 k2 :
  key_ok k1 → key_ok k2 →
  let n := Z.abs (key_value k1 - key_value k2) in
  key_ok (key_distance d k1 k2) ∧
  key_value (key_distance d k1 k2) =
    ring_distance (key_value k1) (key_value k2) - (if 2 ^ 95 <=? n then 1 else 0) ∧
  (key_value (key_distance d k1 k2) = 0 ↔ k1 = k2 ∨ n = 2 ^ 96 - 1).
Proof.
  intros H1 H2 n. pose proof (key_value_range k1 H1). pose proof (key_value_range k2 H2).
  destruct (key_distance_spec d k1 k2 H1 H2) as [Ho Hv]. cbv zeta in Hv. fold n in Hv.
  split; [done|]. rewrite ring_distance_abs // Hv. cbv zeta. fold n. split; [destruct (Z.leb_spec (2 ^ 95) n); lia|].
  assert (k1 = k2 ↔ n = 0) as ->.
  { split; [intros ->; rewrite /n; lia|]. intros Hn. apply key_value_inj; [done|done|lia]. }
  destruct (Z.leb_spec (2 ^ 95) n); lia.
Qed.

Lemma key_distance_ring_witness :
  key_value (key_distance [] [0; 0; 0] Key_Max) = 0 ↔ [0; 0; 0] = Key_Max ∨ Z.abs (0 - (2 ^ 96 - 1)) = 2 ^ 96 - 1.
Proof. apply (key_distance_ring [] [0; 0; 0] Key_Max); [apply words_ok; lia|apply Key_Max_ok]. Defined.
