(* ===== verification/Route.v ===== *)
(** * Routing in the overlay

    [utils/chimera/src/route.c]: the routing table with a row per digit of the
    key, a column per value of the digit and two hosts per entry, and the two
    leafsets, the nearest hosts in either direction of the ring of keys.
    [route_update] adds and removes hosts, [route_lookup] chooses the next hop
    for a key.  A [ChimeraHost*] is a host with its key; the cache of hosts
    ([Overlay]) hands out the same object while it is referenced, so that
    references are recorded as events.  The quality of a link and its latency
    are parameters: the successes among the last 20 packets, and a time. *)

From S2P Require Import Prelude ChimeraKey KeyRing Overlay.

Definition MAX_ROW : Z := 48.
Definition MAX_COL : Z := 4.
Definition MAX_ENTRY : nat := 2.
Definition LEAFSET_SIZE : nat := 6.

Record host := { h_id : host_id; h_key : Key }.
#[export] Instance host_eq_dec : EqDecision host.
Proof. solve_decision. Defined.

(** References to hosts, and the calls of [chimera_update_upcall]. *)
Inductive event :=
  | HostGet (h : host)
  | HostRelease (h : host)
  | Upcall (h : host) (joined : bool).

(** [RouteGlobal]: entries of the table that were never written are empty;
    the leafsets are arrays of [LEAFSET_SIZE / 2 + 1] pointers. *)
Record RouteGlobal := {
  me : host;
  table : gmap (Z * Z) (list (option host));
  leftleafset : list (option host);
  rightleafset : list (option host);
  Rrange : Key;
  Lrange : Key;
  events : list event
}.

Definition rg_set_table t s := {| me := me s; table := t; leftleafset := leftleafset s;
  rightleafset := rightleafset s; Rrange := Rrange s; Lrange := Lrange s; events := events s |}.
Definition rg_set_leafset (right : bool) p s := {| me := me s; table := table s;
  leftleafset := if right then leftleafset s else p; rightleafset := if right then p else rightleafset s;
  Rrange := Rrange s; Lrange := Lrange s; events := events s |}.
Definition rg_set_ranges r l s := {| me := me s; table := table s; leftleafset := leftleafset s;
  rightleafset := rightleafset s; Rrange := r; Lrange := l; events := events s |}.
Definition rg_event e s := {| me := me s; table := table s; leftleafset := leftleafset s;
  rightleafset := rightleafset s; Rrange := Rrange s; Lrange := Lrange s; events := events s ++ [e] |}.

Definition leafset (right : bool) (s : RouteGlobal) : list (option host) :=
  if right then rightleafset s else leftleafset s.
Definition entry (s : RouteGlobal) (i j : Z) : list (option host) :=
  default (replicate MAX_ENTRY None) (table s !! (i, j)).

Definition host_get (h : host) : M RouteGlobal unit := modify (rg_event (HostGet h)).
Definition host_release (h : host) : M RouteGlobal unit := modify (rg_event (HostRelease h)).

Definition route_init (h : host) : RouteGlobal :=
  {| me := h; table := ∅; leftleafset := replicate (LEAFSET_SIZE / 2 + 1) None;
     rightleafset := replicate (LEAFSET_SIZE / 2 + 1) None;
     Rrange := h_key h; Lrange := h_key h; events := [] |}.

(** ** Choosing among hosts *)

(** [find_closest_key] of a non-empty array: the first of the nearest. *)
Definition distance_to (key : Key) (h : host) : Key := key_distance [] (h_key h) key.
Fixpoint find_closest (key : Key) (min : host) (mindif : Key) (hosts : list host) : host :=
  match hosts with
  | [] => min
  | h :: hosts =>
      let dif := distance_to key h in
      if key_comp dif mindif <? 0 then find_closest key h dif hosts else find_closest key min mindif hosts
  end.
Definition find_closest_key (key : Key) (hosts : list host) : option host :=
  match hosts with
  | [] => None
  | h :: hosts => Some (find_closest key h (distance_to key h) hosts)
  end.

(** The comparisons of [sort_hosts] and [sort_hosts_key]: whether the later
    host [y] and the earlier host [x] change places. *)
Definition better (key : Key) (y x : host) : bool :=
  let pmatch1 := key_index key (h_key x) in
  let pmatch2 := key_index key (h_key y) in
  if pmatch1 <? pmatch2 then true
  else if pmatch1 =? pmatch2 then key_comp (distance_to key y) (distance_to key x) <? 0
  else false.
Definition nearer (key : Key) (y x : host) : bool :=
  key_comp (distance_to key y) (distance_to key x) <? 0.

(** The inner loop for one [i]: the host at [i] and those behind it. *)
Fixpoint exchange_pass (swap : host → host → bool) (x : host) (l : list host) : host * list host :=
  match l with
  | [] => (x, [])
  | y :: l =>
      if swap y x then let '(m, l') := exchange_pass swap y l in (m, x :: l')
      else let '(m, l') := exchange_pass swap x l in (m, y :: l')
  end.
Fixpoint exchange_sort (swap : host → host → bool) (size : nat) (l : list host) : list host :=
  match size, l with
  | S n, x :: l => let '(m, l') := exchange_pass swap x l in m :: exchange_sort swap n l'
  | _, _ => l
  end.
Definition sort_hosts (hosts : list host) (key : Key) : list host :=
  exchange_sort (better key) (length hosts) hosts.
Definition sort_hosts_key (hosts : list host) (key : Key) : list host :=
  exchange_sort (nearer key) (length hosts) hosts.

(** ** Leafsets *)

(** The index of the first null pointer of an array. *)
Fixpoint null_index (arr : list (option host)) : option nat :=
  match arr with
  | [] => None
  | None :: _ => Some 0%nat
  | Some _ :: arr => S <$> null_index arr
  end.
Definition leafset_size (arr : list (option host)) : M RouteGlobal nat :=
  match null_index arr with
  | Some n => mret n
  | None => ub "leafset_size runs behind the end"
  end.

(** The hosts before the first null pointer. *)
Fixpoint hosts_of (arr : list (option host)) : list host :=
  match arr with
  | Some h :: arr => h :: hosts_of arr
  | _ => []
  end.

Definition leafset_range_update : M RouteGlobal unit :=
  s ← get;
  let right := hosts_of (rightleafset s) in
  let rrange := from_option h_key (Rrange s) (last right) in
  let lrange := if bool_decide (right = []) then h_key (me s) else Lrange s in
  let lrange := from_option h_key (h_key (me s)) (hosts_of (leftleafset s) !! 0%nat) in
  put (rg_set_ranges rrange lrange s).

(** Whether [h] lies between this node and [p], in the direction of the set. *)
Definition on_the_way (right : bool) (s : RouteGlobal) (h p : host) : bool :=
  if right then key_between (h_key h) (h_key (me s)) (h_key p)
  else key_between (h_key h) (h_key p) (h_key (me s)).

(** The search of [leafset_insert] from position [i] on, [p] being the rest of
    the set: a position, or nothing for a host that is there.  The test for
    equality is skipped where [foundKeyPos] is set. *)
Fixpoint insert_position (right : bool) (s : RouteGlobal) (h : host) (i : nat) (found : bool)
    (p : list host) : option nat :=
  match p with
  | [] => Some i
  | x :: p =>
      if found then Some i
      else if key_equal (h_key x) (h_key h) then None
      else
        match p with
        | [] => Some (S i)
        | y :: _ => insert_position right s h (S i) (on_the_way right s h y) p
        end
  end.

(** The loop that moves the hosts from [i] on by one place; the result has the
    array and the last host that was moved. *)
Fixpoint shift_in (fuel : nat) (i : nat) (tmp1 tmp2 : option host) (p : list (option host)) :
    list (option host) * option host :=
  match fuel with
  | O => (p, tmp2)
  | S n =>
      if (i <? LEAFSET_SIZE / 2)%nat then
        let tmp2 := default None (p !! i) in shift_in n (S i) tmp2 tmp2 (<[i := tmp1]> p)
      else (p, tmp2)
  end.

(** [deleted] and [added]. *)
Definition changes : Type := option host * option host.

Definition leafset_insert (h : host) (right : bool) (c : changes) : M RouteGlobal changes :=
  s ← get;
  let p := leafset right s in
  size ← leafset_size p;
  match hosts_of p with
  | [] => put (rg_set_leafset right (<[0%nat := Some h]> p) s) ;; mret (c.1, Some h)
  | x :: _ =>
      if key_equal (h_key x) (h_key h) then host_release h ;; mret c
      else
        match insert_position right s h 0 (on_the_way right s h x) (hosts_of p) with
        | None => host_release h ;; mret c
        | Some i =>
            let '(p', tmp2) := shift_in (LEAFSET_SIZE / 2) i (Some h) None p in
            put (rg_set_leafset right p' s) ;;
            mret (if bool_decide (is_Some tmp2 ∧ size = LEAFSET_SIZE / 2)%nat then tmp2 else c.1, Some h)
        end
  end.

(** The loop of [leafset_delete] that closes the hole. *)
Fixpoint close_hole (fuel i size : nat) (p : list (option host)) : list (option host) :=
  match fuel with
  | O => p
  | S n =>
      let p := <[i := default None (p !! S i)]> p in
      if (S i <? size - 1)%nat then close_hole n (S i) size p else <[S i := None]> p
  end.

Definition leafset_delete (h : host) (right : bool) (c : changes) : M RouteGlobal changes :=
  s ← get;
  let p := leafset right s in
  size ← leafset_size p;
  match list_find (λ x, key_equal (h_key x) (h_key h) = true) (hosts_of p) with
  | Some (i, x) => put (rg_set_leafset right (close_hole size i size p) s) ;; mret (Some x, c.2)
  | None => mret c
  end.

Definition leafset_update (h : host) (joined : bool) : M RouteGlobal changes :=
  s ← get;
  Lsize ← leafset_size (leftleafset s);
  Rsize ← leafset_size (rightleafset s);
  let midpoint := key_midpoint (h_key (me s)) in
  if joined then
    c ← (if (Rsize <? LEAFSET_SIZE / 2)%nat ||
            match rightleafset s !! (Rsize - 1)%nat with
            | Some (Some x) => key_between (h_key h) (h_key (me s)) (h_key x)
            | _ => false
            end
         then leafset_insert h true (None, None) else mret (None, None));
    if (Lsize <? LEAFSET_SIZE / 2)%nat ||
       match leftleafset s !! (Lsize - 1)%nat with
       | Some (Some x) => key_between (h_key h) (h_key x) (h_key (me s))
       | _ => false
       end
    then leafset_insert h false c else mret c
  else if key_between (h_key h) (h_key (me s)) midpoint then leafset_delete h true (None, None)
  else leafset_delete h false (None, None).

(** ** The routing table *)

Section links.
Context (success_avg latency : host_id → Z).

(** [success_avg > BAD_LINK]: two successes are 0.1 as a [float], which is a
    little more than 0.1 as a [double]. *)
Definition usable (h : host) : bool := 2 <=? success_avg (h_id h).

(** The loop over an entry in [route_update]: the place for the host, or the
    host is there already. *)
Fixpoint find_place (h : host) (k : nat) (e : list (option host)) : option nat + unit :=
  match e with
  | [] => inl None
  | None :: _ => inl (Some k)
  | Some x :: e => if key_equal (h_key x) (h_key h) then inr tt else find_place h (S k) e
  end.

(** The entry with the worst link. *)
Fixpoint pick_worst (pick : nat) (worst : host) (k : nat) (e : list (option host)) : option (nat * host) :=
  match e with
  | [] => Some (pick, worst)
  | None :: _ => None
  | Some x :: e =>
      if success_avg (h_id x) <? success_avg (h_id worst) then pick_worst k x (S k) e
      else pick_worst pick worst (S k) e
  end.

Definition set_entry (i j : Z) (k : nat) (x : option host) : M RouteGlobal unit :=
  modify (λ s, rg_set_table (<[(i, j) := <[k := x]> (entry s i j)]> (table s)) s).

Definition report (c : changes) : M RouteGlobal unit :=
  (match c.1 with
   | Some deleted => leafset_range_update ;; modify (rg_event (Upcall deleted false))
   | None => mret tt
   end) ;;
  match c.2 with
  | Some added => leafset_range_update ;; modify (rg_event (Upcall added true))
  | None => mret tt
  end.

Definition route_update (h : host) (joined : bool) : M RouteGlobal unit :=
  s ← get;
  if key_equal (h_key (me s)) (h_key h) then mret tt
  else
    let i := key_index (h_key (me s)) (h_key h) in
    let j := get_col (h_key h) i in
    let e := entry s i j in
    if joined then
      match find_place h 0 e with
      | inr _ => mret tt
      | inl (Some k) =>
          host_get h ;; set_entry i j k (Some h) ;;
          c ← leafset_update h joined; report c
      | inl None =>
          match e with
          | Some x :: e' =>
              match pick_worst 0 x 1 e' with
              | Some (pick, worst) =>
                  host_release worst ;; host_get h ;; set_entry i j pick (Some h) ;;
                  c ← leafset_update h joined; report c
              | None => ub "empty place in a full entry"
              end
          | _ => ub "empty place in a full entry"
          end
      end
    else
      match list_find (λ x, match x with Some x => key_equal (h_key x) (h_key h) | None => false end = true) e with
      | Some (k, Some x) => host_release x ;; set_entry i j k None
      | _ => mret tt
      end ;;
      c ← leafset_update h joined; report c.

(** The hosts of row [i]: column by column. *)
Definition row (s : RouteGlobal) (i : Z) : list host := mjoin (omap id ∘ entry s i <$> seqZ 0 MAX_COL).

(** The best usable host of an entry. *)
Definition better_link (x tmp : host) : bool :=
  (success_avg (h_id tmp) <? success_avg (h_id x)) ||
  ((success_avg (h_id x) =? success_avg (h_id tmp)) && (latency (h_id x) <? latency (h_id tmp))).
Definition best_of_entry (e : list (option host)) : option host :=
  let l := omap id e in
  tmp ← head (filter (λ h, usable h = true) l);
  Some (foldl (λ tmp x, if better_link x tmp then x else tmp) tmp l).

(** The first [count] different hosts of a sorted array, each referenced. *)
Fixpoint take_different (count : Z) (l : list host) (ret : list host) : M RouteGlobal (list host) :=
  match l with
  | [] => mret ret
  | tmp :: l =>
      if zlen ret <? count then
        if match last ret with Some x => key_equal (h_key x) (h_key tmp) | None => false end
        then take_different count l ret
        else host_get tmp ;; take_different count l (ret ++ [tmp])
      else mret ret
  end.

(** The array [bnh] has [LEAFSET_SIZE + 1 + MAX_COL * MAX_ENTRY] places, one of
    them for the null pointer at the end. *)
Definition bnh_size : Z := Z.of_nat LEAFSET_SIZE + 1 + MAX_COL * Z.of_nat MAX_ENTRY.

Definition route_lookup (key : Key) (count : Z) : M RouteGlobal (list host) :=
  s ← get;
  Lsize ← leafset_size (leftleafset s);
  Rsize ← leafset_size (rightleafset s);
  let leaves := hosts_of (leftleafset s) ++ hosts_of (rightleafset s) in
  if (count =? 1) && key_between key (Lrange s) (Rrange s) then
    mret (option_list (find_closest_key key (me s :: leaves)))
  else
    let i := key_index (h_key (me s)) key in
    let match_col := get_col key i in
    match best_of_entry (entry s i match_col), count =? 1 with
    | Some tmp, true => host_get tmp ;; mret [tmp]
    | _, _ =>
        let bnh := me s :: leaves ++ filter (λ h, usable h = true) (row s i) in
        if bnh_size <=? zlen bnh then ub "null pointer behind the end of bnh"
        else if count =? 1 then
          match find_closest_key key bnh with
          | Some r =>
              let dif1 := key_distance [] key (h_key r) in
              let dif2 := key_distance [] key (h_key (me s)) in
              mret [if key_equal dif1 dif2 then me s else r]
          | None => mret []
          end
        else take_different count (sort_hosts bnh key) []
    end.

Definition route_row_lookup (key : Key) : M RouteGlobal (list host) :=
  s ← get;
  let i := key_index (h_key (me s)) key in
  for_each (row s i) host_get ;;
  host_get (me s) ;;
  mret (row s i ++ [me s]).

Definition route_get_table : M RouteGlobal (list host) :=
  s ← get;
  let l := filter (λ h, usable h = true) (mjoin (row s <$> seqZ 0 MAX_ROW)) in
  for_each l host_get ;;
  mret l.

(** [route_neighbors]: the array is cut at the first null pointer, that is at
    the first host without a usable link. *)
Definition route_neighbors (count : Z) : M RouteGlobal (list (option host)) :=
  s ← get;
  Lsize ← leafset_size (leftleafset s);
  Rsize ← leafset_size (rightleafset s);
  let hosts := hosts_of (leftleafset s) ++ hosts_of (rightleafset s) in
  let ret_size := if Z.of_nat Rsize + Z.of_nat Lsize <? count then Z.of_nat Rsize + Z.of_nat Lsize else count in
  let l := ztake ret_size (sort_hosts hosts (h_key (me s))) in
  for_each (filter (λ h, usable h = true) l) host_get ;;
  mret ((λ h, if usable h then Some h else None) <$> l).
End links.

Lemma bind_get {S A} (k : S → M S A) (s : S) : (get ≫= k) s = k s s.
Proof. done. Qed.

(** ** Directions on the ring *)

(** How far a host is away in the direction of a leafset. *)
Definition way (right : bool) (s : RouteGlobal) (x : host) : Z :=
  if right then (key_value (h_key x) - key_value (h_key (me s))) mod 2 ^ 96
  else (key_value (h_key (me s)) - key_value (h_key x)) mod 2 ^ 96.

Definition host_ok (s : RouteGlobal) (x : host) : Prop :=
  key_ok (h_key x) ∧ h_key x ≠ h_key (me s).

Lemma mod_ring z : - 2 ^ 96 < z < 2 ^ 96 → z mod 2 ^ 96 = if z <? 0 then z + 2 ^ 96 else z.
Proof.
  intros Hz. destruct (Z.ltb_spec z 0); [|apply Z.mod_small; lia].
  symmetry. apply (Z.mod_unique_pos _ _ (-1)); lia.
Qed.

Lemma on_the_way_spec right s h p :
  key_ok (h_key (me s)) → host_ok s h → host_ok s p →
  on_the_way right s h p = true ↔ way right s h <= way right s p.
Proof.
  intros Hm [Hh Hhm] [Hp Hpm].
  assert (key_value (h_key h) ≠ key_value (h_key (me s))) by (intros E; apply Hhm; by apply key_value_inj).
  assert (key_value (h_key p) ≠ key_value (h_key (me s))) by (intros E; apply Hpm; by apply key_value_inj).
  pose proof (key_value_range _ Hm). pose proof (key_value_range _ Hh). pose proof (key_value_range _ Hp).
  rewrite /on_the_way /way. destruct right; rewrite key_between_spec // !mod_ring; try lia;
    repeat match goal with |- context [?x <? 0] => destruct (Z.ltb_spec x 0) end; lia.
Qed.

(** ** The invariant *)

(** A leafset array that holds the hosts [l]. *)
Definition pad (l : list host) : list (option host) :=
  (Some <$> l) ++ replicate (LEAFSET_SIZE / 2 + 1 - length l) None.

Definition in_order_of_way (right : bool) (s : RouteGlobal) : list host → Prop :=
  StronglySorted (λ x y, way right s x <= way right s y).

Definition leafset_ok (right : bool) (s : RouteGlobal) (l : list host) : Prop :=
  leafset right s = pad l ∧ (length l <= LEAFSET_SIZE / 2)%nat ∧ Forall (host_ok s) l ∧
  in_order_of_way right s l.

(** The table: a host is in the row of its common prefix with this node and in
    the column of its next digit. *)
Definition table_ok (s : RouteGlobal) : Prop :=
  ∀ i j, length (entry s i j) = MAX_ENTRY ∧
    ∀ x, Some x ∈ entry s i j →
      host_ok s x ∧ key_index (h_key (me s)) (h_key x) = i ∧ get_col (h_key x) i = j.

Record route_ok (s : RouteGlobal) : Prop := {
  ok_me : key_ok (h_key (me s));
  ok_table : table_ok s;
  ok_leaves right : ∃ l, leafset_ok right s l;
  ok_ranges : key_ok (Lrange s) ∧ key_ok (Rrange s)
}.

Lemma hosts_of_pad l : hosts_of (pad l) = l.
Proof.
  rewrite /pad. generalize (LEAFSET_SIZE / 2 + 1 - length l)%nat. intros n.
  induction l as [|x l IH]; simpl; [by destruct n|by rewrite IH].
Qed.

Lemma leafset_size_pad l s :
  (length l <= LEAFSET_SIZE / 2)%nat → leafset_size (pad l) s = (Ok (length l), s).
Proof.
  intros Hl. rewrite /leafset_size /pad.
  assert (null_index ((Some <$> l) ++ replicate (LEAFSET_SIZE / 2 + 1 - length l) None) = Some (length l)) as ->; [|done].
  assert (∃ n, (LEAFSET_SIZE / 2 + 1 - length l)%nat = S n) as [n ->]
    by (exists (LEAFSET_SIZE / 2 - length l)%nat; lia).
  clear Hl. induction l as [|x l IH]; [done|]. by rewrite /= IH.
Qed.

Lemma event_ok e s : route_ok s → route_ok (rg_event e s).
Proof. by intros []. Qed.

Lemma route_init_ok h : key_ok (h_key h) → route_ok (route_init h).
Proof.
  intros Hk. split; [done| |intros right; exists []|done].
  - intros i j. rewrite /entry /= lookup_empty /=. split; [done|]. intros x Hx.
    by repeat (apply elem_of_cons in Hx as [?|Hx]; [done|]); apply not_elem_of_nil in Hx.
  - split; [by destruct right|]. split; [simpl; lia|]. split; [done|constructor].
Qed.

(** ** Leafset operations *)

(** A leafset with a new list of hosts. *)
Lemma set_leafset_ok right s l :
  route_ok s → (length l <= LEAFSET_SIZE / 2)%nat → Forall (host_ok s) l → in_order_of_way right s l →
  route_ok (rg_set_leafset right (pad l) s).
Proof.
  intros [H1 H2 H3 H4] Hlen Hok Hs. split; [done|done| |done]. intros r.
  destruct (decide (r = right)) as [->|Hr].
  - exists l. by destruct right.
  - destruct (H3 r) as (l' & Hl' & ?). exists l'. split; [|done]. destruct r, right; done.
Qed.

Lemma insert_position_spec right s h l : ∀ i0 i found,
  key_ok (h_key (me s)) → host_ok s h → Forall (host_ok s) l →
  (∀ x, l !! 0%nat = Some x → found = on_the_way right s h x) →
  insert_position right s h i0 found l = Some i →
  ∃ k, i = (i0 + k)%nat ∧ (k <= length l)%nat ∧ Forall (λ x, way right s x < way right s h) (take k l) ∧
    ∀ x, l !! k = Some x → way right s h <= way right s x.
Proof.
  induction l as [|x l IH]; intros i0 i found Hm Hh Hl Hf Hi; simpl in Hi.
  { injection Hi as <-. exists 0%nat. split; [lia|]. split; [done|]. split; [constructor|done]. }
  apply Forall_cons in Hl as [Hx Hl]. specialize (Hf x eq_refl). subst found.
  destruct (on_the_way right s h x) eqn:E.
  - injection Hi as <-. exists 0%nat. split; [lia|]. split; [simpl; lia|]. split; [constructor|].
    intros y [= <-]. by apply on_the_way_spec.
  - assert (way right s x < way right s h) as Hlt.
    { apply Z.nle_gt. intros Hle. apply (on_the_way_spec right s h x) in Hle; [congruence|done..]. }
    destruct (key_equal (h_key x) (h_key h)); [done|].
    destruct l as [|y l].
    + injection Hi as <-. exists 1%nat. split; [lia|]. split; [simpl; lia|]. split; [by repeat constructor|done].
    + destruct (IH (S i0) i (on_the_way right s h y) Hm Hh Hl) as (k & -> & Hk & Ht & Hd); [by intros ? [= <-]|done|].
      exists (S k). split; [lia|]. split; [simpl in *; lia|]. split; [by constructor|done].
Qed.

(** Inserting at such a position keeps the order. *)
Lemma insert_sorted right s h k l :
  in_order_of_way right s l → Forall (λ x, way right s x < way right s h) (take k l) →
  (∀ x, l !! k = Some x → way right s h <= way right s x) →
  in_order_of_way right s (take k l ++ h :: drop k l).
Proof.
  rewrite /in_order_of_way. revert k. induction l as [|y l IH]; intros [|k] Hs Ht Hd; simpl.
  - by repeat constructor.
  - by repeat constructor.
  - constructor; [done|]. apply StronglySorted_inv in Hs as [Hs Hy]. specialize (Hd y eq_refl).
    constructor; [done|]. eapply Forall_impl; [exact Hy|]. simpl. lia.
  - simpl in Ht. apply Forall_cons in Ht as [Hy Ht]. apply StronglySorted_inv in Hs as [Hs Hall].
    constructor; [by apply IH|]. apply Forall_app. split; [by apply Forall_take|].
    constructor; [lia|by apply Forall_drop].
Qed.

Lemma take_sorted right s n l : in_order_of_way right s l → in_order_of_way right s (take n l).
Proof.
  rewrite /in_order_of_way. revert n. induction l as [|x l IH]; intros [|n] Hs; simpl; try constructor.
  - apply IH. by apply StronglySorted_inv in Hs as [? _].
  - apply StronglySorted_inv in Hs as [_ ?]. by apply Forall_take.
Qed.

Lemma delete_sorted right s i l :
  in_order_of_way right s l → in_order_of_way right s (take i l ++ drop (S i) l).
Proof.
  rewrite /in_order_of_way. revert i. induction l as [|x l IH]; intros [|i] Hs; simpl; try constructor.
  - rewrite drop_0. by apply StronglySorted_inv in Hs as [? _].
  - apply IH. by apply StronglySorted_inv in Hs as [? _].
  - apply StronglySorted_inv in Hs as [_ ?]. apply Forall_app. split; [by apply Forall_take|by apply Forall_drop].
Qed.

(** The loops on the arrays are insertion and deletion of lists. *)
Lemma shift_in_pad i h l :
  (i <= length l <= LEAFSET_SIZE / 2)%nat →
  (shift_in (LEAFSET_SIZE / 2) i (Some h) None (pad l)).1 = pad (take (LEAFSET_SIZE / 2) (take i l ++ h :: drop i l)).
Proof.
  rewrite /LEAFSET_SIZE. change (6 / 2)%nat with 3%nat. intros Hi.
  destruct l as [|a [|b [|c [|d l]]]]; simpl in Hi; [| | | |lia];
    destruct i as [|[|[|[|i]]]]; solve [reflexivity | lia].
Qed.

Lemma close_hole_pad i l :
  (i < length l <= LEAFSET_SIZE / 2)%nat →
  close_hole (length l) i (length l) (pad l) = pad (take i l ++ drop (S i) l).
Proof.
  rewrite /LEAFSET_SIZE. change (6 / 2)%nat with 3%nat. intros Hi.
  destruct l as [|a [|b [|c [|d l]]]]; simpl in Hi; [| | | |lia];
    destruct i as [|[|[|i]]]; solve [reflexivity | lia].
Qed.

Lemma leafset_insert_ok h right c s :
  route_ok s → host_ok s h →
  ∃ c' s', leafset_insert h right c s = (Ok c', s') ∧ route_ok s' ∧ me s' = me s ∧ leafset (negb right) s' = leafset (negb right) s.
Proof.
  intros Hs Hh. destruct (ok_leaves s Hs right) as (l & Hl & Hlen & Hok & Hsort).
  rewrite /leafset_insert bind_get. cbv zeta. rewrite Hl hosts_of_pad.
  step_ok (leafset_size_pad l s Hlen).
  destruct l as [|x l'] eqn:El; simpl hosts_of.
  - eexists _, _. split; [done|]. change (<[0%nat := Some h]> (pad [])) with (pad [h]).
    split; [|by destruct right]. apply set_leafset_ok; [done|simpl; lia|by constructor|by repeat constructor].
  - rewrite -El in Hl, Hlen, Hok, Hsort |- *.
    destruct (key_equal (h_key x) (h_key h)); [eexists _, _; split; [done|]; split; [by apply event_ok|done]|].
    destruct (insert_position _ _ _ _ _ _) as [i|] eqn:Ei;
      [|eexists _, _; split; [done|]; split; [by apply event_ok|done]].
    destruct (insert_position_spec right s h l 0 i (on_the_way right s h x) (ok_me s Hs) Hh Hok)
      as (k & -> & Hk & Ht & Hd); [rewrite El; by intros ? [= <-]|done|].
    pose proof (shift_in_pad k h l ltac:(lia)) as Hsh.
    destruct (shift_in _ _ _ _ _) as [p' tmp2]. simpl in Hsh. subst p'.
    eexists _, _. split; [done|]. split; [|by destruct right].
    apply set_leafset_ok; [done| | |].
    + rewrite length_take. apply Nat.le_min_l.
    + apply Forall_take, Forall_app. split; [by apply Forall_take|]. constructor; [done|by apply Forall_drop].
    + by apply take_sorted, insert_sorted.
Qed.

Lemma leafset_delete_ok h right c s :
  route_ok s →
  ∃ c' s', leafset_delete h right c s = (Ok c', s') ∧ route_ok s' ∧ me s' = me s ∧ leafset (negb right) s' = leafset (negb right) s.
Proof.
  intros Hs. destruct (ok_leaves s Hs right) as (l & Hl & Hlen & Hok & Hsort).
  rewrite /leafset_delete bind_get. cbv zeta. rewrite Hl hosts_of_pad.
  step_ok (leafset_size_pad l s Hlen).
  destruct (list_find _ l) as [[i x]|] eqn:Ef; [|by exists c, s].
  apply list_find_Some in Ef as (Hi & _ & _). apply lookup_lt_Some in Hi.
  eexists _, _. split; [done|]. rewrite -> close_hole_pad by lia. split; [|by destruct right].
  apply set_leafset_ok; [done| | |by apply delete_sorted].
  - rewrite length_app length_take length_drop. lia.
  - apply Forall_app. split; [by apply Forall_take|by apply Forall_drop].
Qed.

Lemma host_ok_me s s' h : me s' = me s → host_ok s h → host_ok s' h.
Proof. rewrite /host_ok. by intros ->. Qed.

Lemma leafset_update_ok h joined s :
  route_ok s → host_ok s h →
  ∃ c s', leafset_update h joined s = (Ok c, s') ∧ route_ok s' ∧ me s' = me s.
Proof.
  intros Hs Hh. destruct (ok_leaves s Hs false) as (ll & Hll & Hllen & _).
  destruct (ok_leaves s Hs true) as (lr & Hlr & Hrlen & _). simpl in Hll, Hlr.
  rewrite /leafset_update bind_get Hll Hlr. step_ok (leafset_size_pad ll s Hllen).
  step_ok (leafset_size_pad lr s Hrlen). cbv zeta. destruct joined.
  - assert (∀ (b : bool) c r s1, route_ok s1 → host_ok s1 h → ∃ c' s', (if b then leafset_insert h r c else mret c) s1 = (Ok c', s') ∧
      route_ok s' ∧ me s' = me s1) as Hins.
    { intros b c r s1 Hs1 Hh1. destruct b; [|by exists c, s1].
      destruct (leafset_insert_ok h r c s1 Hs1 Hh1) as (c' & s' & E & Hok & Hme & _). eauto. }
    match goal with |- context [if ?b then leafset_insert h true _ else _] =>
      destruct (Hins b (None, None) true s Hs Hh) as (c1 & s1 & E1 & Hs1 & Hm1) end. step_ok E1.
    match goal with |- context [if ?b then leafset_insert h false _ else _] =>
      destruct (Hins b c1 false s1 Hs1) as (c2 & s2 & E2 & Hs2 & Hm2); [by eapply host_ok_me|] end.
    exists c2, s2. split; [exact E2|]. split; [done|congruence].
  - destruct (key_between _ _ _).
    + destruct (leafset_delete_ok h true (None, None) s Hs) as (c & s' & E & Hok & Hm & _). eauto.
    + destruct (leafset_delete_ok h false (None, None) s Hs) as (c & s' & E & Hok & Hm & _). eauto.
Qed.

Lemma leafset_range_update_ok s :
  route_ok s → ∃ s', leafset_range_update s = (Ok tt, s') ∧ route_ok s' ∧ me s' = me s.
Proof.
  intros Hs. eexists. split; [rewrite /leafset_range_update bind_get; reflexivity|]. split; [|done].
  destruct (ok_leaves s Hs false) as (ll & Hll & _ & Hlok & _).
  destruct (ok_leaves s Hs true) as (lr & Hlr & _ & Hrok & _). simpl in Hll, Hlr.
  destruct Hs as [H1 H2 H3 [H4 H5]]. split; [done|done|done|]. simpl. rewrite Hll Hlr !hosts_of_pad. split.
  - destruct ll as [|x ll]; [done|]. apply Forall_cons in Hlok as [[? _] _]. done.
  - destruct (last lr) as [x|] eqn:El; [|done]. apply last_Some_elem_of in El.
    rewrite Forall_forall in Hrok. by destruct (Hrok x El).
Qed.

Lemma report_ok c s : route_ok s → ∃ s', report c s = (Ok tt, s') ∧ route_ok s' ∧ me s' = me s.
Proof.
  intros Hs. rewrite /report.
  assert (∀ (x : option host) b s, route_ok s → ∃ s', (match x with
    | Some d => leafset_range_update ;; modify (rg_event (Upcall d b))
    | None => mret tt end) s = (Ok tt, s') ∧ route_ok s' ∧ me s' = me s) as Hstep.
  { intros [d|] b s0 Hs0; [|by exists s0].
    destruct (leafset_range_update_ok s0 Hs0) as (s1 & E1 & Hs1 & Hm1).
    eexists. split; [by step_ok E1|]. split; [by apply event_ok|done]. }
  destruct (Hstep c.1 false s Hs) as (s1 & E1 & Hs1 & Hm1). step_ok E1.
  destruct (Hstep c.2 true s1 Hs1) as (s2 & E2 & Hs2 & Hm2). exists s2. split; [done|]. split; [done|congruence].
Qed.

Lemma entry_set s i j e i' j' :
  entry (rg_set_table (<[(i, j) := e]> (table s)) s) i' j' =
  if bool_decide ((i', j') = (i, j)) then e else entry s i' j'.
Proof.
  rewrite /entry /=. case_bool_decide as E; [by rewrite E lookup_insert_eq|].
  by rewrite lookup_insert_ne.
Qed.

Lemma set_entry_ok i j k x s :
  route_ok s →
  (∀ h, x = Some h → host_ok s h ∧ key_index (h_key (me s)) (h_key h) = i ∧ get_col (h_key h) i = j) →
  ∃ s', set_entry i j k x s = (Ok tt, s') ∧ route_ok s' ∧ me s' = me s.
Proof.
  intros [H1 H2 H3 H4] Hx. eexists. split; [done|]. split; [|done]. split; [done| |done|done].
  intros i' j'. rewrite entry_set. case_bool_decide as E; [|apply H2]. injection E as -> ->.
  destruct (H2 i j) as [Hlen He]. rewrite length_insert. split; [done|]. intros h Hh.
  apply list_elem_of_lookup_1 in Hh as [n Hn].
  destruct (decide (n = k)) as [->|Hne].
  - apply Hx. destruct (decide (k < length (entry s i j))%nat).
    + rewrite list_lookup_insert_eq // in Hn. by injection Hn.
    + apply lookup_lt_Some in Hn. rewrite length_insert in Hn. lia.
  - rewrite list_lookup_insert_ne // in Hn. apply He. by eapply list_elem_of_lookup_2.
Qed.

Section updates.
Context (success_avg latency : host_id → Z).

(** The end of [route_update], after the table was changed. *)
Lemma update_leaves_ok h joined s :
  route_ok s → host_ok s h →
  ∃ s', (c ← leafset_update h joined; report c) s = (Ok tt, s') ∧ route_ok s' ∧ me s' = me s.
Proof.
  intros Hs Hh. destruct (leafset_update_ok h joined s Hs Hh) as (c & s1 & E1 & Hs1 & Hm1).
  destruct (report_ok c s1 Hs1) as (s2 & E2 & Hs2 & Hm2).
  exists s2. split; [by step_ok E1|]. split; [done|congruence].
Qed.

(** A full entry has a worst host. *)
Lemma full_entry h e :
  length e = MAX_ENTRY → find_place h 0 e = inl None →
  ∃ x e' pick worst, e = Some x :: e' ∧ pick_worst success_avg 0 x 1 e' = Some (pick, worst).
Proof.
  rewrite /MAX_ENTRY. intros Hl Hf. destruct e as [|[x|] [|[y|] [|z e]]]; try done; simpl in Hf.
  - exists x, [Some y]. simpl. destruct (_ <? _); eauto.
  - by destruct (key_equal _ _).
Qed.

Lemma route_update_ok h joined s :
  route_ok s → key_ok (h_key h) →
  ∃ s', route_update success_avg h joined s = (Ok tt, s') ∧ route_ok s' ∧ me s' = me s.
Proof.
  intros Hs Hk. rewrite /route_update bind_get.
  destruct (key_equal (h_key (me s)) (h_key h)) eqn:Ee; [by exists s|].
  assert (host_ok s h) as Hh.
  { split; [done|]. intros E. rewrite -E in Ee.
    rewrite (proj2 (key_equal_spec (h_key h) (h_key h) Hk Hk)) // in Ee. }
  set (i := key_index _ _). set (j := get_col _ _). cbv zeta.
  destruct (ok_table s Hs i j) as [Hlen He].
  assert (∀ s1 k x, route_ok s1 → me s1 = me s → (∀ y, x = Some y → y = h) →
    ∃ s', (set_entry i j k x ;; c ← leafset_update h joined; report c) s1 = (Ok tt, s') ∧
      route_ok s' ∧ me s' = me s) as Hend.
  { intros s1 k x Hs1 Hm1 Hx. destruct (set_entry_ok i j k x s1 Hs1) as (s2 & E2 & Hs2 & Hm2).
    { intros y Hy. rewrite (Hx y Hy) Hm1. split; [by eapply host_ok_me|done]. }
    destruct (update_leaves_ok h joined s2 Hs2) as (s3 & E3 & Hs3 & Hm3); [apply (host_ok_me s); congruence|].
    exists s3. split; [by step_ok E2|]. split; [done|congruence]. }
  destruct joined.
  - destruct (find_place h 0 (entry s i j)) as [[k|]|] eqn:Ef; [| |by exists s].
    + apply (Hend (rg_event (HostGet h) s) k (Some h)); [by apply event_ok|done|congruence].
    + destruct (full_entry h _ Hlen Ef) as (x & e' & pick & worst & Hx & Hp). rewrite Hx Hp.
      apply (Hend (rg_event (HostGet h) (rg_event (HostRelease worst) s)) pick (Some h));
        [by do 2 apply event_ok|done|congruence].
  - destruct (list_find _ (entry s i j)) as [[k [x|]]|].
    + apply (Hend (rg_event (HostRelease x) s) k None); [by apply event_ok|done|done].
    + by apply update_leaves_ok.
    + by apply update_leaves_ok.
Qed.
End updates.

(** ** Prefixes of keys *)

(** Two keys agree in their first [n] digits. *)
Definition agree (n : Z) (k1 k2 : Key) : Prop := key_value k1 / 4 ^ (48 - n) = key_value k2 / 4 ^ (48 - n).

Lemma get_col_digit k i : key_ok k → 0 <= i < 48 → get_col k i = digit k i.
Proof. intros Hk Hi. by rewrite get_col_word // digit_word. Qed.

Lemma next_digit k n :
  0 <= n < 48 → key_value k / 4 ^ (48 - (n + 1)) = 4 * (key_value k / 4 ^ (48 - n)) + digit k n.
Proof.
  intros Hn. rewrite /digit. replace (48 - n) with ((47 - n) + 1) by lia.
  replace (48 - (n + 1)) with (47 - n) by lia. rewrite Z.pow_add_r; [lia..|].
  rewrite -Z.div_div; [by apply Z.pow_nonzero; lia|lia|]. change (4 ^ 1) with 4.
  apply Z.div_mod. lia.
Qed.

Lemma agree_next k1 k2 n : 0 <= n < 48 → agree (n + 1) k1 k2 ↔ agree n k1 k2 ∧ digit k1 n = digit k2 n.
Proof.
  intros Hn. rewrite /agree (next_digit k1 n Hn) (next_digit k2 n Hn).
  assert (∀ k, 0 <= digit k n < 4) as Hd by (intros k; apply Z.mod_pos_bound; lia).
  pose proof (Hd k1). pose proof (Hd k2). lia.
Qed.

(** The index of different keys is where they differ for the first time. *)
Lemma key_index_agree k1 k2 :
  key_ok k1 → key_ok k2 →
  0 <= key_index k1 k2 <= 47 ∧ agree (key_index k1 k2) k1 k2 ∧
  (k1 ≠ k2 → digit k1 (key_index k1 k2) ≠ digit k2 (key_index k1 k2)).
Proof.
  intros H1 H2. pose proof (key_index_int_bounds k1 k2 H1 H2) as Hb.
  destruct (raw_index_spec KEY_ARRAY_SIZE k1 k2 H1 H2) as [Hr Hp].
  pose proof (key_index_int_raw k1 k2 H1 H2) as Hraw. rewrite /key_index.
  set (i := key_index_int k1 k2) in *. change (16 * Z.of_nat KEY_ARRAY_SIZE) with 48 in Hr, Hp.
  assert (agree i k1 k2) as Hi by (apply (Hp i); lia).
  split; [done|]. split; [done|]. intros Hne Hd.
  assert (i + 1 <= raw_index KEY_ARRAY_SIZE k1 k2) as Hge.
  { apply (Hp (i + 1)); [lia|]. apply (agree_next k1 k2 i); [lia|done]. }
  assert (i = 47) as Hi47 by lia.
  apply Hne, key_value_inj; [done|done|].
  assert (agree 48 k1 k2) as Ha by (apply (agree_next k1 k2 47); [lia|by rewrite -Hi47]).
  rewrite /agree Z.sub_diag Z.pow_0_r !Z.div_1_r in Ha. done.
Qed.

(** ** Distances *)

Definition dist (key : Key) (h : host) : Z := key_value (distance_to key h).

Lemma dist_range key h : key_ok key → key_ok (h_key h) → 0 <= dist key h < 2 ^ 96.
Proof. intros Hk Hh. apply key_value_range. by destruct (key_distance_spec [] (h_key h) key Hh Hk). Qed.

Lemma closer_spec key x y :
  key_ok key → key_ok (h_key x) → key_ok (h_key y) →
  (key_comp (distance_to key y) (distance_to key x) <? 0) = true ↔ dist key y < dist key x.
Proof.
  intros Hk Hx Hy. destruct (key_distance_spec [] (h_key x) key Hx Hk) as [Ox _].
  destruct (key_distance_spec [] (h_key y) key Hy Hk) as [Oy _].
  rewrite Z.ltb_lt /distance_to key_comp_sgn // /dist /distance_to. lia.
Qed.

Lemma find_closest_spec key x l :
  key_ok key → key_ok (h_key x) → Forall (λ h, key_ok (h_key h)) l →
  let r := find_closest key x (distance_to key x) l in
  r ∈ x :: l ∧ Forall (λ y, dist key r <= dist key y) (x :: l) ∧ (r = x ∨ dist key r < dist key x).
Proof.
  intros Hk Hx Hl r. subst r. revert x Hx. induction l as [|y l IH]; intros x Hx; simpl.
  { split; [by left|]. split; [|by left]. constructor; [lia|done]. }
  apply Forall_cons in Hl as [Hy Hl].
  destruct (key_comp (distance_to key y) (distance_to key x) <? 0) eqn:Ec.
  - apply closer_spec in Ec; [|done..]. destruct (IH Hl y Hy) as (Hin & Hall & Hlt).
    apply Forall_cons in Hall as [Hry Hall].
    split; [by right|]. split; [|right; lia]. constructor; [lia|by constructor].
  - assert (dist key x <= dist key y) as Hxy.
    { apply Z.nlt_ge. intros Hlt. apply (closer_spec key x y) in Hlt; [congruence|done..]. }
    destruct (IH Hl x Hx) as (Hin & Hall & Hlt). apply Forall_cons in Hall as [Hrx Hall].
    split; [apply elem_of_cons in Hin as [->|Hin]; [by left|by right; right]|].
    split; [|done]. constructor; [done|]. constructor; [lia|done].
Qed.

(** ** Sorting *)

Section sorting.
Context (swap : host → host → bool) (rank : host → Z) (P : host → Prop).
Context (swap_rank : ∀ x y, P x → P y → swap y x = true ↔ rank y < rank x).

Lemma exchange_pass_spec x l m l' :
  Forall P (x :: l) → exchange_pass swap x l = (m, l') →
  m :: l' ≡ₚ x :: l ∧ Forall (λ y, rank m <= rank y) l'.
Proof.
  revert x m l'. induction l as [|y l IH]; intros x m l' HP E; simpl in E.
  { by injection E as <- <-. }
  apply Forall_cons in HP as [Hx HP]. apply Forall_cons in HP as [Hy HP].
  destruct (swap y x) eqn:Es.
  - destruct (exchange_pass swap y l) as [m1 l1] eqn:E1. injection E as <- <-.
    destruct (IH y m1 l1) as [Hp Hf]; [by constructor|done|]. apply swap_rank in Es; [|done..].
    assert (rank m1 <= rank y) as Hm.
    { assert (y ∈ m1 :: l1) as Hin by (rewrite Hp; by left). apply elem_of_cons in Hin as [->|Hin]; [lia|].
      rewrite Forall_forall in Hf. by apply Hf. }
    split; [|constructor; [lia|done]]. by rewrite Permutation_swap Hp.
  - destruct (exchange_pass swap x l) as [m1 l1] eqn:E1. injection E as <- <-.
    destruct (IH x m1 l1) as [Hp Hf]; [by constructor|done|].
    assert (rank x <= rank y) as Hxy.
    { apply Z.nlt_ge. intros Hlt. apply (swap_rank x y) in Hlt; [congruence|done..]. }
    assert (rank m1 <= rank x) as Hm.
    { assert (x ∈ m1 :: l1) as Hin by (rewrite Hp; by left). apply elem_of_cons in Hin as [->|Hin]; [lia|].
      rewrite Forall_forall in Hf. by apply Hf. }
    split; [|constructor; [lia|done]]. by rewrite Permutation_swap Hp Permutation_swap.
Qed.

Lemma exchange_sort_spec n l :
  (length l <= n)%nat → Forall P l →
  exchange_sort swap n l ≡ₚ l ∧ StronglySorted (λ x y, rank x <= rank y) (exchange_sort swap n l).
Proof.
  revert l. induction n as [|n IH]; intros [|x l] Hl HP; simpl in Hl |- *; try (by split; [|constructor]); [lia|].
  destruct (exchange_pass swap x l) as [m l'] eqn:E.
  destruct (exchange_pass_spec x l m l' HP E) as [Hp Hf].
  assert (length l' = length l) as Hlen. { apply Permutation_length in Hp. simpl in Hp. lia. }
  assert (Forall P l') as HP'. { rewrite -Hp in HP. by apply Forall_cons in HP as [_ ?]. }
  destruct (IH l' ltac:(lia) HP') as [Hp' Hs]. split; [by rewrite Hp'|].
  constructor; [done|]. by rewrite Hp'.
Qed.
End sorting.

(** The order of [sort_hosts]: longer common prefixes first, then nearer keys. *)
Definition rank (key : Key) (h : host) : Z := (47 - key_index key (h_key h)) * 2 ^ 96 + dist key h.

Lemma better_rank key x y :
  key_ok key → key_ok (h_key x) → key_ok (h_key y) →
  better key y x = true ↔ rank key y < rank key x.
Proof.
  intros Hk Hx Hy. pose proof (closer_spec key x y Hk Hx Hy) as Hc. rewrite /better /rank.
  pose proof (dist_range key x Hk Hx). pose proof (dist_range key y Hk Hy).
  destruct (Z.ltb_spec (key_index key (h_key x)) (key_index key (h_key y))); [split; [lia|done]|].
  destruct (Z.eqb_spec (key_index key (h_key x)) (key_index key (h_key y))) as [->|]; [rewrite Hc; lia|].
  split; [done|lia].
Qed.

(** [sort_hosts] permutes the hosts into the order of its comment: a longer
    common prefix with the key first, the nearer key first among equals;
    [sort_hosts_key] orders by the distance alone. *)
Theorem sort_hosts_sorts (hosts : list host) (key : Key) :
  key_ok key → Forall (λ h, key_ok (h_key h)) hosts →
  (sort_hosts hosts key ≡ₚ hosts ∧
   StronglySorted (λ x y, key_index key (h_key y) < key_index key (h_key x) ∨
     key_index key (h_key x) = key_index key (h_key y) ∧ dist key x <= dist key y) (sort_hosts hosts key)) ∧
  sort_hosts_key hosts key ≡ₚ hosts ∧
  StronglySorted (λ x y, dist key x <= dist key y) (sort_hosts_key hosts key).
Proof.
  intros Hk Hh. split.
  - destruct (exchange_sort_spec (better key) (rank key) (λ h, key_ok (h_key h))) with (n := length hosts) (l := hosts)
      as [Hp Hs]; [intros x y; by apply better_rank|done|done|].
    split; [done|]. rewrite /sort_hosts. rewrite -Hp in Hh. revert Hh Hs.
    generalize (exchange_sort (better key) (length hosts) hosts). intros l Hl Hs.
    induction Hs as [|x l Hs IH Hx]; [constructor|]. apply Forall_cons in Hl as [Hxk Hl].
    constructor; [by apply IH|]. rewrite Forall_forall in Hx. rewrite Forall_forall in Hl. apply Forall_forall. intros y Hy.
    specialize (Hx y Hy). rewrite /rank in Hx.
    pose proof (dist_range key x Hk Hxk). pose proof (dist_range key y Hk (Hl y Hy)). lia.
  - apply (exchange_sort_spec (nearer key) (dist key) (λ h, key_ok (h_key h))); [|done|done].
    intros x y Hx Hy. by apply closer_spec.
Qed.

Lemma sort_hosts_sorts_witness :
  let far := {| h_id := (1, 80); h_key := [0; 0; 2 ^ 30] |} in
  let near := {| h_id := (2, 80); h_key := [0; 0; 1] |} in
  sort_hosts [far; near] [0; 0; 0] ≡ₚ [far; near] ∧ sort_hosts [far; near] [0; 0; 0] = [near; far].
Proof.
  split; [|vm_compute; reflexivity].
  apply sort_hosts_sorts; [apply words_ok; lia|]. repeat constructor; simpl; lia.
Defined.

(** ** The next hop *)

(** The column of this node's own digit is empty in every row. *)
Lemma own_column_empty s i x :
  route_ok s → Some x ∈ entry s i (get_col (h_key (me s)) i) → False.
Proof.
  intros Hs Hx. destruct (ok_table s Hs i (get_col (h_key (me s)) i)) as [_ He].
  destruct (He x Hx) as ([Hk Hne] & Hi & Hc).
  destruct (key_index_agree (h_key (me s)) (h_key x) (ok_me s Hs) Hk) as (Hb & _ & Hd).
  rewrite Hi in Hb, Hd. apply Hd; [done|].
  pose proof (get_col_digit (h_key (me s)) i (ok_me s Hs) ltac:(lia)).
  pose proof (get_col_digit (h_key x) i Hk ltac:(lia)). congruence.
Qed.

Lemma get_col_range k i : key_ok k → 0 <= i < 48 → 0 <= get_col k i < 4.
Proof. intros Hk Hi. rewrite get_col_digit //. by apply Z.mod_pos_bound. Qed.

Lemma omap_id_length {A} (l : list (option A)) : (length (omap id l) <= length l)%nat.
Proof. induction l as [|[x|] l IH]; csimpl; lia. Qed.

(** So at most three columns of a row have hosts. *)
Lemma row_bound s i : route_ok s → 0 <= i < 48 → zlen (row s i) <= 6.
Proof.
  intros Hs Hi. pose proof (get_col_range (h_key (me s)) i (ok_me s Hs) Hi) as Hc.
  assert (omap id (entry s i (get_col (h_key (me s)) i)) = []) as He.
  { destruct (omap id (entry s i _)) as [|x l] eqn:E; [done|]. exfalso.
    assert (x ∈ omap id (entry s i (get_col (h_key (me s)) i))) as Hx by (rewrite E; by left).
    apply list_elem_of_omap in Hx as (y & Hy & Hxy). simpl in Hxy. subst y. by eapply own_column_empty. }
  assert (∀ j, (length (omap id (entry s i j)) <= 2)%nat) as Hl.
  { intros j. pose proof (omap_id_length (entry s i j)) as H. destruct (ok_table s Hs i j) as [E _].
    rewrite E /MAX_ENTRY in H. done. }
  rewrite /row /zlen. change (seqZ 0 MAX_COL) with [0; 1; 2; 3]. simpl. rewrite !length_app /=.
  pose proof (Hl 0). pose proof (Hl 1). pose proof (Hl 2). pose proof (Hl 3).
  assert (get_col (h_key (me s)) i = 0 ∨ get_col (h_key (me s)) i = 1 ∨ get_col (h_key (me s)) i = 2 ∨
    get_col (h_key (me s)) i = 3) as Hcases by lia.
  destruct Hcases as [E|[E|[E|E]]]; rewrite E in He; rewrite He /=; lia.
Qed.

Section lookup.
Context (success_avg latency : host_id → Z).
Abbreviation usable := (usable success_avg).

(** The hosts [route_lookup] considers besides the matching entry. *)
Definition candidates (s : RouteGlobal) (key : Key) : list host :=
  (hosts_of (leftleafset s) ++ hosts_of (rightleafset s)) ++
  filter (λ h, usable h = true) (row s (key_index (h_key (me s)) key)).

Lemma row_ok s i x : route_ok s → x ∈ row s i → key_ok (h_key x).
Proof.
  intros Hs Hx. rewrite /row in Hx. apply list_elem_of_join in Hx as (l & Hx & Hl).
  apply list_elem_of_fmap in Hl as (j & -> & _). simpl in Hx.
  apply list_elem_of_omap in Hx as (y & Hy & Hxy). simpl in Hxy. subst y.
  destruct (ok_table s Hs i j) as [_ He]. by destruct (He x Hy) as [[? _] _].
Qed.

Lemma leaves_ok s :
  route_ok s →
  (∀ st, leafset_size (leftleafset s) st = (Ok (length (hosts_of (leftleafset s))), st)) ∧
  (∀ st, leafset_size (rightleafset s) st = (Ok (length (hosts_of (rightleafset s))), st)) ∧
  Forall (λ h, key_ok (h_key h)) (hosts_of (leftleafset s) ++ hosts_of (rightleafset s)) ∧
  zlen (hosts_of (leftleafset s) ++ hosts_of (rightleafset s)) <= 6.
Proof.
  intros Hs. destruct (ok_leaves s Hs false) as (ll & Hll & Hllen & Hlok & _).
  destruct (ok_leaves s Hs true) as (lr & Hlr & Hrlen & Hrok & _). simpl in Hll, Hlr.
  rewrite Hll Hlr !hosts_of_pad. split; [intros; by apply leafset_size_pad|].
  split; [intros; by apply leafset_size_pad|]. split.
  - apply Forall_app. split; (eapply Forall_impl; [eassumption|]); by intros x [? _].
  - rewrite zlen_app /zlen. change (LEAFSET_SIZE / 2)%nat with 3%nat in Hllen, Hrlen. lia.
Qed.

Lemma candidates_ok s key :
  route_ok s → key_ok key →
  Forall (λ h, key_ok (h_key h)) (candidates s key) ∧ zlen (candidates s key) <= 12.
Proof.
  intros Hs Hk. destruct (leaves_ok s Hs) as (_ & _ & Hok & Hlen).
  destruct (key_index_agree (h_key (me s)) key (ok_me s Hs) Hk) as (Hi & _).
  rewrite /candidates. split.
  - apply Forall_app. split; [done|]. apply Forall_forall. intros x Hx.
    apply list_elem_of_filter in Hx as [_ Hx]. by eapply row_ok.
  - rewrite zlen_app. set (i := key_index (h_key (me s)) key) in *.
    pose proof (row_bound s i Hs ltac:(lia)) as Hr.
    assert (zlen (filter (λ h, usable h = true) (row s i)) <= zlen (row s i)) as Hf; [|lia].
    rewrite /zlen. apply inj_le, length_filter.
Qed.

Lemma best_of_entry_spec e h :
  best_of_entry success_avg latency e = Some h → Some h ∈ e ∧ usable h = true.
Proof.
  rewrite /best_of_entry. intros Hb.
  destruct (head (filter (λ h, usable h = true) (omap id e))) as [t|] eqn:Ht; [|done]. injection Hb as <-.
  assert (t ∈ filter (λ h, usable h = true) (omap id e)) as Hin by (by apply head_Some_elem_of in Ht).
  apply list_elem_of_filter in Hin as [Hu Hin].
  assert (∀ l t, usable t = true → (∀ x, x ∈ l → x ∈ omap id e) → t ∈ omap id e →
    let r := foldl (λ tmp x, if better_link success_avg latency x tmp then x else tmp) t l in
    r ∈ omap id e ∧ usable r = true) as Hfold.
  { intros l. induction l as [|x l IH]; intros t0 Hu0 Hl Hin0; simpl; [done|]. apply IH.
    - destruct (better_link _ _ x t0) eqn:Eb; [|done]. rewrite /better_link /Route.usable in Eb, Hu0 |- *. lia.
    - intros y Hy. apply Hl. by right.
    - destruct (better_link _ _ x t0); [|done]. apply Hl. by left. }
  destruct (Hfold (omap id e) t Hu ltac:(done) Hin) as [Hr Hur]. split; [|done].
  apply list_elem_of_omap in Hr as (y & Hy & Hxy). simpl in Hxy. by subst y.
Qed.

Lemma take_different_ok count l : ∀ ret s, ∃ r s', take_different count l ret s = (Ok r, s').
Proof.
  induction l as [|x l IH]; intros ret s; simpl; [by eexists _, _|].
  destruct (zlen ret <? count); [|by eexists _, _].
  destruct (match last ret with Some y => key_equal (h_key y) (h_key x) | None => false end); [apply IH|].
  destruct (IH (ret ++ [x]) (rg_event (HostGet x) s)) as (r & s' & E). exists r, s'. exact E.
Qed.

(** The first part of [route_lookup]: the sizes are read, the rest depends on
    the leafset range, the matching entry and the candidates. *)
Lemma route_lookup_eq key count s :
  route_ok s → key_ok key →
  let i := key_index (h_key (me s)) key in
  route_lookup success_avg latency key count s =
  (if (count =? 1) && key_between key (Lrange s) (Rrange s) then
     mret (option_list (find_closest_key key (me s :: hosts_of (leftleafset s) ++ hosts_of (rightleafset s))))
   else
     match best_of_entry success_avg latency (entry s i (get_col key i)), count =? 1 with
     | Some tmp, true => host_get tmp ;; mret [tmp]
     | _, _ =>
         if count =? 1 then
           match find_closest_key key (me s :: candidates s key) with
           | Some r =>
               mret [if key_equal (key_distance [] key (h_key r)) (key_distance [] key (h_key (me s))) then me s else r]
           | None => mret []
           end
         else take_different count (sort_hosts (me s :: candidates s key) key) []
     end) s.
Proof.
  intros Hs Hk i. destruct (leaves_ok s Hs) as (Hl & Hr & _). destruct (candidates_ok s key Hs Hk) as [_ Hlen].
  rewrite /route_lookup bind_get. step_ok (Hl s). step_ok (Hr s). cbv zeta. fold i.
  rewrite -/(candidates s key).
  rewrite (proj2 (Z.leb_gt bnh_size (zlen (me s :: candidates s key)))); [|done].
  change bnh_size with 15. rewrite zlen_cons. lia.
Qed.

Lemma distance_sym key x y :
  key_ok key → key_ok x → key_ok y →
  key_equal (key_distance [] key x) (key_distance [] key y) = true ↔
  key_value (key_distance [] x key) = key_value (key_distance [] y key).
Proof.
  intros Hk Hx Hy. destruct (key_distance_spec [] key x Hk Hx) as [O1 V1].
  destruct (key_distance_spec [] key y Hk Hy) as [O2 V2].
  destruct (key_distance_spec [] x key Hx Hk) as [_ V3]. destruct (key_distance_spec [] y key Hy Hk) as [_ V4].
  assert (∀ a b, Z.abs (a - b) = Z.abs (b - a)) as Habs by lia.
  cbv zeta in *. rewrite Habs in V3. rewrite Habs in V4.
  rewrite key_equal_spec // V3 V4 -V1 -V2. split; [by intros ->|by apply key_value_inj].
Qed.

(** The three ways a next hop is chosen. *)
Lemma next_hop key s :
  route_ok s → key_ok key →
  ∃ h s', route_lookup success_avg latency key 1 s = (Ok [h], s') ∧
    (h = me s ∨ dist key h < dist key (me s) ∨
     Some h ∈ entry s (key_index (h_key (me s)) key) (get_col key (key_index (h_key (me s)) key)) ∧ usable h = true).
Proof.
  intros Hs Hk. rewrite route_lookup_eq //. cbv zeta. rewrite Z.eqb_refl /=.
  destruct (leaves_ok s Hs) as (_ & _ & Hlok & _). destruct (candidates_ok s key Hs Hk) as [Hcok _].
  destruct (key_between key (Lrange s) (Rrange s)).
  - destruct (find_closest_spec key (me s) _ Hk (ok_me s Hs) Hlok) as (_ & _ & Hr).
    eexists _, s. split; [done|]. tauto.
  - destruct (best_of_entry _ _ _) as [h|] eqn:Eb.
    + apply best_of_entry_spec in Eb. eexists h, _. split; [done|]. tauto.
    + destruct (find_closest_spec key (me s) _ Hk (ok_me s Hs) Hcok) as (Hin & _ & Hr).
      eexists _, s. split; [done|]. cbn [find_closest_key].
      destruct (key_equal _ _); [by left|]. tauto.
Qed.
End lookup.

Lemma updates_ok success_avg updates s :
  route_ok s → Forall (λ u : host * bool, key_ok (h_key u.1)) updates →
  ∃ s', for_each updates (λ u, route_update success_avg u.1 u.2) s = (Ok tt, s') ∧ me s' = me s ∧ route_ok s'.
Proof.
  intros Hs Hu. revert s Hs. induction Hu as [|[h b] l Hh _ IH]; intros s Hs; [by exists s|].
  destruct (route_update_ok success_avg h b s Hs Hh) as (s1 & E1 & Hs1 & Hm1).
  destruct (IH s1 Hs1) as (s2 & E2 & Hm2 & Hs2). exists s2. split; [simpl; by step_ok E1|].
  split; [congruence|done].
Qed.

(** C15: the state of the routing table and the leafsets stays well formed
    under every update: no operation runs behind the end of an array, a host
    in the table is in the row of its common prefix with this node and in the
    column of its next digit, and the leafsets are arrays of at most three
    hosts in the order of their distance in either direction. *)
Theorem route_update_sound (success_avg : host_id → Z) (node : host) (updates : list (host * bool)) :
  key_ok (h_key node) → Forall (λ u : host * bool, key_ok (h_key u.1)) updates →
  ∃ s, for_each updates (λ u, route_update success_avg u.1 u.2) (route_init node) = (Ok tt, s) ∧
    me s = node ∧ route_ok s.
Proof. intros Hn Hu. apply (updates_ok success_avg updates (route_init node)); [by apply route_init_ok|done]. Qed.

(** Five hosts join a node, one of them leaves. *)
Definition sample_host (n : Z) : host := {| h_id := (n, 80); h_key := [0; 0; n * 2 ^ 27] |}.
Definition sample_updates : list (host * bool) :=
  [(sample_host 1, true); (sample_host 30, true); (sample_host 9, true); (sample_host 10, true);
   (sample_host 2, true); (sample_host 9, false)].

Lemma sample_updates_ok : Forall (λ u : host * bool, key_ok (h_key u.1)) sample_updates.
Proof. repeat constructor; simpl; lia. Qed.
Lemma sample_host_ok : key_ok (h_key (sample_host 0)).
Proof. apply words_ok; simpl; lia. Qed.

Lemma route_update_sound_witness :
  ∃ s, for_each sample_updates (λ u, route_update (λ _, 14) u.1 u.2) (route_init (sample_host 0)) = (Ok tt, s) ∧
    me s = sample_host 0 ∧ route_ok s.
Proof. apply (route_update_sound (λ _, 14)); [apply sample_host_ok|apply sample_updates_ok]. Defined.

(** C14: every lookup returns without leaving an array, and the next hop for one
    key makes progress: it is this node, or a node nearer to the key, or a node
    that agrees with the key in one more digit than this node does. *)
Theorem route_lookup_progresses (success_avg latency : host_id → Z) (s : RouteGlobal) (key : Key) :
  route_ok s → key_ok key →
  (∀ count, ∃ r s', route_lookup success_avg latency key count s = (Ok r, s')) ∧
  ∃ h s', route_lookup success_avg latency key 1 s = (Ok [h], s') ∧
    (h = me s ∨ dist key h < dist key (me s) ∨
     ∃ i, 0 <= i < 48 ∧ agree (i + 1) (h_key h) key ∧ ¬ agree (i + 1) (h_key (me s)) key).
Proof.
  intros Hs Hk. split.
  - intros count. rewrite route_lookup_eq //. cbv zeta.
    destruct ((count =? 1) && key_between key (Lrange s) (Rrange s)); [by eexists _, _|].
    destruct (best_of_entry _ _ _), (count =? 1); (by apply take_different_ok) || by eexists _, _.
  - destruct (next_hop success_avg latency key s Hs Hk) as (h & s' & E & Hh). exists h, s'. split; [done|].
    destruct Hh as [->|[Hd|[Hin _]]]; [by left|by right; left|]. right. right.
    destruct (key_index_agree (h_key (me s)) key (ok_me s Hs) Hk) as (Hi & Ha & Hd).
    set (i := key_index (h_key (me s)) key) in *. exists i.
    destruct (ok_table s Hs i (get_col key i)) as [_ He]. destruct (He h Hin) as ([Hhk Hne] & Hih & Hc).
    destruct (key_index_agree (h_key (me s)) (h_key h) (ok_me s Hs) Hhk) as (_ & Hah & _). rewrite Hih in Hah.
    rewrite (get_col_digit (h_key h) i Hhk ltac:(lia)) (get_col_digit key i Hk ltac:(lia)) in Hc.
    split; [lia|]. split; [apply agree_next; [lia|]; split; [by rewrite /agree -Hah|done]|].
    intros Hn. apply agree_next in Hn as [_ Hn]; [|lia]. destruct (decide (h_key (me s) = key)) as [Heq|Hneq].
    + apply (own_column_empty s i h Hs). rewrite Heq. done.
    + by apply Hd.
Qed.

Lemma route_lookup_progresses_witness :
  ∃ s, for_each sample_updates (λ u, route_update (λ _, 14) u.1 u.2) (route_init (sample_host 0)) = (Ok tt, s) ∧
  ∃ h s', route_lookup (λ _, 14) (λ _, 0) [0; 0; 11 * 2 ^ 27] 1 s = (Ok [h], s') ∧
    (h = me s ∨ dist [0; 0; 11 * 2 ^ 27] h < dist [0; 0; 11 * 2 ^ 27] (me s) ∨
     ∃ i, 0 <= i < 48 ∧ agree (i + 1) (h_key h) [0; 0; 11 * 2 ^ 27] ∧
       ¬ agree (i + 1) (h_key (me s)) [0; 0; 11 * 2 ^ 27]).
Proof.
  destruct (updates_ok (λ _, 14) sample_updates (route_init (sample_host 0))) as (s & E & _ & Hs);
    [apply route_init_ok, sample_host_ok|apply sample_updates_ok|]. exists s. split; [exact E|].
  apply (route_lookup_progresses (λ _, 14) (λ _, 0) s [0; 0; 11 * 2 ^ 27] Hs). apply words_ok; lia.
Defined.

(** ** A host that leaves *)

Lemma ring_key_equal_refl k : key_ok k → key_equal k k = true.
Proof. intros Hk. by apply key_equal_spec. Qed.

Lemma key_equal_ne k1 k2 : key_ok k1 → key_ok k2 → k1 ≠ k2 → key_equal k1 k2 = false.
Proof. intros H1 H2 Hne. apply not_true_is_false. by rewrite key_equal_spec. Qed.

Lemma key_between_edge t l : key_ok t → key_ok l → key_between t l t = true.
Proof. intros Ht Hl. apply key_between_spec; [done..|]. tauto. Qed.

(** The first host that joins is in both leafsets. *)
Lemma first_join success_avg node h :
  key_ok (h_key node) → key_ok (h_key h) → h_key h ≠ h_key node →
  ∃ s, route_update success_avg h true (route_init node) = (Ok tt, s) ∧ me s = node ∧
    leftleafset s = pad [h] ∧ rightleafset s = pad [h] ∧ Rrange s = h_key h ∧ Lrange s = h_key h.
Proof.
  intros Hn Hh Hne. rewrite /route_update bind_get /=. rewrite -> key_equal_ne by (done || congruence).
  rewrite /entry lookup_empty. eexists. split; [reflexivity|]. done.
Qed.

(** When it leaves, one of them keeps it. *)
Lemma first_leave success_avg node h s :
  me s = node → leftleafset s = pad [h] → rightleafset s = pad [h] → Rrange s = h_key h →
  key_ok (h_key node) → key_ok (h_key h) → h_key h ≠ h_key node →
  ∃ s', route_update success_avg h false s = (Ok tt, s') ∧ me s' = node ∧ Rrange s' = h_key h ∧
    (leftleafset s' = pad [h] ∧ rightleafset s' = pad [] ∧ Lrange s' = h_key h ∨
     leftleafset s' = pad [] ∧ rightleafset s' = pad [h] ∧ Lrange s' = h_key node).
Proof.
  intros Hm Hl Hr HR Hn Hh Hne. rewrite /route_update bind_get Hm. rewrite -> key_equal_ne by (done || congruence).
  set (i := key_index _ _). set (j := get_col _ _). cbv zeta.
  assert (∀ s0, me s0 = node → leftleafset s0 = pad [h] → rightleafset s0 = pad [h] → Rrange s0 = h_key h →
    ∃ s', (c ← leafset_update h false; report c) s0 = (Ok tt, s') ∧ me s' = node ∧ Rrange s' = h_key h ∧
    (leftleafset s' = pad [h] ∧ rightleafset s' = pad [] ∧ Lrange s' = h_key h ∨
     leftleafset s' = pad [] ∧ rightleafset s' = pad [h] ∧ Lrange s' = h_key node)) as Hend.
  { intros s0 Hm0 Hl0 Hr0 HR0. rewrite /leafset_update {1}/mbind /M_bind bind_get Hl0 Hr0.
    destruct s0 as [m0 t0 l0 r0 R0 L0 e0]. simpl in *. subst.
    destruct (key_between _ _ _);
      rewrite /leafset_delete /= /mbind /M_bind /=; rewrite ring_key_equal_refl //=.
    - eexists. split; [reflexivity|]. simpl. tauto.
    - eexists. split; [reflexivity|]. simpl. tauto. }
  destruct (list_find _ (entry s i j)) as [[k [x|]]|].
  - apply (Hend (rg_set_table (<[(i, j) := <[k := None]> (entry (rg_event (HostRelease x) s) i j)]> (table s))
      (rg_event (HostRelease x) s))); done.
  - by apply Hend.
  - by apply Hend.
Qed.

Lemma find_closest_self node h :
  key_ok (h_key node) → key_ok (h_key h) → h_key h ≠ h_key node →
  Z.abs (key_value (h_key node) - key_value (h_key h)) ≠ 2 ^ 96 - 1 →
  find_closest_key (h_key h) [node; h] = Some h.
Proof.
  intros Hn Hh Hne Hq. simpl.
  assert (dist (h_key h) h < dist (h_key h) node) as Hlt.
  { rewrite /dist /distance_to. destruct (key_distance_spec [] (h_key h) (h_key h) Hh Hh) as [_ ->].
    destruct (key_distance_spec [] (h_key node) (h_key h) Hn Hh) as [_ ->]. cbv zeta. rewrite Z.sub_diag.
    pose proof (key_value_range _ Hn). pose proof (key_value_range _ Hh).
    assert (key_value (h_key node) ≠ key_value (h_key h)) by (intros E; apply Hne; symmetry; by apply key_value_inj).
    change (2 ^ 95 <=? Z.abs 0) with false. cbv iota.
    destruct (Z.leb_spec (2 ^ 95) (Z.abs (key_value (h_key node) - key_value (h_key h)))); lia. }
  apply (closer_spec (h_key h) node h) in Hlt; [|done..]. by rewrite Hlt.
Qed.

(** C39: a host that leaves stays a next hop: the first host that joins enters
    both leafsets, the update for its departure removes it from one of them,
    and messages for its key are still routed to it. *)
Theorem left_host_stays (success_avg latency : host_id → Z) (node h : host) :
  key_ok (h_key node) → key_ok (h_key h) → h_key h ≠ h_key node →
  Z.abs (key_value (h_key node) - key_value (h_key h)) ≠ 2 ^ 96 - 1 →
  ∃ s, for_each [(h, true); (h, false)] (λ u, route_update success_avg u.1 u.2) (route_init node) = (Ok tt, s) ∧
    h ∈ hosts_of (leftleafset s) ++ hosts_of (rightleafset s) ∧
    route_lookup success_avg latency (h_key h) 1 s = (Ok [h], s).
Proof.
  intros Hn Hh Hne Hq. destruct (first_join success_avg node h Hn Hh Hne) as (s1 & E1 & Hm1 & Hl1 & Hr1 & HR1 & _).
  destruct (first_leave success_avg node h s1 Hm1 Hl1 Hr1 HR1 Hn Hh Hne) as (s2 & E2 & Hm2 & HR2 & Hcase).
  exists s2. split; [by simpl; step_ok E1; step_ok E2|].
  assert (hosts_of (leftleafset s2) ++ hosts_of (rightleafset s2) = [h] ∧
    key_between (h_key h) (Lrange s2) (Rrange s2) = true ∧
    (∃ n, null_index (leftleafset s2) = Some n) ∧ ∃ n, null_index (rightleafset s2) = Some n)
    as (Hhosts & Hb & [nl Hnl] & [nr Hnr]).
  { destruct Hcase as [(-> & -> & ->)|(-> & -> & ->)]; rewrite HR2 !hosts_of_pad;
      (split; [done|]); (split; [by apply key_between_edge|]); split; by eexists. }
  split; [rewrite Hhosts; by left|].
  rewrite /route_lookup bind_get /leafset_size Hnl Hnr.
  assert (∀ (k : nat → M RouteGlobal (list host)) n, (mret n ≫= k) s2 = k n s2) as Hret by done.
  rewrite !Hret Hhosts Hb Hm2 Z.eqb_refl find_closest_self //.
Qed.

Lemma left_host_stays_witness :
  ∃ s, for_each [(sample_host 30, true); (sample_host 30, false)] (λ u, route_update (λ _, 14) u.1 u.2)
      (route_init (sample_host 0)) = (Ok tt, s) ∧
    sample_host 30 ∈ hosts_of (leftleafset s) ++ hosts_of (rightleafset s) ∧
    route_lookup (λ _, 14) (λ _, 0) (h_key (sample_host 30)) 1 s = (Ok [sample_host 30], s).
Proof.
  apply (left_host_stays (λ _, 14) (λ _, 0)); [apply sample_host_ok|apply words_ok; simpl; lia|done|done].
Defined.
