(* ===== verification/Discovery.v ===== *)
(** * Discovery of multicast routers

    [modules/ipm/src/discovery]: the packet sniffers with which the module ipm
    looks for the IGMP or MLD router of an interface.  [basic_dis] drives
    libpcap and hands every captured packet to the filter of its subclass
    ([igmp_dis], [mld_dis]); the first packet a filter accepts tells the
    version of the protocol and the address of the router.  [dis_tank_item]
    runs the sniffers of an interface and collects what they found, and
    [service_discovery] turns it into the interfaces the module is to create.

    A captured packet is the list of its bytes, and a read behind its end is
    undefined behaviour.  libpcap, the sockets and the flags of an interface
    appear through their answers. *)

From S2P Require Import Prelude Uri Ipm.

Definition AF_INET : Z := 2.
Definition AF_INET6 : Z := 10.
Definition SIZE_ETHERNET : Z := 14.
Definition IFF_UP : Z := 1.
Definition IFF_LOOPBACK : Z := 8.
Definition IFF_POINTOPOINT : Z := 16.
Definition IFF_RUNNING : Z := 64.
Definition IFF_MULTICAST : Z := 4096.
Definition IPPROTO_IGMP : Z := 2.
Definition IPPROTO_ICMPV6 : Z := 58.
Definition IPPROTO_NONE : Z := 59.
Definition IGMP_MEMBERSHIP_QUERY : Z := 17.
Definition IGMP_V2_MEMBERSHIP_REPORT : Z := 22.
Definition IGMP_MINLEN : Z := 8.
Definition MLD_LISTENER_QUERY : Z := 130.
Definition MLDv1_HDR_SIZE : Z := 24.
Definition MLD2_MIN_HDR_SIZE : Z := 28.
Definition IP6_HDR_SIZE : Z := 40.
Definition PACKET_LEN : Z := 100.

(** [IGMP_IPV4_MULTICAST_TEST_GROUP_ADDR] ("238.99.99.99"), [IPV4_ALL_HOST_ADDR]
    ("224.0.0.1"), [MLD_IPV6_MULTICAST_TEST_GROUP_ADDR] ("FF02::99:99:99:99")
    and [IPV6_ALL_NODES_ADDR] ("ff02::1") in network byte order. *)
Definition IGMP_TEST_GROUP : bytes := z2b <$> [238; 99; 99; 99].
Definition IPV4_ALL_HOST : bytes := z2b <$> [224; 0; 0; 1].
Definition MLD_TEST_GROUP : bytes := z2b <$> [255; 2; 0; 0; 0; 0; 0; 0; 0; 153; 0; 153; 0; 153; 0; 153].
Definition IPV6_ALL_NODES : bytes := z2b <$> [255; 2; 0; 0; 0; 0; 0; 0; 0; 0; 0; 0; 0; 0; 0; 1].

(** ** Protocols *)

Inductive dis_proto_type :=
  | INIT_PROTO | IGMPvX | IGMPv1 | IGMPv2 | IGMPv3 | MLDvX | MLDv1 | MLDv2
  | PIMv1 | PIMv2 | NTPv1 | NTPv2 | DVMRP.
#[export] Instance dis_proto_type_eq_dec : EqDecision dis_proto_type.
Proof. solve_decision. Defined.

Definition protoResolver (i : dis_proto_type) : bytes :=
  match i with
  | INIT_PROTO => str "INIT_PROTO"
  | IGMPvX => str "IGMPvX" | IGMPv1 => str "IGMPv1" | IGMPv2 => str "IGMPv2" | IGMPv3 => str "IGMPv3"
  | MLDvX => str "MLDvX" | MLDv1 => str "MLDv1" | MLDv2 => str "MLDv2"
  | PIMv1 => str "PIMv1" | PIMv2 => str "PIMv2" | NTPv1 => str "NTPv1" | NTPv2 => str "NTPv2"
  | DVMRP => str "ERROR"
  end.

Inductive filter_type := ACTIVE | PASSIVE | INIT_FILTER.

(** [struct sockaddr_storage]: the family and the bytes of the address. *)
Record sockaddr := { ss_family : Z; sa_addr : bytes }.
Definition sockaddr_zero : sockaddr := {| ss_family := 0; sa_addr := replicate 16 NUL |}.

Record dis_proto := { m_type : dis_proto_type; m_hostAddr : sockaddr; m_rawData : bytes; m_rawData_size : Z }.
Definition dis_proto_new : dis_proto :=
  {| m_type := INIT_PROTO; m_hostAddr := sockaddr_zero; m_rawData := []; m_rawData_size := 0 |}.
Definition setType (t : dis_proto_type) (p : dis_proto) : dis_proto :=
  {| m_type := t; m_hostAddr := m_hostAddr p; m_rawData := m_rawData p; m_rawData_size := m_rawData_size p |}.
Definition setHostAddr (a : sockaddr) (p : dis_proto) : dis_proto :=
  {| m_type := m_type p; m_hostAddr := a; m_rawData := m_rawData p; m_rawData_size := m_rawData_size p |}.
Definition set_rawData (d : bytes) (n : Z) (p : dis_proto) : dis_proto :=
  {| m_type := m_type p; m_hostAddr := m_hostAddr p; m_rawData := d; m_rawData_size := n |}.
Definition hasRawData (p : dis_proto) : bool := 0 <? m_rawData_size p.

(** [savePacketRawData]: [rawData] is what of the buffer lies behind the
    pointer.  The size is stored before the allocation, which throws for a
    negative size. *)
Definition savePacketRawData (rawData : bytes) (size : Z) : M dis_proto unit :=
  modify (λ p, set_rawData (m_rawData p) size p) ;;
  if size <? 0 then throw (runtime_error "bad_alloc")
  else if zlen rawData <? size then ub "memcpy behind the captured packet"
  else modify (set_rawData (ztake size rawData) size).

(** ** The capture device

    [m_handle] is valid while [m_init_done]; [ps_handles] and [ps_codes] count
    the handles and the compiled filters that libpcap has given out. *)

Record pcap_sniffer := { m_init_done : bool; m_filterAllocated : bool; ps_handles : Z; ps_codes : Z }.
Definition pcap_new : pcap_sniffer :=
  {| m_init_done := false; m_filterAllocated := false; ps_handles := 0; ps_codes := 0 |}.

Definition init_pcapSniffer (lookupnet open_live : bool) : M pcap_sniffer bool :=
  if negb lookupnet then mret false
  else if negb open_live then mret false
  else
    modify (λ s, {| m_init_done := true; m_filterAllocated := m_filterAllocated s;
                    ps_handles := ps_handles s + 1; ps_codes := ps_codes s |}) ;;
    mret true.

Definition close_pcapSniffer : M pcap_sniffer unit :=
  modify (λ s, {| m_init_done := false; m_filterAllocated := false;
                  ps_handles := if m_init_done s then ps_handles s - 1 else ps_handles s;
                  ps_codes := if m_init_done s && m_filterAllocated s then ps_codes s - 1 else ps_codes s |}).

Definition setfilter (compile set : bool) : M pcap_sniffer bool :=
  s ← get;
  if negb (m_init_done s) then ub "pcap_compile on no handle"
  else if negb compile then mret false
  else
    put {| m_init_done := m_init_done s; m_filterAllocated := true;
           ps_handles := ps_handles s; ps_codes := ps_codes s + 1 |} ;;
    mret set.

Definition stop_multi_receive : M pcap_sniffer unit :=
  s ← get; if m_init_done s then mret tt else ub "pcap_breakloop on no handle".

(** ** The sniffer

    [pcap_pkthdr] and the packet: the captured bytes ([caplen] of them) and the
    length on the wire.  [b_class] is the dynamic type of the object, and
    [b_threads] what the threads of [startSniffer] will be handed by
    [pcap_loop] before it ends. *)

Record pkt := { pk_data : bytes; pk_len : Z }.
Definition caplen (p : pkt) : Z := zlen (pk_data p).

Inductive dis_class := igmp_dis | mld_dis.

Record basic_dis := {
  b_class : dis_class;
  m_protocolType : dis_proto_type;
  m_addrFamily : Z;
  m_saveRawData : bool;
  m_hasEthernetFrame : bool;
  m_filtertype : filter_type;
  m_timeOut : Z;
  m_discoveredProtocol : dis_proto;
  m_protocolFound : bool;
  m_pcapS : pcap_sniffer;
  b_threads : option (list pkt)
}.
Abbreviation B := (M basic_dis).

Definition basic_dis_new (c : dis_class) : basic_dis :=
  {| b_class := c; m_protocolType := INIT_PROTO; m_addrFamily := -1; m_saveRawData := false;
     m_hasEthernetFrame := false; m_filtertype := INIT_FILTER; m_timeOut := u32 (-1);
     m_discoveredProtocol := dis_proto_new; m_protocolFound := false; m_pcapS := pcap_new; b_threads := None |}.

Definition b_set_type t d : basic_dis :=
  {| b_class := b_class d; m_protocolType := t; m_addrFamily := m_addrFamily d; m_saveRawData := m_saveRawData d;
     m_hasEthernetFrame := m_hasEthernetFrame d; m_filtertype := m_filtertype d; m_timeOut := m_timeOut d;
     m_discoveredProtocol := m_discoveredProtocol d; m_protocolFound := m_protocolFound d; m_pcapS := m_pcapS d;
     b_threads := b_threads d |}.
Definition b_set_found p b d : basic_dis :=
  {| b_class := b_class d; m_protocolType := m_protocolType d; m_addrFamily := m_addrFamily d;
     m_saveRawData := m_saveRawData d; m_hasEthernetFrame := m_hasEthernetFrame d; m_filtertype := m_filtertype d;
     m_timeOut := m_timeOut d; m_discoveredProtocol := p; m_protocolFound := b; m_pcapS := m_pcapS d;
     b_threads := b_threads d |}.
Definition b_set_pcap s d : basic_dis :=
  {| b_class := b_class d; m_protocolType := m_protocolType d; m_addrFamily := m_addrFamily d;
     m_saveRawData := m_saveRawData d; m_hasEthernetFrame := m_hasEthernetFrame d; m_filtertype := m_filtertype d;
     m_timeOut := m_timeOut d; m_discoveredProtocol := m_discoveredProtocol d; m_protocolFound := m_protocolFound d;
     m_pcapS := s; b_threads := b_threads d |}.
Definition b_set_threads t d : basic_dis :=
  {| b_class := b_class d; m_protocolType := m_protocolType d; m_addrFamily := m_addrFamily d;
     m_saveRawData := m_saveRawData d; m_hasEthernetFrame := m_hasEthernetFrame d; m_filtertype := m_filtertype d;
     m_timeOut := m_timeOut d; m_discoveredProtocol := m_discoveredProtocol d; m_protocolFound := m_protocolFound d;
     m_pcapS := m_pcapS d; b_threads := t |}.
Definition b_set_config fam raw eth ft t d : basic_dis :=
  {| b_class := b_class d; m_protocolType := m_protocolType d; m_addrFamily := fam;
     m_saveRawData := raw; m_hasEthernetFrame := eth; m_filtertype := ft;
     m_timeOut := t; m_discoveredProtocol := m_discoveredProtocol d; m_protocolFound := m_protocolFound d;
     m_pcapS := m_pcapS d; b_threads := b_threads d |}.

Definition on_pcap {A} (m : M pcap_sniffer A) : B A := zoom m_pcapS b_set_pcap m.
Definition setProtocolType (t : dis_proto_type) : B unit := modify (b_set_type t).

(** ** Reading a packet *)

Definition rd (p : bytes) (off : Z) : B Z :=
  match p !! Z.to_nat off with
  | Some c => mret (b2z c)
  | None => ub "read behind the captured packet"
  end.
Definition rd_bytes (p : bytes) (off n : Z) : B bytes :=
  if off + n <=? zlen p then mret (ztake n (zdrop off p)) else ub "read behind the captured packet".

(** [ntohs] of a 16-bit member of a header. *)
Definition rd_be16 (p : bytes) (off : Z) : B Z :=
  hi ← rd p off; lo ← rd p (off + 1); mret (256 * hi + lo).

(** [ip_hl], the low half of the first byte. *)
Definition ip_hl (p : bytes) : B Z := v ← rd p 0; mret (Z.land v 15).

(** ** The filters for IGMP *)

Definition igmp_ActiveFilter (p : bytes) : B bool :=
  fam ← gets m_addrFamily;
  if fam =? AF_INET then
    ip_p ← rd p 9;
    if ip_p =? IPPROTO_IGMP then
      hl ← ip_hl p;
      ip_dst ← rd_bytes p 16 4;
      if bool_decide (ip_dst = IGMP_TEST_GROUP) then
        igmp_type ← rd p (hl * 4);
        if igmp_type =? IGMP_MEMBERSHIP_QUERY then
          ip_len ← rd_be16 p 2;
          if IGMP_MINLEN <? ip_len - hl * 4 then setProtocolType IGMPv3 ;; mret true
          else if ip_len - hl * 4 =? IGMP_MINLEN then setProtocolType IGMPv2 ;; mret true
          else mret false
        else mret false
      else mret false
    else mret false
  else mret false.

Definition igmp_PassiveFilter (p : bytes) : B bool :=
  fam ← gets m_addrFamily;
  if fam =? AF_INET then
    ip_p ← rd p 9;
    if ip_p =? IPPROTO_IGMP then
      hl ← ip_hl p;
      ip_dst ← rd_bytes p 16 4;
      if bool_decide (ip_dst = IPV4_ALL_HOST) then
        igmp_type ← rd p (hl * 4);
        if igmp_type =? IGMP_MEMBERSHIP_QUERY then setProtocolType IGMPv3 ;; mret true
        else if igmp_type =? IGMP_V2_MEMBERSHIP_REPORT then setProtocolType IGMPv2 ;; mret true
        else mret false
      else mret false
    else mret false
  else mret false.

(** ** The filters for MLD *)

(** [IPPROTO_HOPOPTS], [IPPROTO_ROUTING], [IPPROTO_FRAGMENT], [IPPROTO_DSTOPTS]. *)
Definition is_extension (n : Z) : bool := (n =? 0) || (n =? 43) || (n =? 44) || (n =? 60).

(** The loop of [getSpecificHdr]: the result is the offset of the header.
    Every round moves at least eight bytes ahead or reads behind the packet,
    so that its length is fuel enough ([getSpecificHdr_fuel]). *)
Fixpoint getSpecificHdr_loop (fuel : nat) (p : bytes) (protocol n nextHdr : Z) : B (option Z) :=
  match fuel with
  | O => ub "getSpecificHdr does not end"
  | S fuel =>
      if n =? protocol then mret (Some nextHdr)
      else if is_extension n then
        n' ← rd p nextHdr;
        len ← rd p (nextHdr + 1);
        getSpecificHdr_loop fuel p protocol n' (nextHdr + (len + 1) * 8)
      else if n =? IPPROTO_NONE then mret None
      else mret None
  end.
Definition getSpecificHdr (p : bytes) (protocol : Z) : B (option Z) :=
  ip6_nxt ← rd p 6;
  getSpecificHdr_loop (S (length p)) p protocol ip6_nxt IP6_HDR_SIZE.

(** [querySize] is computed in unsigned long and stored in an int. *)
Definition query_size (ip6_plen icmpHdr : Z) : Z := i32 (uwrap 64 (ip6_plen - (icmpHdr - IP6_HDR_SIZE))).

Definition mld_ActiveFilter (p : bytes) : B bool :=
  fam ← gets m_addrFamily;
  if fam =? AF_INET6 then
    icmpHdr ← getSpecificHdr p IPPROTO_ICMPV6;
    match icmpHdr with
    | None => mret false
    | Some h =>
        ip6_dst ← rd_bytes p 24 16;
        if bool_decide (ip6_dst = MLD_TEST_GROUP) then
          icmp6_type ← rd p h;
          if icmp6_type =? MLD_LISTENER_QUERY then
            ip6_plen ← rd_be16 p 4;
            let querySize := query_size ip6_plen h in
            if querySize =? MLDv1_HDR_SIZE then setProtocolType MLDv1 ;; mret true
            else if MLD2_MIN_HDR_SIZE <=? querySize then setProtocolType MLDv2 ;; mret true
            else mret false
          else mret false
        else mret false
    end
  else mret false.

Definition mld_PassiveFilter (p : bytes) : B bool :=
  fam ← gets m_addrFamily;
  if fam =? AF_INET6 then
    icmpHdr ← getSpecificHdr p IPPROTO_ICMPV6;
    match icmpHdr with
    | None => mret false
    | Some h =>
        ip6_dst ← rd_bytes p 24 16;
        if bool_decide (ip6_dst = IPV6_ALL_NODES) then
          icmp6_type ← rd p h;
          if icmp6_type =? MLD_LISTENER_QUERY then
            ip6_plen ← rd_be16 p 4;
            let querySize := query_size ip6_plen h in
            if querySize =? MLDv1_HDR_SIZE then setProtocolType MLDv1 ;; mret true
            else if MLD2_MIN_HDR_SIZE <=? querySize then setProtocolType MLDv2 ;; mret true
            else mret false
          else mret false
        else mret false
    end
  else mret false.

(** The virtual functions. *)
Definition ActiveFilter (p : bytes) : B bool :=
  c ← gets b_class; match c with igmp_dis => igmp_ActiveFilter p | mld_dis => mld_ActiveFilter p end.
Definition PassiveFilter (p : bytes) : B bool :=
  c ← gets b_class; match c with igmp_dis => igmp_PassiveFilter p | mld_dis => mld_PassiveFilter p end.

(** ** Sniffing *)

Definition apply_filter (ipvXHdr : bytes) : B bool :=
  ft ← gets m_filtertype;
  match ft with
  | ACTIVE => ActiveFilter ipvXHdr
  | PASSIVE => PassiveFilter ipvXHdr
  | INIT_FILTER => mret false
  end.

(** The callback of libpcap. *)
Definition pcapLoop_Callback (packet : pkt) : B unit :=
  eth ← gets m_hasEthernetFrame;
  let ipvXHdr := if eth : bool then zdrop SIZE_ETHERNET (pk_data packet) else pk_data packet in
  let packetSize := if caplen packet <? pk_len packet then pk_len packet else caplen packet in
  filterRequest ← apply_filter ipvXHdr;
  if filterRequest : bool then
    on_pcap stop_multi_receive ;;
    fam ← gets m_addrFamily;
    src_addr ←
      (if fam =? AF_INET then
         ip_src ← rd_bytes ipvXHdr 12 4; mret (Some {| ss_family := fam; sa_addr := ip_src |})
       else if fam =? AF_INET6 then
         ip6_src ← rd_bytes ipvXHdr 8 16; mret (Some {| ss_family := fam; sa_addr := ip6_src |})
       else mret None);
    match src_addr with
    | None => mret tt
    | Some a =>
        modify (λ d, b_set_found (setType (m_protocolType d) (setHostAddr a (m_discoveredProtocol d))) true d) ;;
        save ← gets m_saveRawData;
        if save : bool then
          zoom m_discoveredProtocol (λ p d, b_set_found p (m_protocolFound d) d)
            (savePacketRawData ipvXHdr (packetSize - SIZE_ETHERNET))
        else mret tt
    end
  else mret tt.

(** The answers the operating system and libpcap give while a sniffer is
    started, and the packets [pcap_loop] then hands over. *)
Record sniff_env := {
  e_flags : option Z;
  e_lookupnet : bool;
  e_open_live : bool;
  e_compile : bool;
  e_setfilter : bool;
  e_socket : bool;
  e_join : bool;
  e_leave : bool;
  e_packets : list pkt
}.

Definition closeSniffer : B unit :=
  modify (b_set_threads None) ;; on_pcap close_pcapSniffer.

Definition initSniffer (e : sniff_env) (timeOut : Z) (filterType : filter_type) (addrFamily : Z)
    (saveRawData : bool) : B bool :=
  closeSniffer ;;
  modify (λ d, b_set_found (m_discoveredProtocol d) false d) ;;
  modify (λ d, b_set_config addrFamily saveRawData (m_hasEthernetFrame d) (m_filtertype d) (m_timeOut d) d) ;;
  match e_flags e with
  | None => mret false
  | Some flags =>
      modify (λ d, b_set_config addrFamily saveRawData (Z.land flags IFF_POINTOPOINT =? 0) filterType timeOut d) ;;
      init ← on_pcap (init_pcapSniffer (e_lookupnet e) (e_open_live e));
      if negb init then mret false
      else
        filtered ← on_pcap (setfilter (e_compile e) (e_setfilter e));
        if negb filtered then mret false else mret true
  end.

Definition startSniffer (e : sniff_env) : B unit := modify (b_set_threads (Some (e_packets e))).

(** [MC_TV_QUERY_INTERVAL * MC_TV_ROBUSTNESS_VARIABLE + 2] and
    [MC_TV_LAST_MEMBER_QUERY_INTEVAL * MC_TV_ROBUSTNESS_VARIABLE] seconds. *)
Definition PASSIV_TIMEOUT : Z := 125 * 2 + 2.
Definition AKTIVE_TIMEOUT : Z := 1 * 2.

Definition class_family (c : dis_class) : Z := match c with igmp_dis => AF_INET | mld_dis => AF_INET6 end.

Definition sniffPassiv_dis (e : sniff_env) : B bool :=
  c ← gets b_class;
  ok ← initSniffer e PASSIV_TIMEOUT PASSIVE (class_family c) false;
  if negb ok then mret false else startSniffer e ;; mret true.

Definition sniffActive_dis (e : sniff_env) : B bool :=
  c ← gets b_class;
  if e_socket e then
    ok ← initSniffer e AKTIVE_TIMEOUT ACTIVE (class_family c) false;
    if ok : bool then
      if e_join e then
        if e_leave e then startSniffer e ;; mret true else mret false
      else mret false
    else mret false
  else mret false.

(** [thread_PcapLoop] (its result is ignored), and [joinSniffer], which waits
    for the threads. *)
Definition thread_PcapLoop (packets : list pkt) : B unit := for_each packets pcapLoop_Callback.
Definition joinSniffer_dis : B unit :=
  t ← gets b_threads;
  match t with
  | None => mret tt
  | Some packets => thread_PcapLoop packets ;; modify (b_set_threads (Some []))
  end.
Definition stopSearching : B unit := on_pcap stop_multi_receive.

(** ** The interface of the sniffers *)

Class basic_dis_interface (D : Type) := {
  sniffPassiv : sniff_env → M D bool;
  sniffActive : sniff_env → M D bool;
  joinSniffer : M D unit;
  foundProtocol : M D bool;
  getfoundProtocol : M D dis_proto
}.

#[export] Instance basic_dis_is_interface : basic_dis_interface basic_dis := {
  sniffPassiv := sniffPassiv_dis;
  sniffActive := sniffActive_dis;
  joinSniffer := joinSniffer_dis;
  foundProtocol := gets m_protocolFound;
  getfoundProtocol := gets m_discoveredProtocol
}.

(** ** The protocols of an interface *)

Section refresh.
  Context {D : Type} {I : basic_dis_interface D}.

(** The local sniffers of a refresh, and [m_dpItem] of the interface. *)
Record refresh := { r_dis : list D; r_dpItem : list dis_proto }.

Definition on_dis {A} (i : nat) (m : M D A) : M refresh A := λ s,
  match r_dis s !! i with
  | None => (UB "vector index out of range", s)
  | Some d => let '(r, d') := m d in (r, {| r_dis := <[i := d']> (r_dis s); r_dpItem := r_dpItem s |})
  end.
Definition addProtocol (p : dis_proto) : M refresh unit :=
  modify (λ s, {| r_dis := r_dis s; r_dpItem := r_dpItem s ++ [p] |}).

(** The first loop: [rc]. *)
Fixpoint start_all (start : sniff_env → M D bool) (i : nat) (es : list sniff_env) : M refresh (list bool) :=
  match es with
  | [] => mret []
  | e :: es => b ← on_dis i (start e); rc ← start_all start (S i) es; mret (b :: rc)
  end.

(** The second loop. *)
Fixpoint collect (i : nat) (rc : list bool) : M refresh unit :=
  match rc with
  | [] => mret tt
  | started :: rc =>
      on_dis i joinSniffer ;;
      (if started : bool then
         found ← on_dis i foundProtocol;
         if found : bool then p ← on_dis i getfoundProtocol; addProtocol p else mret tt
       else mret tt) ;;
      collect (S i) rc
  end.

(** The last loop, over [n] elements of [rc]. *)
Fixpoint check_started (n : nat) (rc : list bool) : M refresh bool :=
  match n with
  | O => mret true
  | S n =>
      match rc with
      | [] => ub "vector<bool> index out of range"
      | started :: rc => if negb started then mret false else check_started n rc
      end
  end.

#[export] Instance discovery_ip_version_eq_dec : EqDecision discovery_ip_version.
Proof. solve_decision. Defined.

Definition by_version {A} (version : discovery_ip_version) (igmp mld : A) : list A :=
  match version with IPALL => [igmp; mld] | IP6 => [mld] | IP4 => [igmp] end.

Definition run_sniffers (start : sniff_env → M D bool) (version : discovery_ip_version) (igmp mld : D)
    (e4 e6 : sniff_env) (count : nat → nat) : M (list dis_proto) bool := λ ps,
  let '(r, s) :=
    (rc ← start_all start 0 (by_version version e4 e6);
     collect 0 rc ;;
     check_started (count (length rc)) rc)
    {| r_dis := by_version version igmp mld; r_dpItem := ps |} in
  (r, r_dpItem s).

Definition refreshProtocolFast version igmp mld e4 e6 := run_sniffers sniffActive version igmp mld e4 e6 id.
Definition refreshProtocolFriendly version igmp mld e4 e6 := run_sniffers sniffPassiv version igmp mld e4 e6 id.

(** The bound of the last loop is the size of the vector divided by that of
    a pointer, and a [std::vector] is three pointers wide. *)
Definition refresh_protocol_lite version igmp mld e4 e6 := run_sniffers sniffPassiv version igmp mld e4 e6 (const 3%nat).

End refresh.

(** ** Interfaces

    [struct ifreq] and what [if_prop] reads from the system: the flags ([None]
    when the call fails), the IPv4 address and the IPv6 addresses. *)

Record dis_tank_item := {
  it_name : bytes;
  it_index : Z;
  it_flags : option Z;
  it_addr : bytes;
  it_addr6 : list bytes;
  m_dpItem : list dis_proto
}.
Definition it_set_protocols ps t : dis_tank_item :=
  {| it_name := it_name t; it_index := it_index t; it_flags := it_flags t; it_addr := it_addr t;
     it_addr6 := it_addr6 t; m_dpItem := ps |}.

Definition has_flag (flag : Z) (t : dis_tank_item) : bool :=
  match it_flags t with Some f => 0 <? Z.land f flag | None => false end.
Definition isUP := has_flag IFF_UP.
Definition isRunning := has_flag IFF_RUNNING.
Definition isLoopback := has_flag IFF_LOOPBACK.
Definition isPointToPoint := has_flag IFF_POINTOPOINT.
Definition hasMulticast := has_flag IFF_MULTICAST.

(** The condition of [getSD_if] and [refreshSD]. *)
Definition usable (t : dis_tank_item) : bool := isUP t && isRunning t && negb (isLoopback t) && hasMulticast t.

Record sd_if := {
  m_ifname : bytes;
  m_ifindex : Z;
  m_ifaddr : sockaddr;
  m_mcast_ver : Z;
  m_parent : sockaddr
}.

Definition is_igmp (t : dis_proto_type) : bool :=
  match t with IGMPvX | IGMPv1 | IGMPv2 | IGMPv3 => true | _ => false end.
Definition is_mld (t : dis_proto_type) : bool :=
  match t with MLDvX | MLDv1 | MLDv2 => true | _ => false end.

(** [SD_IGMPv1_VERSION], ..., [SD_UNKNOWN_PROTO]. *)
Definition mcast_ver (t : dis_proto_type) : Z :=
  match t with
  | IGMPvX => 0 | IGMPv1 => 1 | IGMPv2 => 2 | IGMPv3 => 3
  | MLDvX => 0 | MLDv1 => 1 | MLDv2 => 2
  | _ => -1
  end.

(** The search for the protocols of an interface: the last of each wins. *)
Definition search_protocols (ps : list dis_proto) : option dis_proto * option dis_proto :=
  foldl (λ acc p, if is_igmp (m_type p) then (Some p, acc.2)
                  else if is_mld (m_type p) then (acc.1, Some p) else acc) (None, None) ps.

Definition addr6_of (t : dis_tank_item) : sockaddr :=
  {| ss_family := AF_INET6; sa_addr := default (replicate 16 NUL) (head (it_addr6 t)) |}.
Definition addr4_of (t : dis_tank_item) : sockaddr := {| ss_family := AF_INET; sa_addr := it_addr t |}.

Definition sd_of (addr : sockaddr) (t : dis_tank_item) (p : dis_proto) : sd_if :=
  {| m_ifname := it_name t; m_ifindex := it_index t; m_ifaddr := addr;
     m_mcast_ver := mcast_ver (m_type p); m_parent := m_hostAddr p |}.
Definition sd_off (addr : sockaddr) (t : dis_tank_item) : sd_if :=
  {| m_ifname := it_name t; m_ifindex := it_index t; m_ifaddr := addr; m_mcast_ver := -1;
     m_parent := {| ss_family := ss_family addr;
                   sa_addr := replicate (if ss_family addr =? AF_INET then 4%nat else 16%nat) NUL |} |}.

(** One interface of [getSD_if]. *)
Definition sd_ifs_of (type : discovery_type) (version : discovery_ip_version) (t : dis_tank_item) : list sd_if :=
  if usable t then
    match type with
    | OFF =>
        (match version with IP6 | IPALL => [sd_off (addr6_of t) t] | IP4 => [] end) ++
        (match version with IP4 | IPALL => [sd_off (addr4_of t) t] | IP6 => [] end)
    | LIGHT | FULL =>
        let '(p_igmp, p_mld) := search_protocols (m_dpItem t) in
        from_option (λ p, [sd_of (addr4_of t) t p]) [] p_igmp ++ from_option (λ p, [sd_of (addr6_of t) t p]) [] p_mld
    end
  else [].
Definition getSD_if (type : discovery_type) (version : discovery_ip_version) (tank : list dis_tank_item) : list sd_if :=
  tank ≫= sd_ifs_of type version.

(** [thread_worker]: the refresh of one interface; [l4] and [l6] are the
    sniffers that need no root, [igmp_light_dis] and [mld_light_dis]. *)
Definition sd_thread_worker {L} {I : basic_dis_interface L} (type : discovery_type) (version : discovery_ip_version)
    (root : bool) (l4 l6 : L) (e4 e6 : sniff_env) : M (list dis_proto) unit :=
  match type with
  | LIGHT => refresh_protocol_lite version l4 l6 e4 e6 ;; mret tt
  | FULL =>
      if root then refreshProtocolFast version (basic_dis_new igmp_dis) (basic_dis_new mld_dis) e4 e6 ;; mret tt
      else refresh_protocol_lite version l4 l6 e4 e6 ;; mret tt
  | OFF => mret tt
  end.

(** ** The instances of the module

    [hc_init] with service discovery: what an instance is created with (its
    key-value pairs, the querier and the neighbours).  [inet_ntop] is [None]
    when it fails. *)
Record ip_new := { n_kvps : list (bytes * bytes); n_querier : option uri; n_neighbors : list uri }.

Section init.
  Variable inet_ntop : sockaddr → option bytes.

Definition parent_uri (s : sd_if) : option uri :=
  p_addr ← inet_ntop (m_parent s);
  let parent := uri_of (str "ip://" ++ p_addr) in
  if uri_empty parent then None else Some parent.

Definition tech_val (addr : sockaddr) : bytes :=
  if ss_family addr =? AF_INET then str "IPv4"
  else if ss_family addr =? AF_INET6 then str "IPv6" else str "IPvUNKNOWN".

Definition instance_of (s : sd_if) : option ip_new :=
  addr ← inet_ntop (m_ifaddr s);
  if bool_decide (addr = []) then None
  else Some {| n_kvps := [(str "if_tech", tech_val (m_ifaddr s)); (str "if_addr", str "ip://" ++ addr);
                          (str "if_name", m_ifname s)];
               n_querier := parent_uri s; n_neighbors := option_list (parent_uri s) |}.
Definition hc_init_discovery (vif : list sd_if) : list ip_new := omap instance_of vif.
End init.

(** ** The packets on the wire

    The reference: an IPv4 datagram and an IPv6 packet with its chain of
    extension headers, and how they are laid out (RFC 791, RFC 8200).  The
    numbers and the bytes no filter looks at are left as they are. *)

Definition be16 (z : Z) : bytes := [z2b (z / 256); z2b z].

Record ipv4 := {
  v4_tos : byte; v4_id : Z; v4_frag : Z; v4_ttl : byte; v4_proto : Z; v4_cksum : Z;
  v4_src : bytes; v4_dst : bytes; v4_options : bytes; v4_payload : bytes
}.
Definition v4_hdr_size (h : ipv4) : Z := 20 + zlen (v4_options h).
Definition v4_bytes (h : ipv4) : bytes :=
  [z2b (64 + v4_hdr_size h / 4); v4_tos h] ++ be16 (v4_hdr_size h + zlen (v4_payload h)) ++
  be16 (v4_id h) ++ be16 (v4_frag h) ++ [v4_ttl h; z2b (v4_proto h)] ++ be16 (v4_cksum h) ++
  v4_src h ++ v4_dst h ++ v4_options h ++ v4_payload h.
Record v4_ok (h : ipv4) : Prop := {
  v4_ok_proto : 0 <= v4_proto h < 256;
  v4_ok_src : length (v4_src h) = 4%nat;
  v4_ok_dst : length (v4_dst h) = 4%nat;
  v4_ok_options : ∃ k, zlen (v4_options h) = 4 * k ∧ k <= 10;
  v4_ok_payload : v4_payload h ≠ [];
  v4_ok_total : v4_hdr_size h + zlen (v4_payload h) < 2 ^ 16
}.

(** An extension header: its number, its body behind the two bytes of the next
    header and the length, and the rest of the packet. *)
Record ext := { x_kind : Z; x_body : bytes }.
Definition ext_size (x : ext) : Z := 2 + zlen (x_body x).
Definition ext_ok (x : ext) : Prop :=
  is_extension (x_kind x) = true ∧ ∃ k, ext_size x = 8 * (k + 1) ∧ 0 <= k < 256.

Definition chain_first (xs : list ext) (upper : Z) : Z :=
  match xs with [] => upper | x :: _ => x_kind x end.
Fixpoint chain_bytes (xs : list ext) (upper : Z) : bytes :=
  match xs with
  | [] => []
  | x :: xs => [z2b (chain_first xs upper); z2b (ext_size x / 8 - 1)] ++ x_body x ++ chain_bytes xs upper
  end.

Record ipv6 := {
  v6_flow : bytes; v6_hlim : byte; v6_src : bytes; v6_dst : bytes;
  v6_exts : list ext; v6_upper : Z; v6_payload : bytes
}.
Definition v6_hdr_size (h : ipv6) : Z := IP6_HDR_SIZE + zsum ext_size (v6_exts h).
Definition v6_bytes (h : ipv6) : bytes :=
  v6_flow h ++ be16 (zsum ext_size (v6_exts h) + zlen (v6_payload h)) ++
  [z2b (chain_first (v6_exts h) (v6_upper h)); v6_hlim h] ++ v6_src h ++ v6_dst h ++
  chain_bytes (v6_exts h) (v6_upper h) ++ v6_payload h.
Record v6_ok (h : ipv6) : Prop := {
  v6_ok_flow : length (v6_flow h) = 4%nat;
  v6_ok_src : length (v6_src h) = 16%nat;
  v6_ok_dst : length (v6_dst h) = 16%nat;
  v6_ok_exts : Forall ext_ok (v6_exts h);
  v6_ok_upper : 0 <= v6_upper h < 256;
  v6_ok_not_ext : is_extension (v6_upper h) = false;
  v6_ok_payload : v6_payload h ≠ [];
  v6_ok_total : zsum ext_size (v6_exts h) + zlen (v6_payload h) < 2 ^ 16
}.

(** What a filter is to answer: the version of the protocol by the kind of the
    message and the length of the query. *)
Definition igmp_answer (ft : filter_type) (h : ipv4) : option dis_proto_type :=
  if v4_proto h =? IPPROTO_IGMP then
    let type := from_option b2z 0 (head (v4_payload h)) in
    match ft with
    | ACTIVE =>
        if bool_decide (v4_dst h = IGMP_TEST_GROUP) && (type =? IGMP_MEMBERSHIP_QUERY) then
          if 8 <? zlen (v4_payload h) then Some IGMPv3
          else if zlen (v4_payload h) =? 8 then Some IGMPv2 else None
        else None
    | PASSIVE =>
        if bool_decide (v4_dst h = IPV4_ALL_HOST) then
          if type =? IGMP_MEMBERSHIP_QUERY then Some IGMPv3
          else if type =? IGMP_V2_MEMBERSHIP_REPORT then Some IGMPv2 else None
        else None
    | INIT_FILTER => None
    end
  else None.

Definition mld_group (ft : filter_type) : bytes :=
  match ft with ACTIVE => MLD_TEST_GROUP | _ => IPV6_ALL_NODES end.
Definition mld_answer (ft : filter_type) (h : ipv6) : option dis_proto_type :=
  if (v6_upper h =? IPPROTO_ICMPV6) && bool_decide (v6_dst h = mld_group ft)
     && (from_option b2z 0 (head (v6_payload h)) =? MLD_LISTENER_QUERY) then
    match ft with
    | INIT_FILTER => None
    | _ => if zlen (v6_payload h) =? 24 then Some MLDv1
           else if 28 <=? zlen (v6_payload h) then Some MLDv2 else None
    end
  else None.

(** ** Reads of a captured prefix *)

Lemma rd_take p n off c s :
  p !! Z.to_nat off = Some c → 0 <= off < n → rd (ztake n p) off s = (Ok (b2z c), s).
Proof. intros H ?. rewrite /rd /ztake. rewrite -> lookup_take_lt by lia. by rewrite H. Qed.

Lemma zdrop_ztake_app {A} off n m (pre l post : list A) :
  off = zlen pre → m = zlen l → off + m <= n → ztake m (zdrop off (ztake n (pre ++ l ++ post))) = l.
Proof.
  rewrite /ztake /zdrop /zlen => -> -> ?. rewrite !Nat2Z.id skipn_firstn_comm drop_app_length firstn_firstn.
  rewrite -> Nat.min_l by lia. by rewrite take_app_length.
Qed.

Lemma rd_bytes_take pre l post n off m s :
  off = zlen pre → m = zlen l → off + m <= n →
  rd_bytes (ztake n (pre ++ l ++ post)) off m s = (Ok l, s).
Proof.
  intros Ho Hm Hn. rewrite /rd_bytes. destruct (Z.leb_spec (off + m) (zlen (ztake n (pre ++ l ++ post)))) as [|Hlt].
  - by rewrite (zdrop_ztake_app off n m).
  - exfalso. revert Hlt. rewrite /zlen /ztake length_take !length_app. rewrite /zlen in Ho, Hm. lia.
Qed.

Lemma rd_be16_take p n off z s :
  0 <= z < 2 ^ 16 → p !! Z.to_nat off = Some (z2b (z / 256)) → p !! Z.to_nat (off + 1) = Some (z2b z) →
  0 <= off → off + 1 < n → rd_be16 (ztake n p) off s = (Ok z, s).
Proof.
  intros Hz H1 H2 ??. rewrite /rd_be16. step_ok (rd_take p n off _ s H1 ltac:(lia)).
  step_ok (rd_take p n (off + 1) _ s H2 ltac:(lia)). rewrite !b2z_z2b. rewrite /mret /M_ret. do 2 f_equal.
  Z.to_euclidean_division_equations. lia.
Qed.

(** ** The filters for IGMP are exact *)

Lemma v4_ok_hdr h : v4_ok h → 20 <= v4_hdr_size h <= 60 ∧ v4_hdr_size h mod 4 = 0 ∧ 1 <= zlen (v4_payload h).
Proof.
  intros [_ _ _ (k & Hk & Hk10) Hp _]. rewrite /v4_hdr_size Hk. pose proof (zlen_nonneg (v4_options h)).
  split; [lia|]. split; [Z.to_euclidean_division_equations; lia|].
  destruct (v4_payload h); [done|]. rewrite zlen_cons. pose proof (zlen_nonneg l). lia.
Qed.

(** The members of the header, in a capture of at least the header and a byte. *)
Lemma v4_reads h n s :
  v4_ok h → v4_hdr_size h < n → let p := ztake n (v4_bytes h) in
  rd p 9 s = (Ok (v4_proto h), s) ∧ ip_hl p s = (Ok (v4_hdr_size h / 4), s) ∧
  rd_bytes p 12 4 s = (Ok (v4_src h), s) ∧ rd_bytes p 16 4 s = (Ok (v4_dst h), s) ∧
  rd_be16 p 2 s = (Ok (v4_hdr_size h + zlen (v4_payload h)), s) ∧
  rd p (v4_hdr_size h / 4 * 4) s = (Ok (from_option b2z 0 (head (v4_payload h))), s).
Proof.
  intros Hok Hn p. destruct (v4_ok_hdr h Hok) as (Hh & Hm & Hp1).
  assert (v4_hdr_size h / 4 * 4 = v4_hdr_size h) as Hdiv by (pose proof (Z.div_mod (v4_hdr_size h) 4); lia).
  destruct Hok as [Hpr Hs Hd _ Hp Ht]. split_and!.
  - subst p. rewrite (rd_take (v4_bytes h) n 9 (z2b (v4_proto h)) s eq_refl ltac:(lia)).
    by rewrite b2z_z2b Z.mod_small.
  - rewrite /ip_hl. step_ok (rd_take (v4_bytes h) n 0 (z2b (64 + v4_hdr_size h / 4)) s eq_refl ltac:(lia)).
    rewrite b2z_z2b /mret /M_ret. do 2 f_equal. change 15 with (Z.ones 4). rewrite -> Z.land_ones by lia.
    change (2 ^ 4) with 16. Z.to_euclidean_division_equations. lia.
  - subst p. rewrite /v4_bytes !app_assoc. rewrite -(app_assoc _ (v4_options h)) -(app_assoc _ (v4_dst h)) -(app_assoc _ (v4_src h)).
    apply rd_bytes_take; [done|rewrite /zlen; lia|lia].
  - subst p. rewrite /v4_bytes !app_assoc. rewrite -(app_assoc _ (v4_options h)) -(app_assoc _ (v4_dst h)).
    apply rd_bytes_take; [rewrite /zlen !length_app Hs //|rewrite /zlen; lia|lia].
  - apply rd_be16_take; [|done|done|lia|lia]. pose proof (zlen_nonneg (v4_payload h)). lia.
  - rewrite Hdiv. destruct (v4_payload h) as [|c l] eqn:Epl; [done|]. apply rd_take; [|lia].
    rewrite /v4_bytes Epl !app_assoc. rewrite -> lookup_app_r by (rewrite !length_app Hs Hd /= /v4_hdr_size /zlen; lia).
    match goal with |- (c :: l) !! ?i = _ => replace i with 0%nat; [done|] end.
    rewrite !length_app Hs Hd /= /v4_hdr_size /zlen. lia.
Qed.

Definition answered (o : option dis_proto_type) (d : basic_dis) : outcome bool * basic_dis :=
  match o with Some t => (Ok true, b_set_type t d) | None => (Ok false, d) end.

Lemma igmp_ActiveFilter_exact h n d :
  v4_ok h → v4_hdr_size h < n → m_addrFamily d = AF_INET →
  igmp_ActiveFilter (ztake n (v4_bytes h)) d = answered (igmp_answer ACTIVE h) d.
Proof.
  intros Hok Hn Hf. destruct (v4_reads h n d Hok Hn) as (R1 & R2 & _ & R3 & R4 & R5).
  assert (v4_hdr_size h / 4 * 4 = v4_hdr_size h) as Hdiv
    by (destruct (v4_ok_hdr h Hok) as (_ & ? & _); pose proof (Z.div_mod (v4_hdr_size h) 4); lia).
  rewrite /igmp_ActiveFilter. step_ok (eq_refl : gets m_addrFamily d = (Ok (m_addrFamily d), d)).
  rewrite Hf Z.eqb_refl. step_ok R1. rewrite /igmp_answer.
  destruct (v4_proto h =? IPPROTO_IGMP); [|done]. step_ok R2. step_ok R3.
  destruct (bool_decide (v4_dst h = IGMP_TEST_GROUP)); [|done]. step_ok R5.
  rewrite andb_true_l. destruct (_ =? IGMP_MEMBERSHIP_QUERY); [|done]. step_ok R4. rewrite Hdiv.
  replace (v4_hdr_size h + zlen (v4_payload h) - v4_hdr_size h) with (zlen (v4_payload h)) by lia.
  rewrite /IGMP_MINLEN. by repeat case_match.
Qed.

Lemma igmp_PassiveFilter_exact h n d :
  v4_ok h → v4_hdr_size h < n → m_addrFamily d = AF_INET →
  igmp_PassiveFilter (ztake n (v4_bytes h)) d = answered (igmp_answer PASSIVE h) d.
Proof.
  intros Hok Hn Hf. destruct (v4_reads h n d Hok Hn) as (R1 & R2 & _ & R3 & _ & R5).
  rewrite /igmp_PassiveFilter. step_ok (eq_refl : gets m_addrFamily d = (Ok (m_addrFamily d), d)).
  rewrite Hf Z.eqb_refl. step_ok R1. rewrite /igmp_answer.
  destruct (v4_proto h =? IPPROTO_IGMP); [|done]. step_ok R2. step_ok R3.
  destruct (bool_decide (v4_dst h = IPV4_ALL_HOST)); [|done]. step_ok R5. by repeat case_match.
Qed.

(** ** The chain of extension headers *)

(** The loop ends: more rounds than the packet has bytes change nothing. *)
Lemma getSpecificHdr_loop_fuel p protocol f1 : ∀ f2 n off s,
  0 <= off → (Z.to_nat (zlen p - off) < f1)%nat → (Z.to_nat (zlen p - off) < f2)%nat →
  getSpecificHdr_loop f1 p protocol n off s = getSpecificHdr_loop f2 p protocol n off s.
Proof.
  induction f1 as [|f1 IH]; intros [|f2] n off s Hoff H1 H2; [lia..|]. cbn [getSpecificHdr_loop].
  destruct (n =? protocol); [done|]. destruct (is_extension n); [|done].
  rewrite /rd. destruct (p !! Z.to_nat off) as [c|] eqn:E1; [|done].
  apply lookup_lt_Some in E1. rewrite /mbind /M_bind /mret /M_ret.
  destruct (p !! Z.to_nat (off + 1)) as [c'|]; [|done].
  pose proof (b2z_range c'). apply IH; rewrite /zlen in H1, H2 |- *; lia.
Qed.

Lemma is_extension_spec n : is_extension n = true ↔ n = 0 ∨ n = 43 ∨ n = 44 ∨ n = 60.
Proof. rewrite /is_extension !orb_true_iff !Z.eqb_eq. tauto. Qed.

Lemma chain_first_range xs upper : Forall ext_ok xs → 0 <= upper < 256 → 0 <= chain_first xs upper < 256.
Proof. intros [|x ? [Hx%is_extension_spec _] _]; simpl; lia. Qed.

Lemma chain_size xs : Forall ext_ok xs → 8 * zlen xs <= zsum ext_size xs.
Proof.
  induction 1 as [|x xs (_ & k & Hk & ?) _ IH]; [done|]. rewrite zlen_cons /=. lia.
Qed.

Lemma zlen_chain_bytes xs upper : zlen (chain_bytes xs upper) = zsum ext_size xs.
Proof. induction xs as [|x xs IH]; [done|]. cbn. rewrite !zlen_cons zlen_app IH /ext_size. lia. Qed.

Lemma lookup_app_at {A} (pre l : list A) off i : off = zlen pre + Z.of_nat i → (pre ++ l) !! Z.to_nat off = l !! i.
Proof. intros ->. rewrite /zlen -Nat2Z.inj_add Nat2Z.id. rewrite -> lookup_app_r by lia. f_equal. lia. Qed.

(** A header of the chain begins (or its second byte lies) behind the first
    [n] bytes; the chain starts at [off]. *)
Fixpoint chain_overread (n off : Z) (xs : list ext) : bool :=
  match xs with
  | [] => false
  | x :: xs => (n <=? off + 1) || chain_overread n (off + ext_size x) xs
  end.

Lemma rd_behind p off (s : basic_dis) : zlen p <= off → rd p off s = (UB "read behind the captured packet", s).
Proof. intros H. rewrite /rd lookup_ge_None_2 //. rewrite /zlen in H. lia. Qed.

Lemma zlen_ztake_le {A} n (l : list A) : 0 <= n → zlen (ztake n l) <= n.
Proof. intros H. rewrite /zlen /ztake length_take. lia. Qed.

Lemma getSpecificHdr_loop_chain upper payload n s xs : ∀ fuel pre,
  Forall ext_ok xs → 0 <= upper < 256 → is_extension upper = false → (length xs < fuel)%nat →
  chain_overread n (zlen pre) xs = false →
  getSpecificHdr_loop fuel (ztake n (pre ++ chain_bytes xs upper ++ payload)) IPPROTO_ICMPV6
    (chain_first xs upper) (zlen pre) s =
  (Ok (if upper =? IPPROTO_ICMPV6 then Some (zlen pre + zsum ext_size xs) else None), s).
Proof.
  induction xs as [|x xs IH]; intros [|fuel] pre Hxs Hu Hne Hf Hn; [simpl in Hf; lia| |simpl in Hf; lia|].
  - cbn [getSpecificHdr_loop chain_first zsum]. rewrite Hne Z.add_0_r. by repeat case_match.
  - cbn [getSpecificHdr_loop chain_first zsum chain_overread] in Hn |- *.
    inversion Hxs as [|? ? (Hk & k & Hsz & Hk1) Hxs']; subst.
    pose proof (chain_size xs Hxs') as Hc. pose proof (zlen_nonneg xs). pose proof (zlen_nonneg pre).
    rewrite Hk. assert (x_kind x =? IPPROTO_ICMPV6 = false) as ->.
    { apply is_extension_spec in Hk. apply Z.eqb_neq. rewrite /IPPROTO_ICMPV6. lia. }
    set (full := pre ++ chain_bytes (x :: xs) upper ++ payload).
    assert (full !! Z.to_nat (zlen pre) = Some (z2b (chain_first xs upper))) as L1
      by (rewrite /full; rewrite -> (lookup_app_at _ _ _ 0) by lia; done).
    assert (full !! Z.to_nat (zlen pre + 1) = Some (z2b (ext_size x / 8 - 1))) as L2
      by (rewrite /full; rewrite -> (lookup_app_at _ _ _ 1) by lia; done).
    apply orb_false_iff in Hn as [Hn1%Z.leb_gt Hn2].
    step_ok (rd_take full n _ _ s L1 ltac:(lia)). step_ok (rd_take full n _ _ s L2 ltac:(lia)).
    rewrite !b2z_z2b. rewrite -> (Z.mod_small (chain_first xs upper)) by by apply chain_first_range.
    assert (ext_size x / 8 - 1 = k) as -> by (rewrite Hsz; Z.to_euclidean_division_equations; lia).
    rewrite -> Z.mod_small by done.
    set (pre' := pre ++ [z2b (chain_first xs upper); z2b k] ++ x_body x).
    assert (zlen pre' = zlen pre + ext_size x) as Hp' by (rewrite /pre' !zlen_app !zlen_cons zlen_nil /ext_size; lia).
    assert (full = pre' ++ chain_bytes xs upper ++ payload) as ->.
    { rewrite /full /pre'. cbn [chain_bytes]. rewrite (_ : ext_size x / 8 - 1 = k) ?app_assoc //.
      rewrite Hsz. Z.to_euclidean_division_equations. lia. }
    replace (zlen pre + (k + 1) * 8) with (zlen pre') by lia.
    rewrite -> IH; [rewrite Hp'; do 2 f_equal; by destruct (_ =? _); [f_equal; lia|]|done..|simpl in Hf; lia|by rewrite Hp'].
Qed.

(** Where a chain lies that is read within [n] bytes, or is not. *)
Lemma chain_overread_false n xs : ∀ off,
  Forall ext_ok xs → chain_overread n off xs = false → xs = [] ∨ off + 8 * zlen xs < n + 7.
Proof.
  induction xs as [|x xs IH]; intros off Hxs Hn; [by left|]. right.
  inversion Hxs as [|? ? (Hk & k & Hsz & Hk1) Hxs']; subst.
  cbn [chain_overread] in Hn. apply orb_false_iff in Hn as [Hn1%Z.leb_gt Hn2]. rewrite zlen_cons.
  destruct (IH _ Hxs' Hn2) as [->|]; [rewrite zlen_nil|]; lia.
Qed.
Lemma chain_overread_true n xs : ∀ off,
  Forall ext_ok xs → chain_overread n off xs = true → n <= off + zsum ext_size xs.
Proof.
  induction xs as [|x xs IH]; intros off Hxs Hn; [done|].
  inversion Hxs as [|? ? (Hk & k & Hsz & Hk1) Hxs']; subst. cbn [zsum].
  pose proof (chain_size xs Hxs'). pose proof (zlen_nonneg xs).
  cbn [chain_overread] in Hn. apply orb_true_iff in Hn as [Hn%Z.leb_le|Hn]; [lia|]. apply IH in Hn; [lia|done].
Qed.

(** A longer chain makes the loop read behind the packet. *)
Lemma getSpecificHdr_loop_overreads upper payload n s xs : ∀ fuel pre,
  Forall ext_ok xs → 0 <= upper < 256 → 0 <= n → (Z.to_nat (n - zlen pre) < fuel)%nat → chain_overread n (zlen pre) xs = true →
  getSpecificHdr_loop fuel (ztake n (pre ++ chain_bytes xs upper ++ payload)) IPPROTO_ICMPV6
    (chain_first xs upper) (zlen pre) s = (UB "read behind the captured packet", s).
Proof.
  induction xs as [|x xs IH]; intros [|fuel] pre Hxs Hu Hn0 Hf Hn; [done|done|lia|].
  cbn [getSpecificHdr_loop chain_first chain_overread] in Hn |- *.
  inversion Hxs as [|? ? (Hk & k & Hsz & Hk1) Hxs']; subst. pose proof (zlen_nonneg pre).
  rewrite Hk. assert (x_kind x =? IPPROTO_ICMPV6 = false) as ->.
  { apply is_extension_spec in Hk. apply Z.eqb_neq. rewrite /IPPROTO_ICMPV6. lia. }
  set (full := pre ++ chain_bytes (x :: xs) upper ++ payload).
  assert (full !! Z.to_nat (zlen pre) = Some (z2b (chain_first xs upper))) as L1
    by (rewrite /full; rewrite -> (lookup_app_at _ _ _ 0) by lia; done).
  assert (full !! Z.to_nat (zlen pre + 1) = Some (z2b (ext_size x / 8 - 1))) as L2
    by (rewrite /full; rewrite -> (lookup_app_at _ _ _ 1) by lia; done).
  pose proof (zlen_ztake_le n full Hn0) as Hle.
  destruct (Z.le_gt_cases n (zlen pre)) as [Hb|Hb]; [by rewrite /mbind /M_bind rd_behind; [lia|]|].
  step_ok (rd_take full n _ _ s L1 ltac:(lia)).
  destruct (Z.leb_spec n (zlen pre + 1)) as [Hb2|Hb2]; [by rewrite /mbind /M_bind rd_behind; [lia|]|]. cbn [orb] in Hn.
  step_ok (rd_take full n _ _ s L2 ltac:(lia)).
  rewrite !b2z_z2b. rewrite -> (Z.mod_small (chain_first xs upper)) by by apply chain_first_range.
  assert (ext_size x / 8 - 1 = k) as Ek by (rewrite Hsz; Z.to_euclidean_division_equations; lia).
  rewrite Ek. rewrite -> Z.mod_small by done.
  set (pre' := pre ++ [z2b (chain_first xs upper); z2b k] ++ x_body x).
  assert (zlen pre' = zlen pre + ext_size x) as Hp' by (rewrite /pre' !zlen_app !zlen_cons zlen_nil /ext_size; lia).
  assert (full = pre' ++ chain_bytes xs upper ++ payload) as ->.
  { rewrite /full /pre'. cbn [chain_bytes]. rewrite Ek ?app_assoc //. }
  replace (zlen pre + (k + 1) * 8) with (zlen pre') by lia.
  apply IH; [done..|lia|by rewrite Hp'].
Qed.

Lemma v6_split h : v6_ok h →
  ∃ a b c d, v6_flow h = [a; b; c; d] ∧ length (v6_bytes h) = (40 + Z.to_nat (zsum ext_size (v6_exts h)) + length (v6_payload h))%nat.
Proof.
  intros [Hf Hs Hd _ _ _ _ _]. destruct (v6_flow h) as [|a [|b [|c [|d [|]]]]] eqn:E; try done. exists a, b, c, d.
  split; [done|]. rewrite /v6_bytes E !length_app Hs Hd. pose proof (zlen_chain_bytes (v6_exts h) (v6_upper h)) as H.
  rewrite /zlen in H. simpl. lia.
Qed.

Lemma v6_reads h n s :
  v6_ok h → IP6_HDR_SIZE <= n → let p := ztake n (v6_bytes h) in
  getSpecificHdr p IPPROTO_ICMPV6 s =
    (if chain_overread n IP6_HDR_SIZE (v6_exts h) then UB "read behind the captured packet"
     else Ok (if v6_upper h =? IPPROTO_ICMPV6 then Some (v6_hdr_size h) else None), s) ∧
  rd_bytes p 8 16 s = (Ok (v6_src h), s) ∧ rd_bytes p 24 16 s = (Ok (v6_dst h), s) ∧
  rd_be16 p 4 s = (Ok (zsum ext_size (v6_exts h) + zlen (v6_payload h)), s) ∧
  rd p (v6_hdr_size h) s =
    (if n <=? v6_hdr_size h then UB "read behind the captured packet"
     else Ok (from_option b2z 0 (head (v6_payload h))), s).
Proof.
  intros Hok Hn p. destruct (v6_split h Hok) as (a & b & c & d & Hfl & Hlen).
  destruct Hok as [_ Hs Hd Hxs Hu Hne Hp Ht]. pose proof (chain_size _ Hxs) as Hc.
  pose proof (zlen_nonneg (v6_exts h)). pose proof (zlen_nonneg (v6_payload h)).
  rewrite /IP6_HDR_SIZE in Hn.
  assert (∀ i, (i < 8)%nat → v6_bytes h !! i = ([a; b; c; d] ++ be16 (zsum ext_size (v6_exts h) + zlen (v6_payload h)) ++
     [z2b (chain_first (v6_exts h) (v6_upper h)); v6_hlim h]) !! i) as Hl.
  { intros i Hi. rewrite /v6_bytes Hfl. by do 8 (destruct i as [|i]; [done|]); lia. }
  set (pre := [a; b; c; d] ++ be16 (zsum ext_size (v6_exts h) + zlen (v6_payload h)) ++
     [z2b (chain_first (v6_exts h) (v6_upper h)); v6_hlim h]) in Hl |- *.
  assert (v6_bytes h = pre ++ v6_src h ++ v6_dst h ++ chain_bytes (v6_exts h) (v6_upper h) ++ v6_payload h) as Hb
    by rewrite /v6_bytes Hfl //.
  split_and!.
  - rewrite /getSpecificHdr.
    step_ok (rd_take (v6_bytes h) n 6 _ s (Hl 6%nat ltac:(lia)) ltac:(lia)).
    rewrite b2z_z2b. rewrite -> Z.mod_small by by apply chain_first_range.
    assert (IP6_HDR_SIZE = zlen (pre ++ v6_src h ++ v6_dst h)) as Hpre by (rewrite !zlen_app /zlen Hs Hd //).
    assert (p = ztake n ((pre ++ v6_src h ++ v6_dst h) ++ chain_bytes (v6_exts h) (v6_upper h) ++ v6_payload h)) as Hp40
      by (rewrite /p Hb; f_equal; by rewrite !app_assoc).
    assert (length p = Nat.min (Z.to_nat n) (length (v6_bytes h))) as Hlp by apply length_take.
    destruct (chain_overread n IP6_HDR_SIZE (v6_exts h)) eqn:Ec;
      rewrite /v6_hdr_size Hpre {2}Hp40; rewrite Hpre in Ec.
    + apply getSpecificHdr_loop_overreads; [done..|lia| |done].
      apply chain_overread_true in Ec; [|done]. rewrite -Hpre /IP6_HDR_SIZE in Ec |- *. lia.
    + apply getSpecificHdr_loop_chain; [done..| |done].
      apply chain_overread_false in Ec as [->|Ec]; [simpl; lia| |done].
      rewrite -Hpre /IP6_HDR_SIZE /zlen in Ec. rewrite /zlen in Hc. lia.
  - rewrite /p Hb. apply rd_bytes_take; [done|rewrite /zlen Hs //|lia].
  - rewrite /p Hb app_assoc. apply rd_bytes_take; [rewrite zlen_app /zlen Hs //|rewrite /zlen Hd //|lia].
  - apply rd_be16_take; [lia|apply (Hl 4%nat); lia|apply (Hl 5%nat); lia|lia|lia].
  - destruct (Z.leb_spec n (v6_hdr_size h)) as [Hge|Hlt].
    { apply rd_behind. pose proof (zlen_ztake_le n (v6_bytes h)). rewrite /p. lia. }
    destruct (v6_payload h) as [|x l] eqn:Epl; [done|]. apply rd_take; [|rewrite /v6_hdr_size /IP6_HDR_SIZE in Hlt |- *; lia].
    assert (v6_bytes h = (pre ++ v6_src h ++ v6_dst h ++ chain_bytes (v6_exts h) (v6_upper h)) ++ x :: l) as ->
      by (rewrite Hb -!app_assoc //).
    rewrite -> (lookup_app_at _ _ _ 0); [done|].
    rewrite !zlen_app zlen_chain_bytes /v6_hdr_size /IP6_HDR_SIZE /zlen Hs Hd /=. lia.
Qed.

Lemma query_size_payload h : v6_ok h →
  query_size (zsum ext_size (v6_exts h) + zlen (v6_payload h)) (v6_hdr_size h) = zlen (v6_payload h).
Proof.
  intros [_ _ _ Hxs _ _ _ Ht]. pose proof (chain_size _ Hxs). pose proof (zlen_nonneg (v6_exts h)).
  pose proof (zlen_nonneg (v6_payload h)). rewrite /query_size /v6_hdr_size.
  replace (_ - _) with (zlen (v6_payload h)) by lia. rewrite -> uwrap_small by (rewrite /fits; lia). apply i32_small. lia.
Qed.

(** The filter reads behind the first [n] bytes of the packet: a header of the
    chain lies there, or the message itself does and the filter looks at it. *)
Definition mld_overreads (ft : filter_type) (n : Z) (h : ipv6) : bool :=
  chain_overread n IP6_HDR_SIZE (v6_exts h) ||
  ((v6_upper h =? IPPROTO_ICMPV6) && bool_decide (v6_dst h = mld_group ft) && (n <=? v6_hdr_size h)).

Lemma mld_ActiveFilter_exact h n d :
  v6_ok h → IP6_HDR_SIZE <= n → m_addrFamily d = AF_INET6 →
  mld_ActiveFilter (ztake n (v6_bytes h)) d =
    if mld_overreads ACTIVE n h then (UB "read behind the captured packet", d) else answered (mld_answer ACTIVE h) d.
Proof.
  intros Hok Hn Hf. destruct (v6_reads h n d Hok Hn) as (R1 & _ & R3 & R4 & R5).
  rewrite /mld_ActiveFilter. step_ok (eq_refl : gets m_addrFamily d = (Ok (m_addrFamily d), d)).
  rewrite Hf Z.eqb_refl /mld_overreads. rewrite /mbind /M_bind R1. destruct (chain_overread _ _ _); [done|].
  rewrite /mld_answer. destruct (v6_upper h =? IPPROTO_ICMPV6); [|done].
  rewrite R3 !andb_true_l. destruct (bool_decide (v6_dst h = MLD_TEST_GROUP)) eqn:E; rewrite /= E; [|done].
  rewrite R5. destruct (n <=? v6_hdr_size h); [done|].
  destruct (_ =? MLD_LISTENER_QUERY); [|done]. rewrite R4. cbv zeta. rewrite query_size_payload //.
  rewrite /MLDv1_HDR_SIZE /MLD2_MIN_HDR_SIZE. by repeat case_match.
Qed.

Lemma mld_PassiveFilter_exact h n d :
  v6_ok h → IP6_HDR_SIZE <= n → m_addrFamily d = AF_INET6 →
  mld_PassiveFilter (ztake n (v6_bytes h)) d =
    if mld_overreads PASSIVE n h then (UB "read behind the captured packet", d) else answered (mld_answer PASSIVE h) d.
Proof.
  intros Hok Hn Hf. destruct (v6_reads h n d Hok Hn) as (R1 & _ & R3 & R4 & R5).
  rewrite /mld_PassiveFilter. step_ok (eq_refl : gets m_addrFamily d = (Ok (m_addrFamily d), d)).
  rewrite Hf Z.eqb_refl /mld_overreads. rewrite /mbind /M_bind R1. destruct (chain_overread _ _ _); [done|].
  rewrite /mld_answer. destruct (v6_upper h =? IPPROTO_ICMPV6); [|done].
  rewrite R3 !andb_true_l. destruct (bool_decide (v6_dst h = IPV6_ALL_NODES)) eqn:E; rewrite /= E; [|done].
  rewrite R5. destruct (n <=? v6_hdr_size h); [done|].
  destruct (_ =? MLD_LISTENER_QUERY); [|done]. rewrite R4. cbv zeta. rewrite query_size_payload //.
  rewrite /MLDv1_HDR_SIZE /MLD2_MIN_HDR_SIZE. by repeat case_match.
Qed.

(** ** A run of a sniffer

    A frame on the wire, as its capture of at most [PACKET_LEN] bytes; [link]
    is the Ethernet header, or empty on a point-to-point interface. *)

Inductive frame := F4 (h : ipv4) | F6 (h : ipv6).
Definition frame_class (f : frame) : dis_class := match f with F4 _ => igmp_dis | F6 _ => mld_dis end.
Definition frame_bytes (f : frame) : bytes := match f with F4 h => v4_bytes h | F6 h => v6_bytes h end.
Definition frame_ok (f : frame) : Prop := match f with F4 h => v4_ok h | F6 h => v6_ok h end.
Definition frame_src (f : frame) : sockaddr :=
  {| ss_family := class_family (frame_class f); sa_addr := match f with F4 h => v4_src h | F6 h => v6_src h end |}.
Definition answer (ft : filter_type) (f : frame) : option dis_proto_type :=
  match f with F4 h => igmp_answer ft h | F6 h => mld_answer ft h end.

Definition capture (link : bytes) (f : frame) : pkt :=
  {| pk_data := ztake PACKET_LEN (link ++ frame_bytes f); pk_len := zlen (link ++ frame_bytes f) |}.

(** The filter reads behind the captured bytes of the frame. *)
Definition overreads (ft : filter_type) (link : bytes) (f : frame) : bool :=
  match f, ft with
  | F4 _, _ | F6 _, INIT_FILTER => false
  | F6 h, _ => mld_overreads ft (PACKET_LEN - zlen link) h
  end.

(** A sniffer that runs for the protocol [c] with the filter [ft]. *)
Record sniffing (c : dis_class) (ft : filter_type) (link : bytes) (d : basic_dis) : Prop := {
  sn_class : b_class d = c;
  sn_family : m_addrFamily d = class_family c;
  sn_filter : m_filtertype d = ft;
  sn_raw : m_saveRawData d = false;
  sn_link : zlen link = if m_hasEthernetFrame d then SIZE_ETHERNET else 0;
  sn_handle : m_init_done (m_pcapS d) = true
}.

(** What a frame changes. *)
Definition see (ft : filter_type) (d : basic_dis) (f : frame) : basic_dis :=
  match answer ft f with
  | None => d
  | Some t => b_set_found (setType t (setHostAddr (frame_src f) (m_discoveredProtocol d))) true (b_set_type t d)
  end.

Lemma capture_ip link f :
  zdrop (zlen link) (pk_data (capture link f)) = ztake (PACKET_LEN - zlen link) (frame_bytes f).
Proof.
  rewrite /capture /zdrop /ztake /= skipn_firstn_comm /zlen Nat2Z.id drop_app_length. f_equal. lia.
Qed.

Lemma link_size c ft link d : sniffing c ft link d → 0 <= zlen link <= 14.
Proof. intros [_ _ _ _ -> _]. rewrite /SIZE_ETHERNET. destruct (m_hasEthernetFrame d); lia. Qed.

Lemma apply_filter_exact c ft link d f :
  sniffing c ft link d → frame_class f = c → frame_ok f →
  apply_filter (ztake (PACKET_LEN - zlen link) (frame_bytes f)) d =
    if overreads ft link f then (UB "read behind the captured packet", d) else answered (answer ft f) d.
Proof.
  intros Hs Hcl Hok. pose proof (link_size _ _ _ _ Hs) as Hl. destruct Hs as [Hc Hfam Hft _ _ _].
  rewrite /apply_filter. step_ok (eq_refl : gets m_filtertype d = (Ok (m_filtertype d), d)). rewrite Hft.
  rewrite -Hcl in Hc, Hfam. clear Hcl.
  destruct ft; [rewrite /ActiveFilter|rewrite /PassiveFilter|];
    [step_ok (eq_refl : gets b_class d = (Ok (b_class d), d)); rewrite Hc..|];
    destruct f as [h|h]; cbn [frame_class frame_bytes frame_ok answer class_family overreads] in *.
  - apply v4_ok_hdr in Hok as Hh. apply igmp_ActiveFilter_exact; [done|rewrite /PACKET_LEN; lia|done].
  - apply mld_ActiveFilter_exact; [done|rewrite /PACKET_LEN /IP6_HDR_SIZE; lia|done].
  - apply v4_ok_hdr in Hok as Hh. apply igmp_PassiveFilter_exact; [done|rewrite /PACKET_LEN; lia|done].
  - apply mld_PassiveFilter_exact; [done|rewrite /PACKET_LEN /IP6_HDR_SIZE; lia|done].
  - rewrite /igmp_answer. by case_match.
  - rewrite /mld_answer. by case_match.
Qed.

Lemma src_read f n (d : basic_dis) : frame_ok f → 86 <= n →
  (let p := ztake n (frame_bytes f) in
   match frame_class f with igmp_dis => rd_bytes p 12 4 d | mld_dis => rd_bytes p 8 16 d end) =
  (Ok (sa_addr (frame_src f)), d).
Proof.
  destruct f as [h|h]; intros Hok Hn; cbv zeta.
  - apply v4_ok_hdr in Hok as Hh. apply v4_reads; [done|lia].
  - apply v6_reads; [done|rewrite /IP6_HDR_SIZE; lia].
Qed.

Lemma callback_sees c ft link d f :
  sniffing c ft link d → frame_class f = c → frame_ok f →
  pcapLoop_Callback (capture link f) d =
    if overreads ft link f then (UB "read behind the captured packet", d) else (Ok tt, see ft d f).
Proof.
  intros Hs Hcl Hok. pose proof (apply_filter_exact c ft link d f Hs Hcl Hok) as Ha.
  pose proof (link_size _ _ _ _ Hs) as Hl. destruct Hs as [Hc Hfam Hft Hraw Hlink Hh].
  rewrite /pcapLoop_Callback. step_ok (eq_refl : gets m_hasEthernetFrame d = (Ok (m_hasEthernetFrame d), d)).
  cbv zeta. set (ip := if m_hasEthernetFrame d then _ else _).
  assert (ip = ztake (PACKET_LEN - zlen link) (frame_bytes f)) as ->.
  { rewrite -capture_ip // /ip Hlink. by destruct (m_hasEthernetFrame d). }
  destruct (overreads ft link f); [by rewrite /mbind /M_bind Ha|].
  rewrite /see /answered in Ha |- *. destruct (answer ft f) as [t|]; step_ok Ha; [|done].
  set (d1 := b_set_type t d).
  assert (on_pcap stop_multi_receive d1 = (Ok tt, d1)) as E1.
  { rewrite /on_pcap /zoom /stop_multi_receive /mbind /M_bind /get /= Hh /=. by destruct d. }
  step_ok E1. step_ok (eq_refl : gets m_addrFamily d1 = (Ok (m_addrFamily d), d1)).
  pose proof (src_read f (PACKET_LEN - zlen link) d1 Hok ltac:(rewrite /PACKET_LEN; lia)) as Hsrc. cbv zeta in Hsrc.
  rewrite Hfam -Hcl. destruct f as [h|h]; cbn [frame_class class_family] in Hsrc |- *; rewrite /=.
  all: rewrite /mbind /M_bind in Hsrc |- *; rewrite Hsrc /= Hraw //.
Qed.

Lemma see_sniffing c ft link d f : sniffing c ft link d → sniffing c ft link (see ft d f).
Proof. intros [? ? ? ? ? ?]. rewrite /see. destruct (answer ft f); by split. Qed.

(** The last answer of a run. *)
Definition last_answer (ft : filter_type) (fs : list frame) : option (dis_proto_type * sockaddr) :=
  last (omap (λ f, (λ t, (t, frame_src f)) <$> answer ft f) fs).

Lemma pcap_loop_sees c ft link fs : ∀ d,
  sniffing c ft link d → Forall (λ f, frame_class f = c ∧ frame_ok f) fs → existsb (overreads ft link) fs = false →
  thread_PcapLoop (capture link <$> fs) d = (Ok tt, foldl (see ft) d fs).
Proof.
  induction fs as [|f fs IH]; intros d Hd H Ho; [done|]. inversion H as [|? ? (H1 & H2) Hfs]; subst.
  cbn in Ho. apply orb_false_iff in Ho as [Ho Hos]. pose proof (callback_sees _ ft link d f Hd eq_refl H2) as E.
  rewrite Ho in E. rewrite /thread_PcapLoop /=. step_ok E. apply IH; [by apply see_sniffing|done..].
Qed.

Lemma pcap_loop_overreads c ft link fs : ∀ d,
  sniffing c ft link d → Forall (λ f, frame_class f = c ∧ frame_ok f) fs → existsb (overreads ft link) fs = true →
  ∃ d', thread_PcapLoop (capture link <$> fs) d = (UB "read behind the captured packet", d').
Proof.
  induction fs as [|f fs IH]; intros d Hd H Ho; [done|]. inversion H as [|? ? (H1 & H2) Hfs]; subst.
  cbn in Ho. pose proof (callback_sees _ ft link d f Hd eq_refl H2) as E. rewrite /thread_PcapLoop /=.
  destruct (overreads ft link f); [exists d; by rewrite /mbind /M_bind E|].
  step_ok E. apply IH; [by apply see_sniffing|done..].
Qed.

Lemma sees_found ft fs : ∀ d,
  m_protocolFound (foldl (see ft) d fs) = (bool_decide (is_Some (last_answer ft fs)) || m_protocolFound d) ∧
  m_discoveredProtocol (foldl (see ft) d fs) =
    match last_answer ft fs with
    | Some (t, a) => setType t (setHostAddr a (m_discoveredProtocol d))
    | None => m_discoveredProtocol d
    end.
Proof.
  induction fs as [|f fs IH]; intros d; [done|]. cbn [foldl]. destruct (IH (see ft d f)) as [-> ->].
  rewrite /last_answer /= /see. destruct (answer ft f) as [t|]; cbn [fmap option_fmap option_map]; [|done].
  rewrite last_cons. destruct (last _) as [[t' a]|]; done.
Qed.

(** ** What a sniffer promises to the tank *)

(** Started in the environment [e], the sniffer answers [b]; after it was
    joined, it has found [r]. *)
Definition promises {D} {I : basic_dis_interface D} (start : sniff_env → M D bool) (d : D) (e : sniff_env)
    (b : bool) (r : option dis_proto) : Prop :=
  ∃ d1 d2, start e d = (Ok b, d1) ∧ joinSniffer d1 = (Ok tt, d2) ∧
    foundProtocol d2 = (Ok (bool_decide (is_Some r)), d2) ∧
    ∀ p, r = Some p → getfoundProtocol d2 = (Ok p, d2).

(** Every call succeeds, and libpcap hands over the captures of [fs]. *)
Record all_ok (e : sniff_env) (link : bytes) (fs : list frame) : Prop := {
  ok_flags : ∃ flags, e_flags e = Some flags ∧ zlen link = if Z.land flags IFF_POINTOPOINT =? 0 then SIZE_ETHERNET else 0;
  ok_pcap : e_lookupnet e = true ∧ e_open_live e = true ∧ e_compile e = true ∧ e_setfilter e = true;
  ok_socket : e_socket e = true ∧ e_join e = true ∧ e_leave e = true;
  ok_packets : e_packets e = capture link <$> fs
}.

Lemma initSniffer_ok c ft e t link fs :
  all_ok e link fs → ∃ d, initSniffer e t ft (class_family c) false (basic_dis_new c) = (Ok true, d) ∧
    sniffing c ft link d ∧ m_protocolFound d = false ∧ m_discoveredProtocol d = dis_proto_new.
Proof.
  intros [(flags & Hf & Hl) (H1 & H2 & H3 & H4) _ _]. rewrite /initSniffer Hf H1 H2 H3 H4. eexists.
  split; [reflexivity|]. by destruct c.
Qed.

Definition found_protocol (a : option (dis_proto_type * sockaddr)) : option dis_proto :=
  (λ '(t, s), {| m_type := t; m_hostAddr := s; m_rawData := []; m_rawData_size := 0 |}) <$> a.

Lemma join_promise c ft link fs d e :
  sniffing c ft link d → m_protocolFound d = false → m_discoveredProtocol d = dis_proto_new →
  Forall (λ f, frame_class f = c ∧ frame_ok f) fs → existsb (overreads ft link) fs = false →
  e_packets e = capture link <$> fs →
  ∃ d2, joinSniffer_dis (startSniffer e d).2 = (Ok tt, d2) ∧
    m_protocolFound d2 = bool_decide (is_Some (found_protocol (last_answer ft fs))) ∧
    ∀ p, found_protocol (last_answer ft fs) = Some p → m_discoveredProtocol d2 = p.
Proof.
  intros Hd Hnf Hnp Hfs Ho He. rewrite /startSniffer He /joinSniffer_dis.
  change ((modify (b_set_threads (Some (capture link <$> fs))) d).2) with (b_set_threads (Some (capture link <$> fs)) d).
  set (d1 := b_set_threads (Some (capture link <$> fs)) d).
  assert (sniffing c ft link d1) as Hd1 by (destruct Hd; by split).
  step_ok (eq_refl : gets b_threads d1 = (Ok (Some (capture link <$> fs)), d1)).
  step_ok (pcap_loop_sees c ft link fs d1 Hd1 Hfs Ho). eexists. split; [reflexivity|].
  destruct (sees_found ft fs d1) as [Hf Hp]. cbn [b_set_threads m_protocolFound m_discoveredProtocol].
  rewrite Hf Hp /d1 /= Hnf Hnp orb_false_r /found_protocol.
  destruct (last_answer ft fs) as [[ty a]|]; split; [done| |done|done]. by intros p [= <-].
Qed.

Lemma sniffActive_promise c e link fs :
  all_ok e link fs → Forall (λ f, frame_class f = c ∧ frame_ok f) fs → existsb (overreads ACTIVE link) fs = false →
  promises sniffActive (basic_dis_new c) e true (found_protocol (last_answer ACTIVE fs)).
Proof.
  intros Hok Hfs Ho. destruct (initSniffer_ok c ACTIVE e AKTIVE_TIMEOUT link fs Hok) as (d & Hi & Hd & Hnf & Hnp).
  destruct (join_promise c ACTIVE link fs d e Hd Hnf Hnp Hfs Ho (ok_packets _ _ _ Hok)) as (d2 & Hj & Hf & Hp).
  destruct (ok_socket _ _ _ Hok) as (S1 & S2 & S3). exists (startSniffer e d).2, d2. split_and!; [|exact Hj| |].
  - cbn. rewrite /sniffActive_dis. step_ok (eq_refl : gets b_class (basic_dis_new c) = (Ok c, basic_dis_new c)).
    rewrite S1. step_ok Hi. by rewrite S2 S3.
  - by rewrite /= /gets Hf.
  - intros p Hr. by rewrite /= /gets (Hp p Hr).
Qed.

Lemma sniffPassiv_promise c e link fs :
  all_ok e link fs → Forall (λ f, frame_class f = c ∧ frame_ok f) fs → existsb (overreads PASSIVE link) fs = false →
  promises sniffPassiv (basic_dis_new c) e true (found_protocol (last_answer PASSIVE fs)).
Proof.
  intros Hok Hfs Ho. destruct (initSniffer_ok c PASSIVE e PASSIV_TIMEOUT link fs Hok) as (d & Hi & Hd & Hnf & Hnp).
  destruct (join_promise c PASSIVE link fs d e Hd Hnf Hnp Hfs Ho (ok_packets _ _ _ Hok)) as (d2 & Hj & Hf & Hp).
  exists (startSniffer e d).2, d2. split_and!; [|exact Hj| |].
  - cbn. rewrite /sniffPassiv_dis. step_ok (eq_refl : gets b_class (basic_dis_new c) = (Ok c, basic_dis_new c)).
    by step_ok Hi.
  - by rewrite /= /gets Hf.
  - intros p Hr. by rewrite /= /gets (Hp p Hr).
Qed.

(** A frame that is read beyond its capture ends the sniffer while it is
    joined. *)
Lemma sniffActive_overreads c e link fs :
  all_ok e link fs → Forall (λ f, frame_class f = c ∧ frame_ok f) fs → existsb (overreads ACTIVE link) fs = true →
  ∃ d1 d2, sniffActive_dis e (basic_dis_new c) = (Ok true, d1) ∧
    joinSniffer_dis d1 = (UB "read behind the captured packet", d2).
Proof.
  intros Hok Hfs Ho. destruct (initSniffer_ok c ACTIVE e AKTIVE_TIMEOUT link fs Hok) as (d & Hi & Hd & _).
  destruct (ok_socket _ _ _ Hok) as (S1 & S2 & S3). pose proof (ok_packets _ _ _ Hok) as He.
  set (d1 := b_set_threads (Some (capture link <$> fs)) d).
  assert (sniffing c ACTIVE link d1) as Hd1 by (destruct Hd; by split).
  destruct (pcap_loop_overreads c ACTIVE link fs d1 Hd1 Hfs Ho) as (d2 & E). exists d1, d2. split.
  - rewrite /sniffActive_dis. step_ok (eq_refl : gets b_class (basic_dis_new c) = (Ok c, basic_dis_new c)).
    rewrite S1. step_ok Hi. rewrite S2 S3 /startSniffer He. done.
  - rewrite /joinSniffer_dis. step_ok (eq_refl : gets b_threads d1 = (Ok (Some (capture link <$> fs)), d1)).
    by rewrite /mbind /M_bind E.
Qed.

(** ** The tank, against the interface *)

Section tank.
  Context {D : Type} {I : basic_dis_interface D}.
  Variables (start : sniff_env → M D bool) (version : discovery_ip_version) (d4 d6 : D) (e4 e6 : sniff_env).
  Variables (b4 b6 : bool) (r4 r6 : option dis_proto).
  Hypotheses (P4 : promises start d4 e4 b4 r4) (P6 : version ≠ IP4 → promises start d6 e6 b6 r6).

(** What a sniffer adds to the protocols of the interface. *)
Definition added (b : bool) (r : option dis_proto) : list dis_proto := if b then option_list r else [].

Lemma on_dis_ok {A} i (m : M D A) (s : refresh) d d' r :
  r_dis s !! i = Some d → m d = (r, d') →
  on_dis i m s = (r, {| r_dis := <[i := d']> (r_dis s); r_dpItem := r_dpItem s |}).
Proof. intros H1 H2. by rewrite /on_dis H1 H2. Qed.

(** A round of the second loop. *)
Lemma collect_cons i b rc (r : option dis_proto) d1 d2 (s : refresh) :
  r_dis s !! i = Some d1 → joinSniffer d1 = (Ok tt, d2) → foundProtocol d2 = (Ok (bool_decide (is_Some r)), d2) →
  (∀ p, r = Some p → getfoundProtocol d2 = (Ok p, d2)) →
  collect i (b :: rc) s = collect (S i) rc {| r_dis := <[i := d2]> (r_dis s); r_dpItem := r_dpItem s ++ added b r |}.
Proof.
  intros Hi HJ HF HG. cbn [collect]. step_ok (on_dis_ok i joinSniffer s d1 d2 (Ok tt) Hi HJ).
  set (s1 := {| r_dis := _; r_dpItem := _ |}).
  assert (r_dis s1 !! i = Some d2) as H1 by (apply list_lookup_insert_eq; by eapply lookup_lt_Some).
  assert (∀ A (m : M D A) a, m d2 = (Ok a, d2) → on_dis i m s1 = (Ok a, s1)) as Hm.
  { intros A m a Hma. rewrite (on_dis_ok i m s1 d2 d2 (Ok a) H1 Hma). f_equal. by rewrite /s1 /= list_insert_insert_eq. }
  destruct b; cbn [added]; [|rewrite app_nil_r; done].
  rewrite /mbind /M_bind (Hm _ _ _ HF).
  destruct r as [p|]; [|by rewrite bool_decide_false ?app_nil_r //; intros []].
  rewrite -> bool_decide_true by by eexists. by rewrite (Hm _ _ _ (HG p eq_refl)).
Qed.

Lemma check_started_state n rc (s : @refresh D) : check_started n rc s = ((check_started n rc s).1, s).
Proof. revert rc. induction n as [|n IH]; intros [|[] rc]; try done. apply IH. Qed.

Lemma run_sniffers_run count ps : ∃ s : @refresh D,
  run_sniffers start version d4 d6 e4 e6 count ps =
  ((check_started (count (length (by_version version b4 b6))) (by_version version b4 b6) s).1,
   ps ++ concat (by_version version (added b4 r4) (added b6 r6))).
Proof.
  destruct P4 as (x1 & x2 & S4 & J4 & F4 & G4).
  rewrite /run_sniffers. destruct version; cbn [by_version concat];
    [|destruct (P6 ltac:(done)) as (y1 & y2 & S6 & J6 & F6 & G6)..].
  - assert (start_all start 0 [e4] {| r_dis := [d4]; r_dpItem := ps |} = (Ok [b4], {| r_dis := [x1]; r_dpItem := ps |})) as E
      by (rewrite /= /mbind /M_bind /on_dis /= S4 //).
    step_ok E. rewrite /mbind /M_bind (collect_cons 0 b4 [] r4 x1 x2) //=.
    eexists. rewrite check_started_state /= app_nil_r //.
  - assert (start_all start 0 [e6] {| r_dis := [d6]; r_dpItem := ps |} = (Ok [b6], {| r_dis := [y1]; r_dpItem := ps |})) as E
      by (rewrite /= /mbind /M_bind /on_dis /= S6 //).
    step_ok E. rewrite /mbind /M_bind (collect_cons 0 b6 [] r6 y1 y2) //=.
    eexists. rewrite check_started_state /= app_nil_r //.
  - assert (start_all start 0 [e4; e6] {| r_dis := [d4; d6]; r_dpItem := ps |} =
      (Ok [b4; b6], {| r_dis := [x1; y1]; r_dpItem := ps |})) as E
      by (rewrite /= /mbind /M_bind /on_dis /= S4 /= S6 //).
    step_ok E. rewrite /mbind /M_bind (collect_cons 0 b4 [b6] r4 x1 x2) //.
    rewrite (collect_cons 1 b6 [] r6 y1 y2) //=.
    eexists. rewrite check_started_state /= app_nil_r app_assoc //.
Qed.

Lemma check_started_all rc (s : @refresh D) : check_started (length rc) rc s = (Ok (forallb id rc), s).
Proof. by induction rc as [|[] rc IH]. Qed.

Lemma check_started_behind n rc (s : @refresh D) : (length rc < n)%nat → Forall (eq true) rc →
  check_started n rc s = (UB "vector<bool> index out of range", s).
Proof.
  revert rc. induction n as [|n IH]; intros rc Hn Hrc; [lia|].
  destruct Hrc as [|b rc <- Hrc]; [done|]. simpl in Hn |- *. apply IH; [lia|done].
Qed.

(** The protocols the sniffers found are added in their order; the result
    tells whether all of them could be started. *)
Lemma run_sniffers_spec ps :
  run_sniffers start version d4 d6 e4 e6 id ps =
  (Ok (forallb id (by_version version b4 b6)), ps ++ concat (by_version version (added b4 r4) (added b6 r6))).
Proof. destruct (run_sniffers_run id ps) as [s ->]. by rewrite check_started_all. Qed.

End tank.

(** Undefined behaviour of the second sniffer is that of the refresh. *)
Lemma run_sniffers_breaks {D} {I : basic_dis_interface D} start version (d4 d6 : D) e4 e6 b4 r4 b6 d1 d2 w ps :
  promises start d4 e4 b4 r4 → version ≠ IP4 → start e6 d6 = (Ok b6, d1) → joinSniffer d1 = (UB w, d2) →
  (run_sniffers start version d4 d6 e4 e6 id ps).1 = UB w.
Proof.
  intros (x1 & x2 & S4 & J4 & F4 & G4) Hv S6 J6. rewrite /run_sniffers. destruct version; [done|..]; cbn [by_version].
  - assert (start_all start 0 [e6] {| r_dis := [d6]; r_dpItem := ps |} = (Ok [b6], {| r_dis := [d1]; r_dpItem := ps |})) as E
      by (rewrite /= /mbind /M_bind /on_dis /= S6 //).
    step_ok E. cbn [collect]. by rewrite /mbind /M_bind (on_dis_ok 0 joinSniffer _ d1 d2 (UB w)).
  - assert (start_all start 0 [e4; e6] {| r_dis := [d4; d6]; r_dpItem := ps |} =
      (Ok [b4; b6], {| r_dis := [x1; d1]; r_dpItem := ps |})) as E
      by (rewrite /= /mbind /M_bind /on_dis /= S4 /= S6 //).
    step_ok E. rewrite /mbind /M_bind (collect_cons 0 b4 [b6] r4 x1 x2) //. cbn [collect].
    by rewrite /mbind /M_bind (on_dis_ok 1 joinSniffer _ d1 d2 (UB w)).
Qed.

(** ** What the answers are *)

Lemma igmp_answer_igmp ft h t : igmp_answer ft h = Some t → is_igmp t = true.
Proof. rewrite /igmp_answer => H. by repeat case_match; simplify_eq. Qed.
Lemma mld_answer_mld ft h t : mld_answer ft h = Some t → is_igmp t = false ∧ is_mld t = true.
Proof. rewrite /mld_answer => H. by repeat case_match; simplify_eq. Qed.

Lemma last_answer_inv ft fs t a : last_answer ft fs = Some (t, a) → ∃ f, f ∈ fs ∧ answer ft f = Some t ∧ a = frame_src f.
Proof.
  rewrite /last_answer. intros H. apply last_Some_elem_of, list_elem_of_omap in H as (f & Hf & H).
  destruct (answer ft f) as [t'|] eqn:E; simplify_eq/=. by exists f.
Qed.

Lemma last_answer_kind ft c fs t a :
  Forall (λ f, frame_class f = c) fs → last_answer ft fs = Some (t, a) →
  match c with igmp_dis => is_igmp t = true | mld_dis => is_igmp t = false ∧ is_mld t = true end.
Proof.
  rewrite Forall_forall. intros Hc (f & Hf & Ha & _)%last_answer_inv. specialize (Hc f Hf).
  destruct f as [h|h], c; simpl in Hc; try done; [by eapply igmp_answer_igmp|by eapply mld_answer_mld].
Qed.

(** The header of an IPv4 datagram always lies within the capture. *)
Lemma igmp_fits ft link fs : Forall (λ f, frame_class f = igmp_dis ∧ frame_ok f) fs → existsb (overreads ft link) fs = false.
Proof. by induction 1 as [|[h|h] fs [Hc _] _ IH]. Qed.

(** The interface the module is told about for an answer. *)
Definition router (addr : sockaddr) (t : dis_tank_item) (o : option (dis_proto_type * sockaddr)) : list sd_if :=
  match o with
  | Some (ty, a) => [{| m_ifname := it_name t; m_ifindex := it_index t; m_ifaddr := addr;
                        m_mcast_ver := mcast_ver ty; m_parent := a |}]
  | None => []
  end.

Lemma sd_ifs_of_found version t fs4 fs6 :
  usable t = true → Forall (λ f, frame_class f = igmp_dis) fs4 → Forall (λ f, frame_class f = mld_dis) fs6 →
  sd_ifs_of FULL version (it_set_protocols
    (concat (by_version version (option_list (found_protocol (last_answer ACTIVE fs4)))
                                (option_list (found_protocol (last_answer ACTIVE fs6))))) t) =
  concat (by_version version (router (addr4_of t) t (last_answer ACTIVE fs4)) (router (addr6_of t) t (last_answer ACTIVE fs6))).
Proof.
  intros Hu H4 H6.
  rewrite /sd_ifs_of (_ : usable (it_set_protocols _ t) = true) //.
  pose proof (last_answer_kind ACTIVE igmp_dis fs4) as K4. pose proof (last_answer_kind ACTIVE mld_dis fs6) as K6.
  destruct (last_answer ACTIVE fs4) as [[t4 a4]|], (last_answer ACTIVE fs6) as [[t6 a6]|], version.
  all: try specialize (K4 _ _ H4 eq_refl); try specialize (K6 _ _ H6 eq_refl) as [K61 K62].
  all: rewrite /search_protocols /= ?K4 /= ?K61 ?K62 //=.
Qed.

(** ** Theorems *)

(** C16: on an interface whose sniffers can be started, the discovery of the
    service ([FULL], as root) reports exactly the routers whose answers were
    captured: for IGMP and for MLD (as the IP version asks) the last query for
    the test group that was handed over, with its version read from the length
    of the query and its source address as the parent; other packets, IPv4
    options and chains of IPv6 extension headers make no difference, and the
    other interfaces are reported as they were.  That holds unless one of the
    captured IPv6 packets is one the filter reads beyond its capture of a
    hundred bytes: a header of its chain starts behind them, or it is an
    ICMPv6 message for the test group and the message does ([overreads]);
    then the worker reads behind the capture. *)
Theorem discovery_finds_routers {L} {I : basic_dis_interface L} version t (l4 l6 : L) e4 e6 link fs4 fs6 pre post :
  usable t = true → m_dpItem t = [] → all_ok e4 link fs4 → all_ok e6 link fs6 →
  Forall (λ f, frame_class f = igmp_dis ∧ frame_ok f) fs4 →
  Forall (λ f, frame_class f = mld_dis ∧ frame_ok f) fs6 →
  if bool_decide (version ≠ IP4) && existsb (overreads ACTIVE link) fs6 then
    (sd_thread_worker FULL version true l4 l6 e4 e6 (m_dpItem t)).1 = UB "read behind the captured packet"
  else
    ∃ ps, sd_thread_worker FULL version true l4 l6 e4 e6 (m_dpItem t) = (Ok tt, ps) ∧
      getSD_if FULL version (pre ++ it_set_protocols ps t :: post) =
        getSD_if FULL version pre ++
        concat (by_version version (router (addr4_of t) t (last_answer ACTIVE fs4))
                                   (router (addr6_of t) t (last_answer ACTIVE fs6))) ++
        getSD_if FULL version post.
Proof.
  intros Hu Hnil Ok4 Ok6 H4 H6.
  pose proof (sniffActive_promise igmp_dis e4 link fs4 Ok4 H4 (igmp_fits ACTIVE link fs4 H4)) as P4.
  destruct (bool_decide (version ≠ IP4) && existsb (overreads ACTIVE link) fs6) eqn:Eo.
  { apply andb_true_iff in Eo as [Hv%bool_decide_eq_true Ho].
    destruct (sniffActive_overreads mld_dis e6 link fs6 Ok6 H6 Ho) as (d1 & d2 & Hs & Hj).
    pose proof (run_sniffers_breaks sniffActive version (basic_dis_new igmp_dis) (basic_dis_new mld_dis) e4 e6 true _ true d1 d2
      _ (m_dpItem t) P4 Hv Hs Hj) as E.
    rewrite /sd_thread_worker /refreshProtocolFast /mbind /M_bind. destruct (run_sniffers _ _ _ _ _ _ _ _) as [r ps].
    cbn in E. by rewrite E. }
  assert (version ≠ IP4 → promises sniffActive (basic_dis_new mld_dis) e6 true (found_protocol (last_answer ACTIVE fs6))) as P6.
  { intros Hv. apply (sniffActive_promise mld_dis e6 link fs6 Ok6 H6).
    apply andb_false_iff in Eo as [Hn%bool_decide_eq_false|Ho]; [by destruct Hn|done]. }
  eexists. split.
  - rewrite /sd_thread_worker Hnil.
    by step_ok (run_sniffers_spec sniffActive version (basic_dis_new igmp_dis) (basic_dis_new mld_dis) e4 e6 true true _ _ P4 P6 []).
  - rewrite /getSD_if bind_app /=. f_equal. f_equal. apply sd_ifs_of_found; [done|..].
    + by eapply Forall_impl; [exact H4|]; intros f [].
    + by eapply Forall_impl; [exact H6|]; intros f [].
Qed.

(** An IGMPv3 query with a router alert, and an MLDv1 query behind a
    hop-by-hop header, on an Ethernet interface. *)
Definition ex_query4 : ipv4 :=
  {| v4_tos := NUL; v4_id := 7; v4_frag := 0; v4_ttl := z2b 1; v4_proto := 2; v4_cksum := 0;
     v4_src := z2b <$> [10; 0; 0; 1]; v4_dst := IGMP_TEST_GROUP; v4_options := z2b <$> [148; 4; 0; 0];
     v4_payload := z2b 17 :: replicate 11 NUL |}.
Definition ex_query6 : ipv6 :=
  {| v6_flow := z2b <$> [96; 0; 0; 0]; v6_hlim := z2b 1; v6_src := z2b <$> [254; 128; 0; 0; 0; 0; 0; 0; 0; 0; 0; 0; 0; 0; 0; 1];
     v6_dst := MLD_TEST_GROUP; v6_exts := [{| x_kind := 0; x_body := z2b <$> [5; 2; 0; 0; 1; 0] |}]; v6_upper := 58;
     v6_payload := z2b 130 :: replicate 23 NUL |}.
Definition ex_env (f : frame) : sniff_env :=
  {| e_flags := Some 4163; e_lookupnet := true; e_open_live := true; e_compile := true; e_setfilter := true;
     e_socket := true; e_join := true; e_leave := true; e_packets := [capture (replicate 14 NUL) f] |}.
Definition ex_item : dis_tank_item :=
  {| it_name := str "eth0"; it_index := 2; it_flags := Some 4163; it_addr := z2b <$> [10; 0; 0; 9]; it_addr6 := [];
     m_dpItem := [] |}.

Lemma ex_query4_ok : v4_ok ex_query4.
Proof. split; [vm_compute; intuition congruence|done|done|by exists 1|done|done]. Qed.
Lemma ex_query6_ok : v6_ok ex_query6.
Proof.
  split; [done|done|done| |done|done|done|done].
  apply Forall_singleton. split; [done|]. exists 0. split; [done|lia].
Qed.
Lemma ex_env_ok f : all_ok (ex_env f) (replicate 14 NUL) [f].
Proof. split; [by exists 4163|done|done|done]. Qed.

(** A valid packet whose hop-by-hop header is longer than the capture. *)
Definition ex_long6 : ipv6 :=
  {| v6_flow := z2b <$> [96; 0; 0; 0]; v6_hlim := z2b 1; v6_src := replicate 16 NUL; v6_dst := MLD_TEST_GROUP;
     v6_exts := [{| x_kind := 0; x_body := replicate 62 NUL |}]; v6_upper := 58; v6_payload := z2b 130 :: replicate 23 NUL |}.
Lemma ex_long6_ok : v6_ok ex_long6.
Proof.
  split; [done|done|done| |done|done|done|done].
  apply Forall_singleton. split; [done|]. exists 7. split; [done|lia].
Qed.

(** Both routers are reported: IGMPv3 with the address 10.0.0.1, and MLDv1;
    and the long packet breaks the worker. *)
Lemma discovery_finds_routers_witness :
  (∃ ps, sd_thread_worker FULL IPALL true (basic_dis_new igmp_dis) (basic_dis_new mld_dis)
          (ex_env (F4 ex_query4)) (ex_env (F6 ex_query6)) [] = (Ok tt, ps) ∧
    map m_mcast_ver (getSD_if FULL IPALL [it_set_protocols ps ex_item]) = [3; 1]) ∧
  (sd_thread_worker FULL IPALL true (basic_dis_new igmp_dis) (basic_dis_new mld_dis)
     (ex_env (F4 ex_query4)) (ex_env (F6 ex_long6)) []).1 = UB "read behind the captured packet".
Proof.
  split.
  - destruct (discovery_finds_routers IPALL ex_item (basic_dis_new igmp_dis) (basic_dis_new mld_dis) (ex_env (F4 ex_query4))
      (ex_env (F6 ex_query6)) (replicate 14 NUL) [F4 ex_query4] [F6 ex_query6] [] [] eq_refl eq_refl (ex_env_ok _) (ex_env_ok _)) as (ps & H1 & H2).
    + apply Forall_singleton. split; [done|apply ex_query4_ok].
    + apply Forall_singleton. split; [done|apply ex_query6_ok].
    + exists ps. split; [exact H1|]. cbn [app] in H2. rewrite H2. vm_compute. reflexivity.
  - apply (discovery_finds_routers IPALL ex_item (basic_dis_new igmp_dis) (basic_dis_new mld_dis) (ex_env (F4 ex_query4))
      (ex_env (F6 ex_long6)) (replicate 14 NUL) [F4 ex_query4] [F6 ex_long6] [] [] eq_refl eq_refl (ex_env_ok _) (ex_env_ok _)).
    + apply Forall_singleton. split; [done|apply ex_query4_ok].
    + apply Forall_singleton. split; [done|apply ex_long6_ok].
Defined.

(** C40: the querier that was discovered is never passed on: [hc_init] writes
    its address as "ip://...", which is not a URI of the library, so that the
    URI is empty and neither the querier nor the neighbours of any new
    instance are set, whatever was found. *)
Theorem discovered_querier_lost inet_ntop vif :
  Forall (λ i, n_querier i = None ∧ n_neighbors i = []) (hc_init_discovery inet_ntop vif).
Proof.
  assert (∀ s, parent_uri inet_ntop s = None) as H.
  { intros s. rewrite /parent_uri. destruct (inet_ntop (m_parent s)) as [a|]; [|done].
    cbn [mbind option_bind]. rewrite (_ : str "ip://" ++ a = str "ip" ++ ":"%char :: str "//" ++ a) //.
    rewrite (uri_of_other_scheme (str "ip") _ ltac:(apply (bool_decide_unpack _); by vm_compute) ltac:(by vm_compute)) //. }
  apply Forall_forall. intros i (s & Hs & Hi)%list_elem_of_omap.
  rewrite /instance_of in Hi. destruct (inet_ntop (m_ifaddr s)) as [a|]; [|done]. cbn [mbind option_bind] in Hi.
  destruct (bool_decide (a = [])); [done|]. injection Hi as <-. by rewrite /= H.
Qed.

(** The discovery without root reads behind the vector of results, with any
    sniffers that could be started, since its last loop counts to three. *)
Theorem refresh_protocol_lite_reads_behind {D} {I : basic_dis_interface D} version (d4 d6 : D) e4 e6 r4 r6 ps :
  promises sniffPassiv d4 e4 true r4 → promises sniffPassiv d6 e6 true r6 →
  (refresh_protocol_lite version d4 d6 e4 e6 ps).1 = UB "vector<bool> index out of range".
Proof.
  intros P4 P6. rewrite /refresh_protocol_lite.
  destruct (run_sniffers_run sniffPassiv version d4 d6 e4 e6 true true r4 r6 P4 (λ _, P6) (const 3%nat) ps) as [s ->].
  cbn [fst]. rewrite -> check_started_behind; [done|destruct version; simpl; lia|destruct version; repeat constructor].
Qed.

Lemma refresh_protocol_lite_reads_behind_witness :
  (refresh_protocol_lite IPALL (basic_dis_new igmp_dis) (basic_dis_new mld_dis) (ex_env (F4 ex_query4))
     (ex_env (F6 ex_query6)) []).1 = UB "vector<bool> index out of range".
Proof.
  apply (refresh_protocol_lite_reads_behind IPALL _ _ _ _
    (found_protocol (last_answer PASSIVE [F4 ex_query4])) (found_protocol (last_answer PASSIVE [F6 ex_query6]))).
  - apply (sniffPassiv_promise igmp_dis _ (replicate 14 NUL)); [apply ex_env_ok|..].
    + apply Forall_singleton. split; [done|apply ex_query4_ok].
    + by vm_compute.
  - apply (sniffPassiv_promise mld_dis _ (replicate 14 NUL)); [apply ex_env_ok|..].
    + apply Forall_singleton. split; [done|apply ex_query6_ok].
    + by vm_compute.
Defined.

(** ** The capture device is released *)

Definition holds (s : pcap_sniffer) : Prop :=
  ps_handles s = Z.b2z (m_init_done s) ∧ ps_codes s = Z.b2z (m_filterAllocated s) ∧
  (m_filterAllocated s = true → m_init_done s = true).

Inductive sniff_op := OpActive (e : sniff_env) | OpPassiv (e : sniff_env) | OpClose.
Definition run_op (d : basic_dis) (o : sniff_op) : basic_dis :=
  match o with
  | OpActive e => (sniffActive_dis e d).2
  | OpPassiv e => (sniffPassiv_dis e d).2
  | OpClose => (closeSniffer d).2
  end.

Lemma close_holds d : holds (m_pcapS d) → holds (m_pcapS (closeSniffer d).2) ∧ m_init_done (m_pcapS (closeSniffer d).2) = false.
Proof.
  destruct (m_pcapS d) as [i f hs cs] eqn:E. intros (H1 & H2 & H3). simpl in *.
  rewrite /closeSniffer /mbind /M_bind /on_pcap /zoom /= E. subst. rewrite /holds /=.
  destruct i, f; naive_solver.
Qed.

Lemma initSniffer_holds e t ft fam raw d : holds (m_pcapS d) → holds (m_pcapS (initSniffer e t ft fam raw d).2).
Proof.
  intros H. destruct (close_holds d H) as [Hc Hi]. rewrite /initSniffer.
  set (d1 := (closeSniffer d).2) in *.
  step_ok (eq_refl : closeSniffer d = (Ok tt, d1)). clearbody d1.
  destruct d1 as [cl pt af sr he fi ti di pf [i f hs cs] th]. destruct Hc as (H1 & H2 & H3). simpl in *. subst i hs cs.
  destruct f; [by specialize (H3 eq_refl)|].
  destruct (e_flags e), (e_lookupnet e), (e_open_live e), (e_compile e), (e_setfilter e); by vm_compute.
Qed.

(** However often a sniffer is started, with whatever answers of the system,
    its destructor gives back the capture handle and the compiled filter, each
    exactly once. *)
Theorem sniffer_releases_device c ops :
  let d := (closeSniffer (foldl run_op (basic_dis_new c) ops)).2 in
  ps_handles (m_pcapS d) = 0 ∧ ps_codes (m_pcapS d) = 0.
Proof.
  assert (∀ d, holds (m_pcapS d) → holds (m_pcapS (foldl run_op d ops))) as G.
  { induction ops as [|o ops IH]; [done|]. intros d H. apply IH. destruct o as [e|e|]; simpl; [..|by apply close_holds].
    - rewrite /sniffActive_dis. step_ok (eq_refl : gets b_class d = (Ok (b_class d), d)).
      destruct (e_socket e); [|done].
      pose proof (initSniffer_holds e AKTIVE_TIMEOUT ACTIVE (class_family (b_class d)) false d H) as Hi.
      rewrite /mbind /M_bind. destruct (initSniffer _ _ _ _ _ d) as [[[]| |] d']; try done.
      destruct (e_join e), (e_leave e); done.
    - rewrite /sniffPassiv_dis. step_ok (eq_refl : gets b_class d = (Ok (b_class d), d)).
      pose proof (initSniffer_holds e PASSIV_TIMEOUT PASSIVE (class_family (b_class d)) false d H) as Hi.
      rewrite /mbind /M_bind. by destruct (initSniffer _ _ _ _ _ d) as [[[]| |] d']. }
  intros d. destruct (close_holds _ (G (basic_dis_new c) ltac:(done))) as [(H1 & H2 & H3) Hi].
  subst d. rewrite H1 H2 Hi. split; [done|]. destruct (m_filterAllocated _); [|done]. rewrite H3 in Hi; done.
Qed.
